(* ===== verification/_CoqProject ===== *)
-Q . S2P
Prelude.v
GoBase.v
GoStrings.v
Json.v
Valkey.v
Match.v
Allocator.v
MatchQueue.v
ValkeyQueue.v
QueueRefinement.v
QueueStream.v
LeaderLock.v
Leadership.v
AssignmentStore.v
Matchmaker.v
SharedWorker.v
LossyWorker.v
Database.v
Social.v
Storage.v
ObjectStore.v
Gcs.v
Group.v
Chat.v
ChatStream.v
Leaderboard.v
LeaderboardIndex.v
Auth.v
Token.v
Room.v
RoomManager.v
RoomServer.v
Agones.v
WasmPlugin.v
WasmMatch.v
Gateway.v
GatewayIsolation.v
GatewayErrors.v
Interceptors.v
Metrics.v
Oidc.v
Bootstrap.v
Process.v
Commands.v
Admin.v
Base64.v
Client.v
ClientSession.v
EndToEnd.v
Journey.v
TitleFiles.v
Rps.v
RpsCli.v
RpsMatch.v
