(* ===== verification/Prelude.v ===== *)
(** * vfx: a verification development

    vfx is a game backend in Go: a gateway (accounts, friends, groups, chat, leaderboards, file
    storage, matchmaking), a matchmaker worker and a room server that runs matches around a game
    plugin.  This library translates its logic, definition by definition, and proves what makes it
    correct.  Go names are kept; paths below are relative to src/internal unless they say otherwise.

    ** How the program fits together

    The processes are started by internal/cli, which wires them with internal/bootstrap from the
    environment (infra/config).  A request to the gateway passes the interceptors
    (infra/connectrpc/interceptor), which count it, attach the time and read the player off an access
    token (infra/token).  The RPC handlers (presentation/gateway) decode it, call a usecase
    (usecase/<service>) and map its domain errors to RPC codes.  A usecase runs one transaction
    (infra/db) over repositories (infra/repository), which are SQL statements over the schema; the
    domain packages (domain/<service>) hold the entities and their validation.  Channel messages
    reach the subscribers of every gateway replica through infra/chatstream.  Operators use a second
    process (presentation/admin) over the same database, object store (infra/blobstore) and queue.
    Game clients call all this through src/sdk/client/go.

    CreateTicket enqueues a ticket in the match queue (infra/matchqueue), kept in memory or, when
    replicas share it, in Valkey.  The matchmaker worker (usecase/match/matchmaker.go), whose
    replicas elect a leader (infra/leaderlock), reads the pending pool, selects a group
    (domain/match), claims it, allocates a room, signs session tokens, records assignments
    (infra/assignmentstore) and publishes the outcome to the ticket's subscribers.  A player then
    opens a session on the room server (presentation/room) with its session token; the server finds
    or creates the match (usecase/room/manager.go) and joins it; the match loop
    (usecase/room/match.go) feeds inputs to the plugin and broadcasts its deltas.  A plugin is Go code
    in the binary, or a WebAssembly module (infra/plugin/wazerohost) built with src/sdk/plugin/go.

    ** The files

    - [Prelude]: the state-and-error monad [M], tactics, the hint database [vfx], list, map and
      option lemmas.
    - [GoBase]: machine integers ([u64], [i64], [u32], [i32] with their wrap-around), time and
      duration, uuid as sixteen bytes, Go string order, binary64, Go's unspecified map iteration
      ([RangeOrder]: any permutation), canonical pairs.
    - [GoStrings]: UTF-8 decoding, rune counting, [TrimSpace], [path.Clean] and [path.Join].
    - [Json]: what encoding/json keeps of a value, and codecs with their round trip.
    - [Valkey]: programs of requests ([prog]), the server as a class with its laws, the runs of one
      program ([run]) and of any number of them interleaved ([net_step]).
    - [Match]: domain/match.  Tickets, party normalisation, compatibility, windows widening with the
      waiting time, [SelectGroup].
    - [MatchQueue]: infra/matchqueue/inmem.go.  State: tickets, subscriber lists, channels.
    - [ValkeyQueue]: infra/matchqueue/valkey.go.  State: the server's keys.  [QueueRefinement]
      relates it to [MatchQueue]; [QueueStream] follows a subscriber through a growing stream.
    - [LeaderLock]: infra/leaderlock.  State: the lease, and each replica's point in its loop.
      [Leadership] adds the worker that a leader runs.
    - [AssignmentStore]: infra/assignmentstore, both stores.
    - [Matchmaker]: usecase/match.  The worker against the interface [MatchmakerPorts] with its laws
      [MatchmakerLaws]; [MemWorld] discharges them with [MatchQueue] and [AssignmentStore];
      [SharedWorker] with [ValkeyQueue] and the Valkey store, through [QueueRefinement];
      [LossyWorker] keeps them when calls fail before or after they took effect.
    - [Database]: infra/db and schema/db/schema.sql.  Thirteen tables, the constraints an insert
      checks, [Session_run] and the transaction entry points [RW] and [RO].
    - [Social], [Storage], [Group], [Chat], [Leaderboard], [Auth]: domain package, repositories and
      usecase of one service each.  State: the database, and for [Storage] the blob store, for
      [Chat] the broker, for [Leaderboard] the sorted set, each behind a class.
    - [LeaderboardIndex]: the index of infra/repository/leaderboard_valkey.go over a sorted set that
      keeps float64 scores, against the database.
    - [ChatStream]: infra/chatstream/valkey.go, the broker that replicas share.
    - [Token]: infra/token and the authentication interceptor, over a JWT library given by its laws.
    - [Room]: usecase/room/match.go and domain/plugin.  State: [Match], with the trace of everything
      sent to sessions and to the plugin.
    - [RoomManager]: usecase/room/manager.go as a step relation over any number of threads.
    - [RoomServer]: presentation/room, from the session's first frame to the calls on its match, and
      from the match's frames to the wire.
    - [WasmPlugin]: wazerohost and the guest SDK, the two sides of the call protocol over linear
      memory.  [WasmMatch] runs [Room]'s match on a hosted plugin.
    - [Allocator]: infra/allocator; [Agones]: infra/agones, a step relation; [Gcs]: infra/blobstore,
      which discharges [Storage]'s port and the laws of [ObjectStore]; [Oidc]: infra/oidc.
    - [Gateway]: presentation/gateway.  All handlers over one state, the [World] of the usecases;
      [handle] is a request behind the interceptor.  [GatewayIsolation] and [GatewayErrors] prove
      what holds of every request, by logics that compose along the calls.  [Interceptors] is the
      chain in front of the handlers, and why [handle] stands for it.
    - [Admin]: presentation/admin and usecase/admin.  State: database, object store, queue.
    - [Client], [ClientSession], [Base64]: src/sdk/client/go, over any network.  [EndToEnd] lets the
      network be [Gateway] and a store that honours signed URLs; [Journey] adds the worker of [Matchmaker] and the
      room's door; [TitleFiles] adds [Admin].
    - [Bootstrap]: internal/bootstrap, infra/config, infra/postgres, infra/valkey and
      domain/plugin/registry.go.  State: the trace of what was opened and closed.  [Process]: the
      run functions of internal/cli, and infra/tracing, on top of it; [Commands]: the tree of commands,
      the migrations and the two binaries.
    - [Metrics]: infra/metrics and the ports of the worker and of the room, put under [Matchmaker]'s
      worker and beside [RoomManager]'s steps.
    - [Rps]: src/examples/rps/plugin, an instance of [Room]'s plugin class.  [RpsCli]: the terminal
      client, src/examples/rps/cmd/rps-cli, on [Client] and [ClientSession]; [RpsMatch] seats two of
      them in [Room]'s match, from the hands typed to the end both see.

    ** How state and effects are modelled

    An operation that mutates shared state is a function of type [M S A]: it takes the state and
    gives a value or an error, and the state afterwards (a failed operation keeps what it had
    already written, unless a transaction rolls it back).  A mutex-protected method is one atomic
    step.  Where the code gives up its lock, or other transactions commit in between, the model has
    an explicit point there: [mgr_step] in [RoomManager], [yield] in [Room], [interleave] in [Auth],
    and lists of operations ([run_ops] and its like) elsewhere.  A method that talks to Valkey is a
    [prog]; [net_step] interleaves the requests of any number of them, each of which the server
    answers, answers with an error, or carries out without the answer arriving.  An RPC handler is an
    [Rpc]: an action over the [World] that ends in a response or in a code with its error.

    Fresh identifiers, random tokens and the clock are arguments.  Third-party code and ports are
    classes: the text form of uuids, the JWT library, the hash of a refresh token, the OpenID Connect
    library, the storage client, the Agones API, the Valkey server, the WebAssembly module, the
    network and the plugin; a theorem that relies on
    documented behaviour of one takes the corresponding law class, and its witness instantiates it.

    ** What the theorems show

    - Matchmaking: a ticket is handed to at most one match; a selected group is sound, compatible
      with its anchor, keeps parties whole and does not depend on map order; the worker's loop
      terminates, and settles every ticket of a claim it knows it won; the queue never panics.
    - The shared queue: across replicas whose requests interleave and fail, a ticket is still claimed
      once; one call after the other on a server that answers and lets no key lapse it gives the
      in-memory queue's answers; a subscriber receives its ticket's events in
      order up to the final one; documents round-trip.
    - The leader lock: as long as the lease does not lapse, at most one replica has a matchmaking
      worker; a worker runs only while its replica is in office.
    - Accounts: logins converge under races, refresh tokens rotate and can be revoked, linking never
      moves a credential; one invariant over every sequence of operations.
    - Tokens and admission: a token grants what it was signed for and nothing else; nobody enters a
      match without a session token for that player and that match.
    - The gateway: whatever a request is, it changes only rows of its caller; the code of a failure
      is a function of its root cause; a failed request leaves the database as it was.
    - Friends and groups: refinement of an abstract graph and of abstract clans, with the invariants
      of both.
    - Chat: paging is complete, a channel is closed to non-members; what a subscriber receives is a
      contiguous part of the channel's history unless the stream was cut under it.
    - Storage: quotas hold, keys are injective, a commit records what the blob store reports.
    - Leaderboards: the best score is kept, the two ranking queries agree; the index gives the verdicts
      and ranks of the database, up to the order of tied players, whenever its keys expire, and an
      outage of it is harmless.
    - Rooms: inputs are delivered exactly once and in order, the end of a match closes the plugin and
      every session that joined in time; the manager never leaks an instance nor runs two live matches under one id; the example game
      is a fair best of three and ends; a match on a WebAssembly plugin is the match on the game itself.
      Two clients play that game to its end over channels that lose, repeat and reorder.
    - End to end: a login identifies the player to every later call, a file that was written is what
      is read, a group that is paired ends up in the seats of one room, and a title file lives from the
      operator's PUT to the DELETE.
    - Third parties: an OIDC login needs the provider's own token for this deployment, matches never
      share an Agones server, the GCS adapter keeps the contract of its port, the sidecar sees Ready,
      Health and Shutdown in this order.
    - Metrics: which port is wired changes nothing but the registry; the gauge of a mode reads what is
      left in its queue after the worker's pass, the room's gauge the matches that have not ended.
    - Operations: the token guards every route but the probes, and a request touches only the title
      file it names; the interceptors change nothing but the counters, which are exact; a command
      that ends or fails to start closes what it opened (the room's manager apart), in order; the plain
      binary refuses to run a room without a module, the example's hosts its plugin.

    ** Fuel and bounds

    Recursion is structural nearly everywhere.  [Matchmaker.processMode] takes fuel; its theorem
    shows that one more iteration than there are pending tickets is enough.  A client that pages
    through a history in [Chat] takes one more page than there are messages.  The loops that the
    code ends only by cancelling their context, which are the tails of [ValkeyQueue.Subscribe] and
    [ChatStream] and the election loop of [LeaderLock], take the number of reads, or the list of
    terms, they go through; the theorems hold for every such number.  So does the loop of the worker,
    whose ticks need more fuel than any pool has tickets.  Integers wrap where the Go
    type does; a theorem that needs a bound states it (the quota theorem: limits that leave room for
    one file in 63 bits).

    ** What is not modelled

    Logging, spans and what programs print; the exposition of the metrics; the parsing of command
    lines (cobra) and of the environment; the atlas process itself; generated protobuf code,
    transports, TLS and listeners; the helpers of the tests, which no process of the system runs.
    Statements run one after the other inside a transaction, and transactions one after the other
    except where [Auth] interleaves them: isolation anomalies below serialisability are outside the
    model. *)

From Stdlib Require Export ZArith Lia.
From Stdlib Require Export Sorted.
From stdpp Require Export prelude gmap strings list option.

(** ** Automation shared by every component *)

Create HintDb vfx.

(** Case analysis on the first [match]/[if] of the goal or of a hypothesis, keeping the equation. *)
Ltac break_goal :=
  match goal with
  | |- context [match ?x with _ => _ end] => destruct x eqn:?
  end.

Ltac break_hyp H :=
  match type of H with
  | context [match ?x with _ => _ end] => destruct x eqn:?
  end.

(** Split every conditional of a hypothesis and discard the impossible branches. *)
Ltac break_all H := repeat (break_hyp H; simplify_eq/=).

(** Turn boolean tests into propositions. *)
Ltac to_prop :=
  repeat match goal with
  | H : (_ && _)%bool = true |- _ => apply andb_true_iff in H as [? ?]
  | H : (_ && _)%bool = false |- _ => apply andb_false_iff in H
  | H : (_ || _)%bool = true |- _ => apply orb_true_iff in H
  | H : (_ || _)%bool = false |- _ => apply orb_false_iff in H as [? ?]
  | H : negb _ = true |- _ => apply negb_true_iff in H
  | H : negb _ = false |- _ => apply negb_false_iff in H
  | H : bool_decide _ = true |- _ => apply bool_decide_eq_true in H
  | H : bool_decide _ = false |- _ => apply bool_decide_eq_false in H
  | H : (_ <? _)%Z = true |- _ => apply Z.ltb_lt in H
  | H : (_ <? _)%Z = false |- _ => apply Z.ltb_ge in H
  | H : (_ <=? _)%Z = true |- _ => apply Z.leb_le in H
  | H : (_ <=? _)%Z = false |- _ => apply Z.leb_gt in H
  | H : (_ =? _)%Z = true |- _ => apply Z.eqb_eq in H
  | H : (_ =? _)%Z = false |- _ => apply Z.eqb_neq in H
  end.

(** ** Go errors

    One constructor per sentinel the program declares with [errors.New]; [Wrap] is
    [fmt.Errorf("...: %w", err)], [ErrText] an error that carries only a message, and the two
    database constructors are what the PostgreSQL driver reports. *)
Inductive error :=
  (* domain/match *)
  | ErrTicketNoPlayer | ErrTicketNoGameMode | ErrPartyTooLarge | ErrTicketNotFound
  (* domain/player *)
  | ErrInvalidNickname | ErrRefreshTokenInvalid | ErrPlayerNotFound | ErrIdentityNotFound
  | ErrIdentityAlreadyLinked
  (* usecase/auth *)
  | ErrInvalidCredential
  (* domain/chat *)
  | ErrSelfMessage | ErrInvalidBody | ErrNotChannelMember
  (* domain/group *)
  | ErrInvalidName | ErrGroupNotFound | ErrNotOwner | ErrOwnerMustDelete | ErrNotMember
  (* domain/leaderboard *)
  | ErrLeaderboardNotFound | ErrEntryNotFound
  (* domain/social *)
  | ErrSelfFriend | ErrSelfBlock | ErrAlreadyFriends | ErrAlreadyRequested | ErrRequestNotFound
  | ErrNotFriends | ErrBlocked
  (* domain/storage and usecase/storage *)
  | ErrInvalidFilename | ErrFileTooLarge | ErrFileNotFound | ErrQuotaExceeded
  | ErrUploadIncomplete | ErrObjectNotFound
  (* the driver *)
  | PgNoRows
  | PgConstraint (code : string)
  (* everything else *)
  | ErrText (msg : string)
  | Wrap (msg : string) (inner : error).

#[export] Instance error_eq_dec : EqDecision error.
Proof. solve_decision. Defined.

(** [errors.Is]: walk the chain of wrapped errors looking for the target. *)
Fixpoint errors_Is (e target : error) : bool :=
  bool_decide (e = target) ||
  match e with
  | Wrap _ inner => errors_Is inner target
  | _ => false
  end.

Lemma errors_Is_refl e : errors_Is e e = true.
Proof. destruct e; cbn [errors_Is]; rewrite bool_decide_eq_true_2 by done; done. Qed.

(** ** Fallible results: the pair (value, error) of a Go call of which exactly one is meaningful *)
Inductive res (A : Type) :=
  | Ok (a : A)
  | Err (e : error).
Arguments Ok {A} a.
Arguments Err {A} e.

#[export] Instance res_ret : MRet res := λ A a, Ok a.
#[export] Instance res_bind : MBind res := λ A B f r,
  match r with
  | Ok a => f a
  | Err e => Err e
  end.

Definition is_ok {A} (r : res A) : bool :=
  match r with Ok _ => true | Err _ => false end.

Lemma res_bind_Ok {A B} (f : A → res B) (r : res A) (b : B) :
  (r ≫= f) = Ok b ↔ ∃ a, r = Ok a ∧ f a = Ok b.
Proof.
  destruct r as [a|e]; simpl; split.
  - intros H. by exists a.
  - by intros (? & [= ->] & H).
  - done.
  - by intros (? & ? & ?).
Qed.

(** ** Map iteration order

    A Go [range] over a map visits the entries in an unspecified order.  [range_order] is that
    order: an arbitrary rearrangement of the entry list, constrained only by [range_perm]. *)
Class RangeOrder := range_order : ∀ {A : Type}, list A → list A.
Class RangeOrderLaw (R : RangeOrder) : Prop :=
  range_perm : ∀ {A : Type} (l : list A), range_order l ≡ₚ l.

(** Two concrete orders: the enumeration order itself, and its reverse. *)
Definition range_id : RangeOrder := λ A l, l.
Definition range_rev : RangeOrder := λ A l, rev l.

Lemma range_id_law : RangeOrderLaw range_id.
Proof. by intros A l. Qed.

Lemma range_rev_law : RangeOrderLaw range_rev.
Proof. intros A l. unfold range_order, range_rev. apply Permutation_sym, Permutation_rev. Qed.

(** ** Sorting

    [isort less l] is what [sort.SliceStable(l, less)] leaves in [l]: the stable sort for the
    comparison [less].  Where the comparison is a strict total order on the elements, it is also
    what the unstable [sort.Slice] and [sort.Strings] leave. *)
Section isort.
Context {A : Type} (less : A → A → bool).

Fixpoint isort_insert (x : A) (l : list A) : list A :=
  match l with
  | [] => [x]
  | y :: l' => if less y x then y :: isort_insert x l' else x :: y :: l'
  end.

Fixpoint isort (l : list A) : list A :=
  match l with
  | [] => []
  | x :: l' => isort_insert x (isort l')
  end.

Lemma isort_insert_perm x l : isort_insert x l ≡ₚ x :: l.
Proof.
  induction l as [|y l IH]; simpl; [done|].
  destruct (less y x); [|done]. rewrite IH. by rewrite Permutation_swap.
Qed.

Lemma isort_perm l : isort l ≡ₚ l.
Proof.
  induction l as [|x l IH]; simpl; [done|].
  by rewrite isort_insert_perm, IH.
Qed.

Lemma elem_of_isort x l : x ∈ isort l ↔ x ∈ l.
Proof. by rewrite isort_perm. Qed.

Lemma length_isort l : length (isort l) = length l.
Proof. by rewrite isort_perm. Qed.

(** [¬ less y x], "x does not come after y", is the order the result is sorted by. *)
Definition not_after (x y : A) : Prop := less y x = false.

Section sorted.
Hypothesis less_asym : ∀ x y, less x y = true → less y x = false.
Hypothesis less_neg_trans : ∀ x y z, less y x = false → less z y = false → less z x = false.

Lemma isort_insert_sorted x l :
  StronglySorted not_after l → StronglySorted not_after (isort_insert x l).
Proof.
  induction 1 as [|y l Hs IH Hy]; simpl; [by repeat constructor|].
  destruct (less y x) eqn:E.
  - constructor; [done|]. apply list.Forall_forall. intros z Hz.
    rewrite isort_insert_perm in Hz. apply elem_of_cons in Hz as [->|Hz].
    + by apply less_asym.
    + by eapply list.Forall_forall in Hz; [|exact Hy].
  - constructor; [by constructor|]. constructor; [done|].
    eapply list.Forall_impl; [exact Hy|]. intros z Hz. by eapply less_neg_trans.
Qed.

Lemma isort_sorted l : StronglySorted not_after (isort l).
Proof. induction l; simpl; [constructor|]. by apply isort_insert_sorted. Qed.
End sorted.

(** Two sorted permutations of one list are equal when distinct members are always ordered. *)
Lemma sorted_perm_unique l1 l2 :
  (∀ x y, x ∈ l1 → y ∈ l1 → less x y = false → less y x = false → x = y) →
  StronglySorted not_after l1 → StronglySorted not_after l2 → l1 ≡ₚ l2 → l1 = l2.
Proof.
  intros Htot Hs1. revert l2.
  induction Hs1 as [|x l1 Hs1 IH Hx]; intros l2 Hs2 Hp.
  { by apply Permutation_nil_l in Hp. }
  destruct Hs2 as [|y l2 Hs2 Hy]; [by apply Permutation_nil_r in Hp|].
  assert (x = y) as ->.
  { assert (x ∈ y :: l2) as Hxin by (rewrite <- Hp; left).
    assert (y ∈ x :: l1) as Hyin by (rewrite Hp; left).
    apply elem_of_cons in Hxin as [->|Hxin]; [done|].
    pose proof Hyin as Hyin'.
    apply elem_of_cons in Hyin as [->|Hyin]; [done|].
    apply Htot; [left|done| |].
    - eapply list.Forall_forall in Hxin; [|exact Hy]. done.
    - eapply list.Forall_forall in Hyin; [|exact Hx]. done. }
  f_equal. apply IH; [|done|by eapply Permutation_cons_inv].
  intros a b Ha Hb. apply Htot; by right.
Qed.
End isort.

(** The result of a sort depends only on the multiset of elements when [less] separates them. *)
Lemma isort_unique {A} (less : A → A → bool) (l1 l2 : list A) :
  (∀ x y, less x y = true → less y x = false) →
  (∀ x y z, less y x = false → less z y = false → less z x = false) →
  (∀ x y, x ∈ l1 → y ∈ l1 → less x y = false → less y x = false → x = y) →
  l1 ≡ₚ l2 → isort less l1 = isort less l2.
Proof.
  intros Ha Ht Hs Hp. apply (sorted_perm_unique less).
  - intros x y Hx Hy. rewrite elem_of_isort in Hx, Hy. by apply Hs.
  - by apply isort_sorted.
  - by apply isort_sorted.
  - by rewrite (isort_perm less l1), (isort_perm less l2).
Qed.

(** ** Lists *)

Lemma StronglySorted_mono {A} (R R' : A → A → Prop) (l : list A) :
  (∀ x y, R x y → R' x y) → StronglySorted R l → StronglySorted R' l.
Proof.
  intros HR. induction 1; constructor; [done|]. eapply list.Forall_impl; [done|]. auto.
Qed.

Lemma NoDup_concat_mono {A} (ls ls' : list (list A)) :
  ls' `sublist_of` ls → NoDup (concat ls) → NoDup (concat ls').
Proof.
  induction 1 as [|l ls' ls Hs IH|l ls' ls Hs IH]; simpl; [done| |].
  - rewrite !list.NoDup_app. intros (H1 & H2 & H3). split_and!; [done| |by apply IH].
    intros x Hx Hin. apply (H2 x Hx).
    apply list_elem_of_In, in_concat in Hin as (m & Hm & Hxm).
    apply list_elem_of_In, in_concat. exists m. split; [|done].
    apply list_elem_of_In. apply list_elem_of_In in Hm. by eapply elem_of_sublist.
  - rewrite list.NoDup_app. intros (_ & _ & H3). by apply IH.
Qed.

Lemma elem_of_concat {A} (x : A) (ls : list (list A)) :
  x ∈ concat ls ↔ ∃ l, l ∈ ls ∧ x ∈ l.
Proof.
  rewrite list_elem_of_In, in_concat. setoid_rewrite list_elem_of_In. naive_solver.
Qed.

Lemma elem_of_snoc {A} (x y : A) (l : list A) : x ∈ l ++ [y] ↔ x ∈ l ∨ x = y.
Proof. by rewrite elem_of_app, list_elem_of_singleton. Qed.

Lemma elem_of_snoc_l {A} (x y : A) (l : list A) : x ∈ l → x ∈ l ++ [y].
Proof. rewrite elem_of_snoc. by left. Qed.

Lemma elem_of_snoc_r {A} (y : A) (l : list A) : y ∈ l ++ [y].
Proof. rewrite elem_of_snoc. by right. Qed.

#[export] Hint Resolve elem_of_snoc_l elem_of_snoc_r : vfx.

(** Close a decidable closed goal by evaluation. *)
Ltac by_compute :=
  match goal with |- ?P => refine (@bool_decide_eq_true_1 P _ _); vm_compute; reflexivity end.

(** Close a closed [∀ x, x ∈ l → P x] for a decidable [P] by evaluation. *)
Ltac by_compute_all := apply list.Forall_forall; by_compute.

(** ** Stateful, fallible operations

    [M S A] is a Go method that reads and updates the state [S] and returns a value or an error.
    The state survives an error, as a Go object does; a transaction discards it ([tx_run]). *)
Definition M (S A : Type) : Type := S → res A * S.

#[export] Instance M_ret {S} : MRet (M S) := λ A a s, (Ok a, s).
#[export] Instance M_bind {S} : MBind (M S) := λ A B f m s,
  match m s with
  | (Ok a, s') => f a s'
  | (Err e, s') => (Err e, s')
  end.

(** [err.Error()]: the text of an error. *)
Class ErrorText := error_text : error → string.

(** A Go panic, which ends the goroutine. *)
Definition panic (msg : string) : error := ErrText ("panic: " +:+ msg).

Definition fail {S A} (e : error) : M S A := λ s, (Err e, s).
Definition get {S} : M S S := λ s, (Ok s, s).
Definition gets {S A} (f : S → A) : M S A := λ s, (Ok (f s), s).
Definition put {S} (s : S) : M S unit := λ _, (Ok tt, s).
Definition modify {S} (f : S → S) : M S unit := λ s, (Ok tt, f s).
Definition lift_res {S A} (r : res A) : M S A := λ s, (r, s).

(** [v, err := m]: hand the error to the continuation instead of returning it. *)
Definition try {S A} (m : M S A) : M S (res A) := λ s,
  match m s with (r, s') => (Ok r, s') end.

(** [_ = m]: run for the effect and ignore the error. *)
Definition ignore {S A} (m : M S A) : M S unit := λ s, (Ok tt, (m s).2).

(** [if err := m; err != nil && !errors.Is(err, target) { return err }]. *)
Definition tolerate {S} (target : error) (m : M S unit) : M S unit := λ s,
  match m s with
  | (Err e, s') => if errors_Is e target then (Ok tt, s') else (Err e, s')
  | r => r
  end.

Definition when {S} (b : bool) (m : M S unit) : M S unit := if b then m else mret tt.

Definition result {S A} (p : res A * S) : res A := p.1.
Definition state {S A} (p : res A * S) : S := p.2.

Lemma M_bind_Ok {S A B} (m : M S A) (f : A → M S B) s s' (b : B) :
  (m ≫= f) s = (Ok b, s') ↔ ∃ a s1, m s = (Ok a, s1) ∧ f a s1 = (Ok b, s').
Proof.
  unfold mbind, M_bind. destruct (m s) as [[a|e] s1]; split.
  - intros H. by exists a, s1.
  - by intros (? & ? & [= -> ->] & H).
  - done.
  - by intros (? & ? & [=] & _).
Qed.

Lemma M_bind_eval {S A B} (m : M S A) (f : A → M S B) s :
  (m ≫= f) s = match m s with (Ok a, s1) => f a s1 | (Err e, s1) => (Err e, s1) end.
Proof. done. Qed.

(** Run [f] on every element in turn, as a [for range] loop with an effectful body. *)
Fixpoint for_each {S A} (f : A → M S unit) (l : list A) : M S unit :=
  match l with
  | [] => mret tt
  | x :: l' => _ ← f x; for_each f l'
  end.

(** Evaluate the monadic plumbing of a goal or hypothesis. *)
Ltac munfold := unfold mbind, M_bind, mret, M_ret, fail, get, gets, put, modify, lift_res, try, ignore, when, result, state in *.
