(* ===== verification/GoBase.v ===== *)
(** * The Go values the program computes with

    Machine integers, [time.Time] and [time.Duration], [uuid.UUID] as the [16]byte it is, the
    order of Go strings, and IEEE 754 binary64 as the specification floats of the Standard
    Library.  [UuidCodec] stands for the text functions of the third-party uuid package:
    [UUID.String] and [uuid.Parse]; [UuidCodecLaws] is their documented behaviour (the canonical
    form has 36 ASCII characters, none of them a slash, and parses back). *)

From Stdlib Require Export SpecFloat Strings.Byte Ascii String.
From S2P Require Import Prelude.
From stdpp Require Export vector.

Open Scope Z_scope.

(** ** Machine integers *)

Definition two64 : Z := 18446744073709551616.
Definition max_int64 : Z := 9223372036854775807.
Definition min_int64 : Z := -9223372036854775808.

(** The result of a [uint64] operation. *)
Definition u64 (z : Z) : Z := z mod two64.

(** The result of an [int64]/[int] operation, and of a conversion to it. *)
Definition i64 (z : Z) : Z := (z + 9223372036854775808) mod two64 - 9223372036854775808.

(** The conversion to [int32]. *)
Definition i32 (z : Z) : Z := (z + 2147483648) mod 4294967296 - 2147483648.

(** The result of a [uint32] operation. *)
Definition u32 (z : Z) : Z := z mod 4294967296.

Lemma u64_small z : 0 ≤ z < two64 → u64 z = z.
Proof. intros. unfold u64. by apply Z.mod_small. Qed.

Lemma u32_small z : 0 ≤ z < 4294967296 → u32 z = z.
Proof. intros. unfold u32. by apply Z.mod_small. Qed.

Lemma u64_range z : 0 ≤ u64 z < two64.
Proof. unfold u64. apply Z.mod_pos_bound. done. Qed.

Lemma i64_small z : min_int64 ≤ z ≤ max_int64 → i64 z = z.
Proof. unfold min_int64, max_int64, i64, two64. intros. rewrite Z.mod_small; lia. Qed.

Lemma i32_small z : -2147483648 ≤ z < 2147483648 → i32 z = z.
Proof. unfold i32. intros. rewrite Z.mod_small; lia. Qed.

(** ** Time

    An instant is its offset from the Unix epoch in nanoseconds; a duration is an [int64] number
    of nanoseconds. *)
Abbreviation time := Z.
Abbreviation duration := Z.

Definition Millisecond : duration := 1000000.
Definition Second : duration := 1000000000.

(** January 1, year 1, 00:00:00 UTC: the zero [time.Time]. *)
Definition zeroTime : time := -62135596800000000000.

Definition time_IsZero (t : time) : bool := t =? zeroTime.
Definition time_Before (t u : time) : bool := t <? u.
Definition time_After (t u : time) : bool := u <? t.
Definition time_Equal (t u : time) : bool := t =? u.
Definition time_Add (t : time) (d : duration) : time := t + d.

(** [Time.Sub] saturates at the bounds of [time.Duration]. *)
Definition time_Sub (t u : time) : duration :=
  if t - u <? min_int64 then min_int64
  else if max_int64 <? t - u then max_int64
  else t - u.

(** ** UUIDs *)

#[export] Instance byte_eq_dec : EqDecision byte.
Proof. intros a b. destruct (Byte.eqb a b) eqn:E; [left | right].
  - by apply Byte.byte_dec_bl.
  - intros ->. by rewrite Byte.byte_dec_lb in E.
Defined.

#[export] Program Instance byte_countable : Countable byte :=
  inj_countable Byte.to_N Byte.of_N _.
Next Obligation. intros b. apply Byte.of_to_N. Qed.

Abbreviation uuid := (vec byte 16).

(** The byte sequence as a UUID, when it has the right length. *)
Fixpoint vec_of_list (n : nat) (l : list byte) : option (vec byte n) :=
  match n, l with
  | O, [] => Some [#]
  | S n', b :: l' => v ← vec_of_list n' l'; Some (b ::: v)
  | _, _ => None
  end.

Lemma vec_of_list_to_list {n} (v : vec byte n) : vec_of_list n (vec_to_list v) = Some v.
Proof. induction v as [|b n v IH]; [done|]. simpl. by rewrite IH. Qed.

Definition uuid_decode (p : positive) : option uuid :=
  l ← (decode p : option (list byte)); vec_of_list 16 l.

Lemma uuid_decode_encode (v : uuid) : uuid_decode (encode (vec_to_list v)) = Some v.
Proof. unfold uuid_decode. rewrite decode_encode. apply vec_of_list_to_list. Qed.

#[export] Instance uuid_countable : Countable uuid :=
  {| encode := λ v, encode (vec_to_list v); decode := uuid_decode;
     decode_encode := uuid_decode_encode |}.

Definition uuid_Nil : uuid := vreplicate 16 x00.

(** [bytes.Compare]-style lexicographic order on byte sequences. *)
Fixpoint bytes_compare (a b : list byte) : comparison :=
  match a, b with
  | [], [] => Eq
  | [], _ => Lt
  | _, [] => Gt
  | x :: a', y :: b' =>
      match (Byte.to_N x ?= Byte.to_N y)%N with
      | Eq => bytes_compare a' b'
      | c => c
      end
  end.

Lemma byte_compare_eq x y : (Byte.to_N x ?= Byte.to_N y)%N = Eq ↔ x = y.
Proof.
  rewrite N.compare_eq_iff. split; [|by intros ->].
  intros H. apply (f_equal Byte.of_N) in H. rewrite !Byte.of_to_N in H. by simplify_eq.
Qed.

Lemma bytes_compare_eq a b : bytes_compare a b = Eq ↔ a = b.
Proof.
  revert b. induction a as [|x a IH]; intros [|y b]; simpl; [done..|].
  destruct (Byte.to_N x ?= Byte.to_N y)%N eqn:E.
  - apply byte_compare_eq in E as ->. rewrite IH. split; [by intros ->|by intros [= ->]].
  - split; [done|]. intros [= -> ->]. by rewrite N.compare_refl in E.
  - split; [done|]. intros [= -> ->]. by rewrite N.compare_refl in E.
Qed.

Lemma bytes_compare_antisym a b : bytes_compare b a = CompOpp (bytes_compare a b).
Proof.
  revert b. induction a as [|x a IH]; intros [|y b]; simpl; [done..|].
  rewrite (N.compare_antisym (Byte.to_N x)).
  destruct (Byte.to_N x ?= Byte.to_N y)%N; simpl; auto.
Qed.

Lemma bytes_compare_trans a b c :
  bytes_compare a b = Lt → bytes_compare b c = Lt → bytes_compare a c = Lt.
Proof.
  revert b c. induction a as [|x a IH]; intros [|y b] [|z c]; simpl; try done.
  destruct (N.compare_spec (Byte.to_N x) (Byte.to_N y));
    destruct (N.compare_spec (Byte.to_N y) (Byte.to_N z));
    destruct (N.compare_spec (Byte.to_N x) (Byte.to_N z)); try done; try lia; eauto.
Qed.

(** ** The order of Go strings: bytewise lexicographic *)

Definition str_bytes (s : string) : list byte := list_byte_of_string s.
Definition str_ltb (s t : string) : bool :=
  match bytes_compare (str_bytes s) (str_bytes t) with Lt => true | _ => false end.

Lemma str_bytes_inj s t : str_bytes s = str_bytes t → s = t.
Proof.
  unfold str_bytes. intros H.
  by rewrite <- (string_of_list_byte_of_string s), H, string_of_list_byte_of_string.
Qed.

Lemma str_ltb_asym s t : str_ltb s t = true → str_ltb t s = false.
Proof.
  unfold str_ltb. rewrite (bytes_compare_antisym (str_bytes s)).
  by destruct (bytes_compare (str_bytes s) (str_bytes t)).
Qed.

Lemma str_ltb_total s t : str_ltb s t = false → str_ltb t s = false → s = t.
Proof.
  unfold str_ltb. rewrite (bytes_compare_antisym (str_bytes s)).
  destruct (bytes_compare (str_bytes s) (str_bytes t)) eqn:E; simpl; try done.
  intros _ _. by apply str_bytes_inj, bytes_compare_eq.
Qed.

Lemma str_ltb_neg_trans s t u :
  str_ltb t s = false → str_ltb u t = false → str_ltb u s = false.
Proof.
  intros H1 H2. destruct (str_ltb u s) eqn:E; [|done]. exfalso.
  destruct (str_ltb s t) eqn:E1.
  - revert H2 E E1. unfold str_ltb.
    destruct (bytes_compare (str_bytes u) (str_bytes s)) eqn:A; try done.
    destruct (bytes_compare (str_bytes s) (str_bytes t)) eqn:B; try done.
    pose proof (bytes_compare_trans _ _ _ A B) as C. rewrite C. by intros [=].
  - rewrite (str_ltb_total s t) in E by done. congruence.
Qed.

(** ** The text form of a UUID *)

Class UuidCodec := {
  uuid_String : uuid → string;
  uuid_Parse : string → option uuid;
}.

Class UuidCodecLaws (U : UuidCodec) : Prop := {
  uuid_parse_string : ∀ u, uuid_Parse (uuid_String u) = Some u;
  uuid_string_length : ∀ u, String.length (uuid_String u) = 36%nat;
  uuid_string_no_slash : ∀ u, "/"%char ∉ list_ascii_of_string (uuid_String u);
  uuid_string_ascii : ∀ u, Forall (λ a, (nat_of_ascii a < 128)%nat) (list_ascii_of_string (uuid_String u));
}.

Lemma uuid_String_inj {U : UuidCodec} {UL : UuidCodecLaws U} (u v : uuid) :
  uuid_String u = uuid_String v → u = v.
Proof.
  intros E. apply (f_equal uuid_Parse) in E. rewrite !uuid_parse_string in E. by simplify_eq.
Qed.

(** [strings.Join(ss, sep)]. *)
Fixpoint strings_Join (ss : list string) (sep : string) : string :=
  match ss with
  | [] => ""
  | [s] => s
  | s :: ss' => s +:+ sep +:+ strings_Join ss' sep
  end.

Lemma app_string_nil_r s : s +:+ "" = s.
Proof. induction s as [|a s IH]; [done|].
  change (String a (s +:+ "") = String a s). by rewrite IH.
Qed.

Lemma prefixed_inj p s t : p +:+ s = p +:+ t → s = t.
Proof. induction p as [|a p IH]; [done|]. intros H. apply IH. by injection H. Qed.

Lemma string_app_length_inj s1 s2 t1 t2 :
  String.length s1 = String.length s2 → s1 +:+ t1 = s2 +:+ t2 → s1 = s2 ∧ t1 = t2.
Proof.
  revert s2. induction s1 as [|a s1 IH]; intros [|b s2]; simpl; try done.
  intros [= Hl] [= -> E]. by destruct (IH s2 Hl E) as [-> ->].
Qed.

(** Joining strings of one length is injective (the separator being one byte). *)
Lemma strings_Join_inj (n : nat) (c : ascii) (l1 l2 : list string) :
  (n > 0)%nat →
  Forall (λ s, String.length s = n) l1 → Forall (λ s, String.length s = n) l2 →
  strings_Join l1 (String c "") = strings_Join l2 (String c "") → l1 = l2.
Proof.
  intros Hn H1. revert l2.
  induction H1 as [|s l1 Hs H1 IH]; intros l2 H2.
  - destruct H2 as [|t l2 Ht H2]; [done|]. simpl. destruct l2; simpl; intros E;
      destruct t; simpl in *; subst; try done; lia.
  - destruct H2 as [|t l2 Ht H2].
    { simpl. destruct l1; intros E; destruct s; simpl in *; subst; try done; lia. }
    destruct l1 as [|s' l1], l2 as [|t' l2]; cbn [strings_Join].
    + by intros ->.
    + intros E. rewrite <- (app_string_nil_r s) in E at 1.
      apply string_app_length_inj in E as [_ E]; [done|lia].
    + intros E. rewrite <- (app_string_nil_r t) in E at 1.
      apply string_app_length_inj in E as [_ E]; [done|lia].
    + intros E. apply string_app_length_inj in E as [-> E]; [|lia].
      injection E as E. f_equal. by apply IH.
Qed.

(** ** A concrete text form

    The canonical 8-4-4-4-12 lower-case hexadecimal form, used to evaluate the model. *)

Definition hex_digit (n : N) : ascii :=
  match String.get (N.to_nat n) "0123456789abcdef" with Some a => a | None => "0"%char end.

Definition hex_value (a : ascii) : option N :=
  let n := N_of_ascii a in
  if (48 <=? n)%N && (n <=? 57)%N then Some (n - 48)%N
  else if (97 <=? n)%N && (n <=? 102)%N then Some (n - 87)%N
  else None.

Definition hex_byte (b : byte) : string :=
  String (hex_digit (Byte.to_N b / 16)%N) (String (hex_digit (Byte.to_N b mod 16)%N) "").

Definition unhex_byte (hi lo : ascii) : option byte :=
  h ← hex_value hi; l ← hex_value lo; Byte.of_N (16 * h + l)%N.

Fixpoint unhex (n : nat) (s : string) : option (list byte) :=
  match n with
  | O => match s with "" => Some [] | _ => None end
  | S n' =>
      match s with
      | String "-" (String hi (String lo s')) =>
          b ← unhex_byte hi lo; bs ← unhex n' s'; Some (b :: bs)
      | String hi (String lo s') =>
          b ← unhex_byte hi lo; bs ← unhex n' s'; Some (b :: bs)
      | _ => None
      end
  end.

Definition hex_String (u : uuid) : string :=
  let h i := match (vec_to_list u) !! i with Some b => hex_byte b | None => "" end in
  h 0%nat +:+ h 1%nat +:+ h 2%nat +:+ h 3%nat +:+ "-" +:+ h 4%nat +:+ h 5%nat +:+ "-" +:+
  h 6%nat +:+ h 7%nat +:+ "-" +:+ h 8%nat +:+ h 9%nat +:+ "-" +:+ h 10%nat +:+ h 11%nat +:+
  h 12%nat +:+ h 13%nat +:+ h 14%nat +:+ h 15%nat.

Definition hex_Parse (s : string) : option uuid := bs ← unhex 16 s; vec_of_list 16 bs.

Definition hex_codec : UuidCodec := {| uuid_String := hex_String; uuid_Parse := hex_Parse |}.

Lemma unhex_byte_hex b :
  unhex_byte (hex_digit (Byte.to_N b / 16)) (hex_digit (Byte.to_N b mod 16)) = Some b.
Proof. by destruct b. Qed.

Lemma hex_digit_not_dash b : hex_digit (Byte.to_N b / 16) <> "-"%char.
Proof. by destruct b. Qed.

Lemma unhex_hex n b s :
  unhex (S n) (hex_byte b +:+ s) = bs ← unhex n s; Some (b :: bs).
Proof.
  pose proof (unhex_byte_hex b) as E. revert E. destruct b; simpl; intros _; reflexivity.
Qed.

Lemma unhex_dash_hex n b s :
  unhex (S n) ("-" +:+ hex_byte b +:+ s) = bs ← unhex n s; Some (b :: bs).
Proof.
  pose proof (unhex_byte_hex b) as E. revert E. destruct b; simpl; intros _; reflexivity.
Qed.

Lemma string_length_app s t : String.length (s +:+ t) = (String.length s + String.length t)%nat.
Proof. induction s as [|a s IH]; [done|]. change (S (String.length (s +:+ t)) = S (String.length s + String.length t)). by rewrite IH. Qed.

(** Replace the bytes of [u] by sixteen variables. *)
Ltac list16 u :=
  pose proof (length_vec_to_list u);
  generalize dependent (vec_to_list u);
  intros l Hl; do 16 (destruct l as [|? l]; [discriminate Hl|]);
  destruct l; [clear Hl|discriminate Hl];
  cbn [lookup list_lookup].

Lemma list_ascii_app s t : list_ascii_of_string (s +:+ t) = list_ascii_of_string s ++ list_ascii_of_string t.
Proof. induction s as [|a s IH]; [done|]. change (a :: list_ascii_of_string (s +:+ t) = a :: (list_ascii_of_string s ++ list_ascii_of_string t)). by rewrite IH. Qed.

Lemma hex_byte_no_slash b : "/"%char ∉ list_ascii_of_string (hex_byte b).
Proof. assert (H : forallb (λ a, negb (bool_decide (a = "/"%char))) (list_ascii_of_string (hex_byte b)) = true) by (by destruct b).
  intros Hin. rewrite forallb_forall in H. apply list_elem_of_In, H in Hin. by rewrite bool_decide_eq_true_2 in Hin.
Qed.

Lemma hex_String_length u : String.length (hex_String u) = 36%nat.
Proof. unfold hex_String. list16 u. by rewrite !string_length_app. Qed.

Lemma hex_String_no_slash u : "/"%char ∉ list_ascii_of_string (hex_String u).
Proof.
  unfold hex_String. list16 u. rewrite !list_ascii_app. simpl (list_ascii_of_string "-").
  repeat (apply not_elem_of_app; split); try apply hex_byte_no_slash; by rewrite list_elem_of_singleton.
Qed.

Lemma hex_byte_ascii b : Forall (λ a, (nat_of_ascii a < 128)%nat) (list_ascii_of_string (hex_byte b)).
Proof. destruct b; by_compute. Qed.

Lemma hex_String_ascii u : Forall (λ a, (nat_of_ascii a < 128)%nat) (list_ascii_of_string (hex_String u)).
Proof.
  unfold hex_String. list16 u. rewrite !list_ascii_app. simpl (list_ascii_of_string "-").
  repeat (apply list.Forall_app; split); try apply hex_byte_ascii; (constructor; [by_compute|constructor]).
Qed.

Lemma hex_roundtrip u : hex_Parse (hex_String u) = Some u.
Proof.
  unfold hex_Parse.
  assert (E : unhex 16 (hex_String u) = Some (vec_to_list u)).
  { unfold hex_String. list16 u.
    rewrite <- (app_string_nil_r (hex_byte b14)).
    by repeat first [rewrite unhex_dash_hex | rewrite unhex_hex]. }
  rewrite E. apply vec_of_list_to_list.
Qed.

#[export] Instance hex_codec_laws : UuidCodecLaws hex_codec.
Proof. split; [apply hex_roundtrip|apply hex_String_length|apply hex_String_no_slash|apply hex_String_ascii]. Qed.

(** ** Binary64 floating point *)

Abbreviation float64 := spec_float.

Definition f64_add : float64 → float64 → float64 := SFadd 53 1024.
Definition f64_sub : float64 → float64 → float64 := SFsub 53 1024.
Definition f64_mul : float64 → float64 → float64 := SFmul 53 1024.
Definition f64_div : float64 → float64 → float64 := SFdiv 53 1024.
Definition f64_abs : float64 → float64 := SFabs.
Definition f64_eqb : float64 → float64 → bool := SFeqb.
Definition f64_ltb : float64 → float64 → bool := SFltb.

(** The conversion [float64(z)] of an integer, rounded to nearest even. *)
Definition f64_of_Z (z : Z) : float64 := binary_normalize 53 1024 z 0 false.

#[export] Instance float64_eq_dec : EqDecision float64.
Proof. solve_decision. Defined.

(** [Duration.Seconds]: the whole seconds plus the remaining nanoseconds over 1e9. *)
Definition duration_Seconds (d : duration) : float64 :=
  f64_add (f64_of_Z (Z.quot d Second)) (f64_div (f64_of_Z (Z.rem d Second)) (f64_of_Z Second)).

(** The conversion [int64(f)] of a finite float: truncation toward zero. *)
Definition f64_trunc (f : float64) : Z :=
  match f with
  | S754_finite s m e =>
      let a := if 0 <=? e then Z.pos m * 2 ^ e else Z.pos m / 2 ^ (- e) in
      if s then - a else a
  | _ => 0
  end.

(** Subtraction is antisymmetric up to sign, so the distance of two floats is symmetric. *)
Lemma f64_abs_normalize m e s1 s2 :
  f64_abs (binary_normalize 53 1024 m e s1) = f64_abs (binary_normalize 53 1024 (- m) e s2).
Proof.
  assert (H : ∀ p, f64_abs (binary_round 53 1024 true p e) = f64_abs (binary_round 53 1024 false p e)).
  { intros p. unfold binary_round, binary_round_aux.
    repeat match goal with |- context [let '(_, _) := ?x in _] => destruct x end.
    repeat break_goal; done. }
  destruct m; simpl; [done| |]; by rewrite H.
Qed.

Lemma f64_distance_sym x y : f64_abs (f64_sub x y) = f64_abs (f64_sub y x).
Proof.
  unfold f64_sub. destruct x as [sx|sx| |sx mx ex], y as [sy|sy| |sy my ey];
    try (destruct sx, sy; done); try done.
  unfold SFsub. rewrite (Z.min_comm ey ex). cbv zeta.
  match goal with |- f64_abs (binary_normalize _ _ (?a - ?b) _ _) = _ =>
    replace (b - a) with (- (a - b)) by lia end.
  apply f64_abs_normalize.
Qed.

(** Replacing the right bound by a larger one keeps "not greater" (a NaN compares false). *)
Lemma f64_ltb_mono w w' d :
  SFleb w w' = true → f64_ltb w d = false → f64_ltb w' d = false.
Proof.
  unfold f64_ltb, SFltb, SFleb.
  destruct w as [[]|[]| |[] mw ew], w' as [[]|[]| |[] mw' ew'], d as [[]|[]| |[] md ed];
    simpl; try done.
  all: change (Pos.compare_cont Eq) with Pos.compare;
    destruct (Z.compare_spec ew ew'), (Z.compare_spec ew ed), (Z.compare_spec ew' ed);
    try done; try lia; subst;
    destruct (Pos.compare_spec mw mw'), (Pos.compare_spec mw md), (Pos.compare_spec mw' md);
    simpl; try done; lia.
Qed.

(** A text for every value of a countable type, to evaluate encodings on: the bits of its number. *)
Fixpoint bits (p : positive) : string :=
  match p with xH => "" | xO p => String "0" (bits p) | xI p => String "1" (bits p) end.
Fixpoint unbits (s : string) : positive :=
  match s with "" => xH | String a s => if bool_decide (a = "0"%char) then xO (unbits s) else xI (unbits s) end.

Lemma unbits_bits p : unbits (bits p) = p.
Proof. induction p; cbn [bits unbits]; by rewrite ?IHp. Qed.

(** A few distinct ids, to evaluate the model on. *)
Definition sample_uuid (b : byte) : uuid := b ::: vreplicate 15 x00.
