(* ===== verification/GoStrings.v ===== *)
(** * Go string functions (unicode/utf8, unicode, strings, path)

    The parts of the Go standard library the domain validates names with.  A Go string is a byte
    sequence; [range] and [utf8.RuneCountInString] decode it as UTF-8, yielding U+FFFD with width 1
    for each byte that does not begin a valid encoding. *)

From S2P Require Import Prelude GoBase.

Definition go_bytes (s : string) : list Z := (λ a, Z.of_nat (nat_of_ascii a)) <$> list_ascii_of_string s.

(** ** UTF-8 (unicode/utf8) *)

Definition RuneError : Z := 65533.

Definition in_range (lo hi b : Z) : bool := (lo <=? b) && (b <=? hi).
Definition is_cont (b : Z) : bool := in_range 128 191 b.
Definition low6 (b : Z) : Z := Z.land b 63.

(** The bounds of the second byte of a sequence that starts with [b0]. *)
Definition second_ok (b0 b1 : Z) : bool :=
  if b0 =? 224 then in_range 160 191 b1
  else if b0 =? 237 then in_range 128 159 b1
  else if b0 =? 240 then in_range 144 191 b1
  else if b0 =? 244 then in_range 128 143 b1
  else is_cont b1.

(** [utf8.DecodeRune] of a non-empty sequence: the rune and its width. *)
Definition DecodeRune (l : list Z) : Z * nat :=
  match l with
  | [] => (RuneError, 0%nat)
  | b0 :: l1 =>
      if b0 <? 128 then (b0, 1%nat)
      else if in_range 194 223 b0 then
        match l1 with
        | b1 :: _ => if is_cont b1 then (Z.lor (Z.shiftl (Z.land b0 31) 6) (low6 b1), 2%nat) else (RuneError, 1%nat)
        | _ => (RuneError, 1%nat)
        end
      else if in_range 224 239 b0 then
        match l1 with
        | b1 :: b2 :: _ =>
            if second_ok b0 b1 && is_cont b2
            then (Z.lor (Z.shiftl (Z.land b0 15) 12) (Z.lor (Z.shiftl (low6 b1) 6) (low6 b2)), 3%nat)
            else (RuneError, 1%nat)
        | _ => (RuneError, 1%nat)
        end
      else if in_range 240 244 b0 then
        match l1 with
        | b1 :: b2 :: b3 :: _ =>
            if second_ok b0 b1 && is_cont b2 && is_cont b3
            then (Z.lor (Z.shiftl (Z.land b0 7) 18)
                    (Z.lor (Z.shiftl (low6 b1) 12) (Z.lor (Z.shiftl (low6 b2) 6) (low6 b3))), 4%nat)
            else (RuneError, 1%nat)
        | _ => (RuneError, 1%nat)
        end
      else (RuneError, 1%nat)
  end.

(** The runes of a [range] loop with their widths; [skip] bytes belong to the rune just decoded. *)
Fixpoint decode_from (skip : nat) (l : list Z) : list (Z * nat) :=
  match l with
  | [] => []
  | _ :: l' =>
      match skip with
      | S k => decode_from k l'
      | O => let rn := DecodeRune l in rn :: decode_from (pred rn.2) l'
      end
  end.

Definition runes (s : string) : list (Z * nat) := decode_from 0 (go_bytes s).

Definition RuneCountInString (s : string) : Z := Z.of_nat (length (runes s)).

(** An encoding error is the only way to get U+FFFD with width 1. *)
Definition bad_rune (rn : Z * nat) : bool := (rn.1 =? RuneError) && (rn.2 =? 1)%nat.
Definition ValidString (s : string) : bool := forallb (λ rn, negb (bad_rune rn)) (runes s).

(** ** Character classes (unicode) *)

Definition IsControl (r : Z) : bool := in_range 0 31 r || in_range 127 159 r.

Definition IsSpace (r : Z) : bool :=
  in_range 9 13 r || (r =? 32) || (r =? 133) || (r =? 160) || (r =? 5760) || in_range 8192 8202 r ||
  (r =? 8232) || (r =? 8233) || (r =? 8239) || (r =? 8287) || (r =? 12288).

(** ** strings.TrimSpace *)

(** Drop leading runes for which [f] holds. *)
Fixpoint trim_left_fuel (fuel : nat) (f : Z → bool) (l : list Z) : list Z :=
  match fuel, l with
  | S fuel', _ :: _ =>
      let rn := DecodeRune l in
      if f rn.1 then trim_left_fuel fuel' f (drop rn.2 l) else l
  | _, _ => l
  end.

(** [utf8.DecodeLastRune]: look back for the byte that starts the last rune. *)
Definition rune_start (b : Z) : bool := negb (Z.land b 192 =? 128).

Fixpoint last_start (n : nat) (k : nat) (l : list Z) : option nat :=
  match n with
  | O => None
  | S n' =>
      match l !! (length l - k)%nat with
      | Some b => if (k <=? length l)%nat then if rune_start b then Some k else last_start n' (S k) l else None
      | None => None
      end
  end.

Definition DecodeLastRune (l : list Z) : Z * nat :=
  match last l with
  | None => (RuneError, 0%nat)
  | Some b =>
      if b <? 128 then (b, 1%nat)
      else
        match last_start 3 2 l with
        | None => (RuneError, 1%nat)
        | Some k =>
            let rn := DecodeRune (drop (length l - k) l) in
            if (rn.2 =? k)%nat then rn else (RuneError, 1%nat)
        end
  end.

Fixpoint trim_right_fuel (fuel : nat) (f : Z → bool) (l : list Z) : list Z :=
  match fuel with
  | O => l
  | S fuel' =>
      match l with
      | [] => []
      | _ =>
          let rn := DecodeLastRune l in
          if f rn.1 then trim_right_fuel fuel' f (take (length l - rn.2) l) else l
      end
  end.

Definition trim_bytes (l : list Z) : list Z :=
  let l1 := trim_left_fuel (length l) IsSpace l in trim_right_fuel (length l1) IsSpace l1.

Definition of_bytes (l : list Z) : string := string_of_list_ascii ((λ z, ascii_of_nat (Z.to_nat z)) <$> l).

Definition TrimSpace (s : string) : string := of_bytes (trim_bytes (go_bytes s)).

(** [strings.Split(s, sep)] for a one-byte separator. *)
Fixpoint strings_Split (sep : ascii) (s : string) : list string :=
  match s with
  | "" => [""]
  | String a s' =>
      if bool_decide (a = sep) then "" :: strings_Split sep s'
      else match strings_Split sep s' with
           | seg :: segs => String a seg :: segs
           | [] => [String a ""]
           end
  end.

(** ** path.Clean and path.Join *)

Abbreviation split_slash := (strings_Split "/"%char).

Definition rooted (s : string) : bool :=
  match s with String a _ => bool_decide (a = "/"%char) | "" => false end.

(** One path element against the elements kept so far, the last one first. *)
Definition clean_step (root : bool) (stack : list string) (seg : string) : list string :=
  if bool_decide (seg = "" ∨ seg = ".") then stack
  else if bool_decide (seg = "..") then
    match stack with
    | [] => if root then [] else [".."]
    | top :: rest => if bool_decide (top = "..") then ".." :: stack else rest
    end
  else seg :: stack.

Definition clean_segs (root : bool) (segs : list string) : list string := foldl (clean_step root) [] segs.

Definition path_render (root : bool) (stack : list string) : string :=
  let body := strings_Join (rev stack) "/" in
  if root then String "/" body else if bool_decide (stack = []) then "." else body.

Definition path_Clean (p : string) : string := path_render (rooted p) (clean_segs (rooted p) (split_slash p)).

Definition join_buf (buf e : string) : string :=
  if bool_decide (buf <> "" ∨ e <> "") then (if bool_decide (buf <> "") then buf +:+ "/" else buf) +:+ e else buf.

Definition path_Join (elems : list string) : string :=
  if forallb (λ e, bool_decide (e = "")) elems then "" else path_Clean (foldl join_buf "" elems).

(** ** Evaluated instances *)

Example trim_ascii : TrimSpace "  a b	 " = "a b".
Proof. vm_compute. reflexivity. Qed.

(** U+3000 on both sides of a two-byte character. *)
Definition wide_space : string := of_bytes [227; 128; 128].
Example trim_unicode : TrimSpace (wide_space +:+ of_bytes [195; 169] +:+ wide_space) = of_bytes [195; 169].
Proof. vm_compute. reflexivity. Qed.

Example rune_counts : RuneCountInString (of_bytes [195; 169; 227; 128; 128; 255]) = 3.
Proof. vm_compute. reflexivity. Qed.

Example valid_strings : ValidString (of_bytes [195; 169]) = true ∧ ValidString (of_bytes [195]) = false ∧
  ValidString (of_bytes [237; 160; 128]) = false ∧ ValidString (of_bytes [239; 191; 189]) = true.
Proof. vm_compute. done. Qed.

Example join_cleans : path_Join ["/data//x/../players"; "o"; "f.txt"] = "/data/players/o/f.txt".
Proof. vm_compute. reflexivity. Qed.

(** ** Lemmas *)

(** A string without the separator. *)
Definition no_sep (sep : ascii) (s : string) : Prop := sep ∉ list_ascii_of_string s.

Lemma no_sep_cons sep a s : no_sep sep (String a s) ↔ a <> sep ∧ no_sep sep s.
Proof. unfold no_sep. simpl. rewrite not_elem_of_cons. naive_solver. Qed.

Lemma no_sep_nil sep : no_sep sep "".
Proof. apply not_elem_of_nil. Qed.

Lemma Split_nonempty sep s : strings_Split sep s <> [].
Proof. destruct s as [|a s]; simpl; [done|]. case_bool_decide; [done|]. by destruct (strings_Split sep s). Qed.

Lemma Split_no_sep sep s : no_sep sep s → strings_Split sep s = [s].
Proof.
  induction s as [|a s IH]; [done|]. rewrite no_sep_cons. intros [Ha Hs]. simpl.
  rewrite bool_decide_eq_false_2 by done. by rewrite IH.
Qed.

Lemma Split_app sep s t : strings_Split sep (s +:+ String sep t) = strings_Split sep s ++ strings_Split sep t.
Proof.
  induction s as [|a s IH].
  - change ("" +:+ String sep t) with (String sep t). simpl. by rewrite bool_decide_eq_true_2.
  - change (String a s +:+ String sep t) with (String a (s +:+ String sep t)). simpl.
    rewrite IH. case_bool_decide; [done|]. destruct (strings_Split sep s) eqn:E; [by destruct (Split_nonempty sep s)|]. done.
Qed.

Abbreviation no_slash := (no_sep "/"%char).

Lemma split_slash_app s t : split_slash (s +:+ "/" +:+ t) = split_slash s ++ split_slash t.
Proof. apply Split_app. Qed.

Lemma split_slash_segs s : Forall no_slash (split_slash s).
Proof.
  pose proof (no_sep_nil "/"%char). induction s as [|a s IH]; simpl; [by constructor|].
  case_bool_decide; [by constructor|].
  destruct (split_slash s) as [|seg segs]; [constructor; [apply no_sep_cons; done|constructor]|].
  apply Forall_cons in IH as [? ?]. constructor; [|done]. apply no_sep_cons; done.
Qed.

Lemma Split_Join sep segs : segs <> [] → Forall (no_sep sep) segs → strings_Split sep (strings_Join segs (String sep "")) = segs.
Proof.
  intros Hn Hs. induction Hs as [|s segs H Hs IH]; [done|]. destruct segs as [|s' segs]; [by apply Split_no_sep|].
  change (strings_Join (s :: s' :: segs) (String sep "")) with (s +:+ String sep (strings_Join (s' :: segs) (String sep ""))).
  by rewrite Split_app, IH, Split_no_sep.
Qed.

Lemma split_Join segs : segs <> [] → Forall no_slash segs → split_slash (strings_Join segs "/") = segs.
Proof. apply Split_Join. Qed.

Lemma clean_segs_forall (P : string → Prop) root segs stack :
  P ".." → Forall P segs → Forall P stack → Forall P (foldl (clean_step root) stack segs).
Proof.
  intros Hdd Hs. revert stack. induction Hs as [|s segs Hs Hss IH]; intros stack Hst; simpl; [done|].
  apply IH. unfold clean_step. case_bool_decide; [done|]. case_bool_decide; [|by constructor].
  destruct Hst as [|top rest]; [destruct root; by auto|]. case_bool_decide; by auto.
Qed.

(** An ordinary path element: kept by [Clean] wherever it stands. *)
Definition plain (s : string) : Prop := s <> "" ∧ s <> "." ∧ s <> ".." ∧ no_slash s.

Lemma clean_step_plain root stack s : plain s → clean_step root stack s = s :: stack.
Proof.
  intros (H1 & H2 & H3 & _). unfold clean_step. rewrite bool_decide_eq_false_2 by naive_solver.
  by rewrite bool_decide_eq_false_2.
Qed.

Lemma app_string_assoc s t u : (s +:+ t) +:+ u = s +:+ (t +:+ u).
Proof. induction s as [|a s IH]; [done|]. change (String a ((s +:+ t) +:+ u) = String a (s +:+ (t +:+ u))). by rewrite IH. Qed.

Lemma app_string_nonempty s t : s <> "" → s +:+ t <> "".
Proof. by destruct s. Qed.

Lemma join_buf_nonempty buf e : buf <> "" → join_buf buf e = buf +:+ "/" +:+ e.
Proof.
  intros H. unfold join_buf. rewrite !bool_decide_eq_true_2 by auto. by rewrite app_string_assoc.
Qed.

(** The elements [path.Join] keeps of its first argument, the last one first. *)
Definition prefix_stack (prefix : string) : list string :=
  if bool_decide (prefix = "") then [] else clean_segs (rooted prefix) (split_slash prefix).

Lemma foldl_join_buf buf segs :
  buf <> "" → foldl join_buf buf segs = strings_Join (buf :: segs) "/".
Proof.
  revert buf. induction segs as [|s segs IH]; intros buf Hb; [done|]. simpl foldl.
  rewrite join_buf_nonempty by done. rewrite IH by (by apply app_string_nonempty).
  destruct segs as [|s' segs]; [done|]. simpl. by rewrite !app_string_assoc.
Qed.

Lemma strings_Join_cons_app buf segs :
  segs <> [] → strings_Join (buf :: segs) "/" = buf +:+ "/" +:+ strings_Join segs "/".
Proof. by destruct segs. Qed.

Lemma clean_plain root stack segs :
  Forall plain segs → foldl (clean_step root) stack segs = rev segs ++ stack.
Proof.
  intros Hs. revert stack. induction Hs as [|s segs Hs Hss IH]; intros stack; simpl; [done|].
  rewrite clean_step_plain by done. rewrite IH. by rewrite <- app_assoc.
Qed.

Lemma plain_no_slash segs : Forall plain segs → Forall no_slash segs.
Proof. intros H. eapply list.Forall_impl; [exact H|]. by intros s (_ & _ & _ & ?). Qed.

(** Joining a prefix with ordinary elements appends them below the cleaned prefix. *)
Lemma Join_plain prefix segs :
  Forall plain segs → segs <> [] →
  path_Join (prefix :: segs) = path_render (rooted prefix) (rev segs ++ prefix_stack prefix).
Proof.
  intros Hs Hne. pose proof (plain_no_slash _ Hs) as Hns. unfold path_Join.
  destruct segs as [|s segs]; [done|]. apply Forall_cons in Hs as [Hp Hss]. pose proof Hp as (Hs1 & _ & _ & Hs4).
  cbn [forallb]. rewrite (bool_decide_eq_false_2 (s = "")) by done. rewrite andb_false_r.
  unfold prefix_stack. case_bool_decide as Hpre.
  - subst prefix. cbn [foldl]. replace (join_buf (join_buf "" "") s) with s.
    2: { unfold join_buf. simpl. by rewrite bool_decide_eq_true_2 by auto. }
    rewrite foldl_join_buf by done. unfold path_Clean, clean_segs.
    assert (Hr : rooted (strings_Join (s :: segs) "/") = false).
    { destruct s as [|a s]; [done|]. apply no_sep_cons in Hs4 as [Ha _].
      destruct segs; simpl; by apply bool_decide_eq_false. }
    rewrite Hr, split_Join by done. by rewrite (clean_plain _ _ (s :: segs)) by (by constructor).
  - cbn [foldl]. replace (join_buf "" prefix) with prefix.
    2: { unfold join_buf. rewrite bool_decide_eq_true_2 by auto. by rewrite bool_decide_eq_false_2 by auto. }
    change (foldl join_buf (join_buf prefix s) segs) with (foldl join_buf prefix (s :: segs)).
    rewrite foldl_join_buf, strings_Join_cons_app by done. unfold path_Clean, clean_segs.
    assert (Hr : rooted (prefix +:+ "/" +:+ strings_Join (s :: segs) "/") = rooted prefix) by (by destruct prefix).
    rewrite Hr, split_slash_app, split_Join, foldl_app by done. by rewrite (clean_plain _ _ (s :: segs)) by (by constructor).
Qed.

Lemma prefix_stack_no_slash prefix : Forall no_slash (prefix_stack prefix).
Proof.
  unfold prefix_stack. case_bool_decide; [constructor|]. apply clean_segs_forall; [|apply split_slash_segs|constructor].
  apply no_sep_cons. split; [done|]. apply no_sep_cons. split; [done|apply no_sep_nil].
Qed.

(** The elements of a rendered path can be read back. *)
Lemma path_render_inj root st1 st2 :
  Forall no_slash st1 → Forall no_slash st2 → st1 <> [] → st2 <> [] →
  path_render root st1 = path_render root st2 → st1 = st2.
Proof.
  intros H1 H2 Hn1 Hn2. unfold path_render. intros E.
  assert (E' : strings_Join (rev st1) "/" = strings_Join (rev st2) "/").
  { destruct root; [by injection E|]. by rewrite !bool_decide_eq_false_2 in E. }
  apply (f_equal split_slash) in E'. rewrite !split_Join in E'; try by apply List.Forall_rev.
  - by rewrite <- (rev_involutive st1), E', rev_involutive.
  - intros Hr. apply Hn2. by rewrite <- (rev_involutive st2), Hr.
  - intros Hr. apply Hn1. by rewrite <- (rev_involutive st1), Hr.
Qed.

(** ** Trimming twice is trimming once *)

Lemma DecodeRune_width l : l <> [] → (1 ≤ (DecodeRune l).2)%nat.
Proof. destruct l as [|b0 l]; [done|]. intros _. simpl. repeat case_match; simpl; lia. Qed.

(** A truncated sequence decodes to the same rune or to an error, which is not a space. *)
Lemma DecodeRune_take n l : take n l <> [] →
  DecodeRune (take n l) = DecodeRune l ∨ (DecodeRune (take n l)).1 = RuneError.
Proof.
  destruct n as [|n]; [done|]. destruct l as [|b0 l]; [done|]. intros _. simpl.
  destruct (b0 <? 128); [by left|]. destruct (in_range 194 223 b0).
  { destruct l as [|b1 l]; [by left; destruct n|]. destruct n; simpl; [by right|by left]. }
  destruct (in_range 224 239 b0).
  { destruct l as [|b1 [|b2 l]]; [by left; destruct n|by right; destruct n as [|[|n]]|].
    destruct n as [|[|n]]; simpl; [by right..|by left]. }
  destruct (in_range 240 244 b0); [|by left].
  destruct l as [|b1 [|b2 [|b3 l]]]; [by left; destruct n|by right; destruct n as [|[|n]]|by right; destruct n as [|[|[|n]]]|].
  destruct n as [|[|[|n]]]; simpl; [by right..|by left].
Qed.

(** What trimming leaves: nothing, or a first (last) rune for which [f] does not hold. *)
Definition left_clean (f : Z → bool) (l : list Z) : Prop := l = [] ∨ f (DecodeRune l).1 = false.
Definition right_clean (f : Z → bool) (l : list Z) : Prop := l = [] ∨ f (DecodeLastRune l).1 = false.

Lemma trim_left_clean fuel f l : (length l ≤ fuel)%nat → left_clean f (trim_left_fuel fuel f l).
Proof.
  revert l. induction fuel as [|fuel IH]; intros l Hl.
  { destruct l; [by left|simpl in Hl; lia]. }
  destruct l as [|b l]; [by left|]. cbn [trim_left_fuel]. cbv zeta.
  destruct (f (DecodeRune (b :: l)).1) eqn:E; [|by right]. apply IH. rewrite length_drop.
  pose proof (DecodeRune_width (b :: l)) as Hw. assert (Hne : b :: l <> []) by done. specialize (Hw Hne).
  cbn [length] in *. lia.
Qed.

Lemma DecodeLastRune_width l : l <> [] → (1 ≤ (DecodeLastRune l).2)%nat.
Proof.
  intros Hl. unfold DecodeLastRune. destruct (last l) eqn:E; [|by apply last_None in E].
  destruct (_ <? 128); [done|]. destruct (last_start 3 2 l) as [k|] eqn:Ek; [|done]. cbv zeta.
  destruct (Nat.eqb_spec (DecodeRune (drop (length l - k) l)).2 k) as [Hk|]; [|done]. rewrite Hk.
  simpl in Ek. repeat case_match; simplify_eq; lia.
Qed.

Lemma trim_right_clean fuel f l : (length l ≤ fuel)%nat → right_clean f (trim_right_fuel fuel f l).
Proof.
  revert l. induction fuel as [|fuel IH]; intros l Hl.
  { destruct l; [by left|simpl in Hl; lia]. }
  destruct l as [|b l]; [by left|]. cbn [trim_right_fuel]. cbv zeta.
  destruct (f (DecodeLastRune (b :: l)).1) eqn:E; [|by right]. apply IH.
  pose proof (DecodeLastRune_width (b :: l)) as Hw. assert (Hne : b :: l <> []) by done. specialize (Hw Hne).
  rewrite length_take. cbn [length] in *. lia.
Qed.

Lemma trim_right_prefix fuel f l : ∃ n, trim_right_fuel fuel f l = take n l.
Proof.
  revert l. induction fuel as [|fuel IH]; intros l; [by exists (length l); rewrite firstn_all|].
  destruct l as [|b l]; [by exists 0%nat|]. cbn [trim_right_fuel]. cbv zeta. case_match.
  - destruct (IH (take (length (b :: l) - (DecodeLastRune (b :: l)).2) (b :: l))) as [n ->].
    rewrite take_take. eauto.
  - exists (length (b :: l)). by rewrite firstn_all.
Qed.

Lemma trim_bytes_clean l : left_clean IsSpace (trim_bytes l) ∧ right_clean IsSpace (trim_bytes l).
Proof.
  unfold trim_bytes. cbv zeta. set (l1 := trim_left_fuel (length l) IsSpace l).
  assert (H1 : left_clean IsSpace l1) by (by apply trim_left_clean).
  split; [|by apply trim_right_clean].
  destruct (trim_right_prefix (length l1) IsSpace l1) as [n ->].
  destruct (decide (take n l1 = [])) as [E|E]; [by left|right].
  destruct (DecodeRune_take n l1 E) as [->| ->]; [|done].
  destruct H1 as [H1|H1]; [|done]. rewrite H1 in E. by destruct n.
Qed.

Lemma trim_bytes_id l : left_clean IsSpace l → right_clean IsSpace l → trim_bytes l = l.
Proof.
  intros Hl Hr. unfold trim_bytes. cbv zeta.
  assert (E : trim_left_fuel (length l) IsSpace l = l).
  { destruct l as [|b l]; [done|]. simpl. destruct Hl as [Hl|Hl]; [done|]. unfold left_clean in *. simpl in *. by rewrite Hl. }
  rewrite E. destruct l as [|b l]; [done|]. cbn [length trim_right_fuel]. cbv zeta.
  destruct Hr as [Hr|Hr]; [done|]. by rewrite Hr.
Qed.

Lemma Forall_take_bytes (P : Z → Prop) l : Forall P l → Forall P (trim_bytes l).
Proof.
  intros H. unfold trim_bytes. cbv zeta. destruct (trim_right_prefix (length (trim_left_fuel (length l) IsSpace l)) IsSpace (trim_left_fuel (length l) IsSpace l)) as [n ->].
  apply list.Forall_take. revert H. generalize (length l). intros fuel. revert l.
  induction fuel as [|fuel IH]; intros l H; [done|]. destruct l as [|b l]; [done|].
  cbn [trim_left_fuel]. cbv zeta. case_match; [|done]. by apply IH, list.Forall_drop.
Qed.

Lemma go_bytes_range s : Forall (λ z, 0 ≤ z < 256) (go_bytes s).
Proof.
  apply list.Forall_forall. intros z Hz. apply list_elem_of_fmap in Hz as (a & -> & _).
  pose proof (nat_ascii_bounded a). lia.
Qed.

Lemma go_bytes_of l : Forall (λ z, 0 ≤ z < 256) l → go_bytes (of_bytes l) = l.
Proof.
  intros H. unfold go_bytes, of_bytes. rewrite list_ascii_of_string_of_list_ascii.
  induction H as [|z l Hz H IH]; [done|]. csimpl. rewrite IH. f_equal. rewrite nat_ascii_embedding; lia.
Qed.

Lemma TrimSpace_idem s : TrimSpace (TrimSpace s) = TrimSpace s.
Proof.
  unfold TrimSpace at 1. unfold TrimSpace at 1.
  rewrite go_bytes_of by apply Forall_take_bytes, go_bytes_range.
  destruct (trim_bytes_clean (go_bytes s)) as [Hl Hr]. by rewrite trim_bytes_id.
Qed.
