(* ===== verification/Json.v ===== *)
(** * JSON documents (encoding/json, as the stores that keep documents in Valkey use it)

    A document is the value it denotes: the text, which encoding/json writes and reads on both
    ends, is not modelled, what it loses is.  A string is written with U+FFFD in the place of every
    byte that is not UTF-8; a float is a literal that reads back as the same float, and NaN and the
    infinities cannot be written; a time must have a year of four digits (in UTC).  A [codec] bundles
    an encoder, its decoder, and the proof that decoding gives back what encoding kept. *)

From S2P Require Import Prelude GoBase GoStrings.

Inductive json :=
  | JStr (s : string)
  | JInt (z : Z)
  | JFloat (x : float64)
  | JTime (t : time)
  | JArr (l : list json)
  | JObj (fields : list (string * json)).

(** Induction through the lists inside a value. *)
Section json_induction.
Context (P : json → Prop).
Hypothesis (Hstr : ∀ s, P (JStr s)) (Hint : ∀ z, P (JInt z)) (Hfloat : ∀ x, P (JFloat x)) (Htime : ∀ t, P (JTime t)).
Hypothesis (Harr : ∀ l, Forall P l → P (JArr l)) (Hobj : ∀ l, Forall (λ kv, P kv.2) l → P (JObj l)).

Fixpoint json_induction (j : json) : P j :=
  match j with
  | JStr s => Hstr s
  | JInt z => Hint z
  | JFloat x => Hfloat x
  | JTime t => Htime t
  | JArr l => Harr l ((fix go l : Forall P l :=
                         match l with [] => List.Forall_nil _ | x :: l' => List.Forall_cons _ _ _ (json_induction x) (go l') end) l)
  | JObj l => Hobj l ((fix go l : Forall (λ kv, P kv.2) l :=
                         match l with [] => List.Forall_nil _ | x :: l' => List.Forall_cons _ _ _ (json_induction x.2) (go l') end) l)
  end.
End json_induction.

Fixpoint json_eqb (a b : json) : bool :=
  match a, b with
  | JStr s, JStr t => bool_decide (s = t)
  | JInt x, JInt y => bool_decide (x = y)
  | JFloat x, JFloat y => bool_decide (x = y)
  | JTime x, JTime y => bool_decide (x = y)
  | JArr l, JArr m =>
      (fix go l m := match l, m with
                     | [], [] => true
                     | x :: l', y :: m' => json_eqb x y && go l' m'
                     | _, _ => false
                     end) l m
  | JObj l, JObj m =>
      (fix go l m := match l, m with
                     | [], [] => true
                     | (k, x) :: l', (k', y) :: m' => bool_decide (k = k') && json_eqb x y && go l' m'
                     | _, _ => false
                     end) l m
  | _, _ => false
  end.

Lemma json_eqb_eq a b : json_eqb a b = true ↔ a = b.
Proof.
  revert b. induction a as [s|z|x|t|l IH|l IH] using json_induction; intros b; destruct b as [s'|z'|x'|t'|m|m]; simpl;
    try (by split); try (rewrite bool_decide_eq_true; by split; [intros ->|intros [= ->]]).
  - transitivity (l = m); [|by split; [intros ->|intros [= ->]]]. revert m.
    induction IH as [|x l Hx _ IHl]; intros [|y m]; [done..|]. rewrite andb_true_iff, Hx, IHl. naive_solver.
  - transitivity (l = m); [|by split; [intros ->|intros [= ->]]]. revert m.
    induction IH as [|[k x] l Hx _ IHl]; intros [|[k' y] m]; [done..|].
    rewrite !andb_true_iff, bool_decide_eq_true. simpl in Hx. rewrite Hx, IHl. naive_solver.
Qed.

#[export] Instance json_eq_dec : EqDecision json.
Proof. intros a b. destruct (json_eqb a b) eqn:E; [left|right]; [by apply json_eqb_eq|]. intros H. apply json_eqb_eq in H. congruence. Defined.

Definition json_mismatch : error := ErrText "json: cannot unmarshal value".

(** ** Strings *)

(** The UTF-8 encoding of U+FFFD. *)
Definition replacement : list Z := [239; 191; 189].

(** Copy a byte sequence, one decoded rune at a time, with invalid bytes replaced; [skip] bytes
    belong to a rune already decided to be [keep]. *)
Fixpoint coerce_from (skip : nat) (l : list Z) : list Z :=
  match l with
  | [] => []
  | b :: l' =>
      match skip with
      | S k => b :: coerce_from k l'
      | O => let rn := DecodeRune l in
             if bad_rune rn then replacement ++ coerce_from 0 l' else b :: coerce_from (pred rn.2) l'
      end
  end.

Definition ToValid (s : string) : string := of_bytes (coerce_from 0 (go_bytes s)).

Lemma coerce_from_valid skip l :
  forallb (λ rn, negb (bad_rune rn)) (decode_from skip l) = true → coerce_from skip l = l.
Proof.
  revert skip. induction l as [|b l IH]; intros skip H; [done|].
  cbn [decode_from coerce_from] in *. destruct skip as [|k]; [|by rewrite IH].
  cbv zeta in *. cbn [forallb] in H. apply andb_true_iff in H as [H1 H2]. apply negb_true_iff in H1.
  by rewrite H1, IH.
Qed.

Lemma of_bytes_go s : of_bytes (go_bytes s) = s.
Proof.
  unfold of_bytes, go_bytes. rewrite <- list_fmap_compose.
  transitivity (string_of_list_ascii (list_ascii_of_string s)); [|apply string_of_list_ascii_of_string].
  f_equal. rewrite <- (list_fmap_id (list_ascii_of_string s)) at 2. apply list_fmap_ext. intros _ a _.
  simpl. by rewrite Nat2Z.id, ascii_nat_embedding.
Qed.

(** Valid text survives. *)
Lemma ToValid_id s : ValidString s = true → ToValid s = s.
Proof. intros H. unfold ToValid. rewrite coerce_from_valid by done. apply of_bytes_go. Qed.

(** ASCII text is valid. *)
Lemma ValidString_ascii s : Forall (λ a, (nat_of_ascii a < 128)%nat) (list_ascii_of_string s) → ValidString s = true.
Proof.
  unfold ValidString, runes, go_bytes. induction 1 as [|a l Ha H IH]; [done|].
  csimpl. rewrite (proj2 (Z.ltb_lt _ 128)) by lia. simpl. rewrite IH, andb_true_r.
  unfold bad_rune, RuneError. simpl. rewrite andb_true_r. apply negb_true_iff, Z.eqb_neq. lia.
Qed.

Lemma ToValid_uuid {U : UuidCodec} {UL : UuidCodecLaws U} u : ToValid (uuid_String u) = uuid_String u.
Proof. apply ToValid_id, ValidString_ascii, uuid_string_ascii. Qed.

Example ToValid_demo : ToValid (of_bytes [97; 255; 195; 169; 226; 128]) = of_bytes [97; 239; 191; 189; 195; 169; 239; 191; 189; 239; 191; 189].
Proof. vm_compute. reflexivity. Qed.

(** ** Codecs *)

Record codec (A : Type) := mkCodec {
  enc : A → res json;
  dec : json → res A;
  norm : A → A;
  enc_dec : ∀ a j, enc a = Ok j → dec j = Ok (norm a);
}.
Arguments mkCodec {A}.
Arguments enc {A}.
Arguments dec {A}.
Arguments norm {A}.
Arguments enc_dec {A}.

#[local] Obligation Tactic := idtac.

Definition dec_string (j : json) : res string :=
  match j with JStr s => Ok s | _ => Err json_mismatch end.

Program Definition j_string : codec string := mkCodec (λ s, Ok (JStr (ToValid s))) dec_string ToValid _.
Next Obligation. by intros s j [= <-]. Qed.

Definition dec_int32 (j : json) : res Z :=
  match j with JInt z => if bool_decide (i32 z = z) then Ok z else Err json_mismatch | _ => Err json_mismatch end.

Lemma i32_idem z : i32 (i32 z) = i32 z.
Proof. apply i32_small. unfold i32. pose proof (Z.mod_pos_bound (z + 2147483648) 4294967296). lia. Qed.

Program Definition j_int32 : codec Z := mkCodec (λ z, Ok (JInt (i32 z))) dec_int32 i32 _.
Next Obligation. intros z j [= <-]. unfold dec_int32. by rewrite bool_decide_eq_true_2 by apply i32_idem. Qed.

Definition f64_finite (x : float64) : bool :=
  match x with S754_zero _ | S754_finite _ _ _ => true | _ => false end.

Definition enc_float64 (x : float64) : res json :=
  if f64_finite x then Ok (JFloat x) else Err (ErrText "json: unsupported value").
Definition dec_float64 (j : json) : res float64 :=
  match j with JFloat x => Ok x | JInt z => Ok (f64_of_Z z) | _ => Err json_mismatch end.

Program Definition j_float64 : codec float64 := mkCodec enc_float64 dec_float64 (λ x, x) _.
Next Obligation. intros x j. unfold enc_float64. destruct (f64_finite x); [|done]. by intros [= <-]. Qed.

(** From January 1 of year 0 to the end of year 9999. *)
Definition json_time_ok (t : time) : bool := (-62167219200000000000 <=? t) && (t <? 253402300800000000000).

Definition enc_time (t : time) : res json :=
  if json_time_ok t then Ok (JTime t) else Err (ErrText "Time.MarshalJSON: year outside of range [0,9999]").
Definition dec_time (j : json) : res time :=
  match j with JTime t => Ok t | _ => Err json_mismatch end.

Program Definition j_time : codec time := mkCodec enc_time dec_time (λ t, t) _.
Next Obligation. intros t j. unfold enc_time. destruct (json_time_ok t); [|done]. by intros [= <-]. Qed.

(** ** Lists and maps of strings *)

Fixpoint mapM_res {A B} (f : A → res B) (l : list A) : res (list B) :=
  match l with
  | [] => Ok []
  | a :: l' => b ← f a; bs ← mapM_res f l'; Ok (b :: bs)
  end.

Definition dec_strings (j : json) : res (list string) :=
  match j with JArr l => mapM_res dec_string l | _ => Err json_mismatch end.

Program Definition j_strings : codec (list string) :=
  mkCodec (λ l, Ok (JArr ((λ s, JStr (ToValid s)) <$> l))) dec_strings (fmap ToValid) _.
Next Obligation.
  intros l j [= <-]. unfold dec_strings. induction l as [|s l IH]; [done|]. csimpl. by rewrite IH.
Qed.

(** An object's fields are written in the order of the keys. *)
Definition sorted_pairs (m : gmap string string) : list (string * string) :=
  isort (λ a b, str_ltb a.1 b.1) (map_to_list m).

Fixpoint read_map (fields : list (string * json)) (m : gmap string string) : res (gmap string string) :=
  match fields with
  | [] => Ok m
  | (k, JStr s) :: fields' => read_map fields' (<[k := s]> m)
  | _ => Err json_mismatch
  end.

Definition insert_pairs (m : gmap string string) (l : list (string * string)) : gmap string string :=
  foldl (λ m kv, <[kv.1 := kv.2]> m) m l.

Definition valid_pair (kv : string * string) : string * string := (ToValid kv.1, ToValid kv.2).

Lemma read_map_strings l m :
  read_map ((λ kv, (kv.1, JStr kv.2)) <$> l) m = Ok (insert_pairs m l).
Proof. revert m. induction l as [|[k s] l IH]; intros m; [done|]. csimpl. by rewrite IH. Qed.

Definition dec_string_map (j : json) : res (gmap string string) :=
  match j with JObj fields => read_map fields ∅ | _ => Err json_mismatch end.

Program Definition j_string_map : codec (gmap string string) :=
  mkCodec (λ m, Ok (JObj ((λ kv, (kv.1, JStr kv.2)) <$> (valid_pair <$> sorted_pairs m)))) dec_string_map
    (λ m, insert_pairs ∅ (valid_pair <$> sorted_pairs m)) _.
Next Obligation. intros m j [= <-]. apply read_map_strings. Qed.

Lemma insert_pairs_lookup l m k :
  NoDup l.*1 →
  insert_pairs m l !! k = match (list_to_map l : gmap string string) !! k with Some v => Some v | None => m !! k end.
Proof.
  revert m. induction l as [|[k' v] l IH]; intros m Hnd; [done|].
  csimpl in *. apply NoDup_cons in Hnd as [Hk Hnd]. rewrite IH by done.
  destruct (decide (k = k')) as [->|Hne].
  - rewrite lookup_insert_eq. rewrite not_elem_of_list_to_map_1 by done. by rewrite lookup_insert_eq.
  - by rewrite !lookup_insert_ne by done.
Qed.

(** A map of valid text survives. *)
Lemma norm_string_map m :
  map_Forall (λ k v, ValidString k = true ∧ ValidString v = true) m → norm j_string_map m = m.
Proof.
  intros H. simpl. assert (E : valid_pair <$> sorted_pairs m = sorted_pairs m).
  { rewrite <- (list_fmap_id (sorted_pairs m)) at 2. apply list_fmap_ext. intros i [k v] Hi.
    apply list_elem_of_lookup_2 in Hi. unfold sorted_pairs in Hi. rewrite elem_of_isort in Hi.
    apply elem_of_map_to_list in Hi. destruct (H _ _ Hi) as [Hk Hv]. unfold valid_pair. simpl.
    by rewrite !ToValid_id. }
  rewrite E. assert (Hp : sorted_pairs m ≡ₚ map_to_list m) by apply isort_perm.
  assert (Hnd : NoDup (sorted_pairs m).*1) by (rewrite Hp; apply NoDup_fst_map_to_list).
  apply map_eq. intros k. rewrite insert_pairs_lookup by done. rewrite lookup_empty.
  rewrite (list_to_map_proper _ _ Hnd Hp), list_to_map_to_list. by destruct (m !! k).
Qed.

(** ** Struct fields *)

Definition field {A} (c : codec A) (name : string) (a : A) : res (list (string * json)) :=
  j ← enc c a; Ok [(name, j)].

(** [omitempty]: a nil pointer, an empty slice or map, a zero number or an empty string is left out. *)
Definition omit {A} (c : codec A) (name : string) (empty : bool) (a : A) : res (list (string * json)) :=
  if empty then Ok [] else field c name a.
Definition opt_field {A} (c : codec A) (name : string) (a : option A) : res (list (string * json)) :=
  match a with None => Ok [] | Some a => field c name a end.

Definition object (fields : list (res (list (string * json)))) : res json :=
  fs ← mapM_res id fields; Ok (JObj (concat fs)).

Fixpoint find_field (name : string) (fields : list (string * json)) : option json :=
  match fields with
  | [] => None
  | (n, j) :: fields' => if String.eqb n name then Some j else find_field name fields'
  end.

(** A field that is not there keeps the zero value of its type. *)
Definition read {A} (c : codec A) (name : string) (zero : A) (j : json) : res A :=
  match j with
  | JObj fields => match find_field name fields with Some v => dec c v | None => Ok zero end
  | _ => Err json_mismatch
  end.
Definition read_opt {A} (c : codec A) (name : string) (j : json) : res (option A) :=
  match j with
  | JObj fields => match find_field name fields with Some v => a ← dec c v; Ok (Some a) | None => Ok None end
  | _ => Err json_mismatch
  end.
