(* ===== verification/Valkey.v ===== *)
(** * The Valkey server and programs that talk to it

    The key-value service behind the shared match queue, the assignment store and the leader lock.
    A Go method that issues commands is a [prog]: a tree whose nodes are the requests and whose
    branches are the replies, so that the same definition can be run to its end ([run]) or cut into
    single requests that interleave with those of other replicas ([net_step]).

    The service itself is a parameter ([Server]).  [keyspace] is the part of its data the program
    uses and [answer] the documented effect of each command on it; [ServerLaws] says that a request
    has this effect at once and as a whole, or comes back as an error, and then it may or may not
    have taken effect.  [ServerUp] is a server that does not fail.  A key with a lifetime can vanish
    at any moment ([lapse]), which is why lifetimes do not appear in [answer]. *)

From S2P Require Import Prelude GoBase.

(** ** Commands and replies *)

Section valkey.
Context {V : Type}.

Inductive cmd :=
  | SetNX (key : string) (v : V) (ms : Z)
  | SetEX (key : string) (v : V) (ms : Z)
  | GET (key : string)
  | DEL (key : string)
  | PEXPIRE (key : string) (ms : Z)
  | ZCARD (key : string)
  | ZADD (key : string) (score : float64) (member : string)
  | ZREM (key member : string)
  | ZSCORE (key member : string)
  | ZRANGE (key : string)
  | XADD (key : string) (v : V)
  | XREAD (key : string) (count lastID : Z).

Inductive reply :=
  | RNil
  | ROK
  | RInt (z : Z)
  | RScore (x : float64)
  | RBulk (v : V)
  | RMembers (l : list string)
  | RStream (entries : list (Z * V))
  | RErr (e : error).

(** A Lua script: the commands it calls, in sequence. *)
Inductive script :=
  | SReturn (r : reply)
  | SCall (c : cmd) (k : reply → script).

Inductive request :=
  | Do (c : cmd)
  | Eval (s : script).

(** ** The data and the effect of a request *)

Record keyspace := mkKeyspace {
  ks_str : gmap string V;
  ks_zset : gmap string (gmap string float64);
  ks_stream : gmap string (list (Z * V));
}.

Definition empty_keyspace : keyspace := mkKeyspace ∅ ∅ ∅.

Definition set_str (f : gmap string V → gmap string V) (ks : keyspace) : keyspace :=
  mkKeyspace (f (ks_str ks)) (ks_zset ks) (ks_stream ks).
Definition set_zset (f : gmap string (gmap string float64) → gmap string (gmap string float64)) (ks : keyspace) : keyspace :=
  mkKeyspace (ks_str ks) (f (ks_zset ks)) (ks_stream ks).
Definition set_stream (f : gmap string (list (Z * V)) → gmap string (list (Z * V))) (ks : keyspace) : keyspace :=
  mkKeyspace (ks_str ks) (ks_zset ks) (f (ks_stream ks)).

Definition zset (ks : keyspace) (key : string) : gmap string float64 := default ∅ (ks_zset ks !! key).
Definition stream (ks : keyspace) (key : string) : list (Z * V) := default [] (ks_stream ks !! key).

(** A sorted set is listed by score, members with one score in the order of their bytes. *)
Definition member_before (a b : string * float64) : bool :=
  f64_ltb a.2 b.2 || (f64_eqb a.2 b.2 && str_ltb a.1 b.1).

Definition has_key (ks : keyspace) (key : string) : bool :=
  bool_decide (is_Some (ks_str ks !! key)) || bool_decide (is_Some (ks_zset ks !! key)) || bool_decide (is_Some (ks_stream ks !! key)).

Definition del_key (key : string) (ks : keyspace) : keyspace :=
  mkKeyspace (delete key (ks_str ks)) (delete key (ks_zset ks)) (delete key (ks_stream ks)).

(** [newID] is the id the server gives to the entry of an XADD. *)
Definition answer_cmd (newID : Z) (c : cmd) (ks : keyspace) : reply * keyspace :=
  match c with
  | SetNX key v _ =>
      match ks_str ks !! key with
      | Some _ => (RNil, ks)
      | None => (ROK, set_str <[key := v]> ks)
      end
  | SetEX key v _ => (ROK, set_str <[key := v]> ks)
  | GET key => (match ks_str ks !! key with Some v => RBulk v | None => RNil end, ks)
  | DEL key => (RInt (if has_key ks key then 1 else 0), del_key key ks)
  | PEXPIRE key _ => (RInt (if has_key ks key then 1 else 0), ks)
  | ZCARD key => (RInt (Z.of_nat (size (zset ks key))), ks)
  | ZADD key score member =>
      (RInt (if bool_decide (is_Some (zset ks key !! member)) then 0 else 1),
       set_zset <[key := <[member := score]> (zset ks key)]> ks)
  | ZREM key member =>
      (RInt (if bool_decide (is_Some (zset ks key !! member)) then 1 else 0),
       set_zset (alter (delete member) key) ks)
  | ZSCORE key member => (match zset ks key !! member with Some x => RScore x | None => RNil end, ks)
  | ZRANGE key => (RMembers (isort member_before (map_to_list (zset ks key))).*1, ks)
  | XADD key v => (ROK, set_stream <[key := stream ks key ++ [(newID, v)]]> ks)
  | XREAD key count lastID =>
      (match take (Z.to_nat count) (filter (λ e, lastID < e.1) (stream ks key)) with
       | [] => RNil
       | entries => RStream entries
       end, ks)
  end.

Fixpoint answer_script (newID : Z) (s : script) (ks : keyspace) : reply * keyspace :=
  match s with
  | SReturn r => (r, ks)
  | SCall c k => let '(r, ks') := answer_cmd newID c ks in answer_script newID (k r) ks'
  end.

Definition answer (newID : Z) (r : request) (ks : keyspace) : reply * keyspace :=
  match r with
  | Do c => answer_cmd newID c ks
  | Eval s => answer_script newID s ks
  end.

(** ** The server *)

Class Server (S : Type) := serve : request → S → reply * S.

(** An entry id is greater than those of the entries in the stream. *)
Definition fresh_id (newID : Z) (ks : keyspace) : Prop :=
  0 < newID ∧ ∀ key e, e ∈ stream ks key → e.1 < newID.

Class ServerLaws (S : Type) {Srv : Server S} := {
  view : S → keyspace;
  serve_law : ∀ r s, ∃ newID, fresh_id newID (view s) ∧
    (((serve r s).1, view (serve r s).2) = answer newID r (view s) ∨
     ∃ e, (serve r s).1 = RErr e ∧
          (view (serve r s).2 = view s ∨ view (serve r s).2 = (answer newID r (view s)).2));
}.

(** The server answers: no outage, no lost connection. *)
Class ServerUp (S : Type) {Srv : Server S} {L : ServerLaws S} : Prop :=
  serve_up : ∀ r s, ∃ newID, fresh_id newID (view s) ∧ ((serve r s).1, view (serve r s).2) = answer newID r (view s).

(** ** The client (valkey-go) *)

(** The error of a nil reply, and [IsValkeyNil]. *)
Definition valkeyNil : error := ErrText "valkey nil message".
Definition IsValkeyNil (e : error) : bool := bool_decide (e = valkeyNil).
Definition bad_reply : error := ErrText "valkey: unexpected reply type".

Definition reply_Error (r : reply) : res unit :=
  match r with RErr e => Err e | RNil => Err valkeyNil | _ => Ok tt end.
Definition ToInt64 (r : reply) : res Z :=
  match r with RErr e => Err e | RNil => Err valkeyNil | RInt z => Ok z | _ => Err bad_reply end.
Definition ToString (r : reply) : res V :=
  match r with RErr e => Err e | RNil => Err valkeyNil | RBulk v => Ok v | _ => Err bad_reply end.
Definition AsStrSlice (r : reply) : res (list string) :=
  match r with RErr e => Err e | RNil => Err valkeyNil | RMembers l => Ok l | _ => Err bad_reply end.
Definition AsXRead (r : reply) : res (list (Z * V)) :=
  match r with RErr e => Err e | RNil => Err valkeyNil | RStream l => Ok l | _ => Err bad_reply end.

(** ** Programs *)

Inductive prog (A : Type) :=
  | Ret (r : res A)
  | Call (r : request) (k : reply → prog A).
Arguments Ret {A}.
Arguments Call {A}.

Fixpoint prog_bind {A B} (f : A → prog B) (p : prog A) : prog B :=
  match p with
  | Ret (Ok a) => f a
  | Ret (Err e) => Ret (Err e)
  | Call r k => Call r (λ rep, prog_bind f (k rep))
  end.

#[export] Instance prog_ret : MRet prog := λ A a, Ret (Ok a).
#[export] Instance prog_mbind : MBind prog := @prog_bind.

Definition send (c : cmd) : prog reply := Call (Do c) (λ rep, Ret (Ok rep)).
Definition eval (s : script) : prog reply := Call (Eval s) (λ rep, Ret (Ok rep)).
Definition ret_res {A} (r : res A) : prog A := Ret r.

(** An error of [p] is a value to look at. *)
Fixpoint attempt {A} (p : prog A) : prog (res A) :=
  match p with
  | Ret r => Ret (Ok r)
  | Call r k => Call r (λ rep, attempt (k rep))
  end.

(** [fmt.Errorf("msg: %w", err)] *)
Definition wrap_err {A} (msg : string) (r : res A) : res A :=
  match r with Ok a => Ok a | Err e => Err (Wrap msg e) end.

(** Nothing else talks to the server meanwhile. *)
Fixpoint run {S A} {Srv : Server S} (p : prog A) (s : S) : res A * S :=
  match p with
  | Ret r => (r, s)
  | Call r k => let '(rep, s') := serve r s in run (k rep) s'
  end.

Lemma run_bind {S A B} {Srv : Server S} (f : A → prog B) (p : prog A) (s : S) :
  run (p ≫= f) s = match run p s with (Ok a, s') => run (f a) s' | (Err e, s') => (Err e, s') end.
Proof.
  revert s. induction p as [[a|e]|r k IH]; intros s; [done..|].
  cbn. unfold mbind, prog_mbind in IH. destruct (serve r s) as [rep s']. apply IH.
Qed.

Lemma run_attempt {S A} {Srv : Server S} (p : prog A) (s : S) :
  run (attempt p) s = (Ok (run p s).1, (run p s).2).
Proof. revert s. induction p as [r|r k IH]; intros s; [done|]. cbn. destruct (serve r s). apply IH. Qed.

(** What a program does alone on a server that answers: [spec p ks Q] says that from the data [ks]
    it ends with a result and data that satisfy [Q]. *)
Section spec.
Context {S : Type} {Srv : Server S} {L : ServerLaws S} {Up : ServerUp S}.

Definition spec {A} (p : prog A) (ks : keyspace) (Q : res A → keyspace → Prop) : Prop :=
  ∀ s, view s = ks → Q (run p s).1 (view (run p s).2).

Lemma spec_ret {A} (r : res A) ks (Q : res A → keyspace → Prop) : Q r ks → spec (Ret r) ks Q.
Proof. by intros H s <-. Qed.

Lemma spec_call {A} r (k : reply → prog A) ks Q :
  (∀ newID, fresh_id newID ks → spec (k (answer newID r ks).1) (answer newID r ks).2 Q) → spec (Call r k) ks Q.
Proof.
  intros H s <-. destruct (serve_up r s) as (newID & Hf & E). simpl.
  destruct (serve r s) as [rep s'] eqn:Es. specialize (H newID Hf). simpl in E. rewrite <- E in H.
  by apply H.
Qed.

Lemma spec_bind {A B} (p : prog A) (f : A → prog B) ks (Q : res B → keyspace → Prop) :
  spec p ks (λ r ks', match r with Ok a => spec (f a) ks' Q | Err e => Q (Err e) ks' end) → spec (p ≫= f) ks Q.
Proof.
  intros H s Hs. specialize (H s Hs). rewrite run_bind. destruct (run p s) as [[a|e] s']; simpl in *; [|done].
  by apply H.
Qed.

Lemma spec_attempt {A} (p : prog A) ks (Q : res (res A) → keyspace → Prop) :
  spec p ks (λ r, Q (Ok r)) → spec (attempt p) ks Q.
Proof. intros H s Hs. rewrite run_attempt. by apply H. Qed.

Lemma spec_mono {A} (p : prog A) ks (Q Q' : res A → keyspace → Prop) :
  (∀ r ks', Q r ks' → Q' r ks') → spec p ks Q → spec p ks Q'.
Proof. intros H HQ s Hs. by apply H, HQ. Qed.
End spec.

(** ** Replicas

    Any number of threads; thread [i] executes a program [allowed] for it; a thread that gets no further step has crashed
    or was cancelled.  [n_lapsed] remembers the keys that vanished. *)
Record net (S A : Type) := mkNet { n_store : S; n_threads : gmap nat (prog A); n_lapsed : gset string }.
Arguments mkNet {S A}.
Arguments n_store {S A}.
Arguments n_threads {S A}.
Arguments n_lapsed {S A}.

(** [ks'] is [ks] without the keys [keys]. *)
Definition lapse (keys : gset string) (ks ks' : keyspace) : Prop :=
  (∀ key, ks_str ks' !! key = if decide (key ∈ keys) then None else ks_str ks !! key) ∧
  (∀ key, ks_zset ks' !! key = if decide (key ∈ keys) then None else ks_zset ks !! key) ∧
  (∀ key, ks_stream ks' !! key = if decide (key ∈ keys) then None else ks_stream ks !! key).

Inductive net_step {S A} {Srv : Server S} {L : ServerLaws S} (allowed : nat → prog A → Prop) : net S A → net S A → Prop :=
  | net_start n i p :
      n_threads n !! i = None → allowed i p →
      net_step allowed n (mkNet (n_store n) (<[i := p]> (n_threads n)) (n_lapsed n))
  | net_request n i r k :
      n_threads n !! i = Some (Call r k) →
      net_step allowed n (mkNet (serve r (n_store n)).2 (<[i := k (serve r (n_store n)).1]> (n_threads n)) (n_lapsed n))
  | net_lapse n s' keys :
      lapse keys (view (n_store n)) (view s') →
      net_step allowed n (mkNet s' (n_threads n) (n_lapsed n ∪ keys)).

(** An empty server and no threads; then any steps. *)
Definition net_reachable {S A} {Srv : Server S} {L : ServerLaws S} (allowed : nat → prog A → Prop) (n : net S A) : Prop :=
  ∃ s0, view s0 = empty_keyspace ∧ rtc (net_step allowed) (mkNet s0 ∅ ∅) n.

End valkey.

Arguments cmd : clear implicits.
Arguments reply : clear implicits.
Arguments script : clear implicits.
Arguments request : clear implicits.
Arguments keyspace : clear implicits.
Arguments prog : clear implicits.
Arguments Server : clear implicits.
Arguments net : clear implicits.
Arguments empty_keyspace {V}.
Arguments valkeyNil : simpl never.
Arguments IsValkeyNil : simpl never.
Arguments Ret {V A}.
Arguments Call {V A}.
Arguments mkNet {V S A}.
Arguments n_store {V S A}.
Arguments n_threads {V S A}.
Arguments n_lapsed {V S A}.
Arguments ServerLaws _ _ {_}.
Arguments ServerUp _ _ {_ _}.

Lemma IsValkeyNil_nil : IsValkeyNil valkeyNil = true.
Proof. by apply bool_decide_eq_true_2. Qed.

(** ** A server to evaluate programs on: the keyspace itself, with consecutive entry ids *)

Definition max_id {V} (ks : keyspace V) : Z :=
  foldr (λ e m, Z.max (e.1 : Z) m) 0 (concat (map_to_list (ks_stream ks)).*2).

#[export] Instance keyspace_server {V} : Server V (keyspace V) := λ r ks, answer (max_id ks + 1) r ks.

Lemma max_id_fresh {V} (ks : keyspace V) : fresh_id (max_id ks + 1) ks.
Proof.
  assert (Hmax : ∀ l : list (Z * V), 0 ≤ foldr (λ e m, Z.max (e.1 : Z) m) 0 l ∧
            ∀ e, e ∈ l → e.1 ≤ foldr (λ e m, Z.max (e.1 : Z) m) 0 l).
  { induction l as [|e l [IH1 IH2]]; simpl; [split; [lia|]; intros e He; by apply elem_of_nil in He|].
    split; [lia|]. intros e' [->|He]%elem_of_cons; [lia|]. specialize (IH2 _ He). lia. }
  destruct (Hmax (concat (map_to_list (ks_stream ks)).*2)) as [H1 H2]. split; [unfold max_id; lia|].
  intros key e He. apply Z.lt_succ_r. apply H2. unfold stream in He.
  destruct (ks_stream ks !! key) as [l|] eqn:E; [|by apply elem_of_nil in He].
  apply elem_of_concat. exists l. split; [|done].
  apply (list_elem_of_fmap_2 snd _ (key, l)). by apply elem_of_map_to_list.
Qed.

Lemma keyspace_serve {V} (r : request V) (ks : keyspace V) :
  ∃ newID, fresh_id newID ks ∧ ((serve r ks).1, (serve r ks).2) = answer newID r ks.
Proof. exists (max_id ks + 1). split; [apply max_id_fresh|]. unfold serve, keyspace_server. by destruct (answer _ r ks). Qed.

#[export] Program Instance keyspace_laws {V} : ServerLaws V (keyspace V) := {| view := λ ks, ks |}.
Next Obligation. intros V r ks. destruct (keyspace_serve r ks) as (newID & H & E). exists newID. auto. Qed.

#[export] Instance keyspace_up {V} : ServerUp V (keyspace V).
Proof. exact keyspace_serve. Qed.

(** A run of [net_step] to evaluate: start a thread, or let one take its next request. *)
Inductive net_move (V A : Type) := Start (i : nat) (p : prog V A) | Next (i : nat).
Arguments Start {V A}.
Arguments Next {V A}.

Definition net_play_step {V A} (n : net V (keyspace V) A) (m : net_move V A) : net V (keyspace V) A :=
  match m with
  | Start i p => match n_threads n !! i with
                 | None => mkNet (n_store n) (<[i := p]> (n_threads n)) (n_lapsed n)
                 | Some _ => n
                 end
  | Next i => match n_threads n !! i with
              | Some (Call r k) =>
                  mkNet (serve r (n_store n)).2 (<[i := k (serve r (n_store n)).1]> (n_threads n)) (n_lapsed n)
              | _ => n
              end
  end.

Definition net_play {V A} (ms : list (net_move V A)) : net V (keyspace V) A :=
  foldl net_play_step (mkNet empty_keyspace ∅ ∅) ms.

Definition starts_allowed {V A} (allowed : nat → prog V A → Prop) (ms : list (net_move V A)) : Prop :=
  Forall (λ m, match m with Start i p => allowed i p | Next _ => True end) ms.

Lemma net_play_reachable {V A} (allowed : nat → prog V A → Prop) (ms : list (net_move V A)) :
  starts_allowed allowed ms → net_reachable allowed (net_play ms).
Proof.
  intros Hms. exists empty_keyspace. split; [done|]. unfold net_play.
  induction ms as [|m ms IH] using rev_ind; [apply rtc_refl|]. rewrite foldl_snoc.
  apply list.Forall_app in Hms as [Hms Hm]. apply Forall_inv in Hm. assert (Hr := IH Hms).
  set (n := foldl net_play_step _ ms) in *. destruct m as [i p|i]; simpl in *; destruct (n_threads n !! i) as [q|] eqn:E; try done.
  - eapply rtc_r; [exact Hr|]. by apply net_start.
  - destruct q as [|r k]; [done|]. eapply rtc_r; [exact Hr|]. by apply net_request.
Qed.
