(* ===== verification/Match.v ===== *)
(** * The matchmaking domain (internal/domain/match)

    Tickets, the canonical party roster, pairing eligibility, and the [Matcher] service that picks
    a group from the pending pool.  Ratings and windows are binary64 floats, evaluated without
    fused multiply-add (as on amd64). *)

From S2P Require Import Prelude GoBase.

(** ** Tickets, assignments and events (ticket.go, assignment.go, event.go, allocator.go) *)

Record Ticket := mkTicket {
  t_ID : uuid;
  t_PlayerID : uuid;
  t_GameMode : string;
  t_Rating : option float64;
  t_Region : option string;
  t_PartyMembers : list uuid;
  t_Attributes : gmap string string;
  t_EnqueuedAt : time;
}.

#[export] Instance Ticket_eq_dec : EqDecision Ticket.
Proof. solve_decision. Defined.

Record Assignment := mkAssignment {
  a_MatchID : uuid;
  a_Endpoint : string;
  a_SessionToken : string;
  a_ExpiresAt : time;
}.

#[export] Instance Assignment_eq_dec : EqDecision Assignment.
Proof. solve_decision. Defined.

Inductive Event :=
  | EventQueued (QueuedAt : time) (QueueDepth : Z)
  | EventMatched (assignment : Assignment)
  | EventFailed (Reason Message : string).

#[export] Instance Event_eq_dec : EqDecision Event.
Proof. solve_decision. Defined.

Record RoomAllocation := mkRoomAllocation { ra_MatchID : uuid; ra_Endpoint : string }.

Definition NewTicket (id playerID : uuid) (gameMode : string) (now : time) : res Ticket :=
  if bool_decide (playerID = uuid_Nil) then Err ErrTicketNoPlayer
  else if bool_decide (gameMode = "") then Err ErrTicketNoGameMode
  else Ok (mkTicket id playerID gameMode None None [] ∅ now).

Definition IsParty (t : Ticket) : bool := 2 <=? Z.of_nat (length (t_PartyMembers t)).

Definition PartyKey `{UuidCodec} (t : Ticket) : string :=
  if negb (IsParty t) then ""
  else strings_Join (isort str_ltb (uuid_String <$> t_PartyMembers t)) ",".

Definition NormalizeParty `{UuidCodec, RangeOrder} (self : uuid) (members : list uuid) : list uuid :=
  let set : gset uuid := list_to_set members ∪ {[ self ]} in
  if Z.of_nat (size set) <=? 1 then []
  else isort (λ a b, str_ltb (uuid_String a) (uuid_String b)) (range_order (elements set)).

Definition CompatibleWith (t other : Ticket) (ratingWindow : float64) (ignoreRegion : bool) : bool :=
  let regionMismatch :=
    match t_Region t, t_Region other with
    | Some r1, Some r2 => negb ignoreRegion && bool_decide (r1 <> r2)
    | _, _ => false
    end in
  let outsideWindow :=
    match t_Rating t, t_Rating other with
    | Some x, Some y => f64_ltb ratingWindow (f64_abs (f64_sub x y))
    | _, _ => false
    end in
  if regionMismatch then false else if outsideWindow then false else true.

(** ** The matcher (matcher.go) *)

Record MatchingPolicy := mkMatchingPolicy {
  BaseRatingWindow : float64;
  RatingWindowGrowthPerSec : float64;
  RegionRelaxAfter : duration;
}.

Definition DefaultMatchingPolicy : MatchingPolicy :=
  mkMatchingPolicy (f64_of_Z 100) (f64_of_Z 50) (15 * Second).

Definition withDefaults (p : MatchingPolicy) : MatchingPolicy :=
  let d := DefaultMatchingPolicy in
  mkMatchingPolicy
    (if f64_eqb (BaseRatingWindow p) (f64_of_Z 0) then BaseRatingWindow d else BaseRatingWindow p)
    (if f64_eqb (RatingWindowGrowthPerSec p) (f64_of_Z 0)
     then RatingWindowGrowthPerSec d else RatingWindowGrowthPerSec p)
    (if RegionRelaxAfter p =? 0 then RegionRelaxAfter d else RegionRelaxAfter p).

Record Matcher := mkMatcher { m_policy : MatchingPolicy; m_playersPerMatch : Z }.

Definition NewMatcher (playersPerMatch : Z) (policy : MatchingPolicy) : Matcher :=
  mkMatcher (withDefaults policy) (if playersPerMatch <? 1 then 2 else playersPerMatch).

Definition PlayersPerMatch (m : Matcher) : Z := m_playersPerMatch m.

Record matchUnit := mkUnit { u_tickets : list Ticket; u_seedAt : time }.

#[export] Instance matchUnit_eq_dec : EqDecision matchUnit.
Proof. solve_decision. Defined.

Definition unit_size (u : matchUnit) : Z := Z.of_nat (length (u_tickets u)).

(** [anchor] reads [u.tickets[0]]; units are never empty ([buildUnits_nonempty] below), so the
    [None] of the empty unit is not reached. *)
Definition anchor (u : matchUnit) : option Ticket :=
  match u_tickets u with
  | [] => None
  | t0 :: rest =>
      Some (foldl (λ a t, if time_Before (t_EnqueuedAt t) (t_EnqueuedAt a) then t else a) t0 rest)
  end.

(** The three accumulators of the first loop of [buildUnits]. *)
Record unitsAcc := mkUnitsAcc {
  ua_units : list matchUnit;
  ua_rosters : gmap string (list uuid);
  ua_byKeyPlayer : gmap string (gmap uuid Ticket);
}.

Definition soloUnit (t : Ticket) : matchUnit := mkUnit [t] (t_EnqueuedAt t).

Definition buildUnits_step `{UuidCodec} (acc : unitsAcc) (t : Ticket) : unitsAcc :=
  if negb (IsParty t) then
    mkUnitsAcc (ua_units acc ++ [soloUnit t]) (ua_rosters acc) (ua_byKeyPlayer acc)
  else
    let key := PartyKey t in
    let members := default ∅ (ua_byKeyPlayer acc !! key) in
    let members' :=
      match members !! t_PlayerID t with
      | Some cur =>
          if time_Before (t_EnqueuedAt t) (t_EnqueuedAt cur)
          then <[t_PlayerID t := t]> members else members
      | None => <[t_PlayerID t := t]> members
      end in
    mkUnitsAcc (ua_units acc) (<[key := t_PartyMembers t]> (ua_rosters acc))
      (<[key := members']> (ua_byKeyPlayer acc)).

(** The inner loop over one roster: [None] is [complete = false]. *)
Fixpoint partyTickets (members : gmap uuid Ticket) (roster : list uuid)
    (tickets : list Ticket) (seedAt : time) : option matchUnit :=
  match roster with
  | [] => Some (mkUnit tickets seedAt)
  | id :: roster' =>
      match members !! id with
      | None => None
      | Some tk =>
          partyTickets members roster' (tickets ++ [tk])
            (if time_IsZero seedAt || time_Before (t_EnqueuedAt tk) seedAt
             then t_EnqueuedAt tk else seedAt)
      end
  end.

Definition partyUnit (byKeyPlayer : gmap string (gmap uuid Ticket)) (kr : string * list uuid)
    : option matchUnit :=
  partyTickets (default ∅ (byKeyPlayer !! kr.1)) kr.2 [] zeroTime.

Definition unit_firstID `{UuidCodec} (u : matchUnit) : string :=
  match u_tickets u with [] => "" | t :: _ => uuid_String (t_ID t) end.

Definition unitLess `{UuidCodec} (u v : matchUnit) : bool :=
  if negb (time_Equal (u_seedAt u) (u_seedAt v)) then time_Before (u_seedAt u) (u_seedAt v)
  else str_ltb (unit_firstID u) (unit_firstID v).

Definition collectUnits `{UuidCodec} (pending : list Ticket) : unitsAcc :=
  foldl buildUnits_step (mkUnitsAcc [] ∅ ∅) pending.

Definition buildUnits `{UuidCodec, RangeOrder} (pending : list Ticket) : list matchUnit :=
  let acc := collectUnits pending in
  let parties := omap (partyUnit (ua_byKeyPlayer acc)) (range_order (map_to_list (ua_rosters acc))) in
  isort unitLess (ua_units acc ++ parties).

Definition unitCompatibleWith (u : matchUnit) (a : Ticket) (window : float64) (ignoreRegion : bool) : bool :=
  forallb (λ t, CompatibleWith a t window ignoreRegion) (u_tickets u).

(** The loop of [groupFromSeed] from index [j] on. *)
Fixpoint fillGroup (m : Matcher) (seedIdx : nat) (a : Ticket) (window : float64) (ignoreRegion : bool)
    (j : nat) (units : list matchUnit) (group : list Ticket) : list Ticket :=
  match units with
  | [] => group
  | u :: units' =>
      if bool_decide (j = seedIdx) then
        fillGroup m seedIdx a window ignoreRegion (S j) units' group
      else if Z.of_nat (length group) =? m_playersPerMatch m then group
      else if m_playersPerMatch m <? Z.of_nat (length group) + unit_size u then
        fillGroup m seedIdx a window ignoreRegion (S j) units' group
      else if negb (unitCompatibleWith u a window ignoreRegion) then
        fillGroup m seedIdx a window ignoreRegion (S j) units' group
      else fillGroup m seedIdx a window ignoreRegion (S j) units' (group ++ u_tickets u)
  end.

(** The tier of a seed whose anchor has waited since [since]. *)
Definition ratingWindow (m : Matcher) (now since : time) : float64 :=
  f64_add (BaseRatingWindow (m_policy m))
    (f64_mul (RatingWindowGrowthPerSec (m_policy m)) (duration_Seconds (time_Sub now since))).

Definition regionIgnored (m : Matcher) (now since : time) : bool :=
  RegionRelaxAfter (m_policy m) <=? time_Sub now since.

Definition groupFromSeed (m : Matcher) (now : time) (units : list matchUnit) (seedIdx : nat)
    : option (list Ticket) :=
  match units !! seedIdx with
  | None => None
  | Some seed =>
      if m_playersPerMatch m <? unit_size seed then None
      else
        match anchor seed with
        | None => None
        | Some a =>
            let window := ratingWindow m now (t_EnqueuedAt a) in
            let ignoreRegion := regionIgnored m now (t_EnqueuedAt a) in
            let group := fillGroup m seedIdx a window ignoreRegion 0 units (u_tickets seed) in
            if negb (Z.of_nat (length group) =? m_playersPerMatch m) then None else Some group
        end
  end.

(** The loop of [SelectGroup] from index [i] on. *)
Fixpoint firstGroup (m : Matcher) (now : time) (units : list matchUnit) (idxs : list nat)
    : option (list Ticket) :=
  match idxs with
  | [] => None
  | i :: idxs' =>
      match groupFromSeed m now units i with
      | Some group => Some group
      | None => firstGroup m now units idxs'
      end
  end.

Definition SelectGroup `{UuidCodec, RangeOrder} (m : Matcher) (now : time) (pending : list Ticket)
    : option (list Ticket) :=
  let units := buildUnits pending in
  firstGroup m now units (seq 0 (length units)).

(** ** Eligibility *)

Lemma CompatibleWith_comm t t' w ir : CompatibleWith t t' w ir = CompatibleWith t' t w ir.
Proof.
  unfold CompatibleWith.
  destruct (t_Region t) as [r1|], (t_Region t') as [r2|],
    (t_Rating t) as [x|], (t_Rating t') as [y|]; try done;
    rewrite ?(f64_distance_sym x y); try done;
    by rewrite (bool_decide_ext (r1 <> r2) (r2 <> r1)).
Qed.

Lemma CompatibleWith_widen t t' w w' ir ir' :
  SFleb w w' = true → (ir = true → ir' = true) →
  CompatibleWith t t' w ir = true → CompatibleWith t t' w' ir' = true.
Proof.
  intros Hw Hir. unfold CompatibleWith.
  assert (Hlt : ∀ d, f64_ltb w d = false → f64_ltb w' d = false)
    by (intros d; by apply f64_ltb_mono).
  destruct (t_Region t) as [r1|], (t_Region t') as [r2|],
    (t_Rating t) as [x|], (t_Rating t') as [y|]; simpl;
    try (destruct (f64_ltb w _) eqn:E; [by repeat case_match|rewrite (Hlt _ E)]); try done.
  all: destruct ir, ir'; simpl; try done; try (by destruct (Hir eq_refl)); by case_bool_decide.
Qed.

(** ** The canonical roster *)

Section rosters.
Context {U : UuidCodec} {UL : UuidCodecLaws U} {R : RangeOrder} {RL : RangeOrderLaw R}.

Definition uuidLess (a b : uuid) : bool := str_ltb (uuid_String a) (uuid_String b).

Lemma uuidLess_asym a b : uuidLess a b = true → uuidLess b a = false.
Proof. apply str_ltb_asym. Qed.
Lemma uuidLess_neg_trans a b c : uuidLess b a = false → uuidLess c b = false → uuidLess c a = false.
Proof. apply str_ltb_neg_trans. Qed.
Lemma uuidLess_total a b : uuidLess a b = false → uuidLess b a = false → a = b.
Proof. intros H1 H2. by apply uuid_String_inj, str_ltb_total. Qed.

Definition party_set (self : uuid) (members : list uuid) : gset uuid :=
  list_to_set members ∪ {[ self ]}.

Lemma NormalizeParty_perm self members :
  2 ≤ Z.of_nat (size (party_set self members)) →
  NormalizeParty self members ≡ₚ elements (party_set self members).
Proof.
  intros Hs. unfold NormalizeParty. fold (party_set self members).
  destruct (_ <=? 1) eqn:E; [to_prop; lia|].
  by rewrite isort_perm, range_perm.
Qed.

Lemma NormalizeParty_ext self1 m1 self2 m2 :
  party_set self1 m1 = party_set self2 m2 → NormalizeParty self1 m1 = NormalizeParty self2 m2.
Proof. unfold party_set, NormalizeParty. by intros ->. Qed.

Lemma NormalizeParty_NoDup self members : NoDup (NormalizeParty self members).
Proof.
  destruct (decide (2 ≤ Z.of_nat (size (party_set self members)))) as [Hs|Hs].
  - rewrite NormalizeParty_perm by done. apply NoDup_elements.
  - unfold NormalizeParty. fold (party_set self members).
    destruct (_ <=? 1) eqn:E; [constructor|to_prop; lia].
Qed.

Lemma PartyKey_inj t1 t2 :
  IsParty t1 = true → IsParty t2 = true → PartyKey t1 = PartyKey t2 →
  t_PartyMembers t1 ≡ₚ t_PartyMembers t2.
Proof.
  intros H1 H2. unfold PartyKey. rewrite H1, H2. simpl. intros E.
  apply (strings_Join_inj 36) in E; [|lia| |].
  - assert (Ep : uuid_String <$> t_PartyMembers t1 ≡ₚ uuid_String <$> t_PartyMembers t2).
    { rewrite <- (isort_perm str_ltb (uuid_String <$> t_PartyMembers t1)), E. apply isort_perm. }
    assert (Ep' : omap uuid_Parse (uuid_String <$> t_PartyMembers t1)
               ≡ₚ omap uuid_Parse (uuid_String <$> t_PartyMembers t2)) by (by rewrite Ep).
    assert (Hid : ∀ l : list uuid, omap uuid_Parse (uuid_String <$> l) = l).
    { induction l as [|u l IH]; [done|]. csimpl. by rewrite uuid_parse_string, IH. }
    by rewrite !Hid in Ep'.
  - apply list.Forall_forall. intros s. rewrite elem_of_isort, list_elem_of_fmap.
    intros (u & -> & _). apply uuid_string_length.
  - apply list.Forall_forall. intros s. rewrite elem_of_isort, list_elem_of_fmap.
    intros (u & -> & _). apply uuid_string_length.
Qed.

Lemma PartyKey_perm t1 t2 :
  t_PartyMembers t1 ≡ₚ t_PartyMembers t2 → PartyKey t1 = PartyKey t2.
Proof.
  intros Hp. unfold PartyKey, IsParty. rewrite Hp. case_match; [done|]. f_equal.
  apply isort_unique; [apply str_ltb_asym|apply str_ltb_neg_trans| |by rewrite Hp].
  intros x y _ _. apply str_ltb_total.
Qed.
End rosters.

(** ** What [collectUnits] gathers *)

Section units.
Context {U : UuidCodec}.

(** [t] is the ticket kept for its party slot: the oldest pending one of that key and player. *)
Record collected (pending : list Ticket) (acc : unitsAcc) : Prop := {
  col_units : ua_units acc = soloUnit <$> filter (λ t, IsParty t = false) pending;
  col_roster : ∀ k r, ua_rosters acc !! k = Some r →
    ∃ t, t ∈ pending ∧ IsParty t = true ∧ PartyKey t = k ∧ t_PartyMembers t = r;
  col_slot : ∀ k ms p t, ua_byKeyPlayer acc !! k = Some ms → ms !! p = Some t →
    t ∈ pending ∧ IsParty t = true ∧ PartyKey t = k ∧ t_PlayerID t = p ∧
    ∀ t', t' ∈ pending → IsParty t' = true → PartyKey t' = k → t_PlayerID t' = p →
      t_EnqueuedAt t ≤ t_EnqueuedAt t';
  col_all : ∀ t, t ∈ pending → IsParty t = true →
    is_Some (ua_rosters acc !! PartyKey t) ∧
    ∃ ms, ua_byKeyPlayer acc !! PartyKey t = Some ms ∧ is_Some (ms !! t_PlayerID t);
}.

Lemma collected_step pending acc t :
  collected pending acc → collected (pending ++ [t]) (buildUnits_step acc t).
Proof.
  intros [Hu Hr Hs Ha]. unfold buildUnits_step. destruct (IsParty t) eqn:Et; simpl.
  - assert (Hslot : ∀ k ms p t0, ua_byKeyPlayer acc !! k = Some ms → ms !! p = Some t0 →
      (k <> PartyKey t ∨ p <> t_PlayerID t ∨ t_EnqueuedAt t0 ≤ t_EnqueuedAt t) →
      t0 ∈ pending ++ [t] ∧ IsParty t0 = true ∧ PartyKey t0 = k ∧ t_PlayerID t0 = p ∧
      ∀ t', t' ∈ pending ++ [t] → IsParty t' = true → PartyKey t' = k → t_PlayerID t' = p →
        t_EnqueuedAt t0 ≤ t_EnqueuedAt t').
    { intros k ms p t0 Hk Hp Hor. destruct (Hs _ _ _ _ Hk Hp) as (H1 & H2 & H3 & H4 & H5).
      split_and!; [eauto with vfx|done..|]. intros t'. rewrite elem_of_snoc.
      intros [?| ->]; [by apply H5|]. intros _ <- <-. naive_solver. }
    split; simpl.
    + rewrite filter_app, fmap_app, Hu. rewrite filter_cons_False by congruence. by rewrite app_nil_r.
    + intros k r. rewrite lookup_insert. case_decide as E.
      * intros [= <-]. exists t. eauto with vfx.
      * intros Hk. destruct (Hr _ _ Hk) as (t' & ? & ?). exists t'. split; eauto with vfx.
    + intros k ms p t0. rewrite lookup_insert. case_decide as E; [subst k|].
      2: { intros Hk Hp. eapply Hslot; eauto. }
      intros [= <-].
      set (m0 := default ∅ (ua_byKeyPlayer acc !! PartyKey t)) in *.
      assert (Hm0 : ∀ p t0, m0 !! p = Some t0 → ua_byKeyPlayer acc !! PartyKey t = Some m0).
      { intros p' t' H. unfold m0 in *. destruct (ua_byKeyPlayer acc !! PartyKey t); [done|].
        simpl in H. by rewrite lookup_empty in H. }
      destruct (m0 !! t_PlayerID t) as [cur|] eqn:Ecur.
      * destruct (time_Before _ _) eqn:Eb; unfold time_Before in Eb; to_prop.
        -- rewrite lookup_insert. case_decide; [intros [= <-]|].
           ++ destruct (Hs _ _ _ _ (Hm0 _ _ Ecur) Ecur) as (_ & _ & _ & _ & Hmin).
              split_and!; [eauto with vfx|done..|]. intros t'.
              rewrite elem_of_snoc. intros [?| ->]; [|lia].
              intros. pose proof (Hmin t'). specialize (Hmin t'). subst. intuition lia.
           ++ intros Hp. eapply Hslot; eauto.
        -- intros Hp. eapply Hslot; eauto. destruct (decide (p = t_PlayerID t)) as [->|]; [|auto].
           rewrite Ecur in Hp. simplify_eq. auto.
      * rewrite lookup_insert. case_decide; [intros [= <-]; subst|].
        -- split_and!; [eauto with vfx|done..|]. intros t'.
           rewrite elem_of_snoc. intros [Hin| ->]; [|lia].
           intros Hp' Hk' Hpl. destruct (Ha t' Hin Hp') as (_ & ms & Hms & [x Hx]).
           rewrite Hk' in Hms. unfold m0 in Ecur. rewrite Hms in Ecur. simpl in Ecur. congruence.
        -- intros Hp. eapply Hslot; eauto.
    + intros t'. rewrite elem_of_snoc. rewrite !lookup_insert.
      intros [Hin| ->] Hp'.
      * destruct (Ha t' Hin Hp') as (Hro & ms & Hms & Hx). split; [case_decide; eauto|].
        case_decide as E; [|eauto]. eexists. split; [done|]. rewrite E, Hms. simpl.
        destruct (ms !! t_PlayerID t); repeat case_match; rewrite ?lookup_insert; try case_decide; eauto.
      * rewrite !decide_True by done. split; [eauto|]. eexists. split; [done|].
        destruct (default ∅ _ !! t_PlayerID t) eqn:E; repeat case_match;
          rewrite ?lookup_insert_eq; eauto.
  - split; simpl.
    + rewrite filter_app, fmap_app, Hu. by rewrite filter_cons_True by done.
    + intros k r Hk. destruct (Hr _ _ Hk) as (t' & ? & ?). exists t'. split; eauto with vfx.
    + intros k ms p t0 Hk Hp. destruct (Hs _ _ _ _ Hk Hp) as (H1 & H2 & H3 & H4 & H5).
      split_and!; [eauto with vfx|done..|]. intros t'. rewrite elem_of_snoc.
      intros [?| ->]; [by apply H5|congruence].
    + intros t'. rewrite elem_of_snoc. intros [?| ->]; [by apply Ha|congruence].
Qed.

Lemma collectUnits_spec pending : collected pending (collectUnits pending).
Proof.
  unfold collectUnits. induction pending as [|t pending IH] using rev_ind.
  - split; simpl; [done|..]; intros *; rewrite ?lookup_empty; try done. by rewrite elem_of_nil.
  - rewrite foldl_snoc. by apply collected_step.
Qed.
End units.

(** ** The units of a pool *)

Lemma partyTickets_spec ms r tks s u :
  partyTickets ms r tks s = Some u →
  ∃ tl, Forall2 (λ p t, ms !! p = Some t) r tl ∧ u_tickets u = tks ++ tl.
Proof.
  revert tks s. induction r as [|p r IH]; intros tks s; simpl.
  - intros [= <-]. exists []. by rewrite app_nil_r.
  - destruct (ms !! p) as [t|] eqn:E; [|done]. intros H.
    destruct (IH _ _ H) as (tl & Htl & ->). exists (t :: tl). split; [by constructor|].
    by rewrite <- app_assoc.
Qed.

(** The oldest-first order separates units that hold no common ticket. *)
Section unit_order.
Context {U : UuidCodec} {UL : UuidCodecLaws U}.

Lemma unitLess_asym u v : unitLess u v = true → unitLess v u = false.
Proof.
  unfold unitLess, time_Equal, time_Before.
  rewrite (Z.eqb_sym (u_seedAt v)). destruct (_ =? _) eqn:E; simpl.
  - apply str_ltb_asym.
  - intros ?. to_prop. lia.
Qed.

Lemma unitLess_neg_trans u v w :
  unitLess v u = false → unitLess w v = false → unitLess w u = false.
Proof.
  unfold unitLess, time_Equal, time_Before.
  destruct (Z.eqb_spec (u_seedAt v) (u_seedAt u)), (Z.eqb_spec (u_seedAt w) (u_seedAt v)),
    (Z.eqb_spec (u_seedAt w) (u_seedAt u)); simpl; try lia; rewrite ?Z.ltb_ge; try lia.
  apply str_ltb_neg_trans.
Qed.

Lemma unitLess_separates u v :
  unitLess u v = false → unitLess v u = false → unit_firstID u = unit_firstID v.
Proof.
  unfold unitLess, time_Equal, time_Before.
  destruct (Z.eqb_spec (u_seedAt u) (u_seedAt v)), (Z.eqb_spec (u_seedAt v) (u_seedAt u));
    simpl; rewrite ?Z.ltb_ge; try lia.
  apply str_ltb_total.
Qed.
End unit_order.

Section build.
Context {U : UuidCodec} {UL : UuidCodecLaws U}.
Implicit Types (pending : list Ticket) (u : matchUnit).

Definition is_party_unit pending k r u : Prop :=
  ua_rosters (collectUnits pending) !! k = Some r ∧
  partyUnit (ua_byKeyPlayer (collectUnits pending)) (k, r) = Some u.

Definition is_solo_unit pending u : Prop :=
  ∃ t, t ∈ pending ∧ IsParty t = false ∧ u = soloUnit t.

Lemma elem_of_buildUnits {R : RangeOrder} {RL : RangeOrderLaw R} pending u :
  u ∈ buildUnits pending ↔ is_solo_unit pending u ∨ ∃ k r, is_party_unit pending k r u.
Proof.
  unfold buildUnits. rewrite elem_of_isort, elem_of_app, list_elem_of_omap.
  rewrite (col_units _ _ (collectUnits_spec pending)), list_elem_of_fmap.
  setoid_rewrite list_elem_of_filter. setoid_rewrite range_perm. unfold is_solo_unit.
  unfold is_party_unit. split; (intros [H|H]; [left; naive_solver|right]); revert H.
  - intros ([k r] & Hin & Hu). apply elem_of_map_to_list in Hin. by exists k, r.
  - intros (k & r & Hin & Hu). exists (k, r). by rewrite elem_of_map_to_list.
Qed.

(** A party unit holds, in roster order, the oldest ticket of every member. *)
Lemma party_unit_slots pending k r u :
  is_party_unit pending k r u →
  Forall2 (λ p t, t ∈ pending ∧ IsParty t = true ∧ PartyKey t = k ∧ t_PlayerID t = p) r (u_tickets u).
Proof.
  intros [Hr Hu]. unfold partyUnit in Hu. simpl in Hu.
  apply partyTickets_spec in Hu as (tl & Hf & ->). simpl.
  eapply Forall2_impl; [exact Hf|]. intros p t Ht. simpl in Ht.
  destruct (ua_byKeyPlayer _ !! k) as [ms|] eqn:E; simpl in Ht; [|by rewrite lookup_empty in Ht].
  destruct (col_slot _ _ (collectUnits_spec pending) _ _ _ _ E Ht) as (?&?&?&?&_). done.
Qed.

Lemma party_unit_elem pending k r u t :
  is_party_unit pending k r u → t ∈ u_tickets u →
  t ∈ pending ∧ IsParty t = true ∧ PartyKey t = k ∧ t_PlayerID t ∈ r.
Proof.
  intros Hu Ht. apply party_unit_slots in Hu.
  apply list_elem_of_lookup in Ht as [i Hi].
  destruct (Forall2_lookup_r _ _ _ _ _ Hu Hi) as (p & Hp & ? & ? & ? & <-).
  split_and!; [done..|]. by eapply list_elem_of_lookup_2.
Qed.

Lemma party_unit_roster pending k r u :
  is_party_unit pending k r u →
  ∃ t, t ∈ pending ∧ IsParty t = true ∧ PartyKey t = k ∧ t_PartyMembers t = r.
Proof. intros [Hr _]. by apply (col_roster _ _ (collectUnits_spec pending)). Qed.

Lemma party_unit_size pending k r u :
  is_party_unit pending k r u → unit_size u = Z.of_nat (length r).
Proof. intros Hu. apply party_unit_slots, Forall2_length in Hu. unfold unit_size. lia. Qed.

Lemma unit_nonempty pending u :
  is_solo_unit pending u ∨ (∃ k r, is_party_unit pending k r u) → u_tickets u <> [].
Proof.
  intros [(t & _ & _ & ->)|(k & r & Hu)]; [done|].
  pose proof (party_unit_size _ _ _ _ Hu) as Hs.
  apply party_unit_roster in Hu as (t & _ & Hp & _ & <-).
  unfold IsParty, unit_size in *. to_prop. intros E. rewrite E in Hs. simpl in Hs. lia.
Qed.

Lemma unit_subset pending u t :
  is_solo_unit pending u ∨ (∃ k r, is_party_unit pending k r u) → t ∈ u_tickets u → t ∈ pending.
Proof.
  intros [(t' & ? & _ & ->)|(k & r & Hu)].
  - simpl. by rewrite list_elem_of_singleton; intros ->.
  - intros Ht. by destruct (party_unit_elem _ _ _ _ _ Hu Ht).
Qed.

(** Two units that share a ticket are the same unit. *)
Lemma unit_overlap pending u v t :
  (is_solo_unit pending u ∨ ∃ k r, is_party_unit pending k r u) →
  (is_solo_unit pending v ∨ ∃ k r, is_party_unit pending k r v) →
  t ∈ u_tickets u → t ∈ u_tickets v → u = v.
Proof.
  intros Hu Hv Htu Htv.
  destruct Hu as [(tu & _ & Pu & ->)|(ku & ru & Hu)], Hv as [(tv & _ & Pv & ->)|(kv & rv & Hv)];
    simpl in *; rewrite ?list_elem_of_singleton in *; subst; try done.
  - destruct (party_unit_elem _ _ _ _ _ Hv Htv) as (_ & ? & _). congruence.
  - destruct (party_unit_elem _ _ _ _ _ Hu Htu) as (_ & ? & _). congruence.
  - destruct (party_unit_elem _ _ _ _ _ Hu Htu) as (_ & _ & <- & _).
    destruct (party_unit_elem _ _ _ _ _ Hv Htv) as (_ & _ & <- & _).
    destruct Hu as [Hu1 Hu2], Hv as [Hv1 Hv2]. congruence.
Qed.
End build.

Lemma NoDup_fmap_inj_on {A B} (f : A → B) (l : list A) :
  NoDup (f <$> l) → ∀ x y, x ∈ l → y ∈ l → f x = f y → x = y.
Proof.
  induction l as [|a l IH]; csimpl; intros Hnd x y; [by rewrite elem_of_nil|].
  apply NoDup_cons in Hnd as [Ha Hnd]. rewrite !elem_of_cons.
  intros [->|Hx] [->|Hy] E; [done| | |by apply IH]; exfalso; apply Ha;
    [rewrite E|rewrite <- E]; by apply list_elem_of_fmap_2.
Qed.

(** ** The greedy fill *)

Section fill.
Context (m : Matcher) (seedIdx : nat) (a : Ticket) (w : float64) (ir : bool).

Lemma fillGroup_full j units group :
  Z.of_nat (length group) = m_playersPerMatch m →
  fillGroup m seedIdx a w ir j units group = group.
Proof.
  intros Hl. revert j. induction units as [|u units IH]; intros j; simpl; [done|].
  case_bool_decide; [done|]. by rewrite (proj2 (Z.eqb_eq _ _) Hl).
Qed.

(** The fill appends whole compatible units, none of them the seed, and never overflows. *)
Lemma fillGroup_spec j units group :
  Z.of_nat (length group) ≤ m_playersPerMatch m →
  ∃ chosen,
    fillGroup m seedIdx a w ir j units group = group ++ concat (u_tickets <$> chosen) ∧
    chosen `sublist_of` (if bool_decide (j ≤ seedIdx)%nat then delete (seedIdx - j)%nat units else units) ∧
    Forall (λ u, unitCompatibleWith u a w ir = true) chosen ∧
    Z.of_nat (length (group ++ concat (u_tickets <$> chosen))) ≤ m_playersPerMatch m.
Proof.
  revert j group. induction units as [|u units IH]; intros j group Hl.
  { exists []. simpl. rewrite app_nil_r. split_and!; [done|apply sublist_nil_l|by constructor|done]. }
  assert (Hskip : ∀ chosen,
    chosen `sublist_of` (if bool_decide (S j ≤ seedIdx)%nat then delete (seedIdx - S j)%nat units else units) →
    chosen `sublist_of` (if bool_decide (j ≤ seedIdx)%nat then delete (seedIdx - j)%nat (u :: units) else u :: units)).
  { intros chosen. destruct (decide (j = seedIdx)) as [->|Hne].
    - rewrite bool_decide_false, bool_decide_true by lia. by rewrite Nat.sub_diag.
    - destruct (decide (j < seedIdx)%nat).
      + rewrite !bool_decide_true by lia. replace (seedIdx - j)%nat with (S (seedIdx - S j)) by lia.
        intros ?. by apply sublist_cons.
      + rewrite !bool_decide_false by lia. intros ?. by apply sublist_cons. }
  cbn [fillGroup]. destruct (bool_decide (j = seedIdx)) eqn:Hj.
  { destruct (IH (S j) group Hl) as (ch & -> & ? & ? & ?). exists ch. split_and!; [done|by apply Hskip|done|done]. }
  to_prop. destruct (_ =? _) eqn:Efull.
  { exists []. simpl. rewrite app_nil_r. split_and!; [done|apply sublist_nil_l|by constructor|done]. }
  destruct (_ <? _) eqn:Eover.
  { destruct (IH (S j) group Hl) as (ch & -> & ? & ? & ?). exists ch. split_and!; [done|by apply Hskip|done|done]. }
  destruct (unitCompatibleWith u a w ir) eqn:Ec; simpl.
  - to_prop. destruct (IH (S j) (group ++ u_tickets u)) as (ch & -> & Hs & ? & Hlen).
    { rewrite length_app. unfold unit_size in *. lia. }
    exists (u :: ch). csimpl. rewrite <- !app_assoc in *. split_and!; [done| |by constructor|done].
    destruct (decide (j < seedIdx)%nat).
    + rewrite bool_decide_true in Hs by lia. rewrite bool_decide_true by lia.
      replace (seedIdx - j)%nat with (S (seedIdx - S j)) by lia. by apply sublist_skip.
    + rewrite bool_decide_false in Hs by lia. rewrite bool_decide_false by lia.
      by apply sublist_skip.
  - destruct (IH (S j) group Hl) as (ch & -> & ? & ? & ?). exists ch. split_and!; [done|by apply Hskip|done|done].
Qed.
End fill.

Lemma firstGroup_Some m now units idxs g :
  firstGroup m now units idxs = Some g → ∃ i, i ∈ idxs ∧ groupFromSeed m now units i = Some g.
Proof.
  induction idxs as [|i idxs IH]; simpl; [done|].
  destruct (groupFromSeed m now units i) eqn:E.
  - intros [= ->]. exists i. split; [by left|done].
  - intros H. destruct (IH H) as (k & ? & ?). exists k. split; [by right|done].
Qed.

Lemma firstGroup_None m now units idxs :
  firstGroup m now units idxs = None ↔ ∀ i, i ∈ idxs → groupFromSeed m now units i = None.
Proof.
  induction idxs as [|i idxs IH]; simpl.
  - split; [|done]. intros _ i. by rewrite elem_of_nil.
  - setoid_rewrite elem_of_cons. destruct (groupFromSeed m now units i) eqn:E.
    + split; [done|]. intros H. specialize (H i). rewrite H in E by auto. done.
    + rewrite IH. naive_solver.
Qed.

Lemma anchor_elem u a : anchor u = Some a → a ∈ u_tickets u.
Proof.
  unfold anchor. destruct (u_tickets u) as [|t0 ts]; [done|]. intros [= <-].
  revert t0. induction ts as [|t ts IH]; intros t0; simpl; [by left|].
  specialize (IH (if time_Before (t_EnqueuedAt t) (t_EnqueuedAt t0) then t else t0)).
  case_match; rewrite !elem_of_cons in *; naive_solver.
Qed.

(** The anatomy of a selected group: a seed unit followed by other units, each compatible with
    the seed's anchor at the anchor's tier. *)
Lemma SelectGroup_anatomy `{UuidCodec, RangeOrder} m now pending g :
  SelectGroup m now pending = Some g →
  ∃ seed chosen rest a,
    g = u_tickets seed ++ concat (u_tickets <$> chosen) ∧
    buildUnits pending ≡ₚ seed :: rest ∧ chosen `sublist_of` rest ∧
    anchor seed = Some a ∧
    Forall (λ u, unitCompatibleWith u a (ratingWindow m now (t_EnqueuedAt a))
                   (regionIgnored m now (t_EnqueuedAt a)) = true) chosen ∧
    Z.of_nat (length g) = m_playersPerMatch m.
Proof.
  intros Hg. apply firstGroup_Some in Hg as (i & _ & Hg). unfold groupFromSeed in Hg.
  destruct (buildUnits pending !! i) as [seed|] eqn:Hi; [|done].
  destruct (_ <? _) eqn:Hsz; [done|]. destruct (anchor seed) as [a|] eqn:Ha; [|done].
  destruct (fillGroup_spec m i a (ratingWindow m now (t_EnqueuedAt a))
    (regionIgnored m now (t_EnqueuedAt a)) 0 (buildUnits pending) (u_tickets seed))
    as (ch & Ef & Hs & Hc & Hl); [unfold unit_size in *; to_prop; lia|].
  rewrite Ef in Hg. destruct (negb _) eqn:En; [done|]. simplify_eq. to_prop.
  rewrite bool_decide_true in Hs by lia. rewrite Nat.sub_0_r in Hs.
  exists seed, ch, (delete i (buildUnits pending)), a.
  split_and!; try done. by apply delete_Permutation.
Qed.

(** ** The matcher's guarantees *)

Section matcher.
Context {U : UuidCodec} {UL : UuidCodecLaws U}.
Implicit Types (pending : list Ticket).

Definition unit_of pending (u : matchUnit) : Prop :=
  is_solo_unit pending u ∨ ∃ k r, is_party_unit pending k r u.

Lemma unit_NoDup pending u :
  (∀ t, t ∈ pending → NoDup (t_PartyMembers t)) → unit_of pending u → NoDup (u_tickets u).
Proof.
  intros Hnd [(t & _ & _ & ->)|(k & r & Hu)]; [apply NoDup_singleton|].
  destruct (party_unit_roster _ _ _ _ Hu) as (t0 & Ht0 & _ & _ & <-).
  pose proof (Hnd t0 Ht0) as Hr. apply party_unit_slots in Hu.
  assert (E : t_PlayerID <$> u_tickets u = t_PartyMembers t0).
  { clear Hr. induction Hu as [|p t r ts (_ & _ & _ & <-) _ IH]; [done|]. csimpl. by f_equal. }
  rewrite <- E in Hr. by eapply NoDup_fmap_1.
Qed.

Lemma units_concat_NoDup pending (us : list matchUnit) :
  (∀ t, t ∈ pending → NoDup (t_PartyMembers t)) →
  NoDup us → Forall (unit_of pending) us → NoDup (concat (u_tickets <$> us)).
Proof.
  intros Hr Hnd Hu. induction Hu as [|u us Hu Hus IH]; csimpl; [constructor|].
  apply NoDup_cons in Hnd as [Hni Hnd]. apply list.NoDup_app. split_and!.
  - by eapply unit_NoDup.
  - intros t Ht Hin. apply elem_of_concat in Hin as (ts & Hts & Htt).
    apply list_elem_of_fmap in Hts as (v & -> & Hv).
    rewrite list.Forall_forall in Hus. specialize (Hus _ Hv).
    by rewrite (unit_overlap pending u v t) in Hni.
  - by apply IH.
Qed.

Lemma collectUnits_NoDup pending :
  NoDup pending →
  NoDup (ua_units (collectUnits pending)).
Proof.
  intros Hnd. rewrite (col_units _ _ (collectUnits_spec pending)).
  apply NoDup_fmap_2; [|by apply NoDup_filter]. by intros x y [= ->].
Qed.

Lemma parties_NoDup pending (krs : list (string * list uuid)) :
  NoDup krs → (∀ k r, (k, r) ∈ krs → ua_rosters (collectUnits pending) !! k = Some r) →
  NoDup (omap (partyUnit (ua_byKeyPlayer (collectUnits pending))) krs).
Proof.
  induction krs as [|[k r] krs IH]; csimpl; intros Hnd Hr; [constructor|].
  apply NoDup_cons in Hnd as [Hni Hnd].
  assert (NoDup (omap (partyUnit (ua_byKeyPlayer (collectUnits pending))) krs)) as IH'.
  { apply IH; [done|]. intros k' r' ?. apply Hr. by right. }
  destruct (partyUnit _ (k, r)) as [u|] eqn:Eu; [|done].
  constructor; [|done]. intros Hin. apply list_elem_of_omap in Hin as ([k' r'] & Hin & Eu').
  assert (Hu : is_party_unit pending k r u) by (split; [apply Hr; by left|done]).
  assert (Hu' : is_party_unit pending k' r' u) by (split; [apply Hr; by right|done]).
  destruct (u_tickets u) as [|t ts] eqn:Et.
  { by apply (unit_nonempty pending u) in Et; [|right; eauto]. }
  assert (Ht : t ∈ u_tickets u) by (rewrite Et; left).
  destruct (party_unit_elem _ _ _ _ _ Hu Ht) as (_ & _ & <- & _).
  destruct (party_unit_elem _ _ _ _ _ Hu' Ht) as (_ & _ & <- & _).
  destruct Hu as [H1 _], Hu' as [H2 _]. rewrite H1 in H2. simplify_eq. done.
Qed.

Lemma buildUnits_NoDup {R : RangeOrder} {RL : RangeOrderLaw R} pending :
  NoDup pending → NoDup (buildUnits pending).
Proof.
  intros Hnd. unfold buildUnits. rewrite isort_perm. apply list.NoDup_app. split_and!.
  - by apply collectUnits_NoDup.
  - rewrite (col_units _ _ (collectUnits_spec pending)). intros u Hu Hin.
    apply list_elem_of_fmap in Hu as (t & -> & Ht). apply list_elem_of_filter in Ht as [Hp Ht].
    apply list_elem_of_omap in Hin as ([k r] & Hin & Eu).
    rewrite range_perm in Hin. apply elem_of_map_to_list in Hin.
    destruct (party_unit_elem pending k r _ t (conj Hin Eu)) as (_ & ? & _); [by left|congruence].
  - rewrite range_perm. apply parties_NoDup; [apply NoDup_map_to_list|].
    intros k r. by rewrite elem_of_map_to_list.
Qed.

Lemma buildUnits_Forall {R : RangeOrder} {RL : RangeOrderLaw R} pending :
  Forall (unit_of pending) (buildUnits pending).
Proof. apply list.Forall_forall. intros u. by rewrite elem_of_buildUnits. Qed.

(** The group of a selection, unit by unit. *)
Lemma group_units {R : RangeOrder} {RL : RangeOrderLaw R} m now pending g :
  SelectGroup m now pending = Some g →
  ∃ us rest a seed, g = concat (u_tickets <$> us) ∧ us `sublist_of` rest ∧
    rest ≡ₚ buildUnits pending ∧ seed ∈ us ∧ anchor seed = Some a ∧
    (∀ u, u ∈ us → unit_of pending u) ∧
    (∀ u, u ∈ us → u = seed ∨ unitCompatibleWith u a (ratingWindow m now (t_EnqueuedAt a))
                      (regionIgnored m now (t_EnqueuedAt a)) = true) ∧
    Z.of_nat (length g) = m_playersPerMatch m.
Proof.
  intros Hg. apply SelectGroup_anatomy in Hg as (seed & ch & rest & a & -> & Hp & Hs & Ha & Hc & Hl).
  exists (seed :: ch), (seed :: rest), a, seed. csimpl.
  assert (Hall : Forall (unit_of pending) (seed :: rest)) by (rewrite <- Hp; apply buildUnits_Forall).
  rewrite list.Forall_forall in Hall. rewrite list.Forall_forall in Hc. split_and!; try done.
  - by apply sublist_skip.
  - by left.
  - intros u Hu. apply Hall. apply (elem_of_sublist _ _ _ Hu). by apply sublist_skip.
  - intros u. rewrite elem_of_cons. intros [->|Hu]; auto.
Qed.
End matcher.

Lemma SelectGroup_subset {U : UuidCodec} {R : RangeOrder} {RL : RangeOrderLaw R} m now (pending g : list Ticket) :
  SelectGroup m now pending = Some g →
  Z.of_nat (length g) = m_playersPerMatch m ∧ ∀ t, t ∈ g → t ∈ pending.
Proof.
  intros Hg. apply group_units in Hg as (us & rest & a & seed & -> & _ & _ & _ & _ & Hu & _ & Hl).
  split; [done|]. intros t Ht. apply elem_of_concat in Ht as (ts & Hts & Ht).
  apply list_elem_of_fmap in Hts as (u & -> & Hin). eapply unit_subset; [by apply Hu|done].
Qed.

(** C7: whatever the map iteration order, a selected group has exactly [PlayersPerMatch] tickets,
    all taken from the pending pool, and no ticket twice (ticket ids being unique and rosters
    free of duplicates). *)
Theorem SelectGroup_sound {U : UuidCodec} {UL : UuidCodecLaws U} {R : RangeOrder} {RL : RangeOrderLaw R}
    m now (pending g : list Ticket) :
  SelectGroup m now pending = Some g →
  NoDup (t_ID <$> pending) →
  (∀ t, t ∈ pending → NoDup (t_PartyMembers t)) →
  Z.of_nat (length g) = PlayersPerMatch m ∧ (∀ t, t ∈ g → t ∈ pending) ∧ NoDup (t_ID <$> g).
Proof.
  intros Hg Hid Hr. pose proof (NoDup_fmap_1 _ _ Hid) as Hnd.
  destruct (SelectGroup_subset m now pending g Hg) as [Hl Hsub]. split_and!; [done|done|].
  apply group_units in Hg as (us & rest & a & seed & -> & Hs & Hp & _ & _ & Hu & _ & _).
  apply NoDup_fmap_2_strong.
  - intros x y Hx Hy. apply (NoDup_fmap_inj_on t_ID pending Hid); by apply Hsub.
  - apply (units_concat_NoDup pending); [done| |by apply list.Forall_forall].
    eapply sublist_NoDup; [|exact Hs]. rewrite Hp. by apply buildUnits_NoDup.
Qed.

(** a party is placed whole or not at all: when one of its members' tickets is selected, so
    is a ticket of the same party for every member of the roster. *)
Theorem SelectGroup_parties_whole {U : UuidCodec} {UL : UuidCodecLaws U} {R : RangeOrder} {RL : RangeOrderLaw R}
    m now (pending g : list Ticket) t p :
  SelectGroup m now pending = Some g →
  t ∈ g → IsParty t = true → p ∈ t_PartyMembers t →
  ∃ t', t' ∈ g ∧ t_PlayerID t' = p ∧ PartyKey t' = PartyKey t.
Proof.
  intros Hg Ht Hp Hm.
  apply group_units in Hg as (us & rest & a & seed & -> & _ & _ & _ & _ & Hu & _).
  apply elem_of_concat in Ht as (ts & Hts & Ht).
  apply list_elem_of_fmap in Hts as (u & -> & Hin).
  destruct (Hu _ Hin) as [(t0 & _ & Hs & ->)|(k & r & Hpu)].
  { simpl in Ht. apply list_elem_of_singleton in Ht as ->. congruence. }
  destruct (party_unit_elem _ _ _ _ _ Hpu Ht) as (_ & _ & Hk & _).
  destruct (party_unit_roster _ _ _ _ Hpu) as (t0 & _ & Hp0 & Hk0 & <-).
  assert (Hperm : t_PartyMembers t ≡ₚ t_PartyMembers t0) by (apply PartyKey_inj; congruence).
  rewrite Hperm in Hm. apply list_elem_of_lookup in Hm as [i Hi].
  pose proof (party_unit_slots _ _ _ _ Hpu) as Hslots.
  destruct (Forall2_lookup_l _ _ _ _ _ Hslots Hi) as (t' & Ht' & _ & _ & Hk' & Hpl).
  exists t'. split_and!; [|done|congruence].
  apply elem_of_concat. exists (u_tickets u). split; [by apply list_elem_of_fmap_2|].
  by eapply list_elem_of_lookup_2.
Qed.

(** every selected ticket is the seed's anchor, a member of the anchor's own party, or
    compatible with the anchor at the tier the anchor's waiting time grants. *)
Theorem SelectGroup_compatible {U : UuidCodec} {UL : UuidCodecLaws U} {R : RangeOrder} {RL : RangeOrderLaw R}
    m now (pending g : list Ticket) :
  SelectGroup m now pending = Some g →
  ∃ a, a ∈ g ∧ ∀ t, t ∈ g →
    t = a ∨ (IsParty t = true ∧ IsParty a = true ∧ PartyKey t = PartyKey a) ∨
    CompatibleWith a t (ratingWindow m now (t_EnqueuedAt a)) (regionIgnored m now (t_EnqueuedAt a)) = true.
Proof.
  intros Hg.
  apply group_units in Hg as (us & rest & a & seed & -> & _ & _ & Hseed & Ha & Hu & Hc & _).
  apply anchor_elem in Ha. exists a. split.
  { apply elem_of_concat. exists (u_tickets seed). split; [by apply list_elem_of_fmap_2|done]. }
  intros t Ht. apply elem_of_concat in Ht as (ts & Hts & Ht).
  apply list_elem_of_fmap in Hts as (u & -> & Hin).
  destruct (Hc _ Hin) as [->|Hcu].
  - destruct (Hu _ Hin) as [(t0 & _ & _ & ->)|(k & r & Hpu)]; simpl in *.
    + rewrite list_elem_of_singleton in Ht, Ha. left. congruence.
    + destruct (party_unit_elem _ _ _ _ _ Hpu Ht) as (_ & ? & ? & _).
      destruct (party_unit_elem _ _ _ _ _ Hpu Ha) as (_ & ? & ? & _). right. left. split_and!; congruence.
  - right. right. unfold unitCompatibleWith in Hcu. rewrite forallb_forall in Hcu.
    apply Hcu. by apply list_elem_of_In.
Qed.

(** the selection does not depend on the iteration order of the roster map: two replicas
    that see the same pool select the same group. *)
Theorem SelectGroup_deterministic {U : UuidCodec} {UL : UuidCodecLaws U} (R1 R2 : RangeOrder)
    m now (pending : list Ticket) :
  RangeOrderLaw R1 → RangeOrderLaw R2 → NoDup (t_ID <$> pending) →
  @SelectGroup U R1 m now pending = @SelectGroup U R2 m now pending.
Proof.
  intros L1 L2 Hid. unfold SelectGroup.
  assert (@buildUnits U R1 pending = @buildUnits U R2 pending) as ->; [|done].
  unfold buildUnits. apply isort_unique; [apply unitLess_asym|apply unitLess_neg_trans| |].
  - assert (Helem : ∀ u, u ∈ ua_units (collectUnits pending) ++
        omap (partyUnit (ua_byKeyPlayer (collectUnits pending)))
          (@range_order R1 _ (map_to_list (ua_rosters (collectUnits pending)))) → unit_of pending u).
    { intros u Hu. apply (proj1 (@elem_of_buildUnits U R1 L1 pending u)). unfold buildUnits. cbv zeta. by apply elem_of_isort. }
    intros u v Hu%Helem Hv%Helem Huv Hvu.
    pose proof (unitLess_separates _ _ Huv Hvu) as E. unfold unit_firstID in E.
    destruct (u_tickets u) as [|t tu] eqn:Eu; [by apply (unit_nonempty pending) in Hu|].
    destruct (u_tickets v) as [|t' tv] eqn:Ev; [by apply (unit_nonempty pending) in Hv|].
    assert (Htu : t ∈ u_tickets u) by (rewrite Eu; left).
    assert (Htv : t' ∈ u_tickets v) by (rewrite Ev; left).
    apply uuid_String_inj in E.
    assert (t = t') as <-.
    { apply (NoDup_fmap_inj_on t_ID pending Hid); [by apply (unit_subset pending u)|by apply (unit_subset pending v)|done]. }
    by apply (unit_overlap pending u v t).
  - f_equiv. by rewrite (@range_perm R1), (@range_perm R2).
Qed.

(** ** Completeness on pools of solo tickets *)

Lemma filter_perm_length {A} (P : A → Prop) `{∀ x, Decision (P x)} (l1 l2 : list A) :
  l1 ≡ₚ l2 → length (filter P l1) = length (filter P l2).
Proof. intros Hp. by rewrite Hp. Qed.

Section fill_solo.
Context (m : Matcher) (seedIdx : nat) (a : Ticket) (w : float64) (ir : bool).
Let compat (u : matchUnit) : Prop := unitCompatibleWith u a w ir = true.

Lemma fillGroup_solo j units group :
  Forall (λ u, unit_size u = 1) units →
  Z.of_nat (length group) ≤ m_playersPerMatch m →
  Z.of_nat (length (fillGroup m seedIdx a w ir j units group)) =
  Z.min (m_playersPerMatch m)
    (Z.of_nat (length group) + Z.of_nat (length (filter compat
      (if bool_decide (j ≤ seedIdx)%nat then delete (seedIdx - j)%nat units else units)))).
Proof.
  intros Hs. revert j group. induction Hs as [|u units Hu Hs IH]; intros j group Hl.
  { cbn [fillGroup]. destruct (bool_decide _); simpl; lia. }
  cbn [fillGroup]. destruct (bool_decide (j = seedIdx)) eqn:Hj; to_prop.
  { rewrite IH by done. subst j. rewrite bool_decide_false, bool_decide_true by lia.
    by rewrite Nat.sub_diag. }
  assert (Htail : (if bool_decide (j ≤ seedIdx)%nat then delete (seedIdx - j)%nat (u :: units) else u :: units) =
    u :: (if bool_decide (S j ≤ seedIdx)%nat then delete (seedIdx - S j)%nat units else units)).
  { destruct (decide (j < seedIdx)%nat).
    - rewrite !bool_decide_true by lia. by replace (seedIdx - j)%nat with (S (seedIdx - S j)) by lia.
    - by rewrite !bool_decide_false by lia. }
  rewrite Htail. destruct (_ =? _) eqn:Ef; to_prop.
  { rewrite Ef. lia. }
  destruct (_ <? _) eqn:Eo; to_prop; [lia|].
  destruct (unitCompatibleWith u a w ir) eqn:Ec; simpl.
  - rewrite filter_cons_True by done. rewrite IH.
    + rewrite length_app. unfold unit_size in Hu. simpl. lia.
    + rewrite length_app. unfold unit_size in *. lia.
  - rewrite filter_cons_False by (unfold compat; congruence). by rewrite IH.
Qed.
End fill_solo.

Section solo.
Context {U : UuidCodec} {R : RangeOrder} {RL : RangeOrderLaw R}.

Lemma buildUnits_solo (pending : list Ticket) :
  (∀ t, t ∈ pending → IsParty t = false) → buildUnits pending ≡ₚ soloUnit <$> pending.
Proof.
  intros Hsolo. unfold buildUnits. cbv zeta. rewrite isort_perm.
  rewrite (col_units _ _ (collectUnits_spec pending)).
  assert (map_to_list (ua_rosters (collectUnits pending)) = []) as ->.
  { destruct (map_to_list _) as [|[k r] l] eqn:E; [done|].
    assert (Hin : (k, r) ∈ map_to_list (ua_rosters (collectUnits pending))) by (rewrite E; left).
    apply elem_of_map_to_list in Hin.
    destruct (col_roster _ _ (collectUnits_spec pending) _ _ Hin) as (t & Ht & Hp & _).
    by rewrite Hsolo in Hp. }
  rewrite (range_perm (R := R) []). simpl. rewrite app_nil_r.
  assert (filter (λ t, IsParty t = false) pending = pending) as ->; [|done].
  clear -Hsolo. induction pending as [|t p IH]; [done|].
  rewrite filter_cons_True by (apply Hsolo; left). f_equal. apply IH. intros. apply Hsolo. by right.
Qed.

(** The number of tickets of [rest] that the seed [a] could be grouped with at time [now]. *)
Definition eligible (m : Matcher) (now : time) (a : Ticket) (rest : list Ticket) : Z :=
  Z.of_nat (length (filter (λ t, CompatibleWith a t (ratingWindow m now (t_EnqueuedAt a))
                                   (regionIgnored m now (t_EnqueuedAt a)) = true) rest)).

Lemma groupFromSeed_solo m now (pending rest : list Ticket) a i :
  (∀ t, t ∈ pending → IsParty t = false) → 1 ≤ m_playersPerMatch m →
  buildUnits pending !! i = Some (soloUnit a) → pending ≡ₚ a :: rest →
  (groupFromSeed m now (buildUnits pending) i = None ↔ eligible m now a rest < m_playersPerMatch m - 1).
Proof.
  intros Hsolo Hppm Hi Hp. unfold groupFromSeed. rewrite Hi.
  unfold unit_size. simpl. rewrite (proj2 (Z.ltb_ge _ _)) by lia.
  set (w := ratingWindow _ _ _). set (ir := regionIgnored _ _ _).
  pose proof (fillGroup_solo m i a w ir 0 (buildUnits pending) [a]) as Hf.
  rewrite bool_decide_true, Nat.sub_0_r in Hf by lia.
  assert (Hrest : delete i (buildUnits pending) ≡ₚ soloUnit <$> rest).
  { apply (Permutation_cons_inv (a := soloUnit a)). rewrite <- (delete_Permutation _ _ _ Hi).
    rewrite buildUnits_solo, Hp by done. done. }
  assert (Hcount : ∀ l : list Ticket, length (filter (λ u, unitCompatibleWith u a w ir = true) (soloUnit <$> l)) =
    length (filter (λ t, CompatibleWith a t w ir = true) l)).
  { induction l as [|t l IH]; [done|]. csimpl. rewrite !filter_cons.
    assert (Hc : unitCompatibleWith (soloUnit t) a w ir = CompatibleWith a t w ir)
      by (unfold unitCompatibleWith; simpl; by rewrite andb_true_r).
    rewrite Hc. case_decide; simpl; by rewrite IH. }
  rewrite Hf.
  2: { rewrite buildUnits_solo by done. apply list.Forall_forall. intros u.
       rewrite list_elem_of_fmap. by intros (t & -> & _). }
  2: { simpl. lia. }
  rewrite (filter_perm_length _ _ _ Hrest), Hcount. fold (eligible m now a rest) in *.
  change (length (filter _ rest)) with (length (filter (λ t, CompatibleWith a t w ir = true) rest)).
  unfold eligible. fold w ir. simpl.
  destruct (_ =? _) eqn:E; to_prop; simpl; split; try done; lia.
Qed.
End solo.

(** on a pool of solo tickets the greedy search misses nothing: no group is selected exactly
    when no ticket has enough others compatible with it at its own tier, so an incompatible
    outlier at the head of the queue never blocks the tickets behind it. *)
Theorem SelectGroup_complete_solo {U : UuidCodec} {R : RangeOrder} {RL : RangeOrderLaw R}
    m now (pending : list Ticket) :
  (∀ t, t ∈ pending → IsParty t = false) → 1 ≤ PlayersPerMatch m →
  SelectGroup m now pending = None ↔
  (∀ a rest, pending ≡ₚ a :: rest → eligible m now a rest < PlayersPerMatch m - 1).
Proof.
  intros Hsolo Hppm. unfold SelectGroup. cbv zeta. rewrite firstGroup_None. split.
  - intros H a rest Hp.
    assert (Hin : soloUnit a ∈ buildUnits pending) by (rewrite buildUnits_solo, Hp by done; left).
    apply list_elem_of_lookup in Hin as [i Hi].
    apply (groupFromSeed_solo m now pending rest a i); [done..|].
    apply H. apply elem_of_seq. apply lookup_lt_Some in Hi. lia.
  - intros H i Hin. apply elem_of_seq in Hin.
    destruct (buildUnits pending !! i) as [u|] eqn:Hi; [|unfold groupFromSeed; by rewrite Hi].
    assert (Hu : u ∈ soloUnit <$> pending) by (rewrite <- buildUnits_solo by done; by eapply list_elem_of_lookup_2).
    apply list_elem_of_fmap in Hu as (a & -> & Ha). apply elem_of_Permutation in Ha as [rest Hp].
    apply (groupFromSeed_solo m now pending rest a i); [done..|]. by apply H.
Qed.

(** ** The canonical roster *)

(** a party's roster is canonical: it lists exactly the submitter and the requested members,
    each once; it is empty exactly for a solo queue; and every member who names the same set of
    players gets the same roster, whatever the order and the duplicates of the request. *)
Theorem NormalizeParty_canonical {U : UuidCodec} {UL : UuidCodecLaws U}
    (R1 R2 : RangeOrder) (self1 self2 : uuid) (members1 members2 : list uuid) :
  RangeOrderLaw R1 → RangeOrderLaw R2 →
  let r1 := @NormalizeParty U R1 self1 members1 in
  let r2 := @NormalizeParty U R2 self2 members2 in
  NoDup r1 ∧
  (r1 = [] ↔ ∀ p, p ∈ members1 → p = self1) ∧
  (r1 <> [] → ∀ p, p ∈ r1 ↔ p = self1 ∨ p ∈ members1) ∧
  ((∀ p, p = self1 ∨ p ∈ members1 ↔ p = self2 ∨ p ∈ members2) → r1 = r2).
Proof.
  intros L1 L2 r1 r2. subst r1 r2.
  assert (Hset : ∀ s ms p, p ∈ party_set s ms ↔ p = s ∨ p ∈ ms).
  { intros s ms p. unfold party_set. rewrite elem_of_union, elem_of_list_to_set, elem_of_singleton. naive_solver. }
  assert (Hself : ∀ s ms, s ∈ party_set s ms) by (intros; apply Hset; by left).
  assert (Hsmall : ∀ s ms, (size (party_set s ms) ≤ 1)%nat ↔ ∀ p, p ∈ ms → p = s).
  { intros s ms. split.
    - intros Hs p Hp. apply (size_singleton_inv (party_set s ms)); [|apply Hset; auto|done].
      assert (size (party_set s ms) <> 0%nat); [|lia].
      intros E%size_empty_inv. by destruct (E s) as [[]%not_elem_of_empty _].
    - intros Hall. assert (party_set s ms = {[ s ]}) as ->; [|by rewrite size_singleton].
      apply set_eq. intros p. rewrite Hset, elem_of_singleton. naive_solver. }
  split_and!.
  - apply NormalizeParty_NoDup.
  - rewrite <- Hsmall. destruct (decide (2 ≤ Z.of_nat (size (party_set self1 members1)))) as [H|H].
    + split; [|lia]. intros E. pose proof (NormalizeParty_perm (R := R1) _ _ H) as Hp. rewrite E in Hp.
      apply Permutation_nil_l in Hp. apply (f_equal length) in Hp.
      change (length (elements ?X)) with (size X) in Hp. simpl in Hp. lia.
    + split; [lia|]. intros _. unfold NormalizeParty. fold (party_set self1 members1).
      cbv zeta. by rewrite (proj2 (Z.leb_le _ _)) by lia.
  - intros Hne p. rewrite <- Hset.
    destruct (decide (2 ≤ Z.of_nat (size (party_set self1 members1)))) as [H|H].
    + by rewrite (NormalizeParty_perm (R := R1)), elem_of_elements.
    + exfalso. apply Hne. unfold NormalizeParty. fold (party_set self1 members1).
      cbv zeta. by rewrite (proj2 (Z.leb_le _ _)) by lia.
  - intros Hsame.
    assert (Heq : party_set self1 members1 = party_set self2 members2).
    { apply set_eq. intros p. by rewrite !Hset. }
    unfold NormalizeParty. fold (party_set self1 members1) (party_set self2 members2). rewrite Heq.
    cbv zeta. case_match; [done|]. apply isort_unique.
    + intros x y. apply str_ltb_asym.
    + intros x y z. apply str_ltb_neg_trans.
    + intros x y _ _ Hx Hy. by apply uuid_String_inj, str_ltb_total.
    + by rewrite (range_perm (R := R1)), (range_perm (R := R2)).
Qed.

(** ** Evaluated instances *)

Section examples.
Let A := sample_uuid x0a.
Let B := sample_uuid x0b.
Let C := sample_uuid x0c.

(** A solo ticket, an outlier and a party of two, queued a second apart. *)
Definition demo_ticket (id player : byte) (rating : Z) (party : list uuid) (at_ : time) : Ticket :=
  mkTicket (sample_uuid id) (sample_uuid player) "ranked" (Some (f64_of_Z rating)) (Some "eu") party ∅ at_.

Definition demo_pool : list Ticket :=
  [demo_ticket x01 x0a 1000 [] (1 * Second);
   demo_ticket x02 x0d 9000 [] (2 * Second);
   demo_ticket x03 x0b 1050 [B; C] (3 * Second);
   demo_ticket x04 x0c 1080 [B; C] (4 * Second)].

Definition demo_matcher : Matcher := NewMatcher 3 (mkMatchingPolicy (f64_of_Z 0) (f64_of_Z 0) 0).

Definition demo_group : list Ticket :=
  [demo_ticket x01 x0a 1000 [] (1 * Second);
   demo_ticket x03 x0b 1050 [B; C] (3 * Second);
   demo_ticket x04 x0c 1080 [B; C] (4 * Second)].

Example demo_selects :
  @SelectGroup hex_codec range_id demo_matcher (5 * Second) demo_pool = Some demo_group.
Proof. vm_compute. reflexivity. Qed.

(** Two tickets of one player are as good a pair as any other: nothing in the matcher compares
    player ids, so a player who queues twice can be matched against themself. *)
Definition twice_queued : list Ticket :=
  [demo_ticket x01 x0a 1000 [] (1 * Second); demo_ticket x02 x0a 1000 [] (2 * Second)].

Example player_matched_with_self :
  @SelectGroup hex_codec range_id (NewMatcher 2 DefaultMatchingPolicy) (5 * Second) twice_queued
    = Some twice_queued.
Proof. vm_compute. reflexivity. Qed.

(** A NaN rating is inside every window. *)
Example nan_rating_matches_anyone :
  CompatibleWith (mkTicket A A "ranked" (Some S754_nan) None [] ∅ 0)
                 (mkTicket B B "ranked" (Some (f64_of_Z 9000)) None [] ∅ 0) (f64_of_Z 1) false = true.
Proof. vm_compute. reflexivity. Qed.
End examples.

Lemma CompatibleWith_widen_witness :
  CompatibleWith (demo_ticket x01 x0a 1000 [] 0) (demo_ticket x02 x0b 1100 [] 0) (f64_of_Z 150) true = true.
Proof.
  apply (CompatibleWith_widen _ _ (f64_of_Z 100) (f64_of_Z 150) false true);
    [vm_compute; reflexivity|done|vm_compute; reflexivity].
Defined.

Lemma SelectGroup_sound_witness :
  NoDup (t_ID <$> demo_pool) ∧ Z.of_nat (length demo_group) = PlayersPerMatch demo_matcher ∧
  (∀ t, t ∈ demo_group → t ∈ demo_pool) ∧ NoDup (t_ID <$> demo_group).
Proof.
  assert (H : NoDup (t_ID <$> demo_pool)) by by_compute. split; [exact H|].
  apply (@SelectGroup_sound hex_codec hex_codec_laws range_id range_id_law demo_matcher (5 * Second)).
  - vm_compute. reflexivity.
  - exact H.
  - by_compute_all.
Defined.

Lemma SelectGroup_parties_whole_witness :
  ∃ t', t' ∈ demo_group ∧ t_PlayerID t' = sample_uuid x0c ∧
        @PartyKey hex_codec t' =
        @PartyKey hex_codec (demo_ticket x03 x0b 1050 [sample_uuid x0b; sample_uuid x0c] (3 * Second)).
Proof.
  apply (@SelectGroup_parties_whole hex_codec hex_codec_laws range_id range_id_law demo_matcher
           (5 * Second) demo_pool); [vm_compute; reflexivity|by_compute|reflexivity|by_compute].
Defined.

Lemma SelectGroup_compatible_witness :
  ∃ a, a ∈ demo_group ∧ ∀ t, t ∈ demo_group →
    t = a ∨ (IsParty t = true ∧ IsParty a = true ∧ @PartyKey hex_codec t = @PartyKey hex_codec a) ∨
    CompatibleWith a t (ratingWindow demo_matcher (5 * Second) (t_EnqueuedAt a))
      (regionIgnored demo_matcher (5 * Second) (t_EnqueuedAt a)) = true.
Proof.
  apply (@SelectGroup_compatible hex_codec hex_codec_laws range_id range_id_law demo_matcher
           (5 * Second) demo_pool). vm_compute. reflexivity.
Defined.

Lemma SelectGroup_deterministic_witness :
  @SelectGroup hex_codec range_id demo_matcher (5 * Second) demo_pool =
  @SelectGroup hex_codec range_rev demo_matcher (5 * Second) demo_pool.
Proof.
  apply (@SelectGroup_deterministic hex_codec hex_codec_laws range_id range_rev);
    [apply range_id_law|apply range_rev_law|by_compute].
Defined.

Lemma SelectGroup_complete_solo_witness :
  @SelectGroup hex_codec range_id demo_matcher 0 twice_queued = None ↔
  (∀ a rest, twice_queued ≡ₚ a :: rest →
     eligible demo_matcher 0 a rest < PlayersPerMatch demo_matcher - 1).
Proof.
  apply (@SelectGroup_complete_solo hex_codec range_id range_id_law); [by_compute_all|by_compute].
Defined.

Lemma NormalizeParty_canonical_witness :
  let A := sample_uuid x0a in let B := sample_uuid x0b in
  @NormalizeParty hex_codec range_id A [B; A; B] = @NormalizeParty hex_codec range_rev B [A].
Proof.
  apply (@NormalizeParty_canonical hex_codec hex_codec_laws range_id range_rev
           (sample_uuid x0a) (sample_uuid x0b) [sample_uuid x0b; sample_uuid x0a; sample_uuid x0b]
           [sample_uuid x0a] range_id_law range_rev_law).
  intros p. rewrite !elem_of_cons, elem_of_nil. naive_solver.
Defined.
