(* ===== verification/Allocator.v ===== *)
(** * Room allocators (infra/allocator)

    [Stub] hands out one configured endpoint; [Agones_Allocate] asks the Agones API of the cluster for a
    ready game server of the requested mode.  The API is the class [AllocationClient]: a request
    carries selectors, an answer the state of the allocation and the server's address.
    [agones_exclusive] shows that matches never share a server. *)

From stdpp Require Import pretty.
From S2P Require Import Prelude GoBase Match.

(** ** The stub (stub.go) *)

Record Stub := mkStub { st_endpoint : string }.

Definition NewStub (endpoint : string) : Stub := mkStub endpoint.

(** [newID] is [uuid.New()]. *)
Definition Stub_Allocate (s : Stub) (newID : uuid) (gameMode : string) (players : Z) : res RoomAllocation :=
  Ok (mkRoomAllocation newID (st_endpoint s)).

(** ** The Agones API *)

Record GameServerSelector := mkGameServerSelector { gs_MatchLabels : gmap string string; gs_GameServerState : string }.
Record AllocationStatus := mkAllocationStatus { as_State : string; as_GameServerName : string; as_Address : string; as_Ports : list Z }.

Class AllocationClient (K : Type) := CreateAllocation : string → list GameServerSelector → M K AllocationStatus.

(** A game server as the cluster sees it. *)
Record GameServer := mkGameServer { sv_Labels : gmap string string; sv_State : string; sv_Address : string; sv_Ports : list Z }.
Definition set_state (st : string) (s : GameServer) : GameServer := mkGameServer (sv_Labels s) st (sv_Address s) (sv_Ports s).

Definition selected (sel : GameServerSelector) (s : GameServer) : Prop := gs_MatchLabels sel ⊆ sv_Labels s ∧ sv_State s = gs_GameServerState sel.

(** An allocation takes one server that a selector selects and marks it Allocated; any other answer
    leaves the servers as they are. *)
Class AllocationLaws (K : Type) {AC : AllocationClient K} := {
  game_servers : string → K → gmap string GameServer;
  create_allocated ns sels k st k' : CreateAllocation ns sels k = (Ok st, k') → as_State st = "Allocated" →
    ∃ s, game_servers ns k !! as_GameServerName st = Some s ∧ Exists (λ sel, selected sel s) sels ∧
      game_servers ns k' = <[as_GameServerName st := set_state "Allocated" s]> (game_servers ns k) ∧
      as_Address st = sv_Address s ∧ as_Ports st = sv_Ports s;
  create_refused ns sels k r k' : CreateAllocation ns sels k = (r, k') → (∀ st, r = Ok st → as_State st <> "Allocated") →
    game_servers ns k' = game_servers ns k;
}.

(** ** The allocator (agones.go) *)

Definition GameModeLabel : string := "vfx.dev/game-mode".

Section agones.
Context {K : Type} {AC : AllocationClient K}.

Record Agones := mkAgones { ag_namespace : string }.

Definition newAgonesWithClient (namespace : string) : Agones := mkAgones namespace.

Definition endpoint_of (address : string) (port : Z) : string := address +:+ ":" +:+ pretty port.

Definition Agones_Allocate (a : Agones) (newID : uuid) (gameMode : string) (players : Z) : M K RoomAllocation := λ k,
  match CreateAllocation (ag_namespace a) [mkGameServerSelector {[ GameModeLabel := gameMode ]} "Ready"] k with
  | (Err err, k') => (Err (Wrap "allocator: create allocation" err), k')
  | (Ok status, k') =>
      (if bool_decide (as_State status <> "Allocated") then Err (ErrText ("allocator: no game server available for " +:+ gameMode))
       else match as_Ports status with
            | [] => Err (ErrText "allocator: allocated game server exposes no ports")
            | port :: _ => Ok (mkRoomAllocation newID (endpoint_of (as_Address status) port))
            end, k')
  end.

(** ** Allocations over time *)

Context {AL : AllocationLaws K}.

(** One request after the cluster has changed on its own. *)
Record allocation_request := mkRequest { ar_env : K → K; ar_id : uuid; ar_mode : string }.

(** The cluster does not take an allocated server away, nor back to Ready, while its match runs. *)
Definition keeps_allocated (ns : string) (env : K → K) : Prop :=
  ∀ k n s, game_servers ns k !! n = Some s → sv_State s = "Allocated" → game_servers ns (env k) !! n = Some s.

Fixpoint run_allocations (a : Agones) (l : list allocation_request) (k : K) : list (string * res RoomAllocation) :=
  match l with
  | [] => []
  | r :: l' => let '(out, k') := Agones_Allocate a (ar_id r) (ar_mode r) 0 (ar_env r k) in (ar_mode r, out) :: run_allocations a l' k'
  end.

(** An allocation that was given a server: which one, as it was. *)
Definition served (mode : string) (out : res RoomAllocation) (server : string * GameServer) : Prop :=
  ∃ alloc port, out = Ok alloc ∧ head (sv_Ports server.2) = Some port ∧ ra_Endpoint alloc = endpoint_of (sv_Address server.2) port ∧
    sv_State server.2 = "Ready" ∧ sv_Labels server.2 !! GameModeLabel = Some mode.

Definition taken (ns : string) (k : K) (n : string) : Prop := ∃ s, game_servers ns k !! n = Some s ∧ sv_State s = "Allocated".

Lemma allocate_Ok a id mode players k alloc k' : Agones_Allocate a id mode players k = (Ok alloc, k') →
  ∃ n s, game_servers (ag_namespace a) k !! n = Some s ∧ served mode (Ok alloc) (n, s) ∧ ra_MatchID alloc = id ∧
    taken (ag_namespace a) k' n ∧ ∀ m, taken (ag_namespace a) k m → m <> n ∧ taken (ag_namespace a) k' m.
Proof.
  unfold Agones_Allocate. destruct (CreateAllocation _ _ k) as [[st|e] k1] eqn:E; [|done]. intros [= Ho <-].
  case_bool_decide as Hst; [done|]. assert (Hs : as_State st = "Allocated") by (destruct (decide (as_State st = "Allocated")); tauto).
  destruct (as_Ports st) as [|port ports] eqn:Ep; [done|]. injection Ho as <-.
  destruct (create_allocated _ _ _ _ _ E Hs) as (s & Hn & Hsel & Hk & Ha & Hp).
  apply List.Exists_cons in Hsel as [[Hl Hr]|Hsel]; [|by inversion Hsel].
  exists (as_GameServerName st), s. split_and!; [done| |done| |].
  - exists (mkRoomAllocation id (endpoint_of (as_Address st) port)), port. cbn. rewrite <- Hp, Ep, Ha. split_and!; try done.
    apply (lookup_weaken {[GameModeLabel := mode]} (sv_Labels s)); [by rewrite lookup_singleton_eq|exact Hl].
  - exists (set_state "Allocated" s). rewrite Hk. by rewrite lookup_insert_eq.
  - intros m (s' & Hm & Hs'). assert (Hr' : sv_State s = "Ready") by exact Hr. split; [intros ->; congruence|]. exists s'. rewrite Hk. split; [|done].
    rewrite lookup_insert_ne; [done|]. intros Heq. congruence.
Qed.

Lemma allocate_keeps a id mode players k r k' m : Agones_Allocate a id mode players k = (r, k') → taken (ag_namespace a) k m → taken (ag_namespace a) k' m.
Proof.
  unfold Agones_Allocate. destruct (CreateAllocation _ _ k) as [[st|e] k1] eqn:E; intros [= _ <-].
  - destruct (decide (as_State st = "Allocated")) as [Hs|Hs].
    + destruct (create_allocated _ _ _ _ _ E Hs) as (s & Hn & _ & Hk & _). intros (s' & Hm & Hs').
      destruct (decide (m = as_GameServerName st)) as [->|Hne]; [exists (set_state "Allocated" s)|exists s'];
        rewrite Hk; [by rewrite lookup_insert_eq|by rewrite lookup_insert_ne].
    + intros (s' & Hm & Hs'). exists s'. rewrite (create_refused _ _ _ _ _ E); [done|]. by intros ? [= <-].
  - intros (s' & Hm & Hs'). exists s'. by rewrite (create_refused _ _ _ _ _ E).
Qed.

Definition allocated (out : string * res RoomAllocation) : Prop := is_ok out.2 = true.
#[export] Instance allocated_dec out : Decision (allocated out).
Proof. unfold allocated. apply _. Defined.

(** C24: matches never share a room server.  However requests for allocations follow each other, and
    whatever the cluster does between them (short of taking a server back from a running match), the
    answers that succeed are for pairwise different game servers, each of which was Ready, carried
    the label of the requested mode, and is the one whose address and first port the answer names. *)
Theorem agones_exclusive a requests k :
  Forall (λ r, keeps_allocated (ag_namespace a) (ar_env r)) requests →
  ∃ servers, NoDup servers.*1 ∧
    Forall2 (λ out server, served out.1 out.2 server) (filter allocated (run_allocations a requests k)) servers.
Proof.
  intros H. enough (∃ servers, NoDup servers.*1 ∧ Forall (λ n, ¬ taken (ag_namespace a) k n) servers.*1 ∧
    Forall2 (λ out server, served out.1 out.2 server) (filter allocated (run_allocations a requests k)) servers) as (l & ? & _ & ?) by (by exists l).
  revert k. induction H as [|r requests Hr _ IH]; intros k; [exists []; by repeat constructor|]. cbn [run_allocations].
  assert (Henv : ∀ m, taken (ag_namespace a) k m → taken (ag_namespace a) (ar_env r k) m) by (intros m (s & ? & ?); exists s; split; [by apply Hr|done]).
  destruct (Agones_Allocate a (ar_id r) (ar_mode r) 0 (ar_env r k)) as [[alloc|e] k'] eqn:E; destruct (IH k') as (l & Hnd & Hfree & Hall).
  - destruct (allocate_Ok _ _ _ _ _ _ _ E) as (n & s & Hn & Hsv & _ & Htk & Hoth). exists ((n, s) :: l).
    rewrite filter_cons_True by done. cbn. split_and!.
    + constructor; [|done]. intros Hin. rewrite list.Forall_forall in Hfree. by apply (Hfree n).
    + constructor; [intros Ht%Henv; by destruct (Hoth n Ht)|]. eapply list.Forall_impl; [exact Hfree|]. intros m Hm Ht%Henv. apply Hm. by apply Hoth.
    + by constructor.
  - exists l. rewrite filter_cons_False by done. split_and!; [done| |done].
    eapply list.Forall_impl; [exact Hfree|]. intros m Hm Ht%Henv. apply Hm. by eapply allocate_keeps.
Qed.
End agones.

(** ** Evaluation

    A cluster that keeps its servers in a map and allocates the first one selected. *)

Definition selectedb (sel : GameServerSelector) (s : GameServer) : bool := bool_decide (gs_MatchLabels sel ⊆ sv_Labels s ∧ sv_State s = gs_GameServerState sel).

#[local] Instance map_cluster : AllocationClient (gmap string GameServer) := λ ns sels k,
  match list_find (λ p : string * GameServer, existsb (λ sel, selectedb sel p.2) sels = true) (map_to_list k) with
  | Some (_, (n, s)) => (Ok (mkAllocationStatus "Allocated" n (sv_Address s) (sv_Ports s)), <[n := set_state "Allocated" s]> k)
  | None => (Ok (mkAllocationStatus "UnAllocated" "" "" []), k)
  end.

#[local] Instance map_cluster_laws : AllocationLaws (gmap string GameServer).
Proof.
  refine {| game_servers ns k := k |}.
  - intros ns sels k st k'. unfold CreateAllocation, map_cluster. destruct (list_find _ _) as [[i [n s]]|] eqn:E; [|by intros [= <- _] [=]].
    intros [= <- <-] _. apply list_find_Some in E as (Hi & Hsel & _). cbn in *. exists s. split_and!; try done.
    + by apply elem_of_map_to_list, (list_elem_of_lookup_2 _ i).
    + apply existsb_exists in Hsel as (sel & Hin & Hsel%bool_decide_eq_true). apply List.Exists_exists. by exists sel.
  - intros ns sels k r k'. unfold CreateAllocation, map_cluster. destruct (list_find _ _) as [[i [n s]]|] eqn:E; [|by intros [= _ <-]].
    intros [= <- <-] H. by destruct (H _ eq_refl).
Defined.

Definition demo_cluster : gmap string GameServer :=
  <["rps-1" := mkGameServer {[ GameModeLabel := "rps" ]} "Ready" "10.0.0.1" [7001]]>
  (<["rps-2" := mkGameServer {[ GameModeLabel := "rps" ]} "Ready" "10.0.0.2" [7001; 7002]]>
   {[ "duel-1" := mkGameServer {[ GameModeLabel := "duel" ]} "Ready" "10.0.0.3" [] ]}).

Definition demo_requests_of (modes : list string) : list (allocation_request (K := gmap string GameServer)) := (λ m, mkRequest id uuid_Nil m) <$> modes.

Example demo_allocations :
  is_ok <$> (snd <$> run_allocations (mkAgones "default") (demo_requests_of ["rps"; "rps"; "rps"; "duel"; "chess"]) demo_cluster) = [true; true; false; false; false].
Proof. vm_compute. reflexivity. Qed.

Lemma agones_exclusive_witness :
  ∃ servers, NoDup servers.*1 ∧
    Forall2 (λ out server, served out.1 out.2 server)
      (filter allocated (run_allocations (mkAgones "default") (demo_requests_of ["rps"; "rps"; "chess"]) demo_cluster)) servers.
Proof.
  apply (agones_exclusive (mkAgones "default") (demo_requests_of ["rps"; "rps"; "chess"]) demo_cluster).
  repeat constructor; by intros k n s ? _.
Defined.
