(* ===== verification/MatchQueue.v ===== *)
(** * The in-memory match queue (internal/infra/matchqueue/inmem.go)

    Tickets and their per-ticket fan-out channels under one mutex: each method is one atomic
    transition of the state [InMem].  A channel is a reference into [chans]: its buffered events,
    its capacity and whether it is closed.  Sending on or closing a closed channel is a panic,
    modelled as the error [panic]. *)

From S2P Require Import Prelude GoBase Match.

Abbreviation chan_id := nat.

Record chan := mkChan { ch_buf : list Event; ch_cap : Z; ch_closed : bool }.

Record ticketEntry := mkEntry {
  e_ticket : Ticket;
  e_latest : option Event;
  e_finished : bool;
  e_claimed : bool;
}.

Record InMem := mkInMem {
  q_tickets : gmap uuid ticketEntry;
  q_subscribers : gmap uuid (list chan_id);
  q_chans : gmap chan_id chan;
  q_nextChan : chan_id;
}.

Definition NewInMem : InMem := mkInMem ∅ ∅ ∅ 0.

Definition set_chans (q : InMem) (cs : gmap chan_id chan) : InMem :=
  mkInMem (q_tickets q) (q_subscribers q) cs (q_nextChan q).
Definition set_tickets (q : InMem) (ts : gmap uuid ticketEntry) : InMem :=
  mkInMem ts (q_subscribers q) (q_chans q) (q_nextChan q).
Definition set_subscribers (q : InMem) (ss : gmap uuid (list chan_id)) : InMem :=
  mkInMem (q_tickets q) ss (q_chans q) (q_nextChan q).

(** ** Go channels *)

(** [select { case ch <- ev: default: }] *)
Definition chan_trySend (c : chan_id) (ev : Event) : M InMem unit := λ q,
  match q_chans q !! c with
  | None => (Err (panic "nil channel"), q)
  | Some ch =>
      if ch_closed ch then (Err (panic "send on closed channel"), q)
      else if Z.of_nat (length (ch_buf ch)) <? ch_cap ch then
        (Ok tt, set_chans q (<[c := mkChan (ch_buf ch ++ [ev]) (ch_cap ch) false]> (q_chans q)))
      else (Ok tt, q)
  end.

Definition chan_close (c : chan_id) : M InMem unit := λ q,
  match q_chans q !! c with
  | None => (Err (panic "close of nil channel"), q)
  | Some ch =>
      if ch_closed ch then (Err (panic "close of closed channel"), q)
      else (Ok tt, set_chans q (<[c := mkChan (ch_buf ch) (ch_cap ch) true]> (q_chans q)))
  end.

(** A subscriber takes the oldest buffered event, if there is one. *)
Definition chan_recv (c : chan_id) : M InMem (option Event) := λ q,
  match q_chans q !! c with
  | Some (mkChan (ev :: buf) cap cl) => (Ok (Some ev), set_chans q (<[c := mkChan buf cap cl]> (q_chans q)))
  | _ => (Ok None, q)
  end.

(** ** The methods *)

Definition isTerminal (e : Event) : bool :=
  match e with
  | EventMatched _ | EventFailed _ _ => true
  | EventQueued _ _ => false
  end.

Definition isPendingEntry (gameMode : string) (e : ticketEntry) : bool :=
  if e_finished e || e_claimed e then false
  else if bool_decide (t_GameMode (e_ticket e) <> gameMode) then false else true.

Definition countPendingLocked (gameMode : string) (q : InMem) : Z :=
  i32 (Z.of_nat (length (filter (λ p, isPendingEntry gameMode p.2 = true) (map_to_list (q_tickets q))))).

(** [sortByEnqueuedAt] swaps [ts[i]] down over its later predecessors; [sift] is the inner loop on
    the reversed prefix [ts[i-1], ..., ts[0]]. *)
Fixpoint sift (x : Ticket) (revPrefix : list Ticket) : list Ticket :=
  match revPrefix with
  | [] => [x]
  | y :: r => if time_After (t_EnqueuedAt y) (t_EnqueuedAt x) then y :: sift x r else x :: y :: r
  end.

Definition sortByEnqueuedAt (ts : list Ticket) : list Ticket :=
  rev (foldl (λ r x, sift x r) [] ts).

Definition Enqueue (t : Ticket) : M InMem unit := λ q,
  match q_tickets q !! t_ID t with
  | Some _ => (Ok tt, q)
  | None =>
      let depth := i32 (countPendingLocked (t_GameMode t) q + 1) in
      let queued := EventQueued (t_EnqueuedAt t) depth in
      (Ok tt, set_tickets q (<[t_ID t := mkEntry t (Some queued) false false]> (q_tickets q)))
  end.

(** The caller has looked the ticket up, so the entry exists. *)
Definition publishLocked (ticketID : uuid) (event : Event) : M InMem unit := λ q,
  match q_tickets q !! ticketID with
  | None => (Err (panic "nil entry"), q)
  | Some entry =>
      let terminal := isTerminal event in
      let subs := default [] (q_subscribers q !! ticketID) in
      (_ ← modify (λ q, set_tickets q
             (<[ticketID := mkEntry (e_ticket entry) (Some event) (e_finished entry) (e_claimed entry)]> (q_tickets q)));
       _ ← for_each (λ c, _ ← chan_trySend c event; when terminal (chan_close c)) subs;
       when terminal (modify (λ q, set_subscribers
         (set_tickets q (<[ticketID := mkEntry (e_ticket entry) (Some event) true (e_claimed entry)]> (q_tickets q)))
         (delete ticketID (q_subscribers q))))) q
  end.

Definition Cancel (ticketID : uuid) : M InMem unit := λ q,
  match q_tickets q !! ticketID with
  | None => (Err ErrTicketNotFound, q)
  | Some entry =>
      if e_finished entry then (Ok tt, q)
      else publishLocked ticketID (EventFailed "cancelled" "ticket was cancelled by the client") q
  end.

(** [ch <- entry.latest] on the fresh channel never blocks: its buffer holds four events. *)
Definition Subscribe (ticketID : uuid) : M InMem chan_id := λ q,
  match q_tickets q !! ticketID with
  | None => (Err ErrTicketNotFound, q)
  | Some entry =>
      let c := q_nextChan q in
      let buf := match e_latest entry with Some ev => [ev] | None => [] end in
      let ch := mkChan buf 4 (e_finished entry) in
      let q' := mkInMem (q_tickets q) (q_subscribers q) (<[c := ch]> (q_chans q)) (S c) in
      if e_finished entry then (Ok c, q')
      else (Ok c, set_subscribers q'
              (<[ticketID := default [] (q_subscribers q !! ticketID) ++ [c]]> (q_subscribers q)))
  end.

Definition Pending `{RangeOrder} (gameMode : string) : M InMem (list Ticket) := λ q,
  let out := omap (λ p : uuid * ticketEntry,
      if isPendingEntry gameMode p.2 then Some (e_ticket p.2) else None)
    (range_order (map_to_list (q_tickets q))) in
  (Ok (sortByEnqueuedAt out), q).

Definition claimable (q : InMem) (id : uuid) : bool :=
  match q_tickets q !! id with
  | None => false
  | Some e => negb (e_finished e || e_claimed e)
  end.

Definition markClaimed (ts : gmap uuid ticketEntry) (id : uuid) : gmap uuid ticketEntry :=
  alter (λ e, mkEntry (e_ticket e) (e_latest e) (e_finished e) true) id ts.

Definition Claim (gameMode : string) (ticketIDs : list uuid) : M InMem bool := λ q,
  if forallb (claimable q) ticketIDs
  then (Ok true, set_tickets q (foldl markClaimed (q_tickets q) ticketIDs))
  else (Ok false, q).

Definition Publish (ticketID : uuid) (event : Event) : M InMem unit := λ q,
  match q_tickets q !! ticketID with
  | None => (Err ErrTicketNotFound, q)
  | Some _ => publishLocked ticketID event q
  end.

Definition Depth (gameMode : string) : M InMem Z := λ q, (Ok (countPendingLocked gameMode q), q).

(** [append(subs[:i], subs[i+1:]...)] for the first [i] with [subs[i] == target]. *)
Fixpoint removeFirst (target : chan_id) (subs : list chan_id) : option (list chan_id) :=
  match subs with
  | [] => None
  | c :: subs' => if bool_decide (c = target) then Some subs' else (cons c) <$> removeFirst target subs'
  end.

Definition detach (ticketID : uuid) (target : chan_id) : M InMem unit := λ q,
  match removeFirst target (default [] (q_subscribers q !! ticketID)) with
  | None => (Ok tt, q)
  | Some subs' => chan_close target (set_subscribers q (<[ticketID := subs']> (q_subscribers q)))
  end.

(** ** The insertion sort *)

Definition enqueuedLess (a b : Ticket) : bool := t_EnqueuedAt a <? t_EnqueuedAt b.

Lemma enqueuedLess_asym a b : enqueuedLess a b = true → enqueuedLess b a = false.
Proof. unfold enqueuedLess. intros. to_prop. apply Z.ltb_ge. lia. Qed.

Lemma enqueuedLess_neg_trans a b c :
  enqueuedLess b a = false → enqueuedLess c b = false → enqueuedLess c a = false.
Proof. unfold enqueuedLess. rewrite !Z.ltb_ge. lia. Qed.

Lemma sift_perm x r : sift x r ≡ₚ x :: r.
Proof.
  induction r as [|y r IH]; simpl; [done|]. case_match; [|done].
  rewrite IH. apply Permutation_swap.
Qed.

(** Sorted newest-first: the shape of the reversed prefix. *)
Definition newest_first : list Ticket → Prop :=
  StronglySorted (λ x y, t_EnqueuedAt y ≤ t_EnqueuedAt x).

Lemma sift_sorted x r : newest_first r → newest_first (sift x r).
Proof.
  unfold newest_first. induction 1 as [|y r Hs IH Hy]; simpl; [by repeat constructor|].
  unfold time_After. destruct (_ <? _) eqn:E; to_prop.
  - constructor; [done|]. apply list.Forall_forall. intros z. rewrite sift_perm, elem_of_cons.
    intros [->|Hz]; [lia|]. rewrite list.Forall_forall in Hy. by apply Hy.
  - constructor; [by constructor|]. constructor; [done|].
    eapply list.Forall_impl; [exact Hy|]. simpl. intros. lia.
Qed.

Lemma sort_fold_spec ts r : newest_first r →
  newest_first (foldl (λ r x, sift x r) r ts) ∧ foldl (λ r x, sift x r) r ts ≡ₚ ts ++ r.
Proof.
  revert r. induction ts as [|t ts IH]; intros r Hr; simpl; [done|].
  destruct (IH (sift t r)) as [H1 H2]; [by apply sift_sorted|]. split; [done|].
  rewrite H2, sift_perm. by rewrite Permutation_middle.
Qed.


Lemma StronglySorted_snoc {A} (R : A → A → Prop) (l : list A) x :
  StronglySorted R l → (∀ y, y ∈ l → R y x) → StronglySorted R (l ++ [x]).
Proof.
  induction 1 as [|y l Hs IH Hy]; intros Hx; simpl; [by repeat constructor|].
  constructor; [apply IH; intros z Hz; apply Hx; by right|].
  apply list.Forall_app. split; [done|]. constructor; [apply Hx; left|constructor].
Qed.

Lemma sortByEnqueuedAt_perm ts : sortByEnqueuedAt ts ≡ₚ ts.
Proof.
  unfold sortByEnqueuedAt. rewrite <- Permutation_rev.
  destruct (sort_fold_spec ts []) as [_ H]; [constructor|]. by rewrite H, app_nil_r.
Qed.

Lemma sortByEnqueuedAt_sorted ts :
  StronglySorted (λ x y, t_EnqueuedAt x ≤ t_EnqueuedAt y) (sortByEnqueuedAt ts).
Proof.
  unfold sortByEnqueuedAt. destruct (sort_fold_spec ts []) as [H _]; [constructor|].
  induction H as [|x l Hs IH Hx]; simpl; [constructor|].
  apply StronglySorted_snoc; [done|]. intros y. rewrite <- (Permutation_rev l).
  rewrite list.Forall_forall in Hx. apply Hx.
Qed.

(** ** What a claim does to the entries *)

Lemma markClaimed_lookup ts ids id :
  foldl markClaimed ts ids !! id =
  if decide (id ∈ ids) then (λ e, mkEntry (e_ticket e) (e_latest e) (e_finished e) true) <$> (ts !! id)
  else ts !! id.
Proof.
  revert ts. induction ids as [|i ids IH]; intros ts; cbn [foldl].
  { by rewrite decide_False by apply not_elem_of_nil. }
  rewrite IH. unfold markClaimed. destruct (decide (id = i)) as [->|Hne].
  - rewrite lookup_alter_eq. destruct (decide (i ∈ i :: ids)) as [_|H]; [|by destruct H; left].
    case_decide; [|done]. by destruct (ts !! i).
  - rewrite lookup_alter_ne by done.
    destruct (decide (id ∈ ids)) as [H|H], (decide (id ∈ i :: ids)) as [H'|H']; try done;
      rewrite elem_of_cons in H'; naive_solver.
Qed.

Lemma claimable_true q id :
  claimable q id = true ↔ ∃ e, q_tickets q !! id = Some e ∧ e_finished e = false ∧ e_claimed e = false.
Proof.
  unfold claimable. destruct (q_tickets q !! id) as [e|]; [|naive_solver].
  rewrite negb_true_iff, orb_false_iff. naive_solver.
Qed.

(** [Claim] is all-or-nothing.  It returns true exactly when every ticket was still pending,
    and then exactly those entries become claimed; when it returns false nothing changes. *)
Theorem Claim_all_or_nothing gameMode ids q :
  let q' := state (Claim gameMode ids q) in
  (result (Claim gameMode ids q) = Ok true ∧
     (∀ id, id ∈ ids → claimable q id = true) ∧
     (∀ id, q_tickets q' !! id =
        if decide (id ∈ ids) then (λ e, mkEntry (e_ticket e) (e_latest e) (e_finished e) true) <$> (q_tickets q !! id)
        else q_tickets q !! id) ∧
     (∀ id, id ∈ ids → claimable q' id = false)) ∨
  (result (Claim gameMode ids q) = Ok false ∧ (∃ id, id ∈ ids ∧ claimable q id = false) ∧ q' = q).
Proof.
  unfold Claim, result, state. destruct (forallb (claimable q) ids) eqn:E; simpl.
  - left. rewrite forallb_forall in E.
    assert (Hall : ∀ id, id ∈ ids → claimable q id = true) by (intros id ?; apply E; by apply list_elem_of_In).
    split_and!; [done|done|intros id; apply markClaimed_lookup|].
    intros id Hid. unfold claimable, set_tickets. simpl. rewrite markClaimed_lookup, decide_True by done.
    destruct (q_tickets q !! id); simpl; [by rewrite orb_true_r|done].
  - right. split_and!; [done| |done].
    assert (~ Forall (λ id, claimable q id = true) ids) as H.
    { intros H. rewrite list.Forall_forall in H. apply eq_true_false_abs in E; [done|].
      apply forallb_forall. intros x Hx. apply H. by apply list_elem_of_In. }
    apply not_Forall_Exists, list.Exists_exists in H as (id & Hid & Hc); [|intros; apply _].
    exists id. split; [done|]. simpl in Hc. by destruct (claimable q id).
Qed.

Lemma Pending_perm {R : RangeOrder} {RL : RangeOrderLaw R} gameMode q :
  ∃ out, Pending gameMode q = (Ok out, q) ∧
    out ≡ₚ e_ticket <$> filter (λ e, isPendingEntry gameMode e = true) (snd <$> map_to_list (q_tickets q)).
Proof.
  eexists. split; [done|]. rewrite sortByEnqueuedAt_perm, range_perm. apply reflexive_eq.
  induction (map_to_list (q_tickets q)) as [|[id e] l IH]; [done|]. csimpl.
  destruct (isPendingEntry gameMode e) eqn:E.
  - rewrite filter_cons_True by done. csimpl. by rewrite IH.
  - rewrite filter_cons_False by congruence. by rewrite IH.
Qed.

(** [Pending] returns exactly the tickets of the mode that are neither finished nor claimed,
    each once, oldest first, and leaves the queue unchanged. *)
Theorem Pending_spec {R : RangeOrder} {RL : RangeOrderLaw R} gameMode q :
  ∃ out, Pending gameMode q = (Ok out, q) ∧
    StronglySorted (λ x y, t_EnqueuedAt x ≤ t_EnqueuedAt y) out ∧
    out ≡ₚ e_ticket <$> filter (λ e, isPendingEntry gameMode e = true) (snd <$> map_to_list (q_tickets q)).
Proof.
  destruct (Pending_perm gameMode q) as (out & E & Hp). exists out. split_and!; [done| |done].
  injection E as <-. apply sortByEnqueuedAt_sorted.
Qed.

(** ** The queue as a transition system

    The mutex makes each method one step; [OpDetach] is the step of the goroutine a subscription
    leaves behind for the end of its context, [OpRecv] a subscriber's receive. *)
Inductive op :=
  | OpEnqueue (t : Ticket)
  | OpCancel (id : uuid)
  | OpSubscribe (id : uuid)
  | OpClaim (gameMode : string) (ids : list uuid)
  | OpPublish (id : uuid) (ev : Event)
  | OpDetach (id : uuid) (c : chan_id)
  | OpRecv (c : chan_id).

(** The ticket ids an operation claimed, with its error if it returned one. *)
Definition run_op (o : op) : M InMem (list uuid) :=
  match o with
  | OpEnqueue t => _ ← Enqueue t; mret []
  | OpCancel id => _ ← Cancel id; mret []
  | OpSubscribe id => _ ← Subscribe id; mret []
  | OpClaim mode ids => ok ← Claim mode ids; mret (if (ok : bool) then ids else [])
  | OpPublish id ev => _ ← Publish id ev; mret []
  | OpDetach id c => _ ← detach id c; mret []
  | OpRecv c => _ ← chan_recv c; mret []
  end.

(** The claims of a whole run, oldest first; the queue outlives the errors its methods return. *)
Fixpoint run_ops (os : list op) (q : InMem) : list (list uuid) * InMem :=
  match os with
  | [] => ([], q)
  | o :: os' =>
      let q1 := state (run_op o q) in
      let got := match result (run_op o q) with Ok ids => ids | Err _ => [] end in
      let rest := run_ops os' q1 in
      (got :: rest.1, rest.2)
  end.

Definition open_chan (q : InMem) (c : chan_id) : Prop :=
  ∃ ch, q_chans q !! c = Some ch ∧ ch_closed ch = false.

(** Subscribed channels are open, belong to one live ticket and to it only once. *)
Record queue_inv (q : InMem) : Prop := {
  inv_open : ∀ id subs c, q_subscribers q !! id = Some subs → c ∈ subs → open_chan q c;
  inv_nodup : ∀ id subs, q_subscribers q !! id = Some subs → NoDup subs;
  inv_owner : ∀ id id' subs subs' c, q_subscribers q !! id = Some subs →
    q_subscribers q !! id' = Some subs' → c ∈ subs → c ∈ subs' → id = id';
  inv_live : ∀ id e, q_tickets q !! id = Some e → e_finished e = true → q_subscribers q !! id = None;
  inv_fresh : ∀ c, (q_nextChan q ≤ c)%nat → q_chans q !! c = None;
}.

Lemma queue_inv_init : queue_inv NewInMem.
Proof. split; simpl; intros *; rewrite ?lookup_empty; try done. Qed.

(** What an open channel becomes when an event is fanned out to it. *)
Definition deliver (ev : Event) (term : bool) (ch : chan) : chan :=
  mkChan (if Z.of_nat (length (ch_buf ch)) <? ch_cap ch then ch_buf ch ++ [ev] else ch_buf ch) (ch_cap ch) term.

Lemma chan_deliver c ev term ch q :
  q_chans q !! c = Some ch → ch_closed ch = false →
  (_ ← chan_trySend c ev; when term (chan_close c)) q
    = (Ok tt, set_chans q (<[c := deliver ev term ch]> (q_chans q))).
Proof.
  intros Hc Hcl. rewrite M_bind_eval. unfold chan_trySend, deliver. rewrite Hc, Hcl.
  destruct (_ <? _); destruct term; simpl; unfold chan_close; simpl;
    rewrite ?lookup_insert_eq, ?Hc, ?Hcl; unfold set_chans; simpl; rewrite ?insert_insert_eq; try done.
  destruct ch as [b cap cl]; simpl in *; subst; rewrite insert_id by done. by destruct q.
Qed.

(** The fan-out of one event over the subscribers of a ticket: no panic, only those channels are
    touched; each gets the event if its buffer has room and is closed when the event is terminal. *)
Lemma fan_out_spec ev term subs q :
  NoDup subs → (∀ c, c ∈ subs → open_chan q c) →
  ∃ chans', for_each (λ c, _ ← chan_trySend c ev; when term (chan_close c)) subs q
      = (Ok tt, set_chans q chans') ∧
    (∀ c, c ∉ subs → chans' !! c = q_chans q !! c) ∧
    (∀ c, c ∈ subs → chans' !! c = deliver ev term <$> q_chans q !! c).
Proof.
  revert q. induction subs as [|c subs IH]; intros q Hnd Hop.
  { exists (q_chans q). split_and!; [by destruct q|done|]. intros c. by rewrite elem_of_nil. }
  apply NoDup_cons in Hnd as [Hni Hnd]. cbn [for_each].
  destruct (Hop c) as (ch & Hch & Hcl); [left|].
  rewrite M_bind_eval, (chan_deliver c ev term ch) by done.
  destruct (IH (set_chans q (<[c := deliver ev term ch]> (q_chans q)))) as (cs & Ef & Hout & Hin); [done| |].
  { intros c' Hc'. destruct (Hop c') as (x & ? & ?); [by right|]. exists x. simpl.
    rewrite lookup_insert_ne by (intros ->; done). done. }
  exists cs. split_and!; [exact Ef| |].
  - intros c'. rewrite not_elem_of_cons. intros [? ?]. rewrite Hout by done. simpl.
    by rewrite lookup_insert_ne.
  - intros c'. rewrite elem_of_cons. intros [->|Hc'].
    + rewrite Hout by done. simpl. by rewrite lookup_insert_eq, Hch.
    + rewrite Hin by done. simpl. rewrite lookup_insert_ne; [done|]. by intros ->.
Qed.

(** [publishLocked] on a known ticket: the complete effect. *)
Lemma publishLocked_spec id ev e q :
  queue_inv q → q_tickets q !! id = Some e →
  let subs := default [] (q_subscribers q !! id) in
  let e' := mkEntry (e_ticket e) (Some ev) (e_finished e || isTerminal ev) (e_claimed e) in
  ∃ chans', publishLocked id ev q =
      (Ok tt, mkInMem (<[id := e']> (q_tickets q))
                (if isTerminal ev then delete id (q_subscribers q) else q_subscribers q)
                chans' (q_nextChan q)) ∧
    (∀ c, c ∉ subs → chans' !! c = q_chans q !! c) ∧
    (∀ c, c ∈ subs → chans' !! c = deliver ev (isTerminal ev) <$> q_chans q !! c).
Proof.
  intros Hinv He subs e'. unfold publishLocked. rewrite He. cbv zeta. fold subs.
  set (q1 := set_tickets q (<[id := mkEntry (e_ticket e) (Some ev) (e_finished e) (e_claimed e)]> (q_tickets q))).
  destruct (fan_out_spec ev (isTerminal ev) subs q1) as (cs & Ef & Hout & Hin).
  { unfold subs. destruct (q_subscribers q !! id) eqn:E; simpl; [|constructor].
    by eapply inv_nodup. }
  { intros c Hc. unfold subs in Hc. destruct (q_subscribers q !! id) eqn:E; simpl in Hc;
      [|by apply elem_of_nil in Hc]. by eapply (inv_open q). }
  exists cs. split; [|done]. rewrite M_bind_eval. unfold modify at 1. fold q1.
  rewrite M_bind_eval, Ef. subst e' q1. destruct (isTerminal ev) eqn:Et; simpl.
  - unfold modify, set_subscribers, set_tickets. simpl. rewrite insert_insert_eq. by rewrite orb_true_r.
  - unfold mret, M_ret, set_chans. simpl. by rewrite orb_false_r.
Qed.

Lemma publishLocked_inv id ev e q :
  queue_inv q → q_tickets q !! id = Some e → queue_inv (state (publishLocked id ev q)).
Proof.
  intros Hinv He. destruct (publishLocked_spec id ev e q Hinv He) as (cs & -> & Hout & Hin). simpl.
  destruct Hinv as [Hop Hnd Hown Hlive Hfr].
  assert (Hsub : ∀ id' s, (if isTerminal ev then delete id (q_subscribers q) else q_subscribers q) !! id' = Some s →
    q_subscribers q !! id' = Some s ∧ (isTerminal ev = true → id' <> id)).
  { intros id' s. destruct (isTerminal ev); [|done]. rewrite lookup_delete. by case_decide. }
  split; simpl.
  - intros id' s c Hs Hc. apply Hsub in Hs as [Hs Hne].
    destruct (decide (c ∈ default [] (q_subscribers q !! id))) as [Hcs|Hcs].
    + destruct (Hop _ _ _ Hs Hc) as (ch & Hch & _). eexists. simpl. rewrite Hin, Hch by done. split; [done|].
      simpl. destruct (isTerminal ev); [|done]. destruct (q_subscribers q !! id) as [s0|] eqn:E; simpl in Hcs;
        [|by apply elem_of_nil in Hcs]. by destruct (Hne eq_refl (Hown _ _ _ _ _ Hs E Hc Hcs)).
    + unfold open_chan. simpl. rewrite Hout by done. by eapply Hop.
  - intros id' s Hs. apply Hsub in Hs as [Hs _]. by eapply Hnd.
  - intros i j s s' c Hs Hs'. apply Hsub in Hs as [Hs _]. apply Hsub in Hs' as [Hs' _]. by eapply Hown.
  - intros id' e'. rewrite lookup_insert. case_decide as Hd.
    + subst id'. intros [= <-]. simpl. intros Hf. apply orb_true_iff in Hf as [Hf|Hf].
      * destruct (isTerminal ev); [by rewrite lookup_delete_eq|]. by eapply Hlive.
      * rewrite Hf. by rewrite lookup_delete_eq.
    + intros H1 H2. destruct (isTerminal ev); [rewrite lookup_delete_ne by done|]; by eapply Hlive.
  - intros c Hc. rewrite Hout; [by apply Hfr|]. intros Hcs.
    destruct (q_subscribers q !! id) as [s|] eqn:E; simpl in Hcs; [|by apply elem_of_nil in Hcs].
    destruct (Hop _ _ _ E Hcs) as (ch & Hch & _). by rewrite Hfr in Hch.
Qed.

Lemma removeFirst_spec c l l' :
  removeFirst c l = Some l' → c ∈ l ∧ (∀ x, x ∈ l' → x ∈ l) ∧ (NoDup l → c ∉ l' ∧ NoDup l').
Proof.
  revert l'. induction l as [|x l IH]; intros l'; simpl; [done|]. case_bool_decide as E.
  - intros [= <-]. subst x. split_and!; [left|by right|]. by intros []%NoDup_cons.
  - destruct (removeFirst c l) as [l0|]; [|done]. intros [= <-]. destruct (IH l0) as (H1 & H2 & H3); [done|].
    split_and!; [by right| |].
    + intros y. rewrite !elem_of_cons. naive_solver.
    + intros [Hx Hl]%NoDup_cons. destruct (H3 Hl) as [? ?]. rewrite not_elem_of_cons.
      split; [done|]. apply NoDup_cons. naive_solver.
Qed.

(** One step keeps the invariant, and its only error is the documented one. *)
Definition step_safe (o : op) (q : InMem) : Prop :=
  queue_inv (state (run_op o q)) ∧ (∀ e, result (run_op o q) = Err e → e = ErrTicketNotFound).

Ltac step_start := intros Hinv; unfold step_safe, result, state; cbn [run_op]; rewrite M_bind_eval.

Lemma enqueue_safe (t : Ticket) q : queue_inv q → step_safe (OpEnqueue t) q.
Proof.
  step_start.
  unfold Enqueue. destruct (q_tickets q !! t_ID t) eqn:E; simpl; [by split|]. split; [|done].
  destruct Hinv as [Hop Hnd Hown Hlive Hfr]. split; simpl; try done.
  intros id e. rewrite lookup_insert. case_decide; [|apply Hlive]. by intros [= <-].
Qed.

Lemma cancel_safe id q : queue_inv q → step_safe (OpCancel id) q.
Proof.
  step_start.
  unfold Cancel. destruct (q_tickets q !! id) as [e|] eqn:E; simpl; [|naive_solver].
  destruct (e_finished e); simpl; [by split|].
  pose proof (publishLocked_inv id (EventFailed "cancelled" "ticket was cancelled by the client") e q Hinv E) as Hi.
  destruct (publishLocked_spec id (EventFailed "cancelled" "ticket was cancelled by the client") e q Hinv E)
    as (cs & Ep & _). rewrite Ep in *. by split.
Qed.

Lemma subscribe_safe id q : queue_inv q → step_safe (OpSubscribe id) q.
Proof.
  step_start.
  unfold Subscribe. destruct (q_tickets q !! id) as [e|] eqn:E; simpl; [|naive_solver].
  destruct Hinv as [Hop Hnd Hown Hlive Hfr].
  assert (Hold : ∀ i s c, q_subscribers q !! i = Some s → c ∈ s → (c < q_nextChan q)%nat).
  { intros i s c Hs Hc. destruct (Hop _ _ _ Hs Hc) as (ch & Hch & _).
    destruct (decide (q_nextChan q ≤ c)%nat) as [Hle|]; [|lia]. by rewrite Hfr in Hch. }
  destruct (e_finished e) eqn:Ef; simpl; (split; [|done]); split; simpl.
  + intros i s c Hs Hc. unfold open_chan. simpl. pose proof (Hold _ _ _ Hs Hc).
    rewrite lookup_insert_ne by lia. by eapply Hop.
  + done.
  + done.
  + done.
  + intros c Hc. rewrite lookup_insert_ne by lia. apply Hfr. lia.
  + intros i s c. rewrite lookup_insert. case_decide as Hd; [intros [= <-]|intros Hs].
    * rewrite elem_of_snoc. unfold open_chan. simpl. intros [Hc| ->].
      -- destruct (q_subscribers q !! id) as [s0|] eqn:Es; simpl in Hc; [|by apply elem_of_nil in Hc].
         pose proof (Hold _ _ _ Es Hc). rewrite lookup_insert_ne by lia. by eapply Hop.
      -- rewrite lookup_insert_eq. eauto.
    * intros Hc. unfold open_chan. simpl. pose proof (Hold _ _ _ Hs Hc).
      rewrite lookup_insert_ne by lia. by eapply Hop.
  + intros i s. rewrite lookup_insert. case_decide; [|apply Hnd]. intros [= <-].
    apply list.NoDup_app. destruct (q_subscribers q !! id) as [s0|] eqn:Es; simpl.
    * split_and!; [by eapply Hnd| |apply NoDup_singleton]. intros c Hc. rewrite list_elem_of_singleton.
      pose proof (Hold _ _ _ Es Hc). lia.
    * split_and!; [constructor| |apply NoDup_singleton]. intros c. by rewrite elem_of_nil.
  + assert (Hcase : ∀ i s c, <[id:=default [] (q_subscribers q !! id) ++ [q_nextChan q]]> (q_subscribers q) !! i = Some s →
      c ∈ s → (i = id ∧ c = q_nextChan q) ∨ (∃ s0, q_subscribers q !! i = Some s0 ∧ c ∈ s0)).
    { intros i s c. rewrite lookup_insert. case_decide as Hd; [|eauto]. intros [= <-]. subst i.
      rewrite elem_of_snoc. intros [Hc| ->]; [|by left]. right.
      destruct (q_subscribers q !! id); simpl in Hc; [eauto|by apply elem_of_nil in Hc]. }
    intros i j s s' c Hs Hs' Hc Hc'.
    destruct (Hcase _ _ _ Hs Hc) as [[-> ->]|(s0 & Hs0 & Hc0)], (Hcase _ _ _ Hs' Hc') as [[-> E']|(s1 & Hs1 & Hc1)].
    * done.
    * pose proof (Hold _ _ _ Hs1 Hc1). lia.
    * subst c. pose proof (Hold _ _ _ Hs0 Hc0). lia.
    * by eapply Hown.
  + intros i e' He' Hf. rewrite lookup_insert_ne; [by eapply Hlive|]. intros ->. congruence.
  + intros c Hc. rewrite lookup_insert_ne by lia. apply Hfr. lia.
Qed.

Lemma claim_safe mode ids q : queue_inv q → step_safe (OpClaim mode ids) q.
Proof.
  step_start.
  unfold Claim. destruct (forallb _ ids) eqn:E; simpl; [|by split]. split; [|done].
  destruct Hinv as [Hop Hnd Hown Hlive Hfr]. split; simpl; try done.
  intros id e. rewrite markClaimed_lookup. case_decide; [|apply Hlive].
  destruct (q_tickets q !! id) eqn:El; simpl; [|done]. intros [= <-]. simpl. by apply Hlive.
Qed.

Lemma publish_safe id ev q : queue_inv q → step_safe (OpPublish id ev) q.
Proof.
  step_start.
  unfold Publish. destruct (q_tickets q !! id) as [e|] eqn:E; simpl; [|naive_solver].
  pose proof (publishLocked_inv id ev e q Hinv E) as Hi.
  destruct (publishLocked_spec id ev e q Hinv E) as (cs & Ep & _). rewrite Ep in *. by split.
Qed.

Lemma detach_safe id c q : queue_inv q → step_safe (OpDetach id c) q.
Proof.
  step_start.
  unfold detach. destruct (removeFirst c _) as [l|] eqn:E; simpl; [|by split].
  apply removeFirst_spec in E as (Hc & Hsub & Hndl).
  destruct (q_subscribers q !! id) as [s|] eqn:Es; simpl in *; [|by apply elem_of_nil in Hc].
  destruct Hinv as [Hop Hnd Hown Hlive Hfr]. destruct (Hop _ _ _ Es Hc) as (ch & Hch & Hcl).
  destruct (Hndl (Hnd _ _ Es)) as [Hni Hndl'].
  unfold chan_close. simpl. rewrite Hch, Hcl. simpl. split; [|done]. split; simpl.
  + intros i s0 c0. rewrite lookup_insert. case_decide as Hd; [intros [= <-]|intros Hs0]; intros Hc0;
      unfold open_chan; simpl; (rewrite lookup_insert_ne; [|intros ->]).
    * by eapply Hop; [|apply Hsub].
    * done.
    * by eapply Hop.
    * by destruct (Hown _ _ _ _ _ Hs0 Es Hc0 Hc).
  + intros i s0. rewrite lookup_insert. case_decide; [by intros [= <-]|apply Hnd].
  + assert (Hcase : ∀ i s0 x, <[id:=l]> (q_subscribers q) !! i = Some s0 → x ∈ s0 →
      ∃ s1, q_subscribers q !! i = Some s1 ∧ x ∈ s1).
    { intros i s0 x. rewrite lookup_insert. case_decide as Hd; [|eauto]. intros [= <-] ?. subst. eauto. }
    intros i j s0 s1 x Hi Hj Hxi Hxj. destruct (Hcase _ _ _ Hi Hxi) as (?&?&?), (Hcase _ _ _ Hj Hxj) as (?&?&?).
    by eapply Hown.
  + intros i e He Hf. rewrite lookup_insert_ne; [by eapply Hlive|]. intros <-.
    rewrite (Hlive _ _ He Hf) in Es. done.
  + intros x Hx. rewrite lookup_insert_ne; [by apply Hfr|]. intros <-. by rewrite Hfr in Hch.
Qed.

Lemma recv_safe c q : queue_inv q → step_safe (OpRecv c) q.
Proof.
  step_start.
  unfold chan_recv. destruct (q_chans q !! c) as [[[|ev buf] cap cl]|] eqn:E; simpl; [by split| |by split].
  split; [|done]. destruct Hinv as [Hop Hnd Hown Hlive Hfr]. split; simpl; try done.
  + intros i s c0 Hs Hc0. destruct (Hop _ _ _ Hs Hc0) as (ch & Hch & Hcl). unfold open_chan. simpl.
    rewrite lookup_insert. case_decide; [subst|eauto]. rewrite E in Hch. simplify_eq. eauto.
  + intros x Hx. rewrite lookup_insert_ne; [by apply Hfr|]. intros <-. by rewrite Hfr in E.
Qed.

#[export] Hint Resolve enqueue_safe cancel_safe subscribe_safe claim_safe publish_safe detach_safe recv_safe : vfx.

Lemma step_ok o q : queue_inv q → step_safe o q.
Proof. destruct o; eauto with vfx. Qed.

Lemma run_ops_inv os q : queue_inv q → queue_inv (run_ops os q).2.
Proof.
  revert q. induction os as [|o os IH]; intros q Hq; simpl; [done|]. apply IH. by apply step_ok.
Qed.

(** no operation of the queue ever panics: in every state reachable by any interleaving of
    calls, context cancellations and receives, no method sends on or closes a closed channel, and
    the only error a method returns is "ticket not found". *)
Theorem queue_never_panics os o e :
  result (run_op o (run_ops os NewInMem).2) = Err e → e = ErrTicketNotFound.
Proof. apply step_ok, run_ops_inv, queue_inv_init. Qed.

(** *** A ticket is claimed once *)

Definition taken (q : InMem) (id : uuid) : Prop :=
  ∃ e, q_tickets q !! id = Some e ∧ e_claimed e = true.

Lemma publish_taken id ev e q i :
  queue_inv q → q_tickets q !! id = Some e → taken q i → taken (state (publishLocked id ev q)) i.
Proof.
  intros Hinv He (e0 & H0 & Hc). destruct (publishLocked_spec id ev e q Hinv He) as (cs & -> & _).
  unfold taken, state. simpl. rewrite lookup_insert. case_decide; [subst|eauto].
  eexists. split; [done|]. simpl. congruence.
Qed.

Lemma taken_step o q i : queue_inv q → taken q i → taken (state (run_op o q)) i.
Proof.
  intros Hinv Ht. destruct o as [t|id|id|mode ids|id ev|id c|c]; cbn [run_op]; unfold state; rewrite M_bind_eval.
  - unfold Enqueue. destruct (q_tickets q !! t_ID t) eqn:E; [done|]. destruct Ht as (e & He & Hc).
    exists e. simpl. rewrite lookup_insert_ne; [done|]. intros <-. congruence.
  - unfold Cancel. destruct (q_tickets q !! id) as [e|] eqn:E; [|done]. destruct (e_finished e); [done|].
    set (ev := EventFailed _ _). pose proof (publish_taken id ev e q i Hinv E Ht).
    by destruct (publishLocked_spec id ev e q Hinv E) as (cs & Ep & _); rewrite Ep in *.
  - unfold Subscribe. destruct (q_tickets q !! id) as [e|] eqn:E; [|done]. by destruct (e_finished e).
  - unfold Claim. destruct (forallb _ ids); [|done]. destruct Ht as (e & He & Hc).
    unfold taken. simpl. rewrite markClaimed_lookup, He. case_decide; simpl; eauto.
  - unfold Publish. destruct (q_tickets q !! id) as [e|] eqn:E; [|done].
    pose proof (publish_taken id ev e q i Hinv E Ht).
    by destruct (publishLocked_spec id ev e q Hinv E) as (cs & Ep & _); rewrite Ep in *.
  - unfold detach. destruct (removeFirst c _); [|done]. unfold chan_close. simpl.
    by repeat case_match; simplify_eq.
  - unfold chan_recv. by destruct (q_chans q !! c) as [[[|ev buf] cap cl]|].
Qed.

Lemma claimed_ids_step o q ids i :
  result (run_op o q) = Ok ids → i ∈ ids → claimable q i = true ∧ taken (state (run_op o q)) i.
Proof.
  unfold result, state. destruct o as [t|id|id|mode ids'|id ev|id c|c]; cbn [run_op]; rewrite M_bind_eval;
    try (match goal with |- context [match ?m with _ => _ end] => destruct m as [[?|?] ?] end; simpl;
         intros [= <-]; by rewrite elem_of_nil).
  unfold Claim. destruct (forallb _ ids') eqn:E; simpl; intros [= <-]; [|by rewrite elem_of_nil].
  intros Hi. rewrite forallb_forall in E. apply list_elem_of_In in Hi as Hi'. pose proof (E _ Hi') as Hc.
  split; [done|]. apply claimable_true in Hc as (e & He & _). unfold taken. simpl.
  rewrite markClaimed_lookup, decide_True, He by done. eauto.
Qed.

Lemma run_ops_not_taken os q i ids :
  queue_inv q → taken q i → ids ∈ (run_ops os q).1 → i ∉ ids.
Proof.
  revert q. induction os as [|o os IH]; intros q Hinv Ht; simpl; [by rewrite elem_of_nil|].
  rewrite elem_of_cons. intros [->|Hin].
  - destruct (result (run_op o q)) as [got|] eqn:E; [|apply not_elem_of_nil]. intros Hi.
    destruct (claimed_ids_step _ _ _ _ E Hi) as [Hc _]. destruct Ht as (e & He & Hcl).
    apply claimable_true in Hc as (e' & He' & _ & Hcl'). congruence.
  - eapply IH; [by apply step_ok|by apply taken_step|done].
Qed.

(** C1: no ticket is ever handed to two matches: over any interleaving of queue operations, two
    successful claims that contain the same ticket are the same claim. *)
Theorem ticket_claimed_once os i j ids ids' (id : uuid) :
  (run_ops os NewInMem).1 !! i = Some ids → (run_ops os NewInMem).1 !! j = Some ids' →
  id ∈ ids → id ∈ ids' → i = j.
Proof.
  generalize queue_inv_init. generalize NewInMem as q. revert i j.
  induction os as [|o os IH]; intros i j q Hinv; simpl; [done|].
  assert (Hafter : ∀ k l, (match result (run_op o q) with Ok ids => ids | Err _ => [] end) = l → id ∈ l →
    ∀ l', (run_ops os (state (run_op o q))).1 !! k = Some l' → id ∉ l').
  { intros k l El Hid l' Hl'. destruct (result (run_op o q)) as [got|] eqn:E; subst l;
      [|by apply elem_of_nil in Hid].
    destruct (claimed_ids_step _ _ _ _ E Hid) as [_ Ht].
    eapply run_ops_not_taken; [by apply step_ok|done|by eapply list_elem_of_lookup_2]. }
  destruct i as [|i], j as [|j]; simpl; intros Hi Hj Hid Hid'; [done| | |].
  - injection Hi as Hi. by destruct (Hafter _ _ Hi Hid _ Hj).
  - injection Hj as Hj. by destruct (Hafter _ _ Hj Hid' _ Hi).
  - f_equal. eapply IH; [by apply step_ok|done..].
Qed.

(** a terminal event ends a ticket for good: the publication succeeds, the ticket leaves the
    pending pool with that event as its snapshot, every subscriber receives the event if its
    buffer has room and then sees its channel closed, and a later subscription gets a closed
    channel holding the snapshot. *)
Theorem terminal_event_finishes os id ev e :
  let q := (run_ops os NewInMem).2 in
  isTerminal ev = true → q_tickets q !! id = Some e →
  ∃ q', Publish id ev q = (Ok tt, q') ∧
    (∀ mode, (λ e, isPendingEntry mode e) <$> q_tickets q' !! id = Some false) ∧
    (∀ c ch, c ∈ default [] (q_subscribers q !! id) → q_chans q !! c = Some ch →
       q_chans q' !! c = Some (deliver ev true ch)) ∧
    ∃ c q'', Subscribe id q' = (Ok c, q'') ∧ q_chans q'' !! c = Some (mkChan [ev] 4 true).
Proof.
  intros q Ht He. assert (Hinv : queue_inv q) by apply run_ops_inv, queue_inv_init.
  destruct (publishLocked_spec id ev e q Hinv He) as (cs & Ep & _ & Hin).
  unfold Publish. rewrite He, Ep, Ht. eexists. split; [done|]. simpl. split_and!.
  - intros mode. rewrite lookup_insert_eq. simpl. unfold isPendingEntry. simpl. by rewrite orb_true_r.
  - intros c ch Hc Hch. rewrite Hin, Hch, Ht by done. done.
  - unfold Subscribe. simpl. rewrite lookup_insert_eq. simpl. rewrite orb_true_r.
    eexists _, _. split; [done|]. simpl. by rewrite lookup_insert_eq.
Qed.

(** ** Evaluated instances *)

Definition demo_ops : list op :=
  [OpEnqueue (demo_ticket x01 x0a 1000 [] (1 * Second));
   OpEnqueue (demo_ticket x02 x0b 1000 [] (2 * Second));
   OpSubscribe (sample_uuid x01);
   OpClaim "ranked" [sample_uuid x01; sample_uuid x02];
   OpClaim "ranked" [sample_uuid x02];
   OpDetach (sample_uuid x02) 7%nat].

Lemma queue_never_panics_witness :
  result (run_op (OpCancel (sample_uuid x09)) (run_ops demo_ops NewInMem).2) = Err ErrTicketNotFound.
Proof.
  destruct (result (run_op (OpCancel (sample_uuid x09)) (run_ops demo_ops NewInMem).2)) eqn:E.
  - vm_compute in E. discriminate.
  - f_equal. exact (queue_never_panics demo_ops (OpCancel (sample_uuid x09)) _ E).
Defined.

Lemma ticket_claimed_once_witness : ∃ i, i = 3%nat ∧ (run_ops demo_ops NewInMem).1 !! i = Some [sample_uuid x01; sample_uuid x02].
Proof.
  exists 3%nat. split; [|vm_compute; reflexivity].
  apply (ticket_claimed_once demo_ops 3 3 [sample_uuid x01; sample_uuid x02]
           [sample_uuid x01; sample_uuid x02] (sample_uuid x01));
    [vm_compute; reflexivity|vm_compute; reflexivity|by_compute|by_compute].
Defined.

Lemma terminal_event_finishes_witness :
  ∃ q', Publish (sample_uuid x01) (EventFailed "internal" "x") (run_ops demo_ops NewInMem).2 = (Ok tt, q').
Proof.
  destruct (terminal_event_finishes demo_ops (sample_uuid x01) (EventFailed "internal" "x")
    (mkEntry (demo_ticket x01 x0a 1000 [] (1 * Second)) (Some (EventQueued (1 * Second) 1)) false true))
    as (q' & H & _); [reflexivity|vm_compute; reflexivity|]. exists q'. exact H.
Defined.

Lemma Pending_spec_witness :
  ∃ out, @Pending range_rev "ranked" (run_ops (take 3 demo_ops) NewInMem).2
           = (Ok out, (run_ops (take 3 demo_ops) NewInMem).2) ∧ length out = 2%nat.
Proof.
  destruct (@Pending_spec range_rev range_rev_law "ranked" (run_ops (take 3 demo_ops) NewInMem).2)
    as (out & H & _ & Hp). exists out. split; [exact H|]. rewrite Hp. vm_compute. reflexivity.
Defined.
