(* ===== verification/ValkeyQueue.v ===== *)
(** * The match queue shared by gateway replicas (internal/infra/matchqueue/valkey.go)

    Tickets and their latest event are JSON documents under keys of their own, the pending tickets
    of a mode are a sorted set, the events of a ticket a stream.  Each method is a program of
    [Valkey] requests.  Run alone on a server that answers, they refine the in-memory queue
    ([MatchQueue]); interleaved request by request with other replicas, under lost replies and
    lapsing keys, a ticket is still claimed once. *)

From S2P Require Import Prelude GoBase GoStrings Json Valkey Match MatchQueue.

Section queue.
Context {U : UuidCodec}.

Definition ticketKey (id : uuid) : string := "vfx:mq:ticket:" +:+ uuid_String id.
Definition eventKey (id : uuid) : string := "vfx:mq:event:" +:+ uuid_String id.
Definition streamKey (id : uuid) : string := "vfx:mq:stream:" +:+ uuid_String id.
Definition pendingKey (gameMode : string) : string := "vfx:mq:pending:" +:+ gameMode.

(** [NewValkey]'s lifetime of one hour, in the seconds of [ttlSeconds]. *)
Definition ttl : duration := 3600 * Second.
Definition ttlSeconds : Z := f64_trunc (duration_Seconds ttl).

(** ** Tickets and events as documents *)

Definition marshalTicket (t : Ticket) : res json :=
  object [field j_string "id" (uuid_String (t_ID t));
          field j_string "player_id" (uuid_String (t_PlayerID t));
          field j_string "game_mode" (t_GameMode t);
          opt_field j_float64 "rating" (t_Rating t);
          opt_field j_string "region" (t_Region t);
          omit j_strings "party_members" (bool_decide (t_PartyMembers t = [])) (uuid_String <$> t_PartyMembers t);
          omit j_string_map "attributes" (bool_decide (t_Attributes t = ∅)) (t_Attributes t);
          field j_time "enqueued_at" (t_EnqueuedAt t)].

Definition parse_uuid (s : string) : res uuid :=
  match uuid_Parse s with Some u => Ok u | None => Err (ErrText "invalid UUID") end.

Definition unmarshalTicket (raw : json) : res Ticket :=
  sID ← read j_string "id" "" raw;
  sPlayerID ← read j_string "player_id" "" raw;
  gameMode ← read j_string "game_mode" "" raw;
  rating ← read_opt j_float64 "rating" raw;
  region ← read_opt j_string "region" raw;
  sMembers ← read j_strings "party_members" [] raw;
  attributes ← read j_string_map "attributes" ∅ raw;
  enqueuedAt ← read j_time "enqueued_at" zeroTime raw;
  id ← parse_uuid sID;
  playerID ← parse_uuid sPlayerID;
  members ← mapM_res parse_uuid sMembers;
  Ok (mkTicket id playerID gameMode rating region members attributes enqueuedAt).

Definition marshalMatch (a : Assignment) : res json :=
  object [field j_string "match_id" (uuid_String (a_MatchID a));
          field j_string "endpoint" (a_Endpoint a);
          field j_string "session_token" (a_SessionToken a);
          field j_time "expires_at" (a_ExpiresAt a)].

(** The three variants of the struct, with the fields [omitempty] keeps; [queued_at] is a struct
    and is always written. *)
Definition marshalEvent (ev : Event) : res json :=
  match ev with
  | EventQueued queuedAt queueDepth =>
      object [field j_string "type" "queued"; field j_time "queued_at" queuedAt;
              omit j_int32 "queue_depth" (queueDepth =? 0) queueDepth]
  | EventMatched a =>
      object [field j_string "type" "matched"; field j_time "queued_at" zeroTime;
              (j ← marshalMatch a; Ok [("match", j)])]
  | EventFailed reason message =>
      object [field j_string "type" "failed"; field j_time "queued_at" zeroTime;
              omit j_string "reason" (bool_decide (reason = "")) reason;
              omit j_string "message" (bool_decide (message = "")) message]
  end.

(** The decoded [Match] struct: its id as text, endpoint, token and expiry; nil when absent. *)
Definition readMatch (raw : json) : res (option (string * string * string * time)) :=
  match raw with
  | JObj fields =>
      match find_field "match" fields with
      | None => Ok None
      | Some m =>
          matchID ← read j_string "match_id" "" m;
          endpoint ← read j_string "endpoint" "" m;
          token ← read j_string "session_token" "" m;
          expiresAt ← read j_time "expires_at" zeroTime m;
          Ok (Some (matchID, endpoint, token, expiresAt))
      end
  | _ => Err json_mismatch
  end.

Definition unmarshalEvent (raw : json) : res Event :=
  type ← read j_string "type" "" raw;
  queuedAt ← read j_time "queued_at" zeroTime raw;
  queueDepth ← read j_int32 "queue_depth" 0 raw;
  m ← readMatch raw;
  reason ← read j_string "reason" "" raw;
  message ← read j_string "message" "" raw;
  if bool_decide (type = "queued") then Ok (EventQueued queuedAt queueDepth)
  else if bool_decide (type = "matched") then
    match m with
    | None => Err (panic "nil pointer dereference")
    | Some (sMatchID, endpoint, token, expiresAt) =>
        matchID ← parse_uuid sMatchID;
        Ok (EventMatched (mkAssignment matchID endpoint token expiresAt))
    end
  else if bool_decide (type = "failed") then Ok (EventFailed reason message)
  else Err (ErrText "matchqueue: unknown event type").

Definition isTerminalEvent (ev : Event) : bool :=
  match ev with EventMatched _ | EventFailed _ _ => true | _ => false end.

(** ** The helpers *)

Definition setEvent (ticketID : uuid) (event : Event) : prog json unit :=
  data ← ret_res (marshalEvent event);
  rep ← send (SetEX (eventKey ticketID) data (ttlSeconds * 1000));
  ret_res (wrap_err "matchqueue: set event" (reply_Error rep)).

Definition xaddEvent (ticketID : uuid) (event : Event) : prog json unit :=
  data ← ret_res (marshalEvent event);
  rep ← send (XADD (streamKey ticketID) data);
  _ ← ret_res (wrap_err "matchqueue: xadd" (reply_Error rep));
  rep ← send (PEXPIRE (streamKey ticketID) (ttlSeconds * 1000));
  ret_res (wrap_err "matchqueue: stream expire" (reply_Error rep)).

Definition latestEvent (ticketID : uuid) : prog json (option Event) :=
  rep ← send (GET (eventKey ticketID));
  match ToString rep with
  | Err e => if IsValkeyNil e then mret None else ret_res (Err (Wrap "matchqueue: get event" e))
  | Ok raw => ret_res (ev ← unmarshalEvent raw; Ok (Some ev))
  end.

Definition getTicket (ticketID : uuid) : prog json Ticket :=
  rep ← send (GET (ticketKey ticketID));
  match ToString rep with
  | Err e => if IsValkeyNil e then ret_res (Err ErrTicketNotFound) else ret_res (Err (Wrap "matchqueue: get ticket" e))
  | Ok raw => ret_res (unmarshalTicket raw)
  end.

(** ** The methods of match.Queue *)

(** [int32(depth) + 1]. *)
Definition queuedEvent (t : Ticket) (depth : Z) : Event := EventQueued (t_EnqueuedAt t) (i32 (i32 depth + 1)).

Definition Enqueue (t : Ticket) : prog json unit :=
  data ← ret_res (wrap_err "matchqueue: marshal ticket" (marshalTicket t));
  rep ← send (SetNX (ticketKey (t_ID t)) data (ttlSeconds * 1000));
  match reply_Error rep with
  | Err setErr => if IsValkeyNil setErr then mret tt else ret_res (Err (Wrap "matchqueue: set ticket" setErr))
  | Ok _ =>
      rep ← send (ZCARD (pendingKey (t_GameMode t)));
      depth ← ret_res (wrap_err "matchqueue: zcard" (ToInt64 rep));
      let queued := queuedEvent t depth in
      _ ← setEvent (t_ID t) queued;
      _ ← xaddEvent (t_ID t) queued;
      let score := f64_of_Z (i64 (t_EnqueuedAt t)) in
      rep ← send (ZADD (pendingKey (t_GameMode t)) score (uuid_String (t_ID t)));
      ret_res (wrap_err "matchqueue: zadd pending" (reply_Error rep))
  end.

Definition prog_when (b : bool) (p : prog json unit) : prog json unit := if b then p else mret tt.

Definition publish (t : Ticket) (event : Event) : prog json unit :=
  _ ← setEvent (t_ID t) event;
  _ ← prog_when (isTerminalEvent event)
        (rep ← send (ZREM (pendingKey (t_GameMode t)) (uuid_String (t_ID t)));
         ret_res (wrap_err "matchqueue: zrem pending" (reply_Error rep)));
  xaddEvent (t_ID t) event.

Definition Cancel (ticketID : uuid) : prog json unit :=
  t ← getTicket ticketID;
  latest ← latestEvent ticketID;
  if match latest with Some ev => isTerminalEvent ev | None => false end then mret tt
  else publish t (EventFailed "cancelled" "ticket was cancelled by the client").

Definition Publish (ticketID : uuid) (event : Event) : prog json unit :=
  t ← getTicket ticketID;
  publish t event.

(** The loop of [Pending]: what does not parse or has lapsed is skipped. *)
Fixpoint pendingTickets (ids : list string) : prog json (list Ticket) :=
  match ids with
  | [] => mret []
  | idStr :: ids' =>
      match uuid_Parse idStr with
      | None => pendingTickets ids'
      | Some id =>
          t ← attempt (getTicket id);
          match t with
          | Err _ => pendingTickets ids'
          | Ok t => out ← pendingTickets ids'; mret (t :: out)
          end
      end
  end.

Definition Pending (gameMode : string) : prog json (list Ticket) :=
  rep ← send (ZRANGE (pendingKey gameMode));
  ids ← ret_res (wrap_err "matchqueue: zrange pending" (AsStrSlice rep));
  pendingTickets ids.

(** The two loops of the Lua script. *)
Fixpoint claim_check (key : string) (args : list string) (next : script json) : script json :=
  match args with
  | [] => next
  | a :: args' => SCall (ZSCORE key a) (λ r, match r with RNil => SReturn (RInt 0) | _ => claim_check key args' next end)
  end.
Fixpoint claim_remove (key : string) (args : list string) (next : script json) : script json :=
  match args with
  | [] => next
  | a :: args' => SCall (ZREM key a) (λ _, claim_remove key args' next)
  end.
Definition claimScript (key : string) (args : list string) : script json :=
  claim_check key args (claim_remove key args (SReturn (RInt 1))).

Definition Claim (gameMode : string) (ticketIDs : list uuid) : prog json bool :=
  rep ← eval (claimScript (pendingKey gameMode) (uuid_String <$> ticketIDs));
  res ← ret_res (wrap_err "matchqueue: claim eval" (ToInt64 rep));
  mret (res =? 1).

Definition Depth (gameMode : string) : prog json Z :=
  rep ← send (ZCARD (pendingKey gameMode));
  depth ← ret_res (wrap_err "matchqueue: zcard" (ToInt64 rep));
  mret (i32 depth).

(** ** Subscribing

    One batch of entries: the events sent on the channel, the id of the last entry looked at, and
    whether a terminal event ended the subscription. *)
Fixpoint forward (entries : list (Z * json)) (lastID : Z) : list Event * Z * bool :=
  match entries with
  | [] => ([], lastID, false)
  | (id, raw) :: entries' =>
      match unmarshalEvent raw with
      | Err _ => forward entries' id
      | Ok ev =>
          if isTerminalEvent ev then ([ev], id, true)
          else let '(evs, last, stop) := forward entries' id in (ev :: evs, last, stop)
      end
  end.

(** The goroutine: everything it sends before it closes the channel.  [reads] bounds the XREADs it
    issues before the subscriber's context ends. *)
Fixpoint tailStream (reads : nat) (ticketID : uuid) (lastID : Z) : prog json (list Event) :=
  match reads with
  | O => mret []
  | S reads' =>
      rep ← send (XREAD (streamKey ticketID) 64 lastID);
      match AsXRead rep with
      | Err e => if IsValkeyNil e then tailStream reads' ticketID lastID else mret []
      | Ok entries =>
          let '(evs, last, stop) := forward entries lastID in
          if stop then mret evs
          else rest ← tailStream reads' ticketID last; mret (evs ++ rest)
      end
  end.

Definition Subscribe (reads : nat) (ticketID : uuid) : prog json (list Event) :=
  _ ← getTicket ticketID;
  tailStream reads ticketID 0.

(** ** What a document keeps *)

Section documents.
Context {UL : UuidCodecLaws U}.

Definition encodable (t : Ticket) : bool :=
  match t_Rating t with Some x => f64_finite x | None => true end && json_time_ok (t_EnqueuedAt t).

Definition kept_ticket (t : Ticket) : Ticket :=
  mkTicket (t_ID t) (t_PlayerID t) (ToValid (t_GameMode t)) (t_Rating t) (ToValid <$> t_Region t)
    (t_PartyMembers t) (norm j_string_map (t_Attributes t)) (t_EnqueuedAt t).

Lemma parse_uuid_String u : parse_uuid (uuid_String u) = Ok u.
Proof. unfold parse_uuid. by rewrite uuid_parse_string. Qed.

Lemma parse_uuids l : mapM_res parse_uuid (uuid_String <$> l) = Ok l.
Proof. induction l as [|u l IH]; [done|]. csimpl. by rewrite parse_uuid_String, IH. Qed.

Lemma dec_uuids l : mapM_res dec_string ((λ s, JStr (ToValid s)) <$> (uuid_String <$> l)) = Ok (uuid_String <$> l).
Proof.
  induction l as [|u l IH]; [done|]. csimpl. by rewrite ToValid_uuid, IH.
Qed.

Lemma ticket_document t :
  (encodable t = true ∧ ∃ raw, marshalTicket t = Ok raw ∧ unmarshalTicket raw = Ok (kept_ticket t)) ∨
  (encodable t = false ∧ is_ok (marshalTicket t) = false).
Proof.
  destruct t as [id pid mode rating region members attrs enq].
  unfold encodable, marshalTicket, object, opt_field, omit, field. simpl. unfold enc_float64, enc_time.
  destruct (json_time_ok enq) eqn:Et; destruct rating as [x|]; try destruct (f64_finite x) eqn:Ex;
    destruct region as [g|]; simpl; repeat case_bool_decide; simpl;
    try (right; split; [done|done]); left; (split; [done|]); (eexists; split; [reflexivity|]);
    unfold unmarshalTicket, kept_ticket, read, read_opt; simpl; rewrite ?dec_uuids, ?read_map_strings; simpl;
    rewrite !ToValid_uuid; simpl; rewrite !parse_uuid_String; simpl; rewrite ?parse_uuids; subst; try done.
Qed.

Definition valid_text (s : string) : Prop := ValidString s = true.

(** Text a document does not change. *)
Definition clean_ticket (t : Ticket) : Prop :=
  valid_text (t_GameMode t) ∧ (∀ r, t_Region t = Some r → valid_text r) ∧
  map_Forall (λ k v, ValidString k = true ∧ ValidString v = true) (t_Attributes t).

Lemma kept_clean_ticket t : clean_ticket t → kept_ticket t = t.
Proof.
  destruct t as [id pid mode rating region members attrs enq]. intros (Hm & Hr & Ha). unfold kept_ticket. simpl in *.
  pose proof (norm_string_map attrs Ha) as E. simpl in E. rewrite E, ToValid_id by done.
  destruct region as [r|]; [|done]. simpl. by rewrite ToValid_id by (by apply Hr).
Qed.

Definition encodable_event (ev : Event) : bool :=
  match ev with
  | EventQueued queuedAt _ => json_time_ok queuedAt
  | EventMatched a => json_time_ok (a_ExpiresAt a)
  | EventFailed _ _ => true
  end.

Definition kept_event (ev : Event) : Event :=
  match ev with
  | EventQueued queuedAt depth => EventQueued queuedAt (i32 depth)
  | EventMatched a => EventMatched (mkAssignment (a_MatchID a) (ToValid (a_Endpoint a)) (ToValid (a_SessionToken a)) (a_ExpiresAt a))
  | EventFailed reason message => EventFailed (ToValid reason) (ToValid message)
  end.

Lemma event_document ev :
  (encodable_event ev = true ∧ ∃ raw, marshalEvent ev = Ok raw ∧ unmarshalEvent raw = Ok (kept_event ev)) ∨
  (encodable_event ev = false ∧ is_ok (marshalEvent ev) = false).
Proof.
  unfold marshalEvent, marshalMatch, object, opt_field, omit, field, encodable_event, kept_event, unmarshalEvent, readMatch, read.
  destruct ev as [queuedAt depth|[mid ep tok exp]|reason message].
  - simpl. unfold enc_time. destruct (json_time_ok queuedAt) eqn:Et; [|by right]. simpl.
    left. split; [done|]. destruct (depth =? 0) eqn:Ed; to_prop; (eexists; split; [reflexivity|]); simpl; [by subst|].
    unfold dec_int32. by rewrite bool_decide_eq_true_2 by apply i32_idem.
  - simpl. unfold enc_time. destruct (json_time_ok exp) eqn:Et; [|by right]. simpl.
    left. split; [done|]. eexists; split; [reflexivity|]. simpl. by rewrite ToValid_uuid, parse_uuid_String.
  - simpl. left. split; [done|]. repeat case_bool_decide; simpl; (eexists; split; [reflexivity|]); by subst.
Qed.

Definition clean_event (ev : Event) : Prop :=
  match ev with
  | EventQueued _ depth => i32 depth = depth
  | EventMatched a => valid_text (a_Endpoint a) ∧ valid_text (a_SessionToken a)
  | EventFailed reason message => valid_text reason ∧ valid_text message
  end.

Lemma kept_clean_event ev : clean_event ev → kept_event ev = ev.
Proof.
  destruct ev as [t d|[mid ep tok exp]|r m]; simpl; [by intros ->| |]; intros [H1 H2]; by rewrite !ToValid_id.
Qed.

(** what is written to the shared store is what is read back.  A ticket or an event with a
    float or a time that JSON cannot express is refused; any other comes back with its text coerced
    to valid UTF-8 and nothing else changed, hence unchanged when its text was valid.  No reader
    panics on a document a writer produced. *)
Theorem documents_roundtrip :
  (∀ t, match marshalTicket t with
        | Ok raw => encodable t = true ∧ unmarshalTicket raw = Ok (kept_ticket t) ∧ (clean_ticket t → kept_ticket t = t)
        | Err _ => encodable t = false
        end) ∧
  (∀ ev, match marshalEvent ev with
         | Ok raw => encodable_event ev = true ∧ unmarshalEvent raw = Ok (kept_event ev) ∧ (clean_event ev → kept_event ev = ev)
         | Err _ => encodable_event ev = false
         end).
Proof.
  split.
  - intros t. destruct (ticket_document t) as [(He & raw & Em & Eu)|(He & Em)].
    + rewrite Em. split_and!; [done..|apply kept_clean_ticket].
    + by destruct (marshalTicket t).
  - intros ev. destruct (event_document ev) as [(He & raw & Em & Eu)|(He & Em)].
    + rewrite Em. split_and!; [done..|apply kept_clean_event].
    + by destruct (marshalEvent ev).
Qed.
End documents.
(** ** The claim script *)

Definition in_zset (ks : keyspace json) (key member : string) : bool := bool_decide (is_Some (zset ks key !! member)).
Definition zrem_all (key : string) (members : list string) (ks : keyspace json) : keyspace json :=
  foldl (λ ks m, set_zset (alter (delete m) key) ks) ks members.

Lemma claim_remove_answer newID key args ks :
  answer_script newID (claim_remove key args (SReturn (RInt 1))) ks = (RInt 1, zrem_all key args ks).
Proof. revert ks. induction args as [|a args IH]; intros ks; [done|]. simpl. apply IH. Qed.

Lemma claim_check_answer newID key args next ks :
  answer_script newID (claim_check key args next) ks =
  if forallb (in_zset ks key) args then answer_script newID next ks else (RInt 0, ks).
Proof.
  induction args as [|a args IH]; [done|]. simpl. unfold in_zset at 1.
  destruct (zset ks key !! a) as [x|] eqn:E; simpl; [exact IH|done].
Qed.

(** The script is all-or-nothing. *)
Lemma claimScript_answer newID key args ks :
  answer newID (Eval (claimScript key args)) ks =
  if forallb (in_zset ks key) args then (RInt 1, zrem_all key args ks) else (RInt 0, ks).
Proof. simpl. unfold claimScript. rewrite claim_check_answer. case_match; [apply claim_remove_answer|done]. Qed.

Lemma zset_alter (ks : keyspace json) key member key' m :
  zset (set_zset (alter (delete member) key) ks) key' !! m =
  if decide (key' = key ∧ m = member) then None else zset ks key' !! m.
Proof.
  unfold zset, set_zset. simpl. destruct (decide (key' = key)) as [->|Hk].
  - rewrite lookup_alter_eq. destruct (ks_zset ks !! key) as [z|]; simpl; [|by rewrite !lookup_empty; case_decide].
    case_decide as H; [destruct H as [_ ->]; apply lookup_delete_eq|].
    apply lookup_delete_ne. intros ->. by apply H.
  - rewrite lookup_alter_ne by done. case_decide as H; [by destruct H|done].
Qed.

Lemma zrem_all_zset key members ks key' m :
  zset (zrem_all key members ks) key' !! m =
  if decide (key' = key ∧ m ∈ members) then None else zset ks key' !! m.
Proof.
  revert ks. induction members as [|a members IH]; intros ks; simpl.
  { case_decide as H; [|done]. destruct H as [_ H]. by apply elem_of_nil in H. }
  rewrite IH, zset_alter.
  destruct (decide (key' = key ∧ m ∈ members)) as [[-> H]|H1].
  { rewrite decide_True; [done|]. split; [done|by right]. }
  destruct (decide (key' = key ∧ m = a)) as [[-> ->]|H2].
  { rewrite decide_True; [done|]. split; [done|left]. }
  rewrite decide_False; [done|]. rewrite elem_of_cons. naive_solver.
Qed.

Lemma zrem_all_str key members ks : ks_str (zrem_all key members ks) = ks_str ks.
Proof. revert ks. induction members as [|a members IH]; intros ks; [done|]. simpl. by rewrite IH. Qed.
Lemma zrem_all_stream key members ks : ks_stream (zrem_all key members ks) = ks_stream ks.
Proof. revert ks. induction members as [|a members IH]; intros ks; [done|]. simpl. by rewrite IH. Qed.

(** ** Replicas at work

    What a gateway runs against the queue; the value of a thread is the tickets it claimed. *)
Inductive queue_call :=
  | CallEnqueue (t : Ticket)
  | CallCancel (id : uuid)
  | CallPublish (id : uuid) (ev : Event)
  | CallClaim (gameMode : string) (ids : list uuid)
  | CallPending (gameMode : string)
  | CallDepth (gameMode : string)
  | CallSubscribe (reads : nat) (id : uuid).

Definition claims_nothing {A} (p : prog json A) : prog json (list uuid) := _ ← p; mret [].

Definition call_prog (c : queue_call) : prog json (list uuid) :=
  match c with
  | CallEnqueue t => claims_nothing (Enqueue t)
  | CallCancel id => claims_nothing (Cancel id)
  | CallPublish id ev => claims_nothing (Publish id ev)
  | CallClaim gameMode ids => ok ← Claim gameMode ids; mret (if (ok : bool) then ids else [])
  | CallPending gameMode => claims_nothing (Pending gameMode)
  | CallDepth gameMode => claims_nothing (Depth gameMode)
  | CallSubscribe reads id => claims_nothing (Subscribe reads id)
  end.

Definition is_call (_ : nat) (p : prog json (list uuid)) : Prop := ∃ c, p = call_prog c.

(** *** What a thread can still do to the ticket [id] *)

Section one_ticket.
Context (id : uuid).

Definition ticket_set (ks : keyspace json) : Prop := is_Some (ks_str ks !! ticketKey id).
Definition pending_in (ks : keyspace json) (key : string) : Prop := is_Some (zset ks key !! uuid_String id).

(** The request neither makes the ticket pending nor drops its key. *)
Definition harmless (r : request json) : Prop :=
  ∀ newID ks, let ks' := (answer newID r ks).2 in
    (∀ key, pending_in ks' key → pending_in ks key) ∧ (ticket_set ks → ticket_set ks').

Definition not_claimed (r : res (list uuid)) : Prop := ∀ ids, r = Ok ids → id ∉ ids.

(** The thread may not make the ticket pending unless it wins its key first; [ok] is what it may
    return. *)
Fixpoint unarmed {A} (ok : res A → Prop) (p : prog json A) : Prop :=
  match p with
  | Ret r => ok r
  | Call r k =>
      (harmless r ∧ ∀ rep, unarmed ok (k rep)) ∨
      ((∃ v ms, r = Do (SetNX (ticketKey id) v ms)) ∧
         unarmed ok (k RNil) ∧ (∀ e, unarmed ok (k (RErr e))) ∧ ∀ rep, armed ok (k rep)) ∨
      (∃ key ids, r = Eval (claimScript key (uuid_String <$> ids)) ∧ id ∈ ids ∧
         (∃ res, k (RInt 1) = Ret res) ∧ ∀ rep, rep <> RInt 1 → unarmed ok (k rep))
  end
(** It won the key: it may make the ticket pending once. *)
with armed {A} (ok : res A → Prop) (p : prog json A) : Prop :=
  match p with
  | Ret r => ok r
  | Call r k =>
      (harmless r ∧ ∀ rep, armed ok (k rep)) ∨
      ((∃ key score, r = Do (ZADD key score (uuid_String id))) ∧ ∀ rep, unarmed ok (k rep))
  end.

(** *** The programs of the queue *)

Context {UL : UuidCodecLaws U}.

Lemma ticketKey_inj a b : ticketKey a = ticketKey b → a = b.
Proof. intros H. by apply prefixed_inj, uuid_String_inj in H. Qed.

Lemma ticket_event_ne a b : ticketKey a <> eventKey b.
Proof. unfold ticketKey, eventKey. by intros [=]. Qed.

Lemma harmless_read c :
  match c with GET _ | ZCARD _ | ZSCORE _ _ | ZRANGE _ | PEXPIRE _ _ | XREAD _ _ _ | XADD _ _ | ZREM _ _ => True | _ => False end →
  harmless (Do c).
Proof.
  intros H newID ks. destruct c; try done; simpl; split; try done.
  intros key'. unfold pending_in. rewrite zset_alter. case_decide; [by intros [? ?]|done].
Qed.

Lemma harmless_event eid v ms : harmless (Do (SetEX (eventKey eid) v ms)).
Proof.
  intros newID ks. simpl. split; [done|]. unfold ticket_set. simpl. intros H.
  rewrite lookup_insert_ne; [done|]. intros E. by apply eq_sym, ticket_event_ne in E.
Qed.

Lemma harmless_ticket key v ms : harmless (Do (SetNX key v ms)).
Proof.
  intros newID ks. simpl. destruct (ks_str ks !! key) as [x|] eqn:E; [done|]. split; [done|].
  unfold ticket_set. simpl. intros [y Hy]. rewrite lookup_insert_is_Some. destruct (decide (key = ticketKey id)); [by left|by right].
Qed.

Lemma harmless_zadd key score m : m <> uuid_String id → harmless (Do (ZADD key score m)).
Proof.
  intros Hm newID ks. simpl. split; [|done]. intros key'. unfold pending_in, zset. simpl.
  destruct (decide (key' = key)) as [->|Hk]; [rewrite lookup_insert_eq|by rewrite lookup_insert_ne].
  simpl. by rewrite lookup_insert_ne.
Qed.

Lemma harmless_claim key members : harmless (Eval (claimScript key members)).
Proof.
  intros newID ks. rewrite claimScript_answer. destruct (forallb _ _); simpl; [|done].
  split; [|unfold ticket_set; by rewrite zrem_all_str].
  intros key'. unfold pending_in. rewrite zrem_all_zset. case_decide; [by intros [? ?]|done].
Qed.

(** Programs all of whose requests are harmless. *)
Fixpoint calm {A} (p : prog json A) : Prop :=
  match p with
  | Ret _ => True
  | Call r k => harmless r ∧ ∀ rep, calm (k rep)
  end.

Lemma calm_bind {A B} (p : prog json A) (f : A → prog json B) : calm p → (∀ a, calm (f a)) → calm (p ≫= f).
Proof.
  intros Hp Hf. induction p as [[a|e]|r k IH]; [apply Hf|done|]. destruct Hp as [Hr Hk].
  split; [done|]. intros rep. apply IH, Hk.
Qed.

Lemma calm_attempt {A} (p : prog json A) : calm p → calm (attempt p).
Proof. induction p as [r|r k IH]; [done|]. intros [Hr Hk]. split; [done|]. intros rep. apply IH, Hk. Qed.

Lemma calm_send c : harmless (Do c) → calm (send c).
Proof. done. Qed.

Lemma calm_res {A} (r : res A) : calm (ret_res r).
Proof. done. Qed.

Lemma calm_unarmed {A} (ok : res A → Prop) (p : prog json A) : calm p → (∀ r, ok r) → unarmed ok p.
Proof. intros Hp Hok. induction p as [r|r k IH]; [apply Hok|]. destruct Hp as [Hr Hk]. left. eauto. Qed.

Lemma calm_armed {A} (ok : res A → Prop) (p : prog json A) : calm p → (∀ r, ok r) → armed ok p.
Proof. intros Hp Hok. induction p as [r|r k IH]; [apply Hok|]. destruct Hp as [Hr Hk]. left. eauto. Qed.

Definition any {A} (r : res A) : Prop := True.

Lemma armed_after {A B} (p : prog json A) (f : A → prog json B) :
  calm p → (∀ a, armed any (f a)) → armed any (p ≫= f).
Proof.
  intros Hp Hf. induction p as [[a|e]|r k IH]; [apply Hf|done|]. destruct Hp as [Hr Hk].
  left. split; [done|]. intros rep. apply IH, Hk.
Qed.

Lemma claims_nothing_ok {A} (p : prog json A) :
  (unarmed any p → unarmed not_claimed (claims_nothing p)) ∧ (armed any p → armed not_claimed (claims_nothing p)).
Proof.
  unfold claims_nothing. induction p as [[a|e]|r k IH]; [by split; intros _ ids [= <-] ?%elem_of_nil|by split; intros _ ids [=]|].
  split.
  - intros [[H1 H2]|[(H1 & H2 & H3 & H4)|(key & ids & H1 & H2 & [res H3] & H4)]].
    + left. split; [done|]. intros rep. by apply IH.
    + right; left. split_and!; [done|by apply IH|intros e; by apply IH|intros rep; by apply IH].
    + right; right. exists key, ids. split_and!; [done|done| |].
      * cbn. rewrite H3. destruct res; by eexists.
      * intros rep Hrep. by apply IH, H4.
  - intros [[H1 H2]|[H1 H2]]; [left|right]; (split; [done|]); intros rep; by apply IH.
Qed.

Ltac calm_tac :=
  repeat match goal with
  | |- calm (_ ≫= _) => apply calm_bind; [|intros ?]
  | |- calm (send _) => apply calm_send
  | |- calm (ret_res _) => done
  | |- calm (mret _) => done
  | |- calm (attempt _) => apply calm_attempt
  | |- calm (match ?x with _ => _ end) => destruct x
  | |- harmless (Do (SetEX (eventKey _) _ _)) => apply harmless_event
  | |- harmless (Do _) => by apply harmless_read
  end.

Lemma setEvent_calm tid ev : calm (setEvent tid ev).
Proof. unfold setEvent. calm_tac. Qed.
Lemma xaddEvent_calm tid ev : calm (xaddEvent tid ev).
Proof. unfold xaddEvent. calm_tac. Qed.
Lemma getTicket_calm tid : calm (getTicket tid).
Proof. unfold getTicket. calm_tac. Qed.
Lemma latestEvent_calm tid : calm (latestEvent tid).
Proof. unfold latestEvent. calm_tac. Qed.
Lemma publish_calm t ev : calm (publish t ev).
Proof.
  unfold publish, prog_when. apply calm_bind; [apply setEvent_calm|intros _].
  apply calm_bind; [calm_tac|intros _; apply xaddEvent_calm].
Qed.
Lemma pendingTickets_calm ids : calm (pendingTickets ids).
Proof.
  induction ids as [|s ids IH]; [done|]. cbn [pendingTickets]. destruct (uuid_Parse s) as [pid|]; [|done].
  apply calm_bind; [apply calm_attempt, getTicket_calm|]. intros [t|e]; [|done]. by apply calm_bind.
Qed.
Lemma tailStream_calm reads tid last : calm (tailStream reads tid last).
Proof.
  revert last. induction reads as [|n IH]; intros last; [done|]. simpl. split; [by apply harmless_read|].
  intros rep. destruct (AsXRead rep) as [entries|e]; [|by case_match].
  destruct (forward entries last) as [[evs l] []]; [done|]. by apply calm_bind.
Qed.

Lemma Enqueue_unarmed t : unarmed any (Enqueue t).
Proof.
  unfold Enqueue. destruct (marshalTicket t) as [data|e]; [|done]. cbn [wrap_err].
  destruct (decide (t_ID t = id)) as [Hid|Hid].
  - right; left. split; [rewrite Hid; by do 2 eexists|]. split_and!; [done|by intros e; simpl; case_match|].
    intros rep. simpl. destruct (reply_Error rep) as [[]|e]; [|by case_match].
    left. split; [by apply harmless_read|]. intros rep1. destruct (wrap_err _ _) as [depth|e]; [|done].
    apply armed_after; [apply setEvent_calm|]. intros _. apply armed_after; [apply xaddEvent_calm|]. intros _.
    right. split; [rewrite Hid; by do 2 eexists|done].
  - apply calm_unarmed; [|done]. split; [apply harmless_ticket|]. intros rep. simpl.
    destruct (reply_Error rep) as [[]|e]; [|by case_match]. split; [by apply harmless_read|]. intros rep1.
    destruct (wrap_err _ _) as [depth|e]; [|done].
    apply calm_bind; [apply setEvent_calm|]. intros _. apply calm_bind; [apply xaddEvent_calm|]. intros _.
    split; [|done]. apply harmless_zadd. intros E. by apply uuid_String_inj in E.
Qed.

Lemma Claim_unarmed gameMode ids : unarmed not_claimed (call_prog (CallClaim gameMode ids)).
Proof.
  destruct (decide (id ∈ ids)) as [Hin|Hin].
  - right; right. exists (pendingKey gameMode), ids. split_and!; [done|done|by eexists|].
    intros rep Hrep. destruct rep as [| |z| | | | |e]; try by intros ? [=].
    simpl. assert (z =? 1 = false) as -> by (apply Z.eqb_neq; congruence). by intros ? [= <-] ?%elem_of_nil.
  - left. split; [apply harmless_claim|]. intros rep. destruct rep as [| |z| | | | |e]; try by intros ? [=].
    simpl. destruct (z =? 1); intros ? [= <-]; [done|apply not_elem_of_nil].
Qed.

(** Every call starts unarmed. *)
Lemma call_unarmed c : unarmed not_claimed (call_prog c).
Proof.
  destruct c as [t|tid|tid ev|mode ids|mode|mode|reads tid]; [|try apply claims_nothing_ok..].
  - apply claims_nothing_ok, Enqueue_unarmed.
  - apply calm_unarmed; [|done]. unfold Cancel. apply calm_bind; [apply getTicket_calm|]. intros t.
    apply calm_bind; [apply latestEvent_calm|]. intros latest. case_match; [done|apply publish_calm].
  - apply calm_unarmed; [|done]. apply calm_bind; [apply getTicket_calm|]. intros t. apply publish_calm.
  - apply Claim_unarmed.
  - apply calm_unarmed; [|done]. unfold Pending. apply calm_bind; [by apply calm_send, harmless_read|]. intros rep.
    apply calm_bind; [done|]. apply pendingTickets_calm.
  - apply calm_unarmed; [|done]. unfold Depth. apply calm_bind; [by apply calm_send, harmless_read|]. intros rep. by apply calm_bind.
  - apply calm_unarmed; [|done]. apply calm_bind; [apply getTicket_calm|]. intros _. apply tailStream_calm.
Qed.

(** *** The ticket has one owner *)

Inductive owner := Nobody | Enqueuing (i : nat) | InPool (key : string) | ClaimedBy (i : nat).

#[export] Instance owner_eq_dec : EqDecision owner.
Proof. solve_decision. Defined.

Context {S : Type} {Srv : Server json S} {L : ServerLaws json S}.

Definition role (o : owner) (i : nat) (p : prog json (list uuid)) : Prop :=
  (o = Enqueuing i → armed not_claimed p) ∧ (o = ClaimedBy i → ∃ r, p = Ret r) ∧
  (o <> Enqueuing i → o <> ClaimedBy i → unarmed not_claimed p).

Record owned (o : owner) (n : net json S (list uuid)) : Prop := {
  ow_role : ∀ i p, n_threads n !! i = Some p → role o i p;
  ow_thread : ∀ i, o = Enqueuing i ∨ o = ClaimedBy i → is_Some (n_threads n !! i);
  ow_pool : ∀ key, pending_in (view (n_store n)) key → o = InPool key;
  ow_key : o <> Nobody → ticket_set (view (n_store n));
}.

Definition one_owner (n : net json S (list uuid)) : Prop := ticketKey id ∉ n_lapsed n → ∃ o, owned o n.

(** A step of thread [i] that leaves the owner in place. *)
Lemma owned_step o i p q (s s' : S) ts gone :
  owned o (mkNet s ts gone) → ts !! i = Some p → role o i q →
  (∀ key, pending_in (view s') key → pending_in (view s) key) → (ticket_set (view s) → ticket_set (view s')) →
  owned o (mkNet s' (<[i := q]> ts) gone).
Proof.
  intros [Hr Ht Hp Hk] Hi Hq Hz Hs. split; simpl in *.
  - intros j p' [[<- <-]|[Hne Hj]]%lookup_insert_Some; [done|by apply Hr].
  - intros j Hj. rewrite lookup_insert_is_Some. destruct (decide (i = j)) as [|]; [by left|right; split; [done|by apply Ht]].
  - intros key Hpk. by apply Hp, Hz.
  - intros Hn. by apply Hs, Hk.
Qed.

(** The owner changes to [o'], which thread [i] now holds or has handed over. *)
Lemma owned_moves o o' i p q (s s' : S) ts gone :
  owned o (mkNet s ts gone) → ts !! i = Some p →
  (∀ j, j <> i → o <> Enqueuing j ∧ o <> ClaimedBy j) → (∀ j, j <> i → o' <> Enqueuing j ∧ o' <> ClaimedBy j) →
  role o' i q → (∀ key, pending_in (view s') key → o' = InPool key) → ticket_set (view s') →
  owned o' (mkNet s' (<[i := q]> ts) gone).
Proof.
  intros [Hr Ht Hp Hk] Hi Ho Ho' Hq Hz Hs. split; simpl in *.
  - intros j p' [[<- <-]|[Hne Hj]]%lookup_insert_Some; [done|].
    destruct (Ho j) as [H1 H2]; [done|]. destruct (Ho' j) as [H1' H2']; [done|].
    split_and!; [done..|]. intros _ _. by apply (Hr j p').
  - intros j Hj. rewrite lookup_insert_is_Some. destruct (decide (i = j)) as [|]; [by left|].
    destruct (Ho' j); [done|]. naive_solver.
  - done.
  - done.
Qed.

Lemma harmless_serve r s : harmless r →
  (∀ key, pending_in (view (serve r s).2) key → pending_in (view s) key) ∧ (ticket_set (view s) → ticket_set (view (serve r s).2)).
Proof.
  intros Hr. destruct (serve_law r s) as (newID & _ & [E|(e & _ & [E|E])]).
  - apply (f_equal snd) in E. simpl in E. rewrite E. apply Hr.
  - by rewrite E.
  - rewrite E. apply Hr.
Qed.

Lemma role_unarmed o i p : role o i p → o <> Enqueuing i → o <> ClaimedBy i → unarmed not_claimed p.
Proof. intros (_ & _ & H). exact H. Qed.

Lemma unarmed_role o i p : o <> Enqueuing i → o <> ClaimedBy i → unarmed not_claimed p → role o i p.
Proof. by intros ? ? ?; split_and!. Qed.

(** Winning the key: nobody owned the ticket, now the caller does. *)
Lemma owned_setnx o i v ms k s ts gone :
  let r := Do (SetNX (ticketKey id) v ms) in
  owned o (mkNet s ts gone) → ts !! i = Some (Call r k) → o <> Enqueuing i → o <> ClaimedBy i →
  unarmed not_claimed (k RNil) → (∀ e, unarmed not_claimed (k (RErr e))) → (∀ rep, armed not_claimed (k rep)) →
  ∃ o', owned o' (mkNet (serve r s).2 (<[i := k (serve r s).1]> ts) gone).
Proof.
  intros r Ho Hi Ho1 Ho2 Hnil Herr Harm. destruct (harmless_serve r s) as [Hz Hs]; [apply harmless_ticket|].
  destruct (serve_law r s) as (newID & _ & [E|(e & E & _)]).
  - simpl in E. destruct (ks_str (view s) !! ticketKey id) as [x|] eqn:Ek; injection E as E1 E2; rewrite E1.
    { exists o. eapply owned_step; [done..| |done|done]. by apply unarmed_role. }
    destruct (decide (o = Nobody)) as [->|Hn].
    2: { destruct (ow_key _ _ Ho Hn) as [x Hx]. simpl in Hx. congruence. }
    exists (Enqueuing i). eapply owned_moves; [done|done|done|intros j Hj; split; congruence| | |].
    + split_and!; [done|done|]. by intros H.
    + intros key Hp. apply Hz, (ow_pool _ _ Ho) in Hp. done.
    + rewrite E2. unfold ticket_set. simpl. rewrite lookup_insert_eq. by eexists.
  - rewrite E. exists o. eapply owned_step; [done..| |done|done]. by apply unarmed_role.
Qed.

(** Claiming: a successful script took the ticket from the pool it was in. *)
Lemma owned_claim o i key ids k s ts gone :
  let r := Eval (claimScript key (uuid_String <$> ids)) in
  owned o (mkNet s ts gone) → ts !! i = Some (Call r k) → o <> Enqueuing i → o <> ClaimedBy i →
  id ∈ ids → (∃ res, k (RInt 1) = Ret res) → (∀ rep, rep <> RInt 1 → unarmed not_claimed (k rep)) →
  ∃ o', owned o' (mkNet (serve r s).2 (<[i := k (serve r s).1]> ts) gone).
Proof.
  intros r Ho Hi Ho1 Ho2 Hid Hret Hk. destruct (harmless_serve r s) as [Hz Hs]; [apply harmless_claim|].
  destruct (serve_law r s) as (newID & _ & [E|(e & E & _)]).
  - unfold r in E at 3. rewrite claimScript_answer in E.
    destruct (forallb _ _) eqn:Ein; injection E as E1 E2; rewrite E1.
    2: { exists o. eapply owned_step; [done..| |done|done]. apply unarmed_role; [done..|]. by apply Hk. }
    assert (Hpool : o = InPool key).
    { apply (ow_pool _ _ Ho). simpl. rewrite forallb_forall in Ein.
      apply (bool_decide_eq_true_1 _), Ein. apply list_elem_of_In. by apply list_elem_of_fmap_2. }
    exists (ClaimedBy i). eapply owned_moves; [done|done|intros j Hj; split; congruence|intros j Hj; split; congruence| | |].
    + split_and!; [done|done|]. by intros _ H.
    + intros key' Hp. pose proof (Hz _ Hp) as H. apply (ow_pool _ _ Ho) in H. rewrite Hpool in H. injection H as ->.
      rewrite E2 in Hp. unfold pending_in in Hp. rewrite zrem_all_zset in Hp. rewrite decide_True in Hp by (split; [done|by apply list_elem_of_fmap_2]).
      by destruct Hp.
    + apply Hs. apply (ow_key _ _ Ho). by rewrite Hpool.
  - rewrite E. exists o. eapply owned_step; [done..| |done|done]. apply unarmed_role; [done..|]. by apply Hk.
Qed.

(** The thread that won the key makes the ticket pending, at most once. *)
Lemma owned_armed i r k s ts gone :
  owned (Enqueuing i) (mkNet s ts gone) → ts !! i = Some (Call r k) →
  ∃ o', owned o' (mkNet (serve r s).2 (<[i := k (serve r s).1]> ts) gone).
Proof.
  intros Ho Hi. destruct (ow_role _ _ Ho _ _ Hi) as [Harm _]. specialize (Harm eq_refl).
  destruct Harm as [[Hr Hk]|[(key & score & ->) Hk]].
  - destruct (harmless_serve r s Hr) as [Hz Hs]. exists (Enqueuing i). eapply owned_step; [done..| |done|done].
    split_and!; [done|done|]. by intros H.
  - exists (InPool key).
    assert (Hts : ticket_set (view s)) by (by apply (ow_key _ _ Ho)).
    assert (Hnone : ∀ key', ~ pending_in (view s) key') by (intros key' Hp; by apply (ow_pool _ _ Ho) in Hp).
    eapply owned_moves; [done|done|intros j Hj; split; congruence|done| | |].
    + apply unarmed_role; done.
    + intros key' Hp. destruct (decide (key' = key)) as [->|Hne]; [done|]. exfalso. apply (Hnone key').
      destruct (serve_law (Do (ZADD key score (uuid_String id))) s) as (newID & _ & H).
      assert (Hv : view (serve (Do (ZADD key score (uuid_String id))) s).2 = view s ∨
        view (serve (Do (ZADD key score (uuid_String id))) s).2 = (answer newID (Do (ZADD key score (uuid_String id))) (view s)).2).
      { destruct H as [E|(e & _ & E)]; [right; by apply (f_equal snd) in E|done]. }
      destruct Hv as [Hv|Hv]; rewrite Hv in Hp; [done|].
      unfold pending_in, zset in Hp. simpl in Hp. by rewrite lookup_insert_ne in Hp.
    + destruct (serve_law (Do (ZADD key score (uuid_String id))) s) as (newID & _ & [E|(e & _ & [E|E])]);
        [apply (f_equal snd) in E; simpl in E; by rewrite E|by rewrite E|by rewrite E].
Qed.

Lemma one_owner_step n n' : net_step is_call n n' → one_owner n → one_owner n'.
Proof.
  intros Hstep Hn. destruct Hstep as [n i p Hi [c ->]|n i r k Hi|n s' keys Hl]; intros Hgone; simpl in Hgone.
  - destruct (Hn Hgone) as [o Ho]. exists o. destruct Ho as [Hr Ht Hp Hk]. split; simpl; [|intros j Hj|done|done].
    + intros j p [[<- <-]|[Hne Hj]]%lookup_insert_Some; [|by apply Hr].
      split_and!; [intros ->; destruct (Ht i); [by left|congruence]|intros ->; destruct (Ht i); [by right|congruence]|].
      intros _ _. apply call_unarmed.
    + rewrite lookup_insert_is_Some. destruct (decide (i = j)); [by left|right; split; [done|by apply Ht]].
  - destruct (Hn Hgone) as [o Ho]. destruct n as [s ts gone]. simpl in *.
    destruct (decide (o = Enqueuing i)) as [->|Ho1]; [by apply owned_armed|].
    destruct (ow_role _ _ Ho _ _ Hi) as (_ & Hd & Hu).
    destruct (decide (o = ClaimedBy i)) as [->|Ho2]; [by destruct (Hd eq_refl)|].
    destruct (Hu Ho1 Ho2) as [[Hr Hk]|[((v & ms & ->) & H1 & H2 & H3)|(key & ids & -> & H1 & H2 & H3)]].
    + destruct (harmless_serve r s Hr) as [Hz Hs]. exists o. eapply owned_step; [done..| |exact Hz|exact Hs].
      apply unarmed_role; [done..|apply Hk].
    + by eapply owned_setnx.
    + by eapply owned_claim.
  - assert (Hold : ticketKey id ∉ n_lapsed n) by set_solver. destruct (Hn Hold) as [o [Hr Ht Hp Hk]].
    destruct Hl as (L1 & L2 & _). exists o. split; simpl; [done|done| |].
    + intros key. unfold pending_in, zset. rewrite L2. case_decide; [by intros [? ?]|]. apply Hp.
    + intros Hn0. unfold ticket_set. rewrite L1, decide_False by set_solver. by apply Hk.
Qed.

Lemma one_owner_reachable n : net_reachable is_call n → one_owner n.
Proof.
  intros (s0 & Hv & Hr). assert (H0 : one_owner (mkNet s0 ∅ ∅)).
  { intros _. exists Nobody. split; simpl; [intros i p Hi; by rewrite lookup_empty in Hi|by intros i [H|H]| |done].
    intros key. unfold pending_in, zset. rewrite Hv. simpl. rewrite !lookup_empty. simpl.
    rewrite lookup_empty. by intros [? ?]. }
  induction Hr as [|x y z Hxy Hr IH] in H0 |- *; [done|]. apply IH. by eapply one_owner_step.
Qed.
End one_ticket.

(** C3: two replicas never match one ticket.  However the requests of any number of concurrent
    calls interleave, whatever replies are lost and whichever other keys lapse, as long as the
    ticket's own key has not lapsed, at most one claim that contains the ticket succeeds. *)
Theorem valkey_claimed_once {UL : UuidCodecLaws U} {S : Type} {Srv : Server json S} {L : ServerLaws json S}
    (n : net json S (list uuid)) id i j ids ids' :
  net_reachable is_call n → ticketKey id ∉ n_lapsed n →
  n_threads n !! i = Some (Ret (Ok ids)) → n_threads n !! j = Some (Ret (Ok ids')) →
  id ∈ ids → id ∈ ids' → i = j.
Proof.
  intros Hr Hgone Hi Hj Hid Hid'. destruct (one_owner_reachable id n Hr Hgone) as [o Ho].
  assert (Hclaim : ∀ k ks, n_threads n !! k = Some (Ret (Ok ks)) → id ∈ ks → o = ClaimedBy k).
  { intros k ks Hk Hin. destruct (ow_role _ _ _ Ho _ _ Hk) as (H1 & _ & H2).
    destruct (decide (o = ClaimedBy k)) as [|Hn]; [done|]. exfalso.
    destruct (decide (o = Enqueuing k)) as [He|He]; [by apply (H1 He ks)|by apply (H2 He Hn ks)]. }
  pose proof (Hclaim _ _ Hi Hid) as E1. pose proof (Hclaim _ _ Hj Hid') as E2. congruence.
Qed.
End queue.

(** ** Evaluation *)

Definition demo_ticket (b : byte) (mode : string) (rating : option float64) (at_time : time) : Ticket :=
  mkTicket (sample_uuid b) (sample_uuid b) mode rating (Some "eu") [sample_uuid b; sample_uuid x7f] {["ping" := "40"]} at_time.

(** A rating that JSON cannot carry is refused before anything is stored. *)
Example nan_rating_not_enqueued :
  let t := demo_ticket x01 "duel" (Some S754_nan) 1700000000000000000 in
  is_ok (run (Enqueue (U := hex_codec) t) empty_keyspace).1 = false ∧ (run (Enqueue (U := hex_codec) t) empty_keyspace).2 = empty_keyspace.
Proof. vm_compute. done. Qed.

(** A retry after a failure that followed the SET NX reports success for a ticket that is nowhere
    pending: thread 0 stops after its first request, thread 1 is the retry. *)
Example retry_loses_ticket :
  let t := demo_ticket x01 "duel" None 1700000000000000000 in
  let n := net_play [Start 0 (call_prog (U := hex_codec) (CallEnqueue t)); Next 0; Start 1 (call_prog (U := hex_codec) (CallEnqueue t)); Next 1] in
  n_threads n !! 1%nat = Some (Ret (Ok [])) ∧ ks_zset (n_store n) = ∅ ∧ (run (Depth "duel") (n_store n)).1 = Ok 0.
Proof. vm_compute. done. Qed.

(** A cancellation between the queued event and the ZADD of an Enqueue is overtaken: the ticket is
    pending although its last event is final. *)
Example cancelled_ticket_pending :
  let t := demo_ticket x01 "duel" None 1700000000000000000 in
  let n := net_play ([Start 0 (call_prog (U := hex_codec) (CallEnqueue t))] ++ replicate 5 (Next 0) ++
    [Start 1 (call_prog (U := hex_codec) (CallCancel (t_ID t)))] ++ replicate 6 (Next 1) ++ [Next 0]) in
  n_threads n !! 1%nat = Some (Ret (Ok [])) ∧
  (run (latestEvent (U := hex_codec) (t_ID t)) (n_store n)).1 = Ok (Some (EventFailed "cancelled" "ticket was cancelled by the client")) ∧
  (run (Pending (U := hex_codec) "duel") (n_store n)).1 = Ok [t].
Proof. vm_compute. done. Qed.

Definition demo_moves : list (net_move json (list uuid)) :=
  [Start 0 (call_prog (U := hex_codec) (CallEnqueue (demo_ticket x01 "duel" (Some (f64_of_Z 1500)) 1700000000000000000)))] ++ replicate 6 (Next 0) ++
  [Start 1 (call_prog (U := hex_codec) (CallClaim "duel" [sample_uuid x01])); Start 2 (call_prog (U := hex_codec) (CallClaim "duel" [sample_uuid x01])); Next 2; Next 1].

Lemma documents_roundtrip_witness :
  let t := demo_ticket x01 "duel" (Some (f64_of_Z 1500)) 1700000000000000000 in
  ∃ raw, marshalTicket (U := hex_codec) t = Ok raw ∧ unmarshalTicket (U := hex_codec) raw = Ok (kept_ticket t).
Proof.
  cbv zeta. destruct (documents_roundtrip (U := hex_codec)) as [H _].
  specialize (H (demo_ticket x01 "duel" (Some (f64_of_Z 1500)) 1700000000000000000)).
  destruct (marshalTicket _) as [raw|e] eqn:E; [|vm_compute in E; discriminate E].
  exists raw. split; [reflexivity|]. apply H.
Defined.

Lemma demo_moves_calls : starts_allowed (is_call (U := hex_codec)) demo_moves.
Proof. unfold starts_allowed, demo_moves. cbn [app replicate]. repeat constructor; by eexists. Qed.

Lemma valkey_claimed_once_witness : ∃ j, j = 2%nat ∧ n_threads (net_play demo_moves) !! j = Some (Ret (Ok [sample_uuid x01])).
Proof.
  exists 2%nat. split; [|vm_compute; reflexivity].
  apply (valkey_claimed_once (U := hex_codec) (net_play demo_moves) (sample_uuid x01) 2%nat 2%nat [sample_uuid x01] [sample_uuid x01]).
  - apply net_play_reachable, demo_moves_calls.
  - by_compute.
  - vm_compute. reflexivity.
  - vm_compute. reflexivity.
  - left.
  - left.
Defined.
