(* ===== verification/QueueRefinement.v ===== *)
(** * The shared queue refines the in-memory queue

    Run one call after the other on a server that answers, the Valkey queue ([ValkeyQueue]) gives
    the answers of the in-memory queue ([MatchQueue]).  [sim] relates their states: the ticket and
    event documents say what the entries say, and the sorted set of a mode holds exactly the
    entries that are neither finished nor claimed. *)

From S2P Require Import Prelude GoBase GoStrings Json Valkey Match MatchQueue ValkeyQueue.

(** ** The calls both queues answer *)

Inductive shared_call :=
  | SEnqueue (t : Ticket)
  | SCancel (id : uuid)
  | SSubscribe (id : uuid) (reads : nat)
  | SPublish (id : uuid) (ev : Event)
  | SClaim (gameMode : string) (ids : list uuid)
  | SPending (gameMode : string)
  | SDepth (gameMode : string).

Inductive shared_answer := Done | Claimed (ok : bool) | Tickets (l : list Ticket) | Size (n : Z).

(** The same answer (of a subscription, whether it is accepted: [QueueStream] is about the events it
    delivers), up to the order in which pending tickets with (nearly) one time are listed. *)
Definition answers_match (r r' : res shared_answer) : Prop :=
  match r, r' with
  | Ok (Tickets l), Ok (Tickets l') => l ≡ₚ l'
  | _, _ => r = r'
  end.

Section refinement.
Context {U : UuidCodec} {UL : UuidCodecLaws U} {R : RangeOrder} {RL : RangeOrderLaw R}.

Definition mem_call (c : shared_call) : M InMem shared_answer :=
  match c with
  | SEnqueue t => _ ← MatchQueue.Enqueue t; mret Done
  | SCancel id => _ ← MatchQueue.Cancel id; mret Done
  | SSubscribe id _ => _ ← MatchQueue.Subscribe id; mret Done
  | SPublish id ev => _ ← MatchQueue.Publish id ev; mret Done
  | SClaim gameMode ids => ok ← MatchQueue.Claim gameMode ids; mret (Claimed ok)
  | SPending gameMode => l ← MatchQueue.Pending gameMode; mret (Tickets l)
  | SDepth gameMode => n ← MatchQueue.Depth gameMode; mret (Size n)
  end.

Definition valkey_call (c : shared_call) : prog json shared_answer :=
  match c with
  | SEnqueue t => _ ← ValkeyQueue.Enqueue t; mret Done
  | SCancel id => _ ← ValkeyQueue.Cancel id; mret Done
  | SSubscribe id reads => _ ← ValkeyQueue.Subscribe reads id; mret Done
  | SPublish id ev => _ ← ValkeyQueue.Publish id ev; mret Done
  | SClaim gameMode ids => ok ← ValkeyQueue.Claim gameMode ids; mret (Claimed ok)
  | SPending gameMode => l ← ValkeyQueue.Pending gameMode; mret (Tickets l)
  | SDepth gameMode => n ← ValkeyQueue.Depth gameMode; mret (Size n)
  end.

(** What the program sends to a queue: tickets and events that JSON can carry unchanged, nothing but a
    final event to a ticket that has had one, and claims of tickets of one mode, the one they are
    claimed in. *)
Definition admissible (q : InMem) (c : shared_call) : Prop :=
  match c with
  | SEnqueue t => clean_ticket t ∧ encodable t = true
  | SPublish id ev => clean_event ev ∧ encodable_event ev = true ∧
      (isTerminal ev = true ∨ ∀ e, q_tickets q !! id = Some e → e_finished e = false)
  | SClaim gameMode ids => ∀ id e, id ∈ ids → q_tickets q !! id = Some e → t_GameMode (e_ticket e) = gameMode
  | _ => True
  end.

(** ** The relation *)

Definition doc_is {A} (unmarshal : json → res A) (a : A) (o : option json) : Prop :=
  ∃ raw, o = Some raw ∧ unmarshal raw = Ok a.

Record sim (q : InMem) (ks : keyspace json) : Prop := {
  sim_inv : queue_inv q;
  sim_ticket : ∀ id e, q_tickets q !! id = Some e →
    t_ID (e_ticket e) = id ∧ doc_is unmarshalTicket (e_ticket e) (ks_str ks !! ticketKey id);
  sim_none : ∀ id, q_tickets q !! id = None → ks_str ks !! ticketKey id = None;
  sim_event : ∀ id e, q_tickets q !! id = Some e →
    ∃ ev, e_latest e = Some ev ∧ doc_is unmarshalEvent ev (ks_str ks !! eventKey id) ∧ e_finished e = isTerminal ev;
  sim_pool : ∀ mode m, is_Some (zset ks (pendingKey mode) !! m) ↔
    ∃ id e, m = uuid_String id ∧ q_tickets q !! id = Some e ∧ isPendingEntry mode e = true;
}.

Lemma sim_init : sim NewInMem empty_keyspace.
Proof.
  split; simpl; [apply queue_inv_init|by intros ? ? ?..|done| |].
  - by intros ? ? ?.
  - intros mode m. unfold zset. simpl. rewrite lookup_empty. simpl. rewrite lookup_empty.
    split; [by intros [? ?]|by intros (id & e & _ & H & _)].
Qed.

Lemma isTerminal_eq ev : isTerminalEvent ev = isTerminal ev.
Proof. by destruct ev. Qed.

Lemma eventKey_inj a b : eventKey a = eventKey b → a = b.
Proof. intros H. by apply prefixed_inj, uuid_String_inj in H. Qed.

Lemma pendingKey_inj a b : pendingKey a = pendingKey b → a = b.
Proof. apply prefixed_inj. Qed.

(** The pending entries, as the sorted set sees them. *)
Definition pending_ids (mode : string) (q : InMem) : list uuid :=
  (filter (λ p, isPendingEntry mode p.2 = true) (map_to_list (q_tickets q))).*1.

Lemma elem_of_pending_ids mode q id :
  id ∈ pending_ids mode q ↔ ∃ e, q_tickets q !! id = Some e ∧ isPendingEntry mode e = true.
Proof.
  unfold pending_ids. rewrite list_elem_of_fmap. split.
  - intros ([i e] & -> & [Hp He]%list_elem_of_filter). apply elem_of_map_to_list in He. by exists e.
  - intros (e & He & Hp). exists (id, e). split; [done|]. apply list_elem_of_filter. split; [done|]. by apply elem_of_map_to_list.
Qed.

Lemma pending_ids_nodup mode q : NoDup (pending_ids mode q).
Proof.
  unfold pending_ids. eapply sublist_NoDup; [apply (NoDup_fst_map_to_list (q_tickets q))|].
  apply fmap_sublist, sublist_filter.
Qed.

Lemma zset_members mode q ks :
  sim q ks → (map_to_list (zset ks (pendingKey mode))).*1 ≡ₚ uuid_String <$> pending_ids mode q.
Proof.
  intros H. apply NoDup_Permutation.
  - apply NoDup_fst_map_to_list.
  - apply NoDup_fmap_2_strong; [|apply pending_ids_nodup]. intros x y _ _. apply uuid_String_inj.
  - intros m. transitivity (is_Some (zset ks (pendingKey mode) !! m)).
    + rewrite list_elem_of_fmap. split.
      * intros ([m' x] & -> & Hx). apply elem_of_map_to_list in Hx. by exists x.
      * intros [x Hx]. exists (m, x). split; [done|]. by apply elem_of_map_to_list.
    + rewrite (sim_pool _ _ H), list_elem_of_fmap. setoid_rewrite elem_of_pending_ids. naive_solver.
Qed.

Lemma zset_size mode q ks : sim q ks → i32 (Z.of_nat (size (zset ks (pendingKey mode)))) = countPendingLocked mode q.
Proof.
  intros H. unfold countPendingLocked. do 2 f_equal. pose proof (zset_members mode q ks H) as Hp.
  apply Permutation_length in Hp. unfold pending_ids in Hp. rewrite !length_fmap in Hp. by rewrite <- length_map_to_list, Hp.
Qed.

(** ** The helpers, run alone on a server that answers *)

Context {S : Type} {Srv : Server json S} {L : ServerLaws json S} {Up : ServerUp json S}.

Lemma spec_send c ks (Q : res (reply json) → keyspace json → Prop) :
  (∀ newID, Q (Ok (answer_cmd newID c ks).1) (answer_cmd newID c ks).2) → spec (send c) ks Q.
Proof. intros H. apply spec_call. intros newID _. apply spec_ret, H. Qed.

Lemma spec_res {A} (r : res A) ks (Q : res A → keyspace json → Prop) : Q r ks → spec (ret_res r) ks Q.
Proof. apply spec_ret. Qed.

(** One request at a time. *)
Ltac spec_step :=
  match goal with
  | |- spec (Call _ _) _ _ => apply spec_call; intros ? _; simpl
  | |- spec (_ ≫= _) _ _ => apply spec_bind
  | |- spec (send _) _ _ => apply spec_send; intros ?; simpl
  | |- spec (ret_res _) _ _ => apply spec_res; simpl
  | |- spec (mret _) _ _ => apply spec_ret
  | |- spec (Ret _) _ _ => apply spec_ret
  end.

(** Same documents and same sorted sets: only streams differ. *)
Definition same_data (ks ks' : keyspace json) : Prop := ks_str ks' = ks_str ks ∧ ks_zset ks' = ks_zset ks.

Lemma sim_same_data q ks ks' : same_data ks ks' → sim q ks → sim q ks'.
Proof.
  intros [E1 E2] [H1 H2 H3 H4 H5]. split; rewrite ?E1; try done. intros mode m. unfold zset. rewrite E2. apply H5.
Qed.

Lemma xaddEvent_spec tid ev ks (Q : res unit → keyspace json → Prop) :
  encodable_event ev = true → (∀ ks', same_data ks ks' → Q (Ok tt) ks') → spec (xaddEvent tid ev) ks Q.
Proof.
  intros He HQ. destruct (event_document ev) as [(_ & raw & Em & _)|[? _]]; [|congruence].
  unfold xaddEvent. rewrite Em. repeat spec_step. apply HQ; by split.
Qed.

Lemma setEvent_kept tid ev ks (Q : res unit → keyspace json → Prop) :
  encodable_event ev = true →
  (∀ raw, unmarshalEvent raw = Ok (kept_event ev) → Q (Ok tt) (set_str <[eventKey tid := raw]> ks)) → spec (setEvent tid ev) ks Q.
Proof.
  intros He HQ. destruct (event_document ev) as [(_ & raw & Em & Eu)|[? _]]; [|congruence].
  unfold setEvent. rewrite Em. repeat spec_step. by apply HQ.
Qed.

Lemma setEvent_spec tid ev ks (Q : res unit → keyspace json → Prop) :
  clean_event ev → encodable_event ev = true →
  (∀ raw, unmarshalEvent raw = Ok ev → Q (Ok tt) (set_str <[eventKey tid := raw]> ks)) → spec (setEvent tid ev) ks Q.
Proof. intros Hc He HQ. apply setEvent_kept; [done|]. by rewrite kept_clean_event. Qed.

Lemma getTicket_spec q ks id (Q : res Ticket → keyspace json → Prop) :
  sim q ks → Q (match q_tickets q !! id with Some e => Ok (e_ticket e) | None => Err ErrTicketNotFound end) ks →
  spec (getTicket id) ks Q.
Proof.
  intros Hs HQ. unfold getTicket. repeat spec_step. destruct (q_tickets q !! id) as [e|] eqn:E.
  - destruct (sim_ticket _ _ Hs _ _ E) as (_ & raw & -> & Eu). simpl. spec_step. by rewrite Eu.
  - rewrite (sim_none _ _ Hs _ E). simpl. rewrite ?IsValkeyNil_nil. by spec_step.
Qed.

Lemma latestEvent_spec q ks id e (Q : res (option Event) → keyspace json → Prop) :
  sim q ks → q_tickets q !! id = Some e → Q (Ok (e_latest e)) ks → spec (latestEvent id) ks Q.
Proof.
  intros Hs E HQ. destruct (sim_event _ _ Hs _ _ E) as (ev & El & (raw & Er & Eu) & _).
  unfold latestEvent. repeat spec_step. rewrite Er. simpl. spec_step. rewrite Eu. simpl. by rewrite <- El.
Qed.

(** ** Changes of both states that keep the relation *)

Lemma lookup_event_key ks id j raw :
  (<[eventKey id := raw]> (ks_str ks) : gmap string json) !! ticketKey j = ks_str ks !! ticketKey j.
Proof. apply lookup_insert_ne. intros H. by apply eq_sym, ticket_event_ne in H. Qed.

Lemma sim_insert q ks ks' t ev raw raw' x :
  sim q ks → q_tickets q !! t_ID t = None → isTerminal ev = false →
  unmarshalTicket raw = Ok t → unmarshalEvent raw' = Ok ev →
  ks_str ks' = <[eventKey (t_ID t) := raw']> (<[ticketKey (t_ID t) := raw]> (ks_str ks)) →
  ks_zset ks' = <[pendingKey (t_GameMode t) := <[uuid_String (t_ID t) := x]> (zset ks (pendingKey (t_GameMode t)))]> (ks_zset ks) →
  queue_inv (set_tickets q (<[t_ID t := mkEntry t (Some ev) false false]> (q_tickets q))) →
  sim (set_tickets q (<[t_ID t := mkEntry t (Some ev) false false]> (q_tickets q))) ks'.
Proof.
  intros Hs Hnew Hev Ht Hev' Es Ez Hinv.
  assert (Hk : ∀ j, ks_str ks' !! ticketKey j = if decide (j = t_ID t) then Some raw else ks_str ks !! ticketKey j).
  { intros j. rewrite Es, lookup_insert_ne by (intros H; by apply eq_sym, ticket_event_ne in H).
    case_decide as Hj; [subst; apply lookup_insert_eq|]. apply lookup_insert_ne. intros H. by apply ticketKey_inj in H. }
  split; simpl; [done|intros j e|intros j|intros j e|intros mode m].
  - rewrite Hk, lookup_insert. repeat case_decide; try congruence; [intros [= <-]; split; [done|by exists raw]|by apply Hs].
  - rewrite Hk, lookup_insert. repeat case_decide; try congruence. apply Hs.
  - rewrite lookup_insert. case_decide as Hj.
    + intros [= <-]. exists ev. split_and!; [done| |done]. exists raw'. split; [|done]. by rewrite Es, <- Hj, lookup_insert_eq.
    + intros He. destruct (sim_event _ _ Hs _ _ He) as (ev0 & H1 & (r0 & H2 & H3) & H4). exists ev0. split_and!; [done| |done].
      exists r0. split; [|done]. rewrite Es, !lookup_insert_ne; [done| |intros H; by apply eventKey_inj in H].
      intros H. by apply ticket_event_ne in H.
  - unfold zset. rewrite Ez. destruct (decide (mode = t_GameMode t)) as [->|Hm].
    + rewrite lookup_insert_eq. simpl. rewrite lookup_insert_is_Some. fold (zset ks (pendingKey (t_GameMode t))).
      rewrite (sim_pool _ _ Hs). split.
      * intros [<-|[Hne (j & e & -> & He & Hp)]].
        { exists (t_ID t), (mkEntry t (Some ev) false false). rewrite lookup_insert_eq. split_and!; [done..|].
          unfold isPendingEntry. simpl. by rewrite bool_decide_eq_false_2 by naive_solver. }
        exists j, e. split_and!; [done| |done]. rewrite lookup_insert_ne; [done|]. by intros <-.
      * intros (j & e & -> & He & Hp). rewrite lookup_insert in He. case_decide as Hj; [left; by subst|].
        right. split; [intros H; by apply uuid_String_inj in H|]. by exists j, e.
    + rewrite lookup_insert_ne by (intros H; by apply pendingKey_inj in H). fold (zset ks (pendingKey mode)).
      rewrite (sim_pool _ _ Hs). split; intros (j & e & -> & He & Hp).
      * exists j, e. split_and!; [done| |done]. rewrite lookup_insert_ne; [done|]. intros <-. congruence.
      * rewrite lookup_insert in He. case_decide as Hj; [|by exists j, e]. simplify_eq.
        unfold isPendingEntry in Hp. simpl in Hp. by rewrite bool_decide_eq_true_2 in Hp by done.
Qed.

(** Replacing the latest event of a known ticket, when the pools agree. *)
Lemma sim_update q q' ks ks' id e ev raw :
  sim q ks → q_tickets q !! id = Some e → unmarshalEvent raw = Ok ev →
  q_tickets q' = <[id := mkEntry (e_ticket e) (Some ev) (isTerminal ev) (e_claimed e)]> (q_tickets q) → queue_inv q' →
  ks_str ks' = <[eventKey id := raw]> (ks_str ks) →
  (∀ mode m, is_Some (zset ks' (pendingKey mode) !! m) ↔
     ∃ id e, m = uuid_String id ∧ q_tickets q' !! id = Some e ∧ isPendingEntry mode e = true) →
  sim q' ks'.
Proof.
  intros Hs He Hr Eq Hinv Es Hz.
  assert (Hk : ∀ j, ks_str ks' !! ticketKey j = ks_str ks !! ticketKey j) by (intros j; rewrite Es; apply lookup_event_key).
  split; [done|intros j e0|intros j|intros j e0|exact Hz]; rewrite ?Eq, ?Hk.
  - rewrite lookup_insert. case_decide as Hj; [|by apply Hs]. subst j. intros [= <-]. simpl. by apply Hs.
  - rewrite lookup_insert. case_decide; [done|by apply Hs].
  - rewrite lookup_insert. case_decide as Hj.
    + intros [= <-]. exists ev. simpl. split_and!; [done| |done]. exists raw. subst j. by rewrite Es, lookup_insert_eq.
    + intros H0. destruct (sim_event _ _ Hs _ _ H0) as (ev0 & H1 & (r0 & H2 & H3) & H4). exists ev0. split_and!; [done| |done].
      exists r0. split; [|done]. rewrite Es, lookup_insert_ne; [done|]. intros H. by apply eventKey_inj in H.
Qed.

(** An event that is not final, on a ticket that has had no final one, leaves the pools alone. *)
Lemma sim_announce q q' ks ks' id e ev raw :
  sim q ks → q_tickets q !! id = Some e → e_finished e = false → isTerminal ev = false → unmarshalEvent raw = Ok ev →
  q_tickets q' = <[id := mkEntry (e_ticket e) (Some ev) false (e_claimed e)]> (q_tickets q) → queue_inv q' →
  ks_str ks' = <[eventKey id := raw]> (ks_str ks) → ks_zset ks' = ks_zset ks → sim q' ks'.
Proof.
  intros Hs He Hf Hev Hr Eq Hinv Es Ez. eapply (sim_update q q' ks ks' id e ev raw); try done; [by rewrite Hev|].
  intros mode m. unfold zset. rewrite Ez. fold (zset ks (pendingKey mode)). rewrite (sim_pool _ _ Hs). rewrite Eq. split.
  - intros (j & e0 & -> & H0 & Hp). destruct (decide (j = id)) as [->|Hj].
    + exists id, (mkEntry (e_ticket e) (Some ev) false (e_claimed e)). rewrite lookup_insert_eq. split_and!; [done..|]. simplify_eq.
      revert Hp. unfold isPendingEntry. cbn. by rewrite Hf.
    + exists j, e0. by rewrite lookup_insert_ne.
  - intros (j & e0 & -> & H0 & Hp). rewrite lookup_insert in H0. case_decide as Hj; [|by exists j, e0]. simplify_eq.
    exists j, e. split_and!; [done..|]. revert Hp. unfold isPendingEntry. cbn. by rewrite Hf.
Qed.

(** Replacing the latest event of a known ticket by a final one takes it out of every pool. *)
Lemma sim_finish q q' ks ks' id e ev raw :
  sim q ks → q_tickets q !! id = Some e → isTerminal ev = true → unmarshalEvent raw = Ok ev →
  q_tickets q' = <[id := mkEntry (e_ticket e) (Some ev) true (e_claimed e)]> (q_tickets q) → queue_inv q' →
  ks_str ks' = <[eventKey id := raw]> (ks_str ks) →
  ks_zset ks' = alter (delete (uuid_String id)) (pendingKey (t_GameMode (e_ticket e))) (ks_zset ks) →
  sim q' ks'.
Proof.
  intros Hs He Hev Hr Eq Hinv Es Ez. eapply (sim_update q q' ks ks' id e ev raw); try done; [by rewrite Hev|].
  intros mode m. rewrite Eq.
  replace (zset ks' (pendingKey mode)) with
      (zset (set_zset (alter (delete (uuid_String id)) (pendingKey (t_GameMode (e_ticket e)))) ks) (pendingKey mode))
      by (unfold zset, set_zset; simpl; by rewrite Ez).
  rewrite zset_alter. split.
  + case_decide as Hd; [by intros [? ?]|]. rewrite (sim_pool _ _ Hs). intros (j & e0 & -> & H0 & Hp).
    exists j, e0. split_and!; [done| |done]. rewrite lookup_insert_ne; [done|]. intros <-. apply Hd.
    simplify_eq. unfold isPendingEntry in Hp. destruct (_ || _); [done|]. case_bool_decide as Hm; [done|].
    by subst.
  + intros (j & e0 & -> & H0 & Hp). rewrite lookup_insert in H0. case_decide as Hj; [by simplify_eq|].
    rewrite decide_False by (intros [_ H]; by apply uuid_String_inj in H). rewrite (sim_pool _ _ Hs). by exists j, e0.
Qed.

(** ** Each call *)

Definition simulated (c : shared_call) (q : InMem) (ks : keyspace json) : Prop :=
  spec (valkey_call c) ks (λ r ks', answers_match (result (mem_call c q)) r ∧ sim (state (mem_call c q)) ks').

Lemma enqueue_sim t q ks : sim q ks → admissible q (SEnqueue t) → simulated (SEnqueue t) q ks.
Proof.
  intros Hs [Hc He]. unfold simulated. cbn [valkey_call mem_call]. rewrite M_bind_eval.
  destruct (enqueue_safe t q (sim_inv _ _ Hs)) as [Hinv _]. cbn [run_op] in Hinv. rewrite M_bind_eval in Hinv.
  unfold MatchQueue.Enqueue in *.
  destruct (ticket_document t) as [(_ & raw & Em & Eu)|[? _]]; [|congruence]. rewrite kept_clean_ticket in Eu by done.
  unfold ValkeyQueue.Enqueue. rewrite Em. repeat spec_step.
  destruct (q_tickets q !! t_ID t) as [e|] eqn:E.
  { destruct (sim_ticket _ _ Hs _ _ E) as (_ & raw' & -> & _). simpl. rewrite ?IsValkeyNil_nil. repeat spec_step. by split. }
  rewrite (sim_none _ _ Hs _ E). simpl. repeat spec_step.
  assert (Hd : queuedEvent t (Z.of_nat (size (zset (set_str <[ticketKey (t_ID t):=raw]> ks) (pendingKey (t_GameMode t)))))
    = EventQueued (t_EnqueuedAt t) (i32 (countPendingLocked (t_GameMode t) q + 1))).
  { unfold queuedEvent. by rewrite <- (zset_size _ q ks Hs). }
  rewrite Hd. assert (Hev : encodable_event (EventQueued (t_EnqueuedAt t) (i32 (countPendingLocked (t_GameMode t) q + 1))) = true).
  { simpl. unfold encodable in He. by apply andb_true_iff in He as [_ ?]. }
  apply setEvent_spec; [apply i32_idem|done|]. intros raw' Er'. apply spec_bind.
  apply xaddEvent_spec; [done|]. intros ks' [E1 E2]. repeat spec_step. split; [done|].
  eapply (sim_insert q ks _ t _ raw raw'); [done..| | |done]; simpl.
  - by rewrite E1.
  - unfold zset. by rewrite E2.
Qed.

Lemma isTerminal_kept ev : isTerminal (kept_event ev) = isTerminal ev.
Proof. by destruct ev. Qed.

(** A final event on a known ticket, in both queues; the shared one keeps what JSON makes of it. *)
Lemma publish_kept_sim id ev e q ks (Q : res unit → keyspace json → Prop) :
  sim q ks → q_tickets q !! id = Some e → encodable_event ev = true → isTerminal ev = true →
  (∀ ks', result (publishLocked id (kept_event ev) q) = Ok tt → sim (state (publishLocked id (kept_event ev) q)) ks' → Q (Ok tt) ks') →
  spec (publish (e_ticket e) ev) ks Q.
Proof.
  intros Hs He Henc Hev HQ. destruct (sim_ticket _ _ Hs _ _ He) as [Hid _].
  pose proof (publishLocked_inv id (kept_event ev) e q (sim_inv _ _ Hs) He) as Hinv.
  destruct (publishLocked_spec id (kept_event ev) e q (sim_inv _ _ Hs) He) as (cs & Ep & _). rewrite Ep in Hinv, HQ.
  unfold publish. rewrite isTerminal_eq, Hev. spec_step. apply setEvent_kept; [done|]. intros raw Hr. cbn [prog_when].
  repeat spec_step. apply xaddEvent_spec; [done|]. intros ks' [E1 E2]. apply HQ; [done|].
  eapply (sim_finish q _ ks ks' id e (kept_event ev) raw); try done; simpl.
  - by rewrite isTerminal_kept.
  - by rewrite isTerminal_kept, Hev, orb_true_r.
  - by rewrite E1, Hid.
  - by rewrite E2, Hid.
Qed.

Lemma publish_sim id ev e q ks (Q : res unit → keyspace json → Prop) :
  sim q ks → q_tickets q !! id = Some e → clean_event ev → encodable_event ev = true → (isTerminal ev = true ∨ e_finished e = false) →
  (∀ ks', result (publishLocked id ev q) = Ok tt → sim (state (publishLocked id ev q)) ks' → Q (Ok tt) ks') →
  spec (publish (e_ticket e) ev) ks Q.
Proof.
  intros Hs He Hc Henc Hev HQ. destruct (isTerminal ev) eqn:Et.
  { apply (publish_kept_sim id ev e q); [done..|]. by rewrite kept_clean_event. }
  destruct Hev as [?|Hf]; [done|]. destruct (sim_ticket _ _ Hs _ _ He) as [Hid _].
  pose proof (publishLocked_inv id ev e q (sim_inv _ _ Hs) He) as Hinv.
  destruct (publishLocked_spec id ev e q (sim_inv _ _ Hs) He) as (cs & Ep & _). rewrite Ep in Hinv, HQ.
  unfold publish. rewrite isTerminal_eq, Et. spec_step. apply setEvent_spec; [done..|]. intros raw Hr. cbn [prog_when].
  repeat spec_step. apply xaddEvent_spec; [done|]. intros ks' [E1 E2]. apply HQ; [done|].
  eapply (sim_announce q _ ks ks' id e ev raw); try done; simpl.
  - by rewrite Hf, Et.
  - by rewrite E1, Hid.
Qed.

Lemma cancel_sim id q ks : sim q ks → simulated (SCancel id) q ks.
Proof.
  intros Hs. unfold simulated. cbn [valkey_call mem_call]. rewrite M_bind_eval. unfold MatchQueue.Cancel, ValkeyQueue.Cancel.
  repeat spec_step. apply (getTicket_spec q); [done|]. destruct (q_tickets q !! id) as [e|] eqn:E; [|by split].
  spec_step. apply (latestEvent_spec q _ _ e); [done..|]. destruct (sim_event _ _ Hs _ _ E) as (ev & -> & _ & Hf).
  rewrite isTerminal_eq, <- Hf. destruct (e_finished e); [repeat spec_step; by split|].
  apply (publish_sim id _ e q); [done..|by left|]. intros ks' Ep Hs'. unfold result, state in *.
  destruct (publishLocked id _ q) as [r q']. simpl in *. subst r. spec_step. by split.
Qed.

Lemma publish_call_sim id ev q ks : sim q ks → admissible q (SPublish id ev) → simulated (SPublish id ev) q ks.
Proof.
  intros Hs (Hc & Henc & Hev). unfold simulated. cbn [valkey_call mem_call]. rewrite M_bind_eval.
  unfold MatchQueue.Publish, ValkeyQueue.Publish.
  repeat spec_step. apply (getTicket_spec q); [done|]. destruct (q_tickets q !! id) as [e|] eqn:E; [|by split].
  apply (publish_sim id _ e q); [done..|destruct Hev as [?|Hf]; [by left|right; by apply Hf]|]. intros ks' Ep Hs'. unfold result, state in *.
  destruct (publishLocked id _ q) as [r q']. simpl in *. subst r. spec_step. by split.
Qed.

Lemma claimable_in_pool q ks mode ids :
  sim q ks → admissible q (SClaim mode ids) →
  forallb (in_zset ks (pendingKey mode)) (uuid_String <$> ids) = forallb (claimable q) ids.
Proof.
  intros Hs Ha. assert (H : ∀ id, id ∈ ids → in_zset ks (pendingKey mode) (uuid_String id) = claimable q id).
  { intros id Hid. apply eq_true_iff_eq. unfold in_zset. rewrite bool_decide_eq_true, (sim_pool _ _ Hs), claimable_true.
    unfold isPendingEntry. split.
    - intros (j & e & Hj & He & Hp). apply uuid_String_inj in Hj as <-. exists e. split; [done|].
      destruct (e_finished e), (e_claimed e); done.
    - intros (e & He & Hf & Hcl). exists id, e. rewrite Hf, Hcl. simpl.
      by rewrite bool_decide_eq_false_2 by (intros Hm; by apply Hm, (Ha id)). }
  clear Ha. induction ids as [|id ids IH]; [done|]. csimpl. rewrite H by left. f_equal. apply IH. intros j Hj. apply H. by right.
Qed.

Lemma claim_sim mode ids q ks : sim q ks → admissible q (SClaim mode ids) → simulated (SClaim mode ids) q ks.
Proof.
  intros Hs Ha. unfold simulated. cbn [valkey_call mem_call]. rewrite M_bind_eval. unfold MatchQueue.Claim, ValkeyQueue.Claim.
  spec_step. spec_step. apply spec_call. intros newID _. rewrite claimScript_answer, (claimable_in_pool q ks mode ids) by done.
  destruct (forallb (claimable q) ids) eqn:Ec; simpl; repeat (spec_step; simpl); split; [done| |done|done].
  pose proof (claim_safe mode ids q (sim_inv _ _ Hs)) as [Hinv _]. cbn [run_op] in Hinv.
  rewrite M_bind_eval in Hinv. unfold MatchQueue.Claim in Hinv. rewrite Ec in Hinv. simpl in Hinv.
  destruct Hs as [H1 H2 H3 H4 H5]. split; rewrite ?zrem_all_str; simpl; [done|intros j e|intros j|intros j e|intros m' m].
  - rewrite markClaimed_lookup. case_decide as Hj; [|by apply H2]. destruct (q_tickets q !! j) as [e0|] eqn:E0; [|done].
    intros [= <-]. simpl. by apply H2.
  - rewrite markClaimed_lookup. case_decide as Hj; [|by apply H3]. intros H. apply H3. by destruct (q_tickets q !! j).
  - rewrite markClaimed_lookup. case_decide as Hj; [|by apply H4]. destruct (q_tickets q !! j) as [e0|] eqn:E0; [|done].
    intros [= <-]. simpl. by apply H4.
  - rewrite zrem_all_zset. split.
    + case_decide as Hd; [by intros [? ?]|]. rewrite H5. intros (j & e & -> & He & Hp). exists j, e. split_and!; [done| |done].
      rewrite markClaimed_lookup, decide_False; [done|]. intros Hj. apply Hd. split; [|by apply list_elem_of_fmap_2].
      f_equal. pose proof (Ha _ _ Hj He) as Hm. unfold isPendingEntry in Hp.
      destruct (_ || _); [done|]. case_bool_decide; [done|]. congruence.
    + intros (j & e & -> & He & Hp). rewrite markClaimed_lookup in He. case_decide as Hj.
      { destruct (q_tickets q !! j); [|done]. injection He as <-. unfold isPendingEntry in Hp. simpl in Hp. by rewrite orb_true_r in Hp. }
      rewrite decide_False; [apply H5; by exists j, e|]. intros [_ Hin].
      apply list_elem_of_fmap in Hin as (j' & Hj' & Hin). apply uuid_String_inj in Hj' as ->. done.
Qed.

Lemma pendingTickets_spec l q ks (Q : res (list Ticket) → keyspace json → Prop) :
  sim q ks → Q (Ok (omap (λ id, e_ticket <$> q_tickets q !! id) l)) ks →
  spec (pendingTickets (uuid_String <$> l)) ks Q.
Proof.
  intros Hs. revert Q. induction l as [|id l IH]; intros Q HQ; [by apply spec_ret|].
  cbn [fmap list_fmap pendingTickets]. rewrite uuid_parse_string. spec_step. apply spec_attempt, (getTicket_spec q); [done|].
  cbn [omap list_omap] in HQ. destruct (q_tickets q !! id) as [e|]; simpl in HQ.
  - spec_step. apply IH. by spec_step.
  - by apply IH.
Qed.

Lemma pending_tickets_of q mode l :
  (∀ p, p ∈ l → q_tickets q !! p.1 = Some p.2) →
  omap (λ id, e_ticket <$> q_tickets q !! id) (filter (λ p, isPendingEntry mode p.2 = true) l).*1 =
  e_ticket <$> filter (λ e, isPendingEntry mode e = true) (snd <$> l).
Proof.
  intros Hl. induction l as [|[id e] l IH]; [done|]. csimpl. rewrite !filter_cons. simpl.
  assert (He : q_tickets q !! id = Some e) by (apply (Hl (id, e)); left).
  destruct (decide (isPendingEntry mode e = true)); csimpl; [rewrite He; simpl; f_equal|]; apply IH; intros p Hp; apply Hl; by right.
Qed.

Lemma pending_sim mode q ks : sim q ks → simulated (SPending mode) q ks.
Proof.
  intros Hs. unfold simulated. cbn [valkey_call mem_call]. rewrite M_bind_eval.
  destruct (Pending_perm mode q) as (out & -> & Hout). unfold ValkeyQueue.Pending. repeat spec_step.
  assert (Hp : uuid_String <$> pending_ids mode q ≡ₚ (isort member_before (map_to_list (zset ks (pendingKey mode)))).*1).
  { rewrite <- (zset_members mode q ks Hs). apply fmap_Permutation. symmetry. apply isort_perm. }
  destruct (Permutation_map_inv _ _ (symmetry Hp)) as (l & -> & Hl).
  apply (pendingTickets_spec l q); [done|]. spec_step. split; [|done]. simpl.
  rewrite Hout, <- (pending_tickets_of q mode (map_to_list (q_tickets q))) by (intros [i e] Hi; by apply elem_of_map_to_list).
  by apply omap_Permutation.
Qed.

Lemma depth_sim mode q ks : sim q ks → simulated (SDepth mode) q ks.
Proof.
  intros Hs. unfold simulated. cbn [valkey_call mem_call]. rewrite M_bind_eval. unfold MatchQueue.Depth, ValkeyQueue.Depth.
  repeat (spec_step; simpl). split; [|done]. simpl. by rewrite (zset_size _ q).
Qed.

(** A subscription reads the ticket and its stream, and changes neither queue's tickets. *)
Lemma tailStream_spec reads tid last ks (Q : res (list Event) → keyspace json → Prop) :
  (∀ evs, Q (Ok evs) ks) → spec (tailStream reads tid last) ks Q.
Proof.
  revert last Q. induction reads as [|n IH]; intros last Q HQ; [by apply spec_ret|]. cbn [tailStream]. spec_step. spec_step.
  destruct (AsXRead _) as [entries|e]; [|case_match; [by apply IH|by apply spec_ret]].
  destruct (forward entries last) as [[evs l] []]; [by apply spec_ret|]. spec_step. apply IH. intros rest. by apply spec_ret.
Qed.

Lemma subscribe_sim id reads q ks : sim q ks → simulated (SSubscribe id reads) q ks.
Proof.
  intros Hs. unfold simulated. cbn [valkey_call mem_call]. rewrite M_bind_eval.
  pose proof (subscribe_safe id q (sim_inv _ _ Hs)) as [Hinv _]. unfold run_op, state in Hinv. rewrite M_bind_eval in Hinv.
  unfold MatchQueue.Subscribe, ValkeyQueue.Subscribe in *. repeat spec_step. apply (getTicket_spec q); [done|].
  destruct (q_tickets q !! id) as [e|] eqn:E; [|by split]. apply tailStream_spec. intros evs. spec_step.
  destruct Hs as [H1 H2 H3 H4 H5]. destruct (e_finished e); cbn in *; (split; [done|]); by split.
Qed.

Lemma call_sim c q ks : sim q ks → admissible q c → simulated c q ks.
Proof.
  destruct c; [apply enqueue_sim|intros ? _; by apply cancel_sim|intros ? _; by apply subscribe_sim|apply publish_call_sim|apply claim_sim
    |intros ? _; by apply pending_sim|intros ? _; by apply depth_sim].
Qed.

(** ** Whole runs *)

Fixpoint mem_run (calls : list shared_call) (q : InMem) : list (res shared_answer) :=
  match calls with
  | [] => []
  | c :: calls' => result (mem_call c q) :: mem_run calls' (state (mem_call c q))
  end.

Fixpoint valkey_run (calls : list shared_call) (s : S) : list (res shared_answer) :=
  match calls with
  | [] => []
  | c :: calls' => (run (valkey_call c) s).1 :: valkey_run calls' (run (valkey_call c) s).2
  end.

Fixpoint all_admissible (calls : list shared_call) (q : InMem) : Prop :=
  match calls with
  | [] => True
  | c :: calls' => admissible q c ∧ all_admissible calls' (state (mem_call c q))
  end.

Lemma runs_match calls q s : sim q (view s) → all_admissible calls q →
  Forall2 answers_match (mem_run calls q) (valkey_run calls s).
Proof.
  revert q s. induction calls as [|c calls IH]; intros q s Hs; [by constructor|]. intros [Hc Hrest].
  destruct (call_sim c q (view s) Hs Hc s eq_refl) as [Ha Hs']. constructor; [exact Ha|]. by apply IH.
Qed.

(** C4: call by call the shared queue answers as the in-memory queue does. For any sequence of the
    calls [Enqueue], [Cancel], [Publish], [Claim], [Pending], [Depth] and [Subscribe], made one
    after the other, an empty Valkey server that answers every request and whose keys do not
    lapse gives the answers of the in-memory queue: the same verdicts and errors, the same
    depths, the same pending tickets (up to their order), and subscriptions accepted for the
    same tickets (what they then deliver is not compared). The tickets and events of the calls
    are ones JSON carries unchanged, a ticket that has had a final event is sent no other kind,
    and tickets are claimed in their own mode. *)
Theorem valkey_refines_inmem calls s :
  view s = empty_keyspace → all_admissible calls NewInMem →
  Forall2 answers_match (mem_run calls NewInMem) (valkey_run calls s).
Proof. intros Hv. apply runs_match. rewrite Hv. apply sim_init. Qed.
End refinement.

(** ** Evaluation *)

Definition demo_calls : list shared_call :=
  let t b mode := demo_ticket b mode (Some (f64_of_Z 1500)) 1700000000000000000 in
  [SEnqueue (t x01 "duel"); SEnqueue (t x02 "duel"); SEnqueue (t x03 "duel"); SEnqueue (t x01 "duel"); SDepth "duel";
   SPublish (sample_uuid x02) (EventQueued (5 * Second) 2); SSubscribe (sample_uuid x02) 3;
   SCancel (sample_uuid x03); SClaim "duel" [sample_uuid x01; sample_uuid x02]; SClaim "duel" [sample_uuid x02];
   SPublish (sample_uuid x01) (EventFailed "allocator_failed" "no rooms"); SPending "duel"; SCancel (sample_uuid x09); SSubscribe (sample_uuid x09) 3].

Lemma demo_clean b : clean_ticket (demo_ticket b "duel" (Some (f64_of_Z 1500)) 1700000000000000000).
Proof.
  split_and!; [reflexivity|by intros r [= <-]|]. apply map_Forall_singleton. split; reflexivity.
Qed.

Lemma demo_admissible : all_admissible (R := range_rev) demo_calls NewInMem.
Proof.
  unfold demo_calls. cbn [all_admissible].
  repeat (split; [first [exact I | split; [apply demo_clean|reflexivity] | idtac]|]); try exact I.
  all: try reflexivity.
  all: first [left; reflexivity | split; reflexivity | idtac].
  - right. intros e He. vm_compute in He. by injection He as <-.
  - intros id e Hid He. repeat (apply elem_of_cons in Hid as [->|Hid]; [vm_compute in He; by injection He as <-|]). by apply elem_of_nil in Hid.
  - intros id e Hid He. repeat (apply elem_of_cons in Hid as [->|Hid]; [vm_compute in He; by injection He as <-|]). by apply elem_of_nil in Hid.
Qed.

Lemma valkey_refines_inmem_witness :
  Forall2 answers_match (mem_run (R := range_rev) demo_calls NewInMem) (valkey_run (U := hex_codec) demo_calls empty_keyspace).
Proof.
  apply (valkey_refines_inmem (U := hex_codec) (R := range_rev) (RL := range_rev_law) demo_calls empty_keyspace); [reflexivity|exact demo_admissible].
Defined.

(** Both queues answer this run as expected. *)
Example demo_answers :
  valkey_run (U := hex_codec) demo_calls empty_keyspace =
  [Ok Done; Ok Done; Ok Done; Ok Done; Ok (Size 3); Ok Done; Ok Done; Ok Done; Ok (Claimed true); Ok (Claimed false); Ok Done; Ok (Tickets []); Err ErrTicketNotFound; Err ErrTicketNotFound].
Proof. vm_compute. reflexivity. Qed.
