(* ===== verification/QueueStream.v ===== *)
(** * What a subscriber of the shared queue receives

    The goroutine of [ValkeyQueue.Subscribe] reads its ticket's stream in batches while publishers
    append to it.  [observe] runs a program against the data each of its requests finds, or the
    error it gets. *)

From S2P Require Import Prelude GoBase GoStrings Json Valkey Match ValkeyQueue.

(** The [i]-th request finds the [i]-th data ([None]: the connection fails). *)
Fixpoint observe {A} (p : prog json A) (ws : list (option (keyspace json))) : option (res A) :=
  match p with
  | Ret r => Some r
  | Call r k =>
      match ws with
      | [] => None
      | None :: ws' => observe (k (RErr (ErrText "connection lost"))) ws'
      | Some w :: ws' => observe (k (answer 1 r w).1) ws'
      end
  end.

(** The stream under [key] grows from [l] to [final] over the requests; [n] of them find it complete. *)
Inductive growing (key : string) (final : list (Z * json)) : list (Z * json) → list (option (keyspace json)) → nat → Prop :=
  | grow_end l : l `prefix_of` final → growing key final l [] 0
  | grow_lost l ws n : growing key final l ws n → growing key final l (None :: ws) n
  | grow_more l l' w ws n :
      stream w key = l ++ l' → growing key final (l ++ l') ws n → growing key final l (Some w :: ws) n
  | grow_full l w ws n :
      l `prefix_of` final → stream w key = final → growing key final final ws n → growing key final l (Some w :: ws) (S n).

Lemma growing_prefix key final l ws n : growing key final l ws n → l `prefix_of` final.
Proof.
  induction 1 as [l|l ws n _ IH|l l' w ws n _ _ IH|l w ws n H]; [done|done| |done].
  etrans; [|exact IH]. by apply prefix_app_r.
Qed.

Section subscriber.
Context {U : UuidCodec}.

(** The events of a stream, and those up to the first final one. *)
Definition events (l : list (Z * json)) : list Event :=
  omap (λ e, match unmarshalEvent e.2 with Ok ev => Some ev | Err _ => None end) l.

Fixpoint until_final (evs : list Event) : list Event :=
  match evs with
  | [] => []
  | ev :: evs' => if isTerminalEvent ev then [ev] else ev :: until_final evs'
  end.

Definition has_final (evs : list Event) : bool := existsb isTerminalEvent evs.

Lemma until_final_app a b : until_final (a ++ b) = if has_final a then until_final a else a ++ until_final b.
Proof.
  induction a as [|ev a IH]; [done|]. simpl. destruct (isTerminalEvent ev); [done|]. simpl. rewrite IH. by destruct (has_final a).
Qed.

Lemma until_final_none a : has_final a = false → until_final a = a.
Proof. intros H. pose proof (until_final_app a []) as E. by rewrite !app_nil_r, H in E. Qed.

Lemma events_app a b : events (a ++ b) = events a ++ events b.
Proof. apply omap_app. Qed.

Definition last_id (l : list (Z * json)) (lastID : Z) : Z := match last l with Some e => e.1 | None => lastID end.

Lemma forward_spec l lastID :
  (forward l lastID).1.1 = until_final (events l) ∧ (forward l lastID).2 = has_final (events l) ∧
  (has_final (events l) = false → (forward l lastID).1.2 = last_id l lastID).
Proof.
  revert lastID. induction l as [|[i raw] l IH]; intros lastID; [done|]. cbn [forward].
  assert (Hlast : last_id ((i, raw) :: l) lastID = last_id l i) by (unfold last_id; rewrite last_cons; by destruct (last l)).
  rewrite Hlast. unfold events. cbn [omap list_omap]. fold (events l). simpl.
  destruct (unmarshalEvent raw) as [ev|e]; [|apply IH]. cbn [until_final has_final existsb].
  destruct (isTerminalEvent ev); [done|]. destruct (IH i) as (H1 & H2 & H3).
  destruct (forward l i) as [[evs last] stop]. simpl in *. by rewrite H1, H2.
Qed.

Lemma filter_all {A} (P : A → Prop) `{∀ x, Decision (P x)} l : Forall P l → filter P l = l.
Proof. induction 1 as [|x l Hx _ IH]; [done|]. by rewrite filter_cons_True, IH. Qed.

Lemma filter_none {A} (P : A → Prop) `{∀ x, Decision (P x)} l : Forall (λ x, ~ P x) l → filter P l = [].
Proof. induction 1 as [|x l Hx _ IH]; [done|]. by rewrite filter_cons_False. Qed.

(** Entries come in the order of their ids. *)
Definition ids_increase (l : list (Z * json)) : Prop := StronglySorted (λ a b, a.1 < b.1) ((0, JInt 0) :: l).

Lemma ids_after c r : ids_increase (c ++ r) →
  filter (λ e, last_id c 0 < e.1) (c ++ r) = r ∧ Forall (λ e, e.1 ≤ last_id c 0) c.
Proof.
  unfold ids_increase. intros Hs.
  assert (Hc : Forall (λ e, e.1 ≤ last_id c 0) c ∧ Forall (λ e, last_id c 0 < e.1) r).
  { destruct c as [|e0 c0 _] using rev_ind; simpl in *.
    - split; [done|]. apply StronglySorted_inv in Hs as [_ H]. exact H.
    - unfold last_id. rewrite last_snoc. apply StronglySorted_inv in Hs as [Hs _]. split.
      + apply list.Forall_app. split; [|by repeat constructor].
        clear -Hs. induction c0 as [|a c0 IH]; [done|]. simpl in Hs. apply StronglySorted_inv in Hs as [Hs Ha].
        constructor; [|by apply IH]. rewrite list.Forall_forall in Ha. apply Z.lt_le_incl, Ha.
        apply elem_of_app; left. apply elem_of_app; right. left.
      + clear -Hs. induction c0 as [|a c0 IH]; simpl in Hs; apply StronglySorted_inv in Hs as [Hs Ha]; [done|by apply IH]. }
  destruct Hc as [Hc Hr]. split; [|done]. rewrite filter_app, filter_none, filter_all; [done|done|].
  eapply list.Forall_impl; [exact Hc|]. simpl. intros e. lia.
Qed.

(** One batch after the entries [c]: what XREAD answers. *)
Lemma read_batch c r w key :
  ids_increase (c ++ r) → stream w key = c ++ r →
  (answer 1 (Do (XREAD key 64 (last_id c 0))) w).1 = match take 64 r with [] => RNil | entries => RStream entries end.
Proof. intros Hi Hs. simpl. rewrite Hs. by destruct (ids_after c r Hi) as [-> _]. Qed.

Lemma ids_increase_prefix l l' : ids_increase l' → l `prefix_of` l' → ids_increase l.
Proof.
  intros H [k ->]. unfold ids_increase in *. revert H. change ((0, JInt 0) :: l ++ k) with (((0, JInt 0) :: l) ++ k).
  generalize ((0, JInt 0) :: l). clear l. intros l. induction l as [|e l IH]; [constructor|].
  simpl. intros [Hs He]%StronglySorted_inv. constructor; [by apply IH|]. by apply list.Forall_app in He as [? _].
Qed.

Lemma observe_map {A B} (g : A → B) (p : prog json A) ws :
  observe (a ← p; mret (g a)) ws = match observe p ws with
                                   | Some (Ok a) => Some (Ok (g a))
                                   | Some (Err e) => Some (Err e)
                                   | None => None
                                   end.
Proof.
  revert ws. induction p as [[a|e]|r k IH]; intros ws; [done..|]. cbn. destruct ws as [|[w|] ws]; [done|apply IH..].
Qed.

(** One read of the loop. *)
Lemma tail_step reads tid c r w ws :
  ids_increase (c ++ r) → stream w (streamKey tid) = c ++ r →
  let chunk := take 64 r in
  observe (tailStream (S reads) tid (last_id c 0)) (Some w :: ws) =
    if has_final (events chunk) then Some (Ok (until_final (events chunk)))
    else match observe (tailStream reads tid (last_id (c ++ chunk) 0)) ws with
         | Some (Ok rest) => Some (Ok (events chunk ++ rest))
         | o => o
         end.
Proof.
  intros Hi Hs chunk. pose proof (read_batch c r w _ Hi Hs) as Hread. fold chunk in Hread.
  cbn [tailStream mbind prog_mbind prog_bind send observe]. rewrite Hread. destruct chunk as [|e chunk'] eqn:Ec.
  { simpl. rewrite app_nil_r. rewrite ?IsValkeyNil_nil.
    by destruct (observe (tailStream reads tid (last_id c 0)) ws) as [[]|]. }
  rewrite <- Ec. assert (Hl : last_id (c ++ chunk) 0 = last_id chunk (last_id c 0)).
  { unfold last_id. rewrite last_app, Ec. rewrite last_cons. by destruct (last chunk'). }
  destruct (forward_spec chunk (last_id c 0)) as (H1 & H2 & H3).
  cbn [AsXRead].
  destruct (forward chunk (last_id c 0)) as [[evs last] stop]. simpl in H1, H2, H3. subst evs stop.
  destruct (has_final (events chunk)) eqn:Ef; [done|]. rewrite H3, Hl, until_final_none by done. apply observe_map.
Qed.

(** From the entries [c] on, the goroutine sends a prefix of what it should, and all of it when no
    request failed and enough requests found the whole stream. *)
Definition delivers (tid : uuid) (c final : list (Z * json)) (ws : list (option (keyspace json))) (n : nat) : Prop :=
  ∃ evs, observe (tailStream (length ws) tid (last_id c 0)) ws = Some (Ok evs) ∧
    ∀ r, final = c ++ r → evs `prefix_of` until_final (events r) ∧
      (None ∉ ws → (length r ≤ n)%nat → evs = until_final (events r)).

(** A read that found [c ++ r], which has consumed the batch [take 64 r]. *)
Lemma delivers_step tid c r final w ws n n' :
  stream w (streamKey tid) = c ++ r → ids_increase final → c ++ r `prefix_of` final →
  delivers tid (c ++ take 64 r) final ws n →
  (∀ r', final = (c ++ take 64 r) ++ r' → (length (take 64 r ++ r') ≤ n')%nat → (length r' ≤ n)%nat) →
  delivers tid c final (Some w :: ws) n'.
Proof.
  intros Hw Hi Hp (evs & He & Hr) Hn. unfold delivers. cbn [length].
  rewrite (tail_step _ _ c r w ws) by (done || by eapply ids_increase_prefix).
  assert (Hsplit : ∀ rr, final = c ++ rr → ∃ r', rr = take 64 r ++ r').
  { intros rr Err. destruct Hp as [k Ek]. rewrite Err, <- app_assoc in Ek. apply app_inv_head in Ek. exists (drop 64 r ++ k).
    by rewrite Ek, app_assoc, take_drop. }
  destruct (has_final (events (take 64 r))) eqn:Ef.
  - eexists. split; [done|]. intros rr Err. destruct (Hsplit _ Err) as [r' ->]. by rewrite events_app, until_final_app, Ef.
  - rewrite He. eexists. split; [done|]. intros rr Err. destruct (Hsplit _ Err) as [r' ->].
    rewrite app_assoc in Err. destruct (Hr r' Err) as [H1 H2]. rewrite events_app, until_final_app, Ef. split.
    + by apply prefix_app.
    + intros Hno Hlen. f_equal. apply H2; [intros H; apply Hno; by right|]. by apply Hn.
Qed.

Lemma tail_log tid l ws n final :
  growing (streamKey tid) final l ws n → ids_increase final → ∀ c, c `prefix_of` l → delivers tid c final ws n.
Proof.
  intros Hg Hi. induction Hg as [l Hl|l ws n Hg IH|l l' w ws n Hw Hg IH|l w ws n Hl Hw Hg IH]; intros c Hc.
  - exists []. split; [done|]. intros r ->. split; [apply prefix_nil|]. intros _ Hr. by destruct r; [|simpl in Hr; lia].
  - exists []. split; [done|]. intros r _. split; [apply prefix_nil|]. intros H. destruct H. left.
  - destruct Hc as [k ->]. rewrite <- app_assoc in Hw, IH. pose proof (growing_prefix _ _ _ _ _ Hg) as Hp. rewrite <- app_assoc in Hp.
    eapply delivers_step; [done..| |].
    + apply IH. apply prefix_app. exists (drop 64 (k ++ l')). by rewrite take_drop.
    + intros r' _. rewrite length_app. lia.
  - assert (Hcf : c `prefix_of` final) by (by etrans). destruct Hcf as [k Ek]. rewrite Ek in Hw.
    eapply (delivers_step tid c k); [done|done|by rewrite <- Ek| |].
    + apply IH. rewrite Ek. apply prefix_app. exists (drop 64 k). by rewrite take_drop.
    + intros r' Er Hlen. rewrite length_app in Hlen. destruct k as [|e k]; simpl in *; [|lia].
      rewrite !app_nil_r in *. assert (r' = []) as -> by (apply (app_inv_head c); by rewrite <- Er, app_nil_r). simpl. lia.
Qed.

(** C34: a subscriber sees its ticket's history.  Whatever publishers append between its reads, the
    events it receives are, in order and without gap or repetition, a prefix of the events in the
    stream up to the first final one; and if no read fails, it has received all of them once as
    many reads found the complete stream as it has entries. *)
Theorem subscriber_sees_history tid ws n final :
  growing (streamKey tid) final [] ws n → ids_increase final →
  ∃ evs, observe (tailStream (length ws) tid 0) ws = Some (Ok evs) ∧
    evs `prefix_of` until_final (events final) ∧
    (None ∉ ws → (length final ≤ n)%nat → evs = until_final (events final)).
Proof.
  intros Hg Hi. destruct (tail_log tid [] ws n final Hg Hi [] (prefix_nil _)) as (evs & He & Hr).
  exists evs. split; [exact He|]. by apply Hr.
Qed.
End subscriber.

(** ** Evaluation *)

Definition demo_entry (i : Z) (ev : Event) : Z * json :=
  (i, match marshalEvent (U := hex_codec) ev with Ok j => j | Err _ => JInt 0 end).

Definition demo_history : list (Z * json) :=
  [demo_entry 5 (EventQueued 1700000000000000000 1); demo_entry 7 (EventFailed "cancelled" "bye"); demo_entry 9 (EventFailed "late" "")].

Definition demo_world (l : list (Z * json)) : keyspace json :=
  mkKeyspace ∅ ∅ {[streamKey (U := hex_codec) (sample_uuid x01) := l]}.

Lemma subscriber_sees_history_witness :
  ∃ evs, observe (tailStream (U := hex_codec) 5 (sample_uuid x01) 0)
      [Some (demo_world (take 1 demo_history)); Some (demo_world (take 1 demo_history));
       Some (demo_world demo_history); Some (demo_world demo_history); Some (demo_world demo_history)] = Some (Ok evs) ∧
    evs = [EventQueued 1700000000000000000 1; EventFailed "cancelled" "bye"].
Proof.
  destruct (subscriber_sees_history (U := hex_codec) (sample_uuid x01)
    [Some (demo_world (take 1 demo_history)); Some (demo_world (take 1 demo_history));
     Some (demo_world demo_history); Some (demo_world demo_history); Some (demo_world demo_history)] 3 demo_history) as (evs & He & _ & Hall).
  - eapply (grow_more _ _ [] (take 1 demo_history)); [vm_compute; reflexivity|].
    eapply (grow_more _ _ _ []); [vm_compute; reflexivity|].
    repeat (apply grow_full; [eexists; reflexivity|vm_compute; reflexivity|]). apply grow_end. done.
  - repeat constructor.
  - exists evs. split; [exact He|]. rewrite Hall; [vm_compute; reflexivity| |simpl; lia].
    rewrite !not_elem_of_cons. repeat split; discriminate || apply not_elem_of_nil.
Defined.
