(* ===== verification/LeaderLock.v ===== *)
(** * Leader election over Valkey (internal/infra/leaderlock)

    A replica takes the lease with SET NX, renews it while [fn] runs, and releases it, each only if
    the lease is still its own.  [Run] is a program of requests; what its [select] waits for (a
    renewal tick, the end of [fn], the end of the context) is a list of events per term of office.
    Nothing fences the lease: the theorem below is exclusivity as long as the lease does not lapse. *)

From S2P Require Import Prelude GoBase Valkey.

Record LockConfig := mkLockConfig { lk_Key : string; lk_TTL : duration }.

(** [cfg.TTL <= 0] means fifteen seconds. *)
Definition withDefaultTTL (cfg : LockConfig) : LockConfig :=
  if lk_TTL cfg <=? 0 then mkLockConfig (lk_Key cfg) (15 * Second) else cfg.

(** [Duration.Milliseconds]. *)
Definition Milliseconds (d : duration) : Z := Z.quot d Millisecond.

(** ** The Lua scripts *)

Definition if_owner (key id : string) (c : cmd string) : script string :=
  SCall (GET key) (λ r, match r with
                        | RBulk v => if bool_decide (v = id) then SCall c (λ r, SReturn r) else SReturn (RInt 0)
                        | _ => SReturn (RInt 0)
                        end).

Definition renewScript (key id : string) (ms : Z) : script string := if_owner key id (PEXPIRE key ms).
Definition releaseScript (key id : string) : script string := if_owner key id (DEL key).

(** ** The operations *)

Definition acquire (key id : string) (ttl : duration) : prog string bool :=
  rep ← send (SetNX key id (Milliseconds ttl));
  match reply_Error rep with
  | Err e => if IsValkeyNil e then mret false else ret_res (Err (Wrap "leaderlock: acquire" e))
  | Ok _ => mret true
  end.

Definition renew (key id : string) (ttl : duration) : prog string bool :=
  rep ← eval (renewScript key id (Milliseconds ttl));
  n ← ret_res (wrap_err "leaderlock: renew" (ToInt64 rep));
  mret (n =? 1).

(** The error is ignored. *)
Definition release (key id : string) : prog string unit :=
  _ ← eval (releaseScript key id);
  mret tt.

(** What the [select] of [leadAndHold] receives. *)
Inductive lead_event :=
  | CtxDone
  | FnDone (err : option error)
  | RenewTick.

(** Every exit but the second first cancels [fn] and waits for it.  An empty list is a leader that
    still waits. *)
Fixpoint leadAndHold (cfg : LockConfig) (id : string) (evs : list lead_event) : prog string (option error) :=
  match evs with
  | [] => mret None
  | CtxDone :: _ => mret None
  | FnDone err :: _ => mret err
  | RenewTick :: evs' =>
      ok ← attempt (renew (lk_Key cfg) id (lk_TTL cfg));
      match ok with
      | Ok true => leadAndHold cfg id evs'
      | Ok false => mret (Some (ErrText "leaderlock: lease no longer held"))
      | Err e => mret (Some e)
      end
  end.

(** The loop of [Run] over [terms]: one attempt to acquire each, and what happens while in office.
    [ctx.Err()] ends the loop when the list does. *)
Fixpoint runTerms (cfg : LockConfig) (id : string) (terms : list (list lead_event)) : prog string unit :=
  match terms with
  | [] => mret tt
  | evs :: terms' =>
      acquired ← attempt (acquire (lk_Key cfg) id (lk_TTL cfg));
      match acquired with
      | Ok true =>
          _ ← leadAndHold cfg id evs;
          _ ← release (lk_Key cfg) id;
          runTerms cfg id terms'
      | _ => runTerms cfg id terms'
      end
  end.

(** [id] is the fresh [uuid.NewString()] of the call. *)
Definition Run (cfg : LockConfig) (id : string) (terms : list (list lead_event)) : prog string unit :=
  runTerms (withDefaultTTL cfg) id terms.

(** ** The scripts touch only one's own lease *)

Lemma if_owner_answer newID key id c ks :
  answer newID (Eval (if_owner key id c)) ks =
  if bool_decide (ks_str ks !! key = Some id) then answer_cmd newID c ks else (RInt 0, ks).
Proof.
  unfold if_owner. simpl. destruct (ks_str ks !! key) as [v|]; simpl; [|done].
  destruct (decide (v = id)) as [->|Hne].
  - rewrite !bool_decide_eq_true_2 by done. simpl. by destruct (answer_cmd newID c ks).
  - by rewrite !bool_decide_eq_false_2 by congruence.
Qed.

(** *** Replicas

    Thread [i] runs with the instance id [inst i]. *)
Section exclusive.
Context (cfg : LockConfig) (inst : nat → string).
Context {S : Type} {Srv : Server string S} {L : ServerLaws string S}.

Let key := lk_Key (withDefaultTTL cfg).

(** Replica [i] runs [Run]. *)
Definition is_run (i : nat) (p : prog string unit) : Prop := ∃ terms, p = Run cfg (inst i) terms.

(** A leader's next request is a renewal or its release; anybody else contends, and is a leader
    only after an OK. *)
Fixpoint behaves (id : string) (office : bool) (p : prog string unit) : Prop :=
  match p with
  | Ret _ => True
  | Call r k =>
      if office then
        (∃ ms, r = Eval (renewScript key id ms) ∧ ∀ rep, behaves id true (k rep)) ∨
        (r = Eval (releaseScript key id) ∧ ∀ rep, behaves id false (k rep))
      else
        (∃ ms, r = Do (SetNX key id ms)) ∧ behaves id true (k ROK) ∧ behaves id false (k RNil) ∧ (∀ e, behaves id false (k (RErr e)))
  end.

(** In office: the next request is a renewal or the release of the lease. *)
Definition leading (id : string) (p : prog string unit) : Prop :=
  ∃ k, (∃ ms, p = Call (Eval (renewScript key id ms)) k) ∨ p = Call (Eval (releaseScript key id)) k.

Lemma lead_behaves id evs (k : option error → prog string unit) :
  (∀ e, behaves id true (k e)) → behaves id true (e ← leadAndHold (withDefaultTTL cfg) id evs; k e).
Proof.
  intros Hk. induction evs as [|[|err|] evs IH]; [apply Hk..|].
  left. eexists. split; [done|]. intros rep. destruct rep as [| |z| | | | |e]; try apply Hk.
  simpl. destruct (z =? 1); [apply IH|apply Hk].
Qed.

Lemma Run_behaves id terms : behaves id false (Run cfg id terms).
Proof.
  unfold Run. induction terms as [|evs terms IH]; [done|]. split; [by eexists|]. split_and!.
  - apply lead_behaves. intros _. right. split; [done|]. intros rep. exact IH.
  - simpl. exact IH.
  - intros e. simpl. destruct (IsValkeyNil e); exact IH.
Qed.

Lemma leading_office id office p : leading id p → behaves id office p → office = true.
Proof.
  intros [k [[ms ->]| ->]]; destruct office; [done| |done|]; intros [[ms' H] _]; discriminate H.
Qed.

(** At most one replica is in office, and the lease is its own. *)
Record officers (h : option nat) (n : net string S unit) : Prop := {
  of_role : ∀ i p, n_threads n !! i = Some p → behaves (inst i) (bool_decide (h = Some i)) p;
  of_lease : ∀ i, h = Some i → is_Some (n_threads n !! i) ∧ ks_str (view (n_store n)) !! key = Some (inst i);
}.

Lemma officers_step h h' i p q (s s' : S) ts gone :
  officers h (mkNet s ts gone) → ts !! i = Some p → (∀ j, j <> i → h' = Some j ↔ h = Some j) →
  behaves (inst i) (bool_decide (h' = Some i)) q →
  (∀ j, h' = Some j → ks_str (view s') !! key = Some (inst j)) →
  officers h' (mkNet s' (<[i := q]> ts) gone).
Proof.
  intros [Hr Hl] Hi Hh Hq Hk. split; simpl in *.
  - intros j p' [[<- <-]|[Hne Hj]]%lookup_insert_Some; [done|].
    rewrite (bool_decide_ext (h' = Some j) (h = Some j)) by (by apply Hh). by apply Hr.
  - intros j Hj. split; [|by apply Hk]. rewrite lookup_insert_is_Some. destruct (decide (i = j)) as [|Hne]; [by left|].
    right. split; [done|]. apply Hl. by apply Hh.
Qed.

Lemma officers_request h i r k s ts gone :
  officers h (mkNet s ts gone) → ts !! i = Some (Call r k) →
  ∃ h', officers h' (mkNet (serve r s).2 (<[i := k (serve r s).1]> ts) gone).
Proof.
  intros Ho Hi. pose proof (of_role _ _ Ho i _ Hi) as Hb. simpl in Hb. pose proof (of_lease _ _ Ho) as Hl. simpl in Hl.
  destruct (serve_law r s) as (newID & _ & Hs).
  case_bool_decide as Hoff; simpl in Hb.
  - destruct (Hl _ Hoff) as [_ Hlease]. destruct Hb as [(ms & -> & Hk)|(-> & Hk)].
    + exists h. eapply officers_step; [done..|by rewrite bool_decide_eq_true_2|].
      intros j Hj. assert (Hv : ks_str (view (serve (Eval (renewScript key (inst i) ms)) s).2) = ks_str (view s)).
      { unfold renewScript in *. rewrite if_owner_answer in Hs.
        destruct Hs as [E|(e & _ & [E|E])]; [apply (f_equal snd) in E|by rewrite E|]; simpl in E; rewrite E; by case_bool_decide. }
      rewrite Hv. by apply Hl.
    + exists None. eapply officers_step; [done|done| |by rewrite bool_decide_eq_false_2|done].
      intros j Hj. split; [done|]. intros H. congruence.
  - destruct Hb as ((ms & ->) & Hok & Hnil & Herr). simpl in Hs.
    destruct (ks_str (view s) !! key) as [x|] eqn:Ek.
    + assert (Hv : view (serve (Do (SetNX key (inst i) ms)) s).2 = view s) by (destruct Hs as [[= _ E]|(e & _ & [E|E])]; done).
      exists h. eapply officers_step; [done..| |intros j Hj; rewrite Hv, Ek; by apply Hl]. rewrite bool_decide_eq_false_2 by done.
      destruct Hs as [[= -> _]|(e & -> & _)]; [done|apply Herr].
    + assert (h = None) as -> by (destruct h as [j|]; [|done]; destruct (Hl j eq_refl); congruence).
      destruct Hs as [[= Er Ev]|(e & Er & _)]; rewrite Er.
      * exists (Some i). eapply officers_step; [done|done|intros j Hj; naive_solver|by rewrite bool_decide_eq_true_2|].
        intros j [= <-]. rewrite Ev. simpl. apply lookup_insert_eq.
      * exists None. eapply officers_step; [done..|by rewrite bool_decide_eq_false_2|done].
Qed.

Lemma officers_reachable n : net_reachable is_run n → key ∉ n_lapsed n → ∃ h, officers h n.
Proof.
  intros (s0 & Hv & Hr). assert (H0 : key ∉ n_lapsed (mkNet s0 ∅ ∅ : net string S unit) → ∃ h, officers h (mkNet s0 ∅ ∅ : net string S unit)).
  { intros _. exists None. split; simpl; [intros i p Hi; by rewrite lookup_empty in Hi|done]. }
  induction Hr as [|x y z Hxy Hr IH] in H0 |- *; [exact H0|]. apply IH. intros Hgone.
  destruct Hxy as [n i p Hi [terms ->]|n i r k Hi|n s' keys Hl]; simpl in Hgone.
  - destruct (H0 Hgone) as [h [Hb Hle]]. exists h. split; simpl.
    + intros j p [[<- <-]|[Hne Hj]]%lookup_insert_Some; [|by apply Hb].
      rewrite bool_decide_eq_false_2; [apply Run_behaves|]. intros ->. destruct (Hle i eq_refl) as [[? ?] _]. congruence.
    + intros j Hj. destruct (Hle j Hj) as [H1 H2]. split; [|done]. rewrite lookup_insert_is_Some.
      destruct (decide (i = j)); [by left|by right].
  - destruct (H0 Hgone) as [h Ho]. destruct n as [s ts gone]. by eapply officers_request.
  - destruct H0 as [h [Hb Hle]]; [set_solver|]. exists h. split; simpl; [done|].
    intros i Hi. destruct (Hle i Hi) as [H1 H2]. split; [done|]. destruct Hl as (L1 & _). by rewrite L1, decide_False by set_solver.
Qed.

(** there is one leader at a time.  However the requests of the replicas interleave and
    whatever replies are lost, as long as the lease has not lapsed, two replicas that hold office
    are the same, and the lease is in its name.  And even when it has lapsed, a renewal or a release
    leaves a lease that is in somebody else's name as it is. *)
Theorem one_leader n :
  net_reachable is_run n →
  (key ∉ n_lapsed n → ∀ i j p q, n_threads n !! i = Some p → n_threads n !! j = Some q →
     leading (inst i) p → leading (inst j) q → i = j ∧ ks_str (view (n_store n)) !! key = Some (inst i)) ∧
  (∀ newID ks id ms, ks_str ks !! key <> Some id →
     answer newID (Eval (renewScript key id ms)) ks = (RInt 0, ks) ∧ answer newID (Eval (releaseScript key id)) ks = (RInt 0, ks)).
Proof.
  intros Hr. split.
  2: { intros newID ks id ms Hne. unfold renewScript, releaseScript. by rewrite !if_owner_answer, bool_decide_eq_false_2. }
  intros Hgone i j p q Hi Hj Hp Hq.
  destruct (officers_reachable n Hr Hgone) as [h [Hb Hl]].
  pose proof (leading_office _ _ _ Hp (Hb _ _ Hi)) as Ei. pose proof (leading_office _ _ _ Hq (Hb _ _ Hj)) as Ej.
  apply bool_decide_eq_true in Ei, Ej. split; [congruence|]. by apply Hl.
Qed.
End exclusive.

(** ** Evaluation *)

Definition demo_inst (i : nat) : string := match i with O => "a" | _ => "b" end.
Definition demo_lock : LockConfig := mkLockConfig "vfx:matchmaker:leader" 0.
Definition demo_terms : list (list lead_event) := [[RenewTick; FnDone None]; [CtxDone]].

(** Replica 0 is in office after a renewal; replica 1 contends in vain. *)
Definition demo_election : list (net_move string unit) :=
  [Start 0 (Run demo_lock "a" demo_terms); Start 1 (Run demo_lock "b" demo_terms); Next 0; Next 1; Next 0].

Lemma one_leader_witness :
  ∃ p, n_threads (net_play demo_election) !! 0%nat = Some p ∧ leading demo_lock "a" p ∧
       ks_str (n_store (net_play demo_election)) !! "vfx:matchmaker:leader" = Some "a".
Proof.
  destruct (one_leader demo_lock demo_inst (net_play demo_election)) as [H _].
  { apply net_play_reachable. unfold starts_allowed, demo_election. repeat constructor; by exists demo_terms. }
  eexists. split; [reflexivity|].
  assert (Hl : leading demo_lock (demo_inst 0) (default (Ret (Ok tt)) (n_threads (net_play demo_election) !! 0%nat))).
  { eexists. right. reflexivity. }
  split; [exact Hl|]. refine (proj2 (H _ 0%nat 0%nat _ _ eq_refl eq_refl Hl Hl)). by_compute.
Defined.
