(* ===== verification/Leadership.v ===== *)
(** * The leader and its worker (internal/infra/leaderlock, internal/usecase/match/matchmaker.go, internal/cli/gateway.go)

    Every gateway runs [leaderlock.Run] with [Matchmaker.Run] as its [fn].  [LeaderLock] is the side
    of the lease, its requests interleaved with those of the other gateways; here each gateway also
    has the goroutine of its worker, which is started when the lease is acquired and joined before it
    is released.  [one_worker]: as long as the lease has not lapsed, one worker runs. *)

From stdpp Require Import functions.
From S2P Require Import Prelude GoBase Valkey LeaderLock.

(** ** The programs in two phases *)

Section phases.
Context (cfg : LockConfig) (id : string).

Notation lock := (withDefaultTTL cfg).

Definition contending (p : prog string unit) : Prop := ∃ terms, p = runTerms lock id terms.
Definition in_office (p : prog string unit) : Prop :=
  ∃ evs terms, p = (_ ← leadAndHold lock id evs; _ ← release (lk_Key lock) id; runTerms lock id terms).

Definition lease_taken (rep : reply string) : bool := is_ok (reply_Error rep).

Lemma contending_call r k : contending (Call r k) →
  (∃ ms, r = Do (SetNX (lk_Key lock) id ms)) ∧ ∀ rep, if lease_taken rep then in_office (k rep) else contending (k rep).
Proof.
  intros [[|evs terms] Hp]; [done|]. injection Hp as -> Hk. split; [by eexists|]. subst k. intros rep. unfold lease_taken.
  destruct rep; cbn; try (by exists evs, terms); [by exists terms|]. by case_match; exists terms.
Qed.

Lemma in_office_call p : in_office p →
  (∃ ms k, p = Call (Eval (renewScript (lk_Key lock) id ms)) k ∧ ∀ rep, in_office (k rep)) ∨
  (∃ k, p = Call (Eval (releaseScript (lk_Key lock) id)) k ∧ ∀ rep, contending (k rep)).
Proof.
  intros (evs & terms & ->). destruct evs as [|[|err|] evs].
  1, 2, 3: right; eexists; split; [done|]; intros rep; by exists terms.
  left. eexists _, _. split; [done|]. intros rep. destruct rep as [| |z| | | | |e]; try (by eexists [FnDone (Some _)], terms).
  cbn. destruct (z =? 1); [by exists evs, terms|by eexists [FnDone (Some _)], terms].
Qed.

Lemma in_office_leading p : in_office p → leading cfg id p.
Proof. intros [(ms & k & -> & _)|(k & -> & _)]%in_office_call; exists k; [left; by exists ms|by right]. Qed.

Lemma call_eval_inj (s s' : script string) (k k' : reply string → prog string unit) : Call (Eval s) k = Call (Eval s') k' → s = s' ∧ k = k'.
Proof. by intros [= -> ->]. Qed.

(** The two scripts differ in what they do for the owner. *)
Lemma renew_not_release ms : renewScript (lk_Key lock) id ms <> releaseScript (lk_Key lock) id.
Proof.
  unfold renewScript, releaseScript, if_owner. intros [= H]. apply (f_equal (λ f, f (RBulk id))) in H. cbn in H.
  rewrite bool_decide_eq_true_2 in H by done. discriminate H.
Qed.
End phases.

(** ** The worker *)

(** The goroutine of [fn]: not started, at its [select], inside a tick with the modes it has still to
    process, returned. *)
Inductive worker := Absent | Selecting | Ticking (modes_left : list string) | Returned.

#[export] Instance worker_eq_dec : EqDecision worker.
Proof. solve_decision. Defined.

(** It may return whenever it is at its [select]: its context may be cancelled by the lease or by the
    gateway. *)
Inductive worker_step (modes : list string) : worker → worker → Prop :=
  | worker_tick : worker_step modes Selecting (Ticking modes)
  | worker_mode m ms : worker_step modes (Ticking (m :: ms)) (Ticking ms)
  | worker_tick_end : worker_step modes (Ticking []) Selecting
  | worker_done : worker_step modes Selecting Returned.

Definition running (x : worker) : Prop := x <> Absent.

(** ** The gateways *)

Section system.
Context (cfg : LockConfig) (inst : nat → string) (modes : list string).
Context {S : Type} {Srv : Server string S} {L : ServerLaws string S}.

Notation key := (lk_Key (withDefaultTTL cfg)).

Record system := mkSystem { sy_net : net string S unit; sy_worker : nat → worker }.

(** The reply to the request of gateway [i]. *)
Definition answered (s : system) (i : nat) (r : request string) (k : reply string → prog string unit) : net string S unit :=
  let n := sy_net s in mkNet (serve r (n_store n)).2 (<[i := k (serve r (n_store n)).1]> (n_threads n)) (n_lapsed n).

(** [leadAndHold] starts [fn] once the lease is taken; every way out of it receives from [fnDone]
    before [Run] releases the lease. *)
Inductive system_step : system → system → Prop :=
  | system_start s i p :
      n_threads (sy_net s) !! i = None → is_run cfg inst i p →
      system_step s (mkSystem (mkNet (n_store (sy_net s)) (<[i := p]> (n_threads (sy_net s))) (n_lapsed (sy_net s))) (sy_worker s))
  | system_acquire s i ms k :
      n_threads (sy_net s) !! i = Some (Call (Do (SetNX key (inst i) ms)) k) →
      system_step s (mkSystem (answered s i (Do (SetNX key (inst i) ms)) k)
        (if lease_taken (serve (Do (SetNX key (inst i) ms)) (n_store (sy_net s))).1 then <[i := Selecting]> (sy_worker s) else sy_worker s))
  | system_renew s i ms k :
      n_threads (sy_net s) !! i = Some (Call (Eval (renewScript key (inst i) ms)) k) →
      system_step s (mkSystem (answered s i (Eval (renewScript key (inst i) ms)) k) (sy_worker s))
  | system_release s i k :
      n_threads (sy_net s) !! i = Some (Call (Eval (releaseScript key (inst i))) k) → sy_worker s i = Returned →
      system_step s (mkSystem (answered s i (Eval (releaseScript key (inst i))) k) (<[i := Absent]> (sy_worker s)))
  | system_lapse s s' keys :
      lapse keys (view (n_store (sy_net s))) (view s') →
      system_step s (mkSystem (mkNet s' (n_threads (sy_net s)) (n_lapsed (sy_net s) ∪ keys)) (sy_worker s))
  | system_worker s i x :
      worker_step modes (sy_worker s i) x → system_step s (mkSystem (sy_net s) (<[i := x]> (sy_worker s))).

Definition system_reachable (s : system) : Prop :=
  ∃ s0, view s0 = empty_keyspace ∧ rtc system_step (mkSystem (mkNet s0 ∅ ∅) (λ _, Absent)) s.

(** A gateway is in office exactly while it has a worker. *)
Definition in_phase (i : nat) (p : option (prog string unit)) (x : worker) : Prop :=
  match p with
  | None => x = Absent
  | Some p => (contending cfg (inst i) p ∧ x = Absent) ∨ (in_office cfg (inst i) p ∧ running x)
  end.

Definition phases (s : system) : Prop := ∀ i, in_phase i (n_threads (sy_net s) !! i) (sy_worker s i).

(** A step of gateway [i] keeps the phases of the others. *)
Lemma phases_update (s : system) st i p f gone :
  phases s → in_phase i (Some p) (f i) → (∀ j, j <> i → f j = sy_worker s j) →
  phases (mkSystem (mkNet st (<[i := p]> (n_threads (sy_net s))) gone) f).
Proof.
  intros Hs Hi Hf j. cbn. destruct (decide (i = j)) as [<-|Hne]; [by rewrite lookup_insert_eq|].
  rewrite lookup_insert_ne, Hf by done. apply Hs.
Qed.

Lemma phases_step s s' : phases s → system_step s s' → phases s'.
Proof.
  intros Hs Hstep. destruct Hstep as [s i p Hi [terms ->]|s i ms k Hi|s i ms k Hi|s i k Hi Hr|s s' keys Hl|s i x Hx]; try pose proof (Hs i) as Hp.
  - rewrite Hi in Hp. apply phases_update; [done| |done]. left. split; [by exists terms|exact Hp].
  - rewrite Hi in Hp. destruct Hp as [[Hc Ha]|[Hc _]].
    + destruct (contending_call _ _ _ _ Hc) as [_ Hk]. specialize (Hk (serve (Do (SetNX key (inst i) ms)) (n_store (sy_net s))).1).
      unfold answered. apply phases_update; [done| |].
      * destruct (lease_taken _); [right; by rewrite fn_lookup_insert|by left].
      * intros j Hne. destruct (lease_taken _); [by rewrite fn_lookup_insert_ne|done].
    + apply in_office_call in Hc as [(ms' & k' & [=] & _)|(k' & [=] & _)].
  - rewrite Hi in Hp. unfold answered. apply phases_update; [done| |done]. destruct Hp as [[Hc _]|[Hc Ha]].
    + by destruct (contending_call _ _ _ _ Hc) as [[ms' [=]] _].
    + right. split; [|done]. apply in_office_call in Hc as [(ms' & k' & Heq & Hk)|(k' & Heq & _)]; apply call_eval_inj in Heq as [Heq ->]; [apply Hk|by apply renew_not_release in Heq].
  - rewrite Hi in Hp. unfold answered. apply phases_update; [done| |intros j Hne; by rewrite fn_lookup_insert_ne]. rewrite fn_lookup_insert.
    destruct Hp as [[Hc _]|[Hc _]]; [by destruct (contending_call _ _ _ _ Hc) as [[ms' [=]] _]|].
    left. split; [|done]. apply in_office_call in Hc as [(ms' & k' & Heq & _)|(k' & Heq & Hk)]; apply call_eval_inj in Heq as [Heq ->]; [symmetry in Heq; by apply renew_not_release in Heq|apply Hk].
  - exact Hs.
  - intros j. cbn. destruct (decide (j = i)) as [->|Hne]; [|rewrite fn_lookup_insert_ne by done; apply Hs]. rewrite fn_lookup_insert.
    assert (Hrun : running (sy_worker s i) ∧ running x) by (destruct Hx; split; done).
    unfold in_phase in *. destruct (n_threads (sy_net s) !! i) as [p|]; [|destruct Hrun; congruence].
    destruct Hp as [[_ Ha]|[Ho _]]; [destruct Hrun; congruence|right; split; [done|apply Hrun]].
Qed.

(** The side of the lease is the election of [LeaderLock]. *)
Lemma system_net s : system_reachable s → net_reachable (is_run cfg inst) (sy_net s) ∧ phases s.
Proof.
  intros (s0 & Hv & Hr). assert (H0 : net_reachable (is_run cfg inst) (mkNet s0 ∅ ∅ : net string S unit) ∧ phases (mkSystem (mkNet s0 ∅ ∅) (λ _, Absent))).
  { split; [exists s0; split; [done|apply rtc_refl]|]. intros i. cbn. by rewrite lookup_empty. }
  change (mkNet s0 ∅ ∅) with (sy_net (mkSystem (mkNet s0 ∅ ∅) (λ _, Absent))) in H0 at 1.
  induction Hr as [|x y z Hxy Hr IH] in H0 |- *; [exact H0|]. apply IH. clear IH. destruct H0 as [(t0 & Ht & Hn) Hp].
  split; [|by eapply phases_step]. destruct Hxy as [s i p Hi Hrun|s i ms k Hi|s i ms k Hi|s i k Hi Hret|s s' keys Hl|s i x Hx]; exists t0; (split; [done|]);
    [eapply rtc_r; [exact Hn|]..|exact Hn].
  - by apply net_start.
  - by apply net_request.
  - by apply net_request.
  - by apply net_request.
  - by apply net_lapse.
Qed.

(** Left alone, a worker finishes the tick it is in and returns. *)
Lemma worker_winds_down x : running x → ∃ n, (n ≤ match x with Ticking ms => length ms + 2 | _ => 1 end)%nat ∧ nsteps (worker_step modes) n x Returned.
Proof.
  destruct x as [| |ms|]; intros Hx; [done| | |].
  - exists 1%nat. split; [done|]. eapply nsteps_l; [apply worker_done|apply nsteps_O].
  - clear Hx. induction ms as [|m ms (n & Hn & IH)].
    + exists 2%nat. split; [done|]. eapply nsteps_l; [apply worker_tick_end|]. eapply nsteps_l; [apply worker_done|apply nsteps_O].
    + exists (Datatypes.S n). cbn [length]. split; [lia|]. eapply nsteps_l; [apply worker_mode|exact IH].
  - exists 0%nat. split; [lia|apply nsteps_O].
Qed.

(** C33: one worker runs.  However the gateways and their workers are interleaved and whatever replies
    are lost: a gateway has a worker exactly while it is in office, so none works before it has the
    lease nor after it has begun to release it; as long as the lease has not lapsed, two gateways that
    have a worker are the same, and the lease is in its name; and from wherever a worker is it can
    return once the modes that are left of its tick are done, so that a release is only delayed.  Even
    when the lease has lapsed, a renewal or a release leaves a lease in somebody else's name as it is. *)
Theorem one_worker s :
  system_reachable s →
  (∀ i, running (sy_worker s i) ↔ ∃ p, n_threads (sy_net s) !! i = Some p ∧ in_office cfg (inst i) p) ∧
  (key ∉ n_lapsed (sy_net s) → ∀ i j, running (sy_worker s i) → running (sy_worker s j) →
     i = j ∧ ks_str (view (n_store (sy_net s))) !! key = Some (inst i)) ∧
  (∀ i, running (sy_worker s i) → ∃ n, (n ≤ match sy_worker s i with Ticking ms => length ms + 2 | _ => 1 end)%nat ∧
     nsteps (worker_step modes) n (sy_worker s i) Returned) ∧
  (∀ newID ks id ms, ks_str ks !! key <> Some id →
     answer newID (Eval (renewScript key id ms)) ks = (RInt 0, ks) ∧ answer newID (Eval (releaseScript key id)) ks = (RInt 0, ks)).
Proof.
  intros [Hnet Hp]%system_net.
  assert (Hiff : ∀ i, running (sy_worker s i) ↔ ∃ p, n_threads (sy_net s) !! i = Some p ∧ in_office cfg (inst i) p).
  { intros i. specialize (Hp i). unfold in_phase in Hp. split.
    - intros Hr. destruct (n_threads (sy_net s) !! i) as [p|]; [|done]. destruct Hp as [[_ Ha]|[Ho _]]; [done|eauto].
    - intros (p & Hi & Ho). rewrite Hi in Hp. destruct Hp as [[[terms ->] _]|[_ Hr]]; [|done].
      destruct terms; apply in_office_call in Ho as [(ms & k & [=] & _)|(k & [=] & _)]. }
  split_and!; [exact Hiff| |by intros; apply worker_winds_down|].
  2: { intros newID ks id ms Hne. unfold renewScript, releaseScript. by rewrite !if_owner_answer, bool_decide_eq_false_2. }
  intros Hgone i j (p & Hi & Hop)%Hiff (q & Hj & Hoq)%Hiff. destruct (officers_reachable cfg inst (sy_net s) Hnet Hgone) as [h [Hb Hl]].
  pose proof (leading_office cfg _ _ _ (in_office_leading _ _ _ Hop) (Hb _ _ Hi)) as Ei.
  pose proof (leading_office cfg _ _ _ (in_office_leading _ _ _ Hoq) (Hb _ _ Hj)) as Ej.
  apply bool_decide_eq_true in Ei, Ej. split; [congruence|]. by apply Hl.
Qed.
End system.

(** ** Evaluation *)

(** Gateway 0 takes the lease and ticks; gateway 1 contends in vain. *)
Lemma demo_system : ∃ s, system_reachable demo_lock demo_inst ["ranked"; "casual"] s ∧ sy_worker s 0%nat = Ticking ["casual"] ∧
  n_lapsed (sy_net s) = ∅ ∧ is_Some (n_threads (sy_net s) !! 1%nat).
Proof.
  eexists. split.
  - exists empty_keyspace. split; [reflexivity|].
    eapply rtc_l; [apply (system_start _ _ _ _ 0%nat (LeaderLock.Run demo_lock "a" demo_terms)); [reflexivity|by exists demo_terms]|].
    eapply rtc_l; [apply (system_start _ _ _ _ 1%nat (LeaderLock.Run demo_lock "b" demo_terms)); [reflexivity|by exists demo_terms]|].
    eapply rtc_l; [eapply (system_acquire _ _ _ _ 0%nat); reflexivity|].
    eapply rtc_l; [eapply (system_acquire _ _ _ _ 1%nat); reflexivity|].
    eapply rtc_l; [apply (system_worker _ _ _ _ 0%nat (Ticking ["ranked"; "casual"])), worker_tick|].
    eapply rtc_l; [apply (system_worker _ _ _ _ 0%nat (Ticking ["casual"])), worker_mode|].
    apply rtc_refl.
  - split_and!; [reflexivity|reflexivity|by eexists].
Qed.

Lemma one_worker_witness : ∃ s, system_reachable demo_lock demo_inst ["ranked"; "casual"] s ∧ sy_worker s 0%nat = Ticking ["casual"] ∧
  ks_str (n_store (sy_net s)) !! "vfx:matchmaker:leader" = Some "a" ∧ sy_worker s 1%nat = Absent.
Proof.
  destruct demo_system as (s & Hr & Hw & Hl & _). exists s. destruct (one_worker demo_lock demo_inst ["ranked"; "casual"] s Hr) as (_ & H & _).
  assert (H0 : running (sy_worker s 0%nat)) by (rewrite Hw; discriminate). specialize (H ltac:(rewrite Hl; apply not_elem_of_empty)).
  split; [exact Hr|]. split; [exact Hw|]. split; [exact (proj2 (H _ _ H0 H0))|].
  destruct (decide (sy_worker s 1%nat = Absent)) as [|H1]; [done|]. destruct (H _ _ H0 H1) as [[=] _].
Defined.
