(* ===== verification/AssignmentStore.v ===== *)
(** * Match assignments (internal/infra/assignmentstore)

    The in-memory store, with its lazy expiry against the wall clock, and the store shared by
    gateway replicas, which keeps a JSON document per player in Valkey. *)

From S2P Require Import Prelude GoBase GoStrings Json Valkey Match.

(** ** The in-memory store (inmem.go) *)

Record inMemEntry := mkInMemEntry { ie_assignment : Assignment; ie_expiresAt : time }.

Abbreviation entries := (gmap uuid inMemEntry).

(** [now] is the [time.Now()] the method reads. *)
Definition Put (now : time) (playerID : uuid) (a : Assignment) (ttl : duration) : M entries unit := λ s,
  (Ok tt, <[playerID := mkInMemEntry a (time_Add now ttl)]> s).

Definition Get (now : time) (playerID : uuid) : M entries (option Assignment) := λ s,
  match s !! playerID with
  | None => (Ok None, s)
  | Some entry =>
      if time_After now (ie_expiresAt entry) then (Ok None, delete playerID s)
      else (Ok (Some (ie_assignment entry)), s)
  end.

(** ** The shared store (valkey.go) *)

Definition put_seconds (ttl : duration) : Z :=
  let seconds := f64_trunc (duration_Seconds ttl) in
  if seconds <? 1 then 1 else seconds.

Section valkey_store.
Context {U : UuidCodec}.

Definition key (playerID : uuid) : string := "vfx:assignment:" +:+ uuid_String playerID.

(** [json.Marshal] of the assignmentDTO. *)
Definition marshalAssignment (a : Assignment) : res json :=
  object [field j_string "match_id" (uuid_String (a_MatchID a));
          field j_string "endpoint" (a_Endpoint a);
          field j_string "session_token" (a_SessionToken a);
          field j_time "expires_at" (a_ExpiresAt a)].

Definition Valkey_Put (playerID : uuid) (a : Assignment) (ttl : duration) : prog json unit :=
  payload ← ret_res (wrap_err "assignmentstore: marshal" (marshalAssignment a));
  rep ← send (SetEX (key playerID) payload (put_seconds ttl * 1000));
  ret_res (wrap_err "assignmentstore: set" (reply_Error rep)).

Definition unmarshalAssignment (raw : json) : res Assignment :=
  dto ← wrap_err "assignmentstore: unmarshal"
    (matchID ← read j_string "match_id" "" raw;
     endpoint ← read j_string "endpoint" "" raw;
     token ← read j_string "session_token" "" raw;
     expiresAt ← read j_time "expires_at" zeroTime raw;
     Ok (matchID, endpoint, token, expiresAt));
  let '(sMatchID, endpoint, token, expiresAt) := dto in
  match uuid_Parse sMatchID with
  | None => Err (Wrap "assignmentstore: parse match id" (ErrText "invalid UUID"))
  | Some matchID => Ok (mkAssignment matchID endpoint token expiresAt)
  end.

Definition Valkey_Get (playerID : uuid) : prog json (option Assignment) :=
  rep ← send (GET (key playerID));
  match ToString rep with
  | Err e => if IsValkeyNil e then mret None else ret_res (Err (Wrap "assignmentstore: get" e))
  | Ok raw => ret_res (a ← unmarshalAssignment raw; Ok (Some a))
  end.
End valkey_store.

(** ** Behaviour *)

(** the store is a per-player register with a deadline.  After [Put] at [now], a [Get] at
    [now'] returns that assignment as long as [now'] is not after [now + ttl], whatever was stored
    for others, and "no match" later; the expired entry is removed, so it never comes back. *)
Theorem assignment_lifetime s now ttl p a p' now' :
  let s1 := state (Put now p a ttl s) in
  (result (Get now' p s1) = Ok (if now' <=? now + ttl then Some a else None)) ∧
  (p' <> p → result (Get now' p' s1) = result (Get now' p' s)) ∧
  (∀ t, result (Get t p (state (Get now' p s1))) =
        Ok (if (now' <=? now + ttl) && (t <=? now + ttl) then Some a else None)).
Proof.
  unfold Put, Get, result, state. simpl. rewrite lookup_insert_eq. simpl.
  unfold time_After, time_Add. split_and!.
  - rewrite Z.ltb_antisym. by destruct (now' <=? now + ttl).
  - intros Hne. rewrite lookup_insert_ne by done. destruct (s !! p') as [e|]; [|done].
    by destruct (_ <? _).
  - intros t. rewrite Z.ltb_antisym. destruct (now' <=? now + ttl); simpl.
    + rewrite lookup_insert_eq. simpl. rewrite Z.ltb_antisym. by destruct (t <=? now + ttl).
    + by rewrite lookup_delete_eq.
Qed.

(** *** The shared store is the same register *)

Definition encodable_assignment (a : Assignment) : bool := json_time_ok (a_ExpiresAt a).
Definition kept_assignment (a : Assignment) : Assignment :=
  mkAssignment (a_MatchID a) (ToValid (a_Endpoint a)) (ToValid (a_SessionToken a)) (a_ExpiresAt a).

Section register.
Context {U : UuidCodec} {UL : UuidCodecLaws U}.
Context {S : Type} {Srv : Server json S} {L : ServerLaws json S} {Up : ServerUp json S}.

Lemma assignment_document a :
  encodable_assignment a = true → ∃ raw, marshalAssignment a = Ok raw ∧ unmarshalAssignment raw = Ok (kept_assignment a).
Proof.
  destruct a as [mid ep tok exp]. unfold encodable_assignment, marshalAssignment, object, field, unmarshalAssignment, read. simpl.
  unfold enc_time. intros ->. simpl. eexists. split; [reflexivity|]. simpl. by rewrite ToValid_uuid, uuid_parse_string.
Qed.

Lemma key_inj p q : key p = key q → p = q.
Proof. unfold key. intros H. by apply prefixed_inj, uuid_String_inj in H. Qed.

(** while a key has not lapsed, the shared store is a per-player register: after a [Put] that
    JSON can carry, a [Get] of any replica returns that assignment (its text as valid UTF-8), the
    [Put] changes nobody else's, and a player without one gets "no match" and no error. *)
Theorem shared_store_register s p a ttl p' :
  encodable_assignment a = true →
  let s1 := (run (Valkey_Put p a ttl) s).2 in
  (run (Valkey_Put p a ttl) s).1 = Ok tt ∧
  (run (Valkey_Get p) s1).1 = Ok (Some (kept_assignment a)) ∧
  (p' <> p → (run (Valkey_Get p') s1).1 = (run (Valkey_Get p') s).1) ∧
  (ks_str (view s) !! key p' = None → (run (Valkey_Get p') s).1 = Ok None).
Proof.
  intros He s1. destruct (assignment_document a He) as (raw & Em & Eu).
  assert (Hput : spec (Valkey_Put p a ttl) (view s) (λ r ks, r = Ok tt ∧ ks = set_str <[key p := raw]> (view s))).
  { unfold Valkey_Put. rewrite Em. apply spec_call. intros newID _. by apply spec_ret. }
  destruct (Hput s eq_refl) as [Hr Hv]. fold s1 in Hv.
  assert (Hget : ∀ x ks, spec (Valkey_Get x) ks (λ r _, r =
      match ks_str ks !! key x with Some raw => a ← unmarshalAssignment raw; Ok (Some a) | None => Ok None end)).
  { intros x ks. unfold Valkey_Get. apply spec_call. intros newID _. simpl. destruct (ks_str ks !! key x) as [raw'|]; simpl.
    - by apply spec_ret.
    - rewrite ?IsValkeyNil_nil. by apply spec_ret. }
  split_and!; [exact Hr| | |].
  - rewrite (Hget p (view s1) s1 eq_refl), Hv. simpl. by rewrite lookup_insert_eq, Eu.
  - intros Hne. rewrite (Hget p' (view s1) s1 eq_refl), (Hget p' (view s) s eq_refl), Hv. simpl.
    rewrite lookup_insert_ne; [done|]. intros H. by apply key_inj in H.
  - intros Hn. by rewrite (Hget p' (view s) s eq_refl), Hn.
Qed.
End register.

Lemma shared_store_register_witness :
  let a := mkAssignment (sample_uuid x05) "room:7777" "token" 1700000000000000000 in
  (run (Valkey_Get (U := hex_codec) (sample_uuid x01)) (run (Valkey_Put (U := hex_codec) (sample_uuid x01) a (60 * Second)) empty_keyspace).2).1 = Ok (Some (kept_assignment a)).
Proof.
  intros a. pose proof (shared_store_register (U := hex_codec) empty_keyspace (sample_uuid x01) a (60 * Second) (sample_uuid x02) eq_refl) as H.
  cbv zeta in H. exact (proj1 (proj2 H)).
Defined.

(** A fractional lifetime loses its fraction: the key expires before the token it holds. *)
Example put_seconds_rounds_down : put_seconds (1900 * Millisecond) = 1.
Proof. vm_compute. reflexivity. Qed.

Example put_seconds_floor : put_seconds (10 * Millisecond) = 1 ∧ put_seconds (60 * Second) = 60.
Proof. vm_compute. done. Qed.
