(* ===== verification/Matchmaker.v ===== *)
(** * The matchmaker worker and the MatchService usecase (internal/usecase/match)

    The worker is written against the ports the Go code declares: the queue, the allocator, the
    session signer, the assignment store, the metrics and the clock.  [MatchmakerPorts] is that
    interface over a world [W]; [MatchmakerLaws] is what the worker relies on, stated through an
    abstract view of the world; [MemWorld] implements the interface with the in-memory queue and
    store and discharges the laws. *)

From S2P Require Import Prelude GoBase Match MatchQueue AssignmentStore.

(** ** The usecase (match.go) *)

Record TicketInput := mkTicketInput {
  in_PlayerID : uuid;
  in_GameMode : string;
  in_Rating : option float64;
  in_Region : option string;
  in_PartyMembers : list uuid;
  in_Attributes : gmap string string;
}.

(** The ticket [CreateTicket] enqueues; [id] is the fresh [uuid.New()], [now] the request's clock. *)
Definition buildTicket `{UuidCodec, RangeOrder} (maxPartySize : Z) (id : uuid) (now : time) (input : TicketInput) : res Ticket :=
  t ← NewTicket id (in_PlayerID input) (in_GameMode input) now;
  let roster := NormalizeParty (in_PlayerID input) (in_PartyMembers input) in
  if (0 <? maxPartySize) && (maxPartySize <? Z.of_nat (length roster)) then Err ErrPartyTooLarge
  else Ok (mkTicket (t_ID t) (t_PlayerID t) (t_GameMode t) (in_Rating input) (in_Region input)
             roster (in_Attributes input) (t_EnqueuedAt t)).

Definition CreateTicket `{UuidCodec, RangeOrder} (maxPartySize : Z) (id : uuid) (now : time) (input : TicketInput)
    : M InMem uuid :=
  t ← lift_res (buildTicket maxPartySize id now input);
  _ ← Enqueue t;
  mret (t_ID t).

Definition WatchTicket (ticketID : uuid) : M InMem chan_id := Subscribe ticketID.
Definition CancelTicket (ticketID : uuid) : M InMem unit := Cancel ticketID.
Definition GetCurrentMatch (now : time) (playerID : uuid) : M entries (option Assignment) := Get now playerID.

(** ** The worker (matchmaker.go) *)

Class MatchmakerPorts (W : Type) := {
  p_Pending : string → M W (list Ticket);
  p_Claim : string → list uuid → M W bool;
  p_Publish : uuid → Event → M W unit;
  p_Allocate : string → Z → M W RoomAllocation;
  p_SignSession : uuid → string → list string → time → duration → M W string;
  p_PutAssignment : uuid → Assignment → duration → M W unit;
  p_MatchAllocated : M W unit;
  p_SetQueueDepth : string → Z → M W unit;
  p_Now : W → time;
}.

Record Config := mkConfig {
  cfg_Interval : duration;
  cfg_SessionTokenTTL : duration;
  cfg_PlayersPerMatch : Z;
  cfg_GameModes : list string;
  cfg_Policy : MatchingPolicy;
}.

(** [NewMatchmaker]: a zero [PlayersPerMatch] means 2; the policy defaults are the matcher's. *)
Definition NewMatchmakerMatcher (cfg : Config) : Matcher :=
  NewMatcher (if cfg_PlayersPerMatch cfg =? 0 then 2 else cfg_PlayersPerMatch cfg) (cfg_Policy cfg).

Section worker.
Context {W : Type} {P : MatchmakerPorts W} {U : UuidCodec} {R : RangeOrder} {E : ErrorText}.
Context (matcher : Matcher) (ttl : duration).

(** The body of the per-ticket loop of [pair]; true is [paired++]. *)
Definition pairOne (allocation : RoomAllocation) (matchPlayers : list string) (now expiresAt : time)
    (t : Ticket) : M W bool :=
  signed ← try (p_SignSession (t_PlayerID t) (uuid_String (ra_MatchID allocation)) matchPlayers now ttl);
  match signed with
  | Err _ =>
      _ ← ignore (p_Publish (t_ID t) (EventFailed "internal" "failed to issue session token"));
      mret false
  | Ok sessionToken =>
      let assignment := mkAssignment (ra_MatchID allocation) (ra_Endpoint allocation) sessionToken expiresAt in
      stored ← try (p_PutAssignment (t_PlayerID t) assignment ttl);
      match stored with
      | Err _ =>
          _ ← ignore (p_Publish (t_ID t) (EventFailed "internal" "failed to record assignment"));
          mret false
      | Ok _ =>
          _ ← ignore (p_Publish (t_ID t) (EventMatched assignment));
          mret true
      end
  end.

Fixpoint pairAll (allocation : RoomAllocation) (matchPlayers : list string) (now expiresAt : time)
    (tickets : list Ticket) (paired : Z) : M W Z :=
  match tickets with
  | [] => mret paired
  | t :: tickets' =>
      ok ← pairOne allocation matchPlayers now expiresAt t;
      pairAll allocation matchPlayers now expiresAt tickets' (if (ok : bool) then paired + 1 else paired)
  end.

Definition pair (mode : string) (tickets : list Ticket) : M W unit :=
  claimed ← p_Claim mode (t_ID <$> tickets);
  if negb claimed then mret tt
  else
    allocated ← try (p_Allocate mode (Z.of_nat (length tickets)));
    match allocated with
    | Err err =>
        _ ← for_each (λ t, ignore (p_Publish (t_ID t) (EventFailed "allocator_failed" (error_text err)))) tickets;
        fail err
    | Ok allocation =>
        now ← gets p_Now;
        let expiresAt := time_Add now ttl in
        let matchPlayers := (λ t, uuid_String (t_PlayerID t)) <$> tickets in
        paired ← pairAll allocation matchPlayers now expiresAt tickets 0;
        when (paired =? Z.of_nat (length tickets)) p_MatchAllocated
    end.

(** One iteration of the loop of [processMode]: [Ok false] is its [return nil]. *)
Definition processStep (now : time) (mode : string) : M W bool :=
  pending ← p_Pending mode;
  _ ← p_SetQueueDepth mode (Z.of_nat (length pending));
  if Z.of_nat (length pending) <? PlayersPerMatch matcher then mret false
  else
    match SelectGroup matcher now pending with
    | None => mret false
    | Some group => _ ← pair mode group; mret true
    end.

(** The loop itself, cut off ([None]) after [fuel] iterations. *)
Fixpoint processLoop (fuel : nat) (now : time) (mode : string) (w : W) : option (res unit * W) :=
  match fuel with
  | O => None
  | S fuel' =>
      match processStep now mode w with
      | (Err e, w') => Some (Err e, w')
      | (Ok false, w') => Some (Ok tt, w')
      | (Ok true, w') => processLoop fuel' now mode w'
      end
  end.

Definition processMode (fuel : nat) (mode : string) (w : W) : option (res unit * W) :=
  processLoop fuel (p_Now w) mode w.

(** [tick] runs every mode; an error is logged and the next mode goes on. *)
Fixpoint tick (fuel : nat) (candidateModes : list string) (w : W) : option W :=
  match candidateModes with
  | [] => Some w
  | mode :: modes =>
      match processMode fuel mode w with
      | None => None
      | Some (_, w') => tick fuel modes w'
      end
  end.

(** What the [select] of [Run] receives. *)
Inductive wake := WakeTicker | WakeDone.

(** The loop of [Run] over what it wakes up for: whether it has returned, and the world. *)
Fixpoint Matchmaker_Run (fuel : nat) (candidateModes : list string) (wakes : list wake) (w : W) : option (bool * W) :=
  match wakes with
  | [] => Some (false, w)
  | WakeDone :: _ => Some (true, w)
  | WakeTicker :: wakes' =>
      match tick fuel candidateModes w with
      | None => None
      | Some w' => Matchmaker_Run fuel candidateModes wakes' w'
      end
  end.
End worker.

(** ** What the worker relies on

    An abstract view of the world: the pending pool of a mode, the last event of a ticket, the
    current assignment of a player, and the number of matches counted. *)
Class MatchmakerLaws (W : Type) {P : MatchmakerPorts W} := {
  wf : W → Prop;
  pool : W → string → list Ticket;
  snapshot : W → uuid → option Event;
  assigned : W → uuid → option Assignment;
  counted : W → Z;

  (** Reading the pool changes nothing. *)
  law_pending : ∀ mode w, wf w → ∃ r, p_Pending mode w = (r, w) ∧ ∀ l, r = Ok l → l ≡ₚ pool w mode;
  law_known : ∀ mode w t, wf w → t ∈ pool w mode → is_Some (snapshot w (t_ID t));

  (** A claim takes all of the tickets out of the pool or does nothing; one that fails may have done
      either, as when its reply is lost. *)
  law_claim : ∀ mode ids w, wf w →
    let w' := state (p_Claim mode ids w) in
    wf w' ∧ (∀ i, snapshot w' i = snapshot w i) ∧ (∀ p, assigned w' p = assigned w p) ∧
    counted w' = counted w ∧ (∀ m, pool w' m ⊆+ pool w m) ∧
    match result (p_Claim mode ids w) with
    | Ok true => pool w' mode ≡ₚ filter (λ t, t_ID t ∉ ids) (pool w mode)
    | Ok false => w' = w ∧ ∃ i, i ∈ ids ∧ ∀ t, t ∈ pool w mode → t_ID t <> i
    | Err _ => w' = w ∨ pool w' mode ≡ₚ filter (λ t, t_ID t ∉ ids) (pool w mode)
    end;

  (** What the queue makes of an event (of text that is no UTF-8, say).  A publication that fails may
      have taken effect or not; the ticket still has an event afterwards. *)
  kept_ev : Event → Event;
  law_texts : ∀ msg, msg = "failed to issue session token" ∨ msg = "failed to record assignment" →
    kept_ev (EventFailed "internal" msg) = EventFailed "internal" msg;
  law_publish : ∀ i ev w, wf w → is_Some (snapshot w i) → isTerminal ev = true →
    let w' := state (p_Publish i ev w) in
    wf w' ∧ (∀ m, pool w' m ⊆+ pool w m) ∧ (∀ p, assigned w' p = assigned w p) ∧ counted w' = counted w ∧
    (∀ j, j <> i → snapshot w' j = snapshot w j) ∧ is_Some (snapshot w' i) ∧
    (result (p_Publish i ev w) = Ok tt → snapshot w' i = Some (kept_ev ev));

  (** What the store makes of an assignment. *)
  kept_asg : Assignment → Assignment;
  law_put : ∀ p a d w, wf w →
    let w' := state (p_PutAssignment p a d w) in
    wf w' ∧ (∀ m, pool w' m = pool w m) ∧ (∀ i, snapshot w' i = snapshot w i) ∧ counted w' = counted w ∧
    (∀ p', p' <> p → assigned w' p' = assigned w p') ∧
    (result (p_PutAssignment p a d w) = Ok tt → assigned w' p = Some (kept_asg a));

  (** The other ports touch none of this. *)
  quiet (w w' : W) : Prop :=
    wf w' ∧ (∀ m, pool w' m = pool w m) ∧ (∀ i, snapshot w' i = snapshot w i) ∧
    (∀ p, assigned w' p = assigned w p) ∧ counted w' = counted w;
  law_allocate : ∀ mode n w, wf w → quiet w (state (p_Allocate mode n w));
  law_sign : ∀ p m ps now d w, wf w → quiet w (state (p_SignSession p m ps now d w));
  law_depth : ∀ mode n w, wf w → result (p_SetQueueDepth mode n w) = Ok tt ∧ quiet w (state (p_SetQueueDepth mode n w));
  law_counted : ∀ w, wf w → result (p_MatchAllocated w) = Ok tt ∧
    let w' := state (p_MatchAllocated w) in
    wf w' ∧ (∀ m, pool w' m = pool w m) ∧ (∀ i, snapshot w' i = snapshot w i) ∧
    (∀ p, assigned w' p = assigned w p) ∧ counted w' = counted w + 1;
}.

(** ** The worker under these laws *)

Section worker_laws.
Context {W : Type} {P : MatchmakerPorts W} {L : MatchmakerLaws W}.
Context {U : UuidCodec} {R : RangeOrder} {E : ErrorText}.
Context (matcher : Matcher) (ttl : duration).

(** Nothing enters a pool and no ticket is forgotten. *)
Record shrinks (w w' : W) : Prop := {
  sh_wf : wf w';
  sh_pool : ∀ m, pool w' m ⊆+ pool w m;
  sh_known : ∀ i, is_Some (snapshot w i) → is_Some (snapshot w' i);
}.

Lemma shrinks_refl w : wf w → shrinks w w.
Proof. done. Qed.

Lemma shrinks_trans w1 w2 w3 : shrinks w1 w2 → shrinks w2 w3 → shrinks w1 w3.
Proof. intros [A1 B1 C1] [A2 B2 C2]. split; eauto using submseteq_trans. Qed.

Lemma quiet_shrinks w w' : quiet w w' → shrinks w w'.
Proof. intros (? & Hp & Hs & _). split; [done| |]; intros; by rewrite ?Hp, ?Hs. Qed.

Lemma publish_shrinks i ev w : wf w → is_Some (snapshot w i) → isTerminal ev = true → shrinks w (state (p_Publish i ev w)).
Proof.
  intros Hw Hi Ht. destruct (law_publish i ev w Hw Hi Ht) as (? & ? & _ & _ & Hs & Hsi & _). split; [done..|].
  intros j. destruct (decide (j = i)) as [->|?]; [done|by rewrite Hs].
Qed.

Lemma claim_shrinks mode ids w : wf w → shrinks w (state (p_Claim mode ids w)).
Proof.
  intros Hw. destruct (law_claim mode ids w Hw) as (? & Hs & _ & _ & ? & _). split; [done..|].
  intros j. by rewrite Hs.
Qed.

(** [w0] is a world that the work from [w] to [w'] went through. *)
Definition during (w w' w0 : W) : Prop := shrinks w w0 ∧ shrinks w0 w'.

Lemma during_widen w0 w1 w2 w3 x : shrinks w0 w1 → shrinks w2 w3 → during w1 w2 x → during w0 w3 x.
Proof. intros H1 H2 [Hl Hr]. split; by eapply shrinks_trans. Qed.

(** The ticket's event, unless its publication failed, which the worker ignores. *)
Definition told (w w' : W) (i : uuid) (ev : Event) : Prop :=
  snapshot w' i = Some (kept_ev ev) ∨ ∃ w0, during w w' w0 ∧ is_ok (result (p_Publish i ev w0)) = false.

(** What one ticket ends up with once its group has a room: an assignment with the room and a token
    that the signer issued for its player, this match and its players, which was stored and which the
    player recovers if no later ticket of the group ([last]) is of the same player; or the reason it has none. *)
Definition sign (a : RoomAllocation) (players : list string) (now : time) (t : Ticket) : M W string :=
  p_SignSession (t_PlayerID t) (uuid_String (ra_MatchID a)) players now ttl.
Definition assignment_for (a : RoomAllocation) (exp : time) (token : string) : Assignment :=
  mkAssignment (ra_MatchID a) (ra_Endpoint a) token exp.

Definition matched (a : RoomAllocation) (players : list string) (now exp : time) (w w' : W) (last : Prop) (t : Ticket) : Prop :=
  ∃ token, let asg := assignment_for a exp token in
    told w w' (t_ID t) (EventMatched asg) ∧ (last → assigned w' (t_PlayerID t) = Some (kept_asg asg)) ∧
    (∃ w0, during w w' w0 ∧ result (sign a players now t w0) = Ok token) ∧
    ∃ w0, during w w' w0 ∧ result (p_PutAssignment (t_PlayerID t) asg ttl w0) = Ok tt.
Definition unmatched (a : RoomAllocation) (players : list string) (now exp : time) (w w' : W) (t : Ticket) : Prop :=
  (told w w' (t_ID t) (EventFailed "internal" "failed to issue session token") ∧
     ∃ w0, during w w' w0 ∧ is_ok (result (sign a players now t w0)) = false) ∨
  (told w w' (t_ID t) (EventFailed "internal" "failed to record assignment") ∧
     ∃ token, (∃ w0, during w w' w0 ∧ result (sign a players now t w0) = Ok token) ∧
       ∃ w0, during w w' w0 ∧ is_ok (result (p_PutAssignment (t_PlayerID t) (assignment_for a exp token) ttl w0)) = false).
Definition settled (a : RoomAllocation) (players : list string) (now exp : time) (w w' : W) (last : Prop) (t : Ticket) (ok : bool) : Prop :=
  if ok then matched a players now exp w w' last t else unmatched a players now exp w w' t.

Fixpoint all_settled (a : RoomAllocation) (players : list string) (now exp : time) (w w' : W) (ts : list Ticket) (oks : list bool) : Prop :=
  match ts, oks with
  | [], [] => True
  | t :: ts', ok :: oks' =>
      settled a players now exp w w' (t_PlayerID t ∉ t_PlayerID <$> ts') t ok ∧ all_settled a players now exp w w' ts' oks'
  | _, _ => False
  end.

Lemma all_settled_length a players now exp w w' ts oks : all_settled a players now exp w w' ts oks → length oks = length ts.
Proof. revert oks. induction ts as [|t ts IH]; intros [|ok oks]; try done. intros [_ H]. cbn. f_equal. by apply IH. Qed.

Lemma publish_event i ev w :
  wf w → is_Some (snapshot w i) → isTerminal ev = true →
  ∃ w', ignore (p_Publish i ev) w = (Ok tt, w') ∧ shrinks w w' ∧ counted w' = counted w ∧
    told w w' i ev ∧ (∀ j, j <> i → snapshot w' j = snapshot w j) ∧ (∀ p, assigned w' p = assigned w p).
Proof.
  intros Hw Hi Ht. pose proof (publish_shrinks i ev w Hw Hi Ht) as Hsh.
  destruct (law_publish i ev w Hw Hi Ht) as (_ & _ & Ha & Hc & Hs & _ & Hi').
  exists (state (p_Publish i ev w)). unfold ignore. split_and!; [done..| |done|done].
  destruct (result (p_Publish i ev w)) as [[]|e] eqn:Er; [left; by apply Hi'|right]. exists w.
  split; [split; [by apply shrinks_refl|done]|by rewrite Er].
Qed.

(** What survives of it when the work goes on, and when it had begun earlier. *)
Lemma told_frame w0 w1 w2 w3 i ev :
  shrinks w0 w1 → shrinks w2 w3 → snapshot w3 i = snapshot w2 i → told w1 w2 i ev → told w0 w3 i ev.
Proof. intros H1 H2 Es [H|(x & Hx & Hf)]; [left; congruence|right; exists x; split; [by eapply during_widen|done]]. Qed.

Lemma settled_frame a players now exp w0 w1 w2 w3 (last last' : Prop) t ok :
  shrinks w0 w1 → shrinks w2 w3 → snapshot w3 (t_ID t) = snapshot w2 (t_ID t) →
  (last' → last ∧ assigned w3 (t_PlayerID t) = assigned w2 (t_PlayerID t)) →
  settled a players now exp w1 w2 last t ok → settled a players now exp w0 w3 last' t ok.
Proof.
  intros H1 H2 Hs Hp. pose proof (λ x, during_widen w0 w1 w2 w3 x H1 H2) as Hd. pose proof (λ ev, told_frame w0 w1 w2 w3 (t_ID t) ev H1 H2 Hs) as Ht.
  destruct ok; cbn [settled].
  - intros (token & T & A & (x & Hx & Ex) & (y & Hy & Ey)). exists token. split_and!; [by apply Ht| |exists x; auto|exists y; auto].
    intros Hl. destruct (Hp Hl) as [Hl0 ->]. by apply A.
  - intros [(T & x & Hx & Ex)|(T & token & (x & Hx & Ex) & y & Hy & Ey)]; [left|right]; (split; [by apply Ht|]); [exists x; auto|].
    exists token. split; [exists x; auto|exists y; auto].
Qed.

Lemma all_settled_widen a players now exp w0 w1 w2 w3 ts oks :
  shrinks w0 w1 → shrinks w2 w3 → (∀ i, snapshot w3 i = snapshot w2 i) → (∀ p, assigned w3 p = assigned w2 p) →
  all_settled a players now exp w1 w2 ts oks → all_settled a players now exp w0 w3 ts oks.
Proof.
  intros H1 H2 Hs Ha. revert oks. induction ts as [|t ts IH]; intros [|ok oks]; try done. intros [Ht Hr]. split; [|by apply IH].
  by eapply settled_frame; [exact H1|exact H2|apply Hs|intros Hl; split; [exact Hl|apply Ha]|exact Ht].
Qed.

(** One ticket of the group: it is settled, and only its own snapshot and assignment change. *)
Lemma pairOne_spec a players now exp t w :
  wf w → is_Some (snapshot w (t_ID t)) →
  ∃ ok w', pairOne ttl a players now exp t w = (Ok ok, w') ∧ shrinks w w' ∧ counted w' = counted w ∧
    settled a players now exp w w' True t ok ∧ (∀ j, j <> t_ID t → snapshot w' j = snapshot w j) ∧
    (∀ p, p <> t_PlayerID t → assigned w' p = assigned w p).
Proof.
  intros Hw Hk. unfold pairOne. rewrite M_bind_eval. unfold try at 1.
  pose proof (law_sign (t_PlayerID t) (uuid_String (ra_MatchID a)) players now ttl w Hw) as Hq.
  pose proof (eq_refl (sign a players now t w)) as Hsign. unfold sign at 1 in Hsign.
  destruct (p_SignSession _ _ _ _ _ w) as [[token|e] w1]; unfold state in Hq; simpl in Hq;
    pose proof (quiet_shrinks _ _ Hq) as Hsh; destruct Hq as (Hw1 & _ & Hs1 & Ha1 & Hc1).
  2: { rewrite M_bind_eval. edestruct (publish_event (t_ID t)) as (w2 & -> & Hsh2 & Hc2 & He2 & Hj2 & Ha2);
         [exact Hw1|by rewrite Hs1|done|]. assert (Hsh02 : shrinks w w2) by (by eapply shrinks_trans).
       eexists false, w2. split_and!; [done|done|congruence| | |].
       - left. split; [by eapply told_frame; [exact Hsh|by apply shrinks_refl, Hsh2|done|exact He2]|].
         exists w. split; [split; [by apply shrinks_refl|done]|by rewrite <- Hsign].
       - intros j Hj. by rewrite Hj2, Hs1.
       - intros p _. by rewrite Ha2, Ha1. }
  change (mkAssignment (ra_MatchID a) (ra_Endpoint a) token exp) with (assignment_for a exp token). rewrite M_bind_eval. unfold try at 1.
  pose proof (law_put (t_PlayerID t) (assignment_for a exp token) ttl w1 Hw1) as Hput. revert Hput. unfold state, result.
  destruct (p_PutAssignment _ _ _ w1) as [r w2] eqn:Eput. simpl. intros (Hw2 & Hp2 & Hs2 & Hc2 & Ho2 & Hr2).
  assert (Hsh12 : shrinks w1 w2) by (split; [done|..]; intros; by rewrite ?Hp2, ?Hs2).
  assert (Hsh2 : shrinks w w2) by (by eapply shrinks_trans).
  assert (Hk2 : is_Some (snapshot w2 (t_ID t))) by (by rewrite Hs2, Hs1).
  assert (Hsg : ∀ w3, shrinks w2 w3 → ∃ w0, during w w3 w0 ∧ result (sign a players now t w0) = Ok token).
  { intros w3 H3. exists w. split; [split; [by apply shrinks_refl|by eapply shrinks_trans]|by rewrite <- Hsign]. }
  assert (Hpt : ∀ w3, shrinks w2 w3 → during w w3 w1) by (intros w3 H3; split; [done|by eapply shrinks_trans]).
  destruct r as [[]|e]; rewrite M_bind_eval;
    (edestruct (publish_event (t_ID t)) as (w3 & -> & Hsh3 & Hc3 & He3 & Hj3 & Ha3); [exact Hw2|exact Hk2|done|]);
    (assert (Htold : ∀ ev, told w2 w3 (t_ID t) ev → told w w3 (t_ID t) ev)
       by (intros ev; apply told_frame; [done|apply shrinks_refl, Hsh3|done])).
  - exists true, w3. split_and!; [done|by eapply shrinks_trans|congruence| | |].
    + exists token. rewrite Ha3. split_and!; [by apply Htold|intros _; by apply Hr2|by apply Hsg|].
      exists w1. split; [by apply Hpt|]. unfold result. by rewrite Eput.
    + intros j Hj. by rewrite Hj3, Hs2, Hs1.
    + intros p Hp. by rewrite Ha3, Ho2, Ha1.
  - exists false, w3. split_and!; [done|by eapply shrinks_trans|congruence| | |].
    + right. split; [by apply Htold|]. exists token. split; [by apply Hsg|]. exists w1. split; [by apply Hpt|]. unfold result. by rewrite Eput.
    + intros j Hj. by rewrite Hj3, Hs2, Hs1.
    + intros p Hp. by rewrite Ha3, Ho2, Ha1.
Qed.

Lemma pairAll_shrinks a players now exp ts paired w :
  wf w → (∀ t, t ∈ ts → is_Some (snapshot w (t_ID t))) →
  ∃ n w', pairAll ttl a players now exp ts paired w = (Ok n, w') ∧ shrinks w w'.
Proof.
  revert paired w. induction ts as [|t ts IH]; intros paired w Hw Hk.
  { by exists paired, w. }
  cbn [pairAll]. rewrite M_bind_eval.
  destruct (pairOne_spec a players now exp t w Hw) as (ok & w1 & -> & Hsh & _); [apply Hk; left|].
  edestruct IH as (n & w2 & E2 & Hsh2); [by apply Hsh| |].
  { intros t' Ht'. apply Hsh, Hk. by right. }
  exists n, w2. split; [exact E2|]. by eapply shrinks_trans.
Qed.

(** The whole loop: every ticket is settled and [paired] counts the matched ones. *)
Lemma pairAll_spec a players now exp ts paired w :
  wf w → (∀ t, t ∈ ts → is_Some (snapshot w (t_ID t))) → NoDup (t_ID <$> ts) →
  ∃ oks w', pairAll ttl a players now exp ts paired w
      = (Ok (paired + Z.of_nat (length (filter (λ ok : bool, ok = true) oks))), w') ∧
    shrinks w w' ∧ counted w' = counted w ∧ all_settled a players now exp w w' ts oks ∧
    (∀ j, j ∉ t_ID <$> ts → snapshot w' j = snapshot w j) ∧
    (∀ p, p ∉ t_PlayerID <$> ts → assigned w' p = assigned w p).
Proof.
  revert paired w. induction ts as [|t ts IH]; intros paired w Hw Hk Hnd.
  { exists [], w. split_and!; [|by apply shrinks_refl|done..]. simpl. by rewrite Z.add_0_r. }
  cbn [pairAll]. rewrite M_bind_eval. csimpl in *. apply NoDup_cons in Hnd as [Hni Hnd].
  destruct (pairOne_spec a players now exp t w Hw) as (ok & w1 & -> & Hsh & Hc1 & Hset & Hs1 & Ha1); [apply Hk; left|].
  edestruct (IH (if ok then paired + 1 else paired) w1) as (oks & w2 & E2 & Hsh2 & Hc2 & Hf & Hs2 & Ha2); [by apply Hsh| |done|].
  { intros t' Ht'. apply Hsh, Hk. by right. }
  exists (ok :: oks), w2. split_and!; [|by eapply shrinks_trans|congruence| | | |].
  - rewrite E2. do 2 f_equal. destruct ok; [rewrite filter_cons_True by done|rewrite filter_cons_False by done]; csimpl; lia.
  - eapply settled_frame; [by apply shrinks_refl|exact Hsh2|by apply Hs2|intros Hl; split; [exact I|by apply Ha2]|exact Hset].
  - eapply all_settled_widen; [exact Hsh|apply shrinks_refl, Hsh2|done|done|exact Hf].
  - intros j. rewrite not_elem_of_cons. intros [? ?]. by rewrite Hs2, Hs1.
  - intros p. rewrite not_elem_of_cons. intros [? ?]. by rewrite Ha2, Ha1.
Qed.

Lemma notify_failed reason msg ts w :
  wf w → (∀ t, t ∈ ts → is_Some (snapshot w (t_ID t))) →
  ∃ w', for_each (λ t, ignore (p_Publish (t_ID t) (EventFailed reason msg))) ts w = (Ok tt, w') ∧
    shrinks w w' ∧ counted w' = counted w ∧ (∀ p, assigned w' p = assigned w p) ∧
    (NoDup (t_ID <$> ts) → ∀ t, t ∈ ts → told w w' (t_ID t) (EventFailed reason msg)) ∧
    (∀ j, j ∉ t_ID <$> ts → snapshot w' j = snapshot w j).
Proof.
  revert w. induction ts as [|t ts IH]; intros w Hw Hk.
  { exists w. split_and!; try done. intros _ t. by rewrite elem_of_nil. }
  cbn [for_each]. rewrite M_bind_eval.
  destruct (publish_event (t_ID t) (EventFailed reason msg) w Hw) as (w1 & -> & Hsh & Hc1 & He1 & Hj1 & Ha1); [apply Hk; left|done|].
  destruct (IH w1) as (w2 & -> & Hsh2 & Hc2 & Ha2 & Hin & Hout); [by apply Hsh| |].
  { intros t' Ht'. apply Hsh, Hk. by right. }
  exists w2. split_and!; [done|by eapply shrinks_trans|congruence| | |].
  - intros p. by rewrite Ha2, Ha1.
  - csimpl. intros [Hni Hnd]%NoDup_cons t'. rewrite elem_of_cons. intros [->|Ht'].
    + eapply told_frame; [by apply shrinks_refl|exact Hsh2|by apply Hout|exact He1].
    + eapply told_frame; [exact Hsh|apply shrinks_refl, Hsh2|done|by apply Hin].
  - intros j. csimpl. rewrite not_elem_of_cons. intros [? ?]. by rewrite Hout, Hj1.
Qed.

(** [pair] without any assumption on the group: nothing enters a pool, and when the claim is won
    the group leaves the pool of its mode. *)
Lemma pair_shrinks mode ts w :
  wf w → (∀ t, t ∈ ts → is_Some (snapshot w (t_ID t))) →
  let w' := state (pair ttl mode ts w) in
  shrinks w w' ∧
  (result (pair ttl mode ts w) = Ok tt →
     (result (p_Claim mode (t_ID <$> ts) w) = Ok false) ∨
     pool w' mode ⊆+ filter (λ t, t_ID t ∉ t_ID <$> ts) (pool w mode)).
Proof.
  intros Hw Hk. cbv zeta. unfold pair. rewrite M_bind_eval.
  pose proof (claim_shrinks mode (t_ID <$> ts) w Hw) as Hsh.
  pose proof (law_claim mode (t_ID <$> ts) w Hw) as Hcl.
  destruct (p_Claim mode (t_ID <$> ts) w) as [[[]|e] w1]; unfold state, result in *; cbn [fst snd negb] in *;
    [|split; [done|by left]|split; [done|]; discriminate].
  destruct Hcl as (_ & Hs & _ & _ & _ & Hp).
  assert (Hgone : ∀ w', shrinks w1 w' → pool w' mode ⊆+ filter (λ t, t_ID t ∉ t_ID <$> ts) (pool w mode)).
  { intros w' H'. rewrite <- Hp. apply H'. }
  rewrite M_bind_eval. unfold try. pose proof (law_allocate mode (Z.of_nat (length ts)) w1 (sh_wf _ _ Hsh)) as Hq.
  destruct (p_Allocate mode (Z.of_nat (length ts)) w1) as [[a|err] w2]; unfold state in Hq; cbn [fst snd] in *;
    pose proof (quiet_shrinks _ _ Hq) as Hsh2;
    (assert (Hk2 : ∀ t, t ∈ ts → is_Some (snapshot w2 (t_ID t))) by (intros t Ht; apply Hsh2, Hsh, Hk, Ht)).
  - rewrite M_bind_eval. unfold gets. rewrite M_bind_eval.
    edestruct pairAll_shrinks as (n & w3 & -> & Hsh3); [apply Hsh2|exact Hk2|].
    assert (H13 : shrinks w1 w3) by (by eapply shrinks_trans).
    unfold when. destruct (n =? _).
    + destruct (law_counted w3 (sh_wf _ _ Hsh3)) as [Hr (Hw4 & Hp4 & Hs4 & _)].
      unfold state, result in *. destruct (p_MatchAllocated w3) as [r4 w4]. simpl in *.
      assert (Hsh4 : shrinks w3 w4).
      { split; [done|..]; intros; by rewrite ?Hp4, ?Hs4. }
      split; [exact (shrinks_trans _ _ _ Hsh (shrinks_trans _ _ _ H13 Hsh4))|].
      intros _. right. apply Hgone. exact (shrinks_trans _ _ _ H13 Hsh4).
    + split; [exact (shrinks_trans _ _ _ Hsh H13)|]. intros _. right. by apply Hgone.
  - rewrite M_bind_eval. edestruct notify_failed as (w3 & -> & Hsh3 & _); [apply Hsh2|exact Hk2|].
    split; [|discriminate]. exact (shrinks_trans _ _ _ Hsh (shrinks_trans _ _ _ Hsh2 Hsh3)).
Qed.
(** What the signer is asked for a group. *)
Definition group_players (ts : list Ticket) : list string := (λ t, uuid_String (t_PlayerID t)) <$> ts.

(** [pair] once the group is claimed and has its room. *)
Lemma pair_allocated mode ts a w w1 w2 :
  wf w → (∀ t, t ∈ ts → is_Some (snapshot w (t_ID t))) → NoDup (t_ID <$> ts) →
  p_Claim mode (t_ID <$> ts) w = (Ok true, w1) → p_Allocate mode (Z.of_nat (length ts)) w1 = (Ok a, w2) →
  ∃ oks w', pair ttl mode ts w = (Ok tt, w') ∧ shrinks w w2 ∧ shrinks w2 w' ∧
    all_settled a (group_players ts) (p_Now w2) (time_Add (p_Now w2) ttl) w2 w' ts oks ∧
    counted w' = counted w + (if forallb id oks then 1 else 0) ∧
    (∀ j, j ∉ t_ID <$> ts → snapshot w' j = snapshot w j) ∧
    (∀ p, p ∉ t_PlayerID <$> ts → assigned w' p = assigned w p).
Proof.
  intros Hw Hk Hnd Ec Ea. pose proof (law_claim mode (t_ID <$> ts) w Hw) as Hcl. pose proof (claim_shrinks mode (t_ID <$> ts) w Hw) as Hsh1.
  rewrite Ec in Hcl, Hsh1. destruct Hcl as (Hw1 & Hs1 & Ha1 & Hc1 & _). pose proof (law_allocate mode (Z.of_nat (length ts)) w1 Hw1) as Hq.
  rewrite Ea in Hq. unfold state in *. cbn [snd] in *. pose proof (shrinks_trans _ _ _ Hsh1 (quiet_shrinks _ _ Hq)) as Hsh2. destruct Hq as (Hw2 & _ & Hs2 & Ha2 & Hc2).
  unfold pair. rewrite M_bind_eval, Ec. cbn [negb]. rewrite M_bind_eval. unfold try. rewrite Ea. rewrite M_bind_eval. unfold gets.
  rewrite M_bind_eval. fold (group_players ts).
  edestruct (pairAll_spec a (group_players ts) (p_Now w2) (time_Add (p_Now w2) ttl) ts 0 w2 Hw2)
    as (oks & w3 & -> & Hsh3 & Hc3 & Hf & Hs3 & Ha3); [intros t Ht; rewrite Hs2, Hs1; by apply Hk|done|].
  exists oks. assert (Hall : (0 + Z.of_nat (length (filter (λ ok : bool, ok = true) oks)) =? Z.of_nat (length ts)) = forallb id oks).
  { rewrite <- (all_settled_length _ _ _ _ _ _ _ _ Hf). clear. induction oks as [|[] oks IH]; [done| |]; simpl forallb;
      [rewrite filter_cons_True by done|rewrite filter_cons_False by done]; simpl length.
    - rewrite <- IH. apply eq_iff_eq_true. rewrite !Z.eqb_eq. lia.
    - apply Z.eqb_neq. pose proof (length_filter (λ ok : bool, ok = true) oks). lia. }
  rewrite Hall. unfold when. destruct (forallb id oks).
  - destruct (law_counted w3 (sh_wf _ _ Hsh3)) as [Hr (Hw4 & Hp4 & Hs4 & Ha4 & Hc4)].
    destruct (p_MatchAllocated w3) as [r4 w4]. unfold state, result in *. cbn [fst snd] in *.
    assert (Hsh4 : shrinks w3 w4) by (split; [done|..]; intros; by rewrite ?Hp4, ?Hs4).
    exists w4. split_and!; [by rewrite Hr|done|by eapply shrinks_trans| |congruence| |].
    + eapply all_settled_widen; [by apply shrinks_refl|exact Hsh4|done|done|exact Hf].
    + intros j Hj. by rewrite Hs4, Hs3, Hs2, Hs1.
    + intros p Hp. by rewrite Ha4, Ha3, Ha2, Ha1.
  - exists w3. split_and!; [done|done|done|done|rewrite Hc3, Hc2, Hc1; lia| |].
    + intros j Hj. by rewrite Hs3, Hs2, Hs1.
    + intros p Hp. by rewrite Ha3, Ha2, Ha1.
Qed.
End worker_laws.


(** ** The loop over one mode *)

Lemma NewMatchmakerMatcher_pos cfg : 1 ≤ m_playersPerMatch (NewMatchmakerMatcher cfg).
Proof. unfold NewMatchmakerMatcher, NewMatcher. simpl. repeat case_match; to_prop; lia. Qed.

Section loop.
Context {W : Type} {P : MatchmakerPorts W} {L : MatchmakerLaws W}.
Context {U : UuidCodec} {R : RangeOrder} {RL : RangeOrderLaw R} {E : ErrorText}.
Context (matcher : Matcher) (ttl : duration).
Context (matcher_pos : 1 ≤ m_playersPerMatch matcher).

(** Nothing left to do for the mode at [now]. *)
Definition drained (now : time) (mode : string) (w : W) : Prop :=
  ∃ l, l ≡ₚ pool w mode ∧
    (Z.of_nat (length l) < m_playersPerMatch matcher ∨ SelectGroup matcher now l = None).

(** One iteration: an error, an exhausted mode, or a strictly smaller pool. *)
Lemma processStep_spec now mode w :
  wf w →
  let '(r, w') := processStep matcher ttl now mode w in
  shrinks w w' ∧
  match r with
  | Err _ => True
  | Ok false => drained now mode w'
  | Ok true => (length (pool w' mode) < length (pool w mode))%nat
  end.
Proof.
  intros Hw. unfold processStep. rewrite M_bind_eval.
  destruct (law_pending mode w Hw) as ([pending|e] & -> & Hp); [|by split].
  rewrite M_bind_eval. destruct (law_depth mode (Z.of_nat (length pending)) w Hw) as [Hr Hq]. pose proof (quiet_shrinks _ _ Hq) as Hsh1. destruct Hq as (Hw1 & Hp1 & Hs1 & _).
  unfold state, result in *. destruct (p_SetQueueDepth _ _ w) as [r1 w1]. cbn [fst snd] in *. subst r1.
  pose proof (Hp _ eq_refl) as Hperm. rewrite <- Hp1 in Hperm.
  destruct (_ <? _) eqn:El; to_prop; [split; [done|]; exists pending; eauto|].
  destruct (SelectGroup matcher now pending) as [g|] eqn:Eg; [|split; [done|]; exists pending; eauto].
  apply SelectGroup_subset in Eg as [Hlen Hsub].
  assert (Hk : ∀ t, t ∈ g → is_Some (snapshot w1 (t_ID t))).
  { intros t Ht. apply (law_known mode); [done|]. rewrite <- Hperm. by apply Hsub. }
  rewrite M_bind_eval. destruct (pair_shrinks ttl mode g w1 Hw1 Hk) as [Hsh Hres].
  unfold state, result in *. destruct (pair ttl mode g w1) as [[[]|e] w2]; cbn [fst snd] in *; [|split; [by eapply shrinks_trans|done]].
  split; [by eapply shrinks_trans|].
  destruct g as [|t0 g]; [simpl in Hlen; lia|].
  assert (Ht0 : t0 ∈ pool w1 mode) by (rewrite <- Hperm; apply Hsub; left).
  destruct (Hres eq_refl) as [Hlost|Hgone].
  - exfalso. pose proof (law_claim mode (t_ID <$> t0 :: g) w1 Hw1) as Hcl. unfold result in Hcl.
    rewrite Hlost in Hcl. destruct Hcl as (_ & _ & _ & _ & _ & _ & i & Hi & Hno).
    apply list_elem_of_fmap in Hi as (t & -> & Ht). apply (Hno t); [|done]. rewrite <- Hperm. by apply Hsub.
  - rewrite <- Hp1. apply submseteq_length in Hgone.
    assert (length (filter (λ t, t_ID t ∉ t_ID <$> t0 :: g) (pool w1 mode)) < length (pool w1 mode))%nat; [|lia].
    apply length_filter_lt with t0; [done|]. intros Hn. apply Hn. csimpl. left.
Qed.

Lemma processLoop_total fuel now mode w :
  wf w → (length (pool w mode) < fuel)%nat →
  ∃ r w', processLoop matcher ttl fuel now mode w = Some (r, w') ∧ shrinks w w' ∧
    (r = Ok tt → drained now mode w').
Proof.
  revert w. induction fuel as [|fuel IH]; intros w Hw Hlt; [lia|]. simpl.
  pose proof (processStep_spec now mode w Hw) as Hs.
  destruct (processStep matcher ttl now mode w) as [[[]|e] w1]; destruct Hs as [Hw1 Hs].
  - destruct (IH w1) as (r & w' & El & Hsh & Hd); [by destruct Hw1|lia|]. exists r, w'. split_and!; [done|by eapply shrinks_trans|done].
  - eauto.
  - eexists _, _. by split_and!.
Qed.

Lemma tick_total fuel modes w :
  wf w → (∀ m, (length (pool w m) < fuel)%nat) → ∃ w', tick matcher ttl fuel modes w = Some w' ∧ shrinks w w'.
Proof.
  revert w. induction modes as [|m modes IH]; intros w Hw Hf; [by exists w|]. cbn [tick].
  destruct (processLoop_total fuel (p_Now w) m w Hw (Hf m)) as (r & w1 & E1 & Hsh & _). unfold processMode. rewrite E1.
  destruct (IH w1) as (w2 & E2 & Hsh2); [by destruct Hsh| |exists w2; split; [done|by eapply shrinks_trans]].
  intros m'. pose proof (submseteq_length _ _ (sh_pool _ _ Hsh m')). specialize (Hf m'). lia.
Qed.

Lemma run_total fuel modes wakes w :
  wf w → (∀ m, (length (pool w m) < fuel)%nat) →
  ∃ w', Matchmaker_Run matcher ttl fuel modes wakes w = Some (existsb (λ k, match k with WakeDone => true | WakeTicker => false end) wakes, w') ∧ shrinks w w'.
Proof.
  revert w. induction wakes as [|[] wakes IH]; intros w Hw Hf; [by exists w| |by exists w]. cbn [Matchmaker_Run existsb orb].
  destruct (tick_total fuel modes w Hw Hf) as (w1 & -> & Hsh).
  destruct (IH w1) as (w2 & E2 & Hsh2); [by destruct Hsh| |exists w2; split; [done|by eapply shrinks_trans]].
  intros m'. pose proof (submseteq_length _ _ (sh_pool _ _ Hsh m')). specialize (Hf m'). lia.
Qed.
End loop.

(** C36: the loop over one game mode terminates: an iteration that does not return removes at least
    one ticket from the pending pool, so one more iteration than there are pending tickets is
    enough fuel, and when the loop returns without an error no match can be formed from the tickets
    left: there are too few of them or the matcher finds no compatible group. *)
Theorem processMode_drains {W : Type} {P : MatchmakerPorts W} {L : MatchmakerLaws W} {U : UuidCodec}
    {R : RangeOrder} {RL : RangeOrderLaw R} {E : ErrorText} cfg mode (w : W) :
  wf w →
  ∃ r w', processMode (NewMatchmakerMatcher cfg) (cfg_SessionTokenTTL cfg) (S (length (pool w mode))) mode w
      = Some (r, w') ∧ wf w' ∧
    (r = Ok tt → ∃ l, l ≡ₚ pool w' mode ∧
       (Z.of_nat (length l) < PlayersPerMatch (NewMatchmakerMatcher cfg) ∨
        SelectGroup (NewMatchmakerMatcher cfg) (p_Now w) l = None)).
Proof.
  intros Hw. destruct (processLoop_total (NewMatchmakerMatcher cfg) (cfg_SessionTokenTTL cfg) (NewMatchmakerMatcher_pos cfg)
    (S (length (pool w mode))) (p_Now w) mode w Hw ltac:(lia)) as (r & w' & E1 & Hsh & Hd).
  exists r, w'. split; [exact E1|]. split; [exact (sh_wf _ _ Hsh)|exact Hd].
Qed.

(** the worker runs until it is told to stop.  With no mode's pool at or over the fuel, every
    sequence of ticks is worked through; the worker has returned exactly when its context was done;
    nothing entered a pool and no ticket was forgotten. *)
Theorem worker_runs {W : Type} {P : MatchmakerPorts W} {L : MatchmakerLaws W} {U : UuidCodec}
    {R : RangeOrder} {RL : RangeOrderLaw R} {E : ErrorText} cfg fuel wakes (w : W) :
  wf w → (∀ m, (length (pool w m) < fuel)%nat) →
  ∃ returned w', Matchmaker_Run (NewMatchmakerMatcher cfg) (cfg_SessionTokenTTL cfg) fuel (cfg_GameModes cfg) wakes w = Some (returned, w') ∧
    (returned = true ↔ WakeDone ∈ wakes) ∧ wf w' ∧ (∀ m, pool w' m ⊆+ pool w m).
Proof.
  intros Hw Hf. destruct (run_total (NewMatchmakerMatcher cfg) (cfg_SessionTokenTTL cfg) (NewMatchmakerMatcher_pos cfg) fuel (cfg_GameModes cfg) wakes w Hw Hf)
    as (w' & -> & [Hw' Hp _]). eexists _, w'. split_and!; [done| |done..].
  rewrite existsb_exists. split; [intros ([] & Hin & ?); [done|by apply list_elem_of_In]|intros Hin; exists WakeDone; split; [by apply list_elem_of_In|done]].
Qed.

(** what [CreateTicket] admits.  It rejects, without touching the queue, a missing player, a
    missing game mode and a party over the limit; otherwise the queue holds a pending ticket under
    the returned id with the input's rating and region and the canonical roster, announced with
    its queue position, and every other ticket is as before. *)
Theorem CreateTicket_admits {U : UuidCodec} {R : RangeOrder} maxPartySize id now input q :
  let roster := NormalizeParty (in_PlayerID input) (in_PartyMembers input) in
  let q' := state (CreateTicket maxPartySize id now input q) in
  match result (CreateTicket maxPartySize id now input q) with
  | Err e => q' = q ∧
      ((e = ErrTicketNoPlayer ∧ in_PlayerID input = uuid_Nil) ∨
       (e = ErrTicketNoGameMode ∧ in_GameMode input = "") ∨
       (e = ErrPartyTooLarge ∧ 0 < maxPartySize < Z.of_nat (length roster)))
  | Ok i => i = id ∧ in_PlayerID input <> uuid_Nil ∧ in_GameMode input <> "" ∧
      (0 < maxPartySize → Z.of_nat (length roster) ≤ maxPartySize) ∧
      (∀ j, j <> id → q_tickets q' !! j = q_tickets q !! j) ∧
      (q_tickets q !! id = None → ∃ e, q_tickets q' !! id = Some e ∧
         isPendingEntry (in_GameMode input) e = true ∧
         e_ticket e = mkTicket id (in_PlayerID input) (in_GameMode input) (in_Rating input)
                        (in_Region input) roster (in_Attributes input) now ∧
         e_latest e = Some (EventQueued now (i32 (countPendingLocked (in_GameMode input) q + 1))))
  end.
Proof.
  unfold CreateTicket, buildTicket, NewTicket, result, state. cbv zeta.
  rewrite M_bind_eval. unfold lift_res.
  case_bool_decide as Hp; [simpl; eauto|]. case_bool_decide as Hm; [simpl; eauto|].
  cbn [mbind res_bind]. destruct (_ && _) eqn:El; to_prop; [simpl; split; [done|]; right; right; split; [done|lia]|].
  rewrite M_bind_eval. unfold Enqueue. cbn [t_ID t_GameMode t_EnqueuedAt].
  assert (Hcap : 0 < maxPartySize → Z.of_nat (length (NormalizeParty (in_PlayerID input) (in_PartyMembers input))) ≤ maxPartySize).
  { intros. destruct El; to_prop; lia. }
  destruct (q_tickets q !! id) eqn:Eq; simpl; split_and!; try done.
  - intros j Hj. by rewrite lookup_insert_ne.
  - intros _. eexists. rewrite lookup_insert_eq. split_and!; [done| |done|done].
    unfold isPendingEntry. simpl. by rewrite bool_decide_eq_false_2 by naive_solver.
Qed.

(** ** The in-memory implementation

    The in-memory queue and store; the allocator and the signer are arbitrary functions (the
    allocator's answer may change from call to call), [mw_now] is the clock. *)
Record MemWorld := mkMemWorld {
  mw_queue : InMem;
  mw_store : entries;
  mw_now : time;
  mw_calls : nat;
  mw_counted : Z;
  mw_depth : gmap string Z;
}.

Section mem_world.
Context {R : RangeOrder} {RL : RangeOrderLaw R}.
Context (allocator : nat → string → Z → res RoomAllocation).
Context (signer : uuid → string → list string → time → duration → res string).

(** A queue method as an action of the world. *)
Definition on_queue {A} (m : M InMem A) : M MemWorld A := λ w,
  let '(r, q) := m (mw_queue w) in
  (r, mkMemWorld q (mw_store w) (mw_now w) (mw_calls w) (mw_counted w) (mw_depth w)).

Instance mem_ports : MatchmakerPorts MemWorld := {|
  p_Pending mode := on_queue (Pending mode);
  p_Claim mode ids := on_queue (Claim mode ids);
  p_Publish i ev := on_queue (Publish i ev);
  p_Allocate mode n := λ w,
    (allocator (mw_calls w) mode n,
     mkMemWorld (mw_queue w) (mw_store w) (mw_now w) (S (mw_calls w)) (mw_counted w) (mw_depth w));
  p_SignSession p m ps now ttl := lift_res (signer p m ps now ttl);
  p_PutAssignment p a ttl := λ w,
    let '(r, s) := Put (mw_now w) p a ttl (mw_store w) in
    (r, mkMemWorld (mw_queue w) s (mw_now w) (mw_calls w) (mw_counted w) (mw_depth w));
  p_MatchAllocated := λ w,
    (Ok tt, mkMemWorld (mw_queue w) (mw_store w) (mw_now w) (mw_calls w) (mw_counted w + 1) (mw_depth w));
  p_SetQueueDepth mode n := λ w,
    (Ok tt, mkMemWorld (mw_queue w) (mw_store w) (mw_now w) (mw_calls w) (mw_counted w) (<[mode := n]> (mw_depth w)));
  p_Now := mw_now;
|}.

(** Every entry is filed under its ticket's id and has announced something. *)
Definition keyed (ts : gmap uuid ticketEntry) : Prop :=
  ∀ i e, ts !! i = Some e → t_ID (e_ticket e) = i ∧ is_Some (e_latest e).

Definition pool_of (ts : gmap uuid ticketEntry) (mode : string) : list Ticket :=
  e_ticket <$> filter (λ e, isPendingEntry mode e = true) (snd <$> map_to_list ts).

Lemma elem_of_pool ts mode t :
  t ∈ pool_of ts mode ↔ ∃ i e, ts !! i = Some e ∧ isPendingEntry mode e = true ∧ t = e_ticket e.
Proof.
  unfold pool_of. rewrite list_elem_of_fmap. split.
  - intros (e & -> & [Hf He]%list_elem_of_filter). apply list_elem_of_fmap in He as ([i e'] & -> & Hi).
    apply elem_of_map_to_list in Hi. eauto.
  - intros (i & e & Hi & Hf & ->). exists e. split; [done|]. apply list_elem_of_filter. split; [done|].
    apply list_elem_of_fmap. exists (i, e). split; [done|]. by apply elem_of_map_to_list.
Qed.

Lemma pool_ids_NoDup ts mode : keyed ts → NoDup (t_ID <$> pool_of ts mode).
Proof.
  intros Hk. unfold pool_of. rewrite <- list_fmap_compose.
  eapply sublist_NoDup; [|apply fmap_sublist, sublist_filter]. rewrite <- list_fmap_compose.
  assert (E : ((t_ID ∘ e_ticket) ∘ snd <$> map_to_list ts) = (fst <$> map_to_list ts)).
  { apply list_fmap_ext. intros k [i e] Hl. simpl. apply list_elem_of_lookup_2, elem_of_map_to_list in Hl.
    by apply Hk. }
  rewrite E. apply NoDup_fst_map_to_list.
Qed.

Lemma pool_NoDup ts mode : keyed ts → NoDup (pool_of ts mode).
Proof. intros Hk. by eapply NoDup_fmap_1, pool_ids_NoDup. Qed.

Lemma pool_submseteq ts ts' mode :
  keyed ts' → (∀ t, t ∈ pool_of ts' mode → t ∈ pool_of ts mode) → pool_of ts' mode ⊆+ pool_of ts mode.
Proof. intros Hk Hsub. apply NoDup_submseteq; [by apply pool_NoDup|done]. Qed.

(** *** What the queue methods do to the entries *)

Lemma claimed_keyed ts ids : keyed ts → keyed (foldl markClaimed ts ids).
Proof.
  intros Hk i e. rewrite markClaimed_lookup. case_decide; [|apply Hk].
  destruct (ts !! i) eqn:El; simpl; [|done]. intros [= <-]. exact (Hk _ _ El).
Qed.

Lemma claimed_pool ts ids mode t :
  keyed ts → t ∈ pool_of (foldl markClaimed ts ids) mode ↔ t ∈ pool_of ts mode ∧ t_ID t ∉ ids.
Proof.
  intros Hk. rewrite !elem_of_pool. split.
  - intros (i & e & Hi & Hp & ->). rewrite markClaimed_lookup in Hi. case_decide as Hd.
    + destruct (ts !! i) eqn:El; simpl in Hi; [|done]. injection Hi as <-. unfold isPendingEntry in Hp.
      simpl in Hp. by rewrite orb_true_r in Hp.
    + destruct (Hk i e Hi) as [<- _]. eauto 6.
  - intros [(i & e & Hi & Hp & ->) Hn]. exists i, e. split; [|done].
    rewrite markClaimed_lookup, decide_False; [done|]. by destruct (Hk i e Hi) as [<- _].
Qed.

Lemma published_pool ts i e ev mode t :
  ts !! i = Some e →
  t ∈ pool_of (<[i := mkEntry (e_ticket e) (Some ev) (e_finished e || isTerminal ev) (e_claimed e)]> ts) mode →
  t ∈ pool_of ts mode.
Proof.
  intros He. rewrite !elem_of_pool. intros (j & e' & Hj & Hp & ->). rewrite lookup_insert in Hj.
  case_decide; [|eauto]. simplify_eq. exists j, e. split_and!; [done| |done].
  revert Hp. unfold isPendingEntry. simpl. destruct (isTerminal ev), (e_finished e), (e_claimed e); simpl; done.
Qed.

(** *** The laws *)

Definition mem_wf (w : MemWorld) : Prop := queue_inv (mw_queue w) ∧ keyed (q_tickets (mw_queue w)).
Definition mem_snapshot (w : MemWorld) (i : uuid) : option Event := q_tickets (mw_queue w) !! i ≫= e_latest.
Definition mem_pool (w : MemWorld) : string → list Ticket := pool_of (q_tickets (mw_queue w)).

Lemma mem_claim mode ids w :
  mem_wf w →
  let w' := state (p_Claim mode ids w) in
  mem_wf w' ∧ (∀ i, mem_snapshot w' i = mem_snapshot w i) ∧ mw_store w' = mw_store w ∧
  mw_counted w' = mw_counted w ∧ (∀ m, mem_pool w' m ⊆+ mem_pool w m) ∧
  match result (p_Claim mode ids w) with
  | Ok true => mem_pool w' mode ≡ₚ filter (λ t, t_ID t ∉ ids) (mem_pool w mode)
  | Ok false => w' = w ∧ ∃ i, i ∈ ids ∧ ∀ t, t ∈ mem_pool w mode → t_ID t <> i
  | Err _ => w' = w ∨ mem_pool w' mode ≡ₚ filter (λ t, t_ID t ∉ ids) (mem_pool w mode)
  end.
Proof.
  intros [Hq Hk]. unfold p_Claim, mem_ports, on_queue, state, result.
  pose proof (claim_safe mode ids _ Hq) as [Hi _]. unfold step_safe, run_op, state in Hi. rewrite M_bind_eval in Hi.
  revert Hi. unfold Claim. destruct (forallb (claimable (mw_queue w)) ids) eqn:E; simpl; intros Hi.
  - pose proof (claimed_keyed _ ids Hk) as Hk'. unfold mem_wf, mem_snapshot, mem_pool. simpl. split_and!; try done.
    + intros i. rewrite markClaimed_lookup. case_decide; [|done]. by destruct (q_tickets (mw_queue w) !! i).
    + intros m. apply pool_submseteq; [done|]. intros t Ht. by apply claimed_pool in Ht as [? _].
    + apply NoDup_Permutation; [by apply pool_NoDup|by apply NoDup_filter, pool_NoDup|].
      intros t. rewrite claimed_pool, list_elem_of_filter by done. naive_solver.
  - destruct w as [q st nw cl ct dp]. simpl in *. split; [done|]. do 4 (split; [done|]). split; [done|].
    assert (∃ i, i ∈ ids ∧ claimable q i = false) as (i & Hi' & Hc).
    { clear -E. induction ids as [|i ids IH]; simpl in E; [done|]. apply andb_false_iff in E as [E|E].
      - exists i. split; [left|done].
      - destruct (IH E) as (j & ? & ?). exists j. split; [by right|done]. }
    exists i. split; [done|]. intros t Ht <-. apply elem_of_pool in Ht as (j & e & Hj & Hp & ->).
    destruct (Hk j e Hj) as [<- _]. simpl in Hj. unfold claimable in Hc. rewrite Hj in Hc. unfold isPendingEntry in Hp.
    by destruct (e_finished e || e_claimed e).
Qed.

Lemma mem_publish i ev w :
  mem_wf w → is_Some (mem_snapshot w i) →
  let w' := state (p_Publish i ev w) in
  mem_wf w' ∧ (∀ m, mem_pool w' m ⊆+ mem_pool w m) ∧ mw_store w' = mw_store w ∧ mw_counted w' = mw_counted w ∧
  (∀ j, mem_snapshot w' j = if decide (j = i) then Some ev else mem_snapshot w j).
Proof.
  intros [Hq Hk] [s Hs]. unfold mem_snapshot in Hs. apply bind_Some in Hs as (e & He & _).
  pose proof (publishLocked_inv i ev e _ Hq He) as Hi.
  destruct (publishLocked_spec i ev e _ Hq He) as (cs & Ep & _).
  unfold p_Publish, mem_ports, on_queue, state in *. unfold Publish. rewrite He, Ep in *. simpl in *.
  assert (Hk' : keyed (<[i := mkEntry (e_ticket e) (Some ev) (e_finished e || isTerminal ev) (e_claimed e)]>
                         (q_tickets (mw_queue w)))).
  { intros j e'. rewrite lookup_insert. case_decide; [|apply Hk]. subst. intros [= <-]. simpl.
    destruct (Hk _ _ He). eauto. }
  unfold mem_wf, mem_snapshot, mem_pool. simpl. split_and!; try done.
  - intros m. apply pool_submseteq; [done|]. intros t. by apply published_pool.
  - intros j. rewrite lookup_insert. destruct (decide (i = j)), (decide (j = i)); congruence || done.
Qed.

Instance mem_laws : @MatchmakerLaws MemWorld mem_ports.
Proof.
  refine (@Build_MatchmakerLaws MemWorld mem_ports mem_wf mem_pool mem_snapshot
    (λ w p, ie_assignment <$> mw_store w !! p) mw_counted _ _ _ id _ _ id _ _ _ _ _).
  - intros mode w Hw. unfold p_Pending, mem_ports, on_queue.
    destruct (Pending_perm mode (mw_queue w)) as (out & -> & Hp). eexists. split; [by destruct w|].
    by intros l [= <-].
  - intros mode w t [_ Hk] (i & e & Hi & _ & ->)%elem_of_pool. destruct (Hk i e Hi) as [-> [ev Hev]].
    exists ev. unfold mem_snapshot. by rewrite Hi.
  - intros mode ids w Hw. destruct (mem_claim mode ids w Hw) as (? & ? & Hst & ? & ? & ?).
    split_and!; try done. intros p. by rewrite Hst.
  - by intros msg.
  - intros i ev w Hw Hi _. destruct (mem_publish i ev w Hw Hi) as (? & ? & Hst & ? & Hs).
    split_and!; try done.
    + intros p. by rewrite Hst.
    + intros j Hj. by rewrite Hs, decide_False.
    + rewrite Hs, decide_True by done. by eexists.
    + intros _. by rewrite Hs, decide_True.
  - intros p a d w Hw. simpl. split_and!; try done.
    + intros p' Hp. by rewrite lookup_insert_ne.
    + by rewrite lookup_insert_eq.
  - by intros mode n w Hw.
  - by intros p m ps now d w Hw.
  - by intros mode n w Hw.
  - by intros w Hw.
Defined.
End mem_world.

(** ** Evaluated instances *)

(** One room is available; after it the fleet is exhausted. *)
Definition demo_allocator (call : nat) (mode : string) (players : Z) : res RoomAllocation :=
  match call with
  | O => Ok (mkRoomAllocation (sample_uuid x77) "10.0.0.7:7777")
  | _ => Err (ErrText "no allocated gameserver available")
  end.

(** The signer fails for one player. *)
Definition demo_signer (p : uuid) (m : string) (ps : list string) (now : time) (ttl : duration) : res string :=
  if bool_decide (p = sample_uuid x0d) then Err (ErrText "sign") else Ok ("token-" +:+ m).

#[local] Instance demo_range : RangeOrder := range_id.
#[local] Instance demo_range_law : RangeOrderLaw demo_range := range_id_law.
#[local] Instance demo_codec : UuidCodec := hex_codec.
#[local] Instance demo_error_text : ErrorText := λ e, match e with ErrText m => m | _ => "error" end.
#[local] Instance demo_ports : MatchmakerPorts MemWorld := mem_ports demo_allocator demo_signer.
#[local] Instance demo_laws : MatchmakerLaws MemWorld := mem_laws demo_allocator demo_signer.

Definition demo_queue_ops : list op :=
  [OpEnqueue (demo_ticket x01 x0a 1000 [] (1 * Second));
   OpEnqueue (demo_ticket x02 x0b 1010 [] (2 * Second));
   OpEnqueue (demo_ticket x03 x0c 1020 [] (3 * Second));
   OpEnqueue (demo_ticket x04 x0d 1030 [] (4 * Second));
   OpEnqueue (demo_ticket x05 x0e 1040 [] (5 * Second))].

Definition demo_world : MemWorld :=
  mkMemWorld (run_ops demo_queue_ops NewInMem).2 ∅ (10 * Second) 0 0 ∅.

Definition demo_config : Config :=
  mkConfig 0 (60 * Second) 2 ["ranked"] (mkMatchingPolicy (f64_of_Z 0) (f64_of_Z 0) 0).

Definition demo_tickets (ids : list byte) : list Ticket :=
  omap (λ b, e_ticket <$> q_tickets (mw_queue demo_world) !! sample_uuid b) ids.

Lemma demo_world_wf : mem_wf demo_world.
Proof.
  split; [apply run_ops_inv, queue_inv_init|].
  refine (@bool_decide_eq_true_1 (map_Forall (λ i e, t_ID (e_ticket e) = i ∧ is_Some (e_latest e)) _) _ _).
  vm_compute. reflexivity.
Defined.


(** Five tickets: one match is formed, the second fails at the allocator and the error is returned. *)
Lemma processMode_drains_witness :
  ∃ r w', processMode (NewMatchmakerMatcher demo_config) (cfg_SessionTokenTTL demo_config) (S (length (pool demo_world "ranked"))) "ranked" demo_world
      = Some (r, w') ∧ is_ok r = false ∧ length (pool w' "ranked") = 1%nat.
Proof.
  destruct (processMode_drains (L := demo_laws) demo_config "ranked" demo_world demo_world_wf) as (r & w' & H & _).
  exists r, w'. split; [exact H|].
  assert (E : (λ p, (is_ok p.1, length (pool p.2 "ranked"))) <$>
      processMode (NewMatchmakerMatcher demo_config) (cfg_SessionTokenTTL demo_config) (S (length (pool demo_world "ranked"))) "ranked" demo_world
    = Some (false, 1%nat)) by (vm_compute; reflexivity).
  rewrite H in E. injection E as E1 E2. split; assumption.
Defined.
