(* ===== verification/SharedWorker.v ===== *)
(** * The matchmaker worker on the shared backends

    With VFX_MATCH_QUEUE=valkey, [NewGateway] wires the worker to the match queue ([ValkeyQueue]) and the
    assignments ([AssignmentStore]) that all replicas share in one Valkey.  Here they are the worker's ports ([shared_ports]), run on a server that answers, and the
    laws the worker relies on are discharged for them ([shared_laws]) through the relation [sim] to
    the in-memory queue; so every theorem of [Matchmaker] about the worker holds of this deployment
    too.  [shared_match] says what the other replicas then read. *)

From S2P Require Import Prelude GoBase GoStrings Json Valkey Match MatchQueue ValkeyQueue QueueRefinement AssignmentStore Matchmaker.

(** ** Programs that leave some keys alone *)

Section spares.
Context (K : string → Prop).

Definition cmd_spares (c : cmd json) : Prop :=
  match c with SetNX key _ _ | SetEX key _ _ | DEL key => ~ K key | _ => True end.
Fixpoint script_spares (s : script json) : Prop :=
  match s with SReturn _ => True | SCall c k => cmd_spares c ∧ ∀ r, script_spares (k r) end.
Definition request_spares (r : request json) : Prop := match r with Do c => cmd_spares c | Eval s => script_spares s end.
Fixpoint prog_spares {A} (p : prog json A) : Prop :=
  match p with Ret _ => True | Call r k => request_spares r ∧ ∀ rep, prog_spares (k rep) end.

Lemma spares_bind {A B} (p : prog json A) (f : A → prog json B) : prog_spares p → (∀ a, prog_spares (f a)) → prog_spares (p ≫= f).
Proof.
  intros Hp Hf. induction p as [[a|e]|r k IH]; [apply Hf|done|]. destruct Hp as [Hr Hk]. split; [done|]. intros rep. by apply IH.
Qed.

Lemma answer_spares newID r ks key : request_spares r → K key → ks_str (answer newID r ks).2 !! key = ks_str ks !! key.
Proof.
  assert (Hc : ∀ c ks, cmd_spares c → K key → ks_str (answer_cmd newID c ks).2 !! key = ks_str ks !! key).
  { intros c ks' Hc HK. destruct c as [k v ms|k v ms|k|k|k ms|k|k x m|k m|k m|k|k v|k n last]; cbn in *; try done.
    - destruct (ks_str ks' !! k); [done|]. apply lookup_insert_ne. by intros ->.
    - apply lookup_insert_ne. by intros ->.
    - apply lookup_delete_ne. by intros ->. }
  destruct r as [c|s]; [apply Hc|]. cbn [answer request_spares]. revert ks. induction s as [rep|c k IH]; intros ks Hs HK; [done|].
  destruct Hs as [H1 H2]. cbn [answer_script]. pose proof (Hc c ks H1 HK) as E. destruct (answer_cmd newID c ks) as [rep ks'].
  by rewrite IH.
Qed.

Lemma run_spares {A} (p : prog json A) (ks : keyspace json) key : prog_spares p → K key → ks_str (run p ks).2 !! key = ks_str ks !! key.
Proof.
  revert ks. induction p as [r|r k IH]; intros ks Hp HK; [done|]. destruct Hp as [Hr Hk]. cbn [run].
  destruct (serve r ks) as [rep ks'] eqn:E. rewrite IH by done.
  change ks' with (rep, ks').2. rewrite <- E. by apply answer_spares.
Qed.
End spares.

Section shared.
Context {U : UuidCodec} {UL : UuidCodecLaws U} {R : RangeOrder} {RL : RangeOrderLaw R}.

(** ** The data of the server *)

Definition decoded {A} (unmarshal : json → res A) (o : option json) : option A :=
  match o with Some raw => match unmarshal raw with Ok a => Some a | Err _ => None end | None => None end.

Definition ticket_at (ks : keyspace json) (id : uuid) : option Ticket := decoded unmarshalTicket (ks_str ks !! ticketKey id).
Definition event_at (ks : keyspace json) (id : uuid) : option Event :=
  match ticket_at ks id with Some _ => decoded unmarshalEvent (ks_str ks !! eventKey id) | None => None end.
Definition assignment_at (ks : keyspace json) (p : uuid) : option Assignment := decoded unmarshalAssignment (ks_str ks !! key p).
Definition tickets_in (ks : keyspace json) (mode : string) : list Ticket :=
  omap (λ m, id ← uuid_Parse m; ticket_at ks id) (map_to_list (zset ks (pendingKey mode))).*1.

Lemma ticket_at_sim q ks id : sim q ks → ticket_at ks id = e_ticket <$> q_tickets q !! id.
Proof.
  intros Hs. unfold ticket_at, decoded. destruct (q_tickets q !! id) as [e|] eqn:E.
  - destruct (sim_ticket _ _ Hs _ _ E) as (_ & raw & -> & Eu). by rewrite Eu.
  - by rewrite (sim_none _ _ Hs _ E).
Qed.

Lemma event_at_sim q ks id : sim q ks → event_at ks id = q_tickets q !! id ≫= e_latest.
Proof.
  intros Hs. unfold event_at. rewrite (ticket_at_sim q) by done. destruct (q_tickets q !! id) as [e|] eqn:E; [|done]. cbn.
  destruct (sim_event _ _ Hs _ _ E) as (ev & -> & (raw & -> & Eu) & _). cbn. by rewrite Eu.
Qed.

Lemma tickets_in_sim q ks mode : sim q ks → tickets_in ks mode ≡ₚ pool_of (q_tickets q) mode.
Proof.
  intros Hs. unfold tickets_in. rewrite (zset_members mode q ks Hs). unfold pool_of.
  rewrite <- (pending_tickets_of q mode (map_to_list (q_tickets q))) by (intros [i e] Hi; by apply elem_of_map_to_list).
  unfold pending_ids. generalize ((filter (λ p : uuid * ticketEntry, isPendingEntry mode p.2 = true) (map_to_list (q_tickets q))).*1). intros l.
  induction l as [|id l IH]; [done|]. csimpl. rewrite uuid_parse_string. cbn. rewrite (ticket_at_sim q ks id Hs). destruct (q_tickets q !! id); cbn; by rewrite IH.
Qed.

Lemma sim_keyed q ks : sim q ks → keyed (q_tickets q).
Proof. intros Hs i e He. split; [by apply (sim_ticket _ _ Hs)|]. destruct (sim_event _ _ Hs _ _ He) as (ev & -> & _). by eexists. Qed.

(** ** The ports *)

(** [sw_keys] is the server's data; the clock, the allocator's and the metrics' part are as in
    [MemWorld]. *)
Record SharedWorld := mkSharedWorld {
  sw_keys : keyspace json;
  sw_now : time;
  sw_calls : nat;
  sw_counted : Z;
  sw_depth : gmap string Z;
}.

Context (allocator : nat → string → Z → res RoomAllocation).
Context (signer : uuid → string → list string → time → duration → res string).

(** A program of requests as an action of the world. *)
Definition on_server {A} (p : prog json A) : M SharedWorld A := λ w,
  let '(r, ks) := run p (sw_keys w) in
  (r, mkSharedWorld ks (sw_now w) (sw_calls w) (sw_counted w) (sw_depth w)).

Instance shared_ports : MatchmakerPorts SharedWorld := {|
  p_Pending mode := on_server (Pending mode);
  p_Claim mode ids := on_server (Claim mode ids);
  p_Publish i ev := on_server (Publish i ev);
  p_Allocate mode n := λ w,
    (allocator (sw_calls w) mode n,
     mkSharedWorld (sw_keys w) (sw_now w) (S (sw_calls w)) (sw_counted w) (sw_depth w));
  p_SignSession p m ps now ttl := lift_res (signer p m ps now ttl);
  p_PutAssignment p a ttl := on_server (Valkey_Put p a ttl);
  p_MatchAllocated := λ w,
    (Ok tt, mkSharedWorld (sw_keys w) (sw_now w) (sw_calls w) (sw_counted w + 1) (sw_depth w));
  p_SetQueueDepth mode n := λ w,
    (Ok tt, mkSharedWorld (sw_keys w) (sw_now w) (sw_calls w) (sw_counted w) (<[mode := n]> (sw_depth w)));
  p_Now := sw_now;
|}.

(** ** What each program does to the data *)

Definition is_assignment_key (k : string) : Prop := ∃ p, k = key p.

Lemma queue_key_not_assignment id : ~ is_assignment_key (eventKey id) ∧ ~ is_assignment_key (ticketKey id).
Proof. split; intros [p Hp]; discriminate Hp. Qed.

Lemma read_only {A} (p : prog json A) ks (Q : res A → Prop) :
  spec p ks (λ r ks', Q r ∧ ks' = ks) → ∃ r, run p ks = (r, ks) ∧ Q r.
Proof. intros H. destruct (H ks eq_refl) as [HQ E]. destruct (run p ks) as [r ks']. simpl in *. subst. by eexists. Qed.

Lemma pending_reads mode q ks : sim q ks → ∃ l, run (Pending mode) ks = (Ok l, ks) ∧ l ≡ₚ tickets_in ks mode.
Proof.
  intros Hs. destruct (read_only (Pending mode) ks (λ r, ∃ l, r = Ok l ∧ l ≡ₚ tickets_in ks mode)) as (r & E & l & -> & Hl).
  2: { by exists l. }
  unfold Pending. apply spec_bind, spec_send. intros newID. cbn.
  assert (Hp : uuid_String <$> pending_ids mode q ≡ₚ (isort member_before (map_to_list (zset ks (pendingKey mode)))).*1).
  { rewrite <- (zset_members mode q ks Hs). apply fmap_Permutation. symmetry. apply isort_perm. }
  destruct (Permutation_map_inv _ _ (symmetry Hp)) as (l & -> & Hl).
  apply (pendingTickets_spec l q); [done|]. split; [|done]. eexists. split; [done|].
  rewrite (tickets_in_sim q) by done. unfold pool_of.
  rewrite <- (pending_tickets_of q mode (map_to_list (q_tickets q))) by (intros [i e] Hi; by apply elem_of_map_to_list).
  apply omap_Permutation. symmetry. exact Hl.
Qed.

(** The in-memory queue with nothing around it: what [Matchmaker] proves of the in-memory ports, it
    proves of any queue [sim] relates to the server. *)
Definition alone (q : InMem) : MemWorld := mkMemWorld q ∅ 0 0 0 ∅.

Lemma alone_wf q ks : sim q ks → mem_wf (alone q).
Proof. intros Hs. split; [by apply (sim_inv _ _ Hs)|by eapply sim_keyed]. Qed.

Lemma pool_member_in_zset q ks mode t : sim q ks → t ∈ tickets_in ks mode → in_zset ks (pendingKey mode) (uuid_String (t_ID t)) = true.
Proof.
  intros Hs. rewrite (tickets_in_sim q) by done. intros (i & e & He & Hp & ->)%elem_of_pool.
  unfold in_zset. apply bool_decide_eq_true, (sim_pool _ _ Hs). exists i, e. split_and!; [|done..]. f_equal. by apply (sim_ticket _ _ Hs).
Qed.

(** Claiming: either some ticket is not in the set and nothing happens, or the in-memory queue makes
    the same claim. *)
Lemma shared_claim_effect mode ids q ks : sim q ks →
  let '(r, ks') := run (Claim mode ids) ks in
  (r = Ok false ∧ ks' = ks ∧ ∃ i, i ∈ ids ∧ ∀ t, t ∈ tickets_in ks mode → t_ID t <> i) ∨
  (r = Ok true ∧ ∃ q', MatchQueue.Claim mode ids q = (Ok true, q') ∧ sim q' ks').
Proof.
  intros Hs. destruct (forallb (in_zset ks (pendingKey mode)) (uuid_String <$> ids)) eqn:Ec.
  - assert (Ha : admissible q (SClaim mode ids)).
    { intros id e Hid He. rewrite forallb_forall in Ec. specialize (Ec (uuid_String id)).
      unfold in_zset in Ec. rewrite bool_decide_eq_true, (sim_pool _ _ Hs) in Ec.
      destruct Ec as (j & e' & Hj & He' & Hp); [apply list_elem_of_In; by apply list_elem_of_fmap_2|].
      apply uuid_String_inj in Hj as <-. simplify_eq. unfold isPendingEntry in Hp. destruct (_ || _); [done|].
      by case_bool_decide. }
    pose proof (claim_sim mode ids q ks Hs Ha ks eq_refl) as [Hr Hs']. cbn [valkey_call mem_call] in *.
    rewrite M_bind_eval in *. rewrite run_bind in *. revert Hr Hs'.
    assert (E : (run (Claim mode ids) ks).1 = Ok true).
    { assert (H : spec (Claim mode ids) ks (λ r _, r = Ok true)); [|exact (H ks eq_refl)].
      unfold Claim. apply spec_bind, spec_call. intros newID _. rewrite claimScript_answer, Ec. cbn. by apply spec_ret. }
    destruct (run (Claim mode ids) ks) as [r ks']. cbn [fst snd] in E. subst r.
    unfold MatchQueue.Claim. destruct (forallb (claimable q) ids); cbn; [|by intros [=]].
    intros _ Hs'. right. split; [done|]. by eexists.
  - destruct (read_only (Claim mode ids) ks (λ r, r = Ok false)) as (r & -> & ->).
    { unfold Claim. apply spec_bind, spec_call. intros newID _. rewrite claimScript_answer, Ec. cbn. by apply spec_ret. }
    left. split_and!; [done..|]. apply not_true_iff_false in Ec. rewrite forallb_forall in Ec.
    assert (∃ i, i ∈ ids ∧ in_zset ks (pendingKey mode) (uuid_String i) = false) as (i & Hi & Hz).
    { clear -Ec. induction ids as [|i ids IH]; [by destruct Ec|].
      destruct (in_zset ks (pendingKey mode) (uuid_String i)) eqn:E; [|exists i; split; [left|done]].
      destruct IH as (j & ? & ?); [|exists j; split; [by right|done]].
      intros H. apply Ec. intros x [<-|Hx]; [done|by apply H]. }
    exists i. split; [done|]. intros t Ht <-. by rewrite (pool_member_in_zset q ks mode t Hs Ht) in Hz.
Qed.

(** Publishing a final event: what JSON can express is published as it is kept; the rest is refused. *)
Lemma shared_publish_effect i ev q ks : sim q ks → is_Some (event_at ks i) → isTerminal ev = true →
  let '(r, ks') := run (Publish i ev) ks in
  (encodable_event ev = false ∧ is_ok r = false ∧ ks' = ks) ∨
  (encodable_event ev = true ∧ r = Ok tt ∧ ∃ q', MatchQueue.Publish i (kept_event ev) q = (Ok tt, q') ∧ sim q' ks').
Proof.
  intros Hs [ev0 Hev0] Ht. rewrite (event_at_sim q) in Hev0 by done. apply bind_Some in Hev0 as (e & He & _).
  destruct (encodable_event ev) eqn:Ee.
  - assert (H : spec (Publish i ev) ks (λ r ks', r = Ok tt ∧ ∃ q', MatchQueue.Publish i (kept_event ev) q = (Ok tt, q') ∧ sim q' ks')).
    { unfold Publish. apply spec_bind, (getTicket_spec q); [done|]. rewrite He.
      apply (publish_kept_sim i ev e q); [done..|]. intros ks' Hr Hs'. split; [done|].
      unfold MatchQueue.Publish. rewrite He. unfold result, state in *. destruct (publishLocked i (kept_event ev) q) as [r q'].
      cbn [fst snd] in *. subst r. by eexists. }
    pose proof (H ks eq_refl) as [Hr Hq]. destruct (run (Publish i ev) ks) as [r ks']. right. by split.
  - destruct (read_only (Publish i ev) ks (λ r, is_ok r = false)) as (r & -> & Hr); [|by left].
    unfold Publish. apply spec_bind, (getTicket_spec q); [done|]. rewrite He. unfold publish, setEvent.
    destruct (event_document ev) as [[? _]|(_ & Em)]; [congruence|]. destruct (marshalEvent ev); [done|]. cbn. by apply spec_ret.
Qed.

(** Storing an assignment touches its key only. *)
Lemma shared_put_effect p a d ks :
  let '(r, ks') := run (Valkey_Put p a d) ks in
  (encodable_assignment a = true ∧ r = Ok tt ∧ ∃ raw, unmarshalAssignment raw = Ok (kept_assignment a) ∧ ks' = set_str <[key p := raw]> ks) ∨
  (encodable_assignment a = false ∧ is_ok r = false ∧ ks' = ks).
Proof.
  destruct (encodable_assignment a) eqn:Ee.
  - destruct (assignment_document a Ee) as (raw & Em & Eu).
    assert (H : spec (Valkey_Put p a d) ks (λ r ks', r = Ok tt ∧ ks' = set_str <[key p := raw]> ks)).
    { unfold Valkey_Put. rewrite Em. apply spec_call. intros newID _. by apply spec_ret. }
    pose proof (H ks eq_refl) as Hr. destruct (run (Valkey_Put p a d) ks) as [r ks']. destruct Hr as [Hr E]. cbn in Hr, E. subst. left. split_and!; [done..|]. by exists raw.
  - destruct (read_only (Valkey_Put p a d) ks (λ r, is_ok r = false)) as (r & -> & Hr); [|by right].
    unfold Valkey_Put. assert (is_ok (marshalAssignment a) = false).
    { revert Ee. destruct a as [mid ep tok exp]. unfold encodable_assignment, marshalAssignment, object, field. simpl. unfold enc_time. by intros ->. }
    destruct (marshalAssignment a); [done|]. cbn. by apply spec_ret.
Qed.

(** *** The queue's programs leave the assignments alone *)

Lemma spares_send c : cmd_spares is_assignment_key c → prog_spares is_assignment_key (send c).
Proof. by split. Qed.

Lemma spares_ret {A} (r : res A) : prog_spares is_assignment_key (ret_res r).
Proof. done. Qed.

Lemma setEvent_spares i ev : prog_spares is_assignment_key (setEvent i ev).
Proof.
  apply spares_bind; [done|]. intros data. apply spares_bind; [apply spares_send, queue_key_not_assignment|done].
Qed.

Lemma publish_spares_assignments i ev : prog_spares is_assignment_key (Publish i ev).
Proof.
  apply spares_bind.
  - apply spares_bind; [by apply spares_send|]. intros rep. destruct (ToString rep); [done|]. by destruct (IsValkeyNil e).
  - intros t. apply spares_bind; [apply setEvent_spares|]. intros _. apply spares_bind.
    + unfold prog_when. destruct (isTerminalEvent ev); [|done]. apply spares_bind; [by apply spares_send|done].
    + intros _. apply spares_bind; [done|]. intros data. apply spares_bind; [by apply spares_send|]. intros rep.
      apply spares_bind; [done|]. intros _. apply spares_bind; [by apply spares_send|done].
Qed.

Lemma claim_spares_assignments mode ids : prog_spares is_assignment_key (Claim mode ids).
Proof.
  apply spares_bind; [|intros rep; by apply spares_bind]. split; [|done]. cbn. unfold claimScript. generalize (uuid_String <$> ids). intros args.
  assert (Hr : ∀ args', script_spares is_assignment_key (claim_remove (pendingKey mode) args' (SReturn (RInt 1)))).
  { intros args'. induction args' as [|a args' IH]; [done|]. by split. }
  enough (H : ∀ args' next, script_spares is_assignment_key next → script_spares is_assignment_key (claim_check (pendingKey mode) args' next)) by (by apply H).
  intros args' next Hn. induction args' as [|a args' IH]; [done|]. split; [done|]. intros []; done.
Qed.

Lemma spared_assignments {A} (p : prog json A) ks player :
  prog_spares is_assignment_key p → assignment_at (run p ks).2 player = assignment_at ks player.
Proof. intros Hp. unfold assignment_at. rewrite (run_spares is_assignment_key); [done..|]. by exists player. Qed.

(** ** The laws *)

Definition shared_wf (w : SharedWorld) : Prop := ∃ q, sim q (sw_keys w).

Lemma sim_put q ks p raw : sim q ks → sim q (set_str <[key p := raw]> ks).
Proof.
  assert (Hne : ∀ k, ~ is_assignment_key k → ks_str (set_str <[key p := raw]> ks) !! k = ks_str ks !! k).
  { intros k Hk. apply lookup_insert_ne. intros <-. apply Hk. by exists p. }
  intros [H1 H2 H3 H4 H5]. split; [done| | | |done].
  - intros id e He. destruct (H2 id e He) as [? ?]. by rewrite Hne by apply (queue_key_not_assignment id).
  - intros id Hn. rewrite Hne by apply (queue_key_not_assignment id). by apply H3.
  - intros id e He. destruct (H4 id e He) as (ev & ? & ? & ?). exists ev. by rewrite Hne by apply (queue_key_not_assignment id).
Qed.

Lemma shared_claim mode ids w : shared_wf w →
  let w' := state (p_Claim mode ids w) in
  shared_wf w' ∧ (∀ i, event_at (sw_keys w') i = event_at (sw_keys w) i) ∧
  (∀ p, assignment_at (sw_keys w') p = assignment_at (sw_keys w) p) ∧ sw_counted w' = sw_counted w ∧
  (∀ m, tickets_in (sw_keys w') m ⊆+ tickets_in (sw_keys w) m) ∧
  match result (p_Claim mode ids w) with
  | Ok true => tickets_in (sw_keys w') mode ≡ₚ filter (λ t, t_ID t ∉ ids) (tickets_in (sw_keys w) mode)
  | Ok false => w' = w ∧ ∃ i, i ∈ ids ∧ ∀ t, t ∈ tickets_in (sw_keys w) mode → t_ID t <> i
  | Err _ => w' = w ∨ tickets_in (sw_keys w') mode ≡ₚ filter (λ t, t_ID t ∉ ids) (tickets_in (sw_keys w) mode)
  end.
Proof.
  intros [q Hs]. unfold p_Claim, shared_ports, on_server. pose proof (shared_claim_effect mode ids q _ Hs) as He.
  pose proof (λ p, spared_assignments (Claim mode ids) (sw_keys w) p (claim_spares_assignments mode ids)) as Ha.
  destruct (run (Claim mode ids) (sw_keys w)) as [r ks']. unfold state, result. cbn in *.
  destruct He as [(-> & -> & Hi)|(-> & q' & Eq & Hs')].
  { destruct w. split_and!; try done. by exists q. }
  pose proof (mem_claim allocator signer mode ids (alone q) (alone_wf q _ Hs)) as Hm.
  unfold p_Claim, mem_ports, on_queue, state, result in Hm. cbn in Hm. rewrite Eq in Hm. cbn in Hm.
  destruct Hm as (_ & Hsn & _ & _ & Hp & Hpm). unfold mem_snapshot, mem_pool in *. cbn in *. split_and!; try done.
  - by exists q'.
  - intros i. by rewrite (event_at_sim q'), (event_at_sim q).
  - intros m. by rewrite (tickets_in_sim q'), (tickets_in_sim q).
  - by rewrite (tickets_in_sim q'), (tickets_in_sim q).
Qed.

Lemma shared_publish i ev w : shared_wf w → is_Some (event_at (sw_keys w) i) → isTerminal ev = true →
  let w' := state (p_Publish i ev w) in
  shared_wf w' ∧ (∀ m, tickets_in (sw_keys w') m ⊆+ tickets_in (sw_keys w) m) ∧
  (∀ p, assignment_at (sw_keys w') p = assignment_at (sw_keys w) p) ∧ sw_counted w' = sw_counted w ∧
  (∀ j, j <> i → event_at (sw_keys w') j = event_at (sw_keys w) j) ∧ is_Some (event_at (sw_keys w') i) ∧
  (result (p_Publish i ev w) = Ok tt → event_at (sw_keys w') i = Some (kept_event ev)) ∧
  is_ok (result (p_Publish i ev w)) = encodable_event ev.
Proof.
  intros [q Hs] Hi Ht. unfold p_Publish, shared_ports, on_server. pose proof (shared_publish_effect i ev q _ Hs Hi Ht) as He.
  pose proof (λ p, spared_assignments (Publish i ev) (sw_keys w) p (publish_spares_assignments i ev)) as Ha.
  destruct (run (Publish i ev) (sw_keys w)) as [r ks']. unfold state, result. cbn in *.
  destruct He as [(Ee & Er & ->)|(Ee & -> & q' & Eq & Hs')].
  { rewrite Ee. split_and!; try done; [by exists q|]. intros ->. discriminate Er. }
  rewrite (event_at_sim q) in Hi by done.
  pose proof (mem_publish allocator signer i (kept_event ev) (alone q) (alone_wf q _ Hs) Hi) as Hm.
  unfold p_Publish, mem_ports, on_queue, state in Hm. cbn in Hm. rewrite Eq in Hm. cbn in Hm.
  destruct Hm as (_ & Hp & _ & _ & Hsn). unfold mem_snapshot, mem_pool in *. cbn in *. split_and!; try done.
  - by exists q'.
  - intros m. by rewrite (tickets_in_sim q'), (tickets_in_sim q).
  - intros j Hj. by rewrite (event_at_sim q'), (event_at_sim q), Hsn, decide_False.
  - rewrite (event_at_sim q'), Hsn, decide_True by done. by eexists.
  - intros _. by rewrite (event_at_sim q'), Hsn, decide_True.
Qed.

Lemma shared_put p a d w : shared_wf w →
  let w' := state (p_PutAssignment p a d w) in
  shared_wf w' ∧ (∀ m, tickets_in (sw_keys w') m = tickets_in (sw_keys w) m) ∧
  (∀ i, event_at (sw_keys w') i = event_at (sw_keys w) i) ∧ sw_counted w' = sw_counted w ∧
  (∀ p', p' <> p → assignment_at (sw_keys w') p' = assignment_at (sw_keys w) p') ∧
  (result (p_PutAssignment p a d w) = Ok tt → assignment_at (sw_keys w') p = Some (kept_assignment a)) ∧
  is_ok (result (p_PutAssignment p a d w)) = encodable_assignment a.
Proof.
  intros [q Hs]. unfold p_PutAssignment, shared_ports, on_server. pose proof (shared_put_effect p a d (sw_keys w)) as He.
  destruct (run (Valkey_Put p a d) (sw_keys w)) as [r ks']. unfold state, result. cbn in *.
  destruct He as [(Ee & -> & raw & Eu & ->)|(Ee & Er & ->)].
  2: { rewrite Ee. split_and!; try done; [by exists q|]. intros ->. discriminate Er. }
  pose proof (sim_put q _ p raw Hs) as Hs'.
  assert (Ht : ∀ i, ticket_at (set_str <[key p := raw]> (sw_keys w)) i = ticket_at (sw_keys w) i).
  { intros i. by rewrite !(ticket_at_sim q). }
  split_and!; try done.
  - by exists q.
  - intros m. unfold tickets_in. change (zset (set_str _ _) _) with (zset (sw_keys w) (pendingKey m)).
    generalize ((map_to_list (zset (sw_keys w) (pendingKey m))).*1). intros l. induction l as [|x l IH]; [done|]. csimpl.
    rewrite IH. destruct (uuid_Parse x); cbn; [by rewrite Ht|done].
  - intros i. by rewrite !(event_at_sim q).
  - intros p' Hp. unfold assignment_at. cbn. rewrite lookup_insert_ne; [done|]. intros H. by apply key_inj in H.
  - intros _. unfold assignment_at. cbn. rewrite lookup_insert_eq. cbn. by rewrite Eu.
Qed.

Instance shared_laws : @MatchmakerLaws SharedWorld shared_ports.
Proof.
  refine (@Build_MatchmakerLaws SharedWorld shared_ports shared_wf (λ w, tickets_in (sw_keys w)) (λ w, event_at (sw_keys w))
    (λ w, assignment_at (sw_keys w)) sw_counted _ _ shared_claim kept_event _ _ kept_assignment _ _ _ _ _).
  - intros mode w [q Hs]. destruct (pending_reads mode q _ Hs) as (l & E & Hl). exists (Ok l).
    unfold p_Pending, shared_ports, on_server. rewrite E. split; [by destruct w|]. by intros l' [= <-].
  - intros mode w t [q Hs] Ht. rewrite (tickets_in_sim q) in Ht by done. apply elem_of_pool in Ht as (i & e & Hi & _ & ->).
    rewrite (event_at_sim q) by done. destruct (sim_keyed _ _ Hs i e Hi) as [-> [ev Hev]]. exists ev. by rewrite Hi.
  - by intros msg [->| ->].
  - intros i ev w Hw Hi Ht. destruct (shared_publish i ev w Hw Hi Ht) as (? & ? & ? & ? & ? & ? & ? & _). by split_and!.
  - intros p a d w Hw. destruct (shared_put p a d w Hw) as (? & ? & ? & ? & ? & ? & _). by split_and!.
  - by intros mode n w Hw.
  - by intros p m ps now d w Hw.
  - by intros mode n w Hw.
  - by intros w Hw.
Defined.

(** ** What the other replicas see *)

(** A ticket whose latest event is final is in no pool: no replica's claim can win it again. *)
Definition out_of_play (ks : keyspace json) (id : uuid) : Prop :=
  ∀ mode ids, id ∈ ids → run (Claim mode ids) ks = (Ok false, ks).

Lemma terminal_out_of_play q ks id ev : sim q ks → event_at ks id = Some ev → isTerminal ev = true → out_of_play ks id.
Proof.
  intros Hs He Ht mode ids Hid. rewrite (event_at_sim q) in He by done. apply bind_Some in He as (e & He & Hl).
  destruct (sim_event _ _ Hs _ _ He) as (ev' & Hl' & _ & Hf). rewrite Hl in Hl'. injection Hl' as <-. rewrite Ht in Hf.
  assert (Hz : in_zset ks (pendingKey mode) (uuid_String id) = false).
  { apply bool_decide_eq_false. rewrite (sim_pool _ _ Hs). intros (j & e' & Hj & He' & Hp). apply uuid_String_inj in Hj as <-.
    simplify_eq. unfold isPendingEntry in Hp. by rewrite Hf in Hp. }
  assert (Hc : forallb (in_zset ks (pendingKey mode)) (uuid_String <$> ids) = false).
  { apply not_true_iff_false. rewrite forallb_forall. intros H. rewrite H in Hz; [done|]. apply list_elem_of_In. by apply list_elem_of_fmap_2. }
  destruct (read_only (Claim mode ids) ks (λ r, r = Ok false)) as (r & -> & ->); [|done].
  unfold Claim. apply spec_bind, spec_call. intros newID _. rewrite claimScript_answer, Hc. cbn. by apply spec_ret.
Qed.

Lemma event_read q ks id ev : sim q ks → event_at ks id = Some ev → run (latestEvent id) ks = (Ok (Some ev), ks).
Proof.
  intros Hs He. rewrite (event_at_sim q) in He by done. apply bind_Some in He as (e & He & Hl).
  destruct (read_only (latestEvent id) ks (λ r, r = Ok (Some ev))) as (r & -> & ->); [|done].
  apply (latestEvent_spec q _ _ e); [done..|]. by rewrite Hl.
Qed.

Lemma assignment_read ks p a : assignment_at ks p = Some a → run (Valkey_Get p) ks = (Ok (Some a), ks).
Proof.
  unfold assignment_at, decoded. intros Ha.
  destruct (read_only (Valkey_Get p) ks (λ r, r = Ok (Some a))) as (r & -> & ->); [|done].
  unfold Valkey_Get. apply spec_bind, spec_send. intros newID. cbn. destruct (ks_str ks !! key p) as [raw|]; [|done]. cbn.
  destruct (unmarshalAssignment raw) as [a'|]; [|done]. injection Ha as ->. by apply spec_ret.
Qed.

(** One ticket of a group that was given the room [a] at [now], as any replica sees it. *)
Definition replicas_read (ttl : duration) (a : RoomAllocation) (players : list string) (now : time) (ks : keyspace json) (t : Ticket) (ok : bool) : Prop :=
  let signed := signer (t_PlayerID t) (uuid_String (ra_MatchID a)) players now ttl in
  out_of_play ks (t_ID t) ∧
  if ok then
    ∃ token, signed = Ok token ∧
      let asg := kept_assignment (assignment_for a (time_Add now ttl) token) in
      run (latestEvent (t_ID t)) ks = (Ok (Some (EventMatched asg)), ks) ∧ run (Valkey_Get (t_PlayerID t)) ks = (Ok (Some asg), ks)
  else
    ∃ msg, run (latestEvent (t_ID t)) ks = (Ok (Some (EventFailed "internal" msg)), ks) ∧
      (msg = "failed to issue session token" ∧ is_ok signed = false ∨
       msg = "failed to record assignment" ∧ json_time_ok (time_Add now ttl) = false).

(** What the worker tells a ticket is on the server: the publication of an event that JSON can
    express does not fail. *)
Lemma told_here w w' i ev :
  is_Some (event_at (sw_keys w) i) → isTerminal ev = true → encodable_event ev = true →
  told (L := shared_laws) w w' i ev → event_at (sw_keys w') i = Some (kept_event ev).
Proof.
  intros Hi Ht He [H|(w0 & [H0 _] & Hf)]; [exact H|].
  destruct (shared_publish i ev w0 (sh_wf _ _ H0) (sh_known _ _ H0 i Hi) Ht) as (_ & _ & _ & _ & _ & _ & _ & Hok).
  pose proof (eq_trans (eq_sym Hok) Hf). congruence.
Qed.

(** A token is signed the same whenever it is asked for, and an assignment is stored whenever its expiry
    can be written; so the player of a ticket that was signed finds the assignment, whichever
    of their tickets of the group it was for. *)
Lemma player_recovers ttl a players now exp w w' ts oks player token :
  all_settled (L := shared_laws) ttl a players now exp w w' ts oks → player ∈ t_PlayerID <$> ts →
  signer player (uuid_String (ra_MatchID a)) players now ttl = Ok token → json_time_ok exp = true →
  assignment_at (sw_keys w') player = Some (kept_assignment (assignment_for a exp token)).
Proof.
  intros Hall Hin Hsig Hexp. revert oks Hall. induction ts as [|t ts IH]; intros [|ok oks]; try done; [by apply elem_of_nil in Hin|].
  intros [Ht Hr]. csimpl in Hin. destruct (decide (player ∈ t_PlayerID <$> ts)) as [Hlater|Hlast]; [by eapply IH|].
  apply elem_of_cons in Hin as [->|?]; [|done]. destruct ok; cbn [settled] in Ht.
  - destruct Ht as (token' & _ & Ha & (w0 & _ & Hs) & _). unfold result, sign in Hs. cbn in Hs. rewrite Hsig in Hs. injection Hs as <-. by apply Ha.
  - exfalso. destruct Ht as [[_ (w0 & _ & Hs)]|(_ & token' & _ & w0 & [H0 _] & Hp)].
    + unfold result, sign in Hs. cbn in Hs. by rewrite Hsig in Hs.
    + destruct (shared_put (t_PlayerID t) (assignment_for a exp token') ttl w0 (sh_wf _ _ H0)) as (_ & _ & _ & _ & _ & _ & Hok).
      pose proof (eq_trans (eq_sym Hok) Hp) as Hno. change (json_time_ok exp = false) in Hno. congruence.
Qed.

Lemma settled_read ttl a players now q w w' t ok last :
  sim q (sw_keys w') → is_Some (event_at (sw_keys w) (t_ID t)) →
  (∀ token, signer (t_PlayerID t) (uuid_String (ra_MatchID a)) players now ttl = Ok token → json_time_ok (time_Add now ttl) = true →
     assignment_at (sw_keys w') (t_PlayerID t) = Some (kept_assignment (assignment_for a (time_Add now ttl) token))) →
  settled (L := shared_laws) ttl a players now (time_Add now ttl) w w' last t ok → replicas_read ttl a players now (sw_keys w') t ok.
Proof.
  intros Hs Hk Hrec. pose proof (λ ev, told_here w w' (t_ID t) ev Hk) as Htold. unfold replicas_read. cbv zeta. destruct ok; cbn [settled].
  - intros (token & T & _ & (w0 & _ & Hsig) & w1 & [H1 _] & Hput).
    assert (Hexp : json_time_ok (time_Add now ttl) = true).
    { destruct (shared_put (t_PlayerID t) (assignment_for a (time_Add now ttl) token) ttl w1 (sh_wf _ _ H1)) as (_ & _ & _ & _ & _ & _ & Hok).
      exact (eq_trans (eq_sym Hok) (f_equal is_ok Hput)). }
    apply Htold in T; [|done..]. split; [by eapply terminal_out_of_play|]. exists token. split; [exact Hsig|].
    split; [by apply (event_read q)|]. by apply assignment_read, Hrec.
  - assert (He : ∀ msg, event_at (sw_keys w') (t_ID t) = Some (EventFailed "internal" msg) →
        out_of_play (sw_keys w') (t_ID t) ∧ run (latestEvent (t_ID t)) (sw_keys w') = (Ok (Some (EventFailed "internal" msg)), sw_keys w')).
    { intros msg H. split; [by eapply terminal_out_of_play|by apply (event_read q)]. }
    intros [[T (w0 & _ & Hsig)]|(T & token & _ & w0 & [H0 _] & Hput)]; apply Htold, He in T as [Hout Hev]; try done;
      (split; [exact Hout|]; eexists; split; [exact Hev|]); [by left|right]. split; [done|].
    destruct (shared_put (t_PlayerID t) (assignment_for a (time_Add now ttl) token) ttl w0 (sh_wf _ _ H0)) as (_ & _ & _ & _ & _ & _ & Hok).
    exact (eq_trans (eq_sym Hok) Hput).
Qed.

Lemma all_settled_read ttl a players now q w w' ts oks :
  sim q (sw_keys w') → (∀ t, t ∈ ts → is_Some (event_at (sw_keys w) (t_ID t))) →
  all_settled (L := shared_laws) ttl a players now (time_Add now ttl) w w' ts oks → Forall2 (replicas_read ttl a players now (sw_keys w')) ts oks.
Proof.
  intros Hs Hk Hall. pose proof (λ p token, player_recovers ttl a players now _ w w' ts oks p token Hall) as Hrec.
  assert (H : ∀ l oks', (∀ t, t ∈ l → t ∈ ts) → all_settled (L := shared_laws) ttl a players now (time_Add now ttl) w w' l oks' →
    Forall2 (replicas_read ttl a players now (sw_keys w')) l oks'); [|by apply H].
  induction l as [|t l IH]; intros [|ok oks'] Hsub; try done. intros [Ht Hr]. constructor; [|apply IH; [intros t' Ht'; apply Hsub; by right|done]].
  assert (Hin : t ∈ ts) by (apply Hsub; left).
  eapply (settled_read _ _ _ _ q); [done|by apply Hk| |exact Ht]. intros token. apply Hrec. by apply list_elem_of_fmap_2.
Qed.

(** C20: the worker of one replica settles a group for all of them. On a shared Valkey that holds
    the queue, a worker that wins the claim of a group of distinct tickets and gets a room for
    it ends with every ticket settled on the server. Either any replica that asks for the
    ticket's event and for the player's current match reads one and the same assignment: for
    that room, with the token the signer issued for the player and the players of the group, its
    text as UTF-8 keeps it; or it reads an "internal" failure: the signer refused, or the expiry
    is past the years JSON can write. Either way no replica can claim the ticket again. The
    match is counted exactly when every ticket was matched. This holds of a group with two
    tickets of one player too. (The server answers, none of its keys has lapsed, and the
    signer's answer depends on what it is asked alone.) *)
Theorem shared_match {E : ErrorText} ttl mode (ts : list Ticket) (a : RoomAllocation) (w w1 w2 : SharedWorld) :
  shared_wf w → (∀ t, t ∈ ts → is_Some (event_at (sw_keys w) (t_ID t))) → NoDup (t_ID <$> ts) →
  p_Claim mode (t_ID <$> ts) w = (Ok true, w1) → p_Allocate mode (Z.of_nat (length ts)) w1 = (Ok a, w2) →
  ∃ oks w', pair ttl mode ts w = (Ok tt, w') ∧
    Forall2 (replicas_read ttl a (group_players ts) (sw_now w2) (sw_keys w')) ts oks ∧
    sw_counted w' = sw_counted w + (if forallb id oks then 1 else 0).
Proof.
  intros Hw Hk Hnd Ec Ea.
  destruct (pair_allocated (L := shared_laws) ttl mode ts a w w1 w2 Hw Hk Hnd Ec Ea) as (oks & w' & Ep & H2 & H' & Hf & Hc & _).
  destruct (sh_wf _ _ H') as [q Hs]. exists oks, w'. split_and!; [done| |exact Hc].
  apply (all_settled_read _ _ _ _ q w2); [done| |exact Hf]. intros t Ht. exact (sh_known _ _ H2 (t_ID t) (Hk t Ht)).
Qed.

(** ** A server after some calls *)

Fixpoint keys_after (calls : list shared_call) (ks : keyspace json) : keyspace json :=
  match calls with
  | [] => ks
  | c :: calls' => keys_after calls' (run (valkey_call c) ks).2
  end.

Lemma keys_after_sim calls q ks : sim q ks → all_admissible calls q → ∃ q', sim q' (keys_after calls ks).
Proof.
  revert q ks. induction calls as [|c calls IH]; intros q ks Hs; [intros _; by exists q|]. intros [Hc Hrest].
  destruct (call_sim (L := keyspace_laws) c q ks Hs Hc ks eq_refl) as [_ Hs']. by eapply IH.
Qed.
End shared.

(** ** Evaluated instances *)

#[local] Existing Instance hex_codec.
#[local] Instance shared_error_text : ErrorText := λ e, match e with ErrText m => m | _ => "error" end.

(** A ticket of one player; two of them may be the same player's. *)
Definition ticket_of (b player : byte) : Ticket :=
  mkTicket (sample_uuid b) (sample_uuid player) "duel" (Some (f64_of_Z 1500)) (Some "eu") [sample_uuid player] {["ping" := "40"]} 1700000000000000000.

Definition shared_calls : list shared_call :=
  [SEnqueue (ticket_of x01 x0a); SEnqueue (ticket_of x02 x0d); SEnqueue (ticket_of x03 x0a); SEnqueue (ticket_of x04 x0b)].

Definition shared_world : SharedWorld := mkSharedWorld (keys_after shared_calls empty_keyspace) (10 * Second) 0 0 ∅.

Definition shared_group : list Ticket := [ticket_of x01 x0a; ticket_of x02 x0d; ticket_of x03 x0a].

Lemma ticket_of_clean b player : clean_ticket (ticket_of b player).
Proof. split_and!; [reflexivity|by intros r [= <-]|]. apply map_Forall_singleton. split; reflexivity. Qed.

Lemma shared_calls_admissible : all_admissible (R := range_rev) shared_calls NewInMem.
Proof. unfold shared_calls. cbn [all_admissible]. repeat (split; [split; [apply ticket_of_clean|reflexivity]|]). exact I. Qed.

Lemma shared_world_wf : shared_wf shared_world.
Proof.
  exact (keys_after_sim (R := range_rev) (RL := range_rev_law) shared_calls NewInMem empty_keyspace sim_init shared_calls_admissible).
Qed.

#[local] Instance shared_demo_ports : MatchmakerPorts SharedWorld := shared_ports demo_allocator demo_signer.

(** The signer refuses the second ticket's player: the first and the third, of one player, are matched, the
    second told so, nobody counted. *)
Lemma shared_match_witness :
  ∃ oks w', pair (60 * Second) "duel" shared_group shared_world = (Ok tt, w') ∧
    Forall2 (replicas_read demo_signer (60 * Second) (mkRoomAllocation (sample_uuid x77) "10.0.0.7:7777") (group_players shared_group)
      (10 * Second) (sw_keys w')) shared_group oks ∧
    sw_counted w' = 0 + (if forallb id oks then 1 else 0).
Proof.
  pose (w1 := (p_Claim "duel" (t_ID <$> shared_group) shared_world).2).
  assert (En : 10 * Second = sw_now (p_Allocate "duel" 3 w1).2) by (vm_compute; reflexivity). rewrite En.
  apply (shared_match (R := range_rev) demo_allocator demo_signer (60 * Second) "duel" shared_group
    (mkRoomAllocation (sample_uuid x77) "10.0.0.7:7777") shared_world w1 (p_Allocate "duel" 3 w1).2).
  - exact shared_world_wf.
  - intros t Ht. refine (proj1 (list.Forall_forall (λ t, is_Some (event_at (sw_keys shared_world) (t_ID t))) shared_group) _ t Ht). by_compute.
  - by_compute.
  - assert (E : (p_Claim "duel" (t_ID <$> shared_group) shared_world).1 = Ok true) by (vm_compute; reflexivity).
    unfold w1. destruct (p_Claim "duel" (t_ID <$> shared_group) shared_world) as [r w]. cbn [fst] in E. by rewrite E.
  - vm_compute. reflexivity.
Defined.

(** What the server then says of the tickets. *)
Example shared_replicas_see :
  let ks := sw_keys (pair (60 * Second) "duel" shared_group shared_world).2 in
  let asg := mkAssignment (sample_uuid x77) "10.0.0.7:7777" ("token-" +:+ uuid_String (sample_uuid x77)) (70 * Second) in
  ((run (Valkey_Get (sample_uuid x0a)) ks).1, (run (Valkey_Get (sample_uuid x0d)) ks).1,
   (run (latestEvent (sample_uuid x03)) ks).1, (run (latestEvent (sample_uuid x02)) ks).1,
   (run (Claim "duel" [sample_uuid x01]) ks).1, (run (Depth "duel") ks).1) =
  (Ok (Some asg), Ok None, Ok (Some (EventMatched asg)),
   Ok (Some (EventFailed "internal" "failed to issue session token")), Ok false, Ok 1).
Proof. vm_compute. reflexivity. Qed.
