(* ===== verification/LossyWorker.v ===== *)
(** * The matchmaker worker over a network that loses calls

    The queue, the store and the allocator are other processes: a call may not get through, and one that
    did may lose its reply, so that the worker sees an error although the call took effect.  [lossy]
    puts such a network under any ports, and [lossy_laws] shows that what the worker relies on
    ([MatchmakerLaws]) allows for it, so that [pair_outcome] and [processMode_drains] hold there too.
    [lost_claim_strands] is what it costs. *)

From S2P Require Import Prelude GoBase Match MatchQueue Valkey ValkeyQueue QueueRefinement AssignmentStore Matchmaker SharedWorker.

(** What becomes of a call. *)
Inductive fate := Answered | ReplyLost | NotSent.
Inductive remote := CallPending (mode : string) | CallClaim (mode : string) (ids : list uuid) | CallPublish (id : uuid)
  | CallAllocate (mode : string) | CallPut (player : uuid).

Definition ErrNetwork : error := ErrText "network: no reply".

Section lossy.
Context {W : Type} {P : MatchmakerPorts W} (net : W → remote → fate).

Definition over {A} (c : remote) (m : M W A) : M W A := λ w,
  match net w c with
  | Answered => m w
  | ReplyLost => (Err ErrNetwork, (m w).2)
  | NotSent => (Err ErrNetwork, w)
  end.

(** Signing and the metrics are the worker's own. *)
Definition lossy : MatchmakerPorts W := {|
  p_Pending mode := over (CallPending mode) (p_Pending mode);
  p_Claim mode ids := over (CallClaim mode ids) (p_Claim mode ids);
  p_Publish i ev := over (CallPublish i) (p_Publish i ev);
  p_Allocate mode n := over (CallAllocate mode) (p_Allocate mode n);
  p_SignSession := p_SignSession;
  p_PutAssignment p a ttl := over (CallPut p) (p_PutAssignment p a ttl);
  p_MatchAllocated := p_MatchAllocated;
  p_SetQueueDepth := p_SetQueueDepth;
  p_Now := p_Now;
|}.

#[local] Existing Instance lossy | 0.

Definition lossy_laws (L : @MatchmakerLaws W P) : @MatchmakerLaws W lossy.
Proof.
  refine (@Build_MatchmakerLaws W lossy (L.(wf)) (L.(pool)) (L.(snapshot)) (L.(assigned)) (L.(counted))
    _ _ _ (L.(kept_ev)) _ _ (L.(kept_asg)) _ _ _ _ _).
  - intros mode w Hw. destruct (L.(law_pending) mode w Hw) as (r & E & Hr). cbn. unfold over. rewrite E.
    destruct (net w _); [by exists r|by exists (Err ErrNetwork)..].
  - exact L.(law_known).
  - intros mode ids w Hw. pose proof (L.(law_claim) mode ids w Hw) as H. unfold state, result in *. cbn. unfold over.
    destruct (net w _); [exact H| |split_and!; try done; by left]. destruct H as (? & ? & ? & ? & ? & Hr). split_and!; try done.
    destruct (p_Claim mode ids w) as [[[]|e] w']; [by right|left; by destruct Hr|exact Hr].
  - exact L.(law_texts).
  - intros i ev w Hw Hi Ht. pose proof (L.(law_publish) i ev w Hw Hi Ht) as H. unfold state, result in *. cbn. unfold over.
    destruct (net w _); [exact H| |by split_and!]. destruct H as (? & ? & ? & ? & ? & ? & _). by split_and!.
  - intros p a d w Hw. pose proof (L.(law_put) p a d w Hw) as H. unfold state, result in *. cbn. unfold over.
    destruct (net w _); [exact H| |by split_and!]. destruct H as (? & ? & ? & ? & ? & _). by split_and!.
  - intros mode n w Hw. pose proof (L.(law_allocate) mode n w Hw) as H. unfold state in *. cbn. unfold over. by destruct (net w _).
  - exact L.(law_sign).
  - exact L.(law_depth).
  - exact L.(law_counted).
Defined.
End lossy.

(** A claim that was made but whose reply was lost: [pair] returns the error; the group is in no pool
    any more, so no worker will try it again, and none of its tickets was told anything. *)
Lemma lost_claim_strands {W : Type} {P : MatchmakerPorts W} {L : MatchmakerLaws W} {U : UuidCodec} {E : ErrorText}
    (net : W → remote → fate) ttl mode (ts : list Ticket) (w : W) :
  wf w → net w (CallClaim mode (t_ID <$> ts)) = ReplyLost → (p_Claim mode (t_ID <$> ts) w).1 = Ok true →
  let '(r, w') := @pair W (lossy net) U E ttl mode ts w in
  r = Err ErrNetwork ∧ (∀ i, snapshot w' i = snapshot w i) ∧ ∀ t, t ∈ ts → t ∉ pool w' mode.
Proof.
  intros Hw Hn Hc. pose proof (law_claim mode (t_ID <$> ts) w Hw) as H. unfold state, result in H. rewrite Hc in H.
  unfold pair. rewrite M_bind_eval. cbn. unfold over. rewrite Hn. split; [done|]. destruct H as (_ & Hs & _ & _ & _ & Hp).
  split; [exact Hs|]. intros t Ht. rewrite Hp, list_elem_of_filter. intros [Hno _]. apply Hno. by apply list_elem_of_fmap_2.
Qed.

(** ** Evaluation

    The shared world of [SharedWorker], with the reply to the claim lost: the tickets are still
    announced as queued, are pending no more, and cannot be claimed again; the fourth is. *)
#[local] Existing Instance hex_codec.
#[local] Instance lossy_error_text : ErrorText := λ e, match e with ErrText m => m | _ => "error" end.

Definition lost_reply (w : SharedWorld) (c : remote) : fate := match c with CallClaim _ _ => ReplyLost | _ => Answered end.

Example claim_reply_lost :
  let '(r, w') := @pair SharedWorld (@lossy _ (shared_ports demo_allocator demo_signer) lost_reply) _ _ (60 * Second) "duel" shared_group shared_world in
  r = Err ErrNetwork ∧ (run (Depth "duel") (sw_keys w')).1 = Ok 1 ∧
  (run (latestEvent (sample_uuid x01)) (sw_keys w')).1 = (run (latestEvent (sample_uuid x01)) (sw_keys shared_world)).1 ∧
  (run (Claim "duel" [sample_uuid x01]) (sw_keys w')).1 = Ok false.
Proof. vm_compute. repeat split. Qed.
