(* ===== verification/Database.v ===== *)
(** * The database (internal/infra/db, schema/db/schema.sql)

    A table is the list of its rows in insertion order.  A statement is an action of the database:
    a query reads it, an insert first checks the table's CHECK constraints, then its primary key
    and UNIQUE constraints, then its foreign keys, and fails with the PostgreSQL error code of the
    first that is violated.  [ORDER BY] is a stable sort, so rows that compare equal keep their
    insertion order (PostgreSQL leaves that order open).  [Session_run] is the transaction runner;
    [RW] and [RO] are its two entry points over a connection that neither fails to begin nor to
    commit. *)

From S2P Require Import Prelude GoBase.

(** ** Statements over a table *)

Record table (D R : Type) := mkTable { t_get : D → list R; t_set : list R → D → D }.
Arguments mkTable {D R}.
Arguments t_get {D R}.
Arguments t_set {D R}.

(** PostgreSQL error codes: check_violation, unique_violation, foreign_key_violation. *)
Definition check_violation : error := PgConstraint "23514".
Definition unique_violation : error := PgConstraint "23505".
Definition fk_violation : error := PgConstraint "23503".

Section statements.
Context {D R : Type} (T : table D R).

(** [SELECT ... WHERE p] *)
Definition select_where (p : R → bool) (db : D) : list R := filter (λ r, p r = true) (t_get T db).
Definition exists_where (p : R → bool) (db : D) : bool := existsb p (t_get T db).

(** [:one]: the first row, or [pgx.ErrNoRows]. *)
Definition query_one (p : R → bool) : M D R := λ db,
  match select_where p db with
  | r :: _ => (Ok r, db)
  | [] => (Err PgNoRows, db)
  end.

(** [DELETE ... WHERE p] and [UPDATE ... SET f WHERE p]: the number of affected rows. *)
Definition delete_where (p : R → bool) : M D Z := λ db,
  (Ok (Z.of_nat (length (select_where p db))), t_set T (filter (λ r, p r = false) (t_get T db)) db).
Definition update_where (p : R → bool) (f : R → R) : M D Z := λ db,
  (Ok (Z.of_nat (length (select_where p db))), t_set T ((λ r, if p r then f r else r) <$> t_get T db) db).

(** [INSERT INTO ... VALUES r], given whether the three kinds of constraints hold of it. *)
Definition insert_row (check unique fk : bool) (r : R) : M D unit := λ db,
  if negb check then (Err check_violation, db)
  else if negb unique then (Err unique_violation, db)
  else if negb fk then (Err fk_violation, db)
  else (Ok tt, t_set T (t_get T db ++ [r]) db).
End statements.

(** [ORDER BY k DESC] and [ORDER BY k ASC] of a timestamp or integer key. *)
Definition order_desc {R} (k : R → Z) (l : list R) : list R := isort (λ a b, k b <? k a) l.
Definition order_asc {R} (k : R → Z) (l : list R) : list R := isort (λ a b, k a <? k b) l.

(** [LIMIT n]. *)
Definition limit {R} (n : Z) (l : list R) : list R := firstn (Z.to_nat n) l.

(** A timestamp column keeps whole microseconds. *)
Definition toTimestamptz (t : time) : time := t / 1000 * 1000.

(** [uuid] comparison in PostgreSQL: bytewise. *)
Definition uuid_ltb (a b : uuid) : bool :=
  match bytes_compare (vec_to_list a) (vec_to_list b) with Lt => true | _ => false end.

(** ** Transactions (db.go) *)

(** [begin] and [commit] are the errors of the driver's [BeginTx] and [Commit], if any. *)
Definition Session_run {D A} (begin commit : option error) (fn : M D A) : M D A := λ db,
  match begin with
  | Some e => (Err (Wrap "db: begin tx" e), db)
  | None =>
      match fn db with
      | (Err e, _) => (Err e, db)
      | (Ok a, db') =>
          match commit with
          | Some e => (Err (Wrap "db: commit" e), db)
          | None => (Ok a, db')
          end
      end
  end.

Definition RW {D A} (fn : M D A) : M D A := Session_run None None fn.

(** A read-only transaction cannot have written anything. *)
Definition RO {D A} (fn : D → res A) : M D A := λ db, (fn db, db).

(** A transaction whose closure assigns a captured variable: a rollback undoes the database, not the
    variable. *)
Definition RW_capture {D V A} (v : V) (fn : M (D * V) A) : D → (V * res A) * D := λ db,
  match fn (db, v) with
  | (Ok a, (db', v')) => ((v', Ok a), db')
  | (Err e, (_, v')) => ((v', Err e), db)
  end.

Definition in_tx {D V A} (m : M D A) : M (D * V) A := λ s,
  let '(r, db) := m s.1 in (r, (db, s.2)).
Definition assign {D V} (v : V) : M (D * V) unit := λ s, (Ok tt, (s.1, v)).

Lemma RW_eval {D A} (fn : M D A) db :
  RW fn db = match fn db with (Ok a, db') => (Ok a, db') | (Err e, _) => (Err e, db) end.
Proof. unfold RW, Session_run. by destruct (fn db) as [[a|e] db']. Qed.

(** ** The schema *)

Record PlayerRow := mkPlayerRow {
  p_id : uuid; p_nickname : option string; p_registered_at : time; p_updated_at : time;
}.

Record IdentityRow := mkIdentityRow {
  i_id : uuid; i_player_id : uuid; i_provider : string; i_provider_uid : string; i_created_at : time;
}.

Record RefreshTokenRow := mkRefreshTokenRow {
  rt_id : uuid; rt_player_id : uuid; rt_token_hash : string; rt_expires_at : time; rt_revoked_at : option time; rt_created_at : time;
}.

Record PlayerFileRow := mkPlayerFileRow {
  pf_id : uuid; pf_owner_id : uuid; pf_filename : string; pf_size : Z; pf_hash : string; pf_modified_at : time; pf_created_at : time;
}.

Record TitleFileRow := mkTitleFileRow {
  tf_id : uuid; tf_filename : string; tf_size : Z; tf_hash : string; tf_tags : list string; tf_modified_at : time; tf_created_at : time;
}.

Record LeaderboardRow := mkLeaderboardRow {
  le_id : uuid; le_leaderboard_id : string; le_player_id : uuid; le_score : Z; le_achieved_at : time; le_created_at : time;
}.

Record FriendRequestRow := mkFriendRequestRow {
  fr_id : uuid; fr_requester_id : uuid; fr_addressee_id : uuid; fr_created_at : time;
}.

Record FriendshipRow := mkFriendshipRow {
  fs_id : uuid; fs_player_low : uuid; fs_player_high : uuid; fs_created_at : time;
}.

Record BlockRow := mkBlockRow {
  b_id : uuid; b_blocker_id : uuid; b_blocked_id : uuid; b_created_at : time;
}.

Record DirectMessageRow := mkDirectMessageRow {
  dm_id : uuid; dm_player_low : uuid; dm_player_high : uuid; dm_sender_id : uuid; dm_body : string; dm_created_at : time;
}.

Record GroupRow := mkGroupRow {
  g_id : uuid; g_name : string; g_owner_id : uuid; g_founded_at : time;
}.

Record GroupMemberRow := mkGroupMemberRow {
  gm_id : uuid; gm_group_id : uuid; gm_player_id : uuid; gm_joined_at : time;
}.

Record ChannelMessageRow := mkChannelMessageRow {
  cm_id : uuid; cm_channel_id : uuid; cm_sender_id : uuid; cm_body : string; cm_created_at : time;
}.

Record DB := mkDB {
  players : list PlayerRow;
  player_identities : list IdentityRow;
  refresh_tokens : list RefreshTokenRow;
  player_files : list PlayerFileRow;
  title_files : list TitleFileRow;
  leaderboard_entries : list LeaderboardRow;
  friend_requests : list FriendRequestRow;
  friendships : list FriendshipRow;
  player_blocks : list BlockRow;
  direct_messages : list DirectMessageRow;
  groups : list GroupRow;
  group_members : list GroupMemberRow;
  channel_messages : list ChannelMessageRow;
  db_now : time;
}.

Definition T_players : table DB PlayerRow := mkTable players (λ l db, mkDB l (player_identities db) (refresh_tokens db) (player_files db) (title_files db) (leaderboard_entries db) (friend_requests db) (friendships db) (player_blocks db) (direct_messages db) (groups db) (group_members db) (channel_messages db) (db_now db)).
Definition T_player_identities : table DB IdentityRow := mkTable player_identities (λ l db, mkDB (players db) l (refresh_tokens db) (player_files db) (title_files db) (leaderboard_entries db) (friend_requests db) (friendships db) (player_blocks db) (direct_messages db) (groups db) (group_members db) (channel_messages db) (db_now db)).
Definition T_refresh_tokens : table DB RefreshTokenRow := mkTable refresh_tokens (λ l db, mkDB (players db) (player_identities db) l (player_files db) (title_files db) (leaderboard_entries db) (friend_requests db) (friendships db) (player_blocks db) (direct_messages db) (groups db) (group_members db) (channel_messages db) (db_now db)).
Definition T_player_files : table DB PlayerFileRow := mkTable player_files (λ l db, mkDB (players db) (player_identities db) (refresh_tokens db) l (title_files db) (leaderboard_entries db) (friend_requests db) (friendships db) (player_blocks db) (direct_messages db) (groups db) (group_members db) (channel_messages db) (db_now db)).
Definition T_title_files : table DB TitleFileRow := mkTable title_files (λ l db, mkDB (players db) (player_identities db) (refresh_tokens db) (player_files db) l (leaderboard_entries db) (friend_requests db) (friendships db) (player_blocks db) (direct_messages db) (groups db) (group_members db) (channel_messages db) (db_now db)).
Definition T_leaderboard_entries : table DB LeaderboardRow := mkTable leaderboard_entries (λ l db, mkDB (players db) (player_identities db) (refresh_tokens db) (player_files db) (title_files db) l (friend_requests db) (friendships db) (player_blocks db) (direct_messages db) (groups db) (group_members db) (channel_messages db) (db_now db)).
Definition T_friend_requests : table DB FriendRequestRow := mkTable friend_requests (λ l db, mkDB (players db) (player_identities db) (refresh_tokens db) (player_files db) (title_files db) (leaderboard_entries db) l (friendships db) (player_blocks db) (direct_messages db) (groups db) (group_members db) (channel_messages db) (db_now db)).
Definition T_friendships : table DB FriendshipRow := mkTable friendships (λ l db, mkDB (players db) (player_identities db) (refresh_tokens db) (player_files db) (title_files db) (leaderboard_entries db) (friend_requests db) l (player_blocks db) (direct_messages db) (groups db) (group_members db) (channel_messages db) (db_now db)).
Definition T_player_blocks : table DB BlockRow := mkTable player_blocks (λ l db, mkDB (players db) (player_identities db) (refresh_tokens db) (player_files db) (title_files db) (leaderboard_entries db) (friend_requests db) (friendships db) l (direct_messages db) (groups db) (group_members db) (channel_messages db) (db_now db)).
Definition T_direct_messages : table DB DirectMessageRow := mkTable direct_messages (λ l db, mkDB (players db) (player_identities db) (refresh_tokens db) (player_files db) (title_files db) (leaderboard_entries db) (friend_requests db) (friendships db) (player_blocks db) l (groups db) (group_members db) (channel_messages db) (db_now db)).
Definition T_groups : table DB GroupRow := mkTable groups (λ l db, mkDB (players db) (player_identities db) (refresh_tokens db) (player_files db) (title_files db) (leaderboard_entries db) (friend_requests db) (friendships db) (player_blocks db) (direct_messages db) l (group_members db) (channel_messages db) (db_now db)).
Definition T_group_members : table DB GroupMemberRow := mkTable group_members (λ l db, mkDB (players db) (player_identities db) (refresh_tokens db) (player_files db) (title_files db) (leaderboard_entries db) (friend_requests db) (friendships db) (player_blocks db) (direct_messages db) (groups db) l (channel_messages db) (db_now db)).
Definition T_channel_messages : table DB ChannelMessageRow := mkTable channel_messages (λ l db, mkDB (players db) (player_identities db) (refresh_tokens db) (player_files db) (title_files db) (leaderboard_entries db) (friend_requests db) (friendships db) (player_blocks db) (direct_messages db) (groups db) (group_members db) l (db_now db)).

Definition set_now (now : time) (db : DB) : DB := mkDB (players db) (player_identities db) (refresh_tokens db) (player_files db) (title_files db) (leaderboard_entries db) (friend_requests db) (friendships db) (player_blocks db) (direct_messages db) (groups db) (group_members db) (channel_messages db) now.
Definition emptyDB : DB := mkDB [] [] [] [] [] [] [] [] [] [] [] [] [] 0.

(** ** Foreign keys *)

Definition player_exists (id : uuid) (db : DB) : bool := exists_where T_players (λ p, bool_decide (p_id p = id)) db.
Definition group_exists (id : uuid) (db : DB) : bool := exists_where T_groups (λ g, bool_decide (g_id g = id)) db.

(** The display name of the joined player row, if the player exists. *)
Definition player_row (id : uuid) (db : DB) : option PlayerRow :=
  head (select_where T_players (λ p, bool_decide (p_id p = id)) db).

(** ** Lemmas on statements *)

Lemma existsb_false {A} (p : A → bool) l : existsb p l = false ↔ ∀ x, x ∈ l → p x = false.
Proof.
  induction l as [|y l IH]; simpl.
  - split; [|done]. intros _ x. by rewrite elem_of_nil.
  - rewrite orb_false_iff, IH. setoid_rewrite elem_of_cons. naive_solver.
Qed.

Lemma existsb_true {A} (p : A → bool) l : existsb p l = true ↔ ∃ x, x ∈ l ∧ p x = true.
Proof. rewrite existsb_exists. by setoid_rewrite <- list_elem_of_In. Qed.

Lemma filter_complement {A} (p : A → bool) (l : list A) x :
  x ∈ filter (λ r, p r = false) l ↔ x ∈ l ∧ p x = false.
Proof. rewrite list_elem_of_filter. naive_solver. Qed.

Lemma filter_selected {A} (p : A → bool) (l : list A) x :
  x ∈ filter (λ r, p r = true) l ↔ x ∈ l ∧ p x = true.
Proof. rewrite list_elem_of_filter. naive_solver. Qed.

Lemma count_zero {A} (p : A → bool) (l : list A) :
  Z.of_nat (length (filter (λ r, p r = true) l)) = 0 ↔ existsb p l = false.
Proof.
  rewrite existsb_false. split.
  - intros H x Hx. destruct (p x) eqn:E; [|done]. exfalso.
    assert (x ∈ filter (λ r, p r = true) l) as Hin by (by apply filter_selected).
    destruct (filter _ l); [by apply elem_of_nil in Hin|simpl in H; lia].
  - intros H. destruct (filter _ l) as [|x l'] eqn:E; [done|]. exfalso.
    assert (x ∈ filter (λ r, p r = true) l) as Hin by (rewrite E; left).
    apply filter_selected in Hin as [Hin Hp]. by rewrite H in Hp.
Qed.

Lemma filter_false_id {A} (p : A → bool) (l : list A) :
  existsb p l = false → filter (λ r, p r = false) l = l.
Proof.
  rewrite existsb_false. induction l as [|x l IH]; intros H; [done|].
  rewrite filter_cons_True by (apply H; left). f_equal. apply IH. intros y Hy. apply H. by right.
Qed.

Lemma uuid_ltb_irrefl a : uuid_ltb a a = false.
Proof. unfold uuid_ltb. by rewrite (proj2 (bytes_compare_eq _ _)). Qed.

Lemma uuid_ltb_asym a b : uuid_ltb a b = true → uuid_ltb b a = false.
Proof. unfold uuid_ltb. rewrite (bytes_compare_antisym (vec_to_list a)). by destruct (bytes_compare _ _). Qed.

Lemma uuid_ltb_total a b : a <> b → uuid_ltb a b = false → uuid_ltb b a = true.
Proof.
  unfold uuid_ltb. intros Hne. rewrite (bytes_compare_antisym (vec_to_list a)).
  destruct (bytes_compare _ _) eqn:E; simpl; try done. apply bytes_compare_eq in E.
  by apply vec_to_list_inj2 in E.
Qed.

(** The loop of [social.OrderPair] and [chat.Conversation] over the bytes of two ids: true when the
    first difference puts the second argument first. *)
Fixpoint pair_scan (xs ys : list byte) : bool :=
  match xs, ys with
  | x :: xs', y :: ys' =>
      if (Byte.to_N x <? Byte.to_N y)%N then false
      else if (Byte.to_N y <? Byte.to_N x)%N then true
      else pair_scan xs' ys'
  | _, _ => false
  end.

Definition canonical_pair (a b : uuid) : uuid * uuid :=
  if pair_scan (vec_to_list a) (vec_to_list b) then (b, a) else (a, b).

Lemma pair_scan_gt xs ys : length xs = length ys →
  pair_scan xs ys = match bytes_compare xs ys with Gt => true | _ => false end.
Proof.
  revert ys. induction xs as [|x xs IH]; intros [|y ys]; simpl; try done. intros [= Hl].
  rewrite IH by done. destruct (N.compare_spec (Byte.to_N x) (Byte.to_N y)) as [E|E|E].
  - rewrite E, !N.ltb_irrefl. done.
  - by rewrite (proj2 (N.ltb_lt _ _)).
  - rewrite (proj2 (N.ltb_ge _ _)) by lia. by rewrite (proj2 (N.ltb_lt _ _)).
Qed.

Lemma canonical_pair_spec a b :
  canonical_pair a b = if uuid_ltb b a then (b, a) else (a, b).
Proof.
  unfold canonical_pair, uuid_ltb. rewrite pair_scan_gt by (by rewrite !length_vec_to_list).
  rewrite (bytes_compare_antisym (vec_to_list a)). by destruct (bytes_compare _ _).
Qed.

Lemma canonical_pair_comm a b : canonical_pair a b = canonical_pair b a.
Proof.
  rewrite !canonical_pair_spec. destruct (decide (a = b)) as [->|Hne]; [done|].
  destruct (uuid_ltb b a) eqn:E1.
  - by rewrite (uuid_ltb_asym _ _ E1).
  - by rewrite (uuid_ltb_total b a).
Qed.

Lemma canonical_pair_ordered a b :
  a <> b → uuid_ltb (canonical_pair a b).1 (canonical_pair a b).2 = true.
Proof.
  intros Hne. rewrite canonical_pair_spec. destruct (uuid_ltb b a) eqn:E; [done|]. by apply uuid_ltb_total.
Qed.

(** The pair is determined up to order. *)
Lemma canonical_pair_inj a b c d :
  canonical_pair a b = canonical_pair c d → (a = c ∧ b = d) ∨ (a = d ∧ b = c).
Proof. rewrite !canonical_pair_spec. repeat case_match; naive_solver. Qed.

Lemma toTimestamptz_le t : toTimestamptz t ≤ t.
Proof. unfold toTimestamptz. pose proof (Z.mul_div_le t 1000). lia. Qed.

Lemma toTimestamptz_idem t : toTimestamptz (toTimestamptz t) = toTimestamptz t.
Proof. unfold toTimestamptz. by rewrite Z.div_mul. Qed.

Lemma order_desc_perm {R} (k : R → Z) l : order_desc k l ≡ₚ l.
Proof. apply isort_perm. Qed.

Lemma order_asc_perm {R} (k : R → Z) l : order_asc k l ≡ₚ l.
Proof. apply isort_perm. Qed.

Lemma order_desc_sorted {R} (k : R → Z) l : StronglySorted (λ a b, k b ≤ k a) (order_desc k l).
Proof.
  unfold order_desc. eapply StronglySorted_mono; [|apply isort_sorted].
  - intros x y. unfold not_after. by rewrite Z.ltb_ge.
  - intros x y. rewrite Z.ltb_lt, Z.ltb_ge. lia.
  - intros x y z. rewrite !Z.ltb_ge. lia.
Qed.

Lemma order_asc_sorted {R} (k : R → Z) l : StronglySorted (λ a b, k a ≤ k b) (order_asc k l).
Proof.
  unfold order_asc. eapply StronglySorted_mono; [|apply isort_sorted].
  - intros x y. unfold not_after. by rewrite Z.ltb_ge.
  - intros x y. rewrite Z.ltb_lt, Z.ltb_ge. lia.
  - intros x y z. rewrite !Z.ltb_ge. lia.
Qed.

(** A join keeps the order of the rows it joins. *)
Lemma StronglySorted_omap {A B} (R : A → A → Prop) (R' : B → B → Prop) (f : A → option B) l :
  (∀ a b x y, R a b → f a = Some x → f b = Some y → R' x y) →
  StronglySorted R l → StronglySorted R' (omap f l).
Proof.
  intros Hf. induction 1 as [|a l Hs IH Ha]; csimpl; [constructor|].
  destruct (f a) as [x|] eqn:E; [|done]. constructor; [done|].
  apply list.Forall_forall. intros y Hy. apply list_elem_of_omap in Hy as (b & Hb & Eb).
  rewrite list.Forall_forall in Ha. by eapply Hf; [apply Ha| |].
Qed.

Lemma StronglySorted_take {A} (R : A → A → Prop) n (l : list A) : StronglySorted R l → StronglySorted R (take n l).
Proof.
  intros H. revert n. induction H as [|x l Hs IH Hx]; intros [|n]; simpl; try constructor; [done|].
  by apply list.Forall_take.
Qed.

Lemma player_row_Some x db p : player_row x db = Some p → p_id p = x.
Proof.
  unfold player_row. intros H. apply head_Some_elem_of in H. apply filter_selected in H as [_ H]. by to_prop.
Qed.

Lemma player_row_exists x db : is_Some (player_row x db) ↔ player_exists x db = true.
Proof.
  unfold player_row, player_exists, exists_where, select_where. rewrite existsb_true. split.
  - intros [p H]. apply head_Some_elem_of, filter_selected in H as [? ?]. eauto.
  - intros (p & Hp & He). destruct (filter _ _) as [|p' l] eqn:E; [|by eexists].
    assert (p ∈ filter (λ r, bool_decide (p_id r = x) = true) (t_get T_players db)) as Hin by (by apply filter_selected).
    rewrite E in Hin. by apply elem_of_nil in Hin.
Qed.

(** The set of key pairs of a table, and what statements on one pair do to it. *)
Lemma exists_pair {R} (l : list R) (k1 k2 : R → uuid) a b :
  existsb (λ x, bool_decide (k1 x = a) && bool_decide (k2 x = b)) l
    = bool_decide ((a, b) ∈ (list_to_set ((λ x, (k1 x, k2 x)) <$> l) : gset (uuid * uuid))).
Proof.
  apply eq_iff_eq_true. rewrite existsb_true, bool_decide_eq_true, elem_of_list_to_set, list_elem_of_fmap.
  split; intros (x & H1 & H2).
  - to_prop. subst. eauto.
  - exists x. injection H1 as -> ->. by rewrite !bool_decide_eq_true_2.
Qed.

Lemma delete_pair {R} (l : list R) (k1 k2 : R → uuid) a b :
  (list_to_set ((λ x, (k1 x, k2 x)) <$> filter (λ r, (bool_decide (k1 r = a) && bool_decide (k2 r = b)) = false) l) : gset (uuid * uuid))
  = list_to_set ((λ x, (k1 x, k2 x)) <$> l) ∖ {[ (a, b) ]}.
Proof.
  apply set_eq. intros [x y]. rewrite elem_of_difference, !elem_of_list_to_set, !list_elem_of_fmap, elem_of_singleton.
  setoid_rewrite list_elem_of_filter. split.
  - intros (r & [= -> ->] & Hr & Hin). split; [eauto|]. intros [= <- <-]. by rewrite !bool_decide_eq_true_2 in Hr.
  - intros [(r & [= -> ->] & Hin) Hne]. exists r. split_and!; try done.
    apply andb_false_iff. rewrite !bool_decide_eq_false. destruct (decide (k1 r = a)); naive_solver.
Qed.

Lemma insert_pair {R} (l : list R) (k1 k2 : R → uuid) r :
  (list_to_set ((λ x, (k1 x, k2 x)) <$> l ++ [r]) : gset (uuid * uuid))
  = list_to_set ((λ x, (k1 x, k2 x)) <$> l) ∪ {[ (k1 r, k2 r) ]}.
Proof. rewrite fmap_app, list_to_set_app_L. simpl. set_solver. Qed.

(** a transaction is all-or-nothing, whatever the driver does: an error of the work, of BEGIN
    or of COMMIT leaves the database exactly as it was, and the work's own error comes back
    unwrapped. *)
Theorem transaction_atomic {D A} begin commit (fn : M D A) (db : D) :
  match Session_run begin commit fn db with
  | (Ok a, db') => fn db = (Ok a, db') ∧ begin = None ∧ commit = None
  | (Err e, db') => db' = db ∧
      (begin = None → ∀ e', result (fn db) = Err e' → e = e') ∧
      (is_ok (result (fn db)) = true → begin <> None ∨ commit <> None)
  end.
Proof.
  unfold Session_run, result. destruct begin as [e|]; [split_and!; [done|done|by left]|].
  destruct (fn db) as [[a|e] db'] eqn:Ef; simpl.
  - destruct commit as [e|]; [|done]. split_and!; [done|done|by right].
  - split_and!; [done|by intros _ e' [= <-]|done].
Qed.
