(* ===== verification/Social.v ===== *)
(** * The friend graph (internal/domain/social, internal/infra/repository/social.go, internal/usecase/social)

    The repositories as statements over the tables friend_requests, friendships and player_blocks,
    the usecase operations as transactions over them, and an abstract friend graph of three sets
    of pairs that they refine.  A fresh [uuid.New()] is an argument of the operation that calls it. *)

From S2P Require Import Prelude GoBase Database.

(** ** The domain (social.go) *)

Record FriendRequest := mkFriendRequest { Requester : uuid; Addressee : uuid }.
Record Friendship := mkFriendship { Low : uuid; High : uuid }.
Record Block := mkBlock { Blocker : uuid; Blocked : uuid }.

Record Friend := mkFriend { friend_PlayerID : uuid; friend_Nickname : option string; Since : time }.
Record PendingRequest := mkPendingRequest { pr_PlayerID : uuid; pr_Nickname : option string; RequestedAt : time }.
Record BlockedPlayer := mkBlockedPlayer { bp_PlayerID : uuid; bp_Nickname : option string; BlockedAt : time }.

Definition OrderPair (a b : uuid) : uuid * uuid := canonical_pair a b.

Definition NewFriendRequest (requester addressee : uuid) : FriendRequest := mkFriendRequest requester addressee.
Definition NewFriendship (a b : uuid) : Friendship := let '(low, high) := OrderPair a b in mkFriendship low high.
Definition NewBlock (blocker blocked : uuid) : Block := mkBlock blocker blocked.

(** ** The repositories (repository/social.go) *)

Definition is_request (requester addressee : uuid) (r : FriendRequestRow) : bool :=
  bool_decide (fr_requester_id r = requester) && bool_decide (fr_addressee_id r = addressee).
Definition is_friendship (low high : uuid) (f : FriendshipRow) : bool :=
  bool_decide (fs_player_low f = low) && bool_decide (fs_player_high f = high).
Definition is_block (blocker blocked : uuid) (b : BlockRow) : bool :=
  bool_decide (b_blocker_id b = blocker) && bool_decide (b_blocked_id b = blocked).

Definition FriendRequests_Save (id : uuid) (r : FriendRequest) : M DB unit := λ db,
  insert_row T_friend_requests true
    (negb (exists_where T_friend_requests (λ x, bool_decide (fr_id x = id) || is_request (Requester r) (Addressee r) x) db))
    (player_exists (Requester r) db && player_exists (Addressee r) db)
    (mkFriendRequestRow id (Requester r) (Addressee r) (db_now db)) db.

Definition FriendRequests_Delete (requester addressee : uuid) : M DB unit :=
  affected ← delete_where T_friend_requests (is_request requester addressee);
  if affected =? 0 then fail ErrRequestNotFound else mret tt.

Definition FriendRequests_Exists (requester addressee : uuid) : M DB bool :=
  gets (exists_where T_friend_requests (is_request requester addressee)).

(** The rows joined with the other player's name, newest first. *)
Definition FriendRequests_ListIncoming (addressee : uuid) (db : DB) : res (list PendingRequest) :=
  Ok (omap (λ r, p ← player_row (fr_requester_id r) db;
                 Some (mkPendingRequest (p_id p) (p_nickname p) (fr_created_at r)))
    (order_desc fr_created_at (select_where T_friend_requests (λ r, bool_decide (fr_addressee_id r = addressee)) db))).

Definition FriendRequests_ListOutgoing (requester : uuid) (db : DB) : res (list PendingRequest) :=
  Ok (omap (λ r, p ← player_row (fr_addressee_id r) db;
                 Some (mkPendingRequest (p_id p) (p_nickname p) (fr_created_at r)))
    (order_desc fr_created_at (select_where T_friend_requests (λ r, bool_decide (fr_requester_id r = requester)) db))).

Definition Friendships_Save (id : uuid) (f : Friendship) : M DB unit := λ db,
  insert_row T_friendships (uuid_ltb (Low f) (High f))
    (negb (exists_where T_friendships (λ x, bool_decide (fs_id x = id) || is_friendship (Low f) (High f) x) db))
    (player_exists (Low f) db && player_exists (High f) db)
    (mkFriendshipRow id (Low f) (High f) (db_now db)) db.

Definition Friendships_Delete (a b : uuid) : M DB unit :=
  let '(low, high) := OrderPair a b in
  affected ← delete_where T_friendships (is_friendship low high);
  if affected =? 0 then fail ErrNotFriends else mret tt.

Definition Friendships_Exists (a b : uuid) : M DB bool :=
  let '(low, high) := OrderPair a b in gets (exists_where T_friendships (is_friendship low high)).

Definition Friendships_ListFriends (playerID : uuid) (db : DB) : res (list Friend) :=
  Ok (omap (λ f, p ← player_row (if bool_decide (fs_player_low f = playerID) then fs_player_high f else fs_player_low f) db;
                 Some (mkFriend (p_id p) (p_nickname p) (fs_created_at f)))
    (order_desc fs_created_at (select_where T_friendships
      (λ f, bool_decide (fs_player_low f = playerID) || bool_decide (fs_player_high f = playerID)) db))).

(** [ON CONFLICT (blocker_id, blocked_id) DO NOTHING] *)
Definition Blocks_Save (id : uuid) (b : Block) : M DB unit := λ db,
  if exists_where T_player_blocks (is_block (Blocker b) (Blocked b)) db then (Ok tt, db)
  else insert_row T_player_blocks true
    (negb (exists_where T_player_blocks (λ x, bool_decide (b_id x = id)) db))
    (player_exists (Blocker b) db && player_exists (Blocked b) db)
    (mkBlockRow id (Blocker b) (Blocked b) (db_now db)) db.

Definition Blocks_Delete (blocker blocked : uuid) : M DB unit :=
  _ ← delete_where T_player_blocks (is_block blocker blocked); mret tt.

Definition Blocks_IsBlocked (a b : uuid) : M DB bool :=
  gets (exists_where T_player_blocks (λ x, is_block a b x || is_block b a x)).

Definition Blocks_ListBlocked (blocker : uuid) (db : DB) : res (list BlockedPlayer) :=
  Ok (omap (λ b, p ← player_row (b_blocked_id b) db;
                 Some (mkBlockedPlayer (p_id p) (p_nickname p) (b_created_at b)))
    (order_desc b_created_at (select_where T_player_blocks (λ b, bool_decide (b_blocker_id b = blocker)) db))).

(** ** The usecase (usecase/social/social.go) *)

(** The closure of the transaction; the captured variable is [accepted]. *)
Definition SendFriendRequest_tx (id me addressee : uuid) : M (DB * bool) unit :=
  blocked ← in_tx (Blocks_IsBlocked me addressee);
  if (blocked : bool) then fail ErrBlocked else
  friends ← in_tx (Friendships_Exists me addressee);
  if (friends : bool) then fail ErrAlreadyFriends else
  reverse ← in_tx (FriendRequests_Exists addressee me);
  if (reverse : bool) then
    _ ← in_tx (FriendRequests_Delete addressee me);
    _ ← assign true;
    in_tx (Friendships_Save id (NewFriendship me addressee))
  else
    forward ← in_tx (FriendRequests_Exists me addressee);
    if (forward : bool) then fail ErrAlreadyRequested else
    in_tx (FriendRequests_Save id (NewFriendRequest me addressee)).

(** The pair (accepted, err), and the database after it. *)
Definition SendFriendRequest (id me addressee : uuid) (db : DB) : (bool * res unit) * DB :=
  if bool_decide (me = addressee) then ((false, Err ErrSelfFriend), db)
  else RW_capture false (SendFriendRequest_tx id me addressee) db.

Definition AcceptFriendRequest (id me requester : uuid) : M DB unit :=
  RW (_ ← FriendRequests_Delete requester me;
      Friendships_Save id (NewFriendship requester me)).

Definition DeclineFriendRequest (me requester : uuid) : M DB unit := RW (FriendRequests_Delete requester me).
Definition CancelFriendRequest (me addressee : uuid) : M DB unit := RW (FriendRequests_Delete me addressee).
Definition RemoveFriend (me friend : uuid) : M DB unit := RW (Friendships_Delete me friend).

Definition BlockPlayer (id me target : uuid) : M DB unit :=
  if bool_decide (me = target) then fail ErrSelfBlock
  else RW (_ ← Blocks_Save id (NewBlock me target);
           _ ← tolerate ErrNotFriends (Friendships_Delete me target);
           _ ← tolerate ErrRequestNotFound (FriendRequests_Delete me target);
           _ ← tolerate ErrRequestNotFound (FriendRequests_Delete target me);
           mret tt).

Definition UnblockPlayer (me target : uuid) : M DB unit := RW (Blocks_Delete me target).

Definition ListBlocked (me : uuid) : M DB (list BlockedPlayer) := RO (Blocks_ListBlocked me).
Definition ListFriends (me : uuid) : M DB (list Friend) := RO (Friendships_ListFriends me).
Definition ListIncomingRequests (me : uuid) : M DB (list PendingRequest) := RO (FriendRequests_ListIncoming me).
Definition ListOutgoingRequests (me : uuid) : M DB (list PendingRequest) := RO (FriendRequests_ListOutgoing me).

(** ** The abstract friend graph *)

Record graph := mkGraph {
  g_requests : gset (uuid * uuid);
  g_friends : gset (uuid * uuid);
  g_blocks : gset (uuid * uuid);
}.

Definition graph_of (db : DB) : graph :=
  mkGraph (list_to_set ((λ r, (fr_requester_id r, fr_addressee_id r)) <$> friend_requests db))
          (list_to_set ((λ f, (fs_player_low f, fs_player_high f)) <$> friendships db))
          (list_to_set ((λ b, (b_blocker_id b, b_blocked_id b)) <$> player_blocks db)).

Arguments graph_of : simpl never.

Inductive social_op :=
  | Send (me addressee : uuid)
  | Accept (me requester : uuid)
  | Decline (me requester : uuid)
  | CancelReq (me addressee : uuid)
  | Remove (me friend : uuid)
  | DoBlock (me target : uuid)
  | Unblock (me target : uuid).

(** What each operation promises: its answer ([Ok true] is "friends now") and the new graph. *)
Definition graph_step (g : graph) (o : social_op) : res bool * graph :=
  let rq := g_requests g in let fr := g_friends g in let bl := g_blocks g in
  match o with
  | Send a b =>
      if decide (a = b) then (Err ErrSelfFriend, g)
      else if decide ((a, b) ∈ bl ∨ (b, a) ∈ bl) then (Err ErrBlocked, g)
      else if decide (OrderPair a b ∈ fr) then (Err ErrAlreadyFriends, g)
      else if decide ((b, a) ∈ rq) then (Ok true, mkGraph (rq ∖ {[ (b, a) ]}) (fr ∪ {[ OrderPair a b ]}) bl)
      else if decide ((a, b) ∈ rq) then (Err ErrAlreadyRequested, g)
      else (Ok false, mkGraph (rq ∪ {[ (a, b) ]}) fr bl)
  | Accept a b =>
      if decide ((b, a) ∈ rq) then (Ok true, mkGraph (rq ∖ {[ (b, a) ]}) (fr ∪ {[ OrderPair a b ]}) bl)
      else (Err ErrRequestNotFound, g)
  | Decline a b =>
      if decide ((b, a) ∈ rq) then (Ok false, mkGraph (rq ∖ {[ (b, a) ]}) fr bl) else (Err ErrRequestNotFound, g)
  | CancelReq a b =>
      if decide ((a, b) ∈ rq) then (Ok false, mkGraph (rq ∖ {[ (a, b) ]}) fr bl) else (Err ErrRequestNotFound, g)
  | Remove a b =>
      if decide (OrderPair a b ∈ fr) then (Ok false, mkGraph rq (fr ∖ {[ OrderPair a b ]}) bl) else (Err ErrNotFriends, g)
  | DoBlock a b =>
      if decide (a = b) then (Err ErrSelfBlock, g)
      else (Ok false, mkGraph (rq ∖ {[ (a, b); (b, a) ]}) (fr ∖ {[ OrderPair a b ]}) (bl ∪ {[ (a, b) ]}))
  | Unblock a b => (Ok false, mkGraph rq fr (bl ∖ {[ (a, b) ]}))
  end.

(** The same operations of the code; [id] is the fresh row id. *)
Definition run_social (id : uuid) (o : social_op) (db : DB) : res bool * DB :=
  let answer (b : bool) (p : res unit * DB) := match p with (Ok _, db') => (Ok b, db') | (Err e, db') => (Err e, db') end in
  match o with
  | Send a b => let '((accepted, r), db') := SendFriendRequest id a b db in answer accepted (r, db')
  | Accept a b => answer true (AcceptFriendRequest id a b db)
  | Decline a b => answer false (DeclineFriendRequest a b db)
  | CancelReq a b => answer false (CancelFriendRequest a b db)
  | Remove a b => answer false (RemoveFriend a b db)
  | DoBlock a b => answer false (BlockPlayer id a b db)
  | Unblock a b => answer false (UnblockPlayer a b db)
  end.

(** A well-formed graph: friendships are canonical, nobody relates to themself, and a pair of
    players is in at most one of the states "request one way", "friends", "blocked". *)
Record graph_ok (g : graph) : Prop := {
  ok_canonical : ∀ a b, (a, b) ∈ g_friends g → uuid_ltb a b = true;
  ok_request : ∀ a b, (a, b) ∈ g_requests g →
    a <> b ∧ (b, a) ∉ g_requests g ∧ OrderPair a b ∉ g_friends g ∧ (a, b) ∉ g_blocks g ∧ (b, a) ∉ g_blocks g;
  ok_block : ∀ a b, (a, b) ∈ g_blocks g → a <> b ∧ OrderPair a b ∉ g_friends g;
}.

(** ** What the repositories do to the graph *)

Definition fresh (id : uuid) (db : DB) : Prop :=
  id ∉ fr_id <$> friend_requests db ∧ id ∉ fs_id <$> friendships db ∧ id ∉ b_id <$> player_blocks db.

Lemma fresh_sublist {R} (k : R → uuid) id p (l : list R) :
  id ∉ k <$> l → id ∉ k <$> filter (λ r, p r = false) l.
Proof. intros H Hin. apply H. eapply elem_of_sublist; [done|]. apply fmap_sublist, sublist_filter. Qed.

Lemma no_row_with {R} (k : R → uuid) id (l : list R) q :
  id ∉ k <$> l → existsb q l = false → existsb (λ x, bool_decide (k x = id) || q x) l = false.
Proof.
  intros Hni Hq. apply existsb_false. intros x Hx. apply orb_false_iff. split.
  - apply bool_decide_eq_false. intros <-. apply Hni. by apply list_elem_of_fmap_2.
  - by eapply existsb_false in Hx.
Qed.

(** The part of the database the operations of the graph do not write, and row-id freshness. *)
Definition framed (db db1 : DB) : Prop := players db1 = players db ∧ ∀ id, fresh id db → fresh id db1.

Lemma player_exists_framed db db1 p : framed db db1 → player_exists p db1 = player_exists p db.
Proof. intros [H _]. unfold player_exists, exists_where. simpl. by rewrite H. Qed.

Lemma requests_exists a b db :
  FriendRequests_Exists a b db = (Ok (bool_decide ((a, b) ∈ g_requests (graph_of db))), db).
Proof. unfold FriendRequests_Exists, gets, exists_where. do 2 f_equal. apply exists_pair. Qed.

Lemma friends_exists a b db :
  Friendships_Exists a b db = (Ok (bool_decide (OrderPair a b ∈ g_friends (graph_of db))), db).
Proof.
  unfold Friendships_Exists. destruct (OrderPair a b) as [l h]. unfold gets, exists_where.
  do 2 f_equal. apply exists_pair.
Qed.

Lemma blocked_exists a b db :
  Blocks_IsBlocked a b db
  = (Ok (bool_decide ((a, b) ∈ g_blocks (graph_of db) ∨ (b, a) ∈ g_blocks (graph_of db))), db).
Proof.
  unfold Blocks_IsBlocked, gets, exists_where. do 2 f_equal. apply eq_iff_eq_true.
  rewrite bool_decide_eq_true, existsb_true. setoid_rewrite orb_true_iff.
  assert (H : ∀ c d, (∃ x, x ∈ player_blocks db ∧ is_block c d x = true) ↔ (c, d) ∈ g_blocks (graph_of db)).
  { intros c d. rewrite <- existsb_true. unfold is_block. by rewrite exists_pair, bool_decide_eq_true. }
  rewrite <- !H. simpl. naive_solver.
Qed.

Lemma requests_delete a b db :
  ∃ db1, FriendRequests_Delete a b db
      = (if decide ((a, b) ∈ g_requests (graph_of db)) then Ok tt else Err ErrRequestNotFound, db1) ∧
    graph_of db1 = mkGraph (g_requests (graph_of db) ∖ {[ (a, b) ]}) (g_friends (graph_of db)) (g_blocks (graph_of db)) ∧
    framed db db1.
Proof.
  eexists. unfold FriendRequests_Delete. rewrite M_bind_eval. unfold delete_where. split_and!.
  - unfold select_where. destruct (Z.eqb_spec (Z.of_nat (length (filter (λ r, is_request a b r = true) (t_get T_friend_requests db)))) 0) as [E|E].
    + apply count_zero in E. rewrite decide_False; [done|]. simpl in E. unfold is_request in E.
      rewrite exists_pair in E. by apply bool_decide_eq_false in E.
    + rewrite decide_True; [done|]. apply dec_stable. intros Hn. apply E, count_zero. simpl. unfold is_request.
      rewrite exists_pair. by apply bool_decide_eq_false.
  - unfold graph_of. simpl. f_equal. apply delete_pair.
  - split; [done|]. intros id (H1 & H2 & H3). split_and!; try done. by apply fresh_sublist.
Qed.

Lemma friends_delete a b db :
  ∃ db1, Friendships_Delete a b db
      = (if decide (OrderPair a b ∈ g_friends (graph_of db)) then Ok tt else Err ErrNotFriends, db1) ∧
    graph_of db1 = mkGraph (g_requests (graph_of db)) (g_friends (graph_of db) ∖ {[ OrderPair a b ]}) (g_blocks (graph_of db)) ∧
    framed db db1.
Proof.
  unfold Friendships_Delete. destruct (OrderPair a b) as [l h].
  eexists. rewrite M_bind_eval. unfold delete_where. split_and!.
  - unfold select_where. destruct (Z.eqb_spec (Z.of_nat (length (filter (λ r, is_friendship l h r = true) (t_get T_friendships db)))) 0) as [E|E].
    + apply count_zero in E. rewrite decide_False; [done|]. simpl in E. unfold is_friendship in E.
      rewrite exists_pair in E. by apply bool_decide_eq_false in E.
    + rewrite decide_True; [done|]. apply dec_stable. intros Hn. apply E, count_zero. simpl. unfold is_friendship.
      rewrite exists_pair. by apply bool_decide_eq_false.
  - unfold graph_of. simpl. f_equal. apply delete_pair.
  - split; [done|]. intros id (H1 & H2 & H3). split_and!; try done. by apply fresh_sublist.
Qed.

Lemma blocks_delete a b db :
  ∃ db1, Blocks_Delete a b db = (Ok tt, db1) ∧
    graph_of db1 = mkGraph (g_requests (graph_of db)) (g_friends (graph_of db)) (g_blocks (graph_of db) ∖ {[ (a, b) ]}) ∧
    framed db db1.
Proof.
  eexists. unfold Blocks_Delete. rewrite M_bind_eval. unfold delete_where. split_and!; [done| |].
  - unfold graph_of. simpl. f_equal. apply delete_pair.
  - split; [done|]. intros id (H1 & H2 & H3). split_and!; try done. by apply fresh_sublist.
Qed.

(** An insert either extends the graph or reports a violated constraint. *)
Definition saved (db : DB) (p : res unit * DB) (ready : Prop) (g : graph) : Prop :=
  (result p = Ok tt ∧ graph_of (state p) = g ∧ players (state p) = players db) ∨
  ((∃ code, result p = Err (PgConstraint code)) ∧ ~ ready).

Lemma requests_save id a b db :
  saved db (FriendRequests_Save id (NewFriendRequest a b) db)
    (fresh id db ∧ player_exists a db = true ∧ player_exists b db = true ∧ (a, b) ∉ g_requests (graph_of db))
    (mkGraph (g_requests (graph_of db) ∪ {[ (a, b) ]}) (g_friends (graph_of db)) (g_blocks (graph_of db))).
Proof.
  unfold FriendRequests_Save, insert_row. cbn [negb NewFriendRequest Requester Addressee].
  destruct (exists_where _ _ db) eqn:Eu; [|destruct (player_exists a db && player_exists b db) eqn:Ep]; simpl; to_prop.
  - right. split; [by eexists|]. intros ((Hf & _) & _ & _ & Hn). unfold exists_where in Eu.
    rewrite no_row_with in Eu; [done|done|]. unfold is_request. simpl. rewrite exists_pair. by apply bool_decide_eq_false.
  - left. split_and!; [done| |done]. unfold graph_of. simpl. f_equal. apply insert_pair.
  - right. split; [by eexists|]. simpl in *. destruct Ep; intuition congruence.
Qed.

Lemma friends_save id a b db :
  saved db (Friendships_Save id (NewFriendship a b) db)
    (fresh id db ∧ player_exists a db = true ∧ player_exists b db = true ∧ a <> b ∧
     OrderPair a b ∉ g_friends (graph_of db))
    (mkGraph (g_requests (graph_of db)) (g_friends (graph_of db) ∪ {[ OrderPair a b ]}) (g_blocks (graph_of db))).
Proof.
  pose proof (canonical_pair_ordered a b) as Ho. fold (OrderPair a b) in Ho.
  assert (Hp : player_exists a db = true → player_exists b db = true →
    player_exists (OrderPair a b).1 db = true ∧ player_exists (OrderPair a b).2 db = true).
  { unfold OrderPair, canonical_pair. case_match; eauto. }
  unfold NewFriendship. destruct (OrderPair a b) as [l h]. simpl in *. unfold Friendships_Save, insert_row. cbn [Low High].
  destruct (uuid_ltb l h) eqn:Ec; simpl; [|right; split; [by eexists|]; naive_solver].
  destruct (exists_where _ _ db) eqn:Eu; [|destruct (player_exists l db && player_exists h db) eqn:Ep]; simpl; to_prop.
  - right. split; [by eexists|]. intros ((_ & Hf & _) & _ & _ & _ & Hn). unfold exists_where in Eu.
    rewrite no_row_with in Eu; [done|done|]. unfold is_friendship. simpl. rewrite exists_pair. by apply bool_decide_eq_false.
  - left. split_and!; [done| |done]. unfold graph_of. simpl. f_equal. apply insert_pair.
  - right. split; [by eexists|]. destruct Ep; intuition congruence.
Qed.

Lemma blocks_save id a b db :
  saved db (Blocks_Save id (NewBlock a b) db)
    (fresh id db ∧ player_exists a db = true ∧ player_exists b db = true)
    (mkGraph (g_requests (graph_of db)) (g_friends (graph_of db)) (g_blocks (graph_of db) ∪ {[ (a, b) ]})).
Proof.
  unfold Blocks_Save. cbn [Blocker Blocked NewBlock]. destruct (exists_where T_player_blocks (is_block a b) db) eqn:E.
  - left. split_and!; [done| |done]. unfold exists_where, is_block in E. simpl in E. rewrite exists_pair in E. to_prop.
    unfold graph_of in *. simpl in *. f_equal. set_solver.
  - unfold insert_row. cbn [negb].
    destruct (exists_where T_player_blocks (λ x, bool_decide (b_id x = id)) db) eqn:Eu; [|destruct (player_exists a db && player_exists b db) eqn:Ep]; simpl; to_prop.
    + right. split; [by eexists|]. intros ((_ & _ & Hf) & _). apply existsb_true in Eu as (x & Hx & Hd). to_prop.
      apply Hf. subst. by apply list_elem_of_fmap_2.
    + left. split_and!; [done| |done]. unfold graph_of. simpl. f_equal. apply insert_pair.
    + right. split; [by eexists|]. destruct Ep; intuition congruence.
Qed.

(** ** Refinement *)

Definition op_players (o : social_op) : uuid * uuid :=
  match o with
  | Send a b | Accept a b | Decline a b | CancelReq a b | Remove a b | DoBlock a b | Unblock a b => (a, b)
  end.

(** The operation can store its row: the id is fresh and both players are registered. *)
Definition ready (id : uuid) (o : social_op) (db : DB) : Prop :=
  fresh id db ∧ player_exists (op_players o).1 db = true ∧ player_exists (op_players o).2 db = true.

Definition refines (id : uuid) (o : social_op) (db : DB) : Prop :=
  let '(r, db') := run_social id o db in
  (r = (graph_step (graph_of db) o).1 ∧ graph_of db' = (graph_step (graph_of db) o).2) ∨
  ((∃ code, r = Err (PgConstraint code)) ∧ db' = db ∧ ~ ready id o db).

Lemma in_tx_eval {D V A} (m : M D A) (db : D) (v : V) :
  in_tx m (db, v) = (result (m db), (state (m db), v)).
Proof. unfold in_tx. simpl. by destruct (m db). Qed.

(** Run one repository call of a transaction and name its outcome. *)
Ltac run_call H :=
  let db1 := fresh "db" in let E := fresh "E" in let Hg := fresh "Hg" in let Hfr := fresh "Hfr" in
  destruct H as (db1 & E & Hg & Hfr); rewrite E; clear E.

Lemma send_refines id a b db : graph_ok (graph_of db) → refines id (Send a b) db.
Proof.
  intros Hok. unfold refines, run_social, SendFriendRequest. cbn [graph_step].
  case_bool_decide as Hab; [rewrite decide_True by done; by left|]. rewrite (decide_False (P := a = b)) by done.
  unfold RW_capture, SendFriendRequest_tx. rewrite M_bind_eval, in_tx_eval, blocked_exists. simpl.
  case_bool_decide as Hb; [rewrite decide_True by done; by left|]. rewrite (decide_False (P := _ ∨ _)) by done.
  rewrite M_bind_eval, in_tx_eval, friends_exists. simpl.
  case_bool_decide as Hf; [rewrite decide_True by done; by left|]. rewrite (decide_False (P := OrderPair a b ∈ _)) by done.
  rewrite M_bind_eval, in_tx_eval, requests_exists. simpl.
  case_bool_decide as Hr.
  - rewrite decide_True by done. rewrite M_bind_eval, in_tx_eval. run_call (requests_delete b a db).
    unfold result, state. simpl. rewrite decide_True by done. rewrite M_bind_eval. unfold assign. simpl.
    rewrite in_tx_eval. destruct (friends_save id a b db0) as [(E & Hg' & _)|[[code E] Hn]]; rewrite E.
    + left. simpl. rewrite Hg', Hg. done.
    + right. split_and!; [by eexists|done|]. intros (Hfresh & Ha & Hb'). apply Hn.
      rewrite !(player_exists_framed db db0 _ Hfr), Hg. split_and!; try done. by apply Hfr.
  - rewrite (decide_False (P := (b, a) ∈ _)) by done.
    rewrite M_bind_eval, in_tx_eval, requests_exists. simpl.
    case_bool_decide as Hw; [rewrite decide_True by done; by left|]. rewrite decide_False by done.
    rewrite in_tx_eval. destruct (requests_save id a b db) as [(E & Hg' & _)|[[code E] Hn]]; rewrite E.
    + left. simpl. by rewrite Hg'.
    + right. split_and!; [by eexists|done|]. intros (Hfresh & Ha & Hb'). by apply Hn.
Qed.

(** [AcceptFriendRequest], [DeclineFriendRequest] and [CancelFriendRequest]. *)
Lemma accept_refines id a b db : graph_ok (graph_of db) → refines id (Accept a b) db.
Proof.
  intros Hok. unfold refines, run_social, AcceptFriendRequest. rewrite RW_eval, M_bind_eval. cbn [graph_step].
  run_call (requests_delete b a db). case_decide as Hr; [|left; by split].
  destruct (ok_request _ Hok _ _ Hr) as (Hne & _ & Hnf & _).
  assert (NewFriendship b a = NewFriendship a b ∧ OrderPair b a = OrderPair a b) as [-> Eo].
  { unfold NewFriendship, OrderPair. by rewrite (canonical_pair_comm b a). }
  destruct (friends_save id a b db0) as [(E & Hg' & _)|[[code E] Hn]];
    destruct (Friendships_Save id (NewFriendship a b) db0) as [r db1]; unfold result, state in *; cbn [fst snd] in *; subst r.
  - left. rewrite Hg', Hg. done.
  - right. split_and!; [by eexists|done|]. intros (Hfresh & Ha & Hb'). apply Hn.
    rewrite !(player_exists_framed db db0 _ Hfr), Hg. cbn [g_friends]. rewrite <- Eo. split_and!; try done. by apply Hfr.
Qed.

Lemma remove_request_refines id a b db :
  refines id (Decline a b) db ∧ refines id (CancelReq a b) db.
Proof.
  split; unfold refines, run_social, DeclineFriendRequest, CancelFriendRequest; rewrite RW_eval; cbn [graph_step].
  - run_call (requests_delete b a db). case_decide; by left.
  - run_call (requests_delete a b db). case_decide; by left.
Qed.

Lemma remove_friend_refines id a b db :
  refines id (Remove a b) db ∧ refines id (Unblock a b) db.
Proof.
  split; unfold refines, run_social, RemoveFriend, UnblockPlayer; rewrite RW_eval; cbn [graph_step].
  - run_call (friends_delete a b db). case_decide; by left.
  - run_call (blocks_delete a b db). by left.
Qed.

Lemma tolerate_call {D} (e : error) (m : M D unit) (db db1 : D) (P : Prop) `{Decision P} :
  m db = (if decide P then Ok tt else Err e, db1) → tolerate e m db = (Ok tt, db1).
Proof. intros Hm. unfold tolerate. rewrite Hm. case_decide; [done|]. by rewrite errors_Is_refl. Qed.

Lemma block_refines id a b db : refines id (DoBlock a b) db.
Proof.
  unfold refines, run_social, BlockPlayer. cbn [graph_step].
  case_bool_decide as Hab; [rewrite decide_True by done; by left|]. rewrite decide_False by done.
  rewrite RW_eval, M_bind_eval.
  destruct (blocks_save id a b db) as [(E & Hg & _)|[[code E] Hn]];
    destruct (Blocks_Save id (NewBlock a b) db) as [r db1]; unfold result, state in *; cbn [fst snd] in *; subst r;
    [|by right; split_and!; [eexists| |]].
  destruct (friends_delete a b db1) as (db2 & E2 & Hg2 & _).
  destruct (requests_delete a b db2) as (db3 & E3 & Hg3 & _).
  destruct (requests_delete b a db3) as (db4 & E4 & Hg4 & _).
  rewrite M_bind_eval, (tolerate_call _ _ _ _ _ E2), M_bind_eval, (tolerate_call _ _ _ _ _ E3),
    M_bind_eval, (tolerate_call _ _ _ _ _ E4).
  left. cbn [fst snd]. split; [done|]. rewrite Hg4, Hg3, Hg2, Hg. cbn [g_requests g_friends g_blocks].
  f_equal. apply set_eq. set_solver.
Qed.

#[export] Hint Resolve send_refines accept_refines block_refines : vfx.

Lemma op_refines id o db : graph_ok (graph_of db) → refines id o db.
Proof.
  intros Hok. destruct o; auto with vfx; by first [apply remove_request_refines | apply remove_friend_refines].
Qed.

Lemma OrderPair_eq a b c d : OrderPair a b = OrderPair c d ↔ (a = c ∧ b = d) ∨ (a = d ∧ b = c).
Proof.
  unfold OrderPair. split; [apply canonical_pair_inj|].
  intros [[-> ->]|[-> ->]]; [done|]. apply canonical_pair_comm.
Qed.

Lemma OrderPair_ordered a b x y : a <> b → (x, y) = OrderPair a b → uuid_ltb x y = true.
Proof. intros Hne E. pose proof (canonical_pair_ordered a b Hne) as H. unfold OrderPair in E. by rewrite <- E in H. Qed.

#[export] Hint Resolve OrderPair_ordered : vfx.

(** The abstract steps keep the graph well-formed. *)
Lemma graph_step_ok g o : graph_ok g → graph_ok (graph_step g o).2.
Proof.
  intros [Hc Hr Hb]. destruct o as [a b|a b|a b|a b|a b|a b|a b]; cbn [graph_step]; repeat case_decide; simpl; try done.
  all: split; simpl; intros x y; set_unfold; rewrite ?OrderPair_eq.
  all: specialize (Hc x y); pose proof (Hr x y) as Hxy; specialize (Hb x y);
    try (pose proof (Hr b a)); try (pose proof (Hr a b)); clear Hr.
  all: try first [intuition (subst; eauto with vfx; congruence); fail | naive_solver].
Qed.

(** ** Whole runs *)

(** Requests served one after the other; an error leaves the database to the next one. *)
Fixpoint run_socials (os : list (uuid * social_op)) (db : DB) : DB :=
  match os with
  | [] => db
  | (id, o) :: os' => run_socials os' (run_social id o db).2
  end.

Lemma run_social_ok id o db : graph_ok (graph_of db) → graph_ok (graph_of (run_social id o db).2).
Proof.
  intros Hok. pose proof (op_refines id o db Hok) as H. unfold refines in H.
  destruct (run_social id o db) as [r db']. cbn [snd]. destruct H as [[_ ->]|(_ & -> & _)]; [|done]. by apply graph_step_ok.
Qed.

Lemma run_socials_ok os db : graph_ok (graph_of db) → graph_ok (graph_of (run_socials os db)).
Proof.
  revert db. induction os as [|[id o] os IH]; intros db Hok; simpl; [done|]. by apply IH, run_social_ok.
Qed.

Lemma block_kept id o db a b :
  graph_ok (graph_of db) → o <> Unblock a b → (a, b) ∈ g_blocks (graph_of db) →
  (a, b) ∈ g_blocks (graph_of (run_social id o db).2).
Proof.
  intros Hok Hne Hin. pose proof (op_refines id o db Hok) as H. unfold refines in H.
  destruct (run_social id o db) as [r db']. cbn [snd]. destruct H as [[_ ->]|(_ & -> & _)]; [|done].
  destruct o; cbn [graph_step]; repeat case_decide; cbn [fst snd g_blocks]; try done; set_solver.
Qed.

Lemma blocks_kept os db a b :
  graph_ok (graph_of db) → (∀ o, o ∈ os.*2 → o <> Unblock a b) → (a, b) ∈ g_blocks (graph_of db) →
  (a, b) ∈ g_blocks (graph_of (run_socials os db)).
Proof.
  revert db. induction os as [|[id o] os IH]; intros db Hok Hno Hin; simpl; [done|].
  apply IH; [by apply run_social_ok| |].
  - intros o' Ho'. apply Hno. csimpl. by right.
  - apply block_kept; [done| |done]. apply Hno. csimpl. left.
Qed.

(** C10: every operation of the friend service refines the abstract friend graph: on each branch it
    returns the answer the graph gives (friends now or not, or the domain error) and the tables
    afterwards represent exactly the graph's next state.  The only other outcome is a constraint
    error for a row id in use or an unregistered player, and then nothing changes. *)
Theorem social_refines_graph id o db :
  graph_ok (graph_of db) →
  let '(r, db') := run_social id o db in
  (r = (graph_step (graph_of db) o).1 ∧ graph_of db' = (graph_step (graph_of db) o).2) ∨
  ((∃ code, r = Err (PgConstraint code)) ∧ db' = db ∧
   ~ (fresh id db ∧ player_exists (op_players o).1 db = true ∧ player_exists (op_players o).2 db = true)).
Proof. exact (op_refines id o db). Qed.

(** the friend graph stays well-formed under any sequence of requests, failing ones included:
    friendships are stored in canonical order, nobody befriends, requests or blocks themself, two
    players never have a pending request and a friendship, requests in both directions, or a block
    together with either. *)
Theorem social_graph_invariant os db :
  graph_ok (graph_of db) →
  let g := graph_of (run_socials os db) in
  (∀ a b, (a, b) ∈ g_friends g → uuid_ltb a b = true) ∧
  (∀ a b, (a, b) ∈ g_requests g → a <> b ∧ (b, a) ∉ g_requests g ∧ OrderPair a b ∉ g_friends g) ∧
  (∀ a b, (a, b) ∈ g_blocks g →
     a <> b ∧ (a, b) ∉ g_requests g ∧ (b, a) ∉ g_requests g ∧ OrderPair a b ∉ g_friends g).
Proof.
  intros Hok g. destruct (run_socials_ok os db Hok) as [Hc Hr Hb]. fold g in Hc, Hr, Hb.
  split_and!; [done|naive_solver|]. intros a b Hab. destruct (Hb a b Hab) as [? ?].
  split_and!; [done| | |done]; intros Hin; destruct (Hr _ _ Hin); naive_solver.
Qed.

(** a block holds until the blocker lifts it.  Whatever the two players and everybody else do
    after a successful BlockPlayer, as long as the blocker does not unblock, they are not friends,
    no request is pending between them, and a friend request either way is refused. *)
Theorem block_is_sticky id os db (a b : uuid) db1 :
  graph_ok (graph_of db) → BlockPlayer id a b db = (Ok tt, db1) →
  (∀ o, o ∈ os.*2 → o <> Unblock a b) →
  let db2 := run_socials os db1 in
  OrderPair a b ∉ g_friends (graph_of db2) ∧
  (∀ id', (run_social id' (Send a b) db2).1 = Err ErrBlocked) ∧
  (∀ id', (run_social id' (Send b a) db2).1 = Err ErrBlocked).
Proof.
  intros Hok Hblock Hno db2.
  pose proof (run_social_ok id (DoBlock a b) db Hok) as Hok1. pose proof (op_refines id (DoBlock a b) db Hok) as Hr.
  unfold refines in Hr. cbn [run_social] in Hok1, Hr. rewrite Hblock in Hok1, Hr. cbn [snd] in Hok1.
  assert (Hin : (a, b) ∈ g_blocks (graph_of db1)).
  { destruct Hr as [[Hr ->]|((code & Hc) & _)]; [|done]. cbn [graph_step] in *. case_decide; [done|]. cbn. set_solver. }
  pose proof (run_socials_ok os db1 Hok1) as Hok2. pose proof (blocks_kept os db1 a b Hok1 Hno Hin) as Hin2.
  fold db2 in Hok2, Hin2. destruct (ok_block _ Hok2 _ _ Hin2) as [Hne Hnf].
  assert (Hsend : ∀ id' x y, x <> y → (x, y) ∈ g_blocks (graph_of db2) ∨ (y, x) ∈ g_blocks (graph_of db2) →
    (run_social id' (Send x y) db2).1 = Err ErrBlocked).
  { intros id' x y Hxy Hbl. unfold run_social, SendFriendRequest. rewrite bool_decide_eq_false_2 by done.
    unfold RW_capture, SendFriendRequest_tx. rewrite M_bind_eval, in_tx_eval, blocked_exists.
    by rewrite bool_decide_eq_true_2. }
  split_and!; [done|intros; apply Hsend; auto..].
Qed.

(** ListFriends returns exactly the friends: the registered players with whom the caller has a
    friendship, in whichever order the pair is stored, newest friendship first, and changes nothing. *)
Theorem ListFriends_exact me db :
  graph_ok (graph_of db) →
  ∃ out, ListFriends me db = (Ok out, db) ∧
    StronglySorted (λ f g, Since g ≤ Since f) out ∧
    ∀ x, (∃ f, f ∈ out ∧ friend_PlayerID f = x) ↔
      OrderPair me x ∈ g_friends (graph_of db) ∧ player_exists x db = true.
Proof.
  intros Hok. eexists. split; [done|]. split.
  - eapply StronglySorted_omap; [|apply order_desc_sorted]. simpl. intros f g x y Hle Hx Hy.
    apply bind_Some in Hx as (p & _ & [= <-]), Hy as (p' & _ & [= <-]). done.
  - intros x. assert (Hcan : ∀ f, f ∈ friendships db → uuid_ltb (fs_player_low f) (fs_player_high f) = true).
    { intros f Hf. apply (ok_canonical _ Hok). unfold graph_of. simpl. rewrite elem_of_list_to_set.
      by apply (list_elem_of_fmap_2 (λ f, (fs_player_low f, fs_player_high f))). }
    assert (Hin : ∀ l h, (l, h) ∈ g_friends (graph_of db) ↔ ∃ f, f ∈ friendships db ∧ fs_player_low f = l ∧ fs_player_high f = h).
    { intros l h. unfold graph_of. simpl. rewrite elem_of_list_to_set, list_elem_of_fmap. naive_solver. }
    unfold OrderPair. rewrite canonical_pair_spec. split.
    + intros (f & Hf & <-). apply list_elem_of_omap in Hf as (r & Hr & Hf).
      rewrite order_desc_perm in Hr. apply filter_selected in Hr as [Hr Hside]. pose proof (Hcan r Hr) as Hlt.
      apply bind_Some in Hf as (p & Hp & [= <-]). simpl. pose proof (player_row_Some _ _ _ Hp) as Hid.
      split; [|rewrite Hid; by apply player_row_exists; eexists]. rewrite Hid.
      case_bool_decide as Hlow.
      * subst me. rewrite (uuid_ltb_asym _ _ Hlt). apply Hin. eauto.
      * simpl in Hside. apply bool_decide_eq_true in Hside. subst me. rewrite Hlt. apply Hin. eauto.
    + intros [Hpair Hx]. apply player_row_exists in Hx as [p Hp]. pose proof (player_row_Some _ _ _ Hp) as Hid.
      assert (∃ r, r ∈ friendships db ∧ ((fs_player_low r = me ∧ fs_player_high r = x) ∨ (fs_player_low r = x ∧ fs_player_high r = me)))
        as (r & Hr & Hor).
      { destruct (uuid_ltb x me); apply Hin in Hpair as (r & ? & ? & ?); eauto. }
      exists (mkFriend (p_id p) (p_nickname p) (fs_created_at r)). split; [|done].
      apply list_elem_of_omap. exists r. rewrite order_desc_perm. split.
      * apply filter_selected. split; [done|]. apply orb_true_iff. rewrite !bool_decide_eq_true. naive_solver.
      * pose proof (Hcan r Hr) as Hlt. assert (Ex : (if bool_decide (fs_player_low r = me) then fs_player_high r else fs_player_low r) = x).
        { destruct Hor as [[E1 E2]|[E1 E2]]; [by rewrite bool_decide_eq_true_2|].
          case_bool_decide as E3; [|done]. congruence. }
        by rewrite Ex, Hp.
Qed.

(** ** Evaluated instances *)

Definition demo_players : list PlayerRow :=
  (λ b, mkPlayerRow (sample_uuid b) (Some "player") 0 0) <$> [x0a; x0b; x0c].

Definition demo_db : DB := T_players.(t_set) demo_players emptyDB.

Lemma demo_graph_ok : graph_ok (graph_of demo_db).
Proof. by split; intros a b H; apply elem_of_empty in H. Qed.

(** A requests B, B requests A back (now friends), C requests A. *)
Definition demo_socials : list (uuid * social_op) :=
  [(sample_uuid x01, Send (sample_uuid x0a) (sample_uuid x0b));
   (sample_uuid x02, Send (sample_uuid x0b) (sample_uuid x0a));
   (sample_uuid x03, Send (sample_uuid x0c) (sample_uuid x0a))].

Definition demo_social_db : DB := run_socials demo_socials demo_db.

Lemma social_refines_graph_witness :
  (run_social (sample_uuid x02) (Send (sample_uuid x0b) (sample_uuid x0a))
     (run_socials (take 1 demo_socials) demo_db)).1 = Ok true.
Proof.
  assert (H := social_refines_graph (sample_uuid x02) (Send (sample_uuid x0b) (sample_uuid x0a))
    (run_socials (take 1 demo_socials) demo_db) (run_socials_ok _ _ demo_graph_ok)).
  destruct (run_social _ _ _) as [r db'] eqn:E. cbn [fst].
  destruct H as [[-> _]|[_ [_ H]]]; [vm_compute; reflexivity|]. exfalso. apply H.
  split_and!; [by_compute..|vm_compute; reflexivity|vm_compute; reflexivity].
Defined.

Lemma social_graph_invariant_witness :
  size (g_friends (graph_of demo_social_db)) = 1%nat ∧
  ∀ a b, (a, b) ∈ g_friends (graph_of demo_social_db) → uuid_ltb a b = true.
Proof.
  split; [vm_compute; reflexivity|].
  exact (proj1 (social_graph_invariant demo_socials demo_db demo_graph_ok)).
Defined.

Lemma block_is_sticky_witness :
  ∃ db1, BlockPlayer (sample_uuid x04) (sample_uuid x0a) (sample_uuid x0b) demo_social_db = (Ok tt, db1) ∧
    (run_social (sample_uuid x05) (Send (sample_uuid x0b) (sample_uuid x0a)) (run_socials [] db1)).1 = Err ErrBlocked.
Proof.
  destruct (BlockPlayer (sample_uuid x04) (sample_uuid x0a) (sample_uuid x0b) demo_social_db) as [r db1] eqn:E.
  assert (Er : r = Ok tt) by (change r with (r, db1).1; rewrite <- E; vm_compute; reflexivity). subst r.
  exists db1. split; [reflexivity|].
  destruct (block_is_sticky (sample_uuid x04) [] demo_social_db (sample_uuid x0a) (sample_uuid x0b) db1
    (run_socials_ok _ _ demo_graph_ok) E) as (_ & _ & H); [|apply H].
  intros o Ho. by apply elem_of_nil in Ho.
Defined.

Lemma ListFriends_exact_witness :
  ∃ out, ListFriends (sample_uuid x0b) demo_social_db = (Ok out, demo_social_db) ∧
    (∃ f, f ∈ out ∧ friend_PlayerID f = sample_uuid x0a).
Proof.
  destruct (ListFriends_exact (sample_uuid x0b) demo_social_db (run_socials_ok _ _ demo_graph_ok)) as (out & H & _ & Hx).
  exists out. split; [exact H|]. apply Hx. split; [by_compute|vm_compute; reflexivity].
Defined.

(** A request and its answer in one call report both "accepted" and the error that rolled it back. *)
Example accepted_and_failed :
  (SendFriendRequest (sample_uuid x02) (sample_uuid x0b) (sample_uuid x0a)
     (T_friendships.(t_set) [mkFriendshipRow (sample_uuid x02) (sample_uuid x0c) (sample_uuid x0d) 0]
        (run_socials (take 1 demo_socials) demo_db))).1 = (true, Err unique_violation).
Proof. vm_compute. reflexivity. Qed.
