(* ===== verification/Storage.v ===== *)
(** * File storage (internal/domain/storage, internal/infra/repository/storage.go, internal/usecase/storage)

    Filename validation, the metadata repositories over player_files and title_files, and the
    usecase over the pair (database, blob store).  [BlobStore] is the port of blobstore.go; the
    bytes live behind it.  The database's collation, which orders listings, is a parameter. *)

From S2P Require Import Prelude GoBase GoStrings Database.

(** ** The domain (file.go) *)

Definition MaxFilenameLength : Z := 256.
Definition MaxFileSize : Z := Z.shiftl 25 20.

Record File := mkFile { f_Filename : string; f_Size : Z; f_Hash : string; f_ModifiedAt : time }.

Definition ValidateFilename (name : string) : res unit :=
  if bool_decide (name = "") || (MaxFilenameLength <? RuneCountInString name) then Err ErrInvalidFilename
  else if negb (ValidString name) then Err ErrInvalidFilename
  else if bool_decide (name = ".") || bool_decide (name = "..") then Err ErrInvalidFilename
  else if bool_decide (TrimSpace name <> name) then Err ErrInvalidFilename
  else if existsb (λ rn, (rn.1 =? 47) || (rn.1 =? 92) || IsControl rn.1) (runes name) then Err ErrInvalidFilename
  else Ok tt.

Definition ValidateSize (size : Z) : res unit :=
  if MaxFileSize <? size then Err ErrFileTooLarge else Ok tt.

Definition NewFile (filename : string) (size : Z) (hash : string) (modifiedAt : time) : res File :=
  _ ← ValidateFilename filename;
  _ ← ValidateSize size;
  Ok (mkFile filename size hash modifiedAt).

(** ** The repositories (repository/storage.go) *)

Class Collation := collate_lt : string → string → bool.

Definition playerFileToDomain (row : PlayerFileRow) : File :=
  mkFile (pf_filename row) (u64 (pf_size row)) (pf_hash row) (pf_modified_at row).
Definition titleFileToDomain (row : TitleFileRow) : File :=
  mkFile (tf_filename row) (u64 (tf_size row)) (tf_hash row) (tf_modified_at row).

Definition is_player_file (ownerID : uuid) (filename : string) (r : PlayerFileRow) : bool :=
  bool_decide (pf_owner_id r = ownerID) && bool_decide (pf_filename r = filename).
Definition owned_by (ownerID : uuid) (r : PlayerFileRow) : bool := bool_decide (pf_owner_id r = ownerID).

(** [pgx.ErrNoRows] becomes [not_found]. *)
Definition no_rows_as {D A} (not_found : error) (m : M D A) : M D A := λ db,
  match m db with
  | (Err e, db') => (Err (if errors_Is e PgNoRows then not_found else e), db')
  | r => r
  end.

Definition PlayerFile_GetFile (ownerID : uuid) (filename : string) : M DB File :=
  row ← no_rows_as ErrFileNotFound (query_one T_player_files (is_player_file ownerID filename));
  mret (playerFileToDomain row).

Definition PlayerFile_ListFiles `{Collation} (ownerID : uuid) (prefix : string) (db : DB) : res (list File) :=
  Ok (playerFileToDomain <$> isort (λ a b, collate_lt (pf_filename a) (pf_filename b))
       (select_where T_player_files (λ r, owned_by ownerID r && String.prefix prefix (pf_filename r)) db)).

(** The upsert keeps the row of an existing (owner, filename) and replaces its contents. *)
Definition PlayerFile_SaveFile (id ownerID : uuid) (f : File) : M DB unit := λ db,
  let size := i64 (f_Size f) in
  let modified := toTimestamptz (f_ModifiedAt f) in
  if exists_where T_player_files (is_player_file ownerID (f_Filename f)) db then
    (_ ← update_where T_player_files (is_player_file ownerID (f_Filename f))
           (λ r, mkPlayerFileRow (pf_id r) (pf_owner_id r) (pf_filename r) size (f_Hash f) modified (pf_created_at r));
     mret tt) db
  else
    insert_row T_player_files true
      (negb (exists_where T_player_files (λ r, bool_decide (pf_id r = id)) db)) (player_exists ownerID db)
      (mkPlayerFileRow id ownerID (f_Filename f) size (f_Hash f) modified (db_now db)) db.

Definition PlayerFile_DeleteFile (ownerID : uuid) (filename : string) : M DB unit :=
  _ ← delete_where T_player_files (is_player_file ownerID filename); mret tt.

Definition sum_sizes (rows : list PlayerFileRow) : Z := foldr (λ r acc, pf_size r + acc) 0 rows.

(** [COALESCE(SUM(size), 0)::BIGINT] and [COUNT( * )]; the cast fails outside the column type. *)
Definition PlayerFile_Usage (ownerID : uuid) : M DB (Z * Z) := λ db,
  let rows := select_where T_player_files (owned_by ownerID) db in
  if max_int64 <? sum_sizes rows then (Err (ErrText "bigint out of range"), db)
  else (Ok (u64 (sum_sizes rows), Z.of_nat (length rows)), db).

Definition TitleFile_ListFiles `{Collation} (tags : list string) (db : DB) : res (list File) :=
  Ok (titleFileToDomain <$> isort (λ a b, collate_lt (tf_filename a) (tf_filename b))
       (select_where T_title_files (λ r, forallb (λ t, bool_decide (t ∈ tf_tags r)) tags) db)).

Definition is_title_file (filename : string) (r : TitleFileRow) : bool := bool_decide (tf_filename r = filename).

Definition TitleFile_GetFile (filename : string) : M DB File :=
  row ← no_rows_as ErrFileNotFound (query_one T_title_files (is_title_file filename));
  mret (titleFileToDomain row).

Definition TitleFile_DeleteFile (filename : string) : M DB unit :=
  _ ← delete_where T_title_files (is_title_file filename); mret tt.

Definition TitleFile_SaveFile (id : uuid) (f : File) (tags : list string) : M DB unit := λ db,
  let size := i64 (f_Size f) in
  let modified := toTimestamptz (f_ModifiedAt f) in
  if exists_where T_title_files (is_title_file (f_Filename f)) db then
    (_ ← update_where T_title_files (is_title_file (f_Filename f))
           (λ r, mkTitleFileRow (tf_id r) (tf_filename r) size (f_Hash f) tags modified (tf_created_at r));
     mret tt) db
  else
    insert_row T_title_files true (negb (exists_where T_title_files (λ r, bool_decide (tf_id r = id)) db)) true
      (mkTitleFileRow id (f_Filename f) size (f_Hash f) tags modified (db_now db)) db.

(** ** The blob store port (blobstore.go) *)

Record SignedURL := mkSignedURL { su_URL : string; su_Method : string; su_Headers : gmap string string; su_Expires : time }.
Record ObjectAttrs := mkObjectAttrs { oa_Size : Z; oa_Hash : string }.

Class BlobStore (B : Type) := {
  SignUpload : string → duration → M B SignedURL;
  SignDownload : string → duration → M B SignedURL;
  Upload : string → string → string → M B unit;
  Stat : string → M B ObjectAttrs;
  BlobDelete : string → M B unit;
}.

(** The size a store reports is a [uint64]. *)
Class BlobStoreLaws (B : Type) {S : BlobStore B} : Prop :=
  stat_size : ∀ k b a, result (Stat k b) = Ok a → 0 ≤ oa_Size a < two64.

(** ** The usecase (storage.go) *)

Record StorageConfig := mkStorageConfig {
  PlayerDataPrefix : string;
  TitlePrefix : string;
  URLTTL : duration;
  MaxBytesPerPlayer : Z;
  MaxFilesPerPlayer : Z;
}.

Section usecase.
Context {B : Type} {S : BlobStore B} {U : UuidCodec} {C : Collation}.
Context (cfg : StorageConfig).

Definition on_db {A} (m : M DB A) : M (DB * B) A := λ w, let '(r, db) := m w.1 in (r, (db, w.2)).
Definition on_blobs {A} (m : M B A) : M (DB * B) A := λ w, let '(r, b) := m w.2 in (r, (w.1, b)).

Definition playerKey (ownerID : uuid) (filename : string) : string :=
  path_Join [PlayerDataPrefix cfg; uuid_String ownerID; filename].
Definition titleKey (filename : string) : string := path_Join [TitlePrefix cfg; filename].

Definition checkQuota (ownerID : uuid) (filename : string) (size : Z) : M DB unit :=
  usage ← PlayerFile_Usage ownerID;
  existing ← try (PlayerFile_GetFile ownerID filename);
  adjusted ←
    match existing with
    | Ok f => mret (u64 (usage.1 - f_Size f), usage.2)
    | Err err => if errors_Is err ErrFileNotFound then mret (usage.1, i64 (usage.2 + 1)) else fail err
    end;
  if (MaxBytesPerPlayer cfg <? u64 (adjusted.1 + size)) || (MaxFilesPerPlayer cfg <? adjusted.2)
  then fail ErrQuotaExceeded else mret tt.

Definition QueryPlayerFiles (ownerID : uuid) (prefix : string) : M (DB * B) (list File) :=
  on_db (RO (PlayerFile_ListFiles ownerID prefix)).

Definition ReadPlayerFile (ownerID : uuid) (filename : string) : M (DB * B) (File * SignedURL) :=
  _ ← lift_res (ValidateFilename filename);
  file ← on_db (RO (λ db, result (PlayerFile_GetFile ownerID filename db)));
  url ← on_blobs (SignDownload (playerKey ownerID filename) (URLTTL cfg));
  mret (file, url).

Definition WritePlayerFile (ownerID : uuid) (filename : string) (size : Z) : M (DB * B) SignedURL :=
  _ ← lift_res (ValidateFilename filename);
  _ ← lift_res (ValidateSize size);
  _ ← on_db (RO (λ db, result (checkQuota ownerID filename size db)));
  on_blobs (SignUpload (playerKey ownerID filename) (URLTTL cfg)).

Definition CommitPlayerFile (id : uuid) (now : time) (ownerID : uuid) (filename : string) : M (DB * B) File :=
  _ ← lift_res (ValidateFilename filename);
  attrs ← try (on_blobs (Stat (playerKey ownerID filename)));
  match attrs with
  | Err err => fail (if errors_Is err ErrObjectNotFound then ErrUploadIncomplete else err)
  | Ok attrs =>
      file ← lift_res (NewFile filename (oa_Size attrs) (oa_Hash attrs) now);
      _ ← on_db (RW (_ ← checkQuota ownerID filename (f_Size file); PlayerFile_SaveFile id ownerID file));
      mret file
  end.

Definition DeletePlayerFile (ownerID : uuid) (filename : string) : M (DB * B) unit :=
  _ ← lift_res (ValidateFilename filename);
  _ ← on_db (RW (_ ← PlayerFile_GetFile ownerID filename; PlayerFile_DeleteFile ownerID filename));
  ignore (on_blobs (BlobDelete (playerKey ownerID filename))).

Definition QueryTitleFiles (tags : list string) : M (DB * B) (list File) := on_db (RO (TitleFile_ListFiles tags)).

Definition PublishTitleFile (id : uuid) (now : time) (filename : string) (tags : list string) (data contentType : string)
    : M (DB * B) File :=
  _ ← lift_res (ValidateFilename filename);
  _ ← lift_res (ValidateSize (Z.of_nat (String.length data)));
  let key := titleKey filename in
  _ ← on_blobs (Upload key data contentType);
  attrs ← on_blobs (Stat key);
  file ← lift_res (NewFile filename (oa_Size attrs) (oa_Hash attrs) now);
  _ ← on_db (RW (TitleFile_SaveFile id file tags));
  mret file.

Definition DeleteTitleFile (filename : string) : M (DB * B) unit :=
  _ ← lift_res (ValidateFilename filename);
  _ ← on_db (RW (_ ← TitleFile_GetFile filename; TitleFile_DeleteFile filename));
  ignore (on_blobs (BlobDelete (titleKey filename))).

Definition ReadTitleFile (filename : string) : M (DB * B) (File * SignedURL) :=
  _ ← lift_res (ValidateFilename filename);
  file ← on_db (RO (λ db, result (TitleFile_GetFile filename db)));
  url ← on_blobs (SignDownload (titleKey filename) (URLTTL cfg));
  mret (file, url).
End usecase.

(** ** Valid names *)

(** The bytes a multi-byte rune takes after the first are never ASCII. *)
Lemma DecodeRune_tail b0 l1 : Forall (λ b, 128 ≤ b) (take (pred (DecodeRune (b0 :: l1)).2) l1).
Proof.
  assert (Hsec : ∀ b, second_ok b0 b = true → 128 ≤ b).
  { intros b. unfold second_ok, is_cont, in_range. repeat case_match; intros; to_prop; lia. }
  assert (Hc : ∀ b, is_cont b = true → 128 ≤ b) by (intros b; unfold is_cont, in_range; intros; to_prop; lia).
  cbn [DecodeRune]. repeat case_match; to_prop; repeat constructor; auto.
Qed.

Lemma DecodeRune_ascii b l : b < 128 → DecodeRune (b :: l) = (b, 1%nat).
Proof. intros H. cbn [DecodeRune]. by rewrite (proj2 (Z.ltb_lt _ _)). Qed.

(** Every ASCII byte of a string is one of its runes. *)
Lemma ascii_byte_is_rune b k l :
  b < 128 → b ∈ l → Forall (λ x, 128 ≤ x) (take k l) → (b, 1%nat) ∈ decode_from k l.
Proof.
  intros Hb. revert k. induction l as [|b0 l IH]; intros k Hin Hk; [by apply elem_of_nil in Hin|].
  apply elem_of_cons in Hin as [->|Hin].
  - destruct k as [|k]; [|apply Forall_cons in Hk; lia]. cbn [decode_from].
    rewrite DecodeRune_ascii by done. left.
  - destruct k as [|k]; cbn [decode_from].
    + right. apply IH; [done|apply DecodeRune_tail].
    + apply IH; [done|]. by apply Forall_cons in Hk as [_ ?].
Qed.

Lemma ValidateFilename_plain name : ValidateFilename name = Ok tt → plain name.
Proof.
  unfold ValidateFilename. intros H. break_all H. to_prop. split_and!; try done.
  intros Hin. match goal with H : existsb _ _ = false |- _ => rename H into Hr end.
  rewrite existsb_false in Hr. specialize (Hr (47, 1%nat)). simpl in Hr.
  enough (Hm : (47, 1%nat) ∈ runes name) by (by apply Hr in Hm). unfold runes.
  apply ascii_byte_is_rune; [lia| |constructor]. unfold go_bytes.
  apply list_elem_of_fmap. by exists "/"%char.
Qed.

Lemma uuid_plain {U : UuidCodec} {UL : UuidCodecLaws U} o : plain (uuid_String o).
Proof.
  pose proof (uuid_string_length o) as Hl. split_and!; [intros E; rewrite E in Hl; discriminate..|].
  apply uuid_string_no_slash.
Qed.

(** ** Usage accounting *)

Lemma sum_sizes_perm l1 l2 : l1 ≡ₚ l2 → sum_sizes l1 = sum_sizes l2.
Proof. induction 1; simpl; lia. Qed.

Definition not_file (o : uuid) (f : string) (r : PlayerFileRow) : Prop := is_player_file o f r = false.

#[export] Instance not_file_dec o f r : Decision (not_file o f r).
Proof. unfold not_file. apply _. Defined.

Definition file_key (r : PlayerFileRow) : uuid * string := (pf_owner_id r, pf_filename r).

Lemma is_player_file_key o f r : is_player_file o f r = true ↔ file_key r = (o, f).
Proof. unfold is_player_file, file_key. rewrite andb_true_iff, !bool_decide_eq_true. naive_solver. Qed.

(** With unique keys, the row of a key can be split off. *)
Lemma split_key o f l r :
  NoDup (file_key <$> l) → r ∈ l → is_player_file o f r = true → l ≡ₚ r :: filter (not_file o f) l.
Proof.
  intros Hnd Hin Hr. induction l as [|x l IH]; [by apply elem_of_nil in Hin|].
  csimpl in Hnd. apply NoDup_cons in Hnd as [Hx Hnd]. apply elem_of_cons in Hin as [->|Hin].
  - rewrite filter_cons_False by (unfold not_file; congruence). constructor.
    apply is_player_file_key in Hr. clear IH Hnd. induction l as [|y l IH]; [done|].
    csimpl in Hx. apply not_elem_of_cons in Hx as [Hy Hx].
    rewrite filter_cons_True; [by rewrite <- IH|]. unfold not_file.
    destruct (is_player_file o f y) eqn:E; [|done]. apply is_player_file_key in E. congruence.
  - rewrite filter_cons_True.
    + rewrite Permutation_swap. constructor. by apply IH.
    + unfold not_file. destruct (is_player_file o f x) eqn:E; [|done]. apply is_player_file_key in E, Hr.
      destruct Hx. rewrite E, <- Hr. by apply list_elem_of_fmap_2.
Qed.

Lemma no_key o f l : existsb (is_player_file o f) l = false → filter (not_file o f) l = l.
Proof. intros H. unfold not_file. by apply filter_false_id. Qed.

(** The rows of one owner, and what an owner is charged for besides the file [f]. *)
Definition owned (o : uuid) (db : DB) : list PlayerFileRow := filter (λ r, owned_by o r = true) (player_files db).
Definition others (o : uuid) (f : string) (db : DB) : list PlayerFileRow := filter (not_file o f) (owned o db).

Record quota_ok (cfg : StorageConfig) (db : DB) : Prop := {
  quota_sizes : ∀ r, r ∈ player_files db → 0 ≤ pf_size r ≤ MaxFileSize;
  quota_keys : NoDup (file_key <$> player_files db);
  quota_bytes : ∀ o, sum_sizes (owned o db) ≤ MaxBytesPerPlayer cfg;
  quota_files : ∀ o, Z.of_nat (length (owned o db)) ≤ MaxFilesPerPlayer cfg;
}.

(** Limits for which the 64-bit arithmetic of the check is exact. *)
Definition sane_limits (cfg : StorageConfig) : Prop :=
  MaxBytesPerPlayer cfg + MaxFileSize ≤ max_int64 ∧ MaxFilesPerPlayer cfg < max_int64.

Lemma sum_sizes_nonneg l : (∀ r, r ∈ l → 0 ≤ pf_size r) → 0 ≤ sum_sizes l.
Proof.
  induction l as [|r l IH]; intros H; simpl; [lia|]. pose proof (H r ltac:(left)).
  assert (0 ≤ sum_sizes l) by (apply IH; intros x Hx; apply H; by right). lia.
Qed.

Lemma owned_file o f r : is_player_file o f r = true → owned_by o r = true.
Proof. unfold is_player_file, owned_by. by intros [? _]%andb_true_iff. Qed.

Lemma owned_elem o db r : r ∈ owned o db ↔ r ∈ player_files db ∧ owned_by o r = true.
Proof. apply filter_selected. Qed.

Lemma owned_NoDup o db : NoDup (file_key <$> player_files db) → NoDup (file_key <$> owned o db).
Proof. intros H. eapply sublist_NoDup; [done|]. apply fmap_sublist, sublist_filter. Qed.

Lemma GetFile_cases o f db :
  (∃ r, r ∈ owned o db ∧ is_player_file o f r = true ∧
     PlayerFile_GetFile o f db = (Ok (playerFileToDomain r), db)) ∨
  (existsb (is_player_file o f) (player_files db) = false ∧ PlayerFile_GetFile o f db = (Err ErrFileNotFound, db)).
Proof.
  unfold PlayerFile_GetFile, no_rows_as, query_one. rewrite M_bind_eval.
  destruct (select_where T_player_files (is_player_file o f) db) as [|r l] eqn:E.
  - right. split; [|done]. apply count_zero. unfold select_where in E. simpl in E. by rewrite E.
  - left. exists r. assert (r ∈ select_where T_player_files (is_player_file o f) db) as Hr by (rewrite E; left).
    apply filter_selected in Hr as [Hin Hr]. split_and!; [|done|done]. apply owned_elem. split; [done|].
    by eapply owned_file.
Qed.

Lemma owned_no_key o f db : existsb (is_player_file o f) (player_files db) = false → others o f db = owned o db.
Proof.
  intros H. apply no_key, existsb_false. intros r Hr. apply owned_elem in Hr as [Hr _].
  by eapply existsb_false in H.
Qed.

(** The check, in exact arithmetic: the owner's other files plus the new one fit the limits. *)
Lemma checkQuota_spec cfg o f size db :
  sane_limits cfg → quota_ok cfg db → 0 ≤ size ≤ MaxFileSize →
  checkQuota cfg o f size db =
    ((if (sum_sizes (others o f db) + size <=? MaxBytesPerPlayer cfg) &&
         (Z.of_nat (length (others o f db)) + 1 <=? MaxFilesPerPlayer cfg)
      then Ok tt else Err ErrQuotaExceeded), db).
Proof.
  intros [Hl1 Hl2] Hq Hsz. unfold checkQuota. rewrite M_bind_eval. unfold PlayerFile_Usage. fold (owned o db).
  change (select_where T_player_files (owned_by o) db) with (owned o db).
  pose proof (quota_bytes _ _ Hq o) as Hb. pose proof (quota_files _ _ Hq o) as Hf.
  assert (Hpos : ∀ r, r ∈ owned o db → 0 ≤ pf_size r ≤ MaxFileSize).
  { intros r Hr. apply owned_elem in Hr as [Hr _]. by apply (quota_sizes _ _ Hq). }
  pose proof (sum_sizes_nonneg (owned o db) ltac:(intros r Hr; by apply Hpos)) as H0.
  assert (Hm : MaxFileSize = 26214400) by done. unfold max_int64 in *.
  destruct (_ <? sum_sizes _) eqn:E; to_prop; [lia|]. rewrite M_bind_eval. unfold try.
  destruct (GetFile_cases o f db) as [(r & Hr & Hkey & ->)|[Hno ->]]; rewrite M_bind_eval; simpl.
  - pose proof (split_key o f _ r (owned_NoDup o db (quota_keys _ _ Hq)) Hr Hkey) as Hp. fold (others o f db) in Hp.
    pose proof (sum_sizes_perm _ _ Hp) as Es. pose proof (Permutation_length Hp) as El. simpl in Es, El.
    pose proof (Hpos r Hr). assert (Ho : 0 ≤ sum_sizes (others o f db)).
    { apply sum_sizes_nonneg. intros x Hx. apply list_elem_of_filter in Hx as [_ Hx]. by apply Hpos. }
    rewrite (u64_small (pf_size r)), !(u64_small (sum_sizes _)), (u64_small (_ - _)), u64_small by (unfold two64; lia).
    rewrite Es, El. replace (pf_size r + sum_sizes (others o f db) - pf_size r) with (sum_sizes (others o f db)) by lia.
    rewrite Nat2Z.inj_succ, <- Z.add_1_r, !Z.leb_antisym. by destruct (_ <? _), (_ <? _).
  - rewrite (owned_no_key _ _ _ Hno).
    rewrite !(u64_small (sum_sizes _)), u64_small, i64_small by (unfold two64, min_int64, max_int64; lia).
    rewrite !Z.leb_antisym. by destruct (_ <? _), (_ <? _).
Qed.

(** ** Writing a file's row *)

Lemma SaveFile_spec id o f db :
  NoDup (file_key <$> player_files db) →
  match PlayerFile_SaveFile id o f db with
  | (Ok _, db') => ∃ row, file_key row = (o, f_Filename f) ∧ pf_size row = i64 (f_Size f) ∧ pf_hash row = f_Hash f ∧
      pf_modified_at row = toTimestamptz (f_ModifiedAt f) ∧
      player_files db' ≡ₚ row :: filter (not_file o (f_Filename f)) (player_files db)
  | (Err _, db') => db' = db
  end.
Proof.
  intros Hnd. unfold PlayerFile_SaveFile. destruct (exists_where T_player_files _ db) eqn:E.
  - rewrite M_bind_eval. unfold update_where. simpl. unfold exists_where in E. apply existsb_true in E as (r & Hr & Hk).
    exists (mkPlayerFileRow (pf_id r) (pf_owner_id r) (pf_filename r) (i64 (f_Size f)) (f_Hash f)
              (toTimestamptz (f_ModifiedAt f)) (pf_created_at r)).
    split_and!; [by apply is_player_file_key in Hk|done..|].
    rewrite (split_key _ _ _ _ Hnd Hr Hk) at 1. csimpl. rewrite Hk. constructor.
    apply reflexive_eq. clear. induction (player_files db) as [|x l IH]; [done|].
    destruct (decide (not_file o (f_Filename f) x)) as [Hx|Hx].
    + rewrite filter_cons_True by done. csimpl. unfold not_file in Hx. rewrite Hx. by rewrite IH.
    + by rewrite filter_cons_False.
  - unfold insert_row. simpl. destruct (negb (exists_where T_player_files _ db)); simpl; [|done].
    destruct (player_exists o db); simpl; [|done].
    eexists (mkPlayerFileRow id o (f_Filename f) (i64 (f_Size f)) (f_Hash f) (toTimestamptz (f_ModifiedAt f)) (db_now db)).
    split_and!; [done..|].
    unfold exists_where in E. rewrite no_key by done. simpl. by rewrite <- Permutation_cons_append.
Qed.

Lemma filter_swap {A} (P Q : A → Prop) `{!∀ x, Decision (P x)} `{!∀ x, Decision (Q x)} (l : list A) :
  filter P (filter Q l) = filter Q (filter P l).
Proof.
  induction l as [|x l IH]; [done|].
  destruct (decide (P x)), (decide (Q x)); rewrite ?(filter_cons_True P x), ?(filter_cons_True Q x),
    ?(filter_cons_False P x), ?(filter_cons_False Q x), ?(filter_cons_True P x), ?(filter_cons_True Q x),
    ?(filter_cons_False P x), ?(filter_cons_False Q x) by done; by rewrite IH.
Qed.

Lemma filter_id {A} (P : A → Prop) `{!∀ x, Decision (P x)} (l : list A) : (∀ x, x ∈ l → P x) → filter P l = l.
Proof.
  induction l as [|x l IH]; intros Hall; [done|]. rewrite filter_cons_True by (apply Hall; left).
  rewrite IH; [done|]. intros y Hy. apply Hall. by right.
Qed.

(** Replacing a file keeps the quota when the other files and the new one fit. *)
Lemma quota_ok_replace cfg o f row db db' :
  quota_ok cfg db → file_key row = (o, f) → 0 ≤ pf_size row ≤ MaxFileSize →
  sum_sizes (others o f db) + pf_size row ≤ MaxBytesPerPlayer cfg →
  Z.of_nat (length (others o f db)) + 1 ≤ MaxFilesPerPlayer cfg →
  player_files db' ≡ₚ row :: filter (not_file o f) (player_files db) → quota_ok cfg db'.
Proof.
  intros [Hs Hk Hb Hc] Hrow Hsz Hsum Hlen Hp.
  assert (Hown : ∀ o', owned o' db' ≡ₚ if decide (o' = o) then row :: others o f db else owned o' db).
  { intros o'. unfold owned. rewrite Hp. unfold others, owned. injection Hrow as Ho Hf. case_decide as Hd.
    - subst o'. rewrite filter_cons_True by (unfold owned_by; by rewrite bool_decide_eq_true_2).
      by rewrite filter_swap.
    - rewrite filter_cons_False by (unfold owned_by; rewrite bool_decide_eq_true; congruence).
      rewrite filter_swap, filter_id; [done|]. intros x Hx. apply filter_selected in Hx as [_ Hx].
      unfold not_file. destruct (is_player_file o f x) eqn:E; [|done].
      apply owned_file in E. unfold owned_by in *. to_prop. congruence. }
  split.
  - intros r. rewrite Hp, elem_of_cons. intros [->|Hr]; [done|]. apply list_elem_of_filter in Hr as [_ Hr]. by apply Hs.
  - rewrite Hp. csimpl. apply NoDup_cons. split.
    + rewrite Hrow. intros (x & Hx & Hin)%list_elem_of_fmap. apply list_elem_of_filter in Hin as [Hin _].
      unfold not_file in Hin. assert (is_player_file o f x = true) by (by apply is_player_file_key). congruence.
    + eapply sublist_NoDup; [exact Hk|]. apply fmap_sublist, sublist_filter.
  - intros o'. rewrite (sum_sizes_perm _ _ (Hown o')). case_decide; [simpl; lia|done].
  - intros o'. rewrite (Permutation_length (Hown o')). case_decide; [simpl; lia|done].
Qed.

Lemma sum_sizes_filter (P : PlayerFileRow → Prop) `{!∀ r, Decision (P r)} l :
  (∀ r, r ∈ l → 0 ≤ pf_size r) → sum_sizes (filter P l) ≤ sum_sizes l.
Proof.
  induction l as [|r l IH]; intros Hall; [done|]. assert (sum_sizes (filter P l) ≤ sum_sizes l).
  { apply IH. intros x Hx. apply Hall. by right. }
  pose proof (Hall r ltac:(left)). destruct (decide (P r)).
  - rewrite filter_cons_True by done. simpl. lia.
  - rewrite filter_cons_False by done. simpl. lia.
Qed.

Lemma quota_ok_delete cfg o f db db' :
  quota_ok cfg db → player_files db' = filter (not_file o f) (player_files db) → quota_ok cfg db'.
Proof.
  intros [Hs Hk Hb Hc] Hp.
  assert (Hown : ∀ o', owned o' db' = filter (not_file o f) (owned o' db)).
  { intros o'. unfold owned. by rewrite Hp, filter_swap. }
  split.
  - intros r. rewrite Hp. intros [_ Hr]%list_elem_of_filter. by apply Hs.
  - rewrite Hp. eapply sublist_NoDup; [exact Hk|]. apply fmap_sublist, sublist_filter.
  - intros o'. rewrite Hown. etrans; [|apply (Hb o')]. apply sum_sizes_filter.
    intros r [Hr _]%owned_elem. by apply Hs.
  - intros o'. rewrite Hown. pose proof (length_filter (not_file o f) (owned o' db)). specialize (Hc o'). lia.
Qed.

(** Statements that leave player_files alone leave the quota alone. *)
Lemma quota_ok_same cfg db db' : quota_ok cfg db → player_files db' = player_files db → quota_ok cfg db'.
Proof. intros [Hs Hk Hb Hc] E. split; unfold owned in *; rewrite E; done. Qed.

(** ** The operations *)

Section laws.
Context {B : Type} {S : BlobStore B} {SL : BlobStoreLaws B} {U : UuidCodec} {C : Collation}.
Context (cfg : StorageConfig).

(** What a commit does, with the upload's attributes [attrs] as the store reports them. *)
Lemma commit_cases id now o f (w : DB * B) :
  sane_limits cfg → quota_ok cfg w.1 →
  let '(r, w') := CommitPlayerFile cfg id now o f w in
  match r with
  | Ok file => ∃ attrs row, result (Stat (playerKey cfg o f) w.2) = Ok attrs ∧ ValidateFilename f = Ok tt ∧
      file = mkFile f (oa_Size attrs) (oa_Hash attrs) now ∧
      file_key row = (o, f) ∧ pf_size row = oa_Size attrs ∧ pf_hash row = oa_Hash attrs ∧
      pf_modified_at row = toTimestamptz now ∧ 0 ≤ oa_Size attrs ≤ MaxFileSize ∧
      sum_sizes (others o f w.1) + oa_Size attrs ≤ MaxBytesPerPlayer cfg ∧
      Z.of_nat (length (others o f w.1)) + 1 ≤ MaxFilesPerPlayer cfg ∧
      player_files w'.1 ≡ₚ row :: filter (not_file o f) (player_files w.1)
  | Err e => w'.1 = w.1 ∧
      (ValidateFilename f = Ok tt → ∀ e', result (Stat (playerKey cfg o f) w.2) = Err e' →
         e = if errors_Is e' ErrObjectNotFound then ErrUploadIncomplete else e')
  end.
Proof.
  intros Hl Hq. unfold CommitPlayerFile. rewrite M_bind_eval. unfold lift_res.
  destruct (ValidateFilename f) as [[]|e] eqn:Ev; [|by split].
  rewrite M_bind_eval. unfold try, on_blobs. pose proof (stat_size (playerKey cfg o f) w.2) as Hst. revert Hst.
  unfold result. destruct (Stat (playerKey cfg o f) w.2) as [[attrs|e] b] eqn:Es; simpl; intros Hst.
  2: { split; [done|]. by intros _ e' [= ->]. }
  specialize (Hst _ eq_refl). rewrite M_bind_eval. unfold NewFile. rewrite Ev. simpl. unfold ValidateSize.
  destruct (MaxFileSize <? oa_Size attrs) eqn:Emax; simpl; [by split|]. to_prop.
  assert (Hm : MaxFileSize = 26214400) by done.
  rewrite M_bind_eval. unfold on_db. rewrite RW_eval, M_bind_eval. simpl fst.
  rewrite checkQuota_spec by (done || simpl; lia).
  destruct (_ && _) eqn:Eq; [|by split]. to_prop. simpl f_Size.
  pose proof (SaveFile_spec id o (mkFile f (oa_Size attrs) (oa_Hash attrs) now) w.1 (quota_keys _ _ Hq)) as Hs.
  destruct (PlayerFile_SaveFile id o _ w.1) as [[[]|e] db']; [|by split].
  destruct Hs as (row & Hk & Hsz & Hh & Ht & Hp). simpl in *. exists attrs, row.
  rewrite Hsz. rewrite i64_small by (unfold min_int64, max_int64; lia). split_and!; done || lia.
Qed.

Lemma commit_quota id now o f (w : DB * B) :
  sane_limits cfg → quota_ok cfg w.1 → quota_ok cfg (state (CommitPlayerFile cfg id now o f w)).1.
Proof.
  intros Hl Hq. pose proof (commit_cases id now o f w Hl Hq) as H.
  destruct (CommitPlayerFile cfg id now o f w) as [[file|e] w']; unfold state; simpl.
  - destruct H as (attrs & row & _ & _ & _ & Hk & Hsz & _ & _ & Hr & Hsum & Hlen & Hp).
    eapply quota_ok_replace; [exact Hq|exact Hk|..|exact Hp]; rewrite ?Hsz; done.
  - by destruct H as [-> _].
Qed.

Lemma delete_cases o f (w : DB * B) :
  let '(r, w') := DeletePlayerFile cfg o f w in
  (w'.1 = w.1 ∧ is_ok r = false) ∨
  (r = Ok tt ∧ ValidateFilename f = Ok tt ∧ player_files w'.1 = filter (not_file o f) (player_files w.1)).
Proof.
  unfold DeletePlayerFile. rewrite M_bind_eval. unfold lift_res.
  destruct (ValidateFilename f) as [[]|e] eqn:Ev; [|by left].
  rewrite M_bind_eval. unfold on_db. rewrite RW_eval, M_bind_eval.
  destruct (GetFile_cases o f w.1) as [(r & Hr & Hk & ->)|[Hno ->]]; [|by left].
  unfold PlayerFile_DeleteFile. rewrite M_bind_eval. unfold delete_where. simpl.
  unfold ignore, on_blobs. simpl. destruct (BlobDelete _ w.2) as [rb b]. simpl. by right.
Qed.

Lemma delete_quota o f (w : DB * B) :
  quota_ok cfg w.1 → quota_ok cfg (state (DeletePlayerFile cfg o f w)).1.
Proof.
  intros Hq. pose proof (delete_cases o f w) as H. destruct (DeletePlayerFile cfg o f w) as [r w']. unfold state. simpl.
  destruct H as [[-> _]|(_ & _ & Hp)]; [done|]. by eapply quota_ok_delete.
Qed.
End laws.

(** ** Properties *)

(** the object keys of player data never collide and never escape: a valid filename is one
    ordinary path element, so the key of every file is the cleaned configured prefix followed by
    the owner's id and the name, and different files have different keys. *)
Theorem playerKey_injective {U : UuidCodec} {UL : UuidCodecLaws U} cfg o1 f1 o2 f2 :
  ValidateFilename f1 = Ok tt → ValidateFilename f2 = Ok tt →
  playerKey cfg o1 f1 = path_render (rooted (PlayerDataPrefix cfg))
    (f1 :: uuid_String o1 :: prefix_stack (PlayerDataPrefix cfg)) ∧
  (playerKey cfg o1 f1 = playerKey cfg o2 f2 → o1 = o2 ∧ f1 = f2).
Proof.
  intros H1%ValidateFilename_plain H2%ValidateFilename_plain. unfold playerKey.
  assert (Hj : ∀ o f, plain f → path_Join [PlayerDataPrefix cfg; uuid_String o; f]
    = path_render (rooted (PlayerDataPrefix cfg)) (f :: uuid_String o :: prefix_stack (PlayerDataPrefix cfg))).
  { intros o f Hf. rewrite Join_plain; [done| |done]. constructor; [apply uuid_plain|by constructor]. }
  rewrite !Hj by done. split; [done|]. intros E.
  assert (Hall : ∀ o f, plain f → Forall no_slash (f :: uuid_String o :: prefix_stack (PlayerDataPrefix cfg))).
  { intros o f Hf. constructor; [by apply Hf|]. constructor; [apply (uuid_plain o)|apply prefix_stack_no_slash]. }
  apply path_render_inj in E; [|by apply Hall|by apply Hall|done|done].
  injection E as -> E. split; [by apply uuid_String_inj|done].
Qed.

(** *** Reading back *)

Lemma GetFile_row o f db r :
  NoDup (file_key <$> player_files db) → r ∈ player_files db → file_key r = (o, f) →
  PlayerFile_GetFile o f db = (Ok (playerFileToDomain r), db).
Proof.
  intros Hnd Hr Hk. assert (Hkey : is_player_file o f r = true) by (by apply is_player_file_key).
  unfold PlayerFile_GetFile, no_rows_as, query_one. rewrite M_bind_eval.
  assert (Hp : select_where T_player_files (is_player_file o f) db ≡ₚ [r]).
  { unfold select_where. simpl. rewrite (split_key o f _ r Hnd Hr Hkey).
    rewrite filter_cons_True by done. constructor. apply Permutation_nil_r.
    destruct (filter _ (filter _ _)) as [|x l] eqn:E; [done|]. exfalso.
    assert (x ∈ filter (λ r, is_player_file o f r = true) (filter (not_file o f) (player_files db))) as Hx by (rewrite E; left).
    apply filter_selected in Hx as [[Hx _]%list_elem_of_filter Hx']. unfold not_file in Hx. congruence. }
  by apply Permutation_singleton_r in Hp as ->.
Qed.

Lemma GetFile_absent o f db :
  (∀ r, r ∈ player_files db → file_key r <> (o, f)) → PlayerFile_GetFile o f db = (Err ErrFileNotFound, db).
Proof.
  intros H. destruct (GetFile_cases o f db) as [(r & Hr & Hk & _)|[_ E]]; [|done].
  apply owned_elem in Hr as [Hr _]. apply is_player_file_key in Hk. by destruct (H r).
Qed.

(** Two databases with the same rows for a key answer the same. *)
Lemma GetFile_ext o f db db' :
  NoDup (file_key <$> player_files db) → NoDup (file_key <$> player_files db') →
  (∀ r, file_key r = (o, f) → r ∈ player_files db ↔ r ∈ player_files db') →
  result (PlayerFile_GetFile o f db') = result (PlayerFile_GetFile o f db).
Proof.
  intros Hnd Hnd' Hiff. destruct (GetFile_cases o f db) as [(r & Hr & Hk & E)|[Hno E]]; rewrite E.
  - apply owned_elem in Hr as [Hr _]. apply is_player_file_key in Hk.
    by rewrite (GetFile_row _ _ _ r Hnd' ltac:(by apply Hiff) Hk).
  - rewrite GetFile_absent; [done|]. intros r Hr Hk. apply Hiff in Hr; [|done].
    apply is_player_file_key in Hk. by rewrite (proj1 (existsb_false _ _) Hno _ Hr) in Hk.
Qed.

Lemma u64_size z : 0 ≤ z ≤ MaxFileSize → u64 z = z.
Proof. intros. apply u64_small. assert (MaxFileSize = 26214400) by done. unfold two64. lia. Qed.

(** committing an upload records what the blob store reports, never what the client declared.
    On success the file read back has the stored object's size and hash and the commit time, and
    every other file of every player reads as before; without an object the commit fails with
    "upload incomplete"; and no failing commit changes any metadata. *)
Theorem commit_then_read {B : Type} {S : BlobStore B} {SL : BlobStoreLaws B} {U : UuidCodec}
    cfg id now o f (w : DB * B) :
  sane_limits cfg → quota_ok cfg w.1 →
  let '(r, w') := CommitPlayerFile cfg id now o f w in
  match r with
  | Ok file => ∃ attrs, result (Stat (playerKey cfg o f) w.2) = Ok attrs ∧
      file = mkFile f (oa_Size attrs) (oa_Hash attrs) now ∧
      PlayerFile_GetFile o f w'.1 = (Ok (mkFile f (oa_Size attrs) (oa_Hash attrs) (toTimestamptz now)), w'.1) ∧
      (∀ o' f', (o', f') <> (o, f) →
         result (PlayerFile_GetFile o' f' w'.1) = result (PlayerFile_GetFile o' f' w.1))
  | Err e => w'.1 = w.1 ∧
      (ValidateFilename f = Ok tt → result (Stat (playerKey cfg o f) w.2) = Err ErrObjectNotFound → e = ErrUploadIncomplete)
  end.
Proof.
  intros Hl Hq. pose proof (commit_cases cfg id now o f w Hl Hq) as H.
  pose proof (commit_quota cfg id now o f w Hl Hq) as Hq'.
  destruct (CommitPlayerFile cfg id now o f w) as [[file|e] w']; unfold state in Hq'; simpl in Hq'.
  - destruct H as (attrs & row & Hst & _ & -> & Hk & Hsz & Hh & Ht & Hr & _ & _ & Hp).
    assert (Hrow : row ∈ player_files w'.1) by (rewrite Hp; left).
    exists attrs. split_and!; [done|done| |].
    + rewrite (GetFile_row _ _ _ row (quota_keys _ _ Hq') Hrow Hk). unfold playerFileToDomain.
      injection Hk as _ ->. by rewrite Hsz, Hh, Ht, u64_size.
    + intros o' f' Hne. apply GetFile_ext; [apply Hq|apply Hq'|]. intros x Hx. rewrite Hp, elem_of_cons, list_elem_of_filter.
      unfold not_file. destruct (is_player_file o f x) eqn:E; [apply is_player_file_key in E; congruence|].
      split; [auto|]. intros [->|[_ ?]]; [congruence|done].
  - destruct H as [-> He]. split; [done|]. intros Hv Hst. rewrite (He Hv _ Hst). done.
Qed.

(** after a successful delete the file is gone for every reader, whether or not the blob
    store managed to delete its bytes, and every other file of every player reads as before. *)
Theorem delete_then_read {B : Type} {S : BlobStore B} {U : UuidCodec} cfg o f (w : DB * B) w' :
  quota_ok cfg w.1 → DeletePlayerFile cfg o f w = (Ok tt, w') →
  result (ReadPlayerFile cfg o f w') = Err ErrFileNotFound ∧
  (∀ o' f', (o', f') <> (o, f) → result (PlayerFile_GetFile o' f' w'.1) = result (PlayerFile_GetFile o' f' w.1)).
Proof.
  intros Hq Hd. pose proof (delete_cases cfg o f w) as H. pose proof (delete_quota cfg o f w Hq) as Hq'.
  rewrite Hd in *. unfold state in Hq'. simpl in Hq'. destruct H as [[_ ?]|(_ & Hv & Hp)]; [done|]. split.
  - unfold ReadPlayerFile. rewrite M_bind_eval. unfold lift_res. rewrite Hv, M_bind_eval. unfold on_db, RO.
    rewrite GetFile_absent; [done|]. intros r Hr. rewrite Hp in Hr. apply list_elem_of_filter in Hr as [Hr _].
    unfold not_file in Hr. intros Hk. apply is_player_file_key in Hk. congruence.
  - intros o' f' Hne. apply GetFile_ext; [apply Hq|apply Hq'|]. intros x Hx. rewrite Hp, list_elem_of_filter.
    unfold not_file. destruct (is_player_file o f x) eqn:E; [apply is_player_file_key in E; congruence|]. naive_solver.
Qed.

(** *** Whole runs *)

(** [StClient] is a client using a signed URL: the store's contents change in any way. *)
Inductive storage_op (B : Type) :=
  | StWrite (o : uuid) (f : string) (size : Z)
  | StCommit (id : uuid) (now : time) (o : uuid) (f : string)
  | StDelete (o : uuid) (f : string)
  | StPublish (id : uuid) (now : time) (f : string) (tags : list string) (data contentType : string)
  | StUnpublish (f : string)
  | StClient (b : B).
Arguments StWrite {B}.
Arguments StCommit {B}.
Arguments StDelete {B}.
Arguments StPublish {B}.
Arguments StUnpublish {B}.
Arguments StClient {B}.

Section runs.
Context {B : Type} {S : BlobStore B} {SL : BlobStoreLaws B} {U : UuidCodec}.
Context (cfg : StorageConfig).

Definition run_storage (op : storage_op B) (w : DB * B) : DB * B :=
  match op with
  | StWrite o f size => state (WritePlayerFile cfg o f size w)
  | StCommit id now o f => state (CommitPlayerFile cfg id now o f w)
  | StDelete o f => state (DeletePlayerFile cfg o f w)
  | StPublish id now f tags data ct => state (PublishTitleFile cfg id now f tags data ct w)
  | StUnpublish f => state (DeleteTitleFile cfg f w)
  | StClient b => (w.1, b)
  end.

(** Operations that leave player_files alone. *)
Definition keeps_files {A} (m : M (DB * B) A) : Prop := ∀ w, player_files (state (m w)).1 = player_files w.1.

Lemma keeps_bind {A A'} (m : M (DB * B) A) (k : A → M (DB * B) A') :
  keeps_files m → (∀ a, keeps_files (k a)) → keeps_files (m ≫= k).
Proof.
  intros Hm Hk w. unfold state. rewrite M_bind_eval. specialize (Hm w). unfold state in Hm.
  destruct (m w) as [[a|e] w1]; simpl in *; [|done]. rewrite <- Hm. apply Hk.
Qed.

Lemma keeps_ret {A} (a : A) : keeps_files (mret a). Proof. by intros w. Qed.
Lemma keeps_lift {A} (r : res A) : keeps_files (lift_res r). Proof. by intros w. Qed.
Lemma keeps_blobs {A} (m : M B A) : keeps_files (on_blobs m).
Proof. intros w. unfold on_blobs, state. by destruct (m w.2). Qed.
Lemma keeps_ignore {A} (m : M (DB * B) A) : keeps_files m → keeps_files (ignore m).
Proof. intros H w. apply H. Qed.
Lemma keeps_ro {A} (f : DB → res A) : keeps_files (on_db (RO f)). Proof. by intros w. Qed.
Lemma keeps_rw {A} (m : M DB A) : (∀ db, player_files (state (m db)) = player_files db) → keeps_files (on_db (RW m)).
Proof.
  intros H w. specialize (H w.1). unfold on_db, state in *. rewrite RW_eval.
  by destruct (m w.1) as [[a|e] db].
Qed.

Lemma title_save_keeps id f tags db : player_files (state (TitleFile_SaveFile id f tags db)) = player_files db.
Proof.
  unfold TitleFile_SaveFile, state. destruct (exists_where T_title_files (is_title_file _) db); [done|].
  unfold insert_row. by repeat case_match.
Qed.

Lemma title_delete_keeps f db :
  player_files (state ((_ ← TitleFile_GetFile f; TitleFile_DeleteFile f) db)) = player_files db.
Proof.
  unfold state. rewrite M_bind_eval. unfold TitleFile_GetFile, no_rows_as, query_one. rewrite M_bind_eval.
  by destruct (select_where _ _ _).
Qed.

#[local] Hint Resolve keeps_bind keeps_ret keeps_lift keeps_blobs keeps_ignore keeps_ro keeps_rw title_save_keeps
  title_delete_keeps : core.

Lemma run_storage_quota op w : sane_limits cfg → quota_ok cfg w.1 → quota_ok cfg (run_storage op w).1.
Proof.
  intros Hl Hq. destruct op; simpl; [|by apply commit_quota|by apply delete_quota| | |done];
    (eapply quota_ok_same; [exact Hq|]);
    match goal with |- player_files (state (?m w)).1 = _ => enough (Hk : keeps_files m) by apply Hk end.
  - unfold WritePlayerFile. auto 8.
  - unfold PublishTitleFile. auto 12.
  - unfold DeleteTitleFile. auto 8.
Qed.
End runs.

(** C13: no player ever exceeds the storage quota, in bytes or in files, whatever uploads, commits,
    deletions and title publications are served one after the other, and however clients change
    the stored objects between them; a name is never listed twice.  The limits must leave room for
    one file in 63 bits, so that the unsigned sum of the check does not wrap. *)
Theorem storage_within_quota {B : Type} {S : BlobStore B} {SL : BlobStoreLaws B} {U : UuidCodec}
    cfg (ops : list (storage_op B)) (w : DB * B) :
  MaxBytesPerPlayer cfg + MaxFileSize ≤ max_int64 → MaxFilesPerPlayer cfg < max_int64 →
  quota_ok cfg w.1 →
  let db := (foldl (λ w op, run_storage cfg op w) w ops).1 in
  (∀ o, sum_sizes (owned o db) ≤ MaxBytesPerPlayer cfg ∧ Z.of_nat (length (owned o db)) ≤ MaxFilesPerPlayer cfg) ∧
  NoDup (file_key <$> player_files db).
Proof.
  intros H1 H2 Hq db.
  assert (Hok : quota_ok cfg db).
  { unfold db. clear db. revert w Hq. induction ops as [|op ops IH]; intros w Hq; simpl; [done|].
    apply IH. by apply run_storage_quota. }
  split; [|apply Hok]. intros o. split; apply Hok.
Qed.

(** ** Evaluated instances *)

(** A store that keeps attributes only; deleting an absent object is an error. *)
Definition mem_blobs : BlobStore (gmap string ObjectAttrs) := {|
  SignUpload key ttl := mret (mkSignedURL key "PUT" ∅ ttl);
  SignDownload key ttl := mret (mkSignedURL key "GET" ∅ ttl);
  Upload key data ct := modify (<[key := mkObjectAttrs (Z.of_nat (String.length data) mod two64) ct]>);
  Stat key := λ b,
    match b !! key with
    | Some a => (Ok (mkObjectAttrs (oa_Size a mod two64) (oa_Hash a)), b)
    | None => (Err ErrObjectNotFound, b)
    end;
  BlobDelete key := λ b, match b !! key with Some _ => (Ok tt, delete key b) | None => (Err (ErrText "absent"), b) end;
|}.

Lemma mem_blobs_laws : @BlobStoreLaws _ mem_blobs.
Proof.
  intros k b a. unfold result. simpl. destruct (b !! k); simpl; [|done]. intros [= <-]. simpl.
  by apply Z.mod_pos_bound.
Qed.

#[local] Existing Instance mem_blobs.
#[local] Existing Instance mem_blobs_laws.
#[local] Existing Instance hex_codec.

Definition demo_storage : StorageConfig := mkStorageConfig "player-data/" "title" (60 * Second) 1000 2.
Definition demo_owner : uuid := sample_uuid x0a.

Definition demo_files_db : DB :=
  T_players.(t_set) [mkPlayerRow demo_owner None 0 0]
    (T_player_files.(t_set) [mkPlayerFileRow (sample_uuid x01) demo_owner "save-1" 600 "h1" 0 0] emptyDB).

(** The client replaced save-1 by 900 bytes and uploaded a new save-2 of 500 bytes. *)
Definition demo_store : DB * gmap string ObjectAttrs :=
  (demo_files_db, <[playerKey demo_storage demo_owner "save-1" := mkObjectAttrs 900 "h2"]>
                  (<[playerKey demo_storage demo_owner "save-2" := mkObjectAttrs 500 "h3"]> ∅)).

Lemma demo_sane : sane_limits demo_storage.
Proof. by split. Qed.

Lemma owned_demo o : owned o demo_files_db = if bool_decide (demo_owner = o) then player_files demo_files_db else [].
Proof.
  change (player_files demo_files_db) with [mkPlayerFileRow (sample_uuid x01) demo_owner "save-1" 600 "h1" 0 0] at 1.
  unfold owned. change (player_files demo_files_db) with [mkPlayerFileRow (sample_uuid x01) demo_owner "save-1" 600 "h1" 0 0].
  case_bool_decide as E.
  - by rewrite filter_cons_True by (unfold owned_by; by apply bool_decide_eq_true).
  - by rewrite filter_cons_False by (unfold owned_by; by rewrite bool_decide_eq_true).
Qed.

Lemma demo_quota_ok : quota_ok demo_storage demo_files_db.
Proof.
  split; [by_compute_all|by_compute|..]; intros o; rewrite owned_demo; case_bool_decide; apply Z.leb_le; vm_compute; reflexivity.
Qed.

Lemma playerKey_injective_witness :
  ValidateFilename "save-1" = Ok tt ∧
  playerKey demo_storage demo_owner "save-1" = "player-data/0a000000-0000-0000-0000-000000000000/save-1".
Proof.
  split; [vm_compute; reflexivity|].
  destruct (playerKey_injective demo_storage demo_owner "save-1" demo_owner "save-1") as [H _];
    [vm_compute; reflexivity|vm_compute; reflexivity|]. rewrite H. vm_compute. reflexivity.
Defined.

Lemma commit_then_read_witness :
  ∃ file w', CommitPlayerFile demo_storage (sample_uuid x02) 1700 demo_owner "save-1" demo_store = (Ok file, w') ∧
    PlayerFile_GetFile demo_owner "save-1" w'.1 = (Ok (mkFile "save-1" 900 "h2" 1000), w'.1).
Proof.
  assert (H := commit_then_read demo_storage (sample_uuid x02) 1700 demo_owner "save-1" demo_store demo_sane demo_quota_ok).
  destruct (CommitPlayerFile demo_storage (sample_uuid x02) 1700 demo_owner "save-1" demo_store) as [[file|e] w'] eqn:E.
  - exists file, w'. split; [reflexivity|]. destruct H as (attrs & Hst & _ & Hget & _).
    assert (Ea : attrs = mkObjectAttrs 900 "h2") by (vm_compute in Hst; congruence). subst attrs. exact Hget.
  - exfalso. assert (Hr : is_ok (CommitPlayerFile demo_storage (sample_uuid x02) 1700 demo_owner "save-1" demo_store).1 = true)
      by (vm_compute; reflexivity). rewrite E in Hr. discriminate Hr.
Defined.

Lemma delete_then_read_witness :
  ∃ w', DeletePlayerFile demo_storage demo_owner "save-1" (demo_files_db, ∅) = (Ok tt, w') ∧
    result (ReadPlayerFile demo_storage demo_owner "save-1" w') = Err ErrFileNotFound.
Proof.
  eexists. split; [vm_compute; reflexivity|].
  refine (proj1 (delete_then_read demo_storage demo_owner "save-1" (demo_files_db, ∅) _ demo_quota_ok _)).
  vm_compute. reflexivity.
Defined.

(** Replacing save-1 fits; the new save-2 would not, and its commit is refused. *)
Definition demo_storage_ops : list (storage_op (gmap string ObjectAttrs)) :=
  [StWrite demo_owner "save-1" 10; StCommit (sample_uuid x02) 1700 demo_owner "save-1";
   StCommit (sample_uuid x03) 1800 demo_owner "save-2"].

Lemma storage_within_quota_witness :
  let db := (foldl (λ w op, run_storage demo_storage op w) demo_store demo_storage_ops).1 in
  pf_size <$> owned demo_owner db = [900] ∧ sum_sizes (owned demo_owner db) ≤ 1000.
Proof.
  split; [vm_compute; reflexivity|].
  exact (proj1 (proj1 (storage_within_quota demo_storage demo_storage_ops demo_store ltac:(done) ltac:(done) demo_quota_ok) demo_owner)).
Defined.
