(* ===== verification/ObjectStore.v ===== *)
(** * Objects behind the storage usecase

    What an object store documents about the objects it keeps ([ObjectLaws]), that the keys of title
    files and of player files never meet, and what publishing and removing a title file do to the
    database and to the objects. *)

From S2P Require Import Prelude GoBase GoStrings Database Storage.

(** ** The laws

    [object k] is what the object at [k] holds.  Signing and [Stat] leave every object alone, the
    size reported is that of what is held, an accepted [Upload] replaces the object at its key, and
    neither [Upload] nor [BlobDelete] touches any other, whatever its outcome. *)
Class ObjectLaws (S : Type) {BS : BlobStore S} := {
  object : string → S → option string;
  sign_upload_keeps k ttl s r s1 : SignUpload k ttl s = (r, s1) → ∀ k', object k' s1 = object k' s;
  sign_download_keeps k ttl s r s1 : SignDownload k ttl s = (r, s1) → ∀ k', object k' s1 = object k' s;
  stat_keeps k s r s1 : Stat k s = (r, s1) → ∀ k', object k' s1 = object k' s;
  stat_reports k s a s1 d : Stat k s = (Ok a, s1) → object k s = Some d → oa_Size a = Z.of_nat (String.length d);
  upload_object k d ct s s1 : Upload k d ct s = (Ok tt, s1) → object k s1 = Some d;
  upload_frame k d ct s r s1 : Upload k d ct s = (r, s1) → ∀ k', k' <> k → object k' s1 = object k' s;
  delete_frame k s r s1 : BlobDelete k s = (r, s1) → ∀ k', k' <> k → object k' s1 = object k' s;
}.

(** ** Keys *)

Lemma split_render root st : Forall no_slash st → st <> [] →
  split_slash (path_render root st) = (if root then [""] else []) ++ rev st.
Proof.
  intros Hs Hn. assert (Hr : rev st <> []) by (intros H; apply Hn; by rewrite <- (rev_involutive st), H).
  assert (Hj : split_slash (strings_Join (rev st) "/") = rev st) by (apply split_Join; [done|by apply List.Forall_rev]).
  unfold path_render. rewrite bool_decide_eq_false_2 by done. destruct root; [|by rewrite Hj].
  change (split_slash (String "/" ?s)) with ("" :: split_slash s). by rewrite Hj.
Qed.

(** The directory of the title files is not the directory of a player. *)
Definition title_apart (cfg : StorageConfig) : Prop := String.length (default "" (head (prefix_stack (TitlePrefix cfg)))) <> 36%nat.

Lemma titleKey_render cfg f : ValidateFilename f = Ok tt →
  titleKey cfg f = path_render (rooted (TitlePrefix cfg)) (f :: prefix_stack (TitlePrefix cfg)).
Proof. intros H%ValidateFilename_plain. unfold titleKey. rewrite Join_plain; [done|by constructor|done]. Qed.

Lemma playerKey_render {U : UuidCodec} {UL : UuidCodecLaws U} cfg o f : ValidateFilename f = Ok tt →
  playerKey cfg o f = path_render (rooted (PlayerDataPrefix cfg)) (f :: uuid_String o :: prefix_stack (PlayerDataPrefix cfg)).
Proof.
  intros H%ValidateFilename_plain. unfold playerKey.
  rewrite Join_plain; [done|constructor; [apply uuid_plain|by constructor]|done].
Qed.

Lemma titleKey_playerKey {U : UuidCodec} {UL : UuidCodecLaws U} acfg cfg o f g :
  title_apart acfg → ValidateFilename f = Ok tt → ValidateFilename g = Ok tt → titleKey acfg f <> playerKey cfg o g.
Proof.
  intros Ha Hf Hg. rewrite titleKey_render, playerKey_render by done. intros E.
  pose proof (uuid_string_length o) as Hl. pose proof (uuid_string_no_slash o) as Hu.
  apply ValidateFilename_plain in Hf as (_ & _ & _ & Hf). apply ValidateFilename_plain in Hg as (_ & _ & _ & Hg).
  pose proof (prefix_stack_no_slash (TitlePrefix acfg)) as H1. pose proof (prefix_stack_no_slash (PlayerDataPrefix cfg)) as H2.
  apply (f_equal split_slash), (f_equal (@rev string)) in E.
  rewrite !split_render in E by (done || by repeat constructor). rewrite !rev_app_distr, !rev_involutive in E.
  unfold title_apart in Ha. cbn in E. injection E as _ E. destruct (prefix_stack (TitlePrefix acfg)) as [|s st].
  - destruct (rooted (TitlePrefix acfg)); cbn in E; [|done]. injection E as E _. by rewrite <- E in Hl.
  - injection E as -> _. by apply Ha.
Qed.

Lemma titleKey_inj cfg f g : ValidateFilename f = Ok tt → ValidateFilename g = Ok tt → titleKey cfg f = titleKey cfg g → f = g.
Proof.
  intros Hf Hg. rewrite !titleKey_render by done.
  apply ValidateFilename_plain in Hf as (_ & _ & _ & Hf). apply ValidateFilename_plain in Hg as (_ & _ & _ & Hg).
  pose proof (prefix_stack_no_slash (TitlePrefix cfg)). intros E. apply path_render_inj in E; [by injection E|by constructor..|done|done].
Qed.

(** ** Title files in the database *)

(** All that changes is the rows named [f] of title_files. *)
Definition titles_but (f : string) (db : DB) : list TitleFileRow := filter (λ r, is_title_file f r = false) (title_files db).
Definition only_title (f : string) (db db' : DB) : Prop :=
  titles_but f db' = titles_but f db ∧ ∃ l, db' = t_set T_title_files l db.

Lemma only_title_refl f db : only_title f db db.
Proof. split; [done|]. exists (title_files db). by destruct db. Qed.

Lemma is_title_file_eq f r : is_title_file f r = true ↔ tf_filename r = f.
Proof. apply bool_decide_eq_true. Qed.

Lemma SaveFile_only id f tags db : only_title (f_Filename f) db (TitleFile_SaveFile id f tags db).2.
Proof.
  unfold TitleFile_SaveFile. destruct (exists_where _ _ _) eqn:E.
  - unfold update_where, mbind, M_bind. cbn [snd]. split; [|by eexists]. unfold titles_but. cbn.
    induction (title_files db) as [|r l IH]; [done|]. cbn [fmap list_fmap].
    destruct (is_title_file (f_Filename f) r) eqn:Er; [|by rewrite !filter_cons_True, IH by done].
    by rewrite !filter_cons_False, IH by (try (unfold is_title_file in *; cbn); congruence).
  - unfold insert_row. destruct (negb true); [apply only_title_refl|]. destruct (negb (negb _)); [apply only_title_refl|].
    cbn. split; [|by eexists]. unfold titles_but. cbn. rewrite filter_app, filter_cons_False, app_nil_r; [done|].
    unfold is_title_file. cbn. by rewrite bool_decide_eq_true_2.
Qed.

Lemma DeleteFile_only f db : only_title f db (TitleFile_DeleteFile f db).2.
Proof.
  unfold TitleFile_DeleteFile, delete_where, mbind, M_bind. cbn. split; [|by eexists]. unfold titles_but. cbn.
  rewrite list_filter_filter_l; done.
Qed.

(** What is stored of a title file. *)
Definition stored_title (f : File) : File := mkFile (f_Filename f) (u64 (i64 (f_Size f))) (f_Hash f) (toTimestamptz (f_ModifiedAt f)).

Lemma GetFile_title f db v :
  (∃ r, r ∈ title_files db ∧ tf_filename r = f) → (∀ r, r ∈ title_files db → tf_filename r = f → titleFileToDomain r = v) →
  TitleFile_GetFile f db = (Ok v, db).
Proof.
  intros (r & Hr & Hf) Hall. unfold TitleFile_GetFile, no_rows_as, query_one, mbind, M_bind.
  destruct (select_where T_title_files (is_title_file f) db) as [|x l] eqn:E.
  - assert (r ∈ select_where T_title_files (is_title_file f) db) as Hin by (apply filter_selected; split; [done|by apply is_title_file_eq]).
    rewrite E in Hin. by apply elem_of_nil in Hin.
  - assert (x ∈ select_where T_title_files (is_title_file f) db) as [Hx Hn]%filter_selected by (rewrite E; left).
    cbn. by rewrite (Hall x Hx (proj1 (is_title_file_eq _ _) Hn)).
Qed.

Lemma SaveFile_rows id f tags db db' : TitleFile_SaveFile id f tags db = (Ok tt, db') →
  (∃ r, r ∈ title_files db' ∧ tf_filename r = f_Filename f) ∧
  ∀ r, r ∈ title_files db' → tf_filename r = f_Filename f → titleFileToDomain r = stored_title f ∧ tf_tags r = tags.
Proof.
  unfold TitleFile_SaveFile. destruct (exists_where _ _ _) eqn:E.
  - intros [= <-]. cbn. apply existsb_exists in E as (r & Hr & Hn). apply list_elem_of_In in Hr. split.
    + eexists. split; [apply list_elem_of_fmap; exists r; split; [done|exact Hr]|]. rewrite Hn. by apply is_title_file_eq.
    + intros x (y & -> & Hy)%list_elem_of_fmap. destruct (is_title_file (f_Filename f) y) eqn:En.
      * intros _. apply is_title_file_eq in En. unfold titleFileToDomain, stored_title. cbn. by rewrite En.
      * intros Hx. apply is_title_file_eq in Hx. congruence.
  - unfold insert_row. cbn [negb]. destruct (exists_where T_title_files (λ r, bool_decide (tf_id r = id)) db); [done|]. cbn.
    intros [= <-]. cbn. split; [eexists; split; [apply elem_of_app; right; by left|done]|].
    intros r [Hr|Hr%list_elem_of_singleton]%elem_of_app.
    + intros Hx. unfold exists_where in E. cbn in E. rewrite existsb_false in E. apply E in Hr. apply is_title_file_eq in Hx. congruence.
    + subst r. done.
Qed.

(** ** Publishing and removing *)

Section titles.
Context {S : Type} {BS : BlobStore S} {OL : ObjectLaws S} (cfg : StorageConfig).

(** Only objects at the key of [f] may differ. *)
Definition only_object (f : string) (s s' : S) : Prop := ∀ k, k <> titleKey cfg f → object k s' = object k s.
Definition title_frame (f : string) (w w' : DB * S) : Prop := only_title f w.1 w'.1 ∧ only_object f w.2 w'.2.

#[export] Instance title_frame_preorder f : PreOrder (title_frame f).
Proof.
  split.
  - intros w. split; [apply only_title_refl|done].
  - intros w1 w2 w3 [[Ha [l1 Hl1]] Hb] [[Hc [l2 Hl2]] Hd]. split; [split; [congruence|]|].
    + exists l2. rewrite Hl2, Hl1. done.
    + intros k Hk. rewrite Hd by done. by apply Hb.
Qed.

Definition framed {A} (f : string) (m : M (DB * S) A) : Prop := ∀ w, title_frame f w (m w).2.

Lemma framed_bind {A A'} f (m : M (DB * S) A) (k : A → M (DB * S) A') : framed f m → (∀ a, framed f (k a)) → framed f (m ≫= k).
Proof.
  intros Hm Hk w. rewrite M_bind_eval. specialize (Hm w). destruct (m w) as [[a|e] w1]; cbn in *; [|done]. by etransitivity; [|apply Hk].
Qed.
Lemma framed_lift {A} f (r : res A) : framed f (lift_res r). Proof. intros w. done. Qed.
Lemma framed_ret {A} f (a : A) : framed f (mret a). Proof. intros w. done. Qed.
Lemma framed_ignore {A} f (m : M (DB * S) A) : framed f m → framed f (ignore m). Proof. intros H w. apply H. Qed.
Lemma framed_blobs {A} f (m : M S A) : (∀ s, only_object f s (m s).2) → framed f (on_blobs m).
Proof. intros H w. unfold on_blobs. specialize (H w.2). destruct (m w.2). split; [apply only_title_refl|done]. Qed.
Lemma framed_rw {A} f (m : M DB A) : (∀ db, only_title f db (m db).2) → framed f (on_db (RW m)).
Proof.
  intros H w. unfold on_db. rewrite RW_eval. specialize (H w.1). destruct (m w.1) as [[a|e] db]; cbn in *; split; try done; apply only_title_refl.
Qed.

Lemma upload_only f d ct s : only_object f s (Upload (titleKey cfg f) d ct s).2.
Proof. intros k Hk. destruct (Upload _ _ _ _) as [r s1] eqn:E. by eapply upload_frame. Qed.
Lemma stat_only f k s : only_object f s (Stat k s).2.
Proof. intros k' _. destruct (Stat _ _) as [r s1] eqn:E. by eapply stat_keeps. Qed.
Lemma delete_only f s : only_object f s (BlobDelete (titleKey cfg f) s).2.
Proof. intros k Hk. destruct (BlobDelete _ _) as [r s1] eqn:E. by eapply delete_frame. Qed.

Lemma unpublish_only f db : only_title f db ((_ ← TitleFile_GetFile f; TitleFile_DeleteFile f) db).2.
Proof.
  rewrite M_bind_eval. unfold TitleFile_GetFile, no_rows_as, query_one, mbind, M_bind.
  destruct (select_where _ _ _); [apply only_title_refl|]. apply DeleteFile_only.
Qed.

(** Whatever comes of it, publishing [f] touches the rows and the object of [f] only. *)
Lemma publish_framed id now f tags d ct : framed f (PublishTitleFile cfg id now f tags d ct).
Proof.
  unfold PublishTitleFile. apply framed_bind; [apply framed_lift|intros _]. apply framed_bind; [apply framed_lift|intros _].
  apply framed_bind; [apply framed_blobs, upload_only|intros _]. apply framed_bind; [apply framed_blobs, stat_only|intros a].
  intros w. rewrite M_bind_eval. unfold lift_res. destruct (NewFile _ _ _ _) as [file|e] eqn:E; [|done].
  assert (Hn : f_Filename file = f).
  { unfold NewFile in E. destruct (ValidateFilename f), (ValidateSize _); cbn in E; by simplify_eq. }
  apply framed_bind; [|intros; apply framed_ret]. apply framed_rw. intros db. rewrite <- Hn at 1. apply SaveFile_only.
Qed.

Lemma unpublish_framed f : framed f (DeleteTitleFile cfg f).
Proof.
  unfold DeleteTitleFile. apply framed_bind; [apply framed_lift|intros _]. apply framed_bind; [apply framed_rw, unpublish_only|intros _].
  apply framed_ignore, framed_blobs, delete_only.
Qed.

(** What a successful publication leaves: the metadata of the stored object, and the object. *)
Lemma publish_Ok id now f tags d ct w file w' : PublishTitleFile cfg id now f tags d ct w = (Ok file, w') →
  ValidateFilename f = Ok tt ∧ f_Filename file = f ∧ f_ModifiedAt file = now ∧ f_Size file = Z.of_nat (String.length d) ∧
  object (titleKey cfg f) w'.2 = Some d ∧ TitleFile_GetFile f w'.1 = (Ok (stored_title file), w'.1) ∧
  (∃ r, r ∈ title_files w'.1 ∧ tf_filename r = f) ∧ ∀ r, r ∈ title_files w'.1 → tf_filename r = f → titleFileToDomain r = stored_title file ∧ tf_tags r = tags.
Proof.
  unfold PublishTitleFile. intros ([] & w1 & E1 & H)%M_bind_Ok. injection E1 as Hv <-.
  apply M_bind_Ok in H as ([] & w2 & E2 & H). injection E2 as _ <-.
  apply M_bind_Ok in H as ([] & w3 & E3 & H). apply M_bind_Ok in H as (a & w4 & E4 & H). apply M_bind_Ok in H as (file' & w5 & E5 & H).
  apply M_bind_Ok in H as ([] & w6 & E6 & [= -> ->]). injection E5 as Enew <-.
  unfold on_blobs in E3, E4. destruct (Upload _ _ _ _) as [r3 s3] eqn:Eu. injection E3 as -> <-. cbn [fst snd] in E4.
  destruct (Stat _ _) as [r4 s4] eqn:Es. injection E4 as -> <-. cbn [fst snd] in *.
  pose proof (upload_object _ _ _ _ _ Eu) as Hobj. pose proof (stat_reports _ _ _ _ _ Es Hobj) as Hsz.
  unfold NewFile in Enew. rewrite Hv in Enew. destruct (ValidateSize _); cbn in Enew; [|done]. injection Enew as <-.
  unfold on_db in E6. cbn [fst snd] in E6. rewrite RW_eval in E6.
  destruct (TitleFile_SaveFile _ _ _ _) as [[[]|e] db] eqn:Esv; [|done]. injection E6 as <-. apply SaveFile_rows in Esv as [Hex Hall].
  cbn [f_Filename f_ModifiedAt f_Size fst snd] in *. split_and!; try done.
  - by rewrite (stat_keeps _ _ _ _ Es).
  - apply GetFile_title; [done|]. intros r Hr Hn. by apply Hall.
Qed.

Lemma unpublish_Ok f w w' : DeleteTitleFile cfg f w = (Ok tt, w') → ValidateFilename f = Ok tt ∧ ∀ r, r ∈ title_files w'.1 → tf_filename r <> f.
Proof.
  unfold DeleteTitleFile. intros ([] & w1 & E1 & H)%M_bind_Ok. injection E1 as Hv <-. apply M_bind_Ok in H as ([] & w2 & E2 & H).
  split; [done|]. unfold ignore, on_blobs in H. destruct (BlobDelete _ _) as [r s]. injection H as <-. cbn [fst].
  unfold on_db in E2. rewrite RW_eval in E2. unfold TitleFile_GetFile, no_rows_as, query_one, mbind, M_bind in E2.
  destruct (select_where _ _ _); [done|]. unfold TitleFile_DeleteFile, delete_where in E2. cbn in E2. injection E2 as <-. cbn.
  intros x [Hx _]%list_elem_of_filter Hn%is_title_file_eq. congruence.
Qed.

Lemma read_present f w file u s : ValidateFilename f = Ok tt → TitleFile_GetFile f w.1 = (Ok file, w.1) →
  SignDownload (titleKey cfg f) (URLTTL cfg) w.2 = (Ok u, s) → ReadTitleFile cfg f w = (Ok (file, u), (w.1, s)).
Proof.
  intros Hv Hf Hs. unfold ReadTitleFile. rewrite M_bind_eval. unfold lift_res. rewrite Hv, M_bind_eval.
  unfold on_db, RO, result. rewrite Hf. cbn [fst]. rewrite M_bind_eval. unfold on_blobs. cbn [fst snd]. by rewrite Hs.
Qed.

Lemma read_absent f w : ValidateFilename f = Ok tt → (∀ r, r ∈ title_files w.1 → tf_filename r <> f) →
  ReadTitleFile cfg f w = (Err ErrFileNotFound, w).
Proof.
  intros Hv Hno. unfold ReadTitleFile. rewrite M_bind_eval. unfold lift_res. rewrite Hv, M_bind_eval.
  unfold on_db, RO, result, TitleFile_GetFile, no_rows_as, query_one, mbind, M_bind.
  destruct (select_where T_title_files (is_title_file f) w.1) as [|x l] eqn:E; [by destruct w|].
  assert (x ∈ select_where T_title_files (is_title_file f) w.1) as [Hx Hn]%filter_selected by (rewrite E; left).
  apply is_title_file_eq in Hn. by apply Hno in Hx.
Qed.
End titles.

(** ** A store

    Objects by key; the URL of an object is its key. *)
#[export] Instance content_store : BlobStore (gmap string string) := {|
  SignUpload key ttl := mret (mkSignedURL key "PUT" ∅ ttl);
  SignDownload key ttl := mret (mkSignedURL key "GET" ∅ ttl);
  Upload key data ct := modify (<[key := data]>);
  Stat key := λ s,
    match s !! key with
    | Some d => if Z.of_nat (String.length d) <? two64 then (Ok (mkObjectAttrs (Z.of_nat (String.length d)) "md5"), s) else (Err (ErrText "too large"), s)
    | None => (Err ErrObjectNotFound, s)
    end;
  BlobDelete key := modify (delete key);
|}.

#[export] Instance content_laws : BlobStoreLaws (gmap string string).
Proof.
  intros k s a. unfold result. cbn. destruct (s !! k) as [d|]; [|done]. destruct (_ <? two64) eqn:E; [|done].
  intros [= <-]. apply Z.ltb_lt in E. cbn. lia.
Qed.

#[export] Instance content_objects : ObjectLaws (gmap string string).
Proof.
  refine {| object k s := s !! k |}.
  - by intros k ttl s r s1 [= _ <-].
  - by intros k ttl s r s1 [= _ <-].
  - intros k s r s1. cbn. destruct (s !! k) as [d|]; [|by intros [= _ <-]]. by destruct (_ <? two64); intros [= _ <-].
  - intros k s a s1 d. cbn. intros H Hk. rewrite Hk in H. destruct (_ <? two64); [|done]. by injection H as <- _.
  - intros k d ct s s1 [= <-]. by rewrite lookup_insert_eq.
  - intros k d ct s r s1 [= _ <-] k' Hk. by rewrite lookup_insert_ne.
  - intros k s r s1 [= _ <-] k' Hk. by rewrite lookup_delete_ne.
Defined.
