(* ===== verification/Gcs.v ===== *)
(** * The object store on Google Cloud Storage (infra/blobstore/gcs.go)

    [GCS] implements the storage usecase's port over the storage client library, given here by the
    class [StorageClient] and by what the library and the service document ([StorageClientLaws]).
    [gcs_port] shows that every law the rest of the development asks of an object store holds of it. *)

From S2P Require Import Prelude GoBase GoStrings Database Storage ObjectStore.

(** ** The library *)

Record SignedURLOptions := mkSignedURLOptions {
  so_Method : string; so_Expires : time; so_GoogleAccessID : string; so_PrivateKey : option string; so_Insecure : bool;
}.

Record Attrs := mkAttrs { at_Size : Z; at_MD5 : string }.

(** A writer is opened on an object, written to, and closed; the error values are the library's. *)
Class StorageClient (G : Type) := {
  writer : Type;
  ErrObjectNotExist : error;
  BucketSignedURL : string → string → SignedURLOptions → M G string;
  ObjectNewWriter : string → string → string → writer;
  Writer_Write : string → M (writer * G) unit;
  Writer_Close : M (writer * G) unit;
  ObjectAttrs_get : string → string → M G Attrs;
  ObjectDelete : string → string → M G unit;
}.

(** [content bucket key] is what an object holds.  It changes when a writer on it is closed, and by a
    deletion: an upload is visible once [Close] has succeeded, and then entirely.  Sizes are int64. *)
Class StorageClientLaws (G : Type) {SC : StorageClient G} := {
  content : string → string → G → option string;
  target : writer → string * string;
  sign_content b k o g r g1 : BucketSignedURL b k o g = (r, g1) → ∀ b' k', content b' k' g1 = content b' k' g;
  new_target b k ct : target (ObjectNewWriter b k ct) = (b, k);
  write_content d w g r w1 g1 : Writer_Write d (w, g) = (r, (w1, g1)) → target w1 = target w ∧ ∀ b k, content b k g1 = content b k g;
  close_frame w g r w1 g1 : Writer_Close (w, g) = (r, (w1, g1)) → ∀ b k, (b, k) <> target w → content b k g1 = content b k g;
  close_content b k ct d g w1 g1 w2 g2 : Writer_Write d (ObjectNewWriter b k ct, g) = (Ok tt, (w1, g1)) →
    Writer_Close (w1, g1) = (Ok tt, (w2, g2)) → content b k g2 = Some d;
  attrs_content b k g r g1 : ObjectAttrs_get b k g = (r, g1) → ∀ b' k', content b' k' g1 = content b' k' g;
  attrs_size b k g a g1 : ObjectAttrs_get b k g = (Ok a, g1) → 0 ≤ at_Size a ≤ max_int64 ∧
    ∀ d, content b k g = Some d → at_Size a = Z.of_nat (String.length d);
  delete_content b k g r g1 : ObjectDelete b k g = (r, g1) → ∀ b' k', (b', k') <> (b, k) → content b' k' g1 = content b' k' g;
  delete_absent b k g g1 : ObjectDelete b k g = (Ok tt, g1) → content b k g1 = None;
  delete_missing b k g e g1 : ObjectDelete b k g = (Err e, g1) → errors_Is e ErrObjectNotExist = true → content b k g1 = None;
}.

(** ** The adapter *)

(** [hex.EncodeToString]. *)
Fixpoint hex_EncodeToString (s : string) : string :=
  match s with
  | "" => ""
  | String c s' => let b := N_of_ascii c in String (hex_digit (b / 16)) (String (hex_digit (b mod 16)) (hex_EncodeToString s'))
  end.

(** A nil private key is the production setting. *)
Record signer := mkSigner { sg_accessID : string; sg_privateKey : option string }.
Record GCS := mkGCS { g_bucket : string; g_signer : signer }.

Section gcs.
Context {G : Type} {SC : StorageClient G}.

(** The client and the clock. *)
Record Outside := mkOutside { o_client : G; o_now : time }.

Definition on_client {A} (m : M G A) : M Outside A := λ o, let '(r, g) := m (o_client o) in (r, mkOutside g (o_now o)).

Context (self : GCS).

Definition sign (key method : string) (ttl : duration) : M Outside SignedURL := λ o,
  let expires := time_Add (o_now o) ttl in
  let opts :=
    match sg_privateKey (g_signer self) with
    | Some k => mkSignedURLOptions method expires (sg_accessID (g_signer self)) (Some k) true
    | None => mkSignedURLOptions method expires "" None false
    end in
  match on_client (BucketSignedURL (g_bucket self) key opts) o with
  | (Err err, o') => (Err (Wrap ("blobstore: sign " +:+ method) err), o')
  | (Ok u, o') => (Ok (mkSignedURL u method ∅ expires), o')
  end.

Definition GCS_SignUpload (key : string) (ttl : duration) : M Outside SignedURL := sign key "PUT" ttl.
Definition GCS_SignDownload (key : string) (ttl : duration) : M Outside SignedURL := sign key "GET" ttl.

Definition GCS_Upload (key data contentType : string) : M Outside unit := on_client (λ g,
  let w := ObjectNewWriter (g_bucket self) key contentType in
  match Writer_Write data (w, g) with
  | (Err err, (w', g')) => let '(_, (_, g'')) := Writer_Close (w', g') in (Err (Wrap "blobstore: upload write" err), g'')
  | (Ok _, (w', g')) =>
      match Writer_Close (w', g') with
      | (Err err, (_, g'')) => (Err (Wrap "blobstore: upload close" err), g'')
      | (Ok _, (_, g'')) => (Ok tt, g'')
      end
  end).

Definition GCS_Stat (key : string) : M Outside ObjectAttrs := λ o,
  match on_client (ObjectAttrs_get (g_bucket self) key) o with
  | (Err err, o') => (Err (if errors_Is err ErrObjectNotExist then ErrObjectNotFound else Wrap "blobstore: stat" err), o')
  | (Ok attrs, o') => (Ok (mkObjectAttrs (u64 (at_Size attrs)) (hex_EncodeToString (at_MD5 attrs))), o')
  end.

Definition GCS_Delete (key : string) : M Outside unit := λ o,
  match on_client (ObjectDelete (g_bucket self) key) o with
  | (Err err, o') => (if errors_Is err ErrObjectNotExist then Ok tt else Err (Wrap "blobstore: delete" err), o')
  | r => r
  end.

#[local] Instance gcs_store : BlobStore Outside := {|
  SignUpload := GCS_SignUpload; SignDownload := GCS_SignDownload; Upload := GCS_Upload; Stat := GCS_Stat; BlobDelete := GCS_Delete;
|}.

(** ** The port's laws *)

Context {SL : StorageClientLaws G}.

Definition gcs_object (key : string) (o : Outside) : option string := content (g_bucket self) key (o_client o).

Lemma on_client_eval {A} (m : M G A) o r o' : on_client m o = (r, o') → m (o_client o) = (r, o_client o') ∧ o_now o' = o_now o.
Proof. unfold on_client. destruct (m (o_client o)) as [r1 g1]. by intros [= <- <-]. Qed.

Lemma sign_keeps key method ttl o r o' : sign key method ttl o = (r, o') → ∀ k, gcs_object k o' = gcs_object k o.
Proof.
  unfold sign. destruct (on_client _ o) as [[u|e] o1] eqn:E; intros [= _ <-] k;
    apply on_client_eval in E as [E _]; by apply (sign_content _ _ _ _ _ _ E).
Qed.

(** What a signed URL was asked of the library for: the object, one method and one expiry, which is
    also what the caller is told. *)
Definition signed_for (key method : string) (ttl : duration) (o : Outside) (u : SignedURL) : Prop :=
  su_Method u = method ∧ su_Expires u = time_Add (o_now o) ttl ∧ su_Headers u = ∅ ∧
  ∃ opts, result (BucketSignedURL (g_bucket self) key opts (o_client o)) = Ok (su_URL u) ∧
    so_Method opts = method ∧ so_Expires opts = time_Add (o_now o) ttl ∧ so_PrivateKey opts = sg_privateKey (g_signer self) ∧
    so_GoogleAccessID opts = match so_PrivateKey opts with Some _ => sg_accessID (g_signer self) | None => "" end ∧
    (so_Insecure opts = true ↔ is_Some (so_PrivateKey opts)).

Lemma sign_request key method ttl o u o' : sign key method ttl o = (Ok u, o') → signed_for key method ttl o u.
Proof.
  unfold sign. set (opts := match sg_privateKey _ with Some _ => _ | None => _ end).
  destruct (on_client _ o) as [[x|e] o1] eqn:E; [|done]. intros [= <- _]. apply on_client_eval in E as [E _].
  do 3 (split; [done|]). exists opts. unfold result. rewrite E. split; [done|]. subst opts.
  by destruct (sg_privateKey _) as [k|]; cbn; repeat split.
Qed.

Lemma upload_frame_gcs key d ct o r o' : GCS_Upload key d ct o = (r, o') → ∀ k, k <> key → gcs_object k o' = gcs_object k o.
Proof.
  intros E k Hk. unfold GCS_Upload in E. apply on_client_eval in E as [E _]. unfold gcs_object. destruct (Writer_Write _ _) as [rw [w1 g1]] eqn:Ew.
  destruct (write_content _ _ _ _ _ _ Ew) as [Ht Hc]. rewrite new_target in Ht. rewrite <- (Hc (g_bucket self) k).
  destruct (Writer_Close (w1, g1)) as [rc [w2 g2]] eqn:Ecl.
  assert (o_client o' = g2) as -> by (destruct rw as [[]|]; [destruct rc as [[]|]|]; by injection E).
  apply (close_frame _ _ _ _ _ Ecl). rewrite Ht. congruence.
Qed.

#[local] Instance gcs_laws : BlobStoreLaws Outside.
Proof.
  intros k o a. unfold result. cbn. unfold GCS_Stat. destruct (on_client _ o) as [[x|e] o'] eqn:E; [|done].
  intros [= <-]. cbn. unfold u64. by apply Z.mod_pos_bound.
Qed.

#[local] Instance gcs_objects : ObjectLaws Outside.
Proof.
  refine {| object := gcs_object |}.
  - intros k ttl o r o1. apply sign_keeps.
  - intros k ttl o r o1. apply sign_keeps.
  - intros k o r o1. cbn. unfold GCS_Stat. destruct (on_client _ o) as [[x|e] o'] eqn:E; intros [= _ <-] k';
      apply on_client_eval in E as [E _]; by apply (attrs_content _ _ _ _ _ E).
  - intros k o a o1 d. cbn. unfold GCS_Stat. destruct (on_client _ o) as [[x|e] o'] eqn:E; [|done]. intros [= <- _] Hd.
    apply on_client_eval in E as [E _]. destruct (attrs_size _ _ _ _ _ E) as [Hr Hs]. cbn.
    rewrite u64_small; [by apply Hs|]. unfold max_int64, two64 in *. lia.
  - intros k d ct o o1 E. cbn in E. unfold GCS_Upload in E. apply on_client_eval in E as [E _]. unfold gcs_object. destruct (Writer_Write _ _) as [rw [w1 g1]] eqn:Ew.
    destruct rw as [[]|e]; [|destruct (Writer_Close _) as [? [??]]; discriminate E].
    destruct (Writer_Close (w1, g1)) as [[[]|e] [w2 g2]] eqn:Ecl; [|discriminate E]. injection E as <-. by eapply close_content.
  - intros k d ct o r o1. apply upload_frame_gcs.
  - intros k o r o1 E k' Hk. cbn in E. unfold GCS_Delete in E. destruct (on_client _ o) as [r' o'] eqn:E'.
    assert (o1 = o') as -> by (destruct r'; by injection E). apply on_client_eval in E' as [E' _].
    apply (delete_content _ _ _ _ _ E'). congruence.
Defined.
End gcs.

(** C23: the adapter keeps the port's contract. An upload that succeeds makes the object hold
    exactly the bytes given, and [Stat] then reports their number; a delete that succeeds leaves
    no object, and succeeds when there was none; an object that the service does not know is
    reported as the port's own "not found" error, and no other failure is; an upload is signed
    as a PUT and a download as a GET, for the key and the expiry asked for, with the emulator's
    key when there is one and the client's own credentials otherwise; and nothing the adapter
    does touches an object at another key. *)
Theorem gcs_contract {G : Type} {SC : StorageClient G} {SL : StorageClientLaws G} (self : GCS) (key : string) (o : Outside (G := G)) :
  (∀ d ct o1, GCS_Upload self key d ct o = (Ok tt, o1) → gcs_object self key o1 = Some d ∧
     ∀ a o2, GCS_Stat self key o1 = (Ok a, o2) → oa_Size a = Z.of_nat (String.length d) ∧ gcs_object self key o2 = Some d) ∧
  (∀ r o1, GCS_Delete self key o = (r, o1) → (r = Ok tt → gcs_object self key o1 = None) ∧
     ∀ e g1, ObjectDelete (g_bucket self) key (o_client o) = (Err e, g1) → is_ok r = errors_Is e ErrObjectNotExist) ∧
  (∀ e o1, GCS_Stat self key o = (Err e, o1) → ∃ e', result (ObjectAttrs_get (g_bucket self) key (o_client o)) = Err e' ∧
     e = if errors_Is e' ErrObjectNotExist then ErrObjectNotFound else Wrap "blobstore: stat" e') ∧
  (∀ ttl u o1, GCS_SignUpload self key ttl o = (Ok u, o1) → signed_for self key "PUT" ttl o u) ∧
  (∀ ttl u o1, GCS_SignDownload self key ttl o = (Ok u, o1) → signed_for self key "GET" ttl o u) ∧
  (∀ k, k <> key → ∀ o1, (∃ d ct, o1 = (GCS_Upload self key d ct o).2) ∨ o1 = (GCS_Stat self key o).2 ∨ o1 = (GCS_Delete self key o).2 ∨
     (∃ ttl, o1 = (GCS_SignUpload self key ttl o).2 ∨ o1 = (GCS_SignDownload self key ttl o).2) → gcs_object self k o1 = gcs_object self k o).
Proof.
  set (OL := gcs_objects self).
  split_and!.
  - intros d ct o1 E. assert (Hobj : gcs_object self key o1 = Some d) by exact (OL.(upload_object) _ _ _ _ _ E). split; [done|].
    intros a o2 Es. split; [exact (OL.(stat_reports) _ _ _ _ _ Es Hobj)|]. rewrite <- Hobj. exact (OL.(stat_keeps) _ _ _ _ Es key).
  - intros r o1 E. unfold GCS_Delete in E. destruct (on_client _ o) as [r' o'] eqn:E'. apply on_client_eval in E' as [E' _].
    unfold gcs_object. destruct r' as [[]|e].
    + injection E as <- <-. split; [intros _; by eapply delete_absent|]. intros e g1 He. congruence.
    + injection E as <- <-. split; [|intros e' g1 He; assert (e' = e) as -> by congruence; by destruct (errors_Is e _)].
      destruct (errors_Is e ErrObjectNotExist) eqn:Ei; [|done]. intros _. by eapply delete_missing.
  - intros e o1. unfold GCS_Stat. destruct (on_client _ o) as [[x|e'] o'] eqn:E; [done|]. intros [= <- _].
    apply on_client_eval in E as [E _]. exists e'. unfold result. by rewrite E.
  - intros ttl u o1. apply sign_request.
  - intros ttl u o1. apply sign_request.
  - intros k Hk o1 H. destruct H as [(d & ct & ->)|[->|[->|[ttl [->| ->]]]]].
    + destruct (GCS_Upload self key d ct o) as [r o'] eqn:E. by eapply upload_frame_gcs.
    + destruct (GCS_Stat self key o) as [r o'] eqn:E. exact (OL.(stat_keeps) _ _ _ _ E k).
    + destruct (GCS_Delete self key o) as [r o'] eqn:E. exact (OL.(delete_frame) _ _ _ _ E k Hk).
    + destruct (GCS_SignUpload self key ttl o) as [r o'] eqn:E. by eapply sign_keeps.
    + destruct (GCS_SignDownload self key ttl o) as [r o'] eqn:E. by eapply sign_keeps.
Qed.

(** ** Evaluation

    Buckets as one map; the emulator's setting. *)

#[local] Instance map_client : StorageClient (gmap (string * string) string) := {|
  writer := string * string * option string;
  ErrObjectNotExist := ErrText "storage: object doesn't exist";
  BucketSignedURL b k o := mret ("http://emulator/" +:+ b +:+ "/" +:+ k);
  ObjectNewWriter b k ct := (b, k, None);
  Writer_Write d := λ '((b, k, x), g), (Ok tt, ((b, k, Some (match x with Some y => y +:+ d | None => d end)), g));
  Writer_Close := λ '((b, k, x), g), (Ok tt, ((b, k, x), match x with Some d => <[(b, k) := d]> g | None => g end));
  ObjectAttrs_get b k := λ g,
    match g !! (b, k) with
    | Some d => if Z.of_nat (String.length d) <=? max_int64 then (Ok (mkAttrs (Z.of_nat (String.length d)) "md5"), g) else (Err (ErrText "too large"), g)
    | None => (Err (ErrText "storage: object doesn't exist"), g)
    end;
  ObjectDelete b k := λ g, match g !! (b, k) with Some _ => (Ok tt, delete (b, k) g) | None => (Err (ErrText "storage: object doesn't exist"), g) end;
|}.

#[local] Instance map_client_laws : StorageClientLaws (gmap (string * string) string).
Proof.
  refine {| content b k g := g !! (b, k); target w := (w.1.1, w.1.2) |}.
  - by intros b k o g r g1 [= _ <-].
  - done.
  - by intros d [[b k] x] g r w1 g1 [= _ <- <-].
  - intros [[b k] x] g r w1 g1 [= _ _ <-] b' k' Hne. destruct x; [by rewrite lookup_insert_ne|done].
  - intros b k ct d g w1 g1 w2 g2 [= <- <-] [= _ <-]. by rewrite lookup_insert_eq.
  - intros b k g r g1. cbn. destruct (g !! (b, k)); [destruct (_ <=? _)|]; by intros [= _ <-].
  - intros b k g a g1. cbn. destruct (g !! (b, k)) as [d|]; [|done]. destruct (_ <=? _) eqn:E; [|done]. to_prop.
    intros [= <- _]. cbn. split; [lia|]. by intros d' [= <-].
  - intros b k g r g1. cbn. destruct (g !! (b, k)); intros [= _ <-] b' k' Hne; [by rewrite lookup_delete_ne|done].
  - intros b k g g1. cbn. destruct (g !! (b, k)); [|done]. intros [= <-]. by rewrite lookup_delete_eq.
  - intros b k g e g1. cbn. destruct (g !! (b, k)) eqn:E; [done|]. by intros [= _ <-].
Defined.

Definition demo_gcs : GCS := mkGCS "vfx" (mkSigner "vfx-local-signer@example.com" (Some "pem")).
Definition demo_outside : Outside (G := gmap (string * string) string) := mkOutside ∅ 1700.
Definition demo_uploaded : Outside (G := gmap (string * string) string) := (GCS_Upload demo_gcs "title/motd" "hello" "text/plain" demo_outside).2.

Example gcs_answers :
  result (GCS_Stat demo_gcs "title/motd" demo_uploaded) = Ok (mkObjectAttrs 5 "6d6435") ∧
  result (GCS_Stat demo_gcs "title/none" demo_uploaded) = Err ErrObjectNotFound ∧
  result (GCS_Delete demo_gcs "title/none" demo_uploaded) = Ok tt ∧
  result (GCS_SignDownload demo_gcs "title/motd" 60 demo_uploaded) = Ok (mkSignedURL "http://emulator/vfx/title/motd" "GET" ∅ 1760).
Proof. split_and!; vm_compute; reflexivity. Qed.

Lemma gcs_contract_witness :
  GCS_Upload demo_gcs "title/motd" "hello" "text/plain" demo_outside = (Ok tt, demo_uploaded) ∧
  gcs_object demo_gcs "title/motd" demo_uploaded = Some "hello" ∧
  ∃ u o1, GCS_SignDownload demo_gcs "title/motd" 60 demo_uploaded = (Ok u, o1) ∧ signed_for demo_gcs "title/motd" "GET" 60 demo_uploaded u.
Proof.
  assert (E : GCS_Upload demo_gcs "title/motd" "hello" "text/plain" demo_outside = (Ok tt, demo_uploaded)) by reflexivity.
  split_and!; [exact E| |eexists _, _; split; [reflexivity|]; by eapply (gcs_contract demo_gcs "title/motd" demo_uploaded)].
  exact (proj1 (proj1 (gcs_contract demo_gcs "title/motd" demo_outside) "hello" "text/plain" demo_uploaded E)).
Defined.
