(* ===== verification/Group.v ===== *)
(** * Player groups (internal/domain/group, internal/infra/repository/{group,membership}.go, internal/usecase/group)

    Groups and memberships as statements over the tables groups and group_members; deleting a group
    cascades to its memberships and channel messages.  Fresh ids and the request clock are
    arguments. *)

From S2P Require Import Prelude GoBase GoStrings Database.

(** ** The domain (group.go, membership.go) *)

Definition MaxNameLength : Z := 64.

Record Group := mkGroup { grp_ID : uuid; grp_Name : string; grp_OwnerID : uuid; grp_FoundedAt : time }.
Record Membership := mkMembership { mb_GroupID : uuid; mb_PlayerID : uuid; mb_JoinedAt : time }.
Record Member := mkMember { mem_PlayerID : uuid; mem_Nickname : option string; mem_JoinedAt : time }.

Definition NewGroup (id ownerID : uuid) (name : string) (now : time) : res Group :=
  let name := TrimSpace name in
  if bool_decide (name = "") || (MaxNameLength <? RuneCountInString name) then Err ErrInvalidName
  else Ok (mkGroup id name ownerID now).

Definition NewMembership (groupID playerID : uuid) (now : time) : Membership := mkMembership groupID playerID now.

(** ** The repositories *)

Definition is_group (id : uuid) (g : GroupRow) : bool := bool_decide (g_id g = id).
Definition is_member_row (groupID playerID : uuid) (m : GroupMemberRow) : bool :=
  bool_decide (gm_group_id m = groupID) && bool_decide (gm_player_id m = playerID).

Definition toGroup (row : GroupRow) : Group := mkGroup (g_id row) (g_name row) (g_owner_id row) (g_founded_at row).

Definition Group_Find (id : uuid) : M DB Group := λ db,
  match query_one T_groups (is_group id) db with
  | (Ok row, db') => (Ok (toGroup row), db')
  | (Err e, db') => (Err (if errors_Is e PgNoRows then ErrGroupNotFound else e), db')
  end.

(** [ON CONFLICT (id) DO UPDATE SET name]: an existing group only changes its name. *)
Definition Group_Save (g : Group) : M DB unit := λ db,
  if exists_where T_groups (is_group (grp_ID g)) db then
    (_ ← update_where T_groups (is_group (grp_ID g))
           (λ r, mkGroupRow (g_id r) (grp_Name g) (g_owner_id r) (g_founded_at r)); mret tt) db
  else insert_row T_groups true true (player_exists (grp_OwnerID g) db)
         (mkGroupRow (grp_ID g) (grp_Name g) (grp_OwnerID g) (toTimestamptz (grp_FoundedAt g))) db.

(** The row, and by ON DELETE CASCADE the memberships and messages that reference it. *)
Definition Group_Delete (id : uuid) : M DB unit :=
  _ ← delete_where T_groups (is_group id);
  _ ← delete_where T_group_members (λ m, bool_decide (gm_group_id m = id));
  _ ← delete_where T_channel_messages (λ m, bool_decide (cm_channel_id m = id));
  mret tt.

(** [ON CONFLICT (group_id, player_id) DO NOTHING] *)
Definition GroupMembership_Save (id : uuid) (m : Membership) : M DB unit := λ db,
  if exists_where T_group_members (is_member_row (mb_GroupID m) (mb_PlayerID m)) db then (Ok tt, db)
  else insert_row T_group_members true
         (negb (exists_where T_group_members (λ r, bool_decide (gm_id r = id)) db))
         (group_exists (mb_GroupID m) db && player_exists (mb_PlayerID m) db)
         (mkGroupMemberRow id (mb_GroupID m) (mb_PlayerID m) (toTimestamptz (mb_JoinedAt m))) db.

Definition GroupMembership_Delete (groupID playerID : uuid) : M DB unit :=
  affected ← delete_where T_group_members (is_member_row groupID playerID);
  if affected =? 0 then fail ErrNotMember else mret tt.

Definition GroupMembership_IsMember (groupID playerID : uuid) : M DB bool :=
  gets (exists_where T_group_members (is_member_row groupID playerID)).

Definition GroupMembership_ListMembers (groupID : uuid) (db : DB) : res (list Member) :=
  Ok (omap (λ m, p ← player_row (gm_player_id m) db; Some (mkMember (p_id p) (p_nickname p) (gm_joined_at m)))
    (order_asc gm_joined_at (select_where T_group_members (λ m, bool_decide (gm_group_id m = groupID)) db))).

Definition GroupMembership_ListGroupsForPlayer (playerID : uuid) (db : DB) : res (list Group) :=
  Ok (toGroup <$> order_desc g_founded_at
    (omap (λ m, head (select_where T_groups (is_group (gm_group_id m)) db))
      (select_where T_group_members (λ m, bool_decide (gm_player_id m = playerID)) db))).

(** ** The usecase (usecase/group/group.go) *)

Definition CreateGroup (gid mid : uuid) (now : time) (owner : uuid) (name : string) : M DB Group :=
  g ← lift_res (NewGroup gid owner name now);
  _ ← RW (_ ← Group_Save g; GroupMembership_Save mid (NewMembership (grp_ID g) owner now));
  mret g.

Definition DeleteGroup (me groupID : uuid) : M DB unit :=
  RW (g ← Group_Find groupID;
      if bool_decide (grp_OwnerID g <> me) then fail ErrNotOwner else Group_Delete groupID).

Definition JoinGroup (mid : uuid) (now : time) (me groupID : uuid) : M DB unit :=
  RW (_ ← Group_Find groupID; GroupMembership_Save mid (NewMembership groupID me now)).

Definition LeaveGroup (me groupID : uuid) : M DB unit :=
  RW (g ← Group_Find groupID;
      if bool_decide (grp_OwnerID g = me) then fail ErrOwnerMustDelete else GroupMembership_Delete groupID me).

Definition ListMyGroups (me : uuid) : M DB (list Group) := RO (GroupMembership_ListGroupsForPlayer me).

Definition ListMembers (me groupID : uuid) : M DB (list Member) :=
  RO (λ db,
    member ← result (GroupMembership_IsMember groupID me db);
    if negb member then Err ErrNotMember else GroupMembership_ListMembers groupID db).

(** ** The abstract state

    The groups by id with their name and owner, and the set of memberships. *)
Record clans := mkClans { c_groups : gmap uuid (string * uuid); c_members : gset (uuid * uuid) }.

Definition clans_of (db : DB) : clans :=
  mkClans (list_to_map ((λ g, (g_id g, (g_name g, g_owner_id g))) <$> groups db))
          (list_to_set ((λ m, (gm_group_id m, gm_player_id m)) <$> group_members db)).

Inductive group_op :=
  | GCreate (gid owner : uuid) (name : string)
  | GDelete (me gid : uuid)
  | GJoin (me gid : uuid)
  | GLeave (me gid : uuid).

(** What each operation promises.  A group id that is already in use keeps its owner. *)
Definition clans_step (c : clans) (o : group_op) : res unit * clans :=
  match o with
  | GCreate gid owner name =>
      let name := TrimSpace name in
      if decide (name = "" ∨ MaxNameLength < RuneCountInString name) then (Err ErrInvalidName, c)
      else (Ok tt, mkClans (<[gid := (name, from_option snd owner (c_groups c !! gid))]> (c_groups c))
                     (c_members c ∪ {[ (gid, owner) ]}))
  | GDelete me gid =>
      match c_groups c !! gid with
      | None => (Err ErrGroupNotFound, c)
      | Some (_, owner) =>
          if decide (owner = me)
          then (Ok tt, mkClans (delete gid (c_groups c)) (filter (λ gm, gm.1 <> gid) (c_members c)))
          else (Err ErrNotOwner, c)
      end
  | GJoin me gid =>
      match c_groups c !! gid with
      | None => (Err ErrGroupNotFound, c)
      | Some _ => (Ok tt, mkClans (c_groups c) (c_members c ∪ {[ (gid, me) ]}))
      end
  | GLeave me gid =>
      match c_groups c !! gid with
      | None => (Err ErrGroupNotFound, c)
      | Some (_, owner) =>
          if decide (owner = me) then (Err ErrOwnerMustDelete, c)
          else if decide ((gid, me) ∈ c_members c) then (Ok tt, mkClans (c_groups c) (c_members c ∖ {[ (gid, me) ]}))
          else (Err ErrNotMember, c)
      end
  end.

(** The same operations of the code, at [now] and with the membership row id [mid]. *)
Definition run_group (mid : uuid) (now : time) (o : group_op) (db : DB) : res unit * DB :=
  match o with
  | GCreate gid owner name => (_ ← CreateGroup gid mid now owner name; mret tt) db
  | GDelete me gid => DeleteGroup me gid db
  | GJoin me gid => JoinGroup mid now me gid db
  | GLeave me gid => LeaveGroup me gid db
  end.

(** Every membership is of a group, and every group has its owner among its members. *)
Record clans_ok (c : clans) : Prop := {
  clans_group : ∀ gid p, (gid, p) ∈ c_members c → is_Some (c_groups c !! gid);
  clans_owner : ∀ gid name owner, c_groups c !! gid = Some (name, owner) → (gid, owner) ∈ c_members c;
}.

(** ** The tables as abstract state *)

(** Decide a key test of a filter from the (dis)equalities in context. *)
Ltac key_side :=
  first [done | repeat case_match; simpl in *; rewrite ?bool_decide_eq_true, ?bool_decide_eq_false in *; by try congruence
        | rewrite bool_decide_eq_true_2 by congruence; done | rewrite bool_decide_eq_false_2 by congruence; done ].

Lemma list_to_map_head {R V} (k : R → uuid) (v : R → V) (l : list R) (i : uuid) :
  (list_to_map ((λ r, (k r, v r)) <$> l) : gmap uuid V) !! i
    = v <$> head (filter (λ r, bool_decide (k r = i) = true) l).
Proof.
  induction l as [|r l IH]; [done|]. csimpl. destruct (decide (k r = i)) as [E|E].
  - rewrite E, lookup_insert_eq, filter_cons_True by key_side. done.
  - rewrite lookup_insert_ne, filter_cons_False by key_side. done.
Qed.

Lemma groups_lookup db gid :
  c_groups (clans_of db) !! gid
    = (λ g, (g_name g, g_owner_id g)) <$> head (select_where T_groups (is_group gid) db).
Proof. apply list_to_map_head. Qed.

Lemma Group_Find_spec gid db :
  (∃ row, c_groups (clans_of db) !! gid = Some (g_name row, g_owner_id row) ∧
     Group_Find gid db = (Ok (toGroup row), db)) ∨
  (c_groups (clans_of db) !! gid = None ∧ Group_Find gid db = (Err ErrGroupNotFound, db)).
Proof.
  rewrite groups_lookup. unfold Group_Find, query_one.
  destruct (select_where T_groups (is_group gid) db) as [|row l]; simpl; eauto.
Qed.

Lemma group_exists_lookup gid db :
  group_exists gid db = true ↔ is_Some (c_groups (clans_of db) !! gid).
Proof.
  rewrite groups_lookup, fmap_is_Some. unfold group_exists, exists_where. split.
  - intros (g & Hg & Hk)%existsb_true.
    assert (Hin : g ∈ select_where T_groups (is_group gid) db) by (by apply filter_selected).
    destruct (select_where _ _ _); [by apply elem_of_nil in Hin|by eexists].
  - intros [g Hg]. apply head_Some_elem_of, filter_selected in Hg as [? ?]. apply existsb_true. eauto.
Qed.

Lemma groups_deleted gid db :
  (list_to_map ((λ g, (g_id g, (g_name g, g_owner_id g))) <$> filter (λ r, is_group gid r = false) (groups db)) : gmap uuid (string * uuid))
    = delete gid (c_groups (clans_of db)).
Proof.
  apply map_eq. intros i. unfold clans_of. cbn [c_groups]. rewrite lookup_delete, !list_to_map_head.
  unfold is_group. induction (groups db) as [|g l IH]; [by case_decide|].
  destruct (decide (g_id g = gid)) as [E|E].
  - rewrite filter_cons_False by key_side. rewrite IH. case_decide; [done|].
    by rewrite filter_cons_False by key_side.
  - rewrite filter_cons_True by key_side.
    destruct (decide (g_id g = i)) as [E'|E'].
    + rewrite !filter_cons_True by key_side. rewrite decide_False by congruence. done.
    + by rewrite !filter_cons_False by key_side.
Qed.

Lemma groups_renamed gid name owner db :
  group_exists gid db = true →
  (list_to_map ((λ g, (g_id g, (g_name g, g_owner_id g))) <$>
     ((λ r, if is_group gid r then mkGroupRow (g_id r) name (g_owner_id r) (g_founded_at r) else r) <$> groups db)) : gmap uuid (string * uuid))
    = <[gid := (name, from_option snd owner (c_groups (clans_of db) !! gid))]> (c_groups (clans_of db)).
Proof.
  intros [x Hx]%group_exists_lookup. rewrite Hx. apply map_eq. intros i. rewrite lookup_insert.
  unfold clans_of in *. cbn [c_groups] in *. revert Hx. rewrite !list_to_map_head. unfold is_group.
  induction (groups db) as [|g l IH]; [by case_decide|]. csimpl.
  destruct (decide (g_id g = gid)) as [E|E].
  - rewrite (bool_decide_eq_true_2 _ E), filter_cons_True by key_side. csimpl.
    intros [= <-]. case_decide as Hi; [subst i|].
    + by rewrite filter_cons_True by key_side.
    + rewrite !filter_cons_False by key_side.
      clear IH. induction l as [|h l IHl]; [done|]. csimpl. destruct (decide (g_id h = i)) as [Eh|Eh].
      * rewrite bool_decide_eq_false_2 by congruence. by rewrite !filter_cons_True by key_side.
      * rewrite !(filter_cons_False _ h) by key_side.
        rewrite filter_cons_False by key_side. done.
  - rewrite (bool_decide_eq_false_2 _ E), filter_cons_False by key_side.
    intros Hx. specialize (IH Hx). destruct (decide (g_id g = i)) as [Ei|Ei].
    + rewrite !filter_cons_True by key_side. rewrite decide_False by congruence. done.
    + by rewrite !filter_cons_False by key_side.
Qed.

Lemma groups_inserted r db :
  group_exists (g_id r) db = false →
  (list_to_map ((λ g, (g_id g, (g_name g, g_owner_id g))) <$> (groups db ++ [r])) : gmap uuid (string * uuid))
    = <[g_id r := (g_name r, g_owner_id r)]> (c_groups (clans_of db)).
Proof.
  intros Hn. apply map_eq. intros i. rewrite lookup_insert. unfold clans_of. cbn [c_groups].
  rewrite !list_to_map_head, filter_app. case_decide as E.
  - subst i. unfold group_exists, exists_where in Hn. simpl in Hn.
    assert (filter (λ x, bool_decide (g_id x = g_id r) = true) (groups db) = []) as ->.
    { destruct (filter _ (groups db)) as [|x l] eqn:Ex; [done|]. exfalso.
      assert (x ∈ filter (λ x, bool_decide (g_id x = g_id r) = true) (groups db)) as Hin by (rewrite Ex; left).
      apply filter_selected in Hin as [Hin Hk]. by rewrite (proj1 (existsb_false _ _) Hn _ Hin) in Hk. }
    simpl. by rewrite filter_cons_True by key_side.
  - rewrite filter_cons_False by key_side. by rewrite app_nil_r.
Qed.

(** ** Refinement *)

Lemma members_exists gid p db :
  exists_where T_group_members (is_member_row gid p) db = bool_decide ((gid, p) ∈ c_members (clans_of db)).
Proof. apply exists_pair. Qed.

Lemma Group_Save_spec g db :
  (∃ db1, Group_Save g db = (Ok tt, db1) ∧ players db1 = players db ∧ group_members db1 = group_members db ∧
     group_exists (grp_ID g) db1 = true ∧
     clans_of db1 = mkClans (<[grp_ID g := (grp_Name g, from_option snd (grp_OwnerID g) (c_groups (clans_of db) !! grp_ID g))]>
                               (c_groups (clans_of db))) (c_members (clans_of db))) ∨
  (Group_Save g db = (Err fk_violation, db) ∧ player_exists (grp_OwnerID g) db = false).
Proof.
  assert (Hex : ∀ db1 x, c_groups (clans_of db1) = <[grp_ID g := x]> (c_groups (clans_of db)) → group_exists (grp_ID g) db1 = true).
  { intros db1 x E. apply group_exists_lookup. rewrite E, lookup_insert_eq. by eexists. }
  unfold Group_Save. fold (group_exists (grp_ID g) db).
  change (exists_where T_groups (is_group (grp_ID g)) db) with (group_exists (grp_ID g) db).
  destruct (group_exists (grp_ID g) db) eqn:Eg.
  - left. rewrite M_bind_eval. unfold update_where. eexists. split; [done|]. split_and!; [done..| |].
    + eapply Hex. by apply (groups_renamed _ _ (grp_OwnerID g)).
    + unfold clans_of at 1. simpl. f_equal. by apply groups_renamed.
  - unfold insert_row. cbn [negb]. destruct (player_exists (grp_OwnerID g) db); [left|by right]. cbn [negb].
    assert (Hno : c_groups (clans_of db) !! grp_ID g = None).
    { apply eq_None_not_Some. rewrite <- group_exists_lookup. by rewrite Eg. }
    set (r := mkGroupRow (grp_ID g) (grp_Name g) (grp_OwnerID g) (toTimestamptz (grp_FoundedAt g))).
    pose proof (groups_inserted r db Eg) as Hins. eexists. split; [done|]. split_and!; [done..| |].
    + eapply Hex. exact Hins.
    + rewrite Hno. unfold clans_of at 1. simpl. f_equal. exact Hins.
Qed.

Lemma GroupMembership_Save_spec mid gid p now db :
  group_exists gid db = true →
  (∃ db1, GroupMembership_Save mid (NewMembership gid p now) db = (Ok tt, db1) ∧
     clans_of db1 = mkClans (c_groups (clans_of db)) (c_members (clans_of db) ∪ {[ (gid, p) ]})) ∨
  ((∃ code, result (GroupMembership_Save mid (NewMembership gid p now) db) = Err (PgConstraint code)) ∧
   ~ (mid ∉ gm_id <$> group_members db ∧ player_exists p db = true)).
Proof.
  intros Hg. unfold GroupMembership_Save. cbn [mb_GroupID mb_PlayerID NewMembership]. rewrite members_exists.
  case_bool_decide as Hin.
  - left. exists db. split; [done|]. unfold clans_of in *. cbn [c_members c_groups] in *. f_equal. set_solver.
  - unfold insert_row. rewrite Hg. cbn [negb andb].
    destruct (exists_where T_group_members (λ r, bool_decide (gm_id r = mid)) db) eqn:Eu; [|destruct (player_exists p db) eqn:Ep]; cbn [negb].
    + right. split; [by eexists|]. intros [Hf _]. apply existsb_true in Eu as (x & Hx & Hd). to_prop. subst.
      apply Hf. by apply list_elem_of_fmap_2.
    + left. eexists. split; [done|]. unfold clans_of. simpl. f_equal. apply insert_pair.
    + right. split; [by eexists|]. by intros [_ ?].
Qed.

Lemma GroupMembership_Delete_spec gid p db :
  ∃ db1, GroupMembership_Delete gid p db
      = (if decide ((gid, p) ∈ c_members (clans_of db)) then Ok tt else Err ErrNotMember, db1) ∧
    clans_of db1 = mkClans (c_groups (clans_of db)) (c_members (clans_of db) ∖ {[ (gid, p) ]}).
Proof.
  eexists. unfold GroupMembership_Delete. rewrite M_bind_eval. unfold delete_where. split.
  - pose proof (members_exists gid p db) as He. unfold exists_where in He. unfold select_where.
    destruct (Z.eqb_spec (Z.of_nat (length (filter (λ r, is_member_row gid p r = true) (t_get T_group_members db)))) 0) as [E|E].
    + apply count_zero in E. rewrite E in He. symmetry in He. apply bool_decide_eq_false in He. by rewrite decide_False.
    + rewrite decide_True; [done|]. apply dec_stable. intros Hn. apply E, count_zero. rewrite He.
      by apply bool_decide_eq_false.
  - unfold clans_of. simpl. f_equal. apply delete_pair.
Qed.

Lemma Group_Delete_spec gid db :
  ∃ db1, Group_Delete gid db = (Ok tt, db1) ∧
    clans_of db1 = mkClans (delete gid (c_groups (clans_of db))) (filter (λ gm, gm.1 <> gid) (c_members (clans_of db))) ∧
    channel_messages db1 = filter (λ m, bool_decide (cm_channel_id m = gid) = false) (channel_messages db).
Proof.
  eexists. split; [done|]. split; [|done]. unfold clans_of at 1. simpl. f_equal; [apply groups_deleted|].
  apply set_eq. intros [g p]. unfold clans_of. simpl.
  rewrite elem_of_filter, !elem_of_list_to_set, !list_elem_of_fmap. setoid_rewrite list_elem_of_filter. split.
  - intros (m & [= -> ->] & Hm & Hin). apply bool_decide_eq_false in Hm. split; [done|eauto].
  - intros [Hne (m & [= -> ->] & Hin)]. exists m. simpl in Hne. by rewrite bool_decide_eq_false_2.
Qed.

Definition group_op_player (o : group_op) : uuid :=
  match o with GCreate _ p _ | GDelete p _ | GJoin p _ | GLeave p _ => p end.

Lemma group_step_spec mid now o db :
  let '(r, db') := run_group mid now o db in
  (r = (clans_step (clans_of db) o).1 ∧ clans_of db' = (clans_step (clans_of db) o).2) ∨
  ((∃ code, r = Err (PgConstraint code)) ∧ db' = db ∧
   ~ (mid ∉ gm_id <$> group_members db ∧ player_exists (group_op_player o) db = true)).
Proof.
  destruct o as [gid owner name|me gid|me gid|me gid]; cbn [run_group clans_step group_op_player].
  - unfold CreateGroup, NewGroup. cbv zeta. rewrite !M_bind_eval. unfold lift_res.
    destruct (decide (TrimSpace name = "" ∨ MaxNameLength < RuneCountInString (TrimSpace name))) as [Hb|Hb].
    { replace (_ || _) with true; [by left|]. symmetry. apply orb_true_iff. rewrite bool_decide_eq_true, Z.ltb_lt. tauto. }
    replace (_ || _) with false.
    2: { symmetry. apply orb_false_iff. rewrite bool_decide_eq_false, Z.ltb_ge. split; [tauto|lia]. }
    rewrite !M_bind_eval, RW_eval, M_bind_eval.
    destruct (Group_Save_spec (mkGroup gid (TrimSpace name) owner now) db) as [(db1 & -> & Hpl & Hmem & Hge & Hc)|[-> Hno]];
      cbn [grp_ID grp_Name grp_OwnerID] in *.
    2: { right. split_and!; [by eexists|done|]. intros [_ ?]. congruence. }
    destruct (GroupMembership_Save_spec mid gid owner now db1 Hge) as [(db2 & -> & Hc2)|[[code E] Hn]].
    + left. split; [done|]. cbn [snd]. rewrite Hc2, Hc. done.
    + destruct (GroupMembership_Save mid (NewMembership gid owner now) db1) as [r2 db2]. unfold result in E. simpl in E. subst r2.
      right. split_and!; [by eexists|done|]. intros [Hf Hp]. apply Hn. rewrite Hmem. split; [done|].
      unfold player_exists, exists_where in *. simpl in *. by rewrite Hpl.
  - unfold DeleteGroup. rewrite RW_eval, M_bind_eval.
    destruct (Group_Find_spec gid db) as [(row & -> & ->)|[-> ->]]; [|by left]. simpl.
    destruct (decide (g_owner_id row = me)) as [Eo|Eo].
    + rewrite bool_decide_eq_false_2 by auto. destruct (Group_Delete_spec gid db) as (db1 & -> & Hc & _). left. by rewrite Hc.
    + rewrite bool_decide_eq_true_2 by done. by left.
  - unfold JoinGroup. rewrite RW_eval, M_bind_eval.
    destruct (Group_Find_spec gid db) as [(row & Hl & ->)|[-> ->]]; [|by left]. rewrite Hl.
    assert (Hge : group_exists gid db = true) by (apply group_exists_lookup; by rewrite Hl).
    destruct (GroupMembership_Save_spec mid gid me now db Hge) as [(db2 & -> & Hc2)|[[code E] Hn]].
    + left. by rewrite Hc2.
    + destruct (GroupMembership_Save mid (NewMembership gid me now) db) as [r2 db2]. unfold result in E. simpl in E. subst r2.
      right. split_and!; [by eexists|done|done].
  - unfold LeaveGroup. rewrite RW_eval, M_bind_eval.
    destruct (Group_Find_spec gid db) as [(row & -> & ->)|[-> ->]]; [|by left]. cbn [grp_OwnerID toGroup].
    case_bool_decide as Eo; [rewrite decide_True by done; by left|]. rewrite (decide_False (P := g_owner_id row = me)) by done.
    destruct (GroupMembership_Delete_spec gid me db) as (db1 & -> & Hc).
    destruct (decide ((gid, me) ∈ c_members (clans_of db))); left; [|done]. by split; [|rewrite Hc].
Qed.

(** ** Whole runs *)

Fixpoint run_groups (os : list (uuid * time * group_op)) (db : DB) : DB :=
  match os with
  | [] => db
  | (mid, now, o) :: os' => run_groups os' (run_group mid now o db).2
  end.

Lemma clans_step_ok c o : clans_ok c → clans_ok (clans_step c o).2.
Proof.
  intros [Hg Ho]. destruct o as [gid owner name|me gid|me gid|me gid]; cbn [clans_step].
  - case_decide; [done|]. split; simpl.
    + intros g p. rewrite elem_of_union, elem_of_singleton. intros [Hin|[= -> ->]]; rewrite lookup_insert; case_decide; try done; by eauto using mk_is_Some.
    + intros g n o. rewrite lookup_insert. case_decide as Hd; [|set_solver]. subst g. intros [= <- <-].
      destruct (c_groups c !! gid) as [[n' o']|] eqn:E; simpl; [apply Ho in E|]; set_solver.
  - destruct (c_groups c !! gid) as [[n owner]|] eqn:E; [|done]. case_decide; [|done]. split; simpl.
    + intros g p. rewrite elem_of_filter. intros [Hne Hin]. simpl in Hne. rewrite lookup_delete_ne by done. by eapply Hg.
    + intros g n' o. rewrite lookup_delete. case_decide; [done|]. intros Hl. apply elem_of_filter.
      split; [by intros ?; simpl in *|by eapply Ho].
  - destruct (c_groups c !! gid) as [[n owner]|] eqn:E; [|done]. split; simpl; [|set_solver].
    intros g p. rewrite elem_of_union, elem_of_singleton. intros [Hin|[= -> ->]]; eauto using mk_is_Some.
  - destruct (c_groups c !! gid) as [[n owner]|] eqn:E; [|done]. case_decide; [done|].
    case_decide; [|done]. split; simpl; [set_solver|]. intros g n' o Hl. apply elem_of_difference.
    split; [by eapply Ho|]. rewrite elem_of_singleton. intros [= -> ->]. congruence.
Qed.

Lemma run_groups_ok os db : clans_ok (clans_of db) → clans_ok (clans_of (run_groups os db)).
Proof.
  revert db. induction os as [|[[mid now] o] os IH]; intros db Hok; simpl; [done|]. apply IH.
  pose proof (group_step_spec mid now o db) as H. destruct (run_group mid now o db) as [r db']. cbn [snd].
  destruct H as [[_ ->]|(_ & -> & _)]; [|done]. by apply clans_step_ok.
Qed.

(** C30: every group operation refines the abstract clans: on each branch it returns the promised
    answer (ok, or the domain error) and the tables afterwards represent exactly the promised
    groups, owners and memberships; deleting a group removes all of its memberships.  The only
    other outcome is a constraint error for a membership id in use or an unregistered player, and
    then nothing changes. *)
Theorem group_refines_clans mid now o db :
  let '(r, db') := run_group mid now o db in
  (r = (clans_step (clans_of db) o).1 ∧ clans_of db' = (clans_step (clans_of db) o).2) ∨
  ((∃ code, r = Err (PgConstraint code)) ∧ db' = db ∧
   ~ (mid ∉ gm_id <$> group_members db ∧ player_exists (group_op_player o) db = true)).
Proof. exact (group_step_spec mid now o db). Qed.

(** under any sequence of group operations, failing ones included, every membership is of an
    existing group and the owner of every group is one of its members: the owner cannot leave, and
    a deleted group leaves no membership behind. *)
Theorem group_owner_is_member os db :
  clans_ok (clans_of db) →
  let c := clans_of (run_groups os db) in
  (∀ gid p, (gid, p) ∈ c_members c → is_Some (c_groups c !! gid)) ∧
  (∀ gid name owner, c_groups c !! gid = Some (name, owner) → (gid, owner) ∈ c_members c).
Proof. intros Hok c. by destruct (run_groups_ok os db Hok). Qed.

(** ** Evaluated instances *)

Definition demo_group_db : DB :=
  T_players.(t_set) [mkPlayerRow (sample_uuid x0a) (Some "ann") 0 0; mkPlayerRow (sample_uuid x0b) (Some "bob") 0 0] emptyDB.

Definition demo_group_ops : list (uuid * time * group_op) :=
  [(sample_uuid x01, 1000, GCreate (sample_uuid x77) (sample_uuid x0a) "  the clan ");
   (sample_uuid x02, 2000, GJoin (sample_uuid x0b) (sample_uuid x77));
   (sample_uuid x03, 3000, GLeave (sample_uuid x0a) (sample_uuid x77))].

Lemma demo_clans_ok : clans_ok (clans_of demo_group_db).
Proof. split; [intros g p H; by apply elem_of_empty in H|intros g n o H; discriminate H]. Qed.

Lemma group_owner_is_member_witness :
  c_groups (clans_of (run_groups demo_group_ops demo_group_db)) !! sample_uuid x77 = Some ("the clan", sample_uuid x0a) ∧
  (sample_uuid x77, sample_uuid x0a) ∈ c_members (clans_of (run_groups demo_group_ops demo_group_db)).
Proof.
  assert (E : c_groups (clans_of (run_groups demo_group_ops demo_group_db)) !! sample_uuid x77 = Some ("the clan", sample_uuid x0a))
    by (vm_compute; reflexivity).
  split; [exact E|]. exact (proj2 (group_owner_is_member demo_group_ops demo_group_db demo_clans_ok) _ _ _ E).
Defined.
