(* ===== verification/Chat.v ===== *)
(** * Chat (internal/domain/chat, internal/infra/repository/chat.go, internal/infra/chatstream, internal/usecase/chat)

    Direct and channel messages over the tables direct_messages and channel_messages, the
    in-process broker that fans channel messages out to live subscribers, and the usecase over the
    pair (database, broker).  [Broker] is the port the usecase declares; membership of a channel
    is the group repository's. *)

From S2P Require Import Prelude GoBase GoStrings Database Group.

(** ** The domain (chat.go) *)

Definition MaxBodyLength : Z := 2000.

Record Message := mkMessage { msg_ID : uuid; msg_SenderID : uuid; msg_RecipientID : uuid; msg_Body : string; msg_SentAt : time }.
Record ChannelMessage := mkChannelMessage { ch_ID : uuid; ch_ChannelID : uuid; ch_SenderID : uuid; ch_Body : string; ch_SentAt : time }.

#[export] Instance ChannelMessage_eq_dec : EqDecision ChannelMessage.
Proof. solve_decision. Defined.

Definition bad_body (body : string) : bool :=
  bool_decide (TrimSpace body = "") || (MaxBodyLength <? RuneCountInString body).

Definition NewMessage (id sender recipient : uuid) (body : string) (now : time) : res Message :=
  if bool_decide (sender = recipient) then Err ErrSelfMessage
  else if bad_body body then Err ErrInvalidBody
  else Ok (mkMessage id sender recipient body now).

Definition NewChannelMessage (id channelID sender : uuid) (body : string) (now : time) : res ChannelMessage :=
  if bad_body body then Err ErrInvalidBody
  else Ok (mkChannelMessage id channelID sender body now).

Definition Conversation (a b : uuid) : uuid * uuid := canonical_pair a b.

(** ** The repository (repository/chat.go) *)

(** 9999-01-01T00:00:00Z *)
Definition farFuture : time := 253370764800 * Second.

Definition Chat_Save (m : Message) : M DB unit := λ db,
  let '(low, high) := Conversation (msg_SenderID m) (msg_RecipientID m) in
  insert_row T_direct_messages
    (uuid_ltb low high && (bool_decide (msg_SenderID m = low) || bool_decide (msg_SenderID m = high)))
    (negb (exists_where T_direct_messages (λ r, bool_decide (dm_id r = msg_ID m)) db))
    (player_exists low db && player_exists high db && player_exists (msg_SenderID m) db)
    (mkDirectMessageRow (msg_ID m) low high (msg_SenderID m) (msg_Body m) (toTimestamptz (msg_SentAt m))) db.

Definition Chat_SaveChannelMessage (m : ChannelMessage) : M DB unit := λ db,
  insert_row T_channel_messages true
    (negb (exists_where T_channel_messages (λ r, bool_decide (cm_id r = ch_ID m)) db))
    (group_exists (ch_ChannelID m) db && player_exists (ch_SenderID m) db)
    (mkChannelMessageRow (ch_ID m) (ch_ChannelID m) (ch_SenderID m) (ch_Body m) (toTimestamptz (ch_SentAt m))) db.

(** [WHERE ... AND created_at < before ORDER BY created_at DESC LIMIT n]; a negative LIMIT is an error. *)
Definition history {R} (created_at : R → time) (rows : list R) (before : time) (n : Z) : res (list R) :=
  let before := if time_IsZero before then farFuture else before in
  let n := i32 n in
  if n <? 0 then Err (ErrText "LIMIT must not be negative")
  else Ok (limit n (order_desc created_at (filter (λ r, created_at r <? toTimestamptz before = true) rows))).

Definition in_channel (channelID : uuid) (r : ChannelMessageRow) : bool := bool_decide (cm_channel_id r = channelID).
Definition in_conversation (low high : uuid) (r : DirectMessageRow) : bool :=
  bool_decide (dm_player_low r = low) && bool_decide (dm_player_high r = high).

Definition toChannelMessage (r : ChannelMessageRow) : ChannelMessage :=
  mkChannelMessage (cm_id r) (cm_channel_id r) (cm_sender_id r) (cm_body r) (cm_created_at r).
Definition toMessage (r : DirectMessageRow) : Message :=
  mkMessage (dm_id r) (dm_sender_id r)
    (if bool_decide (dm_sender_id r = dm_player_high r) then dm_player_low r else dm_player_high r) (dm_body r) (dm_created_at r).

Definition Chat_ListChannel (channelID : uuid) (before : time) (n : Z) (db : DB) : res (list ChannelMessage) :=
  rows ← history cm_created_at (select_where T_channel_messages (in_channel channelID) db) before n;
  Ok (map toChannelMessage rows).

Definition Chat_ListConversation (a b : uuid) (before : time) (n : Z) (db : DB) : res (list Message) :=
  let '(low, high) := Conversation a b in
  rows ← history dm_created_at (select_where T_direct_messages (in_conversation low high) db) before n;
  Ok (map toMessage rows).

(** ** The broker port and the in-process broker (chatstream/inmem.go) *)

Class Broker (B : Type) := {
  br_Publish : ChannelMessage → M B unit;
  br_Subscribe : uuid → M B nat;
}.

Record stream := mkStream { s_buf : list ChannelMessage; s_closed : bool }.

(** Subscribers by channel, and the Go channels they read from, by creation order. *)
Record StreamHub := mkHub { hub_subs : gmap uuid (list nat); hub_chans : gmap nat stream; hub_next : nat }.

Definition NewHub : StreamHub := mkHub ∅ ∅ 0.

(** [select { case ch <- m: default: }] on a buffer of 16; sending on a closed channel panics. *)
Definition offer (m : ChannelMessage) (c : nat) : M StreamHub unit := λ h,
  match hub_chans h !! c with
  | Some (mkStream buf false) =>
      (Ok tt, if Z.of_nat (length buf) <? 16
              then mkHub (hub_subs h) (<[c := mkStream (buf ++ [m]) false]> (hub_chans h)) (hub_next h) else h)
  | _ => (Err (ErrText "panic: send on closed channel"), h)
  end.

Definition Hub_Publish (m : ChannelMessage) : M StreamHub unit := λ h,
  for_each (offer m) (default [] (hub_subs h !! ch_ChannelID m)) h.

Definition Hub_Subscribe (channelID : uuid) : M StreamHub nat := λ h,
  let c := hub_next h in
  (Ok c, mkHub (<[channelID := default [] (hub_subs h !! channelID) ++ [c]]> (hub_subs h))
               (<[c := mkStream [] false]> (hub_chans h)) (S c)).

Fixpoint remove_sub (c : nat) (l : list nat) : option (list nat) :=
  match l with
  | [] => None
  | x :: l' => if bool_decide (x = c) then Some l' else (cons x) <$> remove_sub c l'
  end.

(** Unsubscribing closes the channel and forgets a channel id with no subscriber left. *)
Definition Hub_detach (channelID : uuid) (c : nat) : M StreamHub unit := λ h,
  let subs := default [] (hub_subs h !! channelID) in
  match remove_sub c subs with
  | None => (Ok tt, if bool_decide (subs = []) then mkHub (delete channelID (hub_subs h)) (hub_chans h) (hub_next h) else h)
  | Some subs' =>
      match hub_chans h !! c with
      | Some (mkStream buf false) =>
          (Ok tt, mkHub (if bool_decide (subs' = []) then delete channelID (hub_subs h) else <[channelID := subs']> (hub_subs h))
                        (<[c := mkStream buf true]> (hub_chans h)) (hub_next h))
      | _ => (Err (ErrText "panic: close of closed channel"), h)
      end
  end.

#[export] Instance hub_broker : Broker StreamHub := {| br_Publish := Hub_Publish; br_Subscribe := Hub_Subscribe |}.

(** ** The usecase (usecase/chat/chat.go) *)

Record ChatConfig := mkChatConfig { DefaultLimit : Z; MaxLimit : Z }.

Section usecase.
Context {B : Type} {BR : Broker B}.
Context (cfg : ChatConfig).

Definition in_db {A} (m : M DB A) : M (DB * B) A := λ w, let '(r, db) := m w.1 in (r, (db, w.2)).
Definition in_broker {A} (m : M B A) : M (DB * B) A := λ w, let '(r, b) := m w.2 in (r, (w.1, b)).

Definition clampLimit (n : Z) : Z :=
  if n <=? 0 then DefaultLimit cfg else if MaxLimit cfg <? n then MaxLimit cfg else n.

Definition SendDirectMessage (id : uuid) (now : time) (sender recipient : uuid) (body : string) : M (DB * B) Message :=
  msg ← lift_res (NewMessage id sender recipient body now);
  _ ← in_db (RW (Chat_Save msg));
  mret msg.

Definition ListDirectMessages (me other : uuid) (before : time) (n : Z) : M (DB * B) (list Message) :=
  in_db (RO (Chat_ListConversation me other before (clampLimit n))).

Definition SendChannelMessage (id : uuid) (now : time) (sender channelID : uuid) (body : string) : M (DB * B) ChannelMessage :=
  msg ← lift_res (NewChannelMessage id channelID sender body now);
  _ ← in_db (RW (member ← GroupMembership_IsMember channelID sender;
                 if negb member then fail ErrNotChannelMember else Chat_SaveChannelMessage msg));
  _ ← ignore (in_broker (br_Publish msg));
  mret msg.

Definition SubscribeChannel (me channelID : uuid) : M (DB * B) nat :=
  member ← in_db (RO (λ db, result (GroupMembership_IsMember channelID me db)));
  if negb member then fail ErrNotChannelMember else in_broker (br_Subscribe channelID).

Definition ListChannelMessages (me channelID : uuid) (before : time) (n : Z) : M (DB * B) (list ChannelMessage) :=
  in_db (RO (λ db,
    member ← result (GroupMembership_IsMember channelID me db);
    if negb member then Err ErrNotChannelMember else Chat_ListChannel channelID before (clampLimit n) db)).
End usecase.

(** ** Access and delivery *)

Lemma clampLimit_range cfg n :
  0 < DefaultLimit cfg ≤ MaxLimit cfg → 1 ≤ clampLimit cfg n ≤ MaxLimit cfg.
Proof. intros. unfold clampLimit. repeat case_match; to_prop; lia. Qed.

(** a channel is closed to everybody but its members, and a message is fanned out only once it
    is committed.  A successful send means the sender is a member and the message is the last row
    of the table; the broker gets exactly this message, and its failure does not fail the send.
    A failed send changes neither the tables nor the broker.  A non-member can neither send, nor
    read the history, nor subscribe. *)
Theorem channel_members_only {B : Type} {BR : Broker B} cfg id now sender channelID body (w : DB * B) :
  let member p := exists_where T_group_members (is_member_row channelID p) w.1 in
  match SendChannelMessage id now sender channelID body w with
  | (Ok msg, w') => member sender = true ∧ msg = mkChannelMessage id channelID sender body now ∧
      channel_messages w'.1 = channel_messages w.1 ++ [mkChannelMessageRow id channelID sender body (toTimestamptz now)] ∧
      w'.2 = state (br_Publish msg w.2)
  | (Err e, w') => w' = w ∧ (member sender = false → bad_body body = false → e = ErrNotChannelMember)
  end ∧
  (∀ p, member p = false →
     SubscribeChannel p channelID w = (Err ErrNotChannelMember, w) ∧
     ∀ before n, ListChannelMessages cfg p channelID before n w = (Err ErrNotChannelMember, w)).
Proof.
  intros member. split.
  - unfold SendChannelMessage, NewChannelMessage. rewrite M_bind_eval. unfold lift_res.
    destruct (bad_body body) eqn:Eb; [by split|].
    rewrite M_bind_eval. unfold in_db. rewrite RW_eval, M_bind_eval. unfold GroupMembership_IsMember, gets.
    change (exists_where T_group_members (is_member_row channelID sender) w.1) with (member sender).
    destruct (member sender) eqn:Em; simpl; [|by destruct w].
    unfold Chat_SaveChannelMessage, insert_row. cbn [negb ch_ID ch_ChannelID ch_SenderID].
    destruct (exists_where T_channel_messages _ w.1); cbn [negb]; [by destruct w|].
    destruct (group_exists channelID w.1 && player_exists sender w.1); cbn [negb]; [|by destruct w].
    rewrite M_bind_eval. unfold ignore, in_broker, state. simpl. by destruct (br_Publish _ w.2).
  - intros p Hp. unfold SubscribeChannel, ListChannelMessages, in_db, RO, GroupMembership_IsMember, gets, result.
    rewrite M_bind_eval. cbn [fst]. unfold member in Hp. rewrite Hp. cbn [negb].
    split; [by destruct w|]. intros before n. by destruct w.
Qed.

(** ** Conversations *)

Lemma Conversation_comm a b : Conversation a b = Conversation b a.
Proof. apply canonical_pair_comm. Qed.

(** a direct message is one row of the conversation both players share: either of them lists
    the same history, whoever asks, and after a successful send the new message is in it, with its
    sender, recipient and body as sent. *)
Theorem direct_messages_shared {B : Type} cfg id now sender recipient body (w : DB * B) msg w' :
  SendDirectMessage id now sender recipient body w = (Ok msg, w') →
  (∀ before n, ListDirectMessages cfg sender recipient before n w' = ListDirectMessages cfg recipient sender before n w') ∧
  (∃ row, row ∈ direct_messages w'.1 ∧
     in_conversation (Conversation recipient sender).1 (Conversation recipient sender).2 row = true ∧
     toMessage row = mkMessage id sender recipient body (toTimestamptz now)).
Proof.
  intros H. split.
  - intros before n. unfold ListDirectMessages, Chat_ListConversation. by rewrite Conversation_comm.
  - unfold SendDirectMessage, NewMessage in H. rewrite M_bind_eval in H. unfold lift_res in H.
    case_bool_decide as Hne; [done|]. destruct (bad_body body); [done|].
    rewrite M_bind_eval in H. unfold in_db in H. rewrite RW_eval in H. unfold Chat_Save in H.
    cbn [msg_SenderID msg_RecipientID msg_ID msg_Body msg_SentAt] in H. rewrite Conversation_comm.
    destruct (Conversation sender recipient) as [low high] eqn:Ec. unfold insert_row in H.
    destruct (negb _); [done|]. destruct (negb _); [done|]. destruct (negb _); [done|]. simpl in H. injection H as <- <-.
    eexists (mkDirectMessageRow id low high sender body (toTimestamptz now)). split_and!.
    + simpl. apply elem_of_snoc_r.
    + simpl. unfold in_conversation. simpl. by rewrite !bool_decide_eq_true_2.
    + unfold toMessage. simpl. f_equal. unfold Conversation, canonical_pair in Ec.
      case_match; injection Ec as <- <-; case_bool_decide; congruence.
Qed.

(** ** Paging *)

(** A client reads a history to its end: it asks for the page before its cursor, starting with
    the zero time, and moves the cursor to the oldest message of the page. *)
Fixpoint read_pages {A} (fetch : time → res (list A)) (sent : A → time) (fuel : nat) (before : time) : list A :=
  match fuel with
  | O => []
  | S fuel' =>
      match fetch before with
      | Ok page =>
          match last page with
          | None => []
          | Some oldest => page ++ read_pages fetch sent fuel' (sent oldest)
          end
      | Err _ => []
      end
  end.

Section paging.
Context {R : Type} (k : R → time).

Definition strictly_newer (a b : R) : Prop := k b < k a.

Lemma order_desc_strict l : NoDup (k <$> l) → StronglySorted strictly_newer (order_desc k l).
Proof.
  intros Hnd. assert (Hnd' : NoDup (k <$> order_desc k l)) by (by rewrite order_desc_perm).
  pose proof (order_desc_sorted k l) as Hs. induction Hs as [|x l' Hs IH Hx]; [constructor|].
  csimpl in Hnd'. apply NoDup_cons in Hnd' as [Hni Hnd']. constructor; [by apply IH|].
  apply list.Forall_forall. intros y Hy. rewrite list.Forall_forall in Hx. specialize (Hx y Hy).
  assert (k x <> k y). { intros E. apply Hni. rewrite E. by apply list_elem_of_fmap_2. }
  unfold strictly_newer. lia.
Qed.

Lemma strict_sorted_unique l1 l2 :
  StronglySorted strictly_newer l1 → StronglySorted strictly_newer l2 → l1 ≡ₚ l2 → l1 = l2.
Proof.
  intros H1 H2. assert (Hw : ∀ l, StronglySorted strictly_newer l → StronglySorted (not_after (λ a b, k b <? k a)) l).
  { intros l. apply StronglySorted_mono. unfold strictly_newer, not_after. intros x y. rewrite Z.ltb_ge. lia. }
  apply (sorted_perm_unique (λ a b, k b <? k a)); [|by apply Hw..].
  intros x y Hx Hy. rewrite !Z.ltb_ge. intros Hxy Hyx.
  clear -H1 Hx Hy Hxy Hyx. induction H1 as [|z l Hs IH Hz]; [by apply elem_of_nil in Hx|].
  rewrite list.Forall_forall in Hz. apply elem_of_cons in Hx as [->|Hx], Hy as [->|Hy]; [done| | |by apply IH].
  - specialize (Hz y Hy). unfold strictly_newer in Hz. lia.
  - specialize (Hz x Hx). unfold strictly_newer in Hz. lia.
Qed.

Lemma StronglySorted_filter {A} (Q : A → A → Prop) (P : A → Prop) `{!∀ x, Decision (P x)} l :
  StronglySorted Q l → StronglySorted Q (filter P l).
Proof.
  induction 1 as [|x l Hs IH Hx]; [constructor|]. destruct (decide (P x)).
  - rewrite filter_cons_True by done. constructor; [done|].
    rewrite list.Forall_forall in *. intros y [_ Hy]%list_elem_of_filter. by apply Hx.
  - by rewrite filter_cons_False.
Qed.

(** The part of a strictly sorted list behind the end of a page. *)
Lemma after_page n l oldest :
  StronglySorted strictly_newer l → last (take n l) = Some oldest →
  filter (λ r, k r <? k oldest = true) l = drop n l.
Proof.
  intros Hs. revert n. induction Hs as [|x l Hs IH Hx]; intros [|n]; simpl; try done.
  rewrite list.Forall_forall in Hx. destruct (take n l) as [|y p] eqn:Ep.
  - intros [= <-]. rewrite filter_cons_False by (rewrite Z.ltb_irrefl; done).
    assert (drop n l = l) as -> by (destruct n as [|n]; [done|by destruct l]).
    clear -Hx. induction l as [|z l IH]; [done|]. rewrite filter_cons_True.
    + f_equal. apply IH. intros w Hw. apply Hx. by right.
    + apply Z.ltb_lt. apply (Hx z). left.
  - intros Hl. rewrite last_cons in Hl.
    assert (Hl' : last (take n l) = Some oldest).
    { rewrite Ep. destruct (last (y :: p)) eqn:El; [done|]. by apply last_None in El. }
    rewrite filter_cons_False; [by apply IH|]. intros Hlt%Z.ltb_lt.
    apply last_Some_elem_of in Hl'. apply elem_of_take in Hl' as (i & Hi & _).
    apply list_elem_of_lookup_2 in Hi. specialize (Hx _ Hi). unfold strictly_newer in Hx. lia.
Qed.

(** The cursor a page is cut at. *)
Definition cursor (before : time) : time := toTimestamptz (if time_IsZero before then farFuture else before).

Definition older (rows : list R) (b : time) : list R := filter (λ r, k r <? b = true) rows.

Lemma older_older rows b b' : b' <= b → older (older rows b) b' = older rows b'.
Proof.
  intros Hb. unfold older. induction rows as [|r rows IH]; [done|].
  destruct (decide (k r < b)) as [Hr|Hr].
  - rewrite (filter_cons_True _ r) by (by apply Z.ltb_lt). destruct (decide (k r < b')).
    + by rewrite !filter_cons_True, IH by (by apply Z.ltb_lt).
    + by rewrite !filter_cons_False by (by rewrite Z.ltb_lt).
  - rewrite (filter_cons_False _ r) by (by rewrite Z.ltb_lt). rewrite IH.
    by rewrite filter_cons_False by (rewrite Z.ltb_lt; lia).
Qed.

Lemma older_NoDup rows b : NoDup (k <$> rows) → NoDup (k <$> older rows b).
Proof. intros H. eapply sublist_NoDup; [done|]. apply fmap_sublist, sublist_filter. Qed.

Context {A : Type} (f : R → A) (sent : A → time) (sent_f : ∀ r, sent (f r) = k r).
Context (rows : list R) (n : Z).
Context (n_range : 1 ≤ n < 2147483648) (keys : NoDup (k <$> rows)).
Context (stored : ∀ r, r ∈ rows → toTimestamptz (k r) = k r ∧ zeroTime < k r < farFuture).

Lemma history_page before :
  history k rows before n = Ok (take (Z.to_nat n) (order_desc k (older rows (cursor before)))).
Proof.
  unfold history, cursor. rewrite (i32_small n) by lia. by rewrite (proj2 (Z.ltb_ge n 0)) by lia.
Qed.

Lemma read_pages_older (fetch : time → res (list A)) fuel before :
  (∀ b, fetch b = Ok (map f (take (Z.to_nat n) (order_desc k (older rows (cursor b)))))) →
  (length (older rows (cursor before)) < fuel)%nat →
  read_pages fetch sent fuel before = map f (order_desc k (older rows (cursor before))).
Proof.
  intros Hfetch. revert before. induction fuel as [|fuel IH]; intros before Hlen; [lia|]. cbn [read_pages].
  rewrite Hfetch. set (l := order_desc k (older rows (cursor before))).
  assert (Hs : StronglySorted strictly_newer l) by (by apply order_desc_strict, older_NoDup).
  replace (map f l) with (map f (take (Z.to_nat n) l) ++ map f (drop (Z.to_nat n) l))
    by (by rewrite <- map_app, take_drop).
  assert (Hlast : last (map f (take (Z.to_nat n) l)) = f <$> last (take (Z.to_nat n) l)) by apply fmap_last.
  rewrite Hlast. destruct (last (take (Z.to_nat n) l)) as [oldest|] eqn:El; simpl.
  2: { apply last_None in El. rewrite El. destruct l as [|x l']; [by rewrite drop_nil|].
       destruct (Z.to_nat n) eqn:En; [lia|done]. }
  f_equal. rewrite sent_f. pose proof (after_page _ _ _ Hs El) as Hdrop.
  assert (Hin : oldest ∈ older rows (cursor before)).
  { apply last_Some_elem_of, elem_of_take in El as (i & Hi & _). apply list_elem_of_lookup_2 in Hi.
    unfold l in Hi. by rewrite order_desc_perm in Hi. }
  apply filter_selected in Hin as [Hin Hlt]. to_prop. destruct (stored _ Hin) as [Hts Hrange].
  assert (Hcur : cursor (k oldest) = k oldest).
  { unfold cursor, time_IsZero. by rewrite (proj2 (Z.eqb_neq _ _)) by lia. }
  assert (Hrest : order_desc k (older rows (k oldest)) = drop (Z.to_nat n) l).
  { rewrite <- Hdrop. apply strict_sorted_unique.
    - by apply order_desc_strict, older_NoDup.
    - by apply StronglySorted_filter.
    - unfold l. rewrite !order_desc_perm. change (filter (λ r, k r <? k oldest = true)) with (λ l, older l (k oldest)).
      cbv beta. by rewrite older_older by lia. }
  rewrite IH; rewrite Hcur; [by rewrite Hrest|].
  assert (Hl : length (older rows (k oldest)) = length (drop (Z.to_nat n) l)).
  { rewrite <- Hrest. by rewrite order_desc_perm. }
  assert (length l = length (older rows (cursor before))) by (unfold l; by rewrite order_desc_perm).
  assert (length (take (Z.to_nat n) l) > 0)%nat.
  { destruct (take (Z.to_nat n) l); [done|simpl; lia]. }
  pose proof (length_app (take (Z.to_nat n) l) (drop (Z.to_nat n) l)) as Hsum. rewrite take_drop in Hsum. lia.
Qed.

Lemma older_all : older rows (cursor zeroTime) = rows.
Proof.
  unfold older, cursor. change (toTimestamptz (if time_IsZero zeroTime then farFuture else zeroTime)) with farFuture.
  clear keys. induction rows as [|r l IH]; [done|]. rewrite filter_cons_True.
  - f_equal. apply IH. intros x Hx. apply stored. by right.
  - apply Z.ltb_lt. apply stored. left.
Qed.
End paging.

(** C29: paging loses nothing: a member who reads a channel page by page, passing the time of the
    oldest message seen as the next cursor, gets exactly the channel's messages, each once, newest
    first, whatever the requested page size, when no two of them were stored with the same time. *)
Theorem channel_paging_complete {B : Type} cfg me channelID n (w : DB * B) fuel :
  let msgs := select_where T_channel_messages (in_channel channelID) w.1 in
  1 ≤ DefaultLimit cfg ≤ MaxLimit cfg → MaxLimit cfg < 2147483648 →
  exists_where T_group_members (is_member_row channelID me) w.1 = true →
  NoDup (cm_created_at <$> msgs) →
  (∀ r, r ∈ msgs → toTimestamptz (cm_created_at r) = cm_created_at r ∧ zeroTime < cm_created_at r < farFuture) →
  (length msgs < fuel)%nat →
  read_pages (λ before, result (ListChannelMessages cfg me channelID before n w)) ch_SentAt fuel zeroTime
    = map toChannelMessage (order_desc cm_created_at msgs).
Proof.
  intros msgs Hcfg Hmax Hmem Hnd Hst Hlen.
  pose proof (clampLimit_range cfg n ltac:(lia)) as Hn.
  assert (Hn' : 1 ≤ clampLimit cfg n < 2147483648) by lia.
  rewrite (read_pages_older cm_created_at toChannelMessage ch_SentAt (λ r, eq_refl) msgs (clampLimit cfg n) Hn' Hnd Hst).
  - by rewrite older_all.
  - intros b. unfold ListChannelMessages, in_db, RO, result, GroupMembership_IsMember, gets. cbn [fst].
    rewrite Hmem. simpl. unfold Chat_ListChannel. by rewrite (history_page cm_created_at msgs (clampLimit cfg n) Hn').
  - by rewrite older_all.
Qed.

(** ** The in-process broker as a transition system

    Each method holds the mutex; [HDetach] is the goroutine a subscription leaves behind for the
    end of its context, [HRecv] a subscriber's receive. *)
Inductive hub_op :=
  | HPublish (m : ChannelMessage)
  | HSubscribe (channelID : uuid)
  | HDetach (channelID : uuid) (c : nat)
  | HRecv (c : nat).

Definition hub_recv (c : nat) (h : StreamHub) : StreamHub :=
  match hub_chans h !! c with
  | Some (mkStream (_ :: buf) cl) => mkHub (hub_subs h) (<[c := mkStream buf cl]> (hub_chans h)) (hub_next h)
  | _ => h
  end.

(** The outcome of an operation, and the hub after it. *)
Definition run_hub (o : hub_op) (h : StreamHub) : res unit * StreamHub :=
  match o with
  | HPublish m => Hub_Publish m h
  | HSubscribe ch => (_ ← Hub_Subscribe ch; mret tt) h
  | HDetach ch c => Hub_detach ch c h
  | HRecv c => (Ok tt, hub_recv c h)
  end.

Definition run_hubs (os : list hub_op) (h : StreamHub) : StreamHub := foldl (λ h o, (run_hub o h).2) h os.

Record hub_inv (h : StreamHub) : Prop := {
  hub_open : ∀ ch subs c, hub_subs h !! ch = Some subs → c ∈ subs → ∃ buf, hub_chans h !! c = Some (mkStream buf false);
  hub_nodup : ∀ ch subs, hub_subs h !! ch = Some subs → NoDup subs;
  hub_owner : ∀ ch ch' subs subs' c, hub_subs h !! ch = Some subs → hub_subs h !! ch' = Some subs' →
    c ∈ subs → c ∈ subs' → ch = ch';
  hub_fresh : ∀ c, (hub_next h ≤ c)%nat → hub_chans h !! c = None;
}.

Lemma hub_inv_init : hub_inv NewHub.
Proof. split; simpl; intros *; rewrite ?lookup_empty; try done. Qed.

(** An open channel after a message was offered to it. *)
Definition offered (m : ChannelMessage) (s : stream) : stream :=
  mkStream (if Z.of_nat (length (s_buf s)) <? 16 then s_buf s ++ [m] else s_buf s) (s_closed s).

Lemma offer_all m subs h :
  NoDup subs → (∀ c, c ∈ subs → ∃ buf, hub_chans h !! c = Some (mkStream buf false)) →
  ∃ chans', for_each (offer m) subs h = (Ok tt, mkHub (hub_subs h) chans' (hub_next h)) ∧
    ∀ c, chans' !! c = if decide (c ∈ subs) then offered m <$> hub_chans h !! c else hub_chans h !! c.
Proof.
  revert h. induction subs as [|c subs IH]; intros h Hnd Hop.
  { exists (hub_chans h). split; [by destruct h|]. intros c. by rewrite decide_False by apply not_elem_of_nil. }
  apply NoDup_cons in Hnd as [Hni Hnd]. destruct (Hop c ltac:(left)) as [buf Hc].
  cbn [for_each]. rewrite M_bind_eval. unfold offer at 1. rewrite Hc.
  set (h1 := if _ <? 16 then _ else h).
  assert (hub_subs h1 = hub_subs h ∧ hub_next h1 = hub_next h ∧
    hub_chans h1 = <[c := offered m (mkStream buf false)]> (hub_chans h)) as (E1 & E2 & E3).
  { unfold h1, offered. simpl. destruct (_ <? 16); simpl; [done|]. by rewrite insert_id. }
  destruct (IH h1 Hnd) as (cs & Ef & Hcs).
  { intros c' Hc'. rewrite E3, lookup_insert_ne by (by intros ->). apply Hop. by right. }
  exists cs. split; [by rewrite Ef, E1, E2|]. intros c'. rewrite Hcs, E3, lookup_insert.
  destruct (decide (c = c')) as [->|Hne].
  - rewrite decide_False by done. rewrite decide_True by left. by rewrite Hc.
  - destruct (decide (c' ∈ subs)) as [Hin|Hin].
    + by rewrite decide_True by (by right).
    + rewrite decide_False; [done|]. rewrite elem_of_cons. intros [->|?]; done.
Qed.

Lemma publish_effect m h :
  hub_inv h →
  ∃ chans', Hub_Publish m h = (Ok tt, mkHub (hub_subs h) chans' (hub_next h)) ∧
    ∀ c, chans' !! c = if decide (c ∈ default [] (hub_subs h !! ch_ChannelID m)) then offered m <$> hub_chans h !! c
                       else hub_chans h !! c.
Proof.
  intros Hinv. apply offer_all.
  - destruct (hub_subs h !! ch_ChannelID m) eqn:E; simpl; [by eapply hub_nodup|constructor].
  - intros c. destruct (hub_subs h !! ch_ChannelID m) eqn:E; simpl; [by eapply hub_open|].
    by intros ?%elem_of_nil.
Qed.

Lemma remove_sub_spec c l l' :
  NoDup l → remove_sub c l = Some l' → c ∈ l ∧ c ∉ l' ∧ NoDup l' ∧ ∀ x, x ∈ l' → x ∈ l.
Proof.
  revert l'. induction l as [|x l IH]; intros l' Hnd; simpl; [done|]. apply NoDup_cons in Hnd as [Hx Hnd].
  case_bool_decide as E.
  - intros [= <-]. subst x. split_and!; [left|done|done|by right].
  - destruct (remove_sub c l) as [l0|]; [|done]. intros [= <-]. destruct (IH l0 Hnd eq_refl) as (H1 & H2 & H3 & H4).
    split_and!; [by right| | |].
    + rewrite not_elem_of_cons. auto.
    + constructor; [|done]. intros Hin. by apply Hx, H4.
    + intros y. rewrite !elem_of_cons. naive_solver.
Qed.

Lemma hub_step o h : hub_inv h → (run_hub o h).1 = Ok tt ∧ hub_inv (run_hub o h).2.
Proof.
  intros Hinv. destruct o as [m|ch|ch c|c]; cbn [run_hub].
  - destruct (publish_effect m h Hinv) as (cs & -> & Hcs). split; [done|]. destruct Hinv as [Hop Hnd Hown Hfr].
    split; simpl; try done.
    + intros ch subs c Hs Hc. destruct (Hop _ _ _ Hs Hc) as [buf Hb]. rewrite Hcs, Hb. case_decide; simpl; eauto.
    + intros c Hc. rewrite Hcs, Hfr by done. by case_decide.
  - rewrite M_bind_eval. unfold Hub_Subscribe. split; [done|]. destruct Hinv as [Hop Hnd Hown Hfr].
    assert (Hlt : ∀ ch' subs c, hub_subs h !! ch' = Some subs → c ∈ subs → c <> hub_next h).
    { intros ch' subs c Hs Hc ->. destruct (Hop _ _ _ Hs Hc) as [buf Hb]. by rewrite Hfr in Hb. }
    assert (Hcase : ∀ ch' subs c, <[ch := default [] (hub_subs h !! ch) ++ [hub_next h]]> (hub_subs h) !! ch' = Some subs → c ∈ subs →
      (c = hub_next h ∧ ch' = ch) ∨ (∃ s, hub_subs h !! ch' = Some s ∧ c ∈ s)).
    { intros ch' subs c. rewrite lookup_insert. case_decide as Hd; [|eauto]. subst ch'. intros [= <-].
      rewrite elem_of_snoc. intros [Hc|Hc]; [|auto]. right. destruct (hub_subs h !! ch); simpl in Hc; [eauto|by apply elem_of_nil in Hc]. }
    split; simpl.
    + intros ch' subs c Hs Hc. rewrite lookup_insert. case_decide as Hd; [eauto|].
      destruct (Hcase _ _ _ Hs Hc) as [[-> _]|(s & Hs' & Hc')]; [done|eauto].
    + intros ch' subs. rewrite lookup_insert. case_decide; [|apply Hnd]. intros [= <-]. subst ch'. apply list.NoDup_app.
      split_and!; [destruct (hub_subs h !! ch) eqn:E; simpl; [by eapply Hnd|constructor]| |apply NoDup_singleton].
      intros c Hc ->%list_elem_of_singleton. destruct (hub_subs h !! ch) eqn:E; simpl in Hc; [by eapply Hlt|by apply elem_of_nil in Hc].
    + intros ch1 ch2 s1 s2 c Hs1 Hs2 Hc1 Hc2.
      destruct (Hcase _ _ _ Hs1 Hc1) as [[-> ->]|(s1' & H1 & H1')], (Hcase _ _ _ Hs2 Hc2) as [[E2 ->]|(s2' & H2 & H2')];
        [done|by destruct (Hlt _ _ _ H2 H2')|by destruct (Hlt _ _ _ H1 H1')|by eapply Hown].
    + intros c Hc. rewrite lookup_insert_ne by lia. apply Hfr. lia.
  - unfold Hub_detach. destruct (remove_sub c (default [] (hub_subs h !! ch))) as [subs'|] eqn:Er.
    2: { split; [done|]. simpl. case_bool_decide; [|done]. destruct Hinv as [Hop Hnd Hown Hfr]. split; simpl; [..|done];
           intros *; rewrite !lookup_delete; repeat case_decide; try done; eauto. }
    destruct (hub_subs h !! ch) as [subs|] eqn:Es; simpl in Er; [|done].
    destruct (remove_sub_spec _ _ _ (hub_nodup _ Hinv _ _ Es) Er) as (Hc & Hnc & Hnd' & Hsub).
    destruct (hub_open _ Hinv _ _ _ Es Hc) as [buf Hb]. rewrite Hb. split; [done|]. destruct Hinv as [Hop Hnd Hown Hfr].
    assert (Hcase : ∀ ch' s x, (if bool_decide (subs' = []) then delete ch (hub_subs h) else <[ch := subs']> (hub_subs h)) !! ch' = Some s →
      x ∈ s → x <> c ∧ ∃ s0, hub_subs h !! ch' = Some s0 ∧ x ∈ s0).
    { intros ch' s x. case_bool_decide.
      - rewrite lookup_delete. case_decide as Hd; [done|]. intros Hs Hx. split; [|eauto]. intros ->. apply Hd. by eapply Hown.
      - rewrite lookup_insert. case_decide as Hd.
        + subst ch'. intros [= <-] Hx. split; [by intros ->|]. eauto.
        + intros Hs Hx. split; [|eauto]. intros ->. apply Hd. by eapply Hown. }
    split; simpl.
    + intros ch' s x Hs Hx. destruct (Hcase _ _ _ Hs Hx) as (Hne & s0 & Hs0 & Hx0). rewrite lookup_insert_ne by done. eauto.
    + intros ch' s. case_bool_decide; rewrite ?lookup_delete, ?lookup_insert; case_decide; try done; [apply Hnd| |apply Hnd]. by intros [= <-].
    + intros ch1 ch2 s1 s2 x Hs1 Hs2 Hx1 Hx2. destruct (Hcase _ _ _ Hs1 Hx1) as (_ & ? & ? & ?), (Hcase _ _ _ Hs2 Hx2) as (_ & ? & ? & ?).
      by eapply Hown.
    + intros x Hx. rewrite lookup_insert_ne; [by apply Hfr|]. intros <-. by rewrite Hfr in Hb.
  - unfold hub_recv. split; [done|]. destruct (hub_chans h !! c) as [[[|m buf] cl]|] eqn:Ec; simpl; try done.
    destruct Hinv as [Hop Hnd Hown Hfr]. split; simpl; try done.
    + intros ch subs x Hs Hx. destruct (Hop _ _ _ Hs Hx) as [b Hb]. rewrite lookup_insert. case_decide; [|eauto].
      subst. rewrite Ec in Hb. simplify_eq. eauto.
    + intros x Hx. rewrite lookup_insert_ne; [by apply Hfr|]. intros <-. by rewrite Hfr in Ec.
Qed.

Lemma run_hubs_inv os h : hub_inv h → hub_inv (run_hubs os h).
Proof.
  unfold run_hubs. revert h. induction os as [|o os IH]; intros h Hinv; simpl; [done|]. apply IH. by apply hub_step.
Qed.

(** the in-process broker never panics and never blocks: in every state reachable by any
    interleaving of publications, subscriptions, cancellations and receives, every method succeeds,
    and a publication appends the message to the buffer of exactly the channel's live subscribers
    that have room, leaving everybody else's buffer as it was. *)
Theorem hub_fan_out os (o : hub_op) (m : ChannelMessage) :
  let h := run_hubs os NewHub in
  (run_hub o h).1 = Ok tt ∧
  ∀ c, hub_chans (run_hub (HPublish m) h).2 !! c =
    if decide (c ∈ default [] (hub_subs h !! ch_ChannelID m))
    then (λ s, mkStream (if Z.of_nat (length (s_buf s)) <? 16 then s_buf s ++ [m] else s_buf s) (s_closed s)) <$> hub_chans h !! c
    else hub_chans h !! c.
Proof.
  intros h. assert (Hinv : hub_inv h) by apply run_hubs_inv, hub_inv_init. split; [by apply hub_step|].
  cbn [run_hub]. by destruct (publish_effect m h Hinv) as (cs & -> & Hcs).
Qed.

(** ** Evaluated instances *)

Definition demo_chat_cfg : ChatConfig := mkChatConfig 50 200.

Definition demo_message (id : byte) (at_ : time) : ChannelMessageRow :=
  mkChannelMessageRow (sample_uuid id) (sample_uuid x77) (sample_uuid x0a) "hi" at_.

Definition demo_chat (rows : list ChannelMessageRow) : DB * StreamHub :=
  (T_channel_messages.(t_set) rows (run_groups (take 2 demo_group_ops) demo_group_db), NewHub).

Definition demo_rows : list ChannelMessageRow := [demo_message x01 3000; demo_message x02 1000; demo_message x03 2000].

Lemma channel_paging_complete_witness :
  read_pages (λ before, result (ListChannelMessages demo_chat_cfg (sample_uuid x0b) (sample_uuid x77) before 1 (demo_chat demo_rows)))
    ch_SentAt 5 zeroTime
  = map toChannelMessage [demo_message x01 3000; demo_message x03 2000; demo_message x02 1000].
Proof.
  rewrite (channel_paging_complete demo_chat_cfg (sample_uuid x0b) (sample_uuid x77) 1 (demo_chat demo_rows) 5);
    [vm_compute; reflexivity|by split|done|vm_compute; reflexivity|by_compute|by_compute_all|].
  vm_compute. repeat constructor.
Defined.

Lemma direct_messages_shared_witness :
  ∃ msg w', SendDirectMessage (sample_uuid x05) 1500 (sample_uuid x0b) (sample_uuid x0a) "hello" (demo_chat []) = (Ok msg, w') ∧
    ListDirectMessages demo_chat_cfg (sample_uuid x0b) (sample_uuid x0a) zeroTime 0 w'
    = ListDirectMessages demo_chat_cfg (sample_uuid x0a) (sample_uuid x0b) zeroTime 0 w'.
Proof.
  eexists _, _. split; [vm_compute; reflexivity|].
  refine (proj1 (direct_messages_shared demo_chat_cfg (sample_uuid x05) 1500 (sample_uuid x0b) (sample_uuid x0a) "hello"
    (demo_chat []) _ _ _) zeroTime 0).
  vm_compute. reflexivity.
Defined.

(** Two messages stored with the same time: with pages of one, the second is never shown. *)
Example tied_messages_skipped :
  length (read_pages (λ before, result (ListChannelMessages demo_chat_cfg (sample_uuid x0b) (sample_uuid x77) before 1
    (demo_chat [demo_message x01 1000; demo_message x02 1000]))) ch_SentAt 5 zeroTime) = 1%nat.
Proof. vm_compute. reflexivity. Qed.
