(* ===== verification/ChatStream.v ===== *)
(** * The channel streams shared by the gateways (internal/infra/chatstream/valkey.go)

    Each chat channel has a Valkey stream that [Publish] appends to and the goroutine of
    [Subscribe] tails.  The tail starts at "$", which a blocking read resolves to the end of the
    stream at the moment it is issued, so a read has two moments: when it is issued and when it is
    answered.  A [reading] gives both as lengths of the channel's whole history, and how much of
    the history the stream has dropped by then ([MAXLEN ~ 1000], or the expiry of an idle stream). *)

From S2P Require Import Prelude GoBase GoStrings Json Valkey Match ValkeyQueue QueueStream Database Chat.

(** ** The stream of a channel *)

(** The position a read starts from: "$", or the id of the last entry received. *)
Inductive start := Dollar | After (id : Z).

Section chatstream.
Context {U : UuidCodec}.

Definition chatStreamKey (channelID : uuid) : string := "vfx:chat:stream:" +:+ uuid_String channelID.

Definition marshalMessage (m : ChannelMessage) : res json :=
  object [field j_string "id" (uuid_String (ch_ID m));
          field j_string "channel_id" (uuid_String (ch_ChannelID m));
          field j_string "sender_id" (uuid_String (ch_SenderID m));
          field j_string "body" (ch_Body m);
          field j_time "sent_at" (ch_SentAt m)].

Definition unmarshalMessage (raw : json) : res ChannelMessage :=
  sID ← read j_string "id" "" raw;
  sChannelID ← read j_string "channel_id" "" raw;
  sSenderID ← read j_string "sender_id" "" raw;
  body ← read j_string "body" "" raw;
  sentAt ← read j_time "sent_at" zeroTime raw;
  id ← parse_uuid sID;
  channelID ← parse_uuid sChannelID;
  senderID ← parse_uuid sSenderID;
  Ok (mkChannelMessage id channelID senderID body sentAt).

(** The trimming of the XADD is on the readers' side ([rd_dropped]); the expiry is 10 minutes. *)
Definition stream_Publish (m : ChannelMessage) : prog json unit :=
  data ← ret_res (wrap_err "chatstream: marshal message" (marshalMessage m));
  rep ← send (XADD (chatStreamKey (ch_ChannelID m)) data);
  _ ← ret_res (wrap_err "chatstream: xadd" (reply_Error rep));
  rep ← send (PEXPIRE (chatStreamKey (ch_ChannelID m)) 600000);
  ret_res (wrap_err "chatstream: stream expire" (reply_Error rep)).

(** One batch: the messages sent on the channel (an entry that does not decode is skipped), and
    where the next read starts. *)
Fixpoint forwardAll (entries : list (Z * json)) (lastID : start) : list ChannelMessage * start :=
  match entries with
  | [] => ([], lastID)
  | (id, raw) :: entries' =>
      let '(ms, last) := forwardAll entries' (After id) in
      (match unmarshalMessage raw with Ok m => m :: ms | Err _ => ms end, last)
  end.

(** The goroutine of [Subscribe], given what the server answers to each of its reads: the messages
    it sends until its context ends or a read fails. *)
Fixpoint tailChannel (answers : list (start → reply json)) (lastID : start) : list ChannelMessage :=
  match answers with
  | [] => []
  | answer :: answers' =>
      match AsXRead (answer lastID) with
      | Err e => if IsValkeyNil e then tailChannel answers' lastID else []
      | Ok entries => let '(ms, last) := forwardAll entries lastID in ms ++ tailChannel answers' last
      end
  end.

Definition stream_Subscribe (answers : list (start → reply json)) : list ChannelMessage := tailChannel answers Dollar.
End chatstream.

(** ** What the server answers *)

(** [rd_issued] and [rd_answered] are lengths of the history when the read was issued and answered,
    [rd_dropped] how many of its oldest entries the stream no longer has, [rd_up] whether the
    request succeeds. *)
Record reading := mkReading { rd_issued : nat; rd_answered : nat; rd_dropped : nat; rd_up : bool }.

Definition xread (history : list (Z * json)) (rd : reading) (from : start) : reply json :=
  if negb (rd_up rd) then RErr (ErrText "connection lost")
  else
    let there := drop (rd_dropped rd) (take (rd_answered rd) history) in
    match take 64 (match from with
                   | Dollar => drop (rd_issued rd - rd_dropped rd) there
                   | After id => filter (λ e, id < e.1) there
                   end) with
    | [] => RNil
    | entries => RStream entries
    end.

(** The reads of a run follow each other while the history grows. *)
Fixpoint in_sequence (from : nat) (rds : list reading) (total : nat) : Prop :=
  match rds with
  | [] => (from ≤ total)%nat
  | rd :: rds' => (from ≤ rd_issued rd ≤ rd_answered rd)%nat ∧ in_sequence (rd_answered rd) rds' total
  end.

(** ** The messages of a run *)

Section delivery.
Context {U : UuidCodec}.

Definition messages (l : list (Z * json)) : list ChannelMessage :=
  omap (λ e, match unmarshalMessage e.2 with Ok m => Some m | Err _ => None end) l.

Lemma forwardAll_spec l from :
  forwardAll l from = (messages l, match last l with Some e => After e.1 | None => from end).
Proof.
  revert from. induction l as [|[i raw] l IH]; intros from; [done|]. cbn [forwardAll]. rewrite IH.
  unfold messages at 2. cbn [omap list_omap]. fold (messages l). rewrite last_cons. simpl.
  destruct (unmarshalMessage raw); by destruct (last l).
Qed.

(** A read from after the first [n > 0] entries, none of the later ones dropped. *)
Lemma xread_after history rd n :
  ids_increase history → (0 < n)%nat → (n ≤ rd_answered rd ≤ length history)%nat → (rd_dropped rd ≤ n)%nat → rd_up rd = true →
  xread history rd (After (last_id (take n history) 0)) =
    match take 64 (drop n (take (rd_answered rd) history)) with [] => RNil | entries => RStream entries end.
Proof.
  intros Hi Hn0 [Hn Ha] Hd Hup. unfold xread. rewrite Hup. simpl.
  set (h := take (rd_answered rd) history). assert (Hh : h = take n history ++ drop n h).
  { unfold h. rewrite <- (take_drop n (take (rd_answered rd) history)) at 1. rewrite take_take. by rewrite Nat.min_l. }
  assert (Hih : ids_increase (take n history ++ drop n h)) by (rewrite <- Hh; eapply ids_increase_prefix; [exact Hi|]; unfold h; eexists; by rewrite take_drop).
  destruct (ids_after _ _ Hih) as [Hf Hle].
  assert (Hfilter : filter (λ e, last_id (take n history) 0 < e.1) (drop (rd_dropped rd) h) = drop n h).
  { rewrite Hh at 1. rewrite drop_app_le by (rewrite length_take; lia). rewrite filter_app.
    rewrite filter_app in Hf. rewrite (filter_none _ (take n history)) in Hf by (eapply list.Forall_impl; [exact Hle|]; simpl; lia).
    rewrite filter_none by (apply Forall_drop; eapply list.Forall_impl; [exact Hle|]; simpl; lia). exact Hf. }
  by rewrite Hfilter.
Qed.

Lemma last_id_take history n e : history !! n = Some e → last_id (take (S n) history) 0 = e.1.
Proof. intros H. unfold last_id. by rewrite (take_S_r _ _ e H), last_snoc. Qed.
Lemma messages_app a b : messages (a ++ b) = messages a ++ messages b.
Proof. apply omap_app. Qed.

(** The reads that found the whole history. *)
Definition complete_reads (total : nat) (rds : list reading) : nat := length (filter (λ rd, rd_answered rd = total) rds).

Lemma in_sequence_le from from' rds total : (from' ≤ from)%nat → in_sequence from rds total → in_sequence from' rds total.
Proof. destruct rds; simpl; [lia|]. intros H [H1 H2]. split; [lia|done]. Qed.

Lemma in_sequence_total from rds total : in_sequence from rds total → (from ≤ total)%nat.
Proof. revert from. induction rds as [|rd rds IH]; intros from; simpl; [done|]. intros [H1 H2%IH]. lia. Qed.

Lemma in_sequence_step from rd rds total :
  in_sequence from (rd :: rds) total → (from ≤ rd_issued rd ≤ rd_answered rd)%nat ∧ (rd_answered rd ≤ total)%nat ∧ in_sequence (rd_answered rd) rds total.
Proof. simpl. intros [H1 H2]. split_and!; [lia..| |done]. by eapply in_sequence_total. Qed.

(** A batch of [k] entries, taken after the first [n]. *)
Lemma batch history n a :
  (n ≤ a ≤ length history)%nat →
  ∃ k, take 64 (drop n (take a history)) = take k (drop n history) ∧ (n + k ≤ a)%nat ∧ (k = 0%nat → n = a) ∧
       length (take k (drop n history : list (Z * json))) = k.
Proof.
  intros H. exists (64 `min` (a - n))%nat. split_and!.
  - rewrite <- take_take. f_equal. rewrite take_drop_commute. by replace (n + (a - n))%nat with a by lia.
  - lia.
  - lia.
  - rewrite length_take, length_drop. lia.
Qed.

(** A subscriber that has received the first [n] entries goes on where it is. *)
Lemma tail_after history d rds n from :
  ids_increase history → (0 < n)%nat → (n ≤ from)%nat → (d ≤ n)%nat →
  in_sequence from rds (length history) → Forall (λ rd, rd_dropped rd ≤ d)%nat rds →
  ∃ j, (n ≤ j ≤ length history)%nat ∧
    tailChannel (xread history <$> rds) (After (last_id (take n history) 0)) = messages (take (j - n) (drop n history)) ∧
    (Forall (λ rd, rd_up rd = true) rds → (length history - n ≤ complete_reads (length history) rds)%nat → j = length history).
Proof.
  intros Hi Hn0. revert n from Hn0. induction rds as [|rd rds IH]; intros n from Hn0 Hn Hd Hseq Hdrop.
  { simpl in Hseq. exists n. rewrite Nat.sub_diag, take_0. split_and!; [lia..|done|]. unfold complete_reads. simpl. lia. }
  apply in_sequence_step in Hseq as (H1 & H2 & Hseq). apply list.Forall_cons in Hdrop as [Hrd Hdrop].
  csimpl. destruct (rd_up rd) eqn:Eup.
  - rewrite (xread_after history rd n) by (done || lia).
    destruct (batch history n (rd_answered rd)) as (k & Ek & Hk & Hk0 & Hlen); [lia|]. rewrite Ek.
    destruct (take k (drop n history)) as [|e es] eqn:Et.
    + simpl in Hlen. subst k. simpl. rewrite ?IsValkeyNil_nil.
      destruct (IH n (rd_answered rd)) as (j & Hj & Etail & Hall); [lia..|done|done|]. exists j. split_and!; [lia..|done|].
      intros [_ Hup]%list.Forall_cons Hc. apply Hall; [done|]. unfold complete_reads in *. rewrite filter_cons in Hc.
      specialize (Hk0 eq_refl). case_decide; simpl in Hc; lia.
    + rewrite <- Et in *. destruct k as [|k]; [done|]. cbn [tailChannel]. cbn [AsXRead]. 
      assert (∃ e, history !! (n + k)%nat = Some e) as [el Hel] by (apply lookup_lt_is_Some; lia).
      assert (Hlast : last (take (S k) (drop n history)) = Some el).
      { rewrite last_lookup, Hlen. simpl. rewrite lookup_take_lt by lia. by rewrite lookup_drop. }
      destruct (IH (n + S k)%nat (rd_answered rd)) as (j & Hj & Etail & Hall); [lia..|done|done|]. 
      exists j. rewrite Et, <- Et. rewrite forwardAll_spec, Hlast. 
      replace (After el.1) with (After (last_id (take (n + S k) history) 0)) by (rewrite Nat.add_succ_r; by rewrite (last_id_take _ _ el)).
      rewrite Etail, <- messages_app. split_and!; [lia..| |].
      * f_equal. replace (j - n)%nat with (S k + (j - (n + S k)))%nat by lia. rewrite <- take_take_drop, drop_drop. done.
      * intros [_ Hup]%list.Forall_cons Hc. apply Hall; [done|]. unfold complete_reads in *. rewrite filter_cons in Hc.
        case_decide; simpl in Hc; lia.
  - exists n. rewrite Nat.sub_diag, take_0. unfold xread. rewrite Eup. split_and!; [lia..| |].
    + reflexivity.
    + intros [Hup _]%list.Forall_cons. by rewrite Eup in Hup.
Qed.

(** The first read an entry arrived during, as the length of the history when it was issued. *)
Fixpoint first_hit (total : nat) (rds : list reading) : nat :=
  match rds with
  | [] => total
  | rd :: rds' => if (rd_issued rd <? rd_answered rd)%nat then rd_issued rd else first_hit total rds'
  end.

Lemma xread_dollar history rd :
  (rd_dropped rd ≤ rd_issued rd)%nat → rd_up rd = true →
  xread history rd Dollar = match take 64 (drop (rd_issued rd) (take (rd_answered rd) history)) with [] => RNil | entries => RStream entries end.
Proof.
  intros Hd Hup. unfold xread. rewrite Hup. simpl. rewrite drop_drop. by replace (rd_dropped rd + (rd_issued rd - rd_dropped rd))%nat with (rd_issued rd) by lia.
Qed.

Lemma first_hit_full total rds : in_sequence total rds total → first_hit total rds = total.
Proof.
  induction rds as [|rd rds IH]; [done|]. intros (H1 & H2 & H)%in_sequence_step. cbn [first_hit].
  assert (rd_answered rd = total) as E by lia. rewrite (proj2 (Nat.ltb_ge _ _)) by lia. apply IH. by rewrite <- E at 1.
Qed.

(** C35: what a channel subscription delivers.  The messages a subscriber receives are a contiguous run of
    the channel's history, in order, without gap or repetition, whatever is published between its
    reads and whenever a read fails.  While no read fails, the run starts at the end of the history
    when the first read that an entry arrived during was issued, and it extends to the end of the
    history once as many reads have found it complete as it has entries.  The stream drops none of
    the entries that came after the subscription. *)
Theorem subscription_is_contiguous history rds from :
  ids_increase history → in_sequence from rds (length history) → Forall (λ rd, rd_dropped rd ≤ from)%nat rds →
  ∃ i j, (from ≤ i ≤ j)%nat ∧ (j ≤ length history)%nat ∧
    stream_Subscribe (xread history <$> rds) = messages (take (j - i) (drop i history)) ∧
    (Forall (λ rd, rd_up rd = true) rds →
       i = first_hit (length history) rds ∧ ((length history - i ≤ complete_reads (length history) rds)%nat → j = length history)).
Proof.
  intros Hi Hseq Hdrop. unfold stream_Subscribe. set (d := from) in Hdrop. assert (Hd : (d ≤ from)%nat) by done. clearbody d. 
  revert from Hseq Hd. induction rds as [|rd rds IH]; intros from Hseq Hd.
  { simpl in Hseq. exists (length history), (length history). rewrite Nat.sub_diag. split_and!; [lia..|done|]. intros _. split; [done|lia]. }
  apply in_sequence_step in Hseq as (H1 & H2 & Hseq). apply list.Forall_cons in Hdrop as [Hrd Hdrop]. csimpl.
  destruct (rd_up rd) eqn:Eup.
  2: { exists from, from. rewrite Nat.sub_diag, take_0. unfold xread. rewrite Eup. split_and!; [lia..|reflexivity|].
       intros [Hup _]%list.Forall_cons. by rewrite Eup in Hup. }
  rewrite (xread_dollar history rd) by (done || lia).
  destruct (batch history (rd_issued rd) (rd_answered rd)) as (k & Ek & Hk & Hk0 & Hlen); [lia|]. rewrite Ek.
  destruct (take k (drop (rd_issued rd) history)) as [|e es] eqn:Et.
  - simpl in Hlen. subst k. simpl. rewrite ?IsValkeyNil_nil. specialize (Hk0 eq_refl).
    destruct (IH Hdrop (rd_answered rd)) as (i & j & Hij & Hj & Etail & Hall); [done|lia|]. exists i, j. split_and!; [lia..|done|].
    intros [_ Hup]%list.Forall_cons. destruct (Hall Hup) as [-> Hc]. rewrite (proj2 (Nat.ltb_ge _ _)) by lia. split; [done|].
    intros Hcount. destruct (decide (rd_answered rd = length history)) as [Ea|Hne].
    { rewrite Ea in Hseq. rewrite (first_hit_full _ _ Hseq) in Hij. lia. }
    apply Hc. unfold complete_reads in *. by rewrite filter_cons_False in Hcount.
  - rewrite <- Et in *. destruct k as [|k]; [done|]. cbn [tailChannel].
    assert (∃ e, history !! (rd_issued rd + k)%nat = Some e) as [el Hel] by (apply lookup_lt_is_Some; lia).
    assert (Hlast : last (take (S k) (drop (rd_issued rd) history)) = Some el).
    { rewrite last_lookup, Hlen. simpl. rewrite lookup_take_lt by lia. by rewrite lookup_drop. }
    assert (Hdrop' : Forall (λ rd', rd_dropped rd' ≤ rd_issued rd)%nat rds) by (eapply list.Forall_impl; [exact Hdrop|]; simpl; lia).
    destruct (tail_after history (rd_issued rd) rds (rd_issued rd + S k) (rd_answered rd)) as (j & Hj & Etail & Hall); [done|lia..|done|done|].
    exists (rd_issued rd), j. rewrite Et. cbn [AsXRead]. rewrite <- Et, forwardAll_spec, Hlast.
    replace (After el.1) with (After (last_id (take (rd_issued rd + S k) history) 0)) by (rewrite Nat.add_succ_r; by rewrite (last_id_take _ _ el)).
    rewrite Etail, <- messages_app. split_and!; [lia..| |].
    + f_equal. replace (j - rd_issued rd)%nat with (S k + (j - (rd_issued rd + S k)))%nat by lia. by rewrite <- take_take_drop, drop_drop.
    + intros [_ Hup]%list.Forall_cons. cbn [first_hit]. rewrite (proj2 (Nat.ltb_lt _ _)) by lia. split; [done|].
      intros Hc. apply Hall; [done|]. unfold complete_reads in *. rewrite filter_cons in Hc. case_decide; simpl in Hc; lia.
Qed.
End delivery.

(** ** What a document keeps, and what a publish appends *)

Section publishing.
Context {U : UuidCodec} {UL : UuidCodecLaws U}.

Definition kept_message (m : ChannelMessage) : ChannelMessage :=
  mkChannelMessage (ch_ID m) (ch_ChannelID m) (ch_SenderID m) (ToValid (ch_Body m)) (ch_SentAt m).

Lemma message_document m : json_time_ok (ch_SentAt m) = true →
  ∃ raw, marshalMessage m = Ok raw ∧ unmarshalMessage raw = Ok (kept_message m).
Proof.
  destruct m as [id ch sender body sent]. unfold marshalMessage, object, field, unmarshalMessage, read. simpl.
  unfold enc_time. intros ->. simpl. eexists. split; [reflexivity|]. simpl. rewrite !ToValid_uuid. by rewrite !parse_uuid_String.
Qed.

Lemma chatStreamKey_inj a b : chatStreamKey a = chatStreamKey b → a = b.
Proof. intros H. by apply prefixed_inj, uuid_String_inj in H. Qed.

Context {S : Type} {Srv : Server json S} {L : ServerLaws json S} {Up : ServerUp json S}.

(** a published message is the newest entry of its channel's stream, it reads back as the
    message that was sent (its text as valid UTF-8), and no other channel's stream changes. *)
Theorem publish_appends s m :
  json_time_ok (ch_SentAt m) = true →
  let s' := (run (stream_Publish m) s).2 in
  (run (stream_Publish m) s).1 = Ok tt ∧
  (∃ e, Valkey.stream (view s') (chatStreamKey (ch_ChannelID m)) = Valkey.stream (view s) (chatStreamKey (ch_ChannelID m)) ++ [e] ∧
        unmarshalMessage e.2 = Ok (kept_message m) ∧
        ∀ e', e' ∈ Valkey.stream (view s) (chatStreamKey (ch_ChannelID m)) → e'.1 < e.1) ∧
  (∀ c, c <> ch_ChannelID m → Valkey.stream (view s') (chatStreamKey c) = Valkey.stream (view s) (chatStreamKey c)).
Proof.
  intros Ht s'. destruct (message_document m Ht) as (raw & Em & Eu).
  assert (Hs : spec (stream_Publish m) (view s) (λ r ks, r = Ok tt ∧ ∃ newID, fresh_id newID (view s) ∧
      ks = set_stream <[chatStreamKey (ch_ChannelID m) := Valkey.stream (view s) (chatStreamKey (ch_ChannelID m)) ++ [(newID, raw)]]> (view s))).
  { unfold stream_Publish. rewrite Em. apply spec_call. intros newID Hf. apply spec_call. intros newID' _. simpl.
    apply spec_ret. eauto. }
  destruct (Hs s eq_refl) as (Hr & newID & Hf & Hv). fold s' in Hv. split; [exact Hr|]. rewrite Hv. unfold Valkey.stream. simpl. split.
  - exists (newID, raw). rewrite lookup_insert_eq. split_and!; [done|exact Eu|]. intros e' He'. by eapply (proj2 Hf).
  - intros c Hc. rewrite lookup_insert_ne; [done|]. intros E. by apply chatStreamKey_inj in E.
Qed.
End publishing.

(** ** Evaluated instances *)

Definition demo_line (i : Z) (body : string) : Z * json :=
  let m := mkChannelMessage (sample_uuid x01) (sample_uuid x02) (sample_uuid x03) body 1700000000000000000 in
  (i, match marshalMessage (U := hex_codec) m with Ok j => j | Err _ => JInt 0 end).

Definition demo_lines : list (Z * json) := [demo_line 3 "a"; demo_line 4 "b"; demo_line 6 "c"].

(** Subscribed when one message is there; the first read waits for the second, the next finds the third. *)
Definition demo_reads : list reading := [mkReading 1 2 0 true; mkReading 2 3 1 true; mkReading 3 3 1 true].

Lemma subscription_is_contiguous_witness :
  ch_Body <$> stream_Subscribe (U := hex_codec) (xread demo_lines <$> demo_reads) = ["b"; "c"].
Proof.
  destruct (subscription_is_contiguous (U := hex_codec) demo_lines demo_reads 1) as (i & j & Hij & Hj & -> & Hall).
  - repeat constructor.
  - simpl. lia.
  - repeat constructor.
  - destruct Hall as [-> Hc]; [repeat constructor|]. rewrite Hc; [vm_compute; reflexivity|]. vm_compute. lia.
Defined.

Lemma publish_appends_witness :
  let m := mkChannelMessage (sample_uuid x01) (sample_uuid x02) (sample_uuid x03) "hi" 1700000000000000000 in
  (run (stream_Publish (U := hex_codec) m) empty_keyspace).1 = Ok tt.
Proof.
  intros m. pose proof (publish_appends (U := hex_codec) empty_keyspace m eq_refl) as H. cbv zeta in H. exact (proj1 H).
Defined.

(** A message published while no read is waiting (before the first read is issued, or between a read that timed
    out and the next) is never delivered, although the subscription was there: "$" starts over. *)
Example message_between_reads_lost :
  ch_Body <$> stream_Subscribe (U := hex_codec) (xread demo_lines <$> [mkReading 0 0 0 true; mkReading 1 2 0 true; mkReading 2 3 0 true]) = ["b"; "c"].
Proof. vm_compute. reflexivity. Qed.
