(* ===== verification/Leaderboard.v ===== *)
(** * Leaderboards (internal/domain/leaderboard, internal/infra/repository/leaderboard{,_valkey}.go, internal/usecase/leaderboard)

    The keep-best rule, the repository over leaderboard_entries, the sorted-set index in front of
    it, and the usecase.  The sorted set lives in Valkey: its commands are the parameters of
    [RankIndex]. *)

From S2P Require Import Prelude GoBase Database.

(** ** The domain (leaderboard.go) *)

Inductive SortOrder := Descending | Ascending.

Record Leaderboard := mkLeaderboard { lb_ID : string; lb_SortOrder : SortOrder }.

#[export] Instance SortOrder_eq_dec : EqDecision SortOrder.
Proof. solve_decision. Defined.
#[export] Instance Leaderboard_eq_dec : EqDecision Leaderboard.
Proof. solve_decision. Defined.

Definition Beats (l : Leaderboard) (a b : Z) : bool :=
  match lb_SortOrder l with
  | Ascending => a <? b
  | Descending => b <? a
  end.

Record RankedEntry := mkRankedEntry {
  re_Rank : Z; re_PlayerID : uuid; re_Nickname : option string; re_Score : Z; re_AchievedAt : time }.

#[export] Instance RankedEntry_eq_dec : EqDecision RankedEntry.
Proof. solve_decision. Defined.

(** ** The repository (repository/leaderboard.go) *)

Definition on_board (l : Leaderboard) (e : LeaderboardRow) : bool := bool_decide (le_leaderboard_id e = lb_ID l).
Definition is_entry (l : Leaderboard) (p : uuid) (e : LeaderboardRow) : bool :=
  on_board l e && bool_decide (le_player_id e = p).

(** The two conditional upserts, which differ in the comparison of their WHERE clause; the result
    is [affected > 0]. *)
Definition Leaderboard_Submit (id : uuid) (l : Leaderboard) (playerID : uuid) (score : Z) (now : time) : M DB bool := λ db,
  if exists_where T_leaderboard_entries (is_entry l playerID) db then
    (affected ← update_where T_leaderboard_entries (λ e, is_entry l playerID e && Beats l score (le_score e))
       (λ e, mkLeaderboardRow (le_id e) (le_leaderboard_id e) (le_player_id e) score (toTimestamptz now) (le_created_at e));
     mret (0 <? affected)) db
  else
    match insert_row T_leaderboard_entries true
            (negb (exists_where T_leaderboard_entries (λ e, bool_decide (le_id e = id)) db))
            (player_exists playerID db)
            (mkLeaderboardRow id (lb_ID l) playerID score (toTimestamptz now) (db_now db)) db with
    | (Ok _, db') => (Ok true, db')
    | (Err e, db') => (Err e, db')
    end.

(** The order of RankOf* and TopRanks*: the better score first, then the earlier time. *)
Definition ahead (l : Leaderboard) (o e : LeaderboardRow) : bool :=
  Beats l (le_score o) (le_score e) || ((le_score o =? le_score e) && (le_achieved_at o <? le_achieved_at e)).

Definition toRanked (rank : Z) (pe : PlayerRow * LeaderboardRow) : RankedEntry :=
  mkRankedEntry rank (le_player_id pe.2) (p_nickname pe.1) (le_score pe.2) (le_achieved_at pe.2).

(** [JOIN players p ON p.id = e.player_id] *)
Definition with_player (db : DB) (e : LeaderboardRow) : option (PlayerRow * LeaderboardRow) :=
  p ← player_row (le_player_id e) db; Some (p, e).

Definition board (l : Leaderboard) (db : DB) : list LeaderboardRow := select_where T_leaderboard_entries (on_board l) db.

Definition Leaderboard_RankOf (l : Leaderboard) (playerID : uuid) (db : DB) : res RankedEntry :=
  match omap (with_player db) (select_where T_leaderboard_entries (is_entry l playerID) db) with
  | [] => Err ErrEntryNotFound
  | pe :: _ =>
      Ok (toRanked (1 + Z.of_nat (length (filter (λ o, ahead l o pe.2 = true) (board l db)))) pe)
  end.

(** Ranks are numbered from the offset. *)
Fixpoint number_from (rank : Z) (rows : list (PlayerRow * LeaderboardRow)) : list RankedEntry :=
  match rows with
  | [] => []
  | pe :: rows' => toRanked rank pe :: number_from (rank + 1) rows'
  end.

Definition Leaderboard_TopRanks (l : Leaderboard) (offset n : Z) (db : DB) : res (list RankedEntry) :=
  let lim := i32 n in
  let off := i32 offset in
  if (lim <? 0) || (off <? 0) then Err (ErrText "LIMIT/OFFSET must not be negative")
  else Ok (number_from (offset + 1) (limit lim (drop (Z.to_nat off)
         (isort (λ a b, ahead l a.2 b.2) (omap (with_player db) (board l db)))))).

(** ** The usecase (usecase/leaderboard/leaderboard.go) *)

Record LeaderboardConfig := mkLeaderboardConfig { lc_DefaultLimit : Z; lc_MaxLimit : Z; lc_MaxRadius : Z }.

(** The repository port the usecase is written against, with the transactions of its backend. *)
Class LeaderboardRepository (D : Type) := {
  repo_RW : ∀ {A}, M D A → M D A;
  repo_RO : ∀ {A}, M D A → M D A;
  repo_Submit : uuid → Leaderboard → uuid → Z → time → M D bool;
  repo_RankOf : Leaderboard → uuid → M D RankedEntry;
  repo_TopRanks : Leaderboard → Z → Z → M D (list RankedEntry);
}.

#[export] Instance pg_leaderboard : LeaderboardRepository DB := {|
  repo_RW A := RW;
  repo_RO A fn := λ db, ((fn db).1, db);
  repo_Submit := Leaderboard_Submit;
  repo_RankOf l p := λ db, (Leaderboard_RankOf l p db, db);
  repo_TopRanks l off n := λ db, (Leaderboard_TopRanks l off n db, db);
|}.

Section usecase.
Context {D : Type} {LR : LeaderboardRepository D}.
Context (defs : gmap string Leaderboard) (cfg : LeaderboardConfig).

Definition lookup_board (id : string) : res Leaderboard :=
  match defs !! id with None => Err ErrLeaderboardNotFound | Some l => Ok l end.

Definition lc_clampLimit (n : Z) : Z :=
  if n <=? 0 then lc_DefaultLimit cfg else if lc_MaxLimit cfg <? n then lc_MaxLimit cfg else n.

Definition rankOf (l : Leaderboard) (playerID : uuid) : M D RankedEntry := repo_RO (repo_RankOf l playerID).

Definition SubmitScore (id : uuid) (now : time) (leaderboardID : string) (playerID : uuid) (score : Z) : M D (RankedEntry * bool) :=
  l ← lift_res (lookup_board leaderboardID);
  improved ← repo_RW (repo_Submit id l playerID score now);
  ranked ← rankOf l playerID;
  mret (ranked, improved).

Definition ListRanks (leaderboardID : string) (offset n : Z) : M D (list RankedEntry) :=
  l ← lift_res (lookup_board leaderboardID);
  let offset := if offset <? 0 then 0 else offset in
  repo_RO (repo_TopRanks l offset (lc_clampLimit n)).

Definition GetPlayerRank (leaderboardID : string) (playerID : uuid) : M D RankedEntry :=
  l ← lift_res (lookup_board leaderboardID);
  rankOf l playerID.

Definition ListRanksAroundPlayer (leaderboardID : string) (playerID : uuid) (radius : Z) : M D (list RankedEntry) :=
  l ← lift_res (lookup_board leaderboardID);
  let radius := if radius <? 0 then 0 else radius in
  let radius := if lc_MaxRadius cfg <? radius then lc_MaxRadius cfg else radius in
  repo_RO (self ← repo_RankOf l playerID;
      let offset := re_Rank self - 1 - radius in
      let offset := if offset <? 0 then 0 else offset in
      repo_TopRanks l offset (2 * radius + 1)).
End usecase.

(** ** The sorted-set index (repository/leaderboard_valkey.go) *)

(** Valkey's commands on the board's key; [ri_Rank] is ZRANK or ZREVRANK by the board's order and
    answers [None] for a missing member. *)
Class RankIndex (V : Type) := {
  ri_Exists : string → M V bool;
  ri_Add : string → list (Z * uuid) → M V unit;
  ri_AddIfBetter : SortOrder → string → Z → uuid → M V unit;
  ri_Expire : string → M V unit;
  ri_Rank : SortOrder → string → uuid → M V (option Z);
}.

Section index.
Context {V : Type} {RI : RankIndex V}.

Definition on_pg {A} (m : M DB A) : M (DB * V) A := λ w, let '(r, db) := m w.1 in (r, (db, w.2)).
Definition on_valkey {A} (m : M V A) : M (DB * V) A := λ w, let '(r, v) := m w.2 in (r, (w.1, v)).

Definition leaderboardKey (id : string) : string := "vfx:lb:" +:+ id.

Definition rebuild (l : Leaderboard) : M (DB * V) unit :=
  rows ← on_pg (gets (board l));
  match rows with
  | [] => mret tt
  | _ =>
      _ ← on_valkey (ri_Add (leaderboardKey (lb_ID l)) (map (λ e, (le_score e, le_player_id e)) rows));
      on_valkey (ri_Expire (leaderboardKey (lb_ID l)))
  end.

Definition ensureBuilt (l : Leaderboard) : M (DB * V) unit :=
  exists_ ← on_valkey (ri_Exists (leaderboardKey (lb_ID l)));
  if (exists_ : bool) then mret tt else rebuild l.

Definition Index_Submit (id : uuid) (l : Leaderboard) (playerID : uuid) (score : Z) (now : time) : M (DB * V) bool :=
  improved ← on_pg (Leaderboard_Submit id l playerID score now);
  built ← try (ensureBuilt l);
  _ ← (if is_ok built then ignore (on_valkey (ri_AddIfBetter (lb_SortOrder l) (leaderboardKey (lb_ID l)) score playerID)) else mret tt);
  mret improved.

Definition zeroBasedRank (l : Leaderboard) (playerID : uuid) : M (DB * V) Z :=
  rank ← on_valkey (ri_Rank (lb_SortOrder l) (leaderboardKey (lb_ID l)) playerID);
  match rank with None => fail ErrEntryNotFound | Some r => mret r end.

Definition rankViaIndex (l : Leaderboard) (playerID : uuid) : M (DB * V) RankedEntry :=
  _ ← ensureBuilt l;
  rank ← zeroBasedRank l playerID;
  row ← on_pg (gets (λ db, head (omap (with_player db) (select_where T_leaderboard_entries (is_entry l playerID) db))));
  match row with
  | None => fail ErrEntryNotFound
  | Some pe => mret (toRanked (rank + 1) pe)
  end.

Definition Index_RankOf (l : Leaderboard) (playerID : uuid) : M (DB * V) RankedEntry :=
  entry ← try (rankViaIndex l playerID);
  match entry with
  | Ok entry => mret entry
  | Err err => if errors_Is err ErrEntryNotFound then fail err else on_pg (λ db, (Leaderboard_RankOf l playerID db, db))
  end.

Definition Index_TopRanks (l : Leaderboard) (offset n : Z) : M (DB * V) (list RankedEntry) :=
  on_pg (λ db, (Leaderboard_TopRanks l offset n db, db)).

(** A rollback undoes the database, not the sorted set. *)
#[export] Instance index_leaderboard : LeaderboardRepository (DB * V) :=
  {| repo_RW A fn := λ w, match fn w with (Err e, (_, v)) => (Err e, (w.1, v)) | p => p end;
     repo_RO A fn := λ w, let '(r, (_, v)) := fn w in (r, (w.1, v));
     repo_Submit := Index_Submit; repo_RankOf := Index_RankOf; repo_TopRanks := Index_TopRanks |}.
End index.

(** ** Keep-best *)

Definition entry_key (e : LeaderboardRow) : string * uuid := (le_leaderboard_id e, le_player_id e).

(** One entry per board and player, of registered players only. *)
Record boards_ok (db : DB) : Prop := {
  boards_keys : NoDup (entry_key <$> leaderboard_entries db);
  boards_players : ∀ e, e ∈ leaderboard_entries db → player_exists (le_player_id e) db = true;
}.

(** A player's current best on a board, and when it was reached. *)
Definition best (l : Leaderboard) (p : uuid) (db : DB) : option (Z * time) :=
  (λ e, (le_score e, le_achieved_at e)) <$> head (select_where T_leaderboard_entries (is_entry l p) db).

Lemma is_entry_key l p e : is_entry l p e = true ↔ entry_key e = (lb_ID l, p).
Proof. unfold is_entry, on_board, entry_key. rewrite andb_true_iff, !bool_decide_eq_true. split; [by intros [-> ->]|by intros [= -> ->]]. Qed.

Lemma best_Some l p db e :
  NoDup (entry_key <$> leaderboard_entries db) → e ∈ leaderboard_entries db → entry_key e = (lb_ID l, p) →
  best l p db = Some (le_score e, le_achieved_at e).
Proof.
  intros Hnd He Hk. unfold best, select_where. simpl. revert Hnd He.
  induction (leaderboard_entries db) as [|x es IH]; intros Hnd He; [by apply elem_of_nil in He|].
  csimpl in Hnd. apply NoDup_cons in Hnd as [Hx Hnd]. apply elem_of_cons in He as [->|He].
  - by rewrite filter_cons_True by (by apply is_entry_key).
  - rewrite filter_cons_False; [by apply IH|]. rewrite is_entry_key. intros Hkx. apply Hx.
    rewrite Hkx, <- Hk. by apply list_elem_of_fmap_2.
Qed.

Lemma best_None l p db :
  (∀ e, e ∈ leaderboard_entries db → entry_key e <> (lb_ID l, p)) → best l p db = None.
Proof.
  intros H. unfold best. destruct (select_where _ _ _) as [|e es] eqn:E; [done|]. exfalso.
  assert (e ∈ select_where T_leaderboard_entries (is_entry l p) db) as Hin by (rewrite E; left).
  apply filter_selected in Hin as [Hin Hk]. apply is_entry_key in Hk. by apply (H e).
Qed.

Lemma best_inv l p db s t :
  best l p db = Some (s, t) → ∃ e, e ∈ leaderboard_entries db ∧ entry_key e = (lb_ID l, p) ∧ le_score e = s ∧ le_achieved_at e = t.
Proof.
  unfold best. intros H. apply fmap_Some in H as (e & He & [= -> ->]).
  apply head_Some_elem_of, filter_selected in He as [He Hk]. apply is_entry_key in Hk. eauto.
Qed.

(** The current best after a submission of [s] at [t]. *)
Definition keep (l : Leaderboard) (cur : option (Z * time)) (s : Z) (t : time) : option (Z * time) :=
  match cur with
  | None => Some (s, toTimestamptz t)
  | Some (s0, t0) => if Beats l s s0 then Some (s, toTimestamptz t) else Some (s0, t0)
  end.

Definition improves (l : Leaderboard) (cur : option (Z * time)) (s : Z) : bool :=
  match cur with None => true | Some (s0, _) => Beats l s s0 end.

Lemma best_ext l p db db' :
  NoDup (entry_key <$> leaderboard_entries db) → NoDup (entry_key <$> leaderboard_entries db') →
  (∀ e, entry_key e = (lb_ID l, p) → e ∈ leaderboard_entries db ↔ e ∈ leaderboard_entries db') →
  best l p db' = best l p db.
Proof.
  intros Hnd Hnd' Hiff. destruct (best l p db) as [[s t]|] eqn:E.
  - apply best_inv in E as (e & He & Hk & <- & <-). apply best_Some; [done|by apply Hiff|done].
  - apply best_None. intros e He Hk. apply Hiff in He; [|done]. by rewrite (best_Some _ _ _ _ Hnd He Hk) in E.
Qed.

Lemma Submit_spec id l p s t db :
  boards_ok db →
  match Leaderboard_Submit id l p s t db with
  | (Ok improved, db') => boards_ok db' ∧ improved = improves l (best l p db) s ∧
      best l p db' = keep l (best l p db) s t ∧
      (∀ l' p', (lb_ID l', p') <> (lb_ID l, p) → best l' p' db' = best l' p' db)
  | (Err _, db') => db' = db
  end.
Proof.
  intros [Hnd Hpl]. unfold Leaderboard_Submit. destruct (exists_where T_leaderboard_entries (is_entry l p) db) eqn:E.
  - rewrite M_bind_eval. unfold update_where.
    set (upd := λ e, mkLeaderboardRow (le_id e) (le_leaderboard_id e) (le_player_id e) s (toTimestamptz t) (le_created_at e)).
    set (q := λ e, is_entry l p e && Beats l s (le_score e)).
    unfold exists_where in E. apply existsb_true in E as (e0 & He0 & Hk0). apply is_entry_key in Hk0.
    pose proof (best_Some l p db e0 Hnd He0 Hk0) as Hb. rewrite Hb. simpl.
    set (rows := (λ r, if q r then upd r else r) <$> leaderboard_entries db).
    assert (Hkeys : entry_key <$> rows = entry_key <$> leaderboard_entries db).
    { unfold rows. rewrite <- list_fmap_compose. apply list_fmap_ext. intros i x _. simpl. by destruct (q x). }
    assert (Hother : ∀ e, entry_key e <> (lb_ID l, p) → e ∈ rows ↔ e ∈ leaderboard_entries db).
    { intros e Hke. assert (Hq : ∀ x, q x = true → entry_key x = (lb_ID l, p)).
      { intros x Hx. apply andb_true_iff in Hx as [Hx _]. by apply is_entry_key. }
      unfold rows. rewrite list_elem_of_fmap. split.
      - intros (x & -> & Hx). destruct (q x) eqn:Eq; [|done]. destruct Hke. exact (Hq _ Eq).
      - intros He. exists e. destruct (q e) eqn:Eq; [|done]. by apply Hq in Eq. }
    assert (Hself : (if q e0 then upd e0 else e0) ∈ rows) by (by apply (list_elem_of_fmap_2 (λ r, if q r then upd r else r))).
    assert (Hq0 : q e0 = Beats l s (le_score e0)) by (unfold q; by rewrite (proj2 (is_entry_key _ _ _) Hk0)).
    assert (Hok : boards_ok (t_set T_leaderboard_entries rows db)).
    { split; simpl; [by rewrite Hkeys|]. intros e He. unfold rows in He. apply list_elem_of_fmap in He as (x & -> & Hx).
      change (player_exists (le_player_id (if q x then upd x else x)) db = true).
      destruct (q x); [change (le_player_id (upd x)) with (le_player_id x)|]; by apply Hpl. }
    assert (Hcnt : (0 <? Z.of_nat (length (select_where T_leaderboard_entries q db))) = q e0).
    { destruct (q e0) eqn:Eq.
      - apply Z.ltb_lt. assert (Hin : e0 ∈ select_where T_leaderboard_entries q db) by (by apply filter_selected).
        destruct (select_where _ _ _); [by apply elem_of_nil in Hin|simpl; lia].
      - apply Z.ltb_ge. unfold select_where. rewrite (proj2 (count_zero q _)); [done|].
        apply existsb_false. intros x Hx. destruct (q x) eqn:Ex; [|done]. exfalso.
        assert (Hkx : entry_key x = (lb_ID l, p)) by (apply andb_true_iff in Ex as [Ex _]; by apply is_entry_key).
        pose proof (best_Some l p db x Hnd Hx Hkx) as Hbx. rewrite Hb in Hbx. injection Hbx as Es _.
        unfold q in Ex, Eq. rewrite (proj2 (is_entry_key _ _ _) Hk0) in Eq. rewrite (proj2 (is_entry_key _ _ _) Hkx) in Ex.
        simpl in *. congruence. }
    split_and!; [done| | |].
    + by rewrite Hcnt.
    + etrans; [apply (best_Some l p (t_set T_leaderboard_entries rows db) _ (boards_keys _ Hok) Hself); by destruct (q e0)|].
      rewrite Hq0. by destruct (Beats _ _ _).
    + intros l' p' Hne. apply best_ext; [done|apply Hok|]. intros e He. change (e ∈ leaderboard_entries db ↔ e ∈ rows). rewrite Hother; [done|]. congruence.
  - unfold insert_row. destruct (negb (exists_where _ _ db)); simpl; [|done].
    destruct (player_exists p db) eqn:Ep; simpl; [|done].
    assert (Hno : ∀ e, e ∈ leaderboard_entries db → entry_key e <> (lb_ID l, p)).
    { intros e He Hke. unfold exists_where in E. apply is_entry_key in Hke. by rewrite (proj1 (existsb_false _ _) E e He) in Hke. }
    rewrite (best_None l p db Hno). set (row := mkLeaderboardRow _ _ _ _ _ _).
    set (db' := mkDB _ _ _ _ _ _ _ _ _ _ _ _ _ _).
    assert (Hok : boards_ok db').
    { split; simpl.
      - rewrite fmap_app. apply list.NoDup_app. split_and!; [done| |apply NoDup_singleton].
        intros k (e & -> & He)%list_elem_of_fmap Hk. apply list_elem_of_singleton in Hk. by apply (Hno e).
      - intros e [He| ->]%elem_of_snoc; [by apply Hpl|done]. }
    split_and!; [done|done| |].
    + rewrite (best_Some l p db' row (boards_keys _ Hok)); [done|apply elem_of_snoc_r|done].
    + intros l' p' Hne. apply best_ext; [done|apply Hok|]. intros e He. simpl. rewrite elem_of_snoc.
      split; [by left|]. intros [?| ->]; [done|]. unfold entry_key in He. simpl in He. congruence.
Qed.

(** A submission: the row id, the clock, the board, the player and the score. *)
Record submission := mkSubmission { sub_id : uuid; sub_now : time; sub_board : Leaderboard; sub_player : uuid; sub_score : Z }.

Definition submit (s : submission) : M DB bool :=
  RW (Leaderboard_Submit (sub_id s) (sub_board s) (sub_player s) (sub_score s) (sub_now s)).

(** The submissions the repository accepted, in order, and the database after them. *)
Fixpoint run_submits (ss : list submission) (db : DB) : list submission * DB :=
  match ss with
  | [] => ([], db)
  | s :: ss' =>
      let '(r, db1) := submit s db in
      let rest := run_submits ss' db1 in
      (if is_ok r then s :: rest.1 else rest.1, rest.2)
  end.

Definition is_for (l : Leaderboard) (p : uuid) (s : submission) : Prop :=
  lb_ID (sub_board s) = lb_ID l ∧ sub_player s = p.

#[export] Instance is_for_dec l p s : Decision (is_for l p s).
Proof. unfold is_for. apply _. Defined.

Lemma Beats_trans l a b c : Beats l a b = true → Beats l b c = true → Beats l a c = true.
Proof. unfold Beats. destruct (lb_SortOrder l); rewrite !Z.ltb_lt; lia. Qed.

Lemma Beats_asym l a b : Beats l a b = true → Beats l b a = false.
Proof. unfold Beats. destruct (lb_SortOrder l); rewrite Z.ltb_lt, Z.ltb_ge; lia. Qed.

Lemma Beats_neg_trans l a b c : Beats l a b = false → Beats l b c = false → Beats l a c = false.
Proof. unfold Beats. destruct (lb_SortOrder l); rewrite !Z.ltb_ge; lia. Qed.

Lemma Beats_total l a b : Beats l a b = false → Beats l b a = false → a = b.
Proof. unfold Beats. destruct (lb_SortOrder l); rewrite !Z.ltb_ge; lia. Qed.

(** The best after a run is the fold of the keep-best rule over the accepted submissions. *)
Lemma run_submits_best l p ss db :
  boards_ok db → (∀ s, s ∈ ss → lb_ID (sub_board s) = lb_ID l → sub_board s = l) →
  boards_ok (run_submits ss db).2 ∧
  best l p (run_submits ss db).2
    = foldl (λ cur s, keep l cur (sub_score s) (sub_now s)) (best l p db) (filter (is_for l p) (run_submits ss db).1).
Proof.
  revert db. induction ss as [|s ss IH]; intros db Hok Hb; [done|]. simpl. unfold submit. rewrite RW_eval.
  pose proof (Submit_spec (sub_id s) (sub_board s) (sub_player s) (sub_score s) (sub_now s) db Hok) as Hs.
  destruct (Leaderboard_Submit _ _ _ _ _ db) as [[improved|e] db1]; simpl.
  2: { apply IH; [done|]. intros s' Hs'. apply Hb. by right. }
  destruct Hs as (Hok1 & _ & Hbest & Hframe). destruct (IH db1 Hok1) as [Hok2 E].
  { intros s' Hs'. apply Hb. by right. }
  split; [done|]. rewrite E. destruct (decide (is_for l p s)) as [Hf|Hf].
  - rewrite filter_cons_True by done. simpl. f_equal. destruct Hf as [Hl <-].
    assert (sub_board s = l) as El by (apply Hb; [left|done]). by rewrite El in Hbest.
  - rewrite filter_cons_False by done. f_equal. apply Hframe. intros [= ??]. by apply Hf.
Qed.

Lemma keep_fold_best l ss cur b t :
  foldl (λ cur s, keep l cur (sub_score s) (sub_now s)) cur ss = Some (b, t) →
  (∀ s, s ∈ ss → Beats l (sub_score s) b = false) ∧
  (∀ s0 t0, cur = Some (s0, t0) → Beats l s0 b = false) ∧
  (cur = Some (b, t) ∨ ∃ s, s ∈ ss ∧ b = sub_score s ∧ t = toTimestamptz (sub_now s)).
Proof.
  revert cur. induction ss as [|s ss IH]; intros cur; simpl.
  - intros ->. split_and!; [intros s; by rewrite elem_of_nil| |by left]. intros s0 t0 [= <- <-].
    unfold Beats. destruct (lb_SortOrder l); apply Z.ltb_irrefl.
  - intros H. destruct (IH _ H) as (H1 & H2 & H3). unfold keep in *.
    destruct cur as [[s0 t0]|]; [destruct (Beats l (sub_score s) s0) eqn:E|].
    + pose proof (H2 _ _ eq_refl) as Hs. split_and!.
      * intros x [->|Hx]%elem_of_cons; auto.
      * intros ? ? [= <- <-]. eapply Beats_neg_trans; [by apply Beats_asym|done].
      * right. destruct H3 as [[= <- <-]|(x & ? & ?)]; [exists s; split; [left|done]|exists x; split; [by right|done]].
    + pose proof (H2 _ _ eq_refl) as Hs. split_and!.
      * intros x [->|Hx]%elem_of_cons; [by eapply Beats_neg_trans|auto].
      * by intros ? ? [= <- <-].
      * destruct H3 as [H3|(x & ? & ?)]; [by left|right; exists x; split; [by right|done]].
    + pose proof (H2 _ _ eq_refl) as Hs. split_and!.
      * intros x [->|Hx]%elem_of_cons; auto.
      * done.
      * right. destruct H3 as [[= <- <-]|(x & ? & ?)]; [exists s; split; [left|done]|exists x; split; [by right|done]].
Qed.

(** C27: a leaderboard keeps every player's best score.  After any sequence of submissions by
    anybody to any boards, a player's stored score is one the player submitted (or had before), at
    the time of that submission, and no score accepted for the player on the board beats it, in
    the board's order. *)
Theorem leaderboard_keeps_best l p ss db b t :
  boards_ok db → (∀ s, s ∈ ss → lb_ID (sub_board s) = lb_ID l → sub_board s = l) →
  best l p (run_submits ss db).2 = Some (b, t) →
  (∀ s, s ∈ (run_submits ss db).1 → is_for l p s → Beats l (sub_score s) b = false) ∧
  (∀ s0 t0, best l p db = Some (s0, t0) → Beats l s0 b = false) ∧
  (best l p db = Some (b, t) ∨
   ∃ s, s ∈ (run_submits ss db).1 ∧ is_for l p s ∧ b = sub_score s ∧ t = toTimestamptz (sub_now s)).
Proof.
  intros Hok Hb Hbest. destruct (run_submits_best l p ss db Hok Hb) as [_ E]. rewrite E in Hbest.
  apply keep_fold_best in Hbest as (H1 & H2 & H3). split_and!.
  - intros s Hs Hf. apply H1. by apply list_elem_of_filter.
  - done.
  - destruct H3 as [?|(s & Hs & ?)]; [by left|]. apply list_elem_of_filter in Hs as [? ?]. right. eauto 6.
Qed.

(** a submission's verdict is exact: [improved] says whether the score beat the player's
    previous best; the player's best becomes the better of the two and keeps its earlier time when
    it was not beaten; no other player's and no other board's entry changes; and a rejected
    submission changes nothing. *)
Theorem submit_verdict id l p s t db :
  boards_ok db →
  match Leaderboard_Submit id l p s t db with
  | (Ok improved, db') =>
      improved = match best l p db with None => true | Some (s0, _) => Beats l s s0 end ∧
      best l p db' = (if improved then Some (s, toTimestamptz t) else best l p db) ∧
      (∀ l' p', (lb_ID l', p') <> (lb_ID l, p) → best l' p' db' = best l' p' db)
  | (Err _, db') => db' = db
  end.
Proof.
  intros Hok. pose proof (Submit_spec id l p s t db Hok) as H.
  destruct (Leaderboard_Submit id l p s t db) as [[improved|e] db']; [|done].
  destruct H as (_ & -> & -> & H). split_and!; [by destruct (best l p db) as [[]|]| |done].
  unfold keep, improves. by destruct (best l p db) as [[s0 t0]|]; [destruct (Beats l s s0)|].
Qed.

(** ** Ranks *)

Lemma ahead_irrefl l e : ahead l e e = false.
Proof.
  unfold ahead. rewrite Z.ltb_irrefl, andb_false_r, orb_false_r.
  unfold Beats. destruct (lb_SortOrder l); apply Z.ltb_irrefl.
Qed.

Lemma ahead_true l x y :
  ahead l x y = true ↔ Beats l (le_score x) (le_score y) = true ∨ (le_score x = le_score y ∧ le_achieved_at x < le_achieved_at y).
Proof. unfold ahead. by rewrite orb_true_iff, andb_true_iff, Z.eqb_eq, Z.ltb_lt. Qed.

Lemma ahead_asym l x y : ahead l x y = true → ahead l y x = false.
Proof.
  intros H. destruct (ahead l y x) eqn:E; [|done]. apply ahead_true in H, E. exfalso. unfold Beats in *.
  destruct (lb_SortOrder l); rewrite !Z.ltb_lt in *; lia.
Qed.

Lemma ahead_neg_trans l x y z : ahead l y x = false → ahead l z y = false → ahead l z x = false.
Proof.
  intros H1 H2. destruct (ahead l z x) eqn:E; [|done]. rewrite <- not_true_iff_false in H1, H2.
  rewrite !ahead_true in H1, H2. apply ahead_true in E. exfalso. unfold Beats in *.
  destruct (lb_SortOrder l); rewrite !Z.ltb_lt in *; lia.
Qed.

Definition rank_key (e : LeaderboardRow) : Z * time := (le_score e, le_achieved_at e).

Lemma ahead_total l x y : rank_key x <> rank_key y → ahead l x y = false → ahead l y x = true.
Proof.
  intros Hne H. apply ahead_true. rewrite <- not_true_iff_false, ahead_true in H. unfold rank_key in Hne. unfold Beats in *.
  destruct (lb_SortOrder l); rewrite !Z.ltb_lt in *; destruct (Z.eq_dec (le_score x) (le_score y)) as [E|E];
    try (rewrite E in *); try lia; right; (split; [done|]);
    destruct (Z.eq_dec (le_achieved_at x) (le_achieved_at y)); try congruence; lia.
Qed.

(** In a list sorted by [ahead] with distinct keys, an element's position is the number of
    elements ahead of it. *)
Lemma position_is_rank l (S : list LeaderboardRow) i x :
  StronglySorted (not_after (ahead l)) S → NoDup (rank_key <$> S) → S !! i = Some x →
  length (filter (λ o, ahead l o x = true) S) = i.
Proof.
  intros Hs. revert i. induction Hs as [|y S Hs IH Hy]; intros i Hnd Hi; [done|].
  csimpl in Hnd. apply NoDup_cons in Hnd as [Hni Hnd]. rewrite list.Forall_forall in Hy. destruct i as [|i].
  - injection Hi as ->. rewrite filter_cons_False by (by rewrite ahead_irrefl).
    destruct (filter _ S) as [|o l'] eqn:E; [done|]. exfalso.
    assert (o ∈ filter (λ o, ahead l o x = true) S) as Ho by (rewrite E; left).
    apply filter_selected in Ho as [Ho Ha]. specialize (Hy o Ho). unfold not_after in Hy. congruence.
  - simpl in Hi. pose proof (list_elem_of_lookup_2 _ _ _ Hi) as Hx. specialize (Hy x Hx). unfold not_after in Hy.
    rewrite filter_cons_True; [simpl; f_equal; by apply IH|].
    apply ahead_total; [|done]. intros E. apply Hni. rewrite <- E. by apply list_elem_of_fmap_2.
Qed.

Lemma number_from_lookup rank rows i :
  number_from rank rows !! i = toRanked (rank + Z.of_nat i) <$> rows !! i.
Proof.
  revert rank i. induction rows as [|r rows IH]; intros rank [|i]; simpl; [done|done|by rewrite Z.add_0_r|].
  rewrite IH. do 2 f_equal. lia.
Qed.

Lemma isort_fmap {A B} (f : A → B) (lessA : A → A → bool) (lessB : B → B → bool) (xs : list A) :
  (∀ x y, lessA x y = lessB (f x) (f y)) → f <$> isort lessA xs = isort lessB (f <$> xs).
Proof.
  intros H. induction xs as [|x xs IH]; [done|]. csimpl. rewrite <- IH. clear IH.
  induction (isort lessA xs) as [|y ys IH]; [done|]. csimpl. rewrite H.
  destruct (lessB (f y) (f x)); [csimpl; by rewrite IH|done].
Qed.

(** With every player registered, the join only adds the names. *)
Lemma join_entries db (es : list LeaderboardRow) :
  (∀ e, e ∈ es → player_exists (le_player_id e) db = true) → snd <$> omap (with_player db) es = es.
Proof.
  induction es as [|e es IH]; intros H; [done|]. csimpl.
  destruct (proj2 (player_row_exists (le_player_id e) db) (H e ltac:(left))) as [p Hp].
  unfold with_player at 1. rewrite Hp. csimpl. f_equal. apply IH. intros x Hx. apply H. by right.
Qed.

Lemma join_name db (es : list LeaderboardRow) pe : pe ∈ omap (with_player db) es → player_row (le_player_id pe.2) db = Some pe.1.
Proof. intros (e & He & Hp)%list_elem_of_omap. by apply bind_Some in Hp as (p & Hp & [= <-]). Qed.

(** The listing of a whole board. *)
Definition ranking (l : Leaderboard) (db : DB) : list (PlayerRow * LeaderboardRow) :=
  isort (λ a b, ahead l a.2 b.2) (omap (with_player db) (board l db)).

Lemma RankOf_position l p db e :
  boards_ok db → NoDup (rank_key <$> board l db) → Leaderboard_RankOf l p db = Ok e →
  ∃ i pe, ranking l db !! i = Some pe ∧ e = toRanked (1 + Z.of_nat i) pe ∧ re_PlayerID e = p.
Proof.
  intros [Hkeys Hpl] Hnd. unfold Leaderboard_RankOf.
  destruct (omap (with_player db) (select_where T_leaderboard_entries (is_entry l p) db)) as [|pe l0] eqn:E; [done|].
  intros [= <-].
  assert (Hpe : pe ∈ omap (with_player db) (select_where T_leaderboard_entries (is_entry l p) db)) by (rewrite E; left).
  pose proof Hpe as Hpe'. apply list_elem_of_omap in Hpe as (e0 & He0 & Hw). apply bind_Some in Hw as (pl & Hpl0 & [= <-]).
  apply filter_selected in He0 as [He0 Hk]. pose proof Hk as Hk'. apply andb_true_iff in Hk' as [Hob _].
  assert (Hin : (pl, e0) ∈ ranking l db).
  { unfold ranking. apply elem_of_isort, list_elem_of_omap. exists e0. split; [by apply filter_selected|].
    unfold with_player. by rewrite Hpl0. }
  apply list_elem_of_lookup in Hin as [i Hi]. exists i, (pl, e0). split; [done|]. apply is_entry_key in Hk.
  split; [|unfold toRanked; simpl; by injection Hk].
  do 3 f_equal. simpl.
  assert (Hjoin : snd <$> omap (with_player db) (board l db) = board l db).
  { apply join_entries. intros x Hx. apply filter_selected in Hx as [Hx _]. by apply Hpl. }
  assert (Hsort : snd <$> ranking l db = isort (ahead l) (board l db)).
  { unfold ranking. by rewrite (isort_fmap snd _ (ahead l)), Hjoin. }
  assert (Hsi : isort (ahead l) (board l db) !! i = Some e0) by (by rewrite <- Hsort, list_lookup_fmap, Hi).
  rewrite <- (position_is_rank l (isort (ahead l) (board l db)) i e0 (isort_sorted _ (ahead_asym l) (ahead_neg_trans l) _)); [|by rewrite isort_perm|done].
  by rewrite isort_perm.
Qed.

Lemma join_length db (es : list LeaderboardRow) : (length (omap (with_player db) es) ≤ length es)%nat.
Proof. induction es as [|e es IH]; [done|]. csimpl. destruct (with_player db e); simpl; lia. Qed.

Lemma TopRanks_at_rank l p db e off n :
  boards_ok db → NoDup (rank_key <$> board l db) → Leaderboard_RankOf l p db = Ok e →
  0 ≤ off < 2147483648 → 0 ≤ n < 2147483648 → off < re_Rank e ≤ off + n →
  ∃ rows, Leaderboard_TopRanks l off n db = Ok (number_from (off + 1) rows) ∧
    number_from (off + 1) rows !! Z.to_nat (re_Rank e - 1 - off) = Some e.
Proof.
  intros Hok Hnd Hr Hoff Hn Hin. destruct (RankOf_position l p db e Hok Hnd Hr) as (i & pe & Hi & -> & _).
  unfold Leaderboard_TopRanks. rewrite !i32_small by lia.
  rewrite (proj2 (Z.ltb_ge n 0)), (proj2 (Z.ltb_ge off 0)) by lia. simpl. eexists. split; [done|].
  rewrite number_from_lookup. fold (ranking l db). unfold limit. simpl in Hin.
  rewrite lookup_take_lt by lia. rewrite lookup_drop.
  cbn [re_Rank toRanked].
  replace (Z.to_nat off + Z.to_nat (1 + Z.of_nat i - 1 - off))%nat with i by lia.
  rewrite Hi. simpl. do 2 f_equal. lia.
Qed.

(** the counted rank matches the paginated one.  When no two entries of a board have the same
    score and time, any page of the listing that covers a player's rank shows, at that rank, the
    very entry RankOf returns for the player. *)
Theorem RankOf_matches_TopRanks l p db e off n :
  boards_ok db → NoDup (rank_key <$> board l db) → Leaderboard_RankOf l p db = Ok e →
  0 ≤ off < 2147483648 → 0 ≤ n < 2147483648 → off < re_Rank e ≤ off + n →
  ∃ out, Leaderboard_TopRanks l off n db = Ok out ∧ out !! Z.to_nat (re_Rank e - 1 - off) = Some e.
Proof.
  intros Hok Hnd Hr Hoff Hn Hin. destruct (TopRanks_at_rank l p db e off n Hok Hnd Hr Hoff Hn Hin) as (rows & ? & ?). eauto.
Qed.

(** the window around a player contains the player: with distinct (score, time) pairs,
    ListRanksAroundPlayer returns consecutive ranks, among them exactly the entry RankOf gives the
    player. *)
Theorem around_player_contains_self defs cfg id l p radius db e :
  defs !! id = Some l → boards_ok db → NoDup (rank_key <$> board l db) →
  Z.of_nat (length (board l db)) < 1073741824 → 0 ≤ lc_MaxRadius cfg < 536870912 →
  Leaderboard_RankOf l p db = Ok e →
  ∃ out, ListRanksAroundPlayer defs cfg id p radius db = (Ok out, db) ∧ e ∈ out ∧
    ∀ i x, out !! i = Some x → ∃ first, out !! 0%nat = Some first ∧ re_Rank x = re_Rank first + Z.of_nat i.
Proof.
  intros Hdef Hok Hnd Hlen Hmax Hr. destruct (RankOf_position l p db e Hok Hnd Hr) as (i & pe & Hi & He & _).
  assert (Hib : (i < length (board l db))%nat).
  { apply lookup_lt_Some in Hi. unfold ranking in Hi. rewrite length_isort in Hi.
    pose proof (join_length db (board l db)). lia. }
  unfold ListRanksAroundPlayer, lookup_board. rewrite M_bind_eval. unfold lift_res. rewrite Hdef.
  set (r0 := if radius <? 0 then 0 else radius). set (r := if lc_MaxRadius cfg <? r0 then lc_MaxRadius cfg else r0).
  assert (Hr0 : 0 ≤ r ≤ lc_MaxRadius cfg) by (unfold r, r0; repeat case_match; to_prop; lia).
  clearbody r. clear r0. cbn [repo_RO repo_RankOf repo_TopRanks pg_leaderboard]. rewrite M_bind_eval. rewrite Hr.
  assert (Hrank : re_Rank e = 1 + Z.of_nat i) by (by rewrite He).
  set (off := if re_Rank e - 1 - r <? 0 then 0 else re_Rank e - 1 - r).
  assert (Hoff : 0 ≤ off ≤ Z.of_nat i ∧ off < re_Rank e ≤ off + (2 * r + 1)) by (unfold off; case_match; to_prop; lia).
  destruct (TopRanks_at_rank l p db e off (2 * r + 1) Hok Hnd Hr) as (rows & Ht & Hl); [lia..|].
  rewrite Ht. eexists. split; [done|]. split; [by eapply list_elem_of_lookup_2|].
  intros j x. rewrite number_from_lookup. intros (row & Hrow & ->)%fmap_Some. destruct rows as [|row0 rows]; [done|].
  eexists. split; [done|]. simpl. lia.
Qed.

(** ** The index falls back *)

(** an outage of the sorted set only costs performance: when its commands fail, a submission
    and a rank lookup answer exactly as the database alone does, and write the same rows. *)
Theorem index_outage_harmless {V : Type} {RI : RankIndex V} (db : DB) (v : V) outage id l p s now :
  (∀ key v, ri_Exists key v = (Err outage, v)) → errors_Is outage ErrEntryNotFound = false →
  Index_RankOf l p (db, v) = (Leaderboard_RankOf l p db, (db, v)) ∧
  Index_Submit id l p s now (db, v) = (result (Leaderboard_Submit id l p s now db), (state (Leaderboard_Submit id l p s now db), v)).
Proof.
  intros Hex Hne. split.
  - unfold Index_RankOf, rankViaIndex, ensureBuilt. rewrite M_bind_eval. unfold try. rewrite !M_bind_eval.
    unfold on_valkey. simpl. rewrite Hex. by rewrite Hne.
  - unfold Index_Submit, on_pg, result, state. rewrite M_bind_eval. simpl.
    destruct (Leaderboard_Submit id l p s now db) as [[improved|e] db']; simpl; [|done].
    rewrite M_bind_eval. unfold try, ensureBuilt. rewrite M_bind_eval. unfold on_valkey. simpl. by rewrite Hex.
Qed.

(** ** Evaluated instances *)

Definition demo_board : Leaderboard := mkLeaderboard "weekly" Descending.

Definition demo_board_db : DB :=
  T_players.(t_set) ((λ b, mkPlayerRow (sample_uuid b) None 0 0) <$> [x0a; x0b; x0c]) emptyDB.

Lemma demo_boards_ok : boards_ok demo_board_db.
Proof. split; [constructor|]. intros e He. by apply elem_of_nil in He. Qed.

Definition demo_submits : list submission :=
  [mkSubmission (sample_uuid x01) 1000 demo_board (sample_uuid x0a) 50;
   mkSubmission (sample_uuid x02) 2000 demo_board (sample_uuid x0b) 70;
   mkSubmission (sample_uuid x03) 3000 demo_board (sample_uuid x0a) 60;
   mkSubmission (sample_uuid x04) 4000 demo_board (sample_uuid x0a) 55;
   mkSubmission (sample_uuid x05) 5000 demo_board (sample_uuid x0c) 60].

Definition demo_ranked_db : DB := (run_submits demo_submits demo_board_db).2.

Lemma demo_one_board : ∀ s, s ∈ demo_submits → lb_ID (sub_board s) = lb_ID demo_board → sub_board s = demo_board.
Proof.
  refine (proj1 (list.Forall_forall (λ s, lb_ID (sub_board s) = lb_ID demo_board → sub_board s = demo_board) demo_submits) _).
  by_compute.
Qed.

Lemma demo_ranked_ok : boards_ok demo_ranked_db.
Proof. exact (proj1 (run_submits_best demo_board (sample_uuid x0a) demo_submits demo_board_db demo_boards_ok demo_one_board)). Qed.

Lemma demo_distinct : NoDup (rank_key <$> board demo_board demo_ranked_db).
Proof. by_compute. Qed.

Lemma leaderboard_keeps_best_witness :
  best demo_board (sample_uuid x0a) demo_ranked_db = Some (60, 3000) ∧ Beats demo_board 55 60 = false.
Proof.
  assert (E : best demo_board (sample_uuid x0a) demo_ranked_db = Some (60, 3000)) by (vm_compute; reflexivity).
  split; [exact E|].
  refine (proj1 (leaderboard_keeps_best demo_board (sample_uuid x0a) demo_submits demo_board_db 60 3000 demo_boards_ok demo_one_board E)
    (mkSubmission (sample_uuid x04) 4000 demo_board (sample_uuid x0a) 55) _ _); [|split; reflexivity].
  rewrite list_elem_of_In. vm_compute. right. right. right. left. reflexivity.
Defined.

Lemma submit_verdict_witness :
  result (Leaderboard_Submit (sample_uuid x06) demo_board (sample_uuid x0b) 65 9000 demo_ranked_db) = Ok false ∧
  best demo_board (sample_uuid x0b) (state (Leaderboard_Submit (sample_uuid x06) demo_board (sample_uuid x0b) 65 9000 demo_ranked_db))
    = Some (70, 2000).
Proof.
  assert (H := submit_verdict (sample_uuid x06) demo_board (sample_uuid x0b) 65 9000 demo_ranked_db demo_ranked_ok).
  assert (Er : result (Leaderboard_Submit (sample_uuid x06) demo_board (sample_uuid x0b) 65 9000 demo_ranked_db) = Ok false)
    by (vm_compute; reflexivity).
  split; [exact Er|]. unfold result, state in *.
  destruct (Leaderboard_Submit (sample_uuid x06) demo_board (sample_uuid x0b) 65 9000 demo_ranked_db) as [r db'].
  cbn [fst] in Er. subst r. destruct H as (_ & Hb & _). cbn [snd]. rewrite Hb. vm_compute. reflexivity.
Defined.

(** A ranks second: 60 points at 3000, before C's 60 points at 5000. *)
Lemma RankOf_matches_TopRanks_witness :
  ∃ out, Leaderboard_TopRanks demo_board 1 2 demo_ranked_db = Ok out ∧
    out !! 0%nat = Some (mkRankedEntry 2 (sample_uuid x0a) None 60 3000).
Proof.
  apply (RankOf_matches_TopRanks demo_board (sample_uuid x0a) demo_ranked_db
    (mkRankedEntry 2 (sample_uuid x0a) None 60 3000) 1 2 demo_ranked_ok demo_distinct);
    [vm_compute; reflexivity|lia|lia|simpl; lia].
Defined.

Definition demo_defs : gmap string Leaderboard := {[ "weekly" := demo_board ]}.

Lemma around_player_contains_self_witness :
  ∃ out, ListRanksAroundPlayer demo_defs (mkLeaderboardConfig 50 200 100) "weekly" (sample_uuid x0c) 1 demo_ranked_db
      = (Ok out, demo_ranked_db) ∧ mkRankedEntry 3 (sample_uuid x0c) None 60 5000 ∈ out.
Proof.
  destruct (around_player_contains_self demo_defs (mkLeaderboardConfig 50 200 100) "weekly" demo_board (sample_uuid x0c) 1
    demo_ranked_db (mkRankedEntry 3 (sample_uuid x0c) None 60 5000)) as (out & H1 & H2 & _);
    [vm_compute; reflexivity|apply demo_ranked_ok|apply demo_distinct|apply Z.ltb_lt; vm_compute; reflexivity|simpl; lia
    |vm_compute; reflexivity|].
  exists out. split; [exact H1|exact H2].
Defined.

(** A sorted set whose server is down. *)
Definition down : RankIndex unit := {|
  ri_Exists _ := fail (ErrText "dial"); ri_Add _ _ := fail (ErrText "dial"); ri_AddIfBetter _ _ _ _ := fail (ErrText "dial");
  ri_Expire _ := fail (ErrText "dial"); ri_Rank _ _ _ := fail (ErrText "dial") |}.

Lemma index_outage_harmless_witness :
  result (@Index_RankOf unit down demo_board (sample_uuid x0a) (demo_ranked_db, tt)) = Ok (mkRankedEntry 2 (sample_uuid x0a) None 60 3000).
Proof.
  destruct (@index_outage_harmless unit down demo_ranked_db tt (ErrText "dial") (sample_uuid x09) demo_board (sample_uuid x0a) 1 1)
    as [H _]; [intros key v; reflexivity|vm_compute; reflexivity|].
  rewrite H. vm_compute. reflexivity.
Defined.

(** Two entries with the same score and time: the counted rank of both is 1, the listing gives one
    of them rank 2. *)
Example tied_rank_differs :
  let db := (run_submits [mkSubmission (sample_uuid x01) 1000 demo_board (sample_uuid x0a) 50;
                          mkSubmission (sample_uuid x02) 1000 demo_board (sample_uuid x0b) 50] demo_board_db).2 in
  re_Rank <$> match Leaderboard_RankOf demo_board (sample_uuid x0b) db with Ok e => [e] | Err _ => [] end = [1] ∧
  match Leaderboard_TopRanks demo_board 0 10 db with Ok es => (λ e, (re_Rank e, re_PlayerID e)) <$> es | Err _ => [] end
    = [(1, sample_uuid x0a); (2, sample_uuid x0b)].
Proof. vm_compute. done. Qed.

(** A sorted set that missed a write answers "no entry" for a player who has one. *)
Definition stale : RankIndex unit := {|
  ri_Exists _ := mret true; ri_Add _ _ := mret tt; ri_AddIfBetter _ _ _ _ := mret tt; ri_Expire _ := mret tt;
  ri_Rank _ _ _ := mret None |}.

Example stale_index_hides_entry :
  result (@Index_RankOf unit stale demo_board (sample_uuid x0a) (demo_ranked_db, tt)) = Err ErrEntryNotFound ∧
  is_ok (Leaderboard_RankOf demo_board (sample_uuid x0a) demo_ranked_db) = true.
Proof. vm_compute. done. Qed.
