(* ===== verification/LeaderboardIndex.v ===== *)
(** * The sorted-set index against the database (infra/repository/leaderboard_valkey.go)

    [Leaderboard] takes the commands of the index as parameters.  Here is what they do to a sorted
    set, and what follows: as long as the server answers, [index_exact], the index gives the verdicts
    and the ranks of the database, at a fraction of the cost; only players with equal scores can be
    told apart differently ([index_ties_by_id]).  A ZSET keeps float64 scores: the theorem asks for
    scores below 2^53 in absolute value, and [index_loses_precision] is what happens above. *)

From S2P Require Import Prelude GoBase Database Leaderboard.

(** ** Integers as float64 *)

Lemma digits2_size m : digits2_pos m = Pos.size m.
Proof. induction m; cbn; congruence. Qed.

Lemma digits_lower m : 2 ^ (Zpos (digits2_pos m) - 1) ≤ Zpos m.
Proof.
  rewrite digits2_size. pose proof (Pos.size_le m) as H. apply Pos2Z.pos_le_pos in H. rewrite Pos2Z.inj_pow, (Pos2Z.inj_xO m) in H.
  rewrite (Z.sub_1_r (Zpos _)). assert (Zpos (Pos.size m) = Z.succ (Z.pred (Zpos (Pos.size m)))) as E by lia.
  rewrite E, Z.pow_succ_r in H by lia. lia.
Qed.

Lemma digits_upper m : Zpos m < 2 ^ Zpos (digits2_pos m).
Proof. rewrite digits2_size, <- Pos2Z.inj_pow. apply Pos2Z.pos_lt_pos, Pos.size_gt. Qed.

Lemma digits_shift m d : digits2_pos (Pos.iter xO m d) = (digits2_pos m + d)%positive.
Proof.
  induction d as [|d IH] using Pos.peano_ind; [cbn; lia|]. rewrite Pos.iter_succ. cbn. rewrite IH. lia.
Qed.

Lemma shift_value m d : Zpos (Pos.iter xO m d) = Zpos m * 2 ^ Zpos d.
Proof.
  induction d as [|d IH] using Pos.peano_ind; [cbn; lia|]. rewrite Pos.iter_succ, Pos2Z.inj_succ, Z.pow_succ_r by lia.
  rewrite Pos2Z.inj_xO, IH. lia.
Qed.

(** An integer below 2^53 is its mantissa, shifted up to 53 bits. *)
Lemma round_exact s m : Zpos m < 2 ^ 53 →
  ∃ m', binary_round 53 1024 s m 0 = S754_finite s m' (Zpos (digits2_pos m) - 53) ∧ Zpos m' = Zpos m * 2 ^ (53 - Zpos (digits2_pos m)).
Proof.
  intros Hm. assert (Hd : Zpos (digits2_pos m) ≤ 53).
  { destruct (Z.le_gt_cases (Zpos (digits2_pos m)) 53) as [|H]; [done|]. exfalso. pose proof (digits_lower m).
    assert (2 ^ 53 ≤ 2 ^ (Zpos (digits2_pos m) - 1)) by (apply Z.pow_le_mono_r; lia). lia. }
  assert (Hfexp : fexp 53 1024 (Zpos (digits2_pos m)) = Zpos (digits2_pos m) - 53) by (unfold fexp, emin; lia).
  set (d := Zpos (digits2_pos m)) in *.
  assert (∃ m', shl_align m 0 (d - 53) = (m', d - 53) ∧ Zpos m' = Zpos m * 2 ^ (53 - d) ∧ Zpos (digits2_pos m') = 53) as (m' & Ha & Hv & Hdig).
  { unfold shl_align. destruct (Z.eq_dec d 53) as [E|E].
    - exists m. rewrite E. cbn. split_and!; [done|lia|done].
    - destruct (d - 53 - 0) as [|p|p] eqn:Ep; [lia|lia|]. exists (Pos.iter xO m p). split; [done|].
      rewrite shift_value, digits_shift. replace (53 - d) with (Zpos p) by lia. split; [done|]. unfold d in *. lia. }
  exists m'. split; [|done]. unfold binary_round. rewrite Z.add_0_r. fold d. rewrite Hfexp, Ha.
  assert (Hs : shr_fexp 53 1024 (Zpos m') (d - 53) loc_Exact = (Build_shr_record (Zpos m') false false, d - 53)).
  { unfold shr_fexp, shr. cbn [Zdigits2]. rewrite Hdig. replace (53 + (d - 53)) with d by lia. rewrite Hfexp. by replace (d - 53 - (d - 53)) with 0 by lia. }
  unfold binary_round_aux. rewrite Hs. cbn [shr_m loc_of_shr_record round_nearest_even]. rewrite Hs. cbn [shr_m].
  destruct (Z.leb_spec (d - 53) (1024 - 53)); [done|lia].
Qed.

Lemma mantissa_compare m n m' n' : Zpos m < 2 ^ 53 → Zpos n < 2 ^ 53 →
  Zpos m' = Zpos m * 2 ^ (53 - Zpos (digits2_pos m)) → Zpos n' = Zpos n * 2 ^ (53 - Zpos (digits2_pos n)) →
  match Zpos (digits2_pos m) - 53 ?= Zpos (digits2_pos n) - 53 with Lt => Lt | Gt => Gt | Eq => Pos.compare_cont Eq m' n' end = (Zpos m ?= Zpos n).
Proof.
  intros Hm Hn Em En. pose proof (digits_lower m) as Lm. pose proof (digits_upper m) as Um. pose proof (digits_lower n) as Ln. pose proof (digits_upper n) as Un.
  set (d := Zpos (digits2_pos m)) in *. set (e := Zpos (digits2_pos n)) in *. change (Pos.compare_cont Eq m' n') with (m' ?= n')%positive.
  symmetry. destruct (Z.compare_spec (d - 53) (e - 53)) as [H|H|H].
  - replace e with d in En by lia. change (m' ?= n')%positive with (Zpos m' ?= Zpos n'). rewrite Em, En.
    destruct (Z.le_gt_cases d 53) as [Hd|Hd]; [|exfalso; rewrite Z.pow_neg_r in Em by lia; lia].
    apply Zmult_compare_compat_r, Z.lt_gt, Z.pow_pos_nonneg; lia.
  - apply Z.compare_lt_iff. assert (2 ^ d ≤ 2 ^ (e - 1)) by (apply Z.pow_le_mono_r; lia). lia.
  - apply Z.compare_gt_iff. assert (2 ^ e ≤ 2 ^ (d - 1)) by (apply Z.pow_le_mono_r; lia). lia.
Qed.

Definition exact_score (z : Z) : Prop := Z.abs z < 2 ^ 53.

Lemma f64_compare a b : exact_score a → exact_score b → SFcompare (f64_of_Z a) (f64_of_Z b) = Some (a ?= b).
Proof.
  unfold exact_score, f64_of_Z, binary_normalize. intros Ha Hb.
  destruct a as [|a|a]; [|destruct (round_exact false a ltac:(lia)) as (ma & -> & Ea)|destruct (round_exact true a ltac:(lia)) as (ma & -> & Ea)];
    (destruct b as [|b|b]; [|destruct (round_exact false b ltac:(lia)) as (mb & -> & Eb)|destruct (round_exact true b ltac:(lia)) as (mb & -> & Eb)]);
    try done; cbn [SFcompare].
  - by rewrite (mantissa_compare a b) by (done || lia).
  - pose proof (mantissa_compare a b ma mb ltac:(lia) ltac:(lia) Ea Eb) as H. change (Zneg a ?= Zneg b) with (CompOpp (Zpos a ?= Zpos b)). rewrite <- H. by destruct (_ - 53 ?= _ - 53).
Qed.

Lemma f64_ltb_exact a b : exact_score a → exact_score b → f64_ltb (f64_of_Z a) (f64_of_Z b) = (a <? b).
Proof. intros Ha Hb. unfold f64_ltb, SFltb, Z.ltb. rewrite f64_compare by done. by destruct (a ?= b). Qed.

Lemma f64_eqb_exact a b : exact_score a → exact_score b → f64_eqb (f64_of_Z a) (f64_of_Z b) = (a =? b).
Proof.
  intros Ha Hb. unfold f64_eqb, SFeqb. rewrite f64_compare by done. destruct (Z.compare_spec a b); symmetry; [by apply Z.eqb_eq|apply Z.eqb_neq; lia..].
Qed.

(** ** The sorted set *)

Notation zset := (gmap uuid float64).

Section sets.
Context {U : UuidCodec}.

(** The order of a sorted set: by score, members with one score by their bytes. *)
Definition zbefore (a b : uuid * float64) : bool := f64_ltb a.2 b.2 || (f64_eqb a.2 b.2 && str_ltb (uuid_String a.1) (uuid_String b.1)).

(** ZRANK counts the members before, ZREVRANK those after; neither answers for a missing member. *)
Definition zrank (order : SortOrder) (z : zset) (p : uuid) : option Z :=
  match z !! p with
  | None => None
  | Some x => Some (Z.of_nat (length (filter (λ m, match order with Ascending => zbefore m (p, x) | Descending => zbefore (p, x) m end = true) (map_to_list z))))
  end.

(** ZADD. *)
Definition zadd (z : zset) (l : list (Z * uuid)) : zset := foldl (λ z e, <[e.2 := f64_of_Z e.1]> z) z l.

(** ZADD with LT or GT: a member is added, or moved to a better score. *)
Definition zadd_better (order : SortOrder) (z : zset) (score : Z) (p : uuid) : zset :=
  match z !! p with
  | Some x => if (match order with Ascending => f64_ltb (f64_of_Z score) x | Descending => f64_ltb x (f64_of_Z score) end) then <[p := f64_of_Z score]> z else z
  | None => <[p := f64_of_Z score]> z
  end.

(** A server that answers every command, on [sorted_set]; a set without members is no key. *)
Class RankIndexUp (V : Type) {RI : RankIndex V} := {
  sorted_set : V → string → zset;
  up_Exists key v : ∃ v', ri_Exists key v = (Ok (bool_decide (sorted_set v key <> ∅)), v') ∧ ∀ k, sorted_set v' k = sorted_set v k;
  up_Add key l v : ∃ v', ri_Add key l v = (Ok tt, v') ∧
    ∀ k, sorted_set v' k = if decide (k = key) then zadd (sorted_set v key) l else sorted_set v k;
  up_AddIfBetter order key score p v : ∃ v', ri_AddIfBetter order key score p v = (Ok tt, v') ∧
    ∀ k, sorted_set v' k = if decide (k = key) then zadd_better order (sorted_set v key) score p else sorted_set v k;
  up_Expire key v : ∃ v', ri_Expire key v = (Ok tt, v') ∧ ∀ k, sorted_set v' k = sorted_set v k;
  up_Rank order key p v : ∃ v', ri_Rank order key p v = (Ok (zrank order (sorted_set v key) p), v') ∧ ∀ k, sorted_set v' k = sorted_set v k;
}.

(** ** The database's side *)

(** The scores of a board. *)
Definition scores (l : Leaderboard) (db : DB) : list (uuid * Z) := (λ e, (le_player_id e, le_score e)) <$> board l db.
Definition score_set (l : Leaderboard) (db : DB) : zset := list_to_map ((λ s, (s.1, f64_of_Z s.2)) <$> scores l db).

Lemma board_keys l db : boards_ok db → NoDup (le_player_id <$> board l db).
Proof.
  intros [Hnd _]. unfold board, select_where. cbn. induction (leaderboard_entries db) as [|e es IH]; [constructor|].
  csimpl in Hnd. apply NoDup_cons in Hnd as [Hni Hnd]. destruct (on_board l e) eqn:Eb.
  - rewrite filter_cons_True by done. csimpl. apply NoDup_cons. split; [|by apply IH].
    intros (e' & Hp & He')%list_elem_of_fmap. apply filter_selected in He' as [He' Hb']. apply Hni. apply list_elem_of_fmap. exists e'. split; [|done].
    unfold entry_key. unfold on_board in Eb, Hb'. apply bool_decide_eq_true in Eb, Hb'. congruence.
  - rewrite filter_cons_False by (by rewrite Eb). by apply IH.
Qed.

Lemma scores_keys l db : boards_ok db → NoDup (scores l db).*1.
Proof. intros H. unfold scores. rewrite <- list_fmap_compose. by apply board_keys. Qed.

Lemma score_set_lookup l db p : boards_ok db → score_set l db !! p = f64_of_Z <$> (fst <$> best l p db).
Proof.
  intros Hok. destruct (best l p db) as [[s t]|] eqn:E; cbn.
  - apply best_inv in E as (e & He & Hk & <- & _). injection Hk as Hid Hp. unfold score_set. apply elem_of_list_to_map_1.
    + rewrite <- list_fmap_compose. exact (scores_keys l db Hok).
    + apply list_elem_of_fmap. exists (p, le_score e). split; [done|]. apply list_elem_of_fmap. exists e. split; [by rewrite Hp|].
      apply filter_selected. split; [done|]. by apply bool_decide_eq_true.
  - unfold score_set. apply not_elem_of_list_to_map_1. rewrite <- list_fmap_compose. intros (s & -> & Hs)%list_elem_of_fmap.
    apply list_elem_of_fmap in Hs as (e & -> & He). apply filter_selected in He as [He Hb]. apply bool_decide_eq_true in Hb. cbn in E.
    rewrite (best_Some l (le_player_id e) db e) in E; [done|apply Hok|done|by unfold entry_key; rewrite Hb].
Qed.

Lemma zadd_union l z : NoDup l.*2 → zadd z l = list_to_map ((λ e, (e.2, f64_of_Z e.1)) <$> l) ∪ z.
Proof.
  revert z. induction l as [|[s p] l IH]; intros z Hnd; [cbn; by rewrite (left_id_L ∅ (∪))|]. csimpl in Hnd. apply NoDup_cons in Hnd as [Hni Hnd].
  unfold zadd in *. cbn [foldl fst snd]. rewrite IH by done. csimpl. rewrite <- insert_union_l. symmetry. apply insert_union_r.
  apply not_elem_of_list_to_map_1. rewrite <- list_fmap_compose. exact Hni.
Qed.

Lemma rebuilt l db : boards_ok db → zadd ∅ (map (λ e, (le_score e, le_player_id e)) (board l db)) = score_set l db.
Proof.
  intros Hok. rewrite zadd_union.
  - rewrite (right_id_L ∅ (∪)). unfold score_set, scores. f_equal. rewrite <- list_fmap_compose.
    change (map ?f ?x) with (f <$> x). rewrite <- list_fmap_compose. done.
  - change (map ?f ?x) with (f <$> x). rewrite <- list_fmap_compose. exact (board_keys l db Hok).
Qed.

Lemma length_filter_ext {A} (f g : A → bool) (xs : list A) : (∀ x, x ∈ xs → f x = g x) →
  length (filter (λ x, f x = true) xs) = length (filter (λ x, g x = true) xs).
Proof.
  induction xs as [|x xs IH]; intros H; [done|]. rewrite !filter_cons, (H x) by left.
  destruct (decide (g x = true)); cbn; rewrite IH by (intros y Hy; apply H; by right); done.
Qed.

Lemma length_filter_fmap {A B} (f : A → B) (g : B → bool) (xs : list A) :
  length (filter (λ y, g y = true) (f <$> xs)) = length (filter (λ x, g (f x) = true) xs).
Proof. induction xs as [|x xs IH]; [done|]. csimpl. rewrite !filter_cons. destruct (decide (g (f x) = true)); cbn; by rewrite IH. Qed.

(** ** Ranks *)

(** How many entries beat [e], and how many others tie with it. *)
Definition beaten_by (l : Leaderboard) (e : LeaderboardRow) (db : DB) : nat := length (filter (λ o, Beats l (le_score o) (le_score e) = true) (board l db)).
Definition tied_with (l : Leaderboard) (e : LeaderboardRow) (db : DB) : nat :=
  length (filter (λ o, (le_score o =? le_score e) && negb (bool_decide (le_player_id o = le_player_id e)) = true) (board l db)).

(** Any order that puts the better scores first and breaks ties in any way. *)
Lemma rank_between l e db (first : LeaderboardRow → bool) :
  (∀ o, o ∈ board l db → Beats l (le_score o) (le_score e) = true → first o = true) →
  (∀ o, o ∈ board l db → first o = true → Beats l (le_score o) (le_score e) = true ∨ le_score o = le_score e ∧ le_player_id o <> le_player_id e) →
  (beaten_by l e db ≤ length (filter (λ o, first o = true) (board l db)) ≤ beaten_by l e db + tied_with l e db)%nat.
Proof.
  unfold beaten_by, tied_with. induction (board l db) as [|o os IH]; intros H1 H2; [done|].
  assert (IH' := IH (λ x Hx, H1 x (list_elem_of_further _ _ _ Hx)) (λ x Hx, H2 x (list_elem_of_further _ _ _ Hx))). clear IH.
  specialize (H1 o (list_elem_of_here _ _)). specialize (H2 o (list_elem_of_here _ _)). rewrite !filter_cons.
  destruct (decide (Beats l (le_score o) (le_score e) = true)) as [Hb|Hb], (decide (first o = true)) as [Hf|Hf]; cbn [length].
  - case_decide; cbn; lia.
  - tauto.
  - destruct (H2 Hf) as [?|[Hs Hp]]; [done|]. rewrite decide_True; [cbn; lia|]. rewrite Hs, Z.eqb_refl, bool_decide_false by done. done.
  - case_decide; cbn; lia.
Qed.

Lemma beats_irrefl l a : Beats l a a = false.
Proof. unfold Beats. destruct (lb_SortOrder l); apply Z.ltb_irrefl. Qed.

(** The entry of a player. *)
Lemma the_entry l p db e o : boards_ok db → e ∈ board l db → o ∈ board l db → le_player_id e = p → le_player_id o = p → o = e.
Proof.
  intros Hok He Ho Hpe Hpo. pose proof (board_keys l db Hok) as Hnd. apply list_elem_of_lookup in He as [i Hi], Ho as [j Hj].
  assert (i = j) as ->; [|congruence].
  apply (NoDup_lookup _ i j p Hnd); rewrite list_lookup_fmap; [by rewrite Hi; cbn; rewrite Hpe|by rewrite Hj; cbn; rewrite Hpo].
Qed.

(** What the sorted set of the exact scores answers. *)
Definition fits (l : Leaderboard) (db : DB) : Prop := ∀ e, e ∈ board l db → exact_score (le_score e).

Definition first_in_set (l : Leaderboard) (e o : LeaderboardRow) : bool :=
  let x := (le_player_id e, f64_of_Z (le_score e)) in let y := (le_player_id o, f64_of_Z (le_score o)) in
  match lb_SortOrder l with Ascending => zbefore y x | Descending => zbefore x y end.

Lemma zrank_entry l db e : boards_ok db → e ∈ board l db →
  zrank (lb_SortOrder l) (score_set l db) (le_player_id e) = Some (Z.of_nat (length (filter (λ o, first_in_set l e o = true) (board l db)))).
Proof.
  intros Hok He. unfold zrank. rewrite score_set_lookup by done.
  apply filter_selected in He as [He Hb]. apply bool_decide_eq_true in Hb.
  rewrite (best_Some l (le_player_id e) db e); [|apply Hok|done|by unfold entry_key; rewrite Hb]. cbn [fmap option_fmap option_map fst]. do 2 f_equal.
  unfold score_set. set (g := λ m : uuid * float64, match lb_SortOrder l with Ascending => zbefore m (le_player_id e, f64_of_Z (le_score e)) | Descending => zbefore (le_player_id e, f64_of_Z (le_score e)) m end).
  change (length (filter (λ m, g m = true) (map_to_list (list_to_map ((λ s : uuid * Z, (s.1, f64_of_Z s.2)) <$> scores l db) : zset)))
    = length (filter (λ o, first_in_set l e o = true) (board l db))).
  rewrite map_to_list_to_map by (rewrite <- list_fmap_compose; exact (scores_keys l db Hok)).
  unfold scores. rewrite !length_filter_fmap. by apply length_filter_ext.
Qed.

Lemma first_in_set_order l db e : boards_ok db → fits l db → e ∈ board l db → ∀ o, o ∈ board l db →
  (Beats l (le_score o) (le_score e) = true → first_in_set l e o = true) ∧
  (first_in_set l e o = true → Beats l (le_score o) (le_score e) = true ∨ le_score o = le_score e ∧ le_player_id o <> le_player_id e).
Proof.
  intros Hok Hf He o Ho. pose proof (Hf e He) as Fe. pose proof (Hf o Ho) as Fo. unfold first_in_set, zbefore, Beats. cbn [fst snd].
  assert (Hirr : ∀ x, str_ltb x x = false).
  { intros x. destruct (str_ltb x x) eqn:E; [|done]. pose proof (str_ltb_asym _ _ E). congruence. }
  destruct (lb_SortOrder l); rewrite f64_ltb_exact, f64_eqb_exact by done; (split; [by intros ->|]); rewrite orb_true_iff, andb_true_iff, Z.eqb_eq;
    (intros [?|[Hs Hlt]]; [by left|]); right; (split; [done|]); intros Hp; rewrite Hp, Hirr in Hlt; done.
Qed.

Lemma ahead_order l e o :
  (Beats l (le_score o) (le_score e) = true → ahead l o e = true) ∧
  (ahead l o e = true → le_player_id o <> le_player_id e → Beats l (le_score o) (le_score e) = true ∨ le_score o = le_score e ∧ le_player_id o <> le_player_id e).
Proof. rewrite ahead_true. tauto. Qed.
End sets.

(** ** The index repository *)

Section index.
Context {U : UuidCodec} {V : Type} {RI : RankIndex V} {RU : RankIndexUp V}.

Notation set_of l v := (sorted_set v (leaderboardKey (lb_ID l))).

(** Not built, or built and up to date. *)
Definition synced (l : Leaderboard) (w : DB * V) : Prop := set_of l w.2 = ∅ ∨ set_of l w.2 = score_set l w.1.

Definition same_others (l : Leaderboard) (v v' : V) : Prop := ∀ k, k <> leaderboardKey (lb_ID l) → sorted_set v' k = sorted_set v k.

Lemma rebuild_eval l db v : boards_ok db → set_of l v = ∅ →
  ∃ v', rebuild l (db, v) = (Ok tt, (db, v')) ∧ set_of l v' = score_set l db ∧ same_others l v v'.
Proof.
  intros Hok Hv. unfold rebuild, on_pg, gets. rewrite M_bind_eval. cbn [fst snd]. pose proof (rebuilt l db Hok) as Hr. destruct (board l db) as [|e es] eqn:Eb.
  - exists v. rewrite Hv, <- Hr. split_and!; [done..|]. by intros k Hk.
  - rewrite M_bind_eval. unfold on_valkey. cbn [fst snd].
    destruct (up_Add (leaderboardKey (lb_ID l)) (map (λ e, (le_score e, le_player_id e)) (e :: es)) v) as (v1 & E1 & H1). rewrite E1. cbn [fst snd].
    destruct (up_Expire (leaderboardKey (lb_ID l)) v1) as (v2 & E2 & H2). rewrite E2. exists v2. split; [done|]. split.
    + rewrite H2, H1, decide_True by done. by rewrite Hv.
    + intros k Hk. by rewrite H2, H1, decide_False.
Qed.

(** The database may have moved on since the set was built. *)
Lemma ensureBuilt_eval l db v : boards_ok db → ∃ v', ensureBuilt l (db, v) = (Ok tt, (db, v')) ∧ same_others l v v' ∧
  set_of l v' = if decide (set_of l v = ∅) then score_set l db else set_of l v.
Proof.
  intros Hok. unfold ensureBuilt, on_valkey. rewrite M_bind_eval. cbn [fst snd].
  destruct (up_Exists (leaderboardKey (lb_ID l)) v) as (v1 & E1 & H1). rewrite E1. case_decide as Hd.
  - rewrite bool_decide_false by (intros Hn; by apply Hn). destruct (rebuild_eval l db v1 Hok) as (v2 & E2 & H2 & H3); [by rewrite H1|].
    exists v2. split; [exact E2|]. split; [|done]. intros k Hk. by rewrite H3, H1.
  - rewrite bool_decide_true by done. exists v1. split; [done|]. split; [|by rewrite H1]. intros k Hk. by rewrite H1.
Qed.

Lemma synced_built l db v : synced l (db, v) → (if decide (set_of l v = ∅) then score_set l db else set_of l v) = score_set l db.
Proof. intros [H|H]; cbn [fst snd] in H; case_decide; congruence. Qed.

(** The row the join finds. *)
Lemma joined_row l p db : boards_ok db →
  match omap (with_player db) (select_where T_leaderboard_entries (is_entry l p) db) with
  | [] => best l p db = None
  | pe :: _ => pe.2 ∈ board l db ∧ le_player_id pe.2 = p
  end.
Proof.
  intros Hok. destruct (omap _ _) as [|pe es] eqn:E.
  - unfold best. destruct (select_where T_leaderboard_entries (is_entry l p) db) as [|e rows] eqn:Er; [done|]. exfalso. csimpl in E.
    assert (He : e ∈ select_where T_leaderboard_entries (is_entry l p) db) by (rewrite Er; left). apply filter_selected in He as [He _].
    destruct (proj2 (player_row_exists (le_player_id e) db) (boards_players _ Hok e He)) as [pl Hpl]. unfold with_player in E at 1. by rewrite Hpl in E.
  - assert (Hpe : pe ∈ omap (with_player db) (select_where T_leaderboard_entries (is_entry l p) db)) by (rewrite E; left).
    apply list_elem_of_omap in Hpe as (e & He & Hw). apply bind_Some in Hw as (pl & _ & [= <-]). apply filter_selected in He as [He Hk]. cbn [snd].
    apply andb_true_iff in Hk as [Hb Hp]. apply bool_decide_eq_true in Hp. split; [by apply filter_selected|done].
Qed.

(** The answer of the index, from the entry's row. *)
Definition index_answer (l : Leaderboard) (p : uuid) (db : DB) : res RankedEntry :=
  match omap (with_player db) (select_where T_leaderboard_entries (is_entry l p) db) with
  | [] => Err ErrEntryNotFound
  | pe :: _ => Ok (toRanked (Z.of_nat (length (filter (λ o, first_in_set l pe.2 o = true) (board l db))) + 1) pe)
  end.

Lemma RankOf_eval l p db v : boards_ok db → fits l db → synced l (db, v) →
  ∃ v', Index_RankOf l p (db, v) = (index_answer l p db, (db, v')) ∧ set_of l v' = score_set l db ∧ same_others l v v'.
Proof.
  intros Hok Hf Hs. destruct (ensureBuilt_eval l db v Hok) as (v1 & E1 & Ho1 & H1). rewrite synced_built in H1 by done.
  destruct (up_Rank (lb_SortOrder l) (leaderboardKey (lb_ID l)) p v1) as (v2 & E2 & H2). exists v2.
  split; [|split; [by rewrite H2|intros k Hk; by rewrite H2, Ho1]].
  unfold Index_RankOf, rankViaIndex, zeroBasedRank, index_answer. rewrite M_bind_eval. unfold try. rewrite M_bind_eval, E1. rewrite M_bind_eval.
  rewrite M_bind_eval. unfold on_valkey. cbn [fst snd]. rewrite E2, H1.
  pose proof (joined_row l p db Hok) as Hrow. destruct (omap (with_player db) (select_where T_leaderboard_entries (is_entry l p) db)) as [|pe es] eqn:Eo.
  - unfold zrank. rewrite score_set_lookup, Hrow by done. reflexivity.
  - destruct Hrow as [Hb <-]. rewrite (zrank_entry l db pe.2 Hok Hb). cbn [mret M_ret]. rewrite M_bind_eval. unfold on_pg, gets. cbn [fst snd]. rewrite Eo. reflexivity.
Qed.

(** ** Submissions *)

Lemma fits_best l db : boards_ok db → fits l db ↔ ∀ p s t, best l p db = Some (s, t) → exact_score s.
Proof.
  intros Hok. split.
  - intros Hf p s t (e & He & Hk & <- & _)%best_inv. apply Hf, filter_selected. split; [done|]. apply bool_decide_eq_true. by injection Hk.
  - intros H e [He Hb]%filter_selected. apply bool_decide_eq_true in Hb. apply (H (le_player_id e) _ (le_achieved_at e)).
    apply best_Some; [apply Hok|done|]. unfold entry_key. by rewrite Hb.
Qed.

Lemma score_set_ext l db db' : boards_ok db → boards_ok db' → (∀ p, best l p db' = best l p db) → score_set l db' = score_set l db.
Proof. intros H1 H2 Hb. apply map_eq. intros p. by rewrite !score_set_lookup, Hb. Qed.

(** The mirrored write, on a set built before the submission and on one built after it. *)
Lemma mirror_before l p s t db db' : boards_ok db → boards_ok db' → fits l db → exact_score s →
  best l p db' = keep l (best l p db) s t → (∀ q, q <> p → best l q db' = best l q db) →
  zadd_better (lb_SortOrder l) (score_set l db) s p = score_set l db'.
Proof.
  intros Hok Hok' Hf Hs Hp Hq. unfold zadd_better. rewrite score_set_lookup by done. apply map_eq. intros q. rewrite score_set_lookup by done.
  destruct (decide (q = p)) as [->|Hne].
  - rewrite Hp. unfold keep. destruct (best l p db) as [[s0 t0]|] eqn:Eb; cbn [fmap option_fmap option_map fst].
    + assert (F0 : exact_score s0) by (by apply (proj1 (fits_best l db Hok) Hf p s0 t0)). unfold Beats.
      destruct (lb_SortOrder l); rewrite f64_ltb_exact by done; case_match; (by rewrite lookup_insert_eq) || (by rewrite score_set_lookup, Eb).
    + by rewrite lookup_insert_eq.
  - rewrite Hq by done. destruct (_ <$> _) as [x|]; [destruct (match lb_SortOrder l with Ascending => _ | Descending => _ end)|];
      rewrite ?lookup_insert_ne by done; by rewrite score_set_lookup.
Qed.

Lemma mirror_after l p s t db db' : boards_ok db' → fits l db' → exact_score s →
  best l p db' = keep l (best l p db) s t → zadd_better (lb_SortOrder l) (score_set l db') s p = score_set l db'.
Proof.
  intros Hok' Hf Hs Hp. unfold zadd_better. rewrite score_set_lookup by done.
  assert (∃ b tb, best l p db' = Some (b, tb) ∧ Beats l s b = false) as (b & tb & Eb & Hb).
  { rewrite Hp. unfold keep. destruct (best l p db) as [[s0 t0]|]; [destruct (Beats l s s0) eqn:E|]; eexists _, _; (split; [done|]); [apply beats_irrefl|done|apply beats_irrefl]. }
  rewrite Eb. cbn [fmap option_fmap option_map fst]. assert (Fb : exact_score b) by (by apply (proj1 (fits_best l db' Hok') Hf p b tb)).
  unfold Beats in Hb. destruct (lb_SortOrder l); rewrite f64_ltb_exact by done; by rewrite Hb.
Qed.

(** ** Runs

    The boards of the deployment; submissions to them and lookups on them, and keys that vanish
    between two calls because their lifetime is over. *)
Context (defs : gmap string Leaderboard).
Definition known (l : Leaderboard) : Prop := defs !! lb_ID l = Some l.

Inductive index_op :=
  | OpSubmit (s : submission)
  | OpRank (l : Leaderboard) (p : uuid)
  | OpLapse (lapse : V → V).

Definition index_submit (s : submission) : M (DB * V) bool :=
  repo_RW (repo_Submit (sub_id s) (sub_board s) (sub_player s) (sub_score s) (sub_now s)).
Definition index_rank (l : Leaderboard) (p : uuid) : M (DB * V) RankedEntry := repo_RO (repo_RankOf l p).

Definition run_index (w : DB * V) (op : index_op) : DB * V :=
  match op with
  | OpSubmit s => (index_submit s w).2
  | OpRank l p => (index_rank l p w).2
  | OpLapse lapse => (w.1, lapse w.2)
  end.

Definition run_database (db : DB) (op : index_op) : DB := match op with OpSubmit s => (submit s db).2 | _ => db end.

Definition submission_ok (s : submission) : Prop := known (sub_board s) ∧ exact_score (sub_score s).
Definition op_ok (op : index_op) : Prop :=
  match op with
  | OpSubmit s => submission_ok s
  | OpRank l _ => known l
  | OpLapse lapse => ∀ v k, sorted_set (lapse v) k = ∅ ∨ sorted_set (lapse v) k = sorted_set v k
  end.

Record index_ok (w : DB * V) : Prop := {
  io_boards : boards_ok w.1;
  io_fits : ∀ l, known l → fits l w.1;
  io_synced : ∀ l, known l → synced l w;
}.

Lemma leaderboardKey_inj a b : leaderboardKey a = leaderboardKey b → a = b.
Proof. apply prefixed_inj. Qed.

Lemma known_apart l l' : known l → known l' → l' <> l → lb_ID l' <> lb_ID l.
Proof. unfold known. intros H H' Hne E. rewrite E in H'. congruence. Qed.

(** One operation: the invariant, the same rows, the same verdict. *)
Lemma submit_step s w : index_ok w → submission_ok s →
  (index_submit s w).1 = (submit s w.1).1 ∧ (index_submit s w).2.1 = (submit s w.1).2 ∧ index_ok (index_submit s w).2.
Proof.
  destruct w as [db v]. intros [Hok Hf Hs] [Hk Hx]. cbn [fst snd] in *. destruct s as [id now l p score]. cbn [sub_board sub_score] in Hk, Hx.
  unfold index_submit, submit. cbn [repo_RW repo_Submit index_leaderboard sub_id sub_now sub_board sub_player sub_score]. rewrite RW_eval.
  pose proof (Submit_spec id l p score now db Hok) as Hsub. unfold Index_Submit. rewrite M_bind_eval. unfold on_pg. cbn [fst snd].
  destruct (Leaderboard_Submit id l p score now db) as [[improved|e] db'] eqn:E; cbn [fst snd].
  2: { subst db'. split_and!; [done..|]. by split. }
  destruct Hsub as (Hok' & _ & Hp & Hoth).
  assert (Hsame : ∀ l', known l' → l' <> l → ∀ q, best l' q db' = best l' q db).
  { intros l' Hk' Hne q. apply Hoth. intros [= Hid _]. by apply (known_apart l l'). }
  assert (Hq : ∀ q, q <> p → best l q db' = best l q db) by (intros q Hne; apply Hoth; congruence).
  assert (Hf' : ∀ l', known l' → fits l' db').
  { intros l' Hk'. apply fits_best; [done|]. intros q b tb Hb. destruct (decide (l' = l)) as [->|Hne].
    - destruct (decide (q = p)) as [->|Hqp].
      + rewrite Hp in Hb. unfold keep in Hb. destruct (best l p db) as [[s0 t0]|] eqn:E0; [|congruence].
        pose proof (proj1 (fits_best l db Hok) (Hf l Hk) p s0 t0 E0). destruct (Beats l score s0); congruence.
      + rewrite Hq in Hb by done. by apply (proj1 (fits_best l db Hok) (Hf l Hk) q b tb).
    - rewrite (Hsame l' Hk' Hne) in Hb. by apply (proj1 (fits_best l' db Hok) (Hf l' Hk') q b tb). }
  rewrite M_bind_eval. unfold try. destruct (ensureBuilt_eval l db' v Hok') as (v1 & E1 & Ho1 & H1). rewrite E1. cbn [is_ok].
  rewrite M_bind_eval. unfold ignore, on_valkey. cbn [fst snd].
  destruct (up_AddIfBetter (lb_SortOrder l) (leaderboardKey (lb_ID l)) score p v1) as (v2 & E2 & H2). rewrite E2. cbn [mret M_ret fst snd].
  split_and!; [done..|]. split; [done..|]. intros l' Hk'. destruct (decide (l' = l)) as [->|Hne].
  - right. cbn [fst snd]. rewrite H2, decide_True by done. rewrite H1. destruct (Hs l Hk) as [Hd|Hd]; cbn [fst snd] in Hd; case_decide as Hc; try done.
    + by apply (mirror_after l p score now db db' Hok' (Hf' l Hk) Hx Hp).
    + by apply (mirror_after l p score now db db' Hok' (Hf' l Hk) Hx Hp).
    + rewrite Hd. by apply (mirror_before l p score now db db' Hok Hok' (Hf l Hk) Hx Hp Hq).
  - unfold synced. cbn [fst snd]. assert (Hkk : leaderboardKey (lb_ID l') <> leaderboardKey (lb_ID l)).
    { intros Hc%leaderboardKey_inj. by apply (known_apart l l'). }
    rewrite H2, decide_False, Ho1 by done. rewrite (score_set_ext l' db db' Hok Hok' (Hsame l' Hk' Hne)). exact (Hs l' Hk').
Qed.

Lemma rank_step l p w : index_ok w → known l →
  (index_rank l p w).1 = index_answer l p w.1 ∧ (index_rank l p w).2.1 = w.1 ∧ index_ok (index_rank l p w).2.
Proof.
  destruct w as [db v]. intros [Hok Hf Hs] Hk. cbn [fst snd] in *. unfold index_rank. cbn [repo_RO repo_RankOf index_leaderboard].
  destruct (RankOf_eval l p db v Hok (Hf l Hk) (Hs l Hk)) as (v' & E & Hv & Ho). rewrite E. cbn [fst snd]. split_and!; [done..|]. split; [done..|].
  intros l' Hk'. unfold synced. cbn [fst snd]. destruct (decide (l' = l)) as [->|Hne]; [by right|].
  rewrite Ho; [exact (Hs l' Hk')|]. intros Hc%leaderboardKey_inj. by apply (known_apart l l').
Qed.

Lemma run_index_ok ops w : index_ok w → Forall op_ok ops →
  index_ok (foldl run_index w ops) ∧ (foldl run_index w ops).1 = foldl run_database w.1 ops.
Proof.
  revert w. induction ops as [|op ops IH]; intros w Hw Hops; [done|]. apply list.Forall_cons in Hops as [Hop Hops]. cbn [foldl].
  assert (index_ok (run_index w op) ∧ (run_index w op).1 = run_database w.1 op) as [H1 H2]; [|destruct (IH _ H1 Hops) as [? ->]; by rewrite H2].
  destruct op as [s|l p|lapse]; cbn [run_index run_database op_ok] in *.
  - destruct (submit_step s w Hw Hop) as (_ & ? & ?). done.
  - destruct (rank_step l p w Hw Hop) as (_ & ? & ?). done.
  - split; [|done]. destruct Hw as [Hok Hf Hs]. split; [done..|]. intros l Hk. unfold synced in *. cbn [fst snd].
    destruct (Hop w.2 (leaderboardKey (lb_ID l))) as [->| ->]; [by left|exact (Hs l Hk)].
Qed.

(** Two answers for a player: the same row; the same rank, or one among those that tie with it. *)
Definition agree (l : Leaderboard) (p : uuid) (db : DB) (a b : res RankedEntry) : Prop :=
  match a, b with
  | Ok a, Ok b => ∃ e, e ∈ board l db ∧ le_player_id e = p ∧
      (re_PlayerID a, re_Nickname a, re_Score a, re_AchievedAt a) = (re_PlayerID b, re_Nickname b, re_Score b, re_AchievedAt b) ∧
      (∀ r, r = re_Rank a ∨ r = re_Rank b → Z.of_nat (beaten_by l e db) < r ≤ Z.of_nat (beaten_by l e db + tied_with l e db) + 1)
  | Err a, Err b => a = b
  | _, _ => False
  end.

(** No two players have one score. *)
Definition no_ties (l : Leaderboard) (db : DB) : Prop := ∀ e, e ∈ board l db → tied_with l e db = 0%nat.

Lemma agree_exact l p db a b : no_ties l db → agree l p db a b → a = b.
Proof.
  intros Hn. destruct a as [[ra pa na sa ta]|a], b as [[rb pb nb sb tb]|b]; cbn [agree re_PlayerID re_Nickname re_Score re_AchievedAt re_Rank]; [|done|done|by intros ->].
  intros (e & He & _ & [= -> -> -> ->] & Hr). rewrite (Hn e He) in Hr. pose proof (Hr ra ltac:(by left)). pose proof (Hr rb ltac:(by right)).
  do 2 f_equal. lia.
Qed.

Lemma answers_agree l p db : boards_ok db → fits l db → agree l p db (index_answer l p db) (Leaderboard_RankOf l p db).
Proof.
  intros Hok Hf. unfold agree, index_answer, Leaderboard_RankOf. pose proof (joined_row l p db Hok) as Hrow.
  destruct (omap _ _) as [|pe es]; [done|]. destruct Hrow as [Hb Hp]. exists pe.2. split_and!; [done..|].
  pose proof (rank_between l pe.2 db (first_in_set l pe.2)
    (λ o Ho, proj1 (first_in_set_order l db pe.2 Hok Hf Hb o Ho)) (λ o Ho, proj2 (first_in_set_order l db pe.2 Hok Hf Hb o Ho))) as H1.
  pose proof (rank_between l pe.2 db (λ o, ahead l o pe.2) (λ o _, proj1 (ahead_order l pe.2 o))) as H2.
  assert (H3 : ∀ o, o ∈ board l db → ahead l o pe.2 = true → Beats l (le_score o) (le_score pe.2) = true ∨ le_score o = le_score pe.2 ∧ le_player_id o <> le_player_id pe.2).
  { intros o Ho Ha. apply (proj2 (ahead_order l pe.2 o)); [done|]. intros Heq.
    rewrite (the_entry l (le_player_id pe.2) db pe.2 o Hok Hb Ho eq_refl Heq), ahead_irrefl in Ha. done. }
  specialize (H2 H3). cbn [re_Rank toRanked]. intros r [-> | ->]; lia.
Qed.

Lemma fresh_ok db v : boards_ok db → (∀ l, known l → fits l db) → (∀ k, sorted_set v k = ∅) → index_ok (db, v).
Proof. intros Hok Hf Hv. split; [done..|]. intros l _. left. apply Hv. Qed.

(** C28: the sorted set is only faster than the database.  From an index without any key, through
    submissions and lookups on the deployment's boards, and through keys that vanish between them,
    the rows written are those the database alone would have written, every further submission gets
    the verdict it would get there, and every lookup the same row or the same refusal, with the same
    rank when no two players of the board have one score, and else a rank among those the tied
    players share.  The sorted set's server has to answer, and scores to stay below 2^53. *)
Theorem index_exact ops db v :
  boards_ok db → (∀ l, known l → fits l db) → (∀ k, sorted_set v k = ∅) → Forall op_ok ops →
  let w := foldl run_index (db, v) ops in let db' := foldl run_database db ops in
  w.1 = db' ∧
  (∀ s, submission_ok s → (index_submit s w).1 = (submit s db').1) ∧
  (∀ l p, known l → agree l p db' (index_rank l p w).1 (Leaderboard_RankOf l p db') ∧
    (no_ties l db' → (index_rank l p w).1 = Leaderboard_RankOf l p db')).
Proof.
  intros Hok Hf Hv Hops w db'. destruct (run_index_ok ops (db, v) (fresh_ok db v Hok Hf Hv) Hops) as [Hw Hdb].
  fold w in Hw, Hdb. cbn [fst] in Hdb. fold db' in Hdb. clearbody w db'. subst db'. split; [done|]. split.
  - intros s Hs. exact (proj1 (submit_step s w Hw Hs)).
  - intros l p Hk. assert (agree l p w.1 (index_rank l p w).1 (Leaderboard_RankOf l p w.1)) as Ha; [|split; [done|]].
    + rewrite (proj1 (rank_step l p w Hw Hk)). destruct Hw as [Hb Hfit _]. by apply answers_agree; [|apply Hfit].
    + intros Hn. by apply (agree_exact l p w.1).
Qed.
End index.

(** ** A sorted-set server *)

#[export] Instance zset_index {U : UuidCodec} : RankIndex (gmap string zset) := {|
  ri_Exists key := λ v, (Ok (bool_decide (default ∅ (v !! key) <> ∅)), v);
  ri_Add key l := λ v, (Ok tt, <[key := zadd (default ∅ (v !! key)) l]> v);
  ri_AddIfBetter order key score p := λ v, (Ok tt, <[key := zadd_better order (default ∅ (v !! key)) score p]> v);
  ri_Expire key := λ v, (Ok tt, v);
  ri_Rank order key p := λ v, (Ok (zrank order (default ∅ (v !! key)) p), v);
|}.

#[export] Program Instance zset_up {U : UuidCodec} : RankIndexUp (gmap string zset) := {| sorted_set v key := default ∅ (v !! key) |}.
Next Obligation. intros. by eexists. Qed.
Next Obligation. intros. eexists. split; [done|]. intros k. destruct (decide (k = key)) as [->|?]; [by rewrite lookup_insert_eq|by rewrite lookup_insert_ne]. Qed.
Next Obligation. intros. eexists. split; [done|]. intros k. destruct (decide (k = key)) as [->|?]; [by rewrite lookup_insert_eq|by rewrite lookup_insert_ne]. Qed.
Next Obligation. intros. by eexists. Qed.
Next Obligation. intros. by eexists. Qed.

(** The demo board; its key vanishes after the third submission. *)
#[local] Existing Instance hex_codec.

Definition demo_lapse (v : gmap string zset) : gmap string zset := delete (leaderboardKey "weekly") v.

Definition demo_index_ops : list (index_op (V := gmap string zset)) :=
  (OpSubmit <$> take 3 demo_submits) ++ [OpLapse demo_lapse; OpRank demo_board (sample_uuid x0b)] ++ (OpSubmit <$> drop 3 demo_submits).

Lemma demo_lapses v k : sorted_set (demo_lapse v) k = ∅ ∨ sorted_set (demo_lapse v) k = sorted_set v k.
Proof.
  unfold sorted_set, demo_lapse. cbn. destruct (decide (k = leaderboardKey "weekly")) as [->|?]; [left; by rewrite lookup_delete_eq|right; by rewrite lookup_delete_ne].
Qed.

Lemma demo_known s : s ∈ demo_submits → submission_ok demo_defs s.
Proof.
  assert (Forall (λ s, demo_defs !! lb_ID (sub_board s) = Some (sub_board s) ∧ Z.abs (sub_score s) < 2 ^ 53) demo_submits) as H by (repeat constructor).
  rewrite list.Forall_forall in H. exact (H s).
Qed.

Lemma demo_index_ops_ok : Forall (op_ok demo_defs) demo_index_ops.
Proof.
  unfold demo_index_ops. rewrite !list.Forall_app. split_and!; [|constructor; [exact demo_lapses|constructor; [done|constructor]]|];
    (apply list.Forall_forall; intros op (s & -> & Hs)%list_elem_of_fmap; apply demo_known).
  - rewrite <- (take_drop 3 demo_submits). apply elem_of_app. by left.
  - rewrite <- (take_drop 3 demo_submits). apply elem_of_app. by right.
Qed.

Definition demo_index_run : DB * gmap string zset := foldl (run_index (V := gmap string zset)) (demo_board_db, ∅) demo_index_ops.

Lemma demo_top : Leaderboard_RankOf demo_board (sample_uuid x0b) (foldl run_database demo_board_db demo_index_ops) = Ok (mkRankedEntry 1 (sample_uuid x0b) None 70 2000).
Proof. vm_compute. reflexivity. Qed.

(** The player with a score of its own; the two that tie, in the order of the set. *)
Lemma index_exact_witness :
  agree demo_board (sample_uuid x0b) (foldl run_database demo_board_db demo_index_ops) (index_rank (V := gmap string zset) demo_board (sample_uuid x0b) demo_index_run).1
    (Ok (mkRankedEntry 1 (sample_uuid x0b) None 70 2000)) ∧
  (λ p, match (index_rank (V := gmap string zset) demo_board p demo_index_run).1 with Ok e => re_Rank e | Err _ => 0 end)
    <$> [sample_uuid x0b; sample_uuid x0c; sample_uuid x0a] = [1; 2; 3].
Proof.
  split; [|vm_compute; reflexivity].
  destruct (index_exact (V := gmap string zset) demo_defs demo_index_ops demo_board_db ∅) as (_ & _ & Hr).
  - exact demo_boards_ok.
  - intros l _ e He. unfold board, select_where in He. cbn in He. by apply elem_of_nil in He.
  - intros k. cbn. by rewrite lookup_empty.
  - exact demo_index_ops_ok.
  - destruct (Hr demo_board (sample_uuid x0b) eq_refl) as [Ha _]. unfold demo_index_run. rewrite <- demo_top. exact Ha.
Defined.

(** ** Where the index and the database part *)

Definition rank_in (r : res RankedEntry) : res Z := match r with Ok e => Ok (re_Rank e) | Err err => Err err end.

Definition rank_both (ss : list submission) (p : uuid) : res Z * res Z :=
  let ops := OpSubmit (V := gmap string zset) <$> ss in
  let w := foldl run_index (demo_board_db, ∅) ops in
  (rank_in (index_rank (V := gmap string zset) demo_board p w).1, rank_in (Leaderboard_RankOf demo_board p w.1)).

(** Two players with one score: the database, and the listing, put the earlier one first, the index
    the one with the greater identifier. *)
Example index_ties_by_id :
  let ss := [mkSubmission (sample_uuid x01) 1000 demo_board (sample_uuid x0a) 50;
             mkSubmission (sample_uuid x02) 2000 demo_board (sample_uuid x0b) 50] in
  rank_both ss (sample_uuid x0a) = (Ok 2, Ok 1) ∧ rank_both ss (sample_uuid x0b) = (Ok 1, Ok 2).
Proof. vm_compute. done. Qed.

(** Above 2^53 two scores become one. *)
Example index_loses_precision :
  let ss := [mkSubmission (sample_uuid x01) 1000 demo_board (sample_uuid x0a) (2 ^ 53 + 1);
             mkSubmission (sample_uuid x02) 2000 demo_board (sample_uuid x0b) (2 ^ 53)] in
  rank_both ss (sample_uuid x0a) = (Ok 2, Ok 1) ∧ rank_both ss (sample_uuid x0b) = (Ok 1, Ok 2).
Proof. vm_compute. done. Qed.

(** A server whose keys vanish once the existence check has seen them. *)
Definition lapsing : RankIndex (gmap string zset) := {|
  ri_Exists key := λ v, (Ok (bool_decide (default ∅ (v !! key) <> ∅)), delete key v);
  ri_Add := ri_Add (RankIndex := zset_index); ri_AddIfBetter := ri_AddIfBetter (RankIndex := zset_index);
  ri_Expire := ri_Expire (RankIndex := zset_index); ri_Rank := ri_Rank (RankIndex := zset_index) |}.

(** The index over the ranked demo board, built. *)
Definition demo_built : gmap string zset := {[ leaderboardKey "weekly" := score_set demo_board demo_ranked_db ]}.

(** A lookup then answers that a ranked player has no entry; a submission then leaves a set of one
    member, and the lookups after it, which find the key, rank its player first and no one else. *)
Example lapse_between_commands :
  is_ok (Leaderboard_RankOf demo_board (sample_uuid x0c) demo_ranked_db) = true ∧
  (Index_RankOf (RI := lapsing) demo_board (sample_uuid x0c) (demo_ranked_db, demo_built)).1 = Err ErrEntryNotFound ∧
  let w := (Index_Submit (RI := lapsing) (sample_uuid x07) demo_board (sample_uuid x0c) 10 6000 (demo_ranked_db, demo_built)).2 in
  rank_in (index_rank (V := gmap string zset) demo_board (sample_uuid x0c) w).1 = Ok 1 ∧
  (index_rank (V := gmap string zset) demo_board (sample_uuid x0b) w).1 = Err ErrEntryNotFound.
Proof. vm_compute. done. Qed.
