(* ===== verification/Auth.v ===== *)
(** * Players and authentication (internal/domain/player, internal/infra/repository/{player,identity,refresh_token}.go, internal/usecase/auth)

    Registration, login, identity linking and refresh-token rotation over the tables players,
    player_identities and refresh_tokens.  A login transaction runs while other transactions commit:
    it carries its own view of the database and the committed one, and [interleave] is the point
    between the lookup and the inserts at which others commit.  Fresh UUIDs, random refresh tokens
    and the request clock are arguments; token signing, token hashing and ID-token verification are
    the usecase's ports. *)

From S2P Require Import Prelude GoBase GoStrings Database.

(** ** The domain (player.go, identity.go, refresh_token.go) *)

Definition MaxNicknameLength : Z := 32.

Record Player := mkPlayer { pl_ID : uuid; pl_Nickname : option string; pl_RegisteredAt : time }.

Definition validateNickname (nickname : option string) : res unit :=
  match nickname with
  | None => Ok tt
  | Some n =>
      if bool_decide (TrimSpace n = "") then Err ErrInvalidNickname
      else if MaxNicknameLength <? RuneCountInString n then Err ErrInvalidNickname
      else Ok tt
  end.

Definition NewPlayer (id : uuid) (nickname : option string) (now : time) : res Player :=
  _ ← validateNickname nickname; Ok (mkPlayer id nickname now).

Definition SetNickname (p : Player) (nickname : option string) : res Player :=
  _ ← validateNickname nickname; Ok (mkPlayer (pl_ID p) nickname (pl_RegisteredAt p)).

Definition ProviderAnonymous : string := "anonymous".

Record Identity := mkIdentity { id_ID : uuid; id_PlayerID : uuid; id_Provider : string; id_ProviderUID : string }.
Definition NewIdentity (id playerID : uuid) (provider providerUID : string) : Identity :=
  mkIdentity id playerID provider providerUID.

Record RefreshToken := mkRefreshToken {
  tk_ID : uuid; tk_PlayerID : uuid; tk_Hash : string; tk_ExpiresAt : time; tk_RevokedAt : option time;
}.

Definition IsActive (rt : RefreshToken) (now : time) : bool :=
  match tk_RevokedAt rt with Some _ => false | None => time_After (tk_ExpiresAt rt) now end.

(** ** The repositories *)

Definition is_player (id : uuid) (p : PlayerRow) : bool := bool_decide (p_id p = id).
Definition is_identity (provider uid : string) (i : IdentityRow) : bool :=
  bool_decide (i_provider i = provider) && bool_decide (i_provider_uid i = uid).

Definition isUniqueViolation (e : error) : bool :=
  match e with PgConstraint code => bool_decide (code = "23505") | _ => false end.

Definition playerFromRow (row : PlayerRow) : Player := mkPlayer (p_id row) (p_nickname row) (p_registered_at row).

Definition Player_GetByID (id : uuid) : M DB Player := λ db,
  match query_one T_players (is_player id) db with
  | (Ok row, db') => (Ok (playerFromRow row), db')
  | (Err e, db') => (Err (if errors_Is e PgNoRows then ErrPlayerNotFound else e), db')
  end.

(** nickname is VARCHAR(32): a longer value is refused (string_data_right_truncation). *)
Definition nickname_fits (nickname : option string) : bool :=
  match nickname with Some n => RuneCountInString n <=? 32 | None => true end.

(** [ON CONFLICT (id) DO UPDATE SET nickname, updated_at = NOW()]: registered_at is set once. *)
Definition Player_Save (p : Player) : M DB unit := λ db,
  if negb (nickname_fits (pl_Nickname p)) then (Err (PgConstraint "22001"), db)
  else if exists_where T_players (is_player (pl_ID p)) db then
    (_ ← update_where T_players (is_player (pl_ID p))
           (λ r, mkPlayerRow (p_id r) (pl_Nickname p) (p_registered_at r) (db_now db)); mret tt) db
  else insert_row T_players true true true
         (mkPlayerRow (pl_ID p) (pl_Nickname p) (toTimestamptz (pl_RegisteredAt p)) (db_now db)) db.

Definition Identity_Find (provider providerUID : string) : M DB Identity := λ db,
  match query_one T_player_identities (is_identity provider providerUID) db with
  | (Ok row, db') => (Ok (mkIdentity (i_id row) (i_player_id row) (i_provider row) (i_provider_uid row)), db')
  | (Err e, db') => (Err (if errors_Is e PgNoRows then ErrIdentityNotFound else e), db')
  end.

Definition Identity_Save (i : Identity) : M DB unit := λ db,
  match insert_row T_player_identities true
          (negb (exists_where T_player_identities (λ r, bool_decide (i_id r = id_ID i) || is_identity (id_Provider i) (id_ProviderUID i) r) db))
          (player_exists (id_PlayerID i) db)
          (mkIdentityRow (id_ID i) (id_PlayerID i) (id_Provider i) (id_ProviderUID i) (db_now db)) db with
  | (Err e, db') => (Err (if isUniqueViolation e then ErrIdentityAlreadyLinked else e), db')
  | r => r
  end.

Definition RefreshToken_Create (rt : RefreshToken) : M DB unit := λ db,
  insert_row T_refresh_tokens true
    (negb (exists_where T_refresh_tokens (λ r, bool_decide (rt_id r = tk_ID rt) || bool_decide (rt_token_hash r = tk_Hash rt)) db))
    (player_exists (tk_PlayerID rt) db)
    (mkRefreshTokenRow (tk_ID rt) (tk_PlayerID rt) (tk_Hash rt) (toTimestamptz (tk_ExpiresAt rt)) None (db_now db)) db.

Definition not_revoked (r : RefreshTokenRow) : bool := bool_decide (rt_revoked_at r = None).

Definition usable (hash : string) (now : time) (r : RefreshTokenRow) : bool :=
  bool_decide (rt_token_hash r = hash) && not_revoked r && (toTimestamptz now <? rt_expires_at r).

Definition RefreshToken_FindByHash (hash : string) (now : time) : M DB RefreshToken := λ db,
  match query_one T_refresh_tokens (usable hash now) db with
  | (Ok r, db') => (Ok (mkRefreshToken (rt_id r) (rt_player_id r) (rt_token_hash r) (rt_expires_at r) (rt_revoked_at r)), db')
  | (Err e, db') => (Err (if errors_Is e PgNoRows then ErrRefreshTokenInvalid else e), db')
  end.

Definition revoke_at (now : time) (r : RefreshTokenRow) : RefreshTokenRow :=
  mkRefreshTokenRow (rt_id r) (rt_player_id r) (rt_token_hash r) (rt_expires_at r) (Some (toTimestamptz now)) (rt_created_at r).

Definition RefreshToken_Revoke (id : uuid) (now : time) : M DB unit :=
  affected ← update_where T_refresh_tokens (λ r, bool_decide (rt_id r = id) && not_revoked r) (revoke_at now);
  if affected =? 0 then fail ErrRefreshTokenInvalid else mret tt.

Definition RefreshToken_RevokeAllForPlayer (playerID : uuid) (now : time) : M DB unit :=
  _ ← update_where T_refresh_tokens (λ r, bool_decide (rt_player_id r = playerID) && not_revoked r) (revoke_at now);
  mret tt.

(** ** The ports of the usecase *)

Record VerifiedIdentity := mkVerifiedIdentity { vi_Subject : string; vi_Name : string }.

Class TokenIssuer := {
  SignAccess : uuid → time → duration → res string;
  HashRefresh : string → string;
}.

Class OIDCVerifier := Verify : string → string → res VerifiedIdentity.

Record AuthConfig := mkAuthConfig { accessTokenTTL : duration; refreshTokenTTL : duration }.
Record LoginResult := mkLoginResult { AccessToken : string; lr_RefreshToken : string; lr_Player : Player }.

(** What one attempt draws: [uuid.NewString] for an unrecoverable guest, [uuid.New] for the player,
    the identity and the token, and the raw refresh token with its hash (or the error of the random
    source). *)
Record Fresh := mkFresh {
  f_guest_uid : string; f_player : uuid; f_identity : uuid; f_token : uuid; f_refresh : res (string * string);
}.

(** ** Transactions that other transactions overtake

    The state is what the transaction sees and what is committed. *)
Definition Tx (A : Type) : Type := M (DB * DB) A.

(** Other transactions commit the changes [others]. *)
Definition interleave (others : DB → DB) : Tx unit := λ s, (Ok tt, (others s.1, others s.2)).

Definition RW_shared {A} (fn : Tx A) : M DB A := λ db,
  match fn (db, db) with
  | (Ok a, (view, _)) => (Ok a, view)
  | (Err e, (_, committed)) => (Err e, committed)
  end.

(** ** The usecase (usecase/auth/auth.go) *)

(** [fmt.Errorf(msg, err)] around a failing call. *)
Definition wrap {A} (msg : string) (m : M DB A) : M DB A := λ db,
  match m db with (Err e, db') => (Err (Wrap msg e), db') | r => r end.

Section usecase.
Context {TI : TokenIssuer} {OV : OIDCVerifier} (cfg : AuthConfig).

Definition issueTokens (fr : Fresh) (playerID : uuid) (now : time) : M DB (string * string) :=
  accessToken ← lift_res (SignAccess playerID now (accessTokenTTL cfg));
  '(refreshRaw, refreshHash) ← lift_res (f_refresh fr);
  let rt := mkRefreshToken (f_token fr) playerID refreshHash (time_Add now (refreshTokenTTL cfg)) None in
  _ ← wrap "auth: create refresh token" (RefreshToken_Create rt);
  mret (accessToken, refreshRaw).

Definition createWithIdentity (fr : Fresh) (provider providerUID : string) (nickname : option string) (now : time) : M DB Player :=
  p ← lift_res (NewPlayer (f_player fr) nickname now);
  _ ← wrap "auth: save player" (Player_Save p);
  _ ← wrap "auth: save identity" (Identity_Save (NewIdentity (f_identity fr) (pl_ID p) provider providerUID));
  mret p.

Definition findOrCreatePlayer (fr : Fresh) (others : DB → DB) (deviceID nickname : option string) (now : time) : Tx Player :=
  found ← match deviceID with
    | Some d =>
        id ← try (in_tx (Identity_Find ProviderAnonymous d));
        _ ← interleave others;
        match id with
        | Ok i => p ← in_tx (Player_GetByID (id_PlayerID i)); mret (Some p)
        | Err e => if errors_Is e ErrIdentityNotFound then mret None else fail e
        end
    | None => mret None
    end;
  match found with
  | Some p => mret p
  | None =>
      let providerUID := match deviceID with Some d => d | None => f_guest_uid fr end in
      in_tx (createWithIdentity fr ProviderAnonymous providerUID nickname now)
  end.

Definition findOrCreateByIdentity (fr : Fresh) (others : DB → DB) (provider providerUID : string) (nickname : option string) (now : time) : Tx Player :=
  existing ← try (in_tx (Identity_Find provider providerUID));
  _ ← interleave others;
  match existing with
  | Ok i => in_tx (Player_GetByID (id_PlayerID i))
  | Err e =>
      if errors_Is e ErrIdentityNotFound
      then in_tx (createWithIdentity fr provider providerUID nickname now)
      else fail e
  end.

(** [fn k] is the closure of attempt [k], with the values that attempt draws. *)
Definition runLoginTx {A} (fn : nat → Tx A) : M DB A := λ db,
  match RW_shared (fn 0%nat) db with
  | (Err e, db') => if errors_Is e ErrIdentityAlreadyLinked then RW_shared (fn 1%nat) db' else (Err e, db')
  | r => r
  end.

Definition nicknameOrNil (name : string) : option string :=
  let name := TrimSpace name in
  if bool_decide (name = "") || (MaxNicknameLength <? RuneCountInString name) then None else Some name.

Definition LoginAnonymous (fr : nat → Fresh) (others : nat → DB → DB) (now : time) (deviceID nickname : option string) : M DB LoginResult :=
  runLoginTx (λ k,
    p ← findOrCreatePlayer (fr k) (others k) deviceID nickname now;
    '(accessToken, refreshTokenRaw) ← in_tx (issueTokens (fr k) (pl_ID p) now);
    mret (mkLoginResult accessToken refreshTokenRaw p)).

Definition LoginOIDC (fr : nat → Fresh) (others : nat → DB → DB) (now : time) (provider idToken : string) : M DB LoginResult :=
  match Verify provider idToken with
  | Err _ => fail ErrInvalidCredential
  | Ok identity =>
      runLoginTx (λ k,
        p ← findOrCreateByIdentity (fr k) (others k) provider (vi_Subject identity) (nicknameOrNil (vi_Name identity)) now;
        '(accessToken, refreshTokenRaw) ← in_tx (issueTokens (fr k) (pl_ID p) now);
        mret (mkLoginResult accessToken refreshTokenRaw p))
  end.

Definition LinkIdentity (newID : uuid) (playerID : uuid) (provider idToken : string) : M DB Player :=
  match Verify provider idToken with
  | Err _ => fail ErrInvalidCredential
  | Ok identity =>
      RW (owner ← try (Identity_Find provider (vi_Subject identity));
          match owner with
          | Ok o => if bool_decide (id_PlayerID o <> playerID) then fail ErrIdentityAlreadyLinked
                    else Player_GetByID playerID
          | Err e =>
              if errors_Is e ErrIdentityNotFound then
                me ← Player_GetByID playerID;
                _ ← wrap "auth: link identity" (Identity_Save (NewIdentity newID playerID provider (vi_Subject identity)));
                mret me
              else fail e
          end)
  end.

Definition Refresh (fr : Fresh) (now : time) (refreshTokenRaw : string) : M DB LoginResult :=
  RW (rt ← RefreshToken_FindByHash (HashRefresh refreshTokenRaw) now;
      if negb (IsActive rt now) then fail ErrRefreshTokenInvalid else
      _ ← RefreshToken_Revoke (tk_ID rt) now;
      p ← Player_GetByID (tk_PlayerID rt);
      '(accessToken, newRefreshRaw) ← issueTokens fr (pl_ID p) now;
      mret (mkLoginResult accessToken newRefreshRaw p)).

Definition Logout (now : time) (playerID : uuid) : M DB unit :=
  RW (RefreshToken_RevokeAllForPlayer playerID now).

Definition UpdateProfile (playerID : uuid) (nickname : option string) : M DB Player :=
  RW (p ← Player_GetByID playerID;
      p ← match nickname with Some _ => lift_res (SetNickname p nickname) | None => mret p end;
      _ ← Player_Save p;
      mret p).
End usecase.

(** ** The invariant and the history order *)

Definition i_key (i : IdentityRow) : string * string := (i_provider i, i_provider_uid i).

(** The player a credential authenticates. *)
Definition owner (provider uid : string) (db : DB) : option uuid :=
  i_player_id <$> head (select_where T_player_identities (is_identity provider uid) db).

(** Keys are unique, references resolve, every player has a credential (none is an orphan) and a
    valid nickname. *)
Definition auth_ok (db : DB) : Prop :=
  NoDup (p_id <$> players db) ∧ NoDup (i_key <$> player_identities db) ∧
  NoDup (rt_token_hash <$> refresh_tokens db) ∧
  Forall (λ i, i_player_id i ∈ p_id <$> players db) (player_identities db) ∧
  Forall (λ p, p_id p ∈ i_player_id <$> player_identities db) (players db) ∧
  Forall (λ t, rt_player_id t ∈ p_id <$> players db) (refresh_tokens db) ∧
  Forall (λ p, is_ok (validateNickname (p_nickname p)) = true) (players db).

(** The hash is that of a revoked token. *)
Definition dead (hash : string) (db : DB) : bool :=
  exists_where T_refresh_tokens (λ r, bool_decide (rt_token_hash r = hash) && negb (not_revoked r)) db.

(** What no later transaction takes back: who owns a credential, which players exist, which tokens
    are dead. *)
Definition history (db db' : DB) : Prop :=
  (∀ provider uid pid, owner provider uid db = Some pid → owner provider uid db' = Some pid) ∧
  (∀ x, x ∈ p_id <$> players db → x ∈ p_id <$> players db') ∧
  (∀ h, dead h db = true → dead h db' = true).

Lemma history_refl db : history db db.
Proof. done. Qed.

Lemma history_trans db1 db2 db3 : history db1 db2 → history db2 db3 → history db1 db3.
Proof. intros (A1 & B1 & C1) (A2 & B2 & C2). split_and!; eauto. Qed.

#[export] Hint Resolve history_refl : vfx.

Lemma player_exists_elem x db : player_exists x db = true ↔ x ∈ p_id <$> players db.
Proof.
  unfold player_exists, exists_where. rewrite existsb_true, list_elem_of_fmap.
  split; intros (p & H1 & H2); exists p; [to_prop; by split|subst; split; [done|by apply bool_decide_eq_true_2]].
Qed.

Lemma owner_elem provider uid pid db :
  owner provider uid db = Some pid → ∃ i, i ∈ player_identities db ∧ i_key i = (provider, uid) ∧ i_player_id i = pid.
Proof.
  unfold owner. intros (i & Hi & ->)%fmap_Some. apply head_Some_elem_of, filter_selected in Hi as [Hin Hk].
  exists i. unfold is_identity in Hk. unfold i_key. to_prop. split_and!; [done|congruence|done].
Qed.

Lemma owner_None provider uid db :
  owner provider uid db = None ↔ exists_where T_player_identities (is_identity provider uid) db = false.
Proof.
  unfold owner, exists_where. split.
  - intros H%fmap_None. apply existsb_false. intros i Hi. destruct (is_identity provider uid i) eqn:E; [|done].
    assert (Hin : i ∈ select_where T_player_identities (is_identity provider uid) db) by (by apply filter_selected).
    destruct (select_where _ _ _); [by apply elem_of_nil in Hin|done].
  - intros H. destruct (select_where _ _ _) as [|i l] eqn:E; [done|]. exfalso.
    assert (Hin : i ∈ select_where T_player_identities (is_identity provider uid) db) by (rewrite E; left).
    apply filter_selected in Hin as [Hin Hk]. by rewrite (proj1 (existsb_false _ _) H _ Hin) in Hk.
Qed.

Lemma owner_exists provider uid pid db : auth_ok db → owner provider uid db = Some pid → pid ∈ p_id <$> players db.
Proof.
  intros (_ & _ & _ & Hi & _) (i & Hin & _ & <-)%owner_elem. rewrite list.Forall_forall in Hi. by apply Hi.
Qed.

Lemma owner_app provider uid db db' i :
  player_identities db' = player_identities db ++ [i] →
  owner provider uid db' = match owner provider uid db with
    | Some pid => Some pid
    | None => if is_identity provider uid i then Some (i_player_id i) else None
    end.
Proof.
  intros E. unfold owner, select_where. simpl. rewrite E, filter_app.
  destruct (filter _ (player_identities db)); [|done]. simpl. unfold filter. simpl.
  by destruct (is_identity provider uid i).
Qed.

(** ** The repositories *)

Lemma Identity_Find_spec provider uid db :
  (∃ i, Identity_Find provider uid db = (Ok i, db) ∧ owner provider uid db = Some (id_PlayerID i)) ∨
  (Identity_Find provider uid db = (Err ErrIdentityNotFound, db) ∧ owner provider uid db = None).
Proof.
  unfold Identity_Find, query_one, owner. destruct (select_where _ _ _) as [|i l]; simpl; eauto.
Qed.

Lemma GetByID_spec x db :
  (∃ row, row ∈ players db ∧ p_id row = x ∧ Player_GetByID x db = (Ok (playerFromRow row), db)) ∨
  (x ∉ p_id <$> players db ∧ Player_GetByID x db = (Err ErrPlayerNotFound, db)).
Proof.
  unfold Player_GetByID, query_one. destruct (select_where _ _ _) as [|row l] eqn:E.
  - right. split; [|done]. intros (r & -> & Hr)%list_elem_of_fmap.
    assert (Hin : r ∈ select_where T_players (is_player (p_id r)) db) by (apply filter_selected; split; [done|by apply bool_decide_eq_true_2]).
    rewrite E in Hin. by apply elem_of_nil in Hin.
  - left. assert (Hin : row ∈ select_where T_players (is_player x) db) by (rewrite E; left).
    apply filter_selected in Hin as [Hin Hk]. unfold is_player in Hk. to_prop. eauto.
Qed.

Lemma validate_fits nickname : validateNickname nickname = Ok tt → nickname_fits nickname = true.
Proof.
  destruct nickname as [n|]; [|done]. unfold validateNickname, nickname_fits, MaxNicknameLength.
  case_bool_decide; [done|]. destruct (Z.ltb_spec 32 (RuneCountInString n)); [done|]. intros _. by apply Z.leb_le.
Qed.

Lemma validate_cases nickname : validateNickname nickname = Ok tt ∨ validateNickname nickname = Err ErrInvalidNickname.
Proof. unfold validateNickname. repeat case_match; eauto. Qed.

(** A valid nickname is always stored: nothing else changes, and the player exists afterwards. *)
Lemma Player_Save_spec p db :
  validateNickname (pl_Nickname p) = Ok tt →
  ∃ db', Player_Save p db = (Ok tt, db') ∧
    player_identities db' = player_identities db ∧ refresh_tokens db' = refresh_tokens db ∧
    (if bool_decide (pl_ID p ∈ p_id <$> players db) then p_id <$> players db' = p_id <$> players db
     else p_id <$> players db' = (p_id <$> players db) ++ [pl_ID p]) ∧
    (Forall (λ p, is_ok (validateNickname (p_nickname p)) = true) (players db) →
     Forall (λ p, is_ok (validateNickname (p_nickname p)) = true) (players db')).
Proof.
  intros Hv. unfold Player_Save. rewrite (validate_fits _ Hv). cbn [negb].
  pose proof (player_exists_elem (pl_ID p) db) as Hex. unfold player_exists in Hex.
  change (λ p0, bool_decide (p_id p0 = pl_ID p)) with (is_player (pl_ID p)) in Hex.
  destruct (exists_where T_players (is_player (pl_ID p)) db).
  - rewrite bool_decide_eq_true_2 by (by apply Hex). rewrite M_bind_eval. unfold update_where. eexists. split; [done|].
    split_and!; [done..| |].
    + simpl. rewrite <- list_fmap_compose. apply list_fmap_ext. intros _ r _. simpl. by destruct (is_player _ r).
    + intros H. simpl. apply list.Forall_fmap. eapply list.Forall_impl; [exact H|]. intros r Hr. simpl.
      destruct (is_player (pl_ID p) r); [|done]. simpl. by rewrite Hv.
  - rewrite bool_decide_eq_false_2 by (rewrite <- Hex; done). unfold insert_row. cbn [negb]. eexists. split; [done|].
    split_and!; [done..| |].
    + simpl. by rewrite fmap_app.
    + intros H. simpl. apply list.Forall_app. split; [done|]. apply Forall_singleton. simpl. by rewrite Hv.
Qed.

Lemma Identity_Save_spec i db :
  (∃ row, Identity_Save i db = (Ok tt, T_player_identities.(t_set) (player_identities db ++ [row]) db) ∧
     i_key row = (id_Provider i, id_ProviderUID i) ∧ i_player_id row = id_PlayerID i ∧
     owner (id_Provider i) (id_ProviderUID i) db = None) ∨
  (Identity_Save i db = (Err ErrIdentityAlreadyLinked, db) ∧
     (id_ID i ∈ i_id <$> player_identities db ∨ owner (id_Provider i) (id_ProviderUID i) db <> None)) ∨
  (Identity_Save i db = (Err fk_violation, db) ∧ id_PlayerID i ∉ p_id <$> players db).
Proof.
  unfold Identity_Save, insert_row. cbn [negb].
  destruct (exists_where T_player_identities _ db) eqn:Eu; cbn [negb].
  - right. left. split; [done|]. apply existsb_true in Eu as (r & Hr & [H|H]%orb_true_iff).
    + left. to_prop. subst. rewrite <- H. by apply list_elem_of_fmap_2.
    + right. intros Hn%owner_None. unfold exists_where in Hn. by rewrite (proj1 (existsb_false _ _) Hn _ Hr) in H.
  - destruct (player_exists (id_PlayerID i) db) eqn:Ep; cbn [negb].
    + left. eexists. split; [done|]. split_and!; [done..|]. apply owner_None. unfold exists_where in *.
      apply existsb_false. intros r Hr. by apply (proj1 (existsb_false _ _) Eu), orb_false_iff in Hr as [_ ?].
    + right. right. split; [done|]. rewrite <- player_exists_elem. by rewrite Ep.
Qed.

Lemma dead_app h db db' r :
  refresh_tokens db' = refresh_tokens db ++ [r] → dead h db = true → dead h db' = true.
Proof. unfold dead, exists_where. simpl. intros ->. rewrite existsb_app. by intros ->. Qed.

(** A state that only differs in other tables. *)
Lemma history_eq db db' :
  player_identities db' = player_identities db → p_id <$> players db' = p_id <$> players db → refresh_tokens db' = refresh_tokens db →
  history db db'.
Proof.
  intros Ei Ep Et. unfold history, owner, dead, exists_where, select_where. simpl. rewrite Ei, Ep, Et. done.
Qed.

(** ** Registration and token issue *)

Lemma in_key provider uid db : owner provider uid db = None → (provider, uid) ∉ i_key <$> player_identities db.
Proof.
  intros Hn%owner_None (i & E & Hi)%list_elem_of_fmap. unfold exists_where in Hn.
  pose proof (proj1 (existsb_false _ _) Hn _ Hi) as Hk. unfold is_identity, i_key in *. injection E as -> ->.
  by rewrite !bool_decide_eq_true_2 in Hk.
Qed.

Lemma auth_ok_register db db1 row :
  auth_ok db →
  player_identities db1 = player_identities db → refresh_tokens db1 = refresh_tokens db →
  (if bool_decide (i_player_id row ∈ p_id <$> players db) then p_id <$> players db1 = p_id <$> players db
   else p_id <$> players db1 = (p_id <$> players db) ++ [i_player_id row]) →
  Forall (λ p, is_ok (validateNickname (p_nickname p)) = true) (players db1) →
  owner (i_provider row) (i_provider_uid row) db = None →
  let db' := T_player_identities.(t_set) (player_identities db1 ++ [row]) db1 in
  auth_ok db' ∧ history db db' ∧ owner (i_provider row) (i_provider_uid row) db' = Some (i_player_id row).
Proof.
  intros (H1 & H2 & H3 & H4 & H5 & H6 & H7) Ei Et Ep Hn Hown db'.
  assert (Hkeep : ∀ x, x ∈ p_id <$> players db → x ∈ p_id <$> players db1)
    by (intros x Hx; case_bool_decide; rewrite Ep; [done|apply elem_of_app; by left]).
  assert (Hnew : ∀ x, x ∈ p_id <$> players db1 → x ∈ p_id <$> players db ∨ x = i_player_id row).
  { intros x. case_bool_decide; rewrite Ep; [by left|]. by rewrite elem_of_snoc. }
  assert (Hrow : i_player_id row ∈ p_id <$> players db1).
  { case_bool_decide; rewrite Ep; [done|]. apply elem_of_app. right. by left. }
  assert (Happ : player_identities db' = player_identities db ++ [row]) by (simpl; by rewrite Ei).
  assert (Hself : is_identity (i_provider row) (i_provider_uid row) row = true) by (unfold is_identity; by rewrite !bool_decide_eq_true_2).
  split_and!.
  - unfold auth_ok. change (players db') with (players db1). change (refresh_tokens db') with (refresh_tokens db1). rewrite Happ, Et, fmap_app.
    split_and!; try done.
    + case_bool_decide as Hd; rewrite Ep; [done|]. apply NoDup_app. split_and!; [done| |apply NoDup_singleton].
      intros x Hx Hx'%list_elem_of_singleton. by subst.
    + apply NoDup_app. split_and!; [done| |apply NoDup_singleton]. intros k Hk Hk'%list_elem_of_singleton. subst k.
      by apply (in_key _ _ _ Hown).
    + apply list.Forall_app. split; [|by apply Forall_singleton]. eapply list.Forall_impl; [exact H4|]. intros i. simpl. auto.
    + apply list.Forall_forall. intros p Hp. rewrite fmap_app. apply elem_of_app.
      destruct (Hnew (p_id p)) as [Hx|Hx]; [by apply list_elem_of_fmap_2| |right; rewrite Hx; by left].
      left. apply list_elem_of_fmap in Hx as (q & -> & Hq). rewrite list.Forall_forall in H5. by apply H5.
    + eapply list.Forall_impl; [exact H6|]. intros t. simpl. auto.
  - split_and!.
    + intros provider uid pid E. by rewrite (owner_app provider uid db db' row Happ), E.
    + exact Hkeep.
    + intros h. unfold dead, exists_where. simpl. by rewrite Et.
  - by rewrite (owner_app _ _ _ _ _ Happ), Hown, Hself.
Qed.

Lemma createWithIdentity_spec fr provider uid nickname now db :
  auth_ok db →
  match createWithIdentity fr provider uid nickname now db with
  | (Ok p, db') => pl_ID p = f_player fr ∧ auth_ok db' ∧ history db db' ∧ owner provider uid db' = Some (pl_ID p) ∧
      owner provider uid db = None ∧ refresh_tokens db' = refresh_tokens db
  | (Err e, _) =>
      (e = ErrInvalidNickname ∧ validateNickname nickname = Err ErrInvalidNickname) ∨
      (e = Wrap "auth: save identity" ErrIdentityAlreadyLinked ∧ validateNickname nickname = Ok tt ∧
       (f_identity fr ∈ i_id <$> player_identities db ∨ owner provider uid db <> None))
  end.
Proof.
  intros Hok. unfold createWithIdentity. rewrite M_bind_eval. unfold lift_res, NewPlayer.
  destruct (validate_cases nickname) as [Ev|Ev]; rewrite Ev; simpl; [|by left].
  rewrite M_bind_eval. unfold wrap at 1.
  destruct (Player_Save_spec (mkPlayer (f_player fr) nickname now) db Ev) as (db1 & -> & Ei & Et & Ep & Hn).
  cbn [pl_ID] in Ep. rewrite M_bind_eval. unfold wrap.
  assert (Eo : owner provider uid db1 = owner provider uid db) by (unfold owner, select_where; simpl; by rewrite Ei).
  destruct (Identity_Save_spec (NewIdentity (f_identity fr) (f_player fr) provider uid) db1)
    as [(row & -> & Ek & Epl & Eown)|[[-> Hd]|[-> Hno]]]; cbn [id_Provider id_ProviderUID id_PlayerID NewIdentity id_ID] in *.
  - rewrite Eo in Eown. simpl. unfold i_key in Ek. injection Ek as <- <-. rewrite <- Epl in *.
    destruct (auth_ok_register db db1 row Hok Ei Et Ep (Hn ltac:(apply Hok)) Eown) as (Hok' & Hh & Ho). split_and!; done.
  - right. rewrite Ei, Eo in Hd. done.
  - exfalso. apply Hno. case_bool_decide; rewrite Ep; [done|]. apply elem_of_app. right. by left.
Qed.

Section usecase_specs.
Context {TI : TokenIssuer} {OV : OIDCVerifier} (cfg : AuthConfig).

(** The row a fresh refresh token gets. *)
Definition token_row (fr : Fresh) (pid : uuid) (hash : string) (now created : time) : RefreshTokenRow :=
  mkRefreshTokenRow (f_token fr) pid hash (toTimestamptz (now + refreshTokenTTL cfg)) None created.

Lemma auth_ok_token db r :
  auth_ok db → rt_token_hash r ∉ rt_token_hash <$> refresh_tokens db → rt_player_id r ∈ p_id <$> players db →
  let db' := T_refresh_tokens.(t_set) (refresh_tokens db ++ [r]) db in auth_ok db' ∧ history db db'.
Proof.
  intros (H1 & H2 & H3 & H4 & H5 & H6 & H7) Hh Hp db'. split.
  - unfold auth_ok. simpl. rewrite fmap_app. split_and!; try done.
    + apply NoDup_app. split_and!; [done| |apply NoDup_singleton]. intros x Hx Hx'%list_elem_of_singleton. by subst.
    + apply list.Forall_app. split; [done|by apply Forall_singleton].
  - split_and!; [done..|]. intros h. by apply (dead_app h db db' r).
Qed.

Lemma issueTokens_spec fr pid now db :
  auth_ok db → pid ∈ p_id <$> players db →
  match issueTokens cfg fr pid now db with
  | (Ok (access, raw), db') => auth_ok db' ∧ history db db' ∧ SignAccess pid now (accessTokenTTL cfg) = Ok access ∧
      ∃ h, f_refresh fr = Ok (raw, h) ∧
        db' = T_refresh_tokens.(t_set) (refresh_tokens db ++ [token_row fr pid h now (db_now db)]) db
  | (Err e, db') =>
      SignAccess pid now (accessTokenTTL cfg) = Err e ∨ f_refresh fr = Err e ∨
      ∃ raw h, f_refresh fr = Ok (raw, h) ∧ e = Wrap "auth: create refresh token" unique_violation ∧
        (f_token fr ∈ rt_id <$> refresh_tokens db ∨ h ∈ rt_token_hash <$> refresh_tokens db)
  end.
Proof.
  intros Hok Hp. unfold issueTokens. rewrite M_bind_eval. unfold lift_res.
  destruct (SignAccess pid now (accessTokenTTL cfg)) as [access|e]; [|by left].
  rewrite M_bind_eval. destruct (f_refresh fr) as [[raw h]|e]; [|by right; left].
  rewrite M_bind_eval. unfold wrap, RefreshToken_Create, insert_row. cbn [negb tk_ID tk_Hash tk_PlayerID tk_ExpiresAt].
  destruct (exists_where T_refresh_tokens _ db) eqn:Eu; cbn [negb].
  { right. right. exists raw, h. split_and!; [done..|]. apply existsb_true in Eu as (r & Hr & Hk).
    apply orb_true_iff in Hk as [Hk|Hk]; apply bool_decide_eq_true in Hk; [left|right]; rewrite <- Hk; by apply list_elem_of_fmap_2. }
  rewrite (proj2 (player_exists_elem _ _) Hp). cbn [negb]. unfold mret, M_ret.
  assert (Hh : h ∉ rt_token_hash <$> refresh_tokens db).
  { intros (r & -> & Hr)%list_elem_of_fmap. unfold exists_where in Eu.
    pose proof (proj1 (existsb_false _ _) Eu _ Hr) as [_ Hd]%orb_false_iff. by rewrite bool_decide_eq_true_2 in Hd. }
  destruct (auth_ok_token db (token_row fr pid h now (db_now db)) Hok Hh Hp) as [Hok' Hhist].
  split_and!; [exact Hok'|exact Hhist|done|]. by exists h.
Qed.

(** ** Login attempts *)

(** What a login does once it has its player. *)
Definition finish (fr : Fresh) (now : time) (p : Player) : M DB LoginResult :=
  t ← issueTokens cfg fr (pl_ID p) now; mret (mkLoginResult t.1 t.2 p).

(** The closure of both logins, for a known credential. *)
Definition login_attempt (fr : Fresh) (others : DB → DB) (provider uid : string) (nickname : option string) (now : time) : Tx LoginResult :=
  p ← findOrCreateByIdentity fr others provider uid nickname now;
  '(accessToken, refreshTokenRaw) ← in_tx (issueTokens cfg fr (pl_ID p) now);
  mret (mkLoginResult accessToken refreshTokenRaw p).

Lemma finish_spec fr now p db :
  auth_ok db → pl_ID p ∈ p_id <$> players db →
  match finish fr now p db with
  | (Ok r, db') => auth_ok db' ∧ history db db' ∧ lr_Player r = p ∧ players db' = players db ∧
      player_identities db' = player_identities db
  | _ => True
  end.
Proof.
  intros Hok Hp. unfold finish. rewrite M_bind_eval. pose proof (issueTokens_spec fr (pl_ID p) now db Hok Hp) as H.
  destruct (issueTokens cfg fr (pl_ID p) now db) as [[[a raw]|e] db']; [|done].
  destruct H as (? & ? & _ & h & _ & ->). done.
Qed.

Lemma attempt_cases fr others provider uid nickname now db :
  auth_ok db → history db (others db) →
  (∃ row, row ∈ players (others db) ∧ owner provider uid db = Some (p_id row) ∧
     RW_shared (login_attempt fr others provider uid nickname now) db = RW (finish fr now (playerFromRow row)) (others db)) ∨
  (owner provider uid db = None ∧
     RW_shared (login_attempt fr others provider uid nickname now) db
       = RW (p ← createWithIdentity fr provider uid nickname now; finish fr now p) (others db)).
Proof.
  intros Hok (_ & Hp & _).
  destruct (Identity_Find_spec provider uid db) as [(i & EF & Eo)|[EF Eo]]; [left|right].
  - destruct (GetByID_spec (id_PlayerID i) (others db)) as [(row & Hrow & Erow & EG)|[Hno _]].
    2: { exfalso. by eapply Hno, Hp, owner_exists. }
    exists row. split; [done|]. split; [by rewrite Eo, Erow|]. rewrite RW_eval.
    unfold RW_shared, login_attempt, findOrCreateByIdentity, finish. rewrite !M_bind_eval.
    unfold try, in_tx, interleave. cbn [fst snd]. rewrite EF. cbn [fst snd]. rewrite M_bind_eval. cbn [fst snd].
    rewrite EG, M_bind_eval. cbn [fst snd pl_ID playerFromRow].
    by destruct (issueTokens cfg fr (p_id row) now (others db)) as [[[a raw]|e] db'].
  - split; [done|]. rewrite RW_eval.
    unfold RW_shared, login_attempt, findOrCreateByIdentity, finish. rewrite !M_bind_eval.
    unfold try, in_tx, interleave. cbn [fst snd]. rewrite EF. cbn [fst snd]. rewrite M_bind_eval.
    change (errors_Is ErrIdentityNotFound ErrIdentityNotFound) with true. cbn [fst snd].
    destruct (createWithIdentity fr provider uid nickname now (others db)) as [[p|e] db1]; [|done].
    rewrite !M_bind_eval. cbn [fst snd].
    by destruct (issueTokens cfg fr (pl_ID p) now db1) as [[[a raw]|e] db'].
Qed.

(** Registration and token issue in one transaction. *)
Lemma create_finish_spec fr provider uid nickname now db :
  auth_ok db →
  let '(r, db') := RW (p ← createWithIdentity fr provider uid nickname now; finish fr now p) db in
  auth_ok db' ∧ history db db' ∧
  match r with
  | Ok lr => owner provider uid db = None ∧ owner provider uid db' = Some (pl_ID (lr_Player lr)) ∧ pl_ID (lr_Player lr) = f_player fr
  | Err e => db' = db
  end.
Proof.
  intros Hok. rewrite RW_eval, M_bind_eval.
  pose proof (createWithIdentity_spec fr provider uid nickname now db Hok) as H.
  destruct (createWithIdentity fr provider uid nickname now db) as [[p|e] db1]; [|done].
  destruct H as (Eid & Hok1 & Hh1 & Ho & Hn & _).
  pose proof (finish_spec fr now p db1 Hok1 (owner_exists _ _ _ _ Hok1 Ho)) as Hf.
  destruct (finish fr now p db1) as [[r|e] db2]; [|done].
  destruct Hf as (Hok2 & Hh2 & -> & _ & _). split; [done|]. split; [by eapply history_trans|].
  split; [done|]. split; [by apply Hh2|done].
Qed.

Lemma attempt_spec fr others provider uid nickname now db :
  auth_ok db → auth_ok (others db) → history db (others db) →
  let '(r, db') := RW_shared (login_attempt fr others provider uid nickname now) db in
  auth_ok db' ∧ history (others db) db' ∧
  match r with
  | Ok lr => owner provider uid db' = Some (pl_ID (lr_Player lr)) ∧
      (owner provider uid (others db) <> None → players db' = players (others db))
  | Err e => db' = others db
  end.
Proof.
  intros Hok Hok1 Hh1. destruct (attempt_cases fr others provider uid nickname now db Hok Hh1) as [(row & Hrow & Eo & ->)|[Eo ->]].
  - rewrite RW_eval. assert (Hp : pl_ID (playerFromRow row) ∈ p_id <$> players (others db)) by (exact (list_elem_of_fmap_2 p_id _ _ Hrow)).
    pose proof (finish_spec fr now _ (others db) Hok1 Hp) as Hf.
    destruct (finish fr now (playerFromRow row) (others db)) as [[r|e] db2]; [|done].
    destruct Hf as (Hok2 & Hh2 & -> & Epl & Eid). split_and!; [done|done| |done].
    apply Hh1 in Eo. unfold owner, select_where in *. simpl in *. by rewrite Eid.
  - pose proof (create_finish_spec fr provider uid nickname now (others db) Hok1) as Hc.
    destruct (RW _ (others db)) as [[r|e] db2]; destruct Hc as (? & ? & Hc); [|done].
    destruct Hc as (Hn & ? & _). by split_and!.
Qed.

(** A retried login: each attempt starts from what the previous one left committed. *)
Lemma runLoginTx_spec (P : res LoginResult → DB → Prop) (fn : nat → Tx LoginResult) db :
  (let '(r, db') := RW_shared (fn 0%nat) db in
   P r db' ∧ (∀ e, r = Err e → errors_Is e ErrIdentityAlreadyLinked = true →
     let '(r2, db2) := RW_shared (fn 1%nat) db' in P r2 db2)) →
  let '(r, db') := runLoginTx fn db in P r db'.
Proof.
  unfold runLoginTx. destruct (RW_shared (fn 0%nat) db) as [[r|e] db']; intros [HP Hr]; [done|].
  destruct (errors_Is e ErrIdentityAlreadyLinked) eqn:E; [|done]. by apply (Hr e).
Qed.

Lemma LoginAnonymous_device fr others now d nickname db :
  LoginAnonymous cfg fr others now (Some d) nickname db
    = runLoginTx (λ k, login_attempt (fr k) (others k) ProviderAnonymous d nickname now) db.
Proof.
  assert (H : ∀ k db, RW_shared (p ← findOrCreatePlayer (fr k) (others k) (Some d) nickname now;
      '(accessToken, refreshTokenRaw) ← in_tx (issueTokens cfg (fr k) (pl_ID p) now);
      mret (mkLoginResult accessToken refreshTokenRaw p)) db
    = RW_shared (login_attempt (fr k) (others k) ProviderAnonymous d nickname now) db).
  { intros k db'. unfold RW_shared, login_attempt, findOrCreatePlayer, findOrCreateByIdentity. rewrite !M_bind_eval.
    unfold try, in_tx, interleave.
    destruct (Identity_Find_spec ProviderAnonymous d db') as [(i & EF & _)|[EF _]]; cbn [fst snd]; rewrite EF; cbn [fst snd];
      rewrite !M_bind_eval; [|done].
    cbn [fst snd]. by destruct (Player_GetByID (id_PlayerID i) (others k db')) as [[p|e] db1]. }
  unfold LoginAnonymous, runLoginTx. rewrite H. destruct (RW_shared _ db) as [[r|e] db']; [done|]. by rewrite H.
Qed.
End usecase_specs.

(** ** Tokens *)

Lemma NoDup_key {A B} (f : A → B) (l : list A) x y :
  NoDup (f <$> l) → x ∈ l → y ∈ l → f x = f y → x = y.
Proof.
  intros Hnd Hx Hy E. apply list_elem_of_lookup in Hx as [i Hi], Hy as [j Hj].
  assert (i = j) as <-; [|congruence]. eapply NoDup_lookup; [exact Hnd|rewrite list_lookup_fmap, Hi; done|].
  rewrite list_lookup_fmap, Hj. simpl. by rewrite E.
Qed.

(** Revoking the tokens of [p]. *)
Definition revoke_where (p : RefreshTokenRow → bool) (now : time) (db : DB) : DB :=
  T_refresh_tokens.(t_set) ((λ r, if p r then revoke_at now r else r) <$> refresh_tokens db) db.

Lemma revoke_where_keys {B} (f : RefreshTokenRow → B) p now db :
  (∀ r, f (revoke_at now r) = f r) → f <$> refresh_tokens (revoke_where p now db) = f <$> refresh_tokens db.
Proof.
  intros Hf. simpl. rewrite <- list_fmap_compose. apply list_fmap_ext. intros _ r _. simpl. by case_match.
Qed.

Lemma auth_ok_revoke p now db :
  auth_ok db →
  auth_ok (revoke_where p now db) ∧ history db (revoke_where p now db) ∧
  (∀ r, r ∈ refresh_tokens db → p r = true → dead (rt_token_hash r) (revoke_where p now db) = true).
Proof.
  intros (H1 & H2 & H3 & H4 & H5 & H6 & H7). split_and!.
  - unfold auth_ok. rewrite revoke_where_keys by done. simpl. split_and!; try done.
    apply list.Forall_fmap. eapply list.Forall_impl; [exact H6|]. intros r. simpl. by case_match.
  - split_and!; [done..|]. intros h. unfold dead, exists_where. rewrite !existsb_true. simpl.
    intros (r & Hr & [Hh Hk]%andb_true_iff). eexists. split; [apply list_elem_of_fmap_2; exact Hr|].
    by case_match; simpl; rewrite Hh, ?Hk.
  - intros r Hr Hp. unfold dead, exists_where. apply existsb_true. simpl. eexists.
    split; [apply list_elem_of_fmap_2; exact Hr|]. rewrite Hp. simpl. by rewrite bool_decide_eq_true_2.
Qed.

Lemma find_usable hash now db :
  (∃ r, r ∈ refresh_tokens db ∧ usable hash now r = true ∧
     RefreshToken_FindByHash hash now db
       = (Ok (mkRefreshToken (rt_id r) (rt_player_id r) (rt_token_hash r) (rt_expires_at r) (rt_revoked_at r)), db)) ∨
  ((∀ r, r ∈ refresh_tokens db → usable hash now r = false) ∧
     RefreshToken_FindByHash hash now db = (Err ErrRefreshTokenInvalid, db)).
Proof.
  unfold RefreshToken_FindByHash, query_one. destruct (select_where _ _ _) as [|r l] eqn:E.
  - right. split; [|done]. intros r Hr. destruct (usable hash now r) eqn:Eu; [|done]. exfalso.
    assert (Hin : r ∈ select_where T_refresh_tokens (usable hash now) db) by (by apply filter_selected).
    rewrite E in Hin. by apply elem_of_nil in Hin.
  - left. exists r. assert (Hin : r ∈ select_where T_refresh_tokens (usable hash now) db) by (rewrite E; left).
    by apply filter_selected in Hin as [? ?].
Qed.

Lemma usable_inv hash now r :
  usable hash now r = true ↔ rt_token_hash r = hash ∧ rt_revoked_at r = None ∧ toTimestamptz now < rt_expires_at r.
Proof. unfold usable, not_revoked. rewrite !andb_true_iff, !bool_decide_eq_true, Z.ltb_lt. tauto. Qed.

(** A dead hash is never usable again. *)
Lemma dead_not_usable hash now db r :
  auth_ok db → dead hash db = true → r ∈ refresh_tokens db → usable hash now r = false.
Proof.
  intros (_ & _ & Hnd & _) (r' & Hr' & Hk)%existsb_true Hr. apply not_true_iff_false. intros (Eh & En & _)%usable_inv.
  apply andb_true_iff in Hk as [Hh%bool_decide_eq_true Hk].
  rewrite (NoDup_key rt_token_hash _ r r' Hnd Hr Hr') in En by congruence.
  unfold not_revoked in Hk. by rewrite bool_decide_eq_true_2 in Hk.
Qed.

Section token_specs.
Context {TI : TokenIssuer} {OV : OIDCVerifier} (cfg : AuthConfig).

Lemma dead_refresh fr now raw db :
  auth_ok db → dead (HashRefresh raw) db = true → Refresh cfg fr now raw db = (Err ErrRefreshTokenInvalid, db).
Proof.
  intros Hok Hd. unfold Refresh. rewrite RW_eval, M_bind_eval.
  destruct (find_usable (HashRefresh raw) now db) as [(r & Hr & Hu & _)|[_ ->]]; [|done].
  by rewrite (dead_not_usable _ now db r Hok Hd Hr) in Hu.
Qed.

Lemma Revoke_spec r now db :
  r ∈ refresh_tokens db → rt_revoked_at r = None →
  RefreshToken_Revoke (rt_id r) now db
    = (Ok tt, revoke_where (λ x, bool_decide (rt_id x = rt_id r) && not_revoked x) now db).
Proof.
  intros Hr Hn. unfold RefreshToken_Revoke. rewrite M_bind_eval. unfold update_where.
  destruct (Z.eqb_spec (Z.of_nat (length (select_where T_refresh_tokens (λ x, bool_decide (rt_id x = rt_id r) && not_revoked x) db))) 0) as [E|E]; [|done].
  exfalso. unfold select_where in E. apply count_zero in E. rewrite existsb_false in E. specialize (E r Hr). simpl in E.
  unfold not_revoked in E. by rewrite !bool_decide_eq_true_2 in E.
Qed.

(** A draw that collides with nothing: the token id and hash are new. *)
Definition new_token (fr : Fresh) (db : DB) : Prop :=
  f_token fr ∉ rt_id <$> refresh_tokens db ∧ ∃ raw h, f_refresh fr = Ok (raw, h) ∧ h ∉ rt_token_hash <$> refresh_tokens db.

Lemma issueTokens_ok fr pid now db :
  auth_ok db → pid ∈ p_id <$> players db → new_token fr db → is_ok (SignAccess pid now (accessTokenTTL cfg)) = true →
  is_ok (issueTokens cfg fr pid now db).1 = true.
Proof.
  intros Hok Hp (Ht & raw & h & Ef & Hh) Hs. pose proof (issueTokens_spec cfg fr pid now db Hok Hp) as H.
  destruct (issueTokens cfg fr pid now db) as [[[a raw']|e] db']; [done|].
  destruct H as [H|[H|(raw' & h' & Ef' & _ & [H|H])]]; [by rewrite H in Hs|congruence|done|].
  rewrite Ef in Ef'. by injection Ef' as <- <-.
Qed.

Lemma Refresh_spec fr now raw db :
  auth_ok db →
  let '(r, db') := Refresh cfg fr now raw db in
  auth_ok db' ∧ history db db' ∧
  match r with
  | Ok lr => dead (HashRefresh raw) db' = true ∧
      (∃ row, row ∈ refresh_tokens db ∧ usable (HashRefresh raw) now row = true ∧ now < rt_expires_at row ∧
         rt_player_id row = pl_ID (lr_Player lr)) ∧
      (∃ prow, prow ∈ players db' ∧ lr_Player lr = playerFromRow prow) ∧
      ∃ h, f_refresh fr = Ok (lr_RefreshToken lr, h) ∧
        token_row cfg fr (pl_ID (lr_Player lr)) h now (db_now db) ∈ refresh_tokens db'
  | Err e => db' = db ∧
      ((∃ row, row ∈ refresh_tokens db ∧ usable (HashRefresh raw) now row = true ∧ now < rt_expires_at row) →
       new_token fr db → (∀ p, is_ok (SignAccess p now (accessTokenTTL cfg)) = true) → False)
  end.
Proof.
  intros Hok. unfold Refresh. rewrite RW_eval, M_bind_eval.
  destruct (find_usable (HashRefresh raw) now db) as [(r & Hr & Hu & ->)|[Hno ->]]; cbn [tk_ID tk_PlayerID].
  2: { split_and!; try done. intros (row & Hr & Hu & _) _ _. by rewrite Hno in Hu. }
  pose proof (proj1 (usable_inv _ _ _) Hu) as (Eh & En & _).
  unfold IsActive. cbn [tk_RevokedAt tk_ExpiresAt]. rewrite En. unfold time_After. destruct (Z.ltb_spec now (rt_expires_at r)) as [He|He]; cbn [negb].
  2: { split_and!; try done. intros (row & Hr2 & Hu2 & He2) _ _. pose proof (proj1 (usable_inv _ _ _) Hu2) as (Eh2 & _).
       rewrite (NoDup_key rt_token_hash _ row r (proj1 (proj2 (proj2 Hok))) Hr2 Hr) in He2 by congruence. lia. }
  rewrite M_bind_eval, (Revoke_spec r now db Hr En). set (p := λ x, bool_decide (rt_id x = rt_id r) && not_revoked x).
  destruct (auth_ok_revoke p now db Hok) as (Hok1 & Hh1 & Hdead).
  assert (Hd : dead (HashRefresh raw) (revoke_where p now db) = true).
  { rewrite <- Eh. apply Hdead; [done|]. unfold p, not_revoked. by rewrite !bool_decide_eq_true_2. }
  set (db1 := revoke_where p now db) in *. rewrite M_bind_eval.
  destruct (GetByID_spec (rt_player_id r) db1) as [(prow & Hprow & Ep & ->)|[Hno _]].
  2: { exfalso. apply Hno. destruct Hok as (_ & _ & _ & _ & _ & H6 & _). rewrite list.Forall_forall in H6. exact (H6 r Hr). }
  rewrite M_bind_eval. cbn [pl_ID playerFromRow].
  assert (Hp : p_id prow ∈ p_id <$> players db1) by (by apply list_elem_of_fmap_2).
  pose proof (issueTokens_spec cfg fr (p_id prow) now db1 Hok1 Hp) as Hi.
  pose proof (issueTokens_ok fr (p_id prow) now db1 Hok1 Hp) as Hl.
  destruct (issueTokens cfg fr (p_id prow) now db1) as [[[a raw']|e] db2]; cbn [fst snd].
  - destruct Hi as (Hok2 & Hh2 & _ & h & Ef & ->). split; [done|]. split; [by eapply history_trans|].
    split; [by apply Hh2|]. split; [by exists r|]. split; [by exists prow|]. exists h. split; [done|]. simpl. apply elem_of_app. right. by left.
  - split_and!; try done. intros _ Hn Hs. assert (Hn1 : new_token fr db1) by (unfold new_token, db1; by rewrite !revoke_where_keys).
    by specialize (Hl Hn1 (Hs _)).
Qed.

Lemma Logout_spec now me db :
  auth_ok db →
  let '(r, db') := Logout now me db in
  r = Ok tt ∧ auth_ok db' ∧ history db db' ∧
  (∀ row, row ∈ refresh_tokens db → rt_player_id row = me → dead (rt_token_hash row) db' = true).
Proof.
  intros Hok. unfold Logout. rewrite RW_eval. unfold RefreshToken_RevokeAllForPlayer. rewrite M_bind_eval.
  change (update_where _ _ _ db) with (Ok (Z.of_nat (length (select_where T_refresh_tokens (λ r, bool_decide (rt_player_id r = me) && not_revoked r) db))),
    revoke_where (λ r, bool_decide (rt_player_id r = me) && not_revoked r) now db). cbn [mret M_ret]. unfold mret, M_ret.
  destruct (auth_ok_revoke (λ r, bool_decide (rt_player_id r = me) && not_revoked r) now db Hok) as (H1 & H2 & H3).
  split_and!; [done..|]. intros row Hr Hm. destruct (not_revoked row) eqn:En.
  - apply H3; [done|]. by rewrite En, bool_decide_eq_true_2.
  - apply H2. unfold dead, exists_where. apply existsb_true. exists row. by rewrite En, bool_decide_eq_true_2.
Qed.
End token_specs.

(** ** Linking and profiles *)

Section account_specs.
Context {TI : TokenIssuer} {OV : OIDCVerifier} (cfg : AuthConfig).

Lemma LinkIdentity_spec newID me provider tok vi db :
  auth_ok db → Verify provider tok = Ok vi →
  let '(r, db') := LinkIdentity newID me provider tok db in
  auth_ok db' ∧ history db db' ∧
  match owner provider (vi_Subject vi) db with
  | Some o => db' = db ∧ if decide (o = me) then ∃ row, row ∈ players db ∧ p_id row = me ∧ r = Ok (playerFromRow row)
              else r = Err ErrIdentityAlreadyLinked
  | None =>
      if decide (me ∈ p_id <$> players db)
      then (∃ row, row ∈ players db ∧ p_id row = me ∧ r = Ok (playerFromRow row) ∧ players db' = players db ∧
              owner provider (vi_Subject vi) db' = Some me) ∨
           (db' = db ∧ newID ∈ i_id <$> player_identities db)
      else db' = db ∧ r = Err ErrPlayerNotFound
  end.
Proof.
  intros Hok Hv. unfold LinkIdentity. rewrite Hv. rewrite RW_eval, M_bind_eval. unfold try.
  destruct (Identity_Find_spec provider (vi_Subject vi) db) as [(i & -> & Eo)|[-> Eo]]; rewrite Eo.
  - pose proof (owner_exists _ _ _ _ Hok Eo) as Hex. destruct (decide (id_PlayerID i = me)) as [<-|Hne].
    + rewrite bool_decide_eq_false_2 by auto. destruct (GetByID_spec (id_PlayerID i) db) as [(row & Hr & Ep & ->)|[Hno _]]; [|done].
      split_and!; try done. by exists row.
    + rewrite bool_decide_eq_true_2 by done. split_and!; try done; by case_decide.
  - rewrite errors_Is_refl, M_bind_eval. destruct (GetByID_spec me db) as [(row & Hr & Ep & ->)|[Hno ->]].
    2: { split_and!; try done; by case_decide. }
    assert (Hin : me ∈ p_id <$> players db) by (rewrite <- Ep; exact (list_elem_of_fmap_2 p_id _ _ Hr)).
    destruct (decide (me ∈ p_id <$> players db)) as [_|]; [|done]. rewrite M_bind_eval. unfold wrap.
    destruct (Identity_Save_spec (NewIdentity newID me provider (vi_Subject vi)) db) as [(irow & -> & Ek & Epl & Eown)|[[-> Hd]|[-> Hno]]];
      cbn [id_Provider id_ProviderUID id_PlayerID NewIdentity id_ID] in *; [| |done].
    + unfold i_key in Ek. injection Ek as E1 E2. rewrite <- E1, <- E2 in *. rewrite <- Epl in *.
      destruct (auth_ok_register db db irow Hok eq_refl eq_refl) as (Hok' & Hh & Ho); [by rewrite bool_decide_eq_true_2|by destruct Hok as (_ & _ & _ & _ & _ & _ & ?)|done|].
      split_and!; [done|done|]. left. exists row. done.
    + split_and!; try done. right. split; [done|]. by destruct Hd as [Hd|Hd].
Qed.

Lemma UpdateProfile_spec me nickname db :
  auth_ok db →
  let '(r, db') := UpdateProfile me nickname db in
  auth_ok db' ∧ history db db' ∧
  match Player_GetByID me db with
  | (Err e, _) => r = Err ErrPlayerNotFound ∧ db' = db
  | (Ok p, _) =>
      match nickname with
      | Some _ => match validateNickname nickname with
                  | Err e => r = Err ErrInvalidNickname ∧ db' = db
                  | Ok _ => r = Ok (mkPlayer (pl_ID p) nickname (pl_RegisteredAt p))
                  end
      | None => r = Ok p
      end
  end.
Proof.
  intros Hok. unfold UpdateProfile. rewrite RW_eval, M_bind_eval.
  destruct (GetByID_spec me db) as [(row & Hr & Ep & ->)|[_ ->]]; [|done].
  assert (Hgo : ∀ p, pl_ID p = me → validateNickname (pl_Nickname p) = Ok tt →
    ∃ db', Player_Save p db = (Ok tt, db') ∧ auth_ok db' ∧ history db db').
  { intros p Eid Hv. destruct (Player_Save_spec p db Hv) as (db' & -> & Ei & Et & Epl & Hn). rewrite Eid in Epl.
    rewrite bool_decide_eq_true_2 in Epl by (rewrite <- Ep; exact (list_elem_of_fmap_2 p_id _ _ Hr)).
    exists db'. split; [done|]. split; [|by apply history_eq].
    destruct Hok as (H1 & H2 & H3 & H4 & H5 & H6 & H7). unfold auth_ok. rewrite Ei, Et, Epl. split_and!; try done; [|by apply Hn].
    apply list.Forall_forall. intros q Hq. rewrite list.Forall_forall in H5.
    assert (Hx : p_id q ∈ p_id <$> players db) by (rewrite <- Epl; by apply list_elem_of_fmap_2).
    apply list_elem_of_fmap in Hx as (q' & -> & Hq'). by apply H5. }
  rewrite M_bind_eval. destruct nickname as [n|].
  - unfold lift_res, SetNickname. destruct (validate_cases (Some n)) as [Ev|Ev]; rewrite Ev; [|done].
    cbn [mbind res_bind]. rewrite M_bind_eval.
    destruct (Hgo (mkPlayer (p_id row) (Some n) (p_registered_at row)) Ep Ev) as (db' & E & ? & ?).
    cbn [pl_ID pl_RegisteredAt playerFromRow]. rewrite E. done.
  - unfold mret at 1, M_ret at 1. rewrite M_bind_eval.
    assert (Hv : validateNickname (p_nickname row) = Ok tt).
    { destruct Hok as (_ & _ & _ & _ & _ & _ & H7). rewrite list.Forall_forall in H7. specialize (H7 _ Hr).
      by destruct (validate_cases (p_nickname row)) as [E|E]; rewrite E in *. }
    destruct (Hgo (playerFromRow row) Ep Hv) as (db' & -> & ? & ?). done.
Qed.

(** ** Runs *)

Inductive auth_op :=
  | OAnon (fr : nat → Fresh) (others : nat → DB → DB) (now : time) (deviceID nickname : option string)
  | OOIDC (fr : nat → Fresh) (others : nat → DB → DB) (now : time) (provider idToken : string)
  | OLink (newID me : uuid) (provider idToken : string)
  | ORefresh (fr : Fresh) (now : time) (raw : string)
  | OLogout (now : time) (me : uuid)
  | OUpdate (me : uuid) (nickname : option string).

Definition auth_step (o : auth_op) (db : DB) : DB :=
  match o with
  | OAnon fr others now deviceID nickname => state (LoginAnonymous cfg fr others now deviceID nickname db)
  | OOIDC fr others now provider idToken => state (LoginOIDC cfg fr others now provider idToken db)
  | OLink newID me provider idToken => state (LinkIdentity newID me provider idToken db)
  | ORefresh fr now raw => state (Refresh cfg fr now raw db)
  | OLogout now me => state (Logout now me db)
  | OUpdate me nickname => state (UpdateProfile me nickname db)
  end.

Fixpoint run_auth (os : list auth_op) (db : DB) : DB :=
  match os with [] => db | o :: os' => run_auth os' (auth_step o db) end.

(** The transactions that overtake a login are themselves well-behaved. *)
Definition well_behaved (others : DB → DB) : Prop := ∀ db, auth_ok db → auth_ok (others db) ∧ history db (others db).
Definition tame (o : auth_op) : Prop :=
  match o with
  | OAnon _ others _ _ _ | OOIDC _ others _ _ _ => ∀ k, well_behaved (others k)
  | _ => True
  end.

Lemma login_runs fr others provider uid nickname now db :
  (∀ k, well_behaved (others k)) → auth_ok db →
  let '(r, db') := runLoginTx (λ k, login_attempt cfg (fr k) (others k) provider uid nickname now) db in
  auth_ok db' ∧ history db db'.
Proof.
  intros Ht Hok.
  assert (Hstep : ∀ k d, auth_ok d → history db d →
    let '(r, d') := RW_shared (login_attempt cfg (fr k) (others k) provider uid nickname now) d in auth_ok d' ∧ history db d').
  { intros k d Hd Hh. destruct (Ht k d Hd) as [Hd1 Hh1].
    pose proof (attempt_spec cfg (fr k) (others k) provider uid nickname now d Hd Hd1 Hh1) as H.
    destruct (RW_shared _ d) as [r d']. destruct H as (? & ? & _). split; [done|]. by eapply history_trans, history_trans. }
  apply (runLoginTx_spec (λ _ d, auth_ok d ∧ history db d)). pose proof (Hstep 0%nat db Hok (history_refl db)) as H.
  destruct (RW_shared _ db) as [r d']. destruct H as [H1 H2]. split; [done|]. intros _ _ _. by apply Hstep.
Qed.

Lemma LoginAnonymous_guest fr others now nickname db :
  RW_shared (p ← findOrCreatePlayer fr others None nickname now;
    '(accessToken, refreshTokenRaw) ← in_tx (issueTokens cfg fr (pl_ID p) now);
    mret (mkLoginResult accessToken refreshTokenRaw p)) db
  = RW (p ← createWithIdentity fr ProviderAnonymous (f_guest_uid fr) nickname now; finish cfg fr now p) db.
Proof.
  rewrite RW_eval. unfold RW_shared, findOrCreatePlayer, finish. rewrite !M_bind_eval. unfold in_tx. cbn [fst snd mret M_ret].
  unfold mret, M_ret. cbn [fst snd].
  destruct (createWithIdentity fr ProviderAnonymous (f_guest_uid fr) nickname now db) as [[p|e] db1]; [|done].
  rewrite !M_bind_eval. cbn [fst snd]. by destruct (issueTokens cfg fr (pl_ID p) now db1) as [[[a raw]|e] db'].
Qed.

Lemma auth_step_ok o db : tame o → auth_ok db → auth_ok (auth_step o db) ∧ history db (auth_step o db).
Proof.
  intros Ht Hok. destruct o as [fr others now [d|] nickname|fr others now provider tok|newID me provider tok|fr now raw|now me|me nickname];
    cbn [auth_step]; unfold state.
  - rewrite LoginAnonymous_device. pose proof (login_runs fr others ProviderAnonymous d nickname now db Ht Hok) as H.
    by destruct (runLoginTx _ db).
  - unfold LoginAnonymous.
    pose proof (runLoginTx_spec (λ _ db', auth_ok db' ∧ history db db')
      (λ k, p ← findOrCreatePlayer (fr k) (others k) None nickname now;
        '(accessToken, refreshTokenRaw) ← in_tx (issueTokens cfg (fr k) (pl_ID p) now);
        mret (mkLoginResult accessToken refreshTokenRaw p)) db) as H.
    cbv beta in H. rewrite LoginAnonymous_guest in H.
    pose proof (create_finish_spec cfg (fr 0%nat) ProviderAnonymous (f_guest_uid (fr 0%nat)) nickname now db Hok) as Hc.
    destruct (RW _ db) as [r db1]. destruct Hc as (Hok1 & Hh1 & _). rewrite LoginAnonymous_guest in H.
    pose proof (create_finish_spec cfg (fr 1%nat) ProviderAnonymous (f_guest_uid (fr 1%nat)) nickname now db1 Hok1) as Hc2.
    destruct (RW _ db1) as [r2 db2]. destruct Hc2 as (Hok2 & Hh2 & _).
    destruct (runLoginTx _ db) as [r3 db3]. apply H. split; [done|]. intros _ _ _. split; [done|]. by eapply history_trans.
  - unfold LoginOIDC. destruct (Verify provider tok) as [vi|e]; [|done].
    pose proof (login_runs fr others provider (vi_Subject vi) (nicknameOrNil (vi_Name vi)) now db Ht Hok) as H.
    unfold login_attempt in H. by destruct (runLoginTx _ db).
  - destruct (Verify provider tok) as [vi|e] eqn:Ev; [|unfold LinkIdentity; by rewrite Ev].
    pose proof (LinkIdentity_spec newID me provider tok vi db Hok Ev) as H. destruct (LinkIdentity _ _ _ _ db). by destruct H as (? & ? & _).
  - pose proof (Refresh_spec cfg fr now raw db Hok) as H. destruct (Refresh _ _ _ _ db). by destruct H as (? & ? & _).
  - pose proof (Logout_spec now me db Hok) as H. destruct (Logout _ _ db). by destruct H as (_ & ? & ? & _).
  - pose proof (UpdateProfile_spec me nickname db Hok) as H. destruct (UpdateProfile _ _ db). by destruct H as (? & ? & _).
Qed.

Lemma run_auth_ok os db : Forall tame os → auth_ok db → auth_ok (run_auth os db) ∧ history db (run_auth os db).
Proof.
  intros Ht. revert db. induction Ht as [|o os Ho Hos IH]; intros db Hok; simpl; [done|].
  destruct (auth_step_ok o db Ho Hok) as [H1 H2]. destruct (IH _ H1) as [H3 H4]. split; [done|]. by eapply history_trans.
Qed.
End account_specs.

(** ** Logins under interference *)

Section login_claims.
Context {TI : TokenIssuer} {OV : OIDCVerifier} (cfg : AuthConfig).

(** A draw that collides with nothing. *)
Definition good_draw (fr : Fresh) (db : DB) : Prop := f_identity fr ∉ i_id <$> player_identities db ∧ new_token fr db.

(** Signing an access token does not fail. *)
Definition signing_works : Prop := ∀ p now, is_ok (SignAccess p now (accessTokenTTL cfg)) = true.

Lemma finish_ok fr now p db :
  auth_ok db → pl_ID p ∈ p_id <$> players db → new_token fr db → signing_works → ∃ lr db', RW (finish cfg fr now p) db = (Ok lr, db').
Proof.
  intros Hok Hp Hn Hs. pose proof (issueTokens_ok cfg fr (pl_ID p) now db Hok Hp Hn (Hs _ _)) as H.
  rewrite RW_eval. unfold finish. rewrite M_bind_eval.
  destruct (issueTokens cfg fr (pl_ID p) now db) as [[t|e] db']; [|done]. by eexists _, _.
Qed.

Lemma create_ok fr provider uid nickname now db :
  auth_ok db → owner provider uid db = None → validateNickname nickname = Ok tt → good_draw fr db → signing_works →
  ∃ lr db', RW (p ← createWithIdentity fr provider uid nickname now; finish cfg fr now p) db = (Ok lr, db').
Proof.
  intros Hok Hn Hv [Hi Ht] Hs. rewrite RW_eval, M_bind_eval.
  pose proof (createWithIdentity_spec fr provider uid nickname now db Hok) as H.
  destruct (createWithIdentity fr provider uid nickname now db) as [[p|e] db1].
  - destruct H as (_ & Hok1 & _ & Ho & _ & Et).
    assert (Ht1 : new_token fr db1) by (unfold new_token; by rewrite Et).
    destruct (finish_ok fr now p db1 Hok1 (owner_exists _ _ _ _ Hok1 Ho) Ht1 Hs) as (lr & db' & E).
    rewrite RW_eval in E. destruct (finish cfg fr now p db1) as [[r|e] db2]; [|done]. by eexists _, _.
  - destruct H as [[_ Hv']|(_ & _ & [?|?])]; [congruence|done..].
Qed.

(** The loser of a race gets the error that makes it retry, and has written nothing. *)
Lemma create_loses fr provider uid nickname now db pid :
  auth_ok db → owner provider uid db = Some pid → validateNickname nickname = Ok tt →
  RW (p ← createWithIdentity fr provider uid nickname now; finish cfg fr now p) db
    = (Err (Wrap "auth: save identity" ErrIdentityAlreadyLinked), db).
Proof.
  intros Hok Ho Hv. rewrite RW_eval, M_bind_eval.
  pose proof (createWithIdentity_spec fr provider uid nickname now db Hok) as H.
  destruct (createWithIdentity fr provider uid nickname now db) as [[p|e] db1].
  - destruct H as (_ & _ & _ & _ & Hn & _). congruence.
  - destruct H as [[_ Hv']|[-> _]]; [congruence|done].
Qed.

(** What happens around a login that other transactions overtake, and what it draws. *)
Record race (fr : nat → Fresh) (others : nat → DB → DB) (db : DB) : Prop := {
  race_db : auth_ok db;
  race_ok1 : auth_ok (others 0%nat db);
  race_history1 : history db (others 0%nat db);
  race_ok2 : auth_ok (others 1%nat (others 0%nat db));
  race_history2 : history (others 0%nat db) (others 1%nat (others 0%nat db));
  race_draw1 : good_draw (fr 0%nat) (others 0%nat db);
  race_draw2 : good_draw (fr 1%nat) (others 1%nat (others 0%nat db));
  race_signing : signing_works;
}.

(** The login succeeded with the owner of the credential; a credential that had an owner keeps it,
    and then no player was created. *)
Definition converged (provider uid : string) (db1 db2 : DB) (out : res LoginResult * DB) : Prop :=
  ∃ lr db', out = (Ok lr, db') ∧ auth_ok db' ∧ history db1 db' ∧
    owner provider uid db' = Some (pl_ID (lr_Player lr)) ∧
    (∀ pid, owner provider uid db1 = Some pid → pl_ID (lr_Player lr) = pid ∧ (players db' = players db1 ∨ players db' = players db2)).

Lemma login_core fr others provider uid nickname now db :
  race fr others db → (owner provider uid db = None → validateNickname nickname = Ok tt) →
  converged provider uid (others 0%nat db) (others 1%nat (others 0%nat db))
    (runLoginTx (λ k, login_attempt cfg (fr k) (others k) provider uid nickname now) db).
Proof.
  intros [Hok Hok1 Hh1 Hok2 Hh2 [Hi1 Ht1] [Hi2 Ht2] Hs] Hv. unfold converged, runLoginTx. cbv beta.
  set (db1 := others 0%nat db) in *. set (db2 := others 1%nat db1) in *.
  assert (Hdone : ∀ k d lr d', auth_ok d → auth_ok (others k d) → history d (others k d) → history db1 (others k d) →
    (players (others k d) = players db1 ∨ players (others k d) = players db2) →
    RW_shared (login_attempt cfg (fr k) (others k) provider uid nickname now) d = (Ok lr, d') →
    auth_ok d' ∧ history db1 d' ∧ owner provider uid d' = Some (pl_ID (lr_Player lr)) ∧
    (∀ pid, owner provider uid db1 = Some pid → pl_ID (lr_Player lr) = pid ∧ (players d' = players db1 ∨ players d' = players db2))).
  { intros k d lr d' Hd Hd1 Hhd Hh Hpl E. pose proof (attempt_spec cfg (fr k) (others k) provider uid nickname now d Hd Hd1 Hhd) as H.
    rewrite E in H. destruct H as (Hd' & Hh' & Ho & Hp). split; [done|]. split; [by eapply history_trans|]. split; [done|].
    intros pid Hpid. apply Hh in Hpid as Hpid2. pose proof (proj1 Hh' _ _ _ Hpid2) as Hpid3. split; [congruence|].
    rewrite Hp by congruence. done. }
  destruct (attempt_cases cfg (fr 0%nat) (others 0%nat) provider uid nickname now db Hok Hh1) as [(row & Hrow & Eo & E)|[Eo E]].
  - destruct (finish_ok (fr 0%nat) now (playerFromRow row) db1 Hok1 (list_elem_of_fmap_2 p_id _ _ Hrow) Ht1 Hs) as (lr & d' & Ef).
    fold db1 in E. rewrite Ef in E. rewrite E. exists lr, d'. split; [done|].
    exact (Hdone 0%nat db lr d' Hok Hok1 Hh1 (history_refl _) (or_introl eq_refl) E).
  - specialize (Hv Eo). fold db1 in E. destruct (owner provider uid db1) as [pid|] eqn:Eo1.
    + rewrite (create_loses _ _ _ _ _ _ pid Hok1 Eo1 Hv) in E. rewrite E.
      change (errors_Is (Wrap "auth: save identity" ErrIdentityAlreadyLinked) ErrIdentityAlreadyLinked) with true. cbn iota.
      destruct (attempt_cases cfg (fr 1%nat) (others 1%nat) provider uid nickname now db1 Hok1 Hh2) as [(row & Hrow & Eo2 & E2)|[Eo2 _]]; [|congruence].
      fold db2 in E2, Hrow. destruct (finish_ok (fr 1%nat) now (playerFromRow row) db2 Hok2 (list_elem_of_fmap_2 p_id _ _ Hrow) Ht2 Hs) as (lr & d' & Ef).
      rewrite Ef in E2. rewrite E2. exists lr, d'. split; [done|]. 
      exact (Hdone 1%nat db1 lr d' Hok1 Hok2 Hh2 Hh2 (or_intror eq_refl) E2).
    + destruct (create_ok (fr 0%nat) provider uid nickname now db1 Hok1 Eo1 Hv (conj Hi1 Ht1) Hs) as (lr & d' & Ef).
      rewrite Ef in E. rewrite E. exists lr, d'. split; [done|]. 
      exact (Hdone 0%nat db lr d' Hok Hok1 Hh1 (history_refl _) (or_introl eq_refl) E).
Qed.

Lemma nicknameOrNil_valid name : validateNickname (nicknameOrNil name) = Ok tt.
Proof.
  unfold nicknameOrNil. cbv zeta. destruct (_ || _) eqn:E; [done|]. apply orb_false_iff in E as [E1 E2].
  unfold validateNickname. rewrite TrimSpace_idem, E1, E2. done.
Qed.

(** A credential that the lookup does not find is not registered under an invalid nickname; that error is no reason to retry. *)
Lemma login_refused fr others provider uid nickname now e db :
  race fr others db → owner provider uid db = None → validateNickname nickname = Err e →
  runLoginTx (λ k, login_attempt cfg (fr k) (others k) provider uid nickname now) db = (Err ErrInvalidNickname, others 0%nat db).
Proof.
  intros [Hok Hok1 Hh1 _ _ _ _ _] Hn Hv. unfold runLoginTx. cbv beta.
  destruct (attempt_cases cfg (fr 0%nat) (others 0%nat) provider uid nickname now db Hok Hh1) as [(row & _ & Eo & _)|[_ ->]]; [congruence|].
  rewrite RW_eval, M_bind_eval. pose proof (createWithIdentity_spec (fr 0%nat) provider uid nickname now _ Hok1) as H.
  unfold createWithIdentity, NewPlayer in *. rewrite M_bind_eval in *. unfold lift_res in *. rewrite Hv in *. cbn in *.
  by destruct H as [[-> _]|(_ & ? & _)].
Qed.

(** C12: an anonymous login with a device id converges: whatever other well-behaved transactions
    commit between its lookup and its inserts (a first login for the same device included), and
    again during its retry, it succeeds, returns the player that owns the device id afterwards,
    never replaces an existing owner, and leaves no orphan: every player still has a credential,
    and none was created when the device id already had an owner. The one login it refuses is
    with a nickname that is not valid, by a device that its lookup does not find: it reports
    "invalid nickname", does not retry, and leaves what the others committed; a known device
    logs in whatever nickname it sends. (The ids and tokens drawn are new to the database, and
    access tokens can be signed.) *)
Theorem login_converges fr others now d nickname db :
  race fr others db →
  let out := LoginAnonymous cfg fr others now (Some d) nickname db in
  match validateNickname nickname, owner ProviderAnonymous d db with
  | Err _, None => out = (Err ErrInvalidNickname, others 0%nat db)
  | _, _ => converged ProviderAnonymous d (others 0%nat db) (others 1%nat (others 0%nat db)) out
  end.
Proof.
  intros Hr out. unfold out. rewrite LoginAnonymous_device. destruct (validateNickname nickname) as [[]|e] eqn:Ev.
  - by apply login_core.
  - destruct (owner ProviderAnonymous d db) eqn:Eo; [apply login_core; [done|congruence]|by eapply login_refused].
Qed.

(** an OIDC login with a token that does not verify is refused and changes nothing; with one
    that does, it converges on the player that owns the provider's subject, under the same
    interference, whatever display name the provider sends. *)
Theorem oidc_login_converges fr others now provider idToken db :
  race fr others db →
  match Verify provider idToken with
  | Err _ => LoginOIDC cfg fr others now provider idToken db = (Err ErrInvalidCredential, db)
  | Ok vi => converged provider (vi_Subject vi) (others 0%nat db) (others 1%nat (others 0%nat db))
               (LoginOIDC cfg fr others now provider idToken db)
  end.
Proof.
  intros Hr. unfold LoginOIDC. destruct (Verify provider idToken) as [vi|e]; [|done].
  exact (login_core fr others provider (vi_Subject vi) (nicknameOrNil (vi_Name vi)) now db Hr (λ _, nicknameOrNil_valid _)).
Qed.

(** linking: a credential of another player is refused, linking one's own again is a no-op,
    an unknown player is refused, and otherwise the credential belongs to the player from then on
    (and every credential it had still does).  Nothing else is possible, a reused identity id apart. *)
Theorem link_outcome newID me provider tok vi db :
  auth_ok db → Verify provider tok = Ok vi → newID ∉ i_id <$> player_identities db →
  let '(r, db') := LinkIdentity newID me provider tok db in
  history db db' ∧
  match owner provider (vi_Subject vi) db with
  | Some o => db' = db ∧ if decide (o = me) then ∃ p, r = Ok p ∧ pl_ID p = me else r = Err ErrIdentityAlreadyLinked
  | None => if decide (me ∈ p_id <$> players db)
      then (∃ p, r = Ok p ∧ pl_ID p = me) ∧ owner provider (vi_Subject vi) db' = Some me ∧ players db' = players db
      else db' = db ∧ r = Err ErrPlayerNotFound
  end.
Proof.
  intros Hok Hv Hnew. pose proof (LinkIdentity_spec newID me provider tok vi db Hok Hv) as H.
  destruct (LinkIdentity newID me provider tok db) as [r db']. destruct H as (_ & Hh & H). split; [done|].
  destruct (owner provider (vi_Subject vi) db) as [o|].
  - destruct H as [-> H]. split; [done|]. case_decide; [|done]. destruct H as (row & _ & E & ->). by eexists.
  - case_decide; [|done]. destruct H as [(row & _ & E & -> & Hp & Ho)|[_ ?]]; [|done]. split; [by eexists|done].
Qed.

(** C8: refresh tokens rotate: a successful refresh used a token that was issued, unexpired and not
    revoked, for that token's player; from then on, after any run of auth operations, presenting it
    again is refused and changes nothing; and the new raw token it returned works until it expires. *)
Theorem refresh_rotation fr now raw lr db db1 os :
  auth_ok db → Forall tame os → Refresh cfg fr now raw db = (Ok lr, db1) →
  (∃ row, row ∈ refresh_tokens db ∧ rt_token_hash row = HashRefresh raw ∧ rt_revoked_at row = None ∧
     now < rt_expires_at row ∧ rt_player_id row = pl_ID (lr_Player lr)) ∧
  (∀ fr' now', Refresh cfg fr' now' raw (run_auth cfg os db1) = (Err ErrRefreshTokenInvalid, run_auth cfg os db1)) ∧
  (f_refresh fr = Ok (lr_RefreshToken lr, HashRefresh (lr_RefreshToken lr)) →
   ∀ fr' now', now' < toTimestamptz (now + refreshTokenTTL cfg) → new_token fr' db1 → signing_works →
   ∃ lr' db2, Refresh cfg fr' now' (lr_RefreshToken lr) db1 = (Ok lr', db2) ∧ pl_ID (lr_Player lr') = pl_ID (lr_Player lr)).
Proof.
  intros Hok Ht E. pose proof (Refresh_spec cfg fr now raw db Hok) as H. rewrite E in H.
  destruct H as (Hok1 & _ & Hdead & (row & Hr & Hu & He & Ep) & _ & h & Ef & Hrow). split; [|split].
  - apply usable_inv in Hu as (? & ? & _). by exists row.
  - intros fr' now'. destruct (run_auth_ok cfg os db1 Ht Hok1) as [Hok2 (_ & _ & Hd)]. apply dead_refresh; [done|by apply Hd].
  - intros Ef' fr' now' Hlt Hnew Hs. rewrite Ef in Ef'. injection Ef' as ->.
    pose proof (Refresh_spec cfg fr' now' (lr_RefreshToken lr) db1 Hok1) as H.
    destruct (Refresh cfg fr' now' (lr_RefreshToken lr) db1) as [[lr'|e] db2]; destruct H as (_ & _ & H).
    + eexists _, _. split; [done|]. destruct H as (_ & (row' & Hr' & Hu' & _ & Ep') & _).
      apply usable_inv in Hu' as (Eh' & _). rewrite <- Ep'.
      by rewrite (NoDup_key rt_token_hash _ row' _ (proj1 (proj2 (proj2 Hok1))) Hr' Hrow Eh').
    + exfalso. destruct H as [_ H]. apply H; [|done|intros p; apply Hs]. eexists. split; [exact Hrow|].
      assert (toTimestamptz now' ≤ now') by apply toTimestamptz_le.
      split; [apply usable_inv; simpl; split_and!; [done|done|lia]|simpl; lia].
Qed.

(** logging out always succeeds and kills every refresh token the player holds: after any later
    run of auth operations, presenting one of them is refused and changes nothing. *)
Theorem logout_revokes now me db os :
  auth_ok db → Forall tame os →
  let '(r, db1) := Logout now me db in
  r = Ok tt ∧
  ∀ raw row, row ∈ refresh_tokens db → rt_player_id row = me → rt_token_hash row = HashRefresh raw →
  ∀ fr now', Refresh cfg fr now' raw (run_auth cfg os db1) = (Err ErrRefreshTokenInvalid, run_auth cfg os db1).
Proof.
  intros Hok Ht. pose proof (Logout_spec now me db Hok) as H. destruct (Logout now me db) as [r db1].
  destruct H as (Hr & Hok1 & _ & Hdead). split; [done|]. intros raw row Hrow Hme Eh fr now'.
  destruct (run_auth_ok cfg os db1 Ht Hok1) as [Hok2 (_ & _ & Hd)]. apply dead_refresh; [done|]. apply Hd.
  rewrite <- Eh. by apply Hdead.
Qed.

(** C40: every run of auth operations, failing and overtaken ones included, keeps the invariant
    (unique credentials and token hashes, resolving references, no player without a credential,
    every nickname valid) and takes nothing back: a credential never changes its owner, no player
    disappears and a revoked token stays revoked. *)
Theorem auth_invariant os db :
  Forall tame os → auth_ok db → auth_ok (run_auth cfg os db) ∧ history db (run_auth cfg os db).
Proof. exact (run_auth_ok cfg os db). Qed.
End login_claims.

(** ** Evaluated instances *)

#[export] Instance auth_ok_dec db : Decision (auth_ok db).
Proof. unfold auth_ok. apply _. Defined.

Definition demo_issuer : TokenIssuer :=
  {| SignAccess := λ _ _ _, Ok "jwt"; HashRefresh := λ raw, "sha256:" +:+ raw |}.
Definition demo_verifier : OIDCVerifier := λ provider tok,
  if bool_decide (provider = "google" ∧ tok = "good") then Ok (mkVerifiedIdentity "sub-1" "  Ann ") else Err (ErrText "oidc").
Definition demo_auth_cfg : AuthConfig := mkAuthConfig 900000000000 86400000000000.

(** Ann is registered with a device and holds a token. *)
Definition demo_auth_db : DB :=
  T_refresh_tokens.(t_set) [mkRefreshTokenRow (sample_uuid x21) (sample_uuid x0a) "sha256:tok-a" 5000000000 None 0]
  (T_player_identities.(t_set) [mkIdentityRow (sample_uuid x11) (sample_uuid x0a) "anonymous" "dev-a" 0]
  (T_players.(t_set) [mkPlayerRow (sample_uuid x0a) (Some "ann") 0 0] emptyDB)).

Definition demo_fresh (b1 b2 b3 : byte) (raw : string) : Fresh :=
  mkFresh "guest" (sample_uuid b1) (sample_uuid b2) (sample_uuid b3) (Ok (raw, "sha256:" +:+ raw)).

(** A first login for device dev-b that commits between the lookup and the insert of another one. *)
Definition rival_login : auth_op :=
  OAnon (λ _, demo_fresh x0b x12 x22 "tok-b") (λ _ db, db) 1000 (Some "dev-b") (Some "bob").
Definition demo_others (k : nat) : DB → DB :=
  match k with
  | 0%nat => @run_auth demo_issuer demo_verifier demo_auth_cfg [rival_login]
  | _ => λ db, db
  end.
Definition demo_draws (k : nat) : Fresh :=
  match k with 0%nat => demo_fresh x0c x13 x23 "tok-c" | _ => demo_fresh x0d x14 x24 "tok-d" end.

Lemma demo_auth_ok : auth_ok demo_auth_db.
Proof. by_compute. Qed.

Lemma rival_tame : Forall tame [rival_login].
Proof. apply Forall_singleton. intros k db H. split; [exact H|apply history_refl]. Qed.

Lemma demo_draw_ok fr db raw h :
  f_refresh fr = Ok (raw, h) →
  bool_decide (f_identity fr ∉ i_id <$> player_identities db ∧ f_token fr ∉ rt_id <$> refresh_tokens db ∧
    h ∉ rt_token_hash <$> refresh_tokens db) = true → good_draw fr db.
Proof. intros E (H1 & H2 & H3)%bool_decide_eq_true. split; [done|]. split; [done|]. by exists raw, h. Qed.

Lemma demo_race : race (TI := demo_issuer) demo_auth_cfg demo_draws demo_others demo_auth_db.
Proof.
  pose proof (run_auth_ok (TI := demo_issuer) (OV := demo_verifier) demo_auth_cfg [rival_login] demo_auth_db rival_tame demo_auth_ok) as [Hok Hh].
  split; [exact demo_auth_ok|exact Hok|exact Hh|exact Hok|apply history_refl| | |done].
  - eapply demo_draw_ok; [reflexivity|]. vm_compute. reflexivity.
  - eapply demo_draw_ok; [reflexivity|]. vm_compute. reflexivity.
Qed.

(** The loser finds the winner's player; a first login with a blank nickname is refused; a known device may send one. *)
Lemma login_converges_witness :
  converged ProviderAnonymous "dev-b" (demo_others 0 demo_auth_db) (demo_others 0 demo_auth_db)
    (@LoginAnonymous demo_issuer demo_auth_cfg demo_draws demo_others 1000 (Some "dev-b") (Some "bob") demo_auth_db) ∧
  owner ProviderAnonymous "dev-b" (demo_others 0 demo_auth_db) = Some (sample_uuid x0b) ∧
  @LoginAnonymous demo_issuer demo_auth_cfg demo_draws demo_others 1000 (Some "dev-c") (Some " ") demo_auth_db
    = (Err ErrInvalidNickname, demo_others 0 demo_auth_db) ∧
  converged ProviderAnonymous "dev-a" (demo_others 0 demo_auth_db) (demo_others 0 demo_auth_db)
    (@LoginAnonymous demo_issuer demo_auth_cfg demo_draws demo_others 1000 (Some "dev-a") (Some " ") demo_auth_db).
Proof.
  pose proof (λ d n, login_converges (TI := demo_issuer) demo_auth_cfg demo_draws demo_others 1000 d n demo_auth_db demo_race) as H.
  split; [exact (H "dev-b" (Some "bob"))|]. split; [vm_compute; reflexivity|]. split; [exact (H "dev-c" (Some " "))|exact (H "dev-a" (Some " "))].
Defined.

Lemma oidc_login_converges_witness :
  converged "google" "sub-1" (demo_others 0 demo_auth_db) (demo_others 0 demo_auth_db)
    (@LoginOIDC demo_issuer demo_verifier demo_auth_cfg demo_draws demo_others 1000 "google" "good" demo_auth_db).
Proof.
  exact (oidc_login_converges (TI := demo_issuer) (OV := demo_verifier) demo_auth_cfg demo_draws demo_others 1000 "google" "good" demo_auth_db demo_race).
Defined.

Lemma link_outcome_witness :
  (@LinkIdentity demo_verifier (sample_uuid x15) (sample_uuid x0a) "google" "good" demo_auth_db).1
    = Ok (mkPlayer (sample_uuid x0a) (Some "ann") 0) ∧
  owner "google" "sub-1" (@LinkIdentity demo_verifier (sample_uuid x15) (sample_uuid x0a) "google" "good" demo_auth_db).2
    = Some (sample_uuid x0a).
Proof.
  pose proof (link_outcome (OV := demo_verifier) (sample_uuid x15) (sample_uuid x0a) "google" "good" (mkVerifiedIdentity "sub-1" "  Ann ")
    demo_auth_db demo_auth_ok eq_refl ltac:(by_compute)) as H.
  split; [vm_compute; reflexivity|]. destruct H as [_ H]. exact (proj1 (proj2 H)).
Defined.

Definition demo_refreshed : res LoginResult * DB :=
  @Refresh demo_issuer demo_auth_cfg (demo_fresh x00 x00 x25 "tok-e") 2000 "tok-a" demo_auth_db.

Lemma refresh_rotation_witness :
  ∃ lr, demo_refreshed.1 = Ok lr ∧ lr_RefreshToken lr = "tok-e" ∧
  @Refresh demo_issuer demo_auth_cfg (demo_fresh x00 x00 x26 "tok-f") 3000 "tok-a" (@run_auth demo_issuer demo_verifier demo_auth_cfg [rival_login] demo_refreshed.2)
    = (Err ErrRefreshTokenInvalid, @run_auth demo_issuer demo_verifier demo_auth_cfg [rival_login] demo_refreshed.2).
Proof.
  exists (mkLoginResult "jwt" "tok-e" (mkPlayer (sample_uuid x0a) (Some "ann") 0)).
  split; [vm_compute; reflexivity|]. split; [reflexivity|].
  exact (proj1 (proj2 (refresh_rotation (TI := demo_issuer) (OV := demo_verifier) demo_auth_cfg (demo_fresh x00 x00 x25 "tok-e") 2000 "tok-a"
    (mkLoginResult "jwt" "tok-e" (mkPlayer (sample_uuid x0a) (Some "ann") 0)) demo_auth_db demo_refreshed.2 [rival_login]
    demo_auth_ok rival_tame ltac:(vm_compute; reflexivity))) _ _).
Defined.

Lemma logout_revokes_witness :
  (Logout 2000 (sample_uuid x0a) demo_auth_db).1 = Ok tt ∧
  ∀ fr now', @Refresh demo_issuer demo_auth_cfg fr now' "tok-a" (@run_auth demo_issuer demo_verifier demo_auth_cfg [rival_login] (Logout 2000 (sample_uuid x0a) demo_auth_db).2)
    = (Err ErrRefreshTokenInvalid, @run_auth demo_issuer demo_verifier demo_auth_cfg [rival_login] (Logout 2000 (sample_uuid x0a) demo_auth_db).2).
Proof.
  pose proof (logout_revokes (TI := demo_issuer) (OV := demo_verifier) demo_auth_cfg 2000 (sample_uuid x0a) demo_auth_db [rival_login]
    demo_auth_ok rival_tame) as H.
  destruct (Logout 2000 (sample_uuid x0a) demo_auth_db) as [r db1]. destruct H as [Hr H]. split; [exact Hr|].
  exact (H "tok-a" (mkRefreshTokenRow (sample_uuid x21) (sample_uuid x0a) "sha256:tok-a" 5000000000 None 0)
    ltac:(left) eq_refl eq_refl).
Defined.

Lemma auth_invariant_witness :
  auth_ok (@run_auth demo_issuer demo_verifier demo_auth_cfg [rival_login] demo_auth_db) ∧
  length (players (@run_auth demo_issuer demo_verifier demo_auth_cfg [rival_login] demo_auth_db)) = 2%nat.
Proof.
  split; [|vm_compute; reflexivity].
  exact (proj1 (auth_invariant (TI := demo_issuer) (OV := demo_verifier) demo_auth_cfg [rival_login] demo_auth_db rival_tame demo_auth_ok)).
Defined.
