(* ===== verification/Token.v ===== *)
(** * Access, session and refresh tokens (internal/infra/token, internal/infra/connectrpc/interceptor/auth.go)

    The claims are the signer's; signing and parsing are the JWT library's, the class [Jwt].  Its
    documented behaviour, as far as the signer relies on it, is [JwtLaws]: a token parses back, with
    the key it was signed with, to the claims it was signed for, until the time in [exp], which
    NewNumericDate gives in whole seconds.  The interceptor decides which player a request acts
    for. *)

From stdpp Require Import pretty.
From S2P Require Import Prelude GoBase GoStrings Json.

(** ** The JWT library *)

(** Claims as JSON values, and the library's two calls with the HMAC methods. *)
Class Jwt := {
  SignedString : string → json → res string;
  ParseWithClaims : string → time → string → res json;
}.

(** The [exp] claim, in seconds since the Unix epoch. *)
Definition claims_exp (claims : json) : option Z :=
  match claims with
  | JObj fields => match find_field "exp" fields with Some (JInt z) => Some z | _ => None end
  | _ => None
  end.

Definition tokenExpired : error := ErrText "token has invalid claims: token is expired".

Class JwtLaws (J : Jwt) : Prop :=
  parse_signed : ∀ key claims tok now exp, SignedString key claims = Ok tok → claims_exp claims = Some exp →
    ParseWithClaims key now tok = if now <? exp * Second then Ok claims else Err tokenExpired.

(** [jwt.NewNumericDate] truncates to seconds. *)
Definition NumericDate (t : time) : Z := t / Second.

Lemma NumericDate_bounds t : NumericDate t * Second ≤ t < NumericDate t * Second + Second.
Proof. unfold NumericDate, Second. pose proof (Z.div_mod t 1000000000). pose proof (Z.mod_pos_bound t 1000000000). lia. Qed.

(** ** The claims *)

Section signer.
Context {U : UuidCodec} {J : Jwt}.

Record AccessClaims := mkAccessClaims { ac_PlayerID : uuid; ac_IssuedAt : option Z; ac_ExpiresAt : option Z }.
Record SessionClaims := mkSessionClaims {
  sc_PlayerID : uuid; sc_MatchID : string; sc_MatchPlayers : list string; sc_IssuedAt : option Z; sc_ExpiresAt : option Z;
}.

(** The registered claims of both: [exp] and [iat]; the player id takes the place of [sub]. *)
Definition registered (now : time) (ttl : duration) : list (string * json) :=
  [("exp", JInt (NumericDate (time_Add now ttl))); ("iat", JInt (NumericDate now))].

Definition access_claims (playerID : uuid) (now : time) (ttl : duration) : json :=
  JObj (("sub", JStr (uuid_String playerID)) :: registered now ttl).

Definition session_claims (playerID : uuid) (matchID : string) (matchPlayers : list string) (now : time) (ttl : duration) : json :=
  JObj ([("sub", JStr (uuid_String playerID)); ("mid", JStr (ToValid matchID))] ++
        (if bool_decide (matchPlayers = []) then [] else [("mps", JArr ((λ s, JStr (ToValid s)) <$> matchPlayers))]) ++
        registered now ttl).

(** [NewSigner]'s secret is the argument [secret] of each method. *)
Definition SignAccess (secret : string) (playerID : uuid) (now : time) (ttl : duration) : res string :=
  match SignedString secret (access_claims playerID now ttl) with
  | Ok signed => Ok signed
  | Err e => Err (Wrap "token: sign" e)
  end.

Definition SignSession (secret : string) (playerID : uuid) (matchID : string) (matchPlayers : list string) (now : time) (ttl : duration) : res string :=
  match SignedString secret (session_claims playerID matchID matchPlayers now ttl) with
  | Ok signed => Ok signed
  | Err e => Err (Wrap "token: sign session" e)
  end.

(** A [uuid.UUID] field: the zero UUID when absent, an error when the text does not parse. *)
Definition read_uuid (name : string) (j : json) : res uuid :=
  s ← read_opt j_string name j;
  match s with
  | None => Ok uuid_Nil
  | Some s => match uuid_Parse s with Some u => Ok u | None => Err (ErrText "invalid UUID") end
  end.

Definition read_date (name : string) (j : json) : res (option Z) :=
  match j with
  | JObj fields => match find_field name fields with
                   | Some (JInt z) => Ok (Some z)
                   | Some _ => Err json_mismatch
                   | None => Ok None
                   end
  | _ => Err json_mismatch
  end.

Definition Verify (secret : string) (now : time) (tokenStr : string) : res AccessClaims :=
  match (claims ← ParseWithClaims secret now tokenStr;
         player ← read_uuid "sub" claims;
         iat ← read_date "iat" claims;
         exp ← read_date "exp" claims;
         Ok (mkAccessClaims player iat exp)) with
  | Ok c => Ok c
  | Err e => Err (Wrap "token: verify" e)
  end.

Definition VerifySession (secret : string) (now : time) (tokenStr : string) : res SessionClaims :=
  match (claims ← ParseWithClaims secret now tokenStr;
         player ← read_uuid "sub" claims;
         mid ← read j_string "mid" "" claims;
         mps ← read j_strings "mps" [] claims;
         iat ← read_date "iat" claims;
         exp ← read_date "exp" claims;
         Ok (mkSessionClaims player mid mps iat exp)) with
  | Ok c => Ok c
  | Err e => Err (Wrap "token: verify session" e)
  end.

(** ** The interceptor: who a request acts for *)

(** [strings.CutPrefix]. *)
Fixpoint CutPrefix (s pre : string) : option string :=
  match pre, s with
  | "", _ => Some s
  | String c pre', String c' s' => if Ascii.eqb c c' then CutPrefix s' pre' else None
  | _, _ => None
  end.

(** [authctx.From] of the context [populate] leaves; [header] is the Authorization header, empty
    when there is none. *)
Definition populate (secret : string) (now : time) (header : string) : option uuid :=
  if bool_decide (header = "") then None
  else match CutPrefix header "Bearer " with
       | None => None
       | Some rawToken =>
           match Verify secret now rawToken with
           | Err _ => None
           | Ok claims => Some (ac_PlayerID claims)
           end
       end.

(** ** Refresh tokens *)

(** [hex.EncodeToString]. *)
Definition hex_EncodeToString (buf : list byte) : string := String.concat "" (hex_byte <$> buf).

(** The bytes [rand.Read] delivers, and the raw token with its hash. *)
Definition NewRefresh (Sum256 : string → list byte) (buf : list byte) : string * list byte :=
  let raw := hex_EncodeToString buf in (raw, Sum256 raw).
End signer.

(** ** What the tokens grant *)

Section grants.
Context {U : UuidCodec} {UL : UuidCodecLaws U} {J : Jwt} {JL : JwtLaws J}.

Definition session_of (p : uuid) (matchID : string) (players : list string) (now : time) (ttl : duration) : SessionClaims :=
  mkSessionClaims p (ToValid matchID) (ToValid <$> players) (Some (NumericDate now)) (Some (NumericDate (time_Add now ttl))).

Lemma read_session_claims p matchID players now ttl :
  let j := session_claims p matchID players now ttl in
  claims_exp j = Some (NumericDate (time_Add now ttl)) ∧
  read_uuid "sub" j = Ok p ∧ read j_string "mid" "" j = Ok (ToValid matchID) ∧
  read j_strings "mps" [] j = Ok (ToValid <$> players) ∧
  read_date "iat" j = Ok (Some (NumericDate now)) ∧ read_date "exp" j = Ok (Some (NumericDate (time_Add now ttl))).
Proof.
  unfold session_claims, read_uuid, registered. cbv zeta. case_bool_decide as Hp.
  - subst players. simpl. rewrite uuid_parse_string. done.
  - simpl. rewrite uuid_parse_string. split_and!; try done.
    exact (enc_dec j_strings players _ eq_refl).
Qed.

Lemma read_access_claims p now ttl :
  let j := access_claims p now ttl in
  claims_exp j = Some (NumericDate (time_Add now ttl)) ∧
  read_uuid "sub" j = Ok p ∧ read j_string "mid" "" j = Ok "" ∧ read j_strings "mps" [] j = Ok [] ∧
  read_date "iat" j = Ok (Some (NumericDate now)) ∧ read_date "exp" j = Ok (Some (NumericDate (time_Add now ttl))).
Proof. unfold access_claims, read_uuid, registered. simpl. by rewrite uuid_parse_string. Qed.

Definition expires (now : time) (ttl : duration) : time := NumericDate (time_Add now ttl) * Second.

Lemma verify_session secret p matchID players now ttl tok t :
  SignSession secret p matchID players now ttl = Ok tok →
  VerifySession secret t tok =
    if t <? expires now ttl then Ok (session_of p matchID players now ttl) else Err (Wrap "token: verify session" tokenExpired).
Proof.
  unfold SignSession, VerifySession, expires. destruct (SignedString _ _) as [tok'|e] eqn:Es; [|done]. intros [= ->].
  destruct (read_session_claims p matchID players now ttl) as (Hx & H1 & H2 & H3 & H4 & H5).
  rewrite (parse_signed _ _ _ t _ Es Hx). destruct (t <? _); [|done]. cbn [mbind res_bind].
  by rewrite H1; cbn [mbind res_bind]; rewrite H2; cbn [mbind res_bind]; rewrite H3; cbn [mbind res_bind]; rewrite H4; cbn [mbind res_bind]; rewrite H5.
Qed.

Lemma verify_access secret p now ttl tok t :
  SignAccess secret p now ttl = Ok tok →
  Verify secret t tok =
    (if t <? expires now ttl
     then Ok (mkAccessClaims p (Some (NumericDate now)) (Some (NumericDate (time_Add now ttl))))
     else Err (Wrap "token: verify" tokenExpired)) ∧
  VerifySession secret t tok =
    (if t <? expires now ttl
     then Ok (mkSessionClaims p "" [] (Some (NumericDate now)) (Some (NumericDate (time_Add now ttl))))
     else Err (Wrap "token: verify session" tokenExpired)).
Proof.
  unfold SignAccess, Verify, VerifySession, expires. destruct (SignedString _ _) as [tok'|e] eqn:Es; [|done]. intros [= ->].
  destruct (read_access_claims p now ttl) as (Hx & H1 & H2 & H3 & H4 & H5).
  rewrite (parse_signed _ _ _ t _ Es Hx). destruct (t <? _); [|done]. cbn [mbind res_bind].
  rewrite H1. cbn [mbind res_bind]. rewrite H2. cbn [mbind res_bind]. rewrite H3. cbn [mbind res_bind].
  rewrite H4. cbn [mbind res_bind]. by rewrite H5.
Qed.

Lemma CutPrefix_app pre s : CutPrefix (pre +:+ s) pre = Some s.
Proof. induction pre as [|c pre IH]; [by destruct s|].
  change (CutPrefix (String c (pre +:+ s)) (String c pre) = Some s). cbn [CutPrefix]. by rewrite Ascii.eqb_refl.
Qed.

Lemma populate_bearer secret now tok : populate secret now ("Bearer " +:+ tok) =
  match Verify secret now tok with Ok claims => Some (ac_PlayerID claims) | Err _ => None end.
Proof.
  unfold populate. rewrite bool_decide_eq_false_2 by done.
  rewrite (CutPrefix_app "Bearer " tok). by destruct (Verify secret now tok).
Qed.

(** C6: what each token grants, and until when.  An access token makes a request act for its
    player, and a session token verifies as a seat of its player in its match with its roster, both
    until the expiry rounded down to a whole second (less than a second early) and never after; and
    an access token verified as a session token names no match. *)
Theorem tokens_grant secret p now ttl t :
  (∀ tok, SignAccess secret p now ttl = Ok tok →
     populate secret t ("Bearer " +:+ tok) = (if t <? expires now ttl then Some p else None) ∧
     ∀ c, VerifySession secret t tok = Ok c → sc_MatchID c = "" ∧ sc_MatchPlayers c = []) ∧
  (∀ tok matchID players, SignSession secret p matchID players now ttl = Ok tok →
     VerifySession secret t tok =
       if t <? expires now ttl then Ok (session_of p matchID players now ttl) else Err (Wrap "token: verify session" tokenExpired)) ∧
  now + ttl - Second < expires now ttl ≤ now + ttl.
Proof.
  split_and!.
  - intros tok Hs. destruct (verify_access _ _ _ _ _ t Hs) as [E1 E2]. split.
    + rewrite populate_bearer, E1. by destruct (t <? _).
    + intros c Hc. rewrite E2 in Hc. destruct (t <? _); [|done]. by injection Hc as <-.
  - intros tok matchID players. apply verify_session.
  - pose proof (NumericDate_bounds (time_Add now ttl)). unfold expires, time_Add in *. lia.
  - pose proof (NumericDate_bounds (time_Add now ttl)). unfold expires, time_Add in *. lia.
Qed.
End grants.

(** ** Evaluation

    A library that signs the claims of a list, and whose tokens are their positions in it. *)

Fixpoint position (c : json) (l : list json) : option nat :=
  match l with
  | [] => None
  | x :: l' => if bool_decide (c = x) then Some 0%nat else S <$> position c l'
  end.

Definition list_jwt (l : list json) : Jwt := {|
  SignedString key claims :=
    match position claims l with Some i => Ok (key +:+ pretty i) | None => Err (ErrText "cannot sign") end;
  ParseWithClaims key now tok :=
    match list_find (λ i, tok = key +:+ pretty i) (seq 0 (length l)) with
    | Some (_, i) =>
        match l !! i with
        | Some claims =>
            match claims_exp claims with
            | Some exp => if now <? exp * Second then Ok claims else Err tokenExpired
            | None => Ok claims
            end
        | None => Err (ErrText "signature is invalid")
        end
    | None => Err (ErrText "signature is invalid")
    end;
|}.

Lemma position_lookup c l i : position c l = Some i → l !! i = Some c ∧ (i < length l)%nat.
Proof.
  revert i. induction l as [|x l IH]; intros i; [done|]. simpl. case_bool_decide as Hc; [intros [= <-]; subst; split; [done|lia]|].
  destruct (position c l) as [j|]; [|done]. intros [= <-]. destruct (IH j eq_refl). split; [done|simpl; lia].
Qed.

Lemma list_jwt_laws l : JwtLaws (list_jwt l).
Proof.
  intros key claims tok now exp. cbn. destruct (position claims l) as [i|] eqn:Ep; [|done]. intros [= <-] Hx.
  apply position_lookup in Ep as [Hl Hi].
  assert (Hf : list_find (λ j, key +:+ pretty i = key +:+ pretty j) (seq 0 (length l)) = Some (i, i)).
  { apply list_find_Some. split_and!.
    - by apply lookup_seq_lt.
    - done.
    - intros j y Hy Hj E. apply lookup_seq in Hy as [-> _]. apply prefixed_inj in E. apply (inj pretty) in E. simpl in E. lia. }
  by rewrite Hf, Hl, Hx.
Qed.

Definition demo_now : time := 1700000000123456789.
Definition demo_claims : list json :=
  [access_claims (U := hex_codec) (sample_uuid x01) demo_now (60 * Second);
   session_claims (U := hex_codec) (sample_uuid x01) "m" [hex_String (sample_uuid x01); hex_String (sample_uuid x02)] demo_now (60 * Second)].

Lemma tokens_grant_witness :
  SignAccess (U := hex_codec) (J := list_jwt demo_claims) "k" (sample_uuid x01) demo_now (60 * Second) = Ok "k0" ∧
  populate (U := hex_codec) (J := list_jwt demo_claims) "k" (demo_now + 59 * Second) ("Bearer " +:+ "k0") = Some (sample_uuid x01).
Proof.
  split; [vm_compute; reflexivity|].
  destruct (tokens_grant (U := hex_codec) (J := list_jwt demo_claims) (JL := list_jwt_laws demo_claims) "k" (sample_uuid x01) demo_now (60 * Second)
    (demo_now + 59 * Second)) as [H _].
  destruct (H "k0") as [E _]; [vm_compute; reflexivity|]. rewrite E. vm_compute. reflexivity.
Defined.

(** The gateway takes a session token for an access token: both carry the player as [sub] and are
    signed with the same secret. *)
Example session_token_opens_gateway :
  SignSession (U := hex_codec) (J := list_jwt demo_claims) "k" (sample_uuid x01) "m" [hex_String (sample_uuid x01); hex_String (sample_uuid x02)] demo_now (60 * Second) = Ok "k1" ∧
  populate (U := hex_codec) (J := list_jwt demo_claims) "k" demo_now ("Bearer " +:+ "k1") = Some (sample_uuid x01).
Proof. vm_compute. done. Qed.
