(* ===== verification/Room.v ===== *)
(** * One room match (internal/domain/plugin/plugin.go, internal/usecase/room/match.go)

    The tick loop of a match, its fan-in queues and its fan-out to the players' sessions.  A
    session ([PlayerIO]) is known by a number; what the match does to sessions, channels and the
    plugin is recorded in order in [m_trace].  The tick goroutine can be preempted wherever it holds
    no lock: [yield] runs what other goroutines do there.  Draining a channel is one step, and so is
    each call of [Join], [Leave] and [SubmitInput]: a session that [Leave] takes out of the players is
    closed by it.  The plugin is an interface; a message's protobuf encoding is a parameter. *)

From S2P Require Import Prelude GoBase.

(** ** The plugin contract (domain/plugin/plugin.go) and the messages it exchanges *)

Record PlayerAction := mkPlayerAction { pa_PlayerId : string; pa_ClientTick : Z; pa_Payload : string }.

Inductive NetworkEvent :=
  | PlayerJoined (playerId : string)
  | PlayerLeft (playerId reason : string).

Record OnTickRequest := mkOnTickRequest {
  tr_Tick : Z; tr_Timestamp : time; tr_Actions : list PlayerAction; tr_NetworkEvents : list NetworkEvent;
}.

Record OutboundEvent := mkOutboundEvent { oe_Type : string; oe_Payload : string; oe_Recipients : list string }.

Record OnTickResponse := mkOnTickResponse { tp_StateDelta : string; tp_Events : list OutboundEvent; tp_GameEnded : bool }.

Record InitResponse := mkInitResponse { ir_TickRateHz : Z; ir_InitialSnapshot : string }.

Record PlayerResult := mkPlayerResult { pr_PlayerId : string; pr_Rank : Z; pr_Stats : gmap string string }.
Record OnGameEndResponse := mkOnGameEndResponse { er_FinalState : string; er_PlayerResults : list PlayerResult }.

Class Plugin (P : Type) := {
  pl_Init : list string → P → res InitResponse * P;
  pl_OnTick : OnTickRequest → P → res OnTickResponse * P;
  pl_OnGameEnd : Z → P → res OnGameEndResponse * P;
  pl_Close : P → res unit * P;
}.

(** [proto.Marshal] of the end-of-game message; [None] when it fails. *)
Class ProtoMarshal := marshal_end : OnGameEndResponse → option string.

Inductive Frame :=
  | Frame_Delta (fromTick toTick : Z) (payload : string)
  | Frame_Event (type payload : string).

#[export] Instance PlayerAction_eq_dec : EqDecision PlayerAction.
Proof. solve_decision. Defined.
#[export] Instance NetworkEvent_eq_dec : EqDecision NetworkEvent.
Proof. solve_decision. Defined.
#[export] Instance OnTickRequest_eq_dec : EqDecision OnTickRequest.
Proof. solve_decision. Defined.
#[export] Instance Frame_eq_dec : EqDecision Frame.
Proof. solve_decision. Defined.

(** ** State *)

(** What the match does, in order. *)
Inductive obs :=
  | OJoin (player : uuid) (io : nat)
  | OQueuedInput (a : PlayerAction)
  | ODroppedInput (a : PlayerAction)
  | OQueuedEvent (e : NetworkEvent)
  | ODroppedEvent (e : NetworkEvent)
  | OTick (req : OnTickRequest)
  | OGameEnd (finalTick : Z)
  | OPluginClose
  | OSend (io : nat) (f : Frame)
  | OClose (io : nat).

#[export] Instance obs_eq_dec : EqDecision obs.
Proof. solve_decision. Defined.

(** [Run] is looping, or has returned (and closed [done]). *)
Inductive run_status := Running | Returned (r : res unit).

Record Match (P : Type) := mkMatch {
  m_players : gmap uuid nat; m_currentTick : Z; m_tickRateHz : Z; m_inputs : list PlayerAction; m_events : list NetworkEvent;
  m_plugin : P; m_status : run_status; m_trace : list obs;
}.
Arguments mkMatch {P}.
Arguments m_players {P}.
Arguments m_currentTick {P}.
Arguments m_tickRateHz {P}.
Arguments m_inputs {P}.
Arguments m_events {P}.
Arguments m_plugin {P}.
Arguments m_status {P}.
Arguments m_trace {P}.

(** The calls other goroutines make. *)
Inductive room_op :=
  | OpJoin (player : uuid) (io : nat)
  | OpLeave (player : uuid) (reason : string)
  | OpInput (player : uuid) (clientTick : Z) (payload : string).

Definition tickInterval (rateHz : Z) : duration :=
  if rateHz =? 0 then 50 * Millisecond else Z.quot Second rateHz.

(** [time.NewTicker] panics on an interval that is not positive; the rate is whatever the plugin answers. *)
Lemma tickInterval_positive rateHz : 0 ≤ rateHz < 2 ^ 32 → (0 < tickInterval rateHz ↔ rateHz ≤ 1000000000).
Proof.
  intros H. unfold tickInterval, Second, Millisecond. destruct (Z.eqb_spec rateHz 0) as [->|Hn]; [lia|].
  rewrite Z.quot_div_nonneg by lia. split; intros Hr; [|apply Z.div_str_pos; lia].
  destruct (Z.le_gt_cases rateHz 1000000000) as [|Hlt]; [done|]. rewrite Z.div_small in Hr; lia.
Qed.

Section room.
Context {P : Type} {PL : Plugin P} {PM : ProtoMarshal} {U : UuidCodec} {RO : RangeOrder}.

Definition NewMatch (p : P) (tickRateHz : Z) : Match P := mkMatch ∅ 0 tickRateHz [] [] p Running [].

Definition set_players (ps : gmap uuid nat) (m : Match P) : Match P :=
  mkMatch ps (m_currentTick m) (m_tickRateHz m) (m_inputs m) (m_events m) (m_plugin m) (m_status m) (m_trace m).
Definition set_tick (t : Z) (m : Match P) : Match P :=
  mkMatch (m_players m) t (m_tickRateHz m) (m_inputs m) (m_events m) (m_plugin m) (m_status m) (m_trace m).
Definition set_inputs (l : list PlayerAction) (m : Match P) : Match P :=
  mkMatch (m_players m) (m_currentTick m) (m_tickRateHz m) l (m_events m) (m_plugin m) (m_status m) (m_trace m).
Definition set_events (l : list NetworkEvent) (m : Match P) : Match P :=
  mkMatch (m_players m) (m_currentTick m) (m_tickRateHz m) (m_inputs m) l (m_plugin m) (m_status m) (m_trace m).
Definition set_plugin (p : P) (m : Match P) : Match P :=
  mkMatch (m_players m) (m_currentTick m) (m_tickRateHz m) (m_inputs m) (m_events m) p (m_status m) (m_trace m).
Definition set_status (s : run_status) (m : Match P) : Match P :=
  mkMatch (m_players m) (m_currentTick m) (m_tickRateHz m) (m_inputs m) (m_events m) (m_plugin m) s (m_trace m).
Definition observe (o : obs) : M (Match P) unit := modify (λ m,
  mkMatch (m_players m) (m_currentTick m) (m_tickRateHz m) (m_inputs m) (m_events m) (m_plugin m) (m_status m) (m_trace m ++ [o])).

(** ** Players and inputs *)

(** [select { case m.events <- e: default: }] on a buffer of 32. *)
Definition offer_event (e : NetworkEvent) : M (Match P) unit :=
  m ← Prelude.get;
  if (length (m_events m) <? 32)%nat then _ ← modify (set_events (m_events m ++ [e])); observe (OQueuedEvent e)
  else observe (ODroppedEvent e).

Definition Join (playerID : uuid) (io : nat) : M (Match P) unit :=
  m ← Prelude.get;
  match m_players m !! playerID with
  | Some _ => fail (ErrText "match: player already joined")
  | None =>
      _ ← modify (set_players (<[playerID := io]> (m_players m)));
      _ ← observe (OJoin playerID io);
      offer_event (PlayerJoined (uuid_String playerID))
  end.

Definition Leave (playerID : uuid) (reason : string) : M (Match P) unit :=
  m ← Prelude.get;
  match m_players m !! playerID with
  | None => mret tt
  | Some io =>
      _ ← modify (set_players (delete playerID (m_players m)));
      _ ← observe (OClose io);
      offer_event (PlayerLeft (uuid_String playerID) reason)
  end.

Definition SubmitInput (playerID : uuid) (clientTick : Z) (payload : string) : M (Match P) unit :=
  let action := mkPlayerAction (uuid_String playerID) clientTick payload in
  m ← Prelude.get;
  if (length (m_inputs m) <? 256)%nat then _ ← modify (set_inputs (m_inputs m ++ [action])); observe (OQueuedInput action)
  else observe (ODroppedInput action).

Definition run_op (o : room_op) : M (Match P) unit :=
  match o with
  | OpJoin p io => ignore (Join p io)
  | OpLeave p reason => Leave p reason
  | OpInput p t payload => SubmitInput p t payload
  end.

(** A preemption: other goroutines make these calls. *)
Definition yield (others : list room_op) : M (Match P) unit := for_each run_op others.

(** ** Fan-out *)

Definition send (f : Frame) (io : nat) : M (Match P) unit := observe (OSend io f).

(** The recipients are snapshotted under the lock; the sends run outside it. *)
Definition broadcast (others : list room_op) (f : Frame) : M (Match P) unit :=
  m ← Prelude.get;
  let players := range_order (map_to_list (m_players m)).*2 in
  _ ← yield others;
  for_each (send f) players.

Definition send_to (f : Frame) (rid : string) : M (Match P) unit :=
  m ← Prelude.get;
  match uuid_Parse rid with
  | None => mret tt
  | Some id => match m_players m !! id with None => mret tt | Some io => send f io end
  end.

Definition dispatchEvent (others : list room_op) (ev : OutboundEvent) : M (Match P) unit :=
  let f := Frame_Event (oe_Type ev) (oe_Payload ev) in
  match oe_Recipients ev with
  | [] => broadcast others f
  | rids => _ ← yield others; for_each (send_to f) rids
  end.

Fixpoint dispatchAll (others : nat → list room_op) (k : nat) (evs : list OutboundEvent) : M (Match P) unit :=
  match evs with
  | [] => mret tt
  | ev :: evs' => _ ← dispatchEvent (others k) ev; dispatchAll others (S k) evs'
  end.

Definition closeAllPlayers : M (Match P) unit :=
  m ← Prelude.get;
  _ ← for_each (λ io, observe (OClose io)) (range_order (map_to_list (m_players m)).*2);
  modify (set_players ∅).

(** ** The tick *)

Definition drainActions : M (Match P) (list PlayerAction) :=
  m ← Prelude.get; _ ← modify (set_inputs []); mret (m_inputs m).
Definition drainEvents : M (Match P) (list NetworkEvent) :=
  m ← Prelude.get; _ ← modify (set_events []); mret (m_events m).

Definition call_OnTick (req : OnTickRequest) : M (Match P) OnTickResponse := λ m,
  let '(r, p) := pl_OnTick req (m_plugin m) in
  match r with
  | Ok resp => (_ ← observe (OTick req); mret resp) (set_plugin p m)
  | Err e => (_ ← observe (OTick req); fail (Wrap "plugin OnTick" e)) (set_plugin p m)
  end.

(** [others k] is what other goroutines do at the [k]-th point where the tick can be preempted. *)
Definition tick (now : time) (others : nat → list room_op) : M (Match P) bool :=
  actions ← drainActions;
  _ ← yield (others 0%nat);
  events ← drainEvents;
  _ ← yield (others 1%nat);
  cur ← gets m_currentTick;
  resp ← call_OnTick (mkOnTickRequest cur now actions events);
  _ ← yield (others 2%nat);
  _ ← when (negb (bool_decide (tp_StateDelta resp = "")))
        (broadcast (others 3%nat) (Frame_Delta cur (u32 (cur + 1)) (tp_StateDelta resp)));
  _ ← dispatchAll others 5 (tp_Events resp);
  _ ← yield (others 4%nat);
  _ ← modify (set_tick (u32 (cur + 1)));
  mret (tp_GameEnded resp).

Definition finalise (others : nat → list room_op) : M (Match P) unit :=
  m ← Prelude.get;
  let '(r, p) := pl_OnGameEnd (m_currentTick m) (m_plugin m) in
  _ ← modify (set_plugin p);
  _ ← observe (OGameEnd (m_currentTick m));
  _ ← yield (others 4%nat);
  let payload := match r with Ok resp => from_option id "" (marshal_end resp) | Err _ => "" end in
  _ ← broadcast (others 0%nat) (Frame_Event "game_ended" payload);
  _ ← yield (others 1%nat);
  closeAllPlayers.

(** The deferred calls of [Run]: the plugin is closed, then [done].  No lock is held, so others can call
    in before and after the first. *)
Definition return_from_Run (others : nat → list room_op) (r : res unit) : M (Match P) unit :=
  _ ← yield (others 2%nat);
  _ ← modify (λ m, set_plugin (pl_Close (m_plugin m)).2 m);
  _ ← observe OPluginClose;
  _ ← yield (others 3%nat);
  modify (set_status (Returned r)).

(** ** Run

    One wake-up of the loop's [select]; between two of them other goroutines call in.  [ending k] is
    what they do at the [k]-th point where the end of the match can be preempted. *)
Inductive room_event :=
  | RTick (now : time) (others ending : nat → list room_op)
  | RCancel (ctxErr : error) (ending : nat → list room_op)
  | ROp (o : room_op).

Definition Run_step (e : room_event) : M (Match P) unit :=
  m ← Prelude.get;
  match e, m_status m with
  | ROp o, _ => run_op o
  | _, Returned _ => mret tt
  | RCancel ctxErr ending, Running => _ ← closeAllPlayers; return_from_Run ending (Err ctxErr)
  | RTick now others ending, Running =>
      r ← try (tick now others);
      match r with
      | Err err => _ ← yield (ending 1%nat); _ ← closeAllPlayers; return_from_Run ending (Err err)
      | Ok false => mret tt
      | Ok true => _ ← finalise ending; return_from_Run ending (Ok tt)
      end
  end.

Definition run_match (es : list room_event) (m : Match P) : Match P := foldl (λ m e, (Run_step e m).2) m es.

(** ** Reading a trace *)

Definition ticked_actions (t : list obs) : list PlayerAction :=
  t ≫= λ o, match o with OTick req => tr_Actions req | _ => [] end.
Definition queued_inputs (t : list obs) : list PlayerAction :=
  omap (λ o, match o with OQueuedInput a => Some a | _ => None end) t.
Definition ticked_events (t : list obs) : list NetworkEvent :=
  t ≫= λ o, match o with OTick req => tr_NetworkEvents req | _ => [] end.
Definition queued_events (t : list obs) : list NetworkEvent :=
  omap (λ o, match o with OQueuedEvent e => Some e | _ => None end) t.
Definition tick_numbers (t : list obs) : list Z :=
  omap (λ o, match o with OTick req => Some (tr_Tick req) | _ => None end) t.
Definition sessions (t : list obs) : list nat :=
  omap (λ o, match o with OJoin _ io => Some io | _ => None end) t.

(** ** What other goroutines and the fan-out can do *)

(** Only the tick goroutine ticks, ends or closes the plugin. *)
Definition quiet_obs (o : obs) : Prop := match o with OTick _ | OGameEnd _ | OPluginClose => False | _ => True end.

(** Every session that joined is still a player's, or was closed. *)
Definition accounted (m : Match P) : Prop :=
  ∀ io, io ∈ sessions (m_trace m) → (∃ pid, m_players m !! pid = Some io) ∨ OClose io ∈ m_trace m.

Record quiet (s s' : Match P) : Prop := {
  q_tick : m_currentTick s' = m_currentTick s;
  q_plugin : m_plugin s' = m_plugin s;
  q_status : m_status s' = m_status s;
  q_trace : ∃ t, m_trace s' = m_trace s ++ t ∧ Forall quiet_obs t ∧
    m_inputs s' = m_inputs s ++ queued_inputs t ∧ m_events s' = m_events s ++ queued_events t;
  q_inputs : (length (m_inputs s) ≤ 256)%nat → (length (m_inputs s') ≤ 256)%nat;
  q_events : (length (m_events s) ≤ 32)%nat → (length (m_events s') ≤ 32)%nat;
  q_accounted : accounted s → accounted s';
  q_players : ∀ t, m_trace s' = m_trace s ++ t → ∀ pid io, m_players s' !! pid = Some io → m_players s !! pid = Some io ∨ io ∈ sessions t;
}.

Lemma queued_inputs_app t1 t2 : queued_inputs (t1 ++ t2) = queued_inputs t1 ++ queued_inputs t2.
Proof. apply omap_app. Qed.
Lemma queued_events_app t1 t2 : queued_events (t1 ++ t2) = queued_events t1 ++ queued_events t2.
Proof. apply omap_app. Qed.
Lemma sessions_app t1 t2 : sessions (t1 ++ t2) = sessions t1 ++ sessions t2.
Proof. apply omap_app. Qed.
Lemma tick_numbers_app t1 t2 : tick_numbers (t1 ++ t2) = tick_numbers t1 ++ tick_numbers t2.
Proof. apply omap_app. Qed.
Lemma ticked_actions_app t1 t2 : ticked_actions (t1 ++ t2) = ticked_actions t1 ++ ticked_actions t2.
Proof. apply bind_app. Qed.
Lemma ticked_events_app t1 t2 : ticked_events (t1 ++ t2) = ticked_events t1 ++ ticked_events t2.
Proof. apply bind_app. Qed.

Lemma quiet_reads t : Forall quiet_obs t → ticked_actions t = [] ∧ ticked_events t = [] ∧ tick_numbers t = [].
Proof. induction 1 as [|o t Ho Ht IH]; [done|]. by destruct o. Qed.

Lemma quiet_refl s : quiet s s.
Proof. split; try done; [|by left]. exists []. by rewrite !app_nil_r. Qed.

Lemma quiet_trans s1 s2 s3 : quiet s1 s2 → quiet s2 s3 → quiet s1 s3.
Proof.
  intros [? ? ? (t1 & E1 & H1 & I1 & V1) ? ? ? P1] [? ? ? (t2 & E2 & H2 & I2 & V2) ? ? ? P2]. split; try congruence; auto.
  - exists (t1 ++ t2). rewrite E2, E1, I2, I1, V2, V1, queued_inputs_app, queued_events_app, !app_assoc.
    split_and!; try done. by apply list.Forall_app.
  - intros t Et pid io Hp. rewrite E2, E1, <- app_assoc in Et. apply app_inv_head in Et as <-. rewrite sessions_app, elem_of_app.
    destruct (P2 t2 E2 _ _ Hp) as [Hp1|?]; [|by auto]. destruct (P1 t1 E1 _ _ Hp1); auto.
Qed.

(** A step that only other goroutines' calls and the fan-out take. *)
Definition is_quiet {A} (c : M (Match P) A) : Prop := ∀ s, quiet s (c s).2.

Lemma quiet_ret {A} (a : A) : is_quiet (mret a).
Proof. intros s. apply quiet_refl. Qed.

Lemma quiet_fail {A} e : is_quiet (fail (A := A) e).
Proof. intros s. apply quiet_refl. Qed.

Lemma quiet_bind {A B} (c : M (Match P) A) (f : A → M (Match P) B) : is_quiet c → (∀ a, is_quiet (f a)) → is_quiet (c ≫= f).
Proof.
  intros Hc Hf s. rewrite M_bind_eval. specialize (Hc s). destruct (c s) as [[a|e] s1]; simpl in *; [|done].
  eapply quiet_trans; [exact Hc|apply Hf].
Qed.

Lemma quiet_get {A} (f : Match P → M (Match P) A) : (∀ m, quiet m (f m m).2) → is_quiet (Prelude.get ≫= f).
Proof. intros H s. apply H. Qed.

Lemma quiet_for_each {A} (f : A → M (Match P) unit) l : (∀ a, is_quiet (f a)) → is_quiet (for_each f l).
Proof. intros H. induction l as [|x l IH]; simpl; [apply quiet_ret|by apply quiet_bind]. Qed.

Lemma quiet_ignore {A} (c : M (Match P) A) : is_quiet c → is_quiet (ignore c).
Proof. intros H s. exact (H s). Qed.

(** One observation that neither queues, joins nor ticks. *)
Lemma quiet_observe o :
  quiet_obs o → queued_inputs [o] = [] → queued_events [o] = [] → sessions [o] = [] → is_quiet (observe o).
Proof.
  intros Ho Hi He Hs s. split; try done; simpl.
  - exists [o]. rewrite Hi, He, !app_nil_r. split_and!; try done. by apply Forall_singleton.
  - intros Ha io. unfold accounted in *. simpl. rewrite sessions_app, Hs, app_nil_r. intros [?|?]%Ha; [by left|right].
    apply elem_of_app. by left.
  - by left.
Qed.

(** Changing the players and observing why; the queues are not touched. *)
Lemma quiet_players s ps o :
  quiet_obs o → queued_inputs [o] = [] → queued_events [o] = [] →
  (∀ io, io ∈ sessions [o] → ∃ pid, ps !! pid = Some io) →
  (∀ pid io, m_players s !! pid = Some io → (∃ pid', ps !! pid' = Some io) ∨ o = OClose io) →
  (∀ pid io, ps !! pid = Some io → m_players s !! pid = Some io ∨ io ∈ sessions [o]) →
  quiet s (observe o (set_players ps s)).2.
Proof.
  intros Ho Hi He Hnew Hold Hps. split; try done; simpl.
  3: { intros t Et. by apply app_inv_head in Et as <-. }
  - exists [o]. rewrite Hi, He, !app_nil_r. split_and!; try done. by apply Forall_singleton.
  - intros Ha io. unfold accounted in *. simpl. rewrite sessions_app, elem_of_app. intros [H|H].
    + destruct (Ha io H) as [[pid Hp]|Hc]; [|right; apply elem_of_app; by left].
      destruct (Hold _ _ Hp) as [?| ->]; [by left|right; apply elem_of_app; right; by left].
    + left. by apply Hnew.
Qed.

Lemma quiet_offer_event e : is_quiet (offer_event e).
Proof.
  unfold offer_event. apply quiet_get. intros m. destruct (Nat.ltb_spec (length (m_events m)) 32) as [Hl|Hl].
  - split; try done; simpl.
    + exists [OQueuedEvent e]. rewrite app_nil_r. split_and!; try done. by apply Forall_singleton.
    + intros _. rewrite length_app. simpl. lia.
    + intros Ha io. unfold accounted in *. simpl. rewrite sessions_app, app_nil_r. intros [?|?]%Ha; [by left|right].
      apply elem_of_app. by left.
    + by left.
  - by apply quiet_observe.
Qed.

Lemma quiet_op o : is_quiet (run_op o).
Proof.
  destruct o as [p io|p reason|p t payload]; simpl.
  - apply quiet_ignore. unfold Join. apply quiet_get. intros m. destruct (m_players m !! p) as [io'|] eqn:E; [apply quiet_refl|].
    rewrite M_bind_eval. cbn [modify]. rewrite M_bind_eval.
    eapply quiet_trans; [|apply quiet_offer_event].
    apply quiet_players; try done.
    + intros io' Hin. exists p. simpl in Hin. apply list_elem_of_singleton in Hin as ->. apply lookup_insert_eq.
    + intros pid io' Hp. left. exists pid. rewrite lookup_insert_ne; [done|]. intros ->. congruence.
    + intros pid io' Hp. apply lookup_insert_Some in Hp as [[_ <-]|[_ ?]]; [right; by left|by left].
  - unfold Leave. apply quiet_get. intros m. destruct (m_players m !! p) as [io|] eqn:E; [|apply quiet_refl].
    rewrite M_bind_eval. cbn [modify]. rewrite M_bind_eval.
    eapply quiet_trans; [|apply quiet_offer_event].
    apply quiet_players; try done; [intros io' Hin; by apply elem_of_nil in Hin| |intros pid io' Hp; apply lookup_delete_Some in Hp as [_ ?]; by left].
    intros pid io' Hp. destruct (decide (pid = p)) as [->|Hne]; [right; congruence|].
    left. exists pid. by rewrite lookup_delete_ne.
  - unfold SubmitInput. cbv zeta. apply quiet_get. intros m. destruct (Nat.ltb_spec (length (m_inputs m)) 256) as [Hl|Hl].
    + split; try done; simpl.
      * exists [OQueuedInput (mkPlayerAction (uuid_String p) t payload)]. rewrite app_nil_r. split_and!; try done. by apply Forall_singleton.
      * intros _. rewrite length_app. simpl. lia.
      * intros Ha io. unfold accounted in *. simpl. rewrite sessions_app, app_nil_r. intros [?|?]%Ha; [by left|right].
        apply elem_of_app. by left.
      * by left.
    + by apply quiet_observe.
Qed.

Lemma quiet_yield others : is_quiet (yield others).
Proof. apply quiet_for_each, quiet_op. Qed.

Lemma quiet_send f io : is_quiet (send f io).
Proof. by apply quiet_observe. Qed.

Lemma quiet_broadcast others f : is_quiet (broadcast others f).
Proof.
  unfold broadcast. apply quiet_get. intros m. cbv zeta.
  apply (quiet_bind _ _ (quiet_yield others)). intros _. apply quiet_for_each, quiet_send.
Qed.

Lemma quiet_dispatch others ev : is_quiet (dispatchEvent others ev).
Proof.
  unfold dispatchEvent. cbv zeta. destruct (oe_Recipients ev); [apply quiet_broadcast|].
  apply quiet_bind; [apply quiet_yield|]. intros _. apply quiet_for_each. intros rid. unfold send_to. apply quiet_get. intros m.
  destruct (uuid_Parse rid) as [id|]; [|apply quiet_refl]. destruct (m_players m !! id); [apply quiet_send|apply quiet_refl].
Qed.

Lemma quiet_dispatchAll others k evs : is_quiet (dispatchAll others k evs).
Proof.
  revert k. induction evs as [|ev evs IH]; intros k; simpl; [apply quiet_ret|].
  apply quiet_bind; [apply quiet_dispatch|]. intros _. apply IH.
Qed.

(** ** The invariant of a match *)

(** The ends of a match: the plugin's end-of-game call, then its closing. *)
Definition ends (t : list obs) : list bool :=
  omap (λ o, match o with OGameEnd _ => Some false | OPluginClose => Some true | _ => None end) t.

Lemma ends_app t1 t2 : ends (t1 ++ t2) = ends t1 ++ ends t2.
Proof. apply omap_app. Qed.

Lemma quiet_ends t : Forall quiet_obs t → ends t = [].
Proof. induction 1 as [|o t Ho Ht IH]; [done|]. by destruct o. Qed.

Definition numbered (l : list Z) : Prop := l = (λ k, u32 (Z.of_nat k)) <$> seq 0 (length l).

(** [actions] and [events] are drained but not yet handed to the plugin. *)
Record holding (actions : list PlayerAction) (events : list NetworkEvent) (m : Match P) : Prop := {
  h_inputs : ticked_actions (m_trace m) ++ actions ++ m_inputs m = queued_inputs (m_trace m);
  h_events : ticked_events (m_trace m) ++ events ++ m_events m = queued_events (m_trace m);
  h_numbered : numbered (tick_numbers (m_trace m));
  h_bound : (length (m_inputs m) ≤ 256)%nat ∧ (length (m_events m) ≤ 32)%nat;
  h_accounted : accounted m;
}.

Definition at_tick (m : Match P) : Prop :=
  m_currentTick m = u32 (Z.of_nat (length (tick_numbers (m_trace m)))).

Record match_inv (m : Match P) : Prop := {
  inv_core : holding [] [] m;
  inv_status : match m_status m with
    | Running => at_tick m ∧ ends (m_trace m) = []
    | Returned (Ok _) => ends (m_trace m) = [false; true]
    | Returned (Err _) => ends (m_trace m) = [true]
    end;
}.

Lemma holding_quiet actions events s s' : quiet s s' → holding actions events s → holding actions events s'.
Proof.
  intros [_ _ _ (t & Et & Hq & Ei & Ee) Hbi Hbe Ha _] [H1 H2 H3 [H4 H5] H6].
  destruct (quiet_reads t Hq) as (Ra & Re & Rn). split; [..|by auto|by auto].
  - rewrite Et, Ei, ticked_actions_app, Ra, queued_inputs_app, <- H1, app_nil_r, !app_assoc. done.
  - rewrite Et, Ee, ticked_events_app, Re, queued_events_app, <- H2, app_nil_r, !app_assoc. done.
  - by rewrite Et, tick_numbers_app, Rn, app_nil_r.
Qed.

Lemma quiet_keeps s s' : quiet s s' → (at_tick s → at_tick s') ∧ ends (m_trace s') = ends (m_trace s) ∧
  tick_numbers (m_trace s') = tick_numbers (m_trace s).
Proof.
  intros [Ht _ _ (t & Et & Hq & _) _ _ _ _]. destruct (quiet_reads t Hq) as (_ & _ & Rn).
  unfold at_tick. rewrite Et, ends_app, tick_numbers_app, Rn, (quiet_ends t Hq), !app_nil_r, Ht. done.
Qed.

Lemma run_quiet {A} (c : M (Match P) A) s : is_quiet c → ∃ r s', c s = (r, s') ∧ quiet s s'.
Proof. intros H. specialize (H s). destruct (c s) as [r s']. by exists r, s'. Qed.

(** A computation that cannot fail. *)
Definition total {A} (c : M (Match P) A) : Prop := ∀ s, is_ok (c s).1 = true.

Lemma total_bind {A B} (c : M (Match P) A) (f : A → M (Match P) B) : total c → (∀ a, total (f a)) → total (c ≫= f).
Proof. intros Hc Hf s. rewrite M_bind_eval. specialize (Hc s). destruct (c s) as [[a|e] s1]; [apply Hf|done]. Qed.

Lemma total_get {A} (f : Match P → M (Match P) A) : (∀ m, total (f m)) → total (Prelude.get ≫= f).
Proof. intros H s. apply H. Qed.

Lemma total_for_each {A} (f : A → M (Match P) unit) l : (∀ a, total (f a)) → total (for_each f l).
Proof. intros H. induction l as [|x l IH]; simpl; [done|by apply total_bind]. Qed.

Lemma total_offer_event e : total (offer_event e).
Proof. unfold offer_event. apply total_get. intros m. by case_match. Qed.

Lemma total_op o : total (run_op o).
Proof.
  destruct o as [p io|p reason|p t payload]; simpl; [done| |].
  - unfold Leave. apply total_get. intros m. destruct (m_players m !! p); [|done].
    apply total_bind; [done|]. intros _. apply total_bind; [done|]. intros _. apply total_offer_event.
  - unfold SubmitInput. cbv zeta. apply total_get. intros m. by case_match.
Qed.

Lemma total_yield others : total (yield others).
Proof. apply total_for_each, total_op. Qed.

Lemma total_broadcast others f : total (broadcast others f).
Proof. unfold broadcast. apply total_get. intros m. apply total_bind; [apply total_yield|]. intros _. by apply total_for_each. Qed.

Lemma total_dispatchAll others k evs : total (dispatchAll others k evs).
Proof.
  revert k. induction evs as [|ev evs IH]; intros k; simpl; [done|]. apply total_bind; [|intros _; apply IH].
  unfold dispatchEvent. cbv zeta. destruct (oe_Recipients ev); [apply total_broadcast|].
  apply total_bind; [apply total_yield|]. intros _. apply total_for_each. intros rid. unfold send_to. apply total_get. intros m.
  destruct (uuid_Parse rid) as [id|]; [|done]. by destruct (m_players m !! id).
Qed.

(** *** Stepping through the tick *)

Definition triple {A} (Pre : Match P → Prop) (c : M (Match P) A) (Post : A → Match P → Prop) (Ex : Match P → Prop) : Prop :=
  ∀ s, Pre s → match c s with (Ok a, s') => Post a s' | (Err _, s') => Ex s' end.

Lemma triple_bind {A B} Pre (c : M (Match P) A) Mid (f : A → M (Match P) B) Post Ex :
  triple Pre c Mid Ex → (∀ a, triple (Mid a) (f a) Post Ex) → triple Pre (c ≫= f) Post Ex.
Proof.
  intros Hc Hf s Hs. rewrite M_bind_eval. specialize (Hc s Hs). destruct (c s) as [[a|e] s1]; [|done]. by apply Hf.
Qed.

Lemma triple_quiet {A} (Pre : Match P → Prop) (c : M (Match P) A) Ex :
  is_quiet c → total c → (∀ s s', quiet s s' → Pre s → Pre s') → triple Pre c (λ _, Pre) Ex.
Proof.
  intros Hq Ht Hst s Hs. specialize (Hq s). specialize (Ht s). destruct (c s) as [[a|e] s']; [|done]. by eapply Hst.
Qed.

Lemma triple_quiet_bind {A B} (Pre : Match P → Prop) (c : M (Match P) A) (f : A → M (Match P) B) Post Ex :
  is_quiet c → total c → (∀ s s', quiet s s' → Pre s → Pre s') → (∀ a, triple Pre (f a) Post Ex) → triple Pre (c ≫= f) Post Ex.
Proof. intros. eapply triple_bind; [by apply triple_quiet|done]. Qed.

Lemma numbered_snoc l : numbered l → numbered (l ++ [u32 (Z.of_nat (length l))]).
Proof. unfold numbered. intros H. rewrite length_app. simpl. rewrite seq_app, fmap_app, <- H. done. Qed.

(** Before the plugin is called: what is drained is held, the tick counter is that of the last tick. *)
Definition drained (s0 : Match P) (actions : list PlayerAction) (events : list NetworkEvent) (s : Match P) : Prop :=
  holding actions events s ∧ at_tick s ∧ m_status s = m_status s0 ∧ ends (m_trace s) = ends (m_trace s0).

(** After it: the counter [cur] is that of the tick in progress. *)
Definition ticked (s0 : Match P) (cur : Z) (s : Match P) : Prop :=
  holding [] [] s ∧ u32 (cur + 1) = u32 (Z.of_nat (length (tick_numbers (m_trace s)))) ∧
  m_status s = m_status s0 ∧ ends (m_trace s) = ends (m_trace s0).

Lemma drained_quiet s0 actions events s s' : quiet s s' → drained s0 actions events s → drained s0 actions events s'.
Proof.
  intros Hq (H1 & H2 & H3 & H4). destruct (quiet_keeps _ _ Hq) as (K1 & K2 & _).
  split_and!; [by eapply holding_quiet|auto|by rewrite (q_status _ _ Hq)|congruence].
Qed.

Lemma ticked_quiet s0 cur s s' : quiet s s' → ticked s0 cur s → ticked s0 cur s'.
Proof.
  intros Hq (H1 & H2 & H3 & H4). destruct (quiet_keeps _ _ Hq) as (_ & K2 & K3). unfold ticked. rewrite K3.
  split_and!; [by eapply holding_quiet|done|by rewrite (q_status _ _ Hq)|congruence].
Qed.

Lemma drainActions_spec s0 Ex : triple (drained s0 [] []) drainActions (λ actions, drained s0 actions []) Ex.
Proof.
  intros s ([H1 H2 H3 [H4 H5] H6] & Hat & Hst & He). unfold drained. split_and!; [|done..].
  split; simpl; rewrite ?app_nil_r; try done. split; simpl; [lia|done].
Qed.

Lemma drainEvents_spec s0 actions Ex : triple (drained s0 actions []) drainEvents (λ events, drained s0 actions events) Ex.
Proof.
  intros s ([H1 H2 H3 [H4 H5] H6] & Hat & Hst & He). unfold drained. split_and!; [|done..].
  split; simpl; rewrite ?app_nil_r; try done. split; simpl; [done|lia].
Qed.

Lemma u32_succ z : u32 (u32 z + 1) = u32 (z + 1).
Proof. unfold u32. by rewrite Zplus_mod_idemp_l. Qed.

Lemma call_OnTick_spec s0 cur now actions events :
  triple (λ s, drained s0 actions events s ∧ m_currentTick s = cur) (call_OnTick (mkOnTickRequest cur now actions events))
    (λ _, ticked s0 cur) (ticked s0 cur).
Proof.
  intros s (([H1 H2 H3 H4 H6] & Hat & Hst & He) & Hcur). unfold at_tick in Hat. rewrite Hcur in Hat.
  assert (H : ticked s0 cur (observe (OTick (mkOnTickRequest cur now actions events)) (set_plugin (pl_OnTick (mkOnTickRequest cur now actions events) (m_plugin s)).2 s)).2).
  { unfold ticked. simpl. rewrite tick_numbers_app, ends_app, length_app, app_nil_r. simpl. split_and!; [|by rewrite Hat, u32_succ, Nat2Z.inj_add|done..].
    split; simpl; rewrite ?ticked_actions_app, ?ticked_events_app, ?queued_inputs_app, ?queued_events_app, ?tick_numbers_app; simpl; rewrite ?app_nil_r, <- ?app_assoc; try done.
    - rewrite Hat. by apply numbered_snoc.
    - intros io. unfold accounted in *. simpl. rewrite sessions_app, app_nil_r. intros [?|?]%H6; [by left|right]. apply elem_of_app. by left. }
  unfold call_OnTick. destruct (pl_OnTick _ (m_plugin s)) as [[resp|e] p]; exact H.
Qed.

Lemma tick_triple now others s0 :
  triple (drained s0 [] []) (tick now others) (λ _, drained s0 [] [])
    (λ s, holding [] [] s ∧ m_status s = m_status s0 ∧ ends (m_trace s) = ends (m_trace s0)).
Proof.
  unfold tick. eapply triple_bind; [apply drainActions_spec|]. intros actions.
  apply triple_quiet_bind; [apply quiet_yield|apply total_yield|apply drained_quiet|intros _].
  eapply triple_bind; [apply drainEvents_spec|]. intros events.
  apply triple_quiet_bind; [apply quiet_yield|apply total_yield|apply drained_quiet|intros _].
  apply (triple_bind _ _ (λ cur s, drained s0 actions events s ∧ m_currentTick s = cur)); [by intros s Hs|]. intros cur.
  assert (Hw : ∀ s, ticked s0 cur s → holding [] [] s ∧ m_status s = m_status s0 ∧ ends (m_trace s) = ends (m_trace s0))
    by (intros s (? & _ & ? & ?); done).
  apply (triple_bind _ _ (λ _, ticked s0 cur)).
  { intros s Hs. pose proof (call_OnTick_spec s0 cur now actions events s Hs) as H. destruct (call_OnTick _ s) as [[resp|e] s']; [done|by apply Hw]. }
  intros resp.
  apply triple_quiet_bind; [apply quiet_yield|apply total_yield|apply ticked_quiet|intros _].
  apply triple_quiet_bind; [unfold when; case_match; [apply quiet_broadcast|apply quiet_ret]|
    unfold when; case_match; [apply total_broadcast|done]|apply ticked_quiet|intros _].
  apply triple_quiet_bind; [apply quiet_dispatchAll|apply total_dispatchAll|apply ticked_quiet|intros _].
  apply triple_quiet_bind; [apply quiet_yield|apply total_yield|apply ticked_quiet|intros _].
  intros s ([H1 H2 H3 H4 H6] & Ht & Hst & He). simpl. unfold drained, at_tick. simpl. split_and!; [|done..]. by split.
Qed.

(** ** The end of a match *)

Lemma observe_all {A} (f : A → obs) l (s : Match P) :
  for_each (λ x, observe (f x)) l s
    = (Ok tt, mkMatch (m_players s) (m_currentTick s) (m_tickRateHz s) (m_inputs s) (m_events s) (m_plugin s) (m_status s) (m_trace s ++ (f <$> l))).
Proof.
  revert s. induction l as [|x l IH]; intros s; simpl; [by destruct s; rewrite app_nil_r|].
  rewrite M_bind_eval. simpl. rewrite IH. simpl. by rewrite <- app_assoc.
Qed.

Context {ROL : RangeOrderLaw RO}.

Lemma elem_of_players (m : Match P) io : io ∈ range_order (map_to_list (m_players m)).*2 ↔ ∃ pid, m_players m !! pid = Some io.
Proof.
  rewrite range_perm, list_elem_of_fmap. split.
  - intros ([pid io'] & -> & H). exists pid. by apply elem_of_map_to_list.
  - intros [pid H]. exists (pid, io). split; [done|]. by apply elem_of_map_to_list.
Qed.

(** Everybody who had joined by some point of the trace was closed by then; whoever is still a player
    joined later; and the plugin was closed later, once. *)
Definition shut (t1 t2 : list obs) (m : Match P) : Prop :=
  m_trace m = t1 ++ t2 ∧ (∀ io, io ∈ sessions t1 → OClose io ∈ t1) ∧
  (∀ pid io, m_players m !! pid = Some io → io ∈ sessions t2) ∧ ends t2 = [true].

Lemma closeAll_spec (s : Match P) :
  ∃ s', closeAllPlayers s = (Ok tt, s') ∧ quiet s s' ∧ m_players s' = ∅ ∧
    (accounted s → ∀ io, io ∈ sessions (m_trace s') → OClose io ∈ m_trace s').
Proof.
  unfold closeAllPlayers. rewrite M_bind_eval. cbn [Prelude.get]. rewrite M_bind_eval, (observe_all OClose). eexists. split; [done|].
  set (ios := range_order (map_to_list (m_players s)).*2).
  assert (Hq : Forall quiet_obs (OClose <$> ios)) by (apply list.Forall_fmap, list.Forall_forall; done).
  assert (Hi : queued_inputs (OClose <$> ios) = [] ∧ queued_events (OClose <$> ios) = [] ∧ sessions (OClose <$> ios) = [])
    by (clearbody ios; clear; induction ios as [|x l IH]; [done|exact IH]).
  destruct Hi as (Hi & He & Hs).
  assert (Hcl : accounted s → ∀ io, io ∈ sessions (m_trace s ++ (OClose <$> ios)) → OClose io ∈ m_trace s ++ (OClose <$> ios)).
  { intros Ha io. rewrite sessions_app, Hs, app_nil_r. intros H. apply elem_of_app. destruct (Ha io H) as [Hp|Hc]; [right|by left].
    apply list_elem_of_fmap_2. by apply elem_of_players. }
  split; [|by split]. split; try done; simpl.
  - eexists. split; [done|]. rewrite Hi, He, !app_nil_r. done.
  - intros Ha io H. right. by apply Hcl.
Qed.

(** An observation that is of no concern to the queues and the players. *)
Definition aside (o : obs) : Prop := match o with OGameEnd _ | OPluginClose => True | _ => False end.

Lemma holding_aside o p (s : Match P) : aside o → holding [] [] s → holding [] [] (observe o (set_plugin p s)).2.
Proof.
  intros Ho [H1 H2 H3 [H4 H5] H6].
  assert (ticked_actions [o] = [] ∧ ticked_events [o] = [] ∧ queued_inputs [o] = [] ∧ queued_events [o] = [] ∧ sessions [o] = [] ∧ tick_numbers [o] = [])
    as (E1 & E2 & E3 & E4 & E5 & E6) by (by destruct o).
  split; simpl; rewrite ?ticked_actions_app, ?ticked_events_app, ?queued_inputs_app, ?queued_events_app, ?tick_numbers_app, ?E1, ?E2, ?E3, ?E4, ?E6;
    simpl; rewrite ?app_nil_r; try done.
  intros io. simpl. rewrite sessions_app, E5, app_nil_r. intros [?|?]%H6; [by left|right]. apply elem_of_app. by left.
Qed.

(** What other goroutines do at one preemption. *)
Lemma yield_spec others (s : Match P) : ∃ s' t, yield others s = (Ok tt, s') ∧ quiet s s' ∧ m_trace s' = m_trace s ++ t ∧ Forall quiet_obs t.
Proof.
  pose proof (total_yield others s) as Ht. pose proof (quiet_yield others s) as Hq.
  destruct (yield others s) as [[[]|e] s']; [|done]. destruct (q_trace _ _ Hq) as (t & Et & Hqt & _). by exists s', t.
Qed.

(** The deferred calls, with what can come between them. *)
Lemma return_spec others r (s : Match P) :
  holding [] [] s →
  ∃ s' t2 t3, return_from_Run others r s = (Ok tt, s') ∧ holding [] [] s' ∧ m_status s' = Returned r ∧
    m_plugin s' = (pl_Close (m_plugin s)).2 ∧ m_trace s' = m_trace s ++ t2 ++ OPluginClose :: t3 ∧ Forall quiet_obs t2 ∧ Forall quiet_obs t3 ∧
    ∀ pid io, m_players s' !! pid = Some io → m_players s !! pid = Some io ∨ io ∈ sessions (t2 ++ OPluginClose :: t3).
Proof.
  intros Hh. destruct (yield_spec (others 2%nat) s) as (s1 & t2 & E1 & Q1 & Et1 & Hq2).
  set (s2 := (observe OPluginClose (set_plugin (pl_Close (m_plugin s1)).2 s1)).2).
  destruct (yield_spec (others 3%nat) s2) as (s3 & t3 & E3 & Q3 & Et3 & Hq3). exists (set_status (Returned r) s3), t2, t3. split.
  { unfold return_from_Run. rewrite M_bind_eval, E1, M_bind_eval. cbn [modify]. rewrite M_bind_eval.
    change (observe OPluginClose (set_plugin (pl_Close (m_plugin s1)).2 s1)) with (Ok tt, s2). cbn iota beta. by rewrite M_bind_eval, E3. }
  pose proof (holding_quiet _ _ _ _ Q3 (holding_aside OPluginClose (pl_Close (m_plugin s1)).2 _ I (holding_quiet _ _ _ _ Q1 Hh))) as Hh3.
  split; [by destruct Hh3; split|]. split; [done|]. split; [cbn; by rewrite (q_plugin _ _ Q3); cbn; rewrite (q_plugin _ _ Q1)|]. split.
  { cbn. rewrite Et3. cbn. by rewrite Et1, <- !app_assoc. }
  split; [done|]. split; [done|]. intros pid io Hp. change (m_players s3 !! pid = Some io) in Hp.
  rewrite sessions_app, elem_of_app. destruct (q_players _ _ Q3 t3 Et3 _ _ Hp) as [Hp2|?]; [|right; by right].
  destruct (q_players _ _ Q1 t2 Et1 _ _ Hp2) as [?|?]; [by left|right; by left].
Qed.

(** Closing everybody, then returning. *)
Lemma stop_spec others r (s : Match P) :
  holding [] [] s →
  ∃ s' t1 t2, (_ ← closeAllPlayers; return_from_Run others r) s = (Ok tt, s') ∧ holding [] [] s' ∧ m_status s' = Returned r ∧
    m_plugin s' = (pl_Close (m_plugin s)).2 ∧ shut (m_trace s ++ t1) t2 s' ∧ Forall quiet_obs t1 ∧ ticked_actions t2 = [].
Proof.
  intros Hh. rewrite M_bind_eval. destruct (closeAll_spec s) as (s1 & -> & Hq & Hp1 & Hcl).
  destruct (q_trace _ _ Hq) as (t1 & Et1 & Hq1 & _).
  destruct (return_spec others r s1 (holding_quiet _ _ _ _ Hq Hh)) as (s2 & t2 & t3 & E & Hh2 & Hst & Epl & Et & Hq2 & Hq3 & Hpl).
  exists s2, t1, (t2 ++ OPluginClose :: t3). split; [done|]. split; [done|]. split; [done|]. split; [by rewrite Epl, (q_plugin _ _ Hq)|].
  split; [|split; [done|by rewrite ticked_actions_app, (proj1 (quiet_reads t2 Hq2)); apply (quiet_reads t3 Hq3)]].
  rewrite <- Et1. split_and!; [done|by apply Hcl, (h_accounted _ _ _ Hh)| |].
  - intros pid io Hp. destruct (Hpl pid io Hp) as [H|?]; [|done]. by rewrite Hp1, lookup_empty in H.
  - rewrite ends_app, (quiet_ends t2 Hq2). cbn. f_equal. apply (quiet_ends t3 Hq3).
Qed.

(** A broadcast reaches every session that was a player's when it was snapshotted. *)
Lemma broadcast_reaches others f (s : Match P) :
  ∃ s' t, broadcast others f s = (Ok tt, s') ∧ quiet s s' ∧ m_trace s' = m_trace s ++ t ∧
    ∀ pid io, m_players s !! pid = Some io → OSend io f ∈ t.
Proof.
  pose proof (quiet_broadcast others f s) as Hq. unfold broadcast in *. rewrite M_bind_eval in *. cbn [Prelude.get] in *. rewrite M_bind_eval in *.
  pose proof (total_yield others s) as Ht. pose proof (quiet_yield others s) as Hqy.
  destruct (yield others s) as [[[]|e] s1]; [|done]. rewrite (observe_all (λ io, OSend io f)) in *. simpl in *.
  destruct (q_trace _ _ Hqy) as (t1 & E1 & _). eexists _, (t1 ++ ((λ io, OSend io f) <$> range_order (map_to_list (m_players s)).*2)).
  split; [done|]. split; [done|]. split; [simpl; by rewrite E1, app_assoc|].
  intros pid io Hp. apply elem_of_app. right. apply (list_elem_of_fmap_2 (λ io, OSend io f)). apply elem_of_players. by exists pid.
Qed.

(** What the event at the end of the game carries. *)
Definition end_payload (s : Match P) : string :=
  match (pl_OnGameEnd (m_currentTick s) (m_plugin s)).1 with Ok resp => from_option id "" (marshal_end resp) | Err _ => "" end.

(** The match after OnGameEnd, when the players are about to be told. *)
Definition game_over (s : Match P) : Match P :=
  (observe (OGameEnd (m_currentTick s)) (set_plugin (pl_OnGameEnd (m_currentTick s) (m_plugin s)).2 s)).2.

(** Finalising and returning: [t0] is what comes before the players are told, [t1] what comes until they
    are closed. *)
Lemma finalise_spec ending (s : Match P) :
  holding [] [] s →
  ∃ sb s' t0 t1 t2, (_ ← finalise ending; return_from_Run ending (Ok tt)) s = (Ok tt, s') ∧ holding [] [] s' ∧ m_status s' = Returned (Ok tt) ∧
    m_plugin s' = (pl_Close (pl_OnGameEnd (m_currentTick s) (m_plugin s)).2).2 ∧
    yield (ending 4%nat) (game_over s) = (Ok tt, sb) ∧ holding [] [] sb ∧ m_trace sb = m_trace s ++ OGameEnd (m_currentTick s) :: t0 ∧
    shut (m_trace sb ++ t1) t2 s' ∧ Forall quiet_obs t0 ∧ Forall quiet_obs t1 ∧ ticked_actions t2 = [] ∧
    ∀ pid io, m_players sb !! pid = Some io → OSend io (Frame_Event "game_ended" (end_payload s)) ∈ t1.
Proof.
  intros Hh. pose proof (holding_aside (OGameEnd (m_currentTick s)) (pl_OnGameEnd (m_currentTick s) (m_plugin s)).2 _ I Hh) as Hg.
  fold (game_over s) in Hg. destruct (yield_spec (ending 4%nat) (game_over s)) as (sb & t0 & E0 & Q0 & Et0 & Hq0).
  pose proof (holding_quiet _ _ _ _ Q0 Hg) as Hb.
  destruct (broadcast_reaches (ending 0%nat) (Frame_Event "game_ended" (end_payload s)) sb) as (s2 & t2 & E2 & Q2 & Et2 & Hsend).
  destruct (yield_spec (ending 1%nat) s2) as (s3 & t3 & E3 & Q3 & Et3 & Hq3).
  destruct (stop_spec ending (Ok tt) s3 (holding_quiet _ _ _ _ Q3 (holding_quiet _ _ _ _ Q2 Hb))) as (s4 & t4 & t5 & E4 & Hh4 & Hst & Epl & Hsh & Hq4 & Ht5).
  destruct (q_trace _ _ Q2) as (t2' & Et2' & Hq2 & _). rewrite Et2 in Et2'. apply app_inv_head in Et2' as <-.
  exists sb, s4, t0, (t2 ++ t3 ++ t4), t5. split.
  { unfold finalise. rewrite M_bind_eval in E4 |- *. rewrite (M_bind_eval Prelude.get). cbn [Prelude.get].
    revert E0 E2. unfold game_over, end_payload. destruct (pl_OnGameEnd (m_currentTick s) (m_plugin s)) as [r p]. cbn [fst snd]. intros E0 E2.
    rewrite (M_bind_eval (modify _)). cbn [modify]. rewrite (M_bind_eval (observe _)). cbn [observe modify snd] in E0 |- *.
    rewrite (M_bind_eval (yield _)), E0. cbv zeta. rewrite (M_bind_eval (broadcast _ _)), E2, (M_bind_eval (yield _)), E3. exact E4. }
  split; [done|]. split; [done|]. split; [rewrite Epl, (q_plugin _ _ Q3), (q_plugin _ _ Q2), (q_plugin _ _ Q0); done|].
  split; [done|]. split; [done|]. split; [rewrite Et0; cbn; by rewrite <- app_assoc|]. split.
  { rewrite Et3, Et2, <- !app_assoc in Hsh. by rewrite <- ?app_assoc. }
  split; [done|]. split; [by rewrite !list.Forall_app|]. split; [done|]. intros pid io Hp. apply elem_of_app. left. by eapply Hsend.
Qed.

(** Once OnGameEnd has been called, everybody who is a player when the word goes round, that is, who
    joined and was not closed, is sent it. *)
Definition told_end (t : list obs) : Prop :=
  ∃ before k between after payload, t = before ++ (OGameEnd k :: between) ++ after ∧ Forall quiet_obs between ∧
    ∀ io, io ∈ sessions (before ++ OGameEnd k :: between) →
      OClose io ∈ before ++ OGameEnd k :: between ∨ OSend io (Frame_Event "game_ended" payload) ∈ after.

(** The end of a step that ends the match. *)
Lemma returned_inv r t1 t2 (m : Match P) :
  holding [] [] m → m_status m = Returned r → shut t1 t2 m → ends t1 = (if is_ok r then [false] else []) → match_inv m.
Proof.
  intros Hh Hst (Et & _ & _ & E2) E1. split; [done|]. rewrite Hst, Et, ends_app, E1, E2. by destruct r.
Qed.

Lemma Run_step_inv e (m : Match P) :
  match_inv m →
  let m' := (Run_step e m).2 in
  match_inv m' ∧
  (m_status m <> Running → m_status m' = m_status m ∧ ends (m_trace m') = ends (m_trace m) ∧ tick_numbers (m_trace m') = tick_numbers (m_trace m)) ∧
  (m_status m = Running → ∀ r, m_status m' = Returned r →
     ∃ t1 t2, shut t1 t2 m' ∧ ends t1 = (if is_ok r then [false] else []) ∧ (r = Ok tt → told_end t1)).
Proof.
  intros Hm. unfold Run_step. rewrite M_bind_eval. cbn [Prelude.get].
  destruct e as [now others ending|ctxErr ending|o].
  - destruct (m_status m) as [|r0] eqn:Est; [|done].
    destruct Hm as [Hh Hs]. rewrite Est in Hs. destruct Hs as [Hat He]. rewrite M_bind_eval. unfold try.
    pose proof (tick_triple now others m m (conj Hh (conj Hat (conj eq_refl eq_refl)))) as Ht.
    destruct (tick now others m) as [[[]|err] s1]; cbn [fst snd].
    + destruct Ht as (Hh1 & Hat1 & Hst1 & He1).
      destruct (finalise_spec ending s1 Hh1) as (sb & s2 & t0 & t1 & t2 & E & Hh2 & Hst & _ & _ & Hb & Etb & Hsh & Hq0 & Hq1 & _ & Hsend).
      rewrite E. cbn [snd].
      assert (He2 : ends (m_trace sb ++ t1) = [false]).
      { rewrite Etb, !ends_app, He1, He, (quiet_ends t1 Hq1).
        change (ends (OGameEnd (m_currentTick s1) :: t0)) with (false :: ends t0). by rewrite (quiet_ends t0 Hq0). }
      split; [by eapply returned_inv|split; [done|]]. intros _ r Hr. rewrite Hst in Hr. injection Hr as <-.
      exists (m_trace sb ++ t1), t2. split_and!; [done|done|]. intros _. exists (m_trace s1), (m_currentTick s1), t0, t1, (end_payload s1).
      rewrite app_assoc, <- Etb. split_and!; [done|done|]. intros io Hio.
      destruct (h_accounted _ _ _ Hb io Hio) as [[pid Hp]|?]; [right; by eapply Hsend|by left].
    + destruct Ht as (Hh1 & Hat1 & Hst1 & He1). split; [|split; [done|cbn; congruence]]. cbn. split; [done|]. rewrite Hst1, Est. split; [done|congruence].
    + destruct Ht as (Hh1 & Hst1 & He1). destruct (yield_spec (ending 1%nat) s1) as (sy & ty & Ey & Qy & Ety & Hqy).
      destruct (stop_spec ending (Err err) sy (holding_quiet _ _ _ _ Qy Hh1)) as (s2 & t1 & t2 & E & Hh2 & Hst & _ & Hsh & Hq1 & _).
      rewrite M_bind_eval, Ey, E. cbn [snd].
      assert (He2 : ends (m_trace sy ++ t1) = []) by (by rewrite Ety, !ends_app, (quiet_ends t1 Hq1), (quiet_ends ty Hqy), He1, He).
      split; [by eapply returned_inv|split; [done|]]. intros _ r Hr. rewrite Hst in Hr. injection Hr as <-. exists (m_trace sy ++ t1), t2. by split_and!.
  - destruct (m_status m) as [|r0] eqn:Est; [|done].
    destruct Hm as [Hh Hs]. rewrite Est in Hs. destruct Hs as [Hat He].
    destruct (stop_spec ending (Err ctxErr) m Hh) as (s2 & t1 & t2 & E & Hh2 & Hst & _ & Hsh & Hq1 & _). rewrite E. cbn [snd].
    assert (He2 : ends (m_trace m ++ t1) = []) by (by rewrite !ends_app, (quiet_ends t1 Hq1), He).
    split; [by eapply returned_inv|split; [done|]]. intros _ r Hr. rewrite Hst in Hr. injection Hr as <-. exists (m_trace m ++ t1), t2. by split_and!.
  - pose proof (quiet_op o m) as Hq. destruct (quiet_keeps _ _ Hq) as (K1 & K2 & K3).
    set (m' := (run_op o m).2) in *. split; [|split; [intros _; split_and!; [apply Hq|done|done]|rewrite (q_status _ _ Hq); congruence]].
    destruct Hm as [Hh Hs]. split; [by eapply holding_quiet|]. rewrite (q_status _ _ Hq), K2.
    destruct (m_status m); [|done]. destruct Hs. auto.
Qed.

Lemma run_match_inv es (m : Match P) : match_inv m → match_inv (run_match es m).
Proof. revert m. induction es as [|e es IH]; intros m Hm; [done|]. apply IH, Run_step_inv, Hm. Qed.

Lemma new_match_inv p rate : match_inv (NewMatch p rate).
Proof. split; [|done]. split; try done; [split; simpl; lia|]. intros io H. by apply elem_of_nil in H. Qed.

Lemma run_after_return es (m : Match P) :
  match_inv m → m_status m <> Running →
  m_status (run_match es m) = m_status m ∧ ends (m_trace (run_match es m)) = ends (m_trace m) ∧
  tick_numbers (m_trace (run_match es m)) = tick_numbers (m_trace m).
Proof.
  revert m. induction es as [|e es IH]; intros m Hm Hs; [done|]. cbn [run_match foldl].
  destruct (Run_step_inv e m Hm) as (Hm1 & Hk & _). destruct (Hk Hs) as (Es & Ee & En).
  change (foldl (λ m e, (Run_step e m).2) (Run_step e m).2 es) with (run_match es (Run_step e m).2).
  rewrite <- Es in Hs. destruct (IH _ Hm1 Hs) as (-> & -> & ->). done.
Qed.

(** C14: whatever the plugin answers and however other goroutines' calls fall between and inside the
    ticks, the inputs the match accepted are the inputs the plugin was given, each once and in
    order, followed by those still queued; likewise the join and leave events; the queues respect
    their capacities; and the plugin sees consecutive tick numbers from 0 (modulo 2^32). *)
Theorem room_inputs_exactly_once p rate es :
  let m := run_match es (NewMatch p rate) in
  queued_inputs (m_trace m) = ticked_actions (m_trace m) ++ m_inputs m ∧
  queued_events (m_trace m) = ticked_events (m_trace m) ++ m_events m ∧
  (length (m_inputs m) ≤ 256)%nat ∧ (length (m_events m) ≤ 32)%nat ∧
  ∀ k n, tick_numbers (m_trace m) !! k = Some n → n = u32 (Z.of_nat k).
Proof.
  intros m. destruct (inv_core _ (run_match_inv es _ (new_match_inv p rate))) as [H1 H2 H3 [H4 H5] _].
  split_and!; try done. intros k n Hk. unfold numbered in H3. unfold m in Hk. rewrite H3, list_lookup_fmap in Hk.
  apply fmap_Some in Hk as (j & Hj & ->). apply lookup_seq in Hj as [-> _]. done.
Qed.

End room.

(** ** Evaluated instances *)

(** A plugin that ends the game at its third tick and answers each action with a targeted event. *)
#[export] Instance demo_plugin : Plugin nat := {|
  pl_Init _ n := (Ok (mkInitResponse 10 ""), n);
  pl_OnTick req n := (Ok (mkOnTickResponse "delta"
    ((λ a, mkOutboundEvent "echo" (pa_Payload a) [pa_PlayerId a]) <$> tr_Actions req) (2 <=? n)%nat), S n);
  pl_OnGameEnd _ n := (Ok (mkOnGameEndResponse "final" []), n);
  pl_Close n := (Ok tt, n);
|}.
Definition demo_marshal : ProtoMarshal := λ r, Some (er_FinalState r).

Definition demo_room (es : list room_event) : Match nat :=
  @run_match nat demo_plugin demo_marshal hex_codec range_id es (NewMatch 0%nat 10).
Definition demo_step (e : room_event) (m : Match nat) : Match nat := (@Run_step nat demo_plugin demo_marshal hex_codec range_id e m).2.

Definition no_calls : nat → list room_op := λ _, [].
Definition demo_events : list room_event :=
  [ROp (OpJoin (sample_uuid x0a) 1); ROp (OpInput (sample_uuid x0a) 1 "a1");
   RTick 1000 (λ k, if (k =? 1)%nat then [OpJoin (sample_uuid x0b) 2; OpInput (sample_uuid x0b) 1 "b1"] else []) no_calls;
   RTick 2000 no_calls no_calls].

Lemma room_inputs_exactly_once_witness :
  queued_inputs (m_trace (demo_room demo_events)) = ticked_actions (m_trace (demo_room demo_events)) ++ m_inputs (demo_room demo_events) ∧
  length (queued_inputs (m_trace (demo_room demo_events))) = 2%nat.
Proof.
  split; [|vm_compute; reflexivity]. unfold demo_room.
  pose proof (room_inputs_exactly_once (PM := demo_marshal) (U := hex_codec) (RO := range_id) (ROL := range_id_law) 0%nat 10 demo_events) as H.
  cbv zeta in H. exact (proj1 H).
Defined.

(** A third player joins after everybody was closed, before [Run] returns. *)
Definition late_ending : nat → list room_op := λ k, if (k =? 2)%nat then [OpJoin (sample_uuid x0c) 3] else [].


(** The last tick: both sessions get the event and are then closed. *)
Example demo_end :
  m_trace (demo_step (RTick 3000 no_calls no_calls) (demo_room demo_events))
    = m_trace (demo_room demo_events) ++
      [OTick (mkOnTickRequest 2 3000 [] []); OSend 2 (Frame_Delta 2 3 "delta"); OSend 1 (Frame_Delta 2 3 "delta"); OGameEnd 3;
       OSend 2 (Frame_Event "game_ended" "final"); OSend 1 (Frame_Event "game_ended" "final"); OClose 2; OClose 1; OPluginClose].
Proof. vm_compute. reflexivity. Qed.

(** A player who joins between the closing of the players and the return of [Run], or after it, is
    accepted, and nothing ever closes its session. *)
Example late_join_accepted :
  let m := demo_step (ROp (OpJoin (sample_uuid x0e) 4)) (demo_step (RTick 3000 no_calls late_ending) (demo_room demo_events)) in
  m_status m = Returned (Ok tt) ∧ m_players m !! sample_uuid x0c = Some 3%nat ∧ m_players m !! sample_uuid x0e = Some 4%nat ∧
  bool_decide (OClose 3 ∈ m_trace m) = false ∧ m_trace (demo_step (RTick 4000 no_calls no_calls) m) = m_trace m.
Proof. vm_compute. done. Qed.
