(* ===== verification/RoomManager.v ===== *)
(** * The room manager (internal/usecase/room/manager.go)

    [FindOrCreate] holds the manager's lock only around its lookup and its publication, so any number
    of calls, the goroutines that run the matches, and their clean-ups interleave.  Each section of
    the code between two points where the lock is free is one operation on the manager; [mgr_step]
    lets any thread take its next one.  A match is known by its reference, a plugin instance by its
    number; what the factory and the plugin's Init answer is open. *)

From S2P Require Import Prelude GoBase.

(** ** The manager *)

(** [mg_instances] are the plugin instances that were created and not closed. *)
Record Manager := mkManager {
  mg_matches : gmap uuid nat; mg_active : Z; mg_instances : gset nat; mg_nextInstance : nat; mg_nextMatch : nat;
}.

Definition NewManager : Manager := mkManager ∅ 0 ∅ 0 0.

Definition Get (matchID : uuid) (mgr : Manager) : option nat := mg_matches mgr !! matchID.
Definition Count (mgr : Manager) : Z := Z.of_nat (size (mg_matches mgr)).

Definition closeInstance (n : nat) : M Manager unit := modify (λ mgr,
  mkManager (mg_matches mgr) (mg_active mgr) (mg_instances mgr ∖ {[ n ]}) (mg_nextInstance mgr) (mg_nextMatch mgr)).

(** [factory.Create] and [Init], outside the lock: an instance whose Init fails is closed. *)
Definition buildPlugin (create : option error) (init : res Z) : M Manager nat := λ mgr,
  match create with
  | Some e => (Err e, mgr)
  | None =>
      let n := mg_nextInstance mgr in
      let mgr := mkManager (mg_matches mgr) (mg_active mgr) (mg_instances mgr ∪ {[ n ]}) (S n) (mg_nextMatch mgr) in
      match init with
      | Err e => (_ ← closeInstance n; fail e) mgr
      | Ok _ => (Ok n, mgr)
      end
  end.

(** The second locked section: the first to publish wins, the loser closes its instance.  The result
    tells the match and whether it is this caller's, which then starts [Run]. *)
Definition publish (matchID : uuid) (instance : nat) : M Manager (nat * bool) := λ mgr,
  match mg_matches mgr !! matchID with
  | Some existing => (_ ← closeInstance instance; mret (existing, false)) mgr
  | None =>
      let ref := mg_nextMatch mgr in
      (Ok (ref, true), mkManager (<[matchID := ref]> (mg_matches mgr)) (mg_active mgr + 1) (mg_instances mgr) (mg_nextInstance mgr) (S ref))
  end.

(** A call that nothing overtakes. *)
Definition FindOrCreate (matchID : uuid) (create : option error) (init : res Z) : M Manager nat := λ mgr,
  match Get matchID mgr with
  | Some existing => (Ok existing, mgr)
  | None => (n ← buildPlugin create init; r ← publish matchID n; mret r.1) mgr
  end.

Definition cleanup (matchID : uuid) (self : nat) (mgr : Manager) : Manager :=
  if bool_decide (mg_matches mgr !! matchID = Some self)
  then mkManager (delete matchID (mg_matches mgr)) (mg_active mgr) (mg_instances mgr) (mg_nextInstance mgr) (mg_nextMatch mgr)
  else mgr.

Definition DecActiveMatches (mgr : Manager) : Manager :=
  mkManager (mg_matches mgr) (mg_active mgr - 1) (mg_instances mgr) (mg_nextInstance mgr) (mg_nextMatch mgr).

(** ** Threads *)

(** Where a [FindOrCreate] call is. *)
Inductive call_pc :=
  | AtLookup
  | AtBuild
  | AtPublish (instance : nat)
  | CallDone (r : res nat).

(** Where a match's goroutine is: in [Run], at its cleanup, at its metric, finished. *)
Inductive run_pc := InRun | AtCleanup | AtDec | Finished.

#[export] Instance run_pc_eq_dec : EqDecision run_pc.
Proof. solve_decision. Defined.

Record run := mkRun { r_matchID : uuid; r_instance : nat; r_pc : run_pc }.

Record world := mkWorld { w_mgr : Manager; w_calls : gmap nat (uuid * call_pc); w_runs : gmap nat run }.

Definition empty_world : world := mkWorld NewManager ∅ ∅.

(** The world after a thread's next step. *)
Definition after_call (i : nat) (matchID : uuid) (pc : call_pc) (w : world) : world :=
  mkWorld (w_mgr w) (<[i := (matchID, pc)]> (w_calls w)) (w_runs w).
Definition after_lookup (i : nat) (matchID : uuid) (w : world) : world :=
  after_call i matchID (match Get matchID (w_mgr w) with Some existing => CallDone (Ok existing) | None => AtBuild end) w.
Definition after_build (i : nat) (matchID : uuid) (create : option error) (init : res Z) (w : world) : world :=
  let '(r, mgr') := buildPlugin create init (w_mgr w) in
  mkWorld mgr' (<[i := (matchID, match r with Ok n => AtPublish n | Err e => CallDone (Err e) end)]> (w_calls w)) (w_runs w).
Definition after_publish (i : nat) (matchID : uuid) (n : nat) (w : world) : world :=
  match publish matchID n (w_mgr w) with
  | (Ok (ref, won), mgr') =>
      mkWorld mgr' (<[i := (matchID, CallDone (Ok ref))]> (w_calls w))
        (if won : bool then <[ref := mkRun matchID n InRun]> (w_runs w) else w_runs w)
  | (Err _, _) => w
  end.
Definition after_run (ref : nat) (matchID : uuid) (n : nat) (pc : run_pc) (mgr' : Manager) (w : world) : world :=
  mkWorld mgr' (w_calls w) (<[ref := mkRun matchID n pc]> (w_runs w)).

(** One thread takes one step. *)
Inductive mgr_step : world → world → Prop :=
  | step_call w i matchID :
      w_calls w !! i = None → mgr_step w (after_call i matchID AtLookup w)
  | step_lookup w i matchID :
      w_calls w !! i = Some (matchID, AtLookup) → mgr_step w (after_lookup i matchID w)
  | step_build w i matchID create init :
      w_calls w !! i = Some (matchID, AtBuild) → mgr_step w (after_build i matchID create init w)
  | step_publish w i matchID n :
      w_calls w !! i = Some (matchID, AtPublish n) → mgr_step w (after_publish i matchID n w)
  | step_return w ref matchID n :
      w_runs w !! ref = Some (mkRun matchID n InRun) →
      mgr_step w (after_run ref matchID n AtCleanup (closeInstance n (w_mgr w)).2 w)
  | step_cleanup w ref matchID n :
      w_runs w !! ref = Some (mkRun matchID n AtCleanup) →
      mgr_step w (after_run ref matchID n AtDec (cleanup matchID ref (w_mgr w)) w)
  | step_dec w ref matchID n :
      w_runs w !! ref = Some (mkRun matchID n AtDec) →
      mgr_step w (after_run ref matchID n Finished (DecActiveMatches (w_mgr w)) w).

Definition reachable (w : world) : Prop := rtc mgr_step empty_world w.

(** ** The invariant *)

(** The match is in the map: it runs, or has not been cleaned up. *)
Definition listed (pc : run_pc) : Prop := pc = InRun ∨ pc = AtCleanup.

Definition unfinished (r : run) : Prop := r_pc r <> Finished.
#[export] Instance unfinished_dec r : Decision (unfinished r).
Proof. unfold unfinished. apply _. Defined.

(** Who must close an open instance: the call about to publish it, or the match it runs. *)
Definition held_by_call (w : world) (n : nat) : Prop := ∃ i matchID, w_calls w !! i = Some (matchID, AtPublish n).
Definition held_by_run (w : world) (n : nat) : Prop := ∃ ref matchID, w_runs w !! ref = Some (mkRun matchID n InRun).

Record mgr_inv (w : world) : Prop := {
  mi_listed : ∀ matchID ref, mg_matches (w_mgr w) !! matchID = Some ref ↔
    ∃ n pc, w_runs w !! ref = Some (mkRun matchID n pc) ∧ listed pc;
  mi_open : ∀ n, n ∈ mg_instances (w_mgr w) ↔ held_by_call w n ∨ held_by_run w n;
  mi_call_unique : ∀ i j m m' n, w_calls w !! i = Some (m, AtPublish n) → w_calls w !! j = Some (m', AtPublish n) → i = j;
  mi_run_unique : ∀ ref ref' m m' n pc pc', w_runs w !! ref = Some (mkRun m n pc) → w_runs w !! ref' = Some (mkRun m' n pc') → ref = ref';
  mi_disjoint : ∀ i m n, w_calls w !! i = Some (m, AtPublish n) → ∀ ref m' pc, w_runs w !! ref <> Some (mkRun m' n pc);
  mi_fresh_call : ∀ i m n, w_calls w !! i = Some (m, AtPublish n) → (n < mg_nextInstance (w_mgr w))%nat;
  mi_fresh_run : ∀ ref m n pc, w_runs w !! ref = Some (mkRun m n pc) → (n < mg_nextInstance (w_mgr w) ∧ ref < mg_nextMatch (w_mgr w))%nat;
  mi_active : mg_active (w_mgr w) = Z.of_nat (size (filter (λ kr, unfinished kr.2) (w_runs w)));
  mi_done : ∀ i m ref, w_calls w !! i = Some (m, CallDone (Ok ref)) → ∃ n pc, w_runs w !! ref = Some (mkRun m n pc);
}.

(** Case split every lookup in an updated map. *)
Ltac split_lookups :=
  repeat match goal with
  | H : <[_ := _]> _ !! _ = Some _ |- _ => apply lookup_insert_Some in H as [[? ?]|[? ?]]; simplify_eq/=
  end.

Lemma filter_size_insert_same {V} (p : V → Prop) `{∀ v, Decision (p v)} (m : gmap nat V) i x y :
  m !! i = Some x → (p x ↔ p y) →
  size (filter (λ kv, p kv.2) (<[i := y]> m)) = size (filter (λ kv, p kv.2) m).
Proof.
  intros Hx Hxy. rewrite map_filter_insert. case_decide as Hp; simpl in Hp.
  - apply map_size_insert_Some. exists x. apply map_lookup_filter_Some. simpl. tauto.
  - rewrite map_filter_delete_not; [done|]. intros v Hv Hpv. simplify_eq. simpl in Hpv. tauto.
Qed.

Lemma filter_size_drop {V} (p : V → Prop) `{∀ v, Decision (p v)} (m : gmap nat V) i x y :
  m !! i = Some x → p x → ~ p y →
  Z.of_nat (size (filter (λ kv, p kv.2) (<[i := y]> m))) = Z.of_nat (size (filter (λ kv, p kv.2) m)) - 1.
Proof.
  intros Hx Hp Hn. rewrite map_filter_insert_False by done. rewrite map_filter_delete.
  assert (Hl : filter (λ kv, p kv.2) m !! i = Some x) by (by apply map_lookup_filter_Some).
  rewrite map_size_delete_Some by (by eexists). destruct (size (filter (λ kv, p kv.2) m)) eqn:E; [|lia].
  apply map_size_empty_inv in E. by rewrite E, lookup_empty in Hl.
Qed.

Lemma filter_size_new {V} (p : V → Prop) `{∀ v, Decision (p v)} (m : gmap nat V) i y :
  m !! i = None → p y →
  Z.of_nat (size (filter (λ kv, p kv.2) (<[i := y]> m))) = Z.of_nat (size (filter (λ kv, p kv.2) m)) + 1.
Proof.
  intros Hx Hp. rewrite map_filter_insert_True by done. rewrite map_size_insert_None; [lia|]. apply map_lookup_filter_None. by left.
Qed.

(** A call moves between two places where it holds no instance. *)
Lemma inv_call_moves w i matchID pc0 pc :
  mgr_inv w → (w_calls w !! i = None ∨ w_calls w !! i = Some (matchID, pc0)) →
  (∀ n, pc0 <> AtPublish n) → (∀ n, pc <> AtPublish n) →
  (∀ ref, pc = CallDone (Ok ref) → ∃ n pc', w_runs w !! ref = Some (mkRun matchID n pc')) →
  mgr_inv (mkWorld (w_mgr w) (<[i := (matchID, pc)]> (w_calls w)) (w_runs w)).
Proof.
  intros [I1 I2 I3 I4 I5 I6 I7 I8 I9] Hi Hn0 Hn Hd.
  assert (Hc : ∀ j m n, <[i := (matchID, pc)]> (w_calls w) !! j = Some (m, AtPublish n) ↔ w_calls w !! j = Some (m, AtPublish n)).
  { intros j m n. rewrite lookup_insert_Some. split; [naive_solver|]. intros Hj. right. split; [|done]. intros ->.
    destruct Hi as [Hi|Hi]; [congruence|]. rewrite Hi in Hj. naive_solver. }
  split; cbn [w_mgr w_calls w_runs]; try done.
  - intros n. rewrite I2. unfold held_by_call, held_by_run. cbn [w_calls w_runs]. by setoid_rewrite Hc.
  - intros j k m m' n. rewrite !Hc. apply I3.
  - intros j m n. rewrite Hc. apply I5.
  - intros j m n. rewrite Hc. apply I6.
  - intros j m ref [[<- [= <- ->]]|[_ Hj]]%lookup_insert_Some; [by apply Hd|by eapply I9].
Qed.

Lemma inv_build w i matchID create init r mgr' :
  mgr_inv w → w_calls w !! i = Some (matchID, AtBuild) → buildPlugin create init (w_mgr w) = (r, mgr') →
  mgr_inv (mkWorld mgr' (<[i := (matchID, match r with Ok n => AtPublish n | Err e => CallDone (Err e) end)]> (w_calls w)) (w_runs w)).
Proof.
  intros Hw Hi. unfold buildPlugin. destruct create as [e|].
  { intros [= <- <-]. by apply (inv_call_moves w i matchID AtBuild); [|right|..]. }
  assert (Hfresh : mg_nextInstance (w_mgr w) ∉ mg_instances (w_mgr w)).
  { intros [(j & m & Hj)|(ref & m & Hr)]%(mi_open _ Hw).
    - apply (mi_fresh_call _ Hw) in Hj. lia.
    - apply (mi_fresh_run _ Hw) in Hr as [Hr _]. lia. }
  destruct init as [rate|e]; intros [= <- <-].
  - destruct Hw as [I1 I2 I3 I4 I5 I6 I7 I8 I9]. split; cbn [w_mgr w_calls w_runs mg_matches mg_instances mg_nextInstance mg_nextMatch mg_active]; try done.
    + intros n. rewrite elem_of_union, elem_of_singleton, I2. unfold held_by_call, held_by_run. cbn [w_calls w_runs]. split.
      * intros [[(j & m & Hj)|Hr]| ->]; [left|by right|left].
        -- exists j, m. rewrite lookup_insert_ne; [done|]. intros ->. congruence.
        -- exists i, matchID. apply lookup_insert_eq.
      * intros [(j & m & [[_ [= _ <-]]|[_ Hj]]%lookup_insert_Some)|Hr]; [by right|left; left; eauto|left; by right].
    + intros j k m m' n Hj Hk. split_lookups; try done; try (by eapply I3);
        match goal with H : w_calls w !! _ = Some (_, AtPublish _) |- _ => apply I6 in H; lia end.
    + intros j m n Hj ref m' pc Hr. split_lookups; [apply I7 in Hr; lia|by eapply I5].
    + intros j m n Hj. split_lookups; [lia|apply I6 in H0; lia].
    + intros ref m n pc Hr. apply I7 in Hr. lia.
    + intros j m ref Hj. split_lookups. by eapply I9.
  - destruct (inv_call_moves w i matchID AtBuild (CallDone (Err e)) Hw (or_intror Hi)) as [I1 I2 I3 I4 I5 I6 I7 I8 I9]; try done.
    split; cbn [w_mgr w_calls w_runs mg_matches mg_instances mg_nextInstance mg_nextMatch mg_active] in *; try done.
    + intros k. specialize (I2 k). unfold held_by_call, held_by_run in *. cbn [w_calls w_runs] in *.
      rewrite elem_of_difference, elem_of_union, elem_of_singleton, <- I2. split; [by intros [[?|?] ?]|].
      intros Hk. split; [by left|by intros ->].
    + intros j m n Hj. apply I6 in Hj. lia.
    + intros ref m n pc Hr. apply I7 in Hr. lia.
Qed.

Lemma inv_publish w i matchID n ref won mgr' :
  mgr_inv w → w_calls w !! i = Some (matchID, AtPublish n) → publish matchID n (w_mgr w) = (Ok (ref, won), mgr') →
  mgr_inv (mkWorld mgr' (<[i := (matchID, CallDone (Ok ref))]> (w_calls w)) (if won : bool then <[ref := mkRun matchID n InRun]> (w_runs w) else w_runs w)).
Proof.
  intros [I1 I2 I3 I4 I5 I6 I7 I8 I9] Hi. unfold publish.
  assert (Hc : ∀ j m k, <[i := (matchID, CallDone (Ok ref))]> (w_calls w) !! j = Some (m, AtPublish k) ↔ j <> i ∧ w_calls w !! j = Some (m, AtPublish k)).
  { intros j m k. rewrite lookup_insert_Some. naive_solver. }
  assert (Hno : ∀ j m k, j <> i → w_calls w !! j = Some (m, AtPublish k) → k <> n) by (intros j m k Hne Hj ->; by eapply Hne, I3).
  destruct (mg_matches (w_mgr w) !! matchID) as [existing|] eqn:Em; intros [= <- <- <-].
  - apply I1 in Em as Hx. destruct Hx as (n' & pc' & Hrun & _).
    split; cbn [w_mgr w_calls w_runs mg_matches mg_instances mg_nextInstance mg_nextMatch mg_active closeInstance modify]; try done.
    + intros k. rewrite elem_of_difference, elem_of_singleton, I2. unfold held_by_call, held_by_run. cbn [w_calls w_runs]. split.
      * intros [[(j & m & Hj)|Hr] Hne]; [left|by right]. exists j, m. apply Hc. split; [|done]. intros ->. congruence.
      * intros [(j & m & [Hne Hj]%Hc)|(r & m & Hr)]; (split; [by eauto|]); [by eapply Hno|]. intros ->. by eapply I5.
    + intros j k m m' l [_ Hj]%Hc [_ Hk]%Hc. by eapply I3.
    + intros j m l [_ Hj]%Hc. by eapply I5.
    + intros j m l [_ Hj]%Hc. by eapply I6.
    + intros j m r Hj. split_lookups; [by eauto|by eapply I9].
  - set (ref' := mg_nextMatch (w_mgr w)) in *.
    assert (Hnew : w_runs w !! ref' = None).
    { destruct (w_runs w !! ref') as [[m k pc]|] eqn:E; [|done]. apply I7 in E as [_ E]. unfold ref' in E. lia. }
    split; cbn [w_mgr w_calls w_runs mg_matches mg_instances mg_nextInstance mg_nextMatch mg_active].
    + intros m r. rewrite lookup_insert_Some, I1. split.
      * intros [[<- <-]|[Hne (k & pc & Hr & Hl)]]; [exists n, InRun; split; [apply lookup_insert_eq|by left]|].
        exists k, pc. split; [|done]. rewrite lookup_insert_ne; [done|]. intros <-. congruence.
      * intros (k & pc & Hr & Hl). split_lookups; [by left|right]. split; [|by eauto]. intros ->.
        assert (mg_matches (w_mgr w) !! m = Some r) by (apply I1; eauto). congruence.
    + intros k. rewrite I2. unfold held_by_call, held_by_run. cbn [w_calls w_runs]. split.
      * intros [(j & m & Hj)|(r & m & Hr)].
        -- destruct (decide (j = i)) as [->|Hne]; [|left; exists j, m; by apply Hc].
           rewrite Hi in Hj. injection Hj as <- <-. right. exists ref', matchID. apply lookup_insert_eq.
        -- right. exists r, m. rewrite lookup_insert_ne; [done|]. intros <-. congruence.
      * intros [(j & m & [Hne Hj]%Hc)|(r & m & Hr)]; [by left; eauto|]. split_lookups; [left; eauto|right; eauto].
    + intros j k m m' l [_ Hj]%Hc [_ Hk]%Hc. by eapply I3.
    + intros r r' m m' k pc pc' Hr Hr'. split_lookups; [done|exfalso; by eapply I5|exfalso; by eapply I5|by eapply I4].
    + intros j m k [Hne Hj]%Hc r m' pc Hr. split_lookups; [by eapply Hno|by eapply I5].
    + intros j m l [_ Hj]%Hc. by eapply I6.
    + apply I6 in Hi as Hlt. intros r m k pc [[<- [= _ <- _]]|[_ Hr%I7]]%lookup_insert_Some; lia.
    + etransitivity; [|symmetry; apply (filter_size_new unfinished (w_runs w) ref' (mkRun matchID n InRun) Hnew); done].
      by rewrite I8.
    + intros j m r Hj. split_lookups; [exists n, InRun; apply lookup_insert_eq|].
      apply I9 in H0 as (k & pc & Hr). exists k, pc. rewrite lookup_insert_ne; [done|]. intros <-. congruence.
Qed.

(** A match's goroutine moves on: it leaves [Run] (closing the plugin), the map, or the metric. *)
Lemma inv_run_moves w ref matchID n pc0 pc1 mgr' :
  mgr_inv w → w_runs w !! ref = Some (mkRun matchID n pc0) → pc1 <> InRun →
  mg_nextInstance mgr' = mg_nextInstance (w_mgr w) → mg_nextMatch mgr' = mg_nextMatch (w_mgr w) →
  (∀ m r, mg_matches mgr' !! m = Some r ↔ mg_matches (w_mgr w) !! m = Some r ∧ (r = ref → listed pc1)) →
  (listed pc1 → listed pc0) →
  (∀ k, k ∈ mg_instances mgr' ↔ k ∈ mg_instances (w_mgr w) ∧ (pc0 = InRun → k <> n)) →
  mg_active mgr' = Z.of_nat (size (filter (λ kr, unfinished kr.2) (<[ref := mkRun matchID n pc1]> (w_runs w)))) →
  mgr_inv (mkWorld mgr' (w_calls w) (<[ref := mkRun matchID n pc1]> (w_runs w))).
Proof.
  intros [I1 I2 I3 I4 I5 I6 I7 I8 I9] Hr Hpc Hni Hnm Hmat Hl Hinst Hact.
  split; cbn [w_mgr w_calls w_runs]; rewrite ?Hni, ?Hnm; try done.
  - intros m r. rewrite Hmat, I1. split.
    + intros [(k & pc & Hk & Hlk) Hd]. destruct (decide (r = ref)) as [->|Hne].
      * rewrite Hr in Hk. injection Hk as <- <- <-. exists n, pc1. split; [apply lookup_insert_eq|auto].
      * exists k, pc. by rewrite lookup_insert_ne.
    + intros (k & pc & Hk & Hlk). split_lookups; [split; [exists k, pc0; auto|done]|]. split; [eauto|congruence].
  - intros k. rewrite Hinst, I2. unfold held_by_call, held_by_run. cbn [w_calls w_runs]. split.
    + intros [[?|(r & m & Hk)] Hne]; [by left|right]. exists r, m. rewrite lookup_insert_ne; [done|]. intros <-.
      rewrite Hr in Hk. injection Hk as <- <- ->. by apply Hne.
    + intros [(j & m & Hj)|(r & m & Hk)].
      * split; [left; eauto|]. intros _ ->. by eapply I5.
      * split_lookups. split; [right; eauto|]. intros _ ->. by eapply H, I4.
  - intros r r' m m' k pc pc' Hk Hk'. split_lookups; [done|by eapply I4|by eapply I4|by eapply I4].
  - intros j m k Hj r m' pc Hk. split_lookups; by eapply I5.
  - intros r m k pc Hk. split_lookups; by eapply I7.
  - intros j m r Hj. apply I9 in Hj as (k & pc & Hk). destruct (decide (r = ref)) as [->|Hne].
    + rewrite Hr in Hk. injection Hk as <- <- <-. exists n, pc1. apply lookup_insert_eq.
    + exists k, pc. by rewrite lookup_insert_ne.
Qed.

Lemma inv_step w w' : mgr_inv w → mgr_step w w' → mgr_inv w'.
Proof.
  intros Hw Hs. destruct Hs as [w i matchID Hi|w i matchID Hi|w i matchID create init Hi|w i matchID n Hi|
    w ref matchID n Hr|w ref matchID n Hr|w ref matchID n Hr].
  - by apply (inv_call_moves w i matchID AtLookup AtLookup); [|left|..].
  - unfold after_lookup, Get. destruct (mg_matches (w_mgr w) !! matchID) as [existing|] eqn:E.
    + apply (inv_call_moves w i matchID AtLookup); [done|by right|done|done|]. intros ref [= <-].
      apply (mi_listed _ Hw) in E as (n & pc & Hr & _). eauto.
    + by apply (inv_call_moves w i matchID AtLookup); [|right|..].
  - unfold after_build. destruct (buildPlugin create init (w_mgr w)) eqn:E. by eapply inv_build.
  - unfold after_publish. destruct (publish matchID n (w_mgr w)) as [[[ref won]|e] mgr'] eqn:E; [by eapply inv_publish|done].
  - apply (inv_run_moves w ref matchID n InRun AtCleanup); try done; simpl.
    + intros m r. split; [intros ?; split; [done|by right]|by intros [? _]].
    + by left.
    + intros k. rewrite elem_of_difference, elem_of_singleton. tauto.
    + rewrite (mi_active _ Hw). f_equal. symmetry. apply (filter_size_insert_same unfinished _ _ _ _ Hr). by unfold unfinished.
  - assert (Hm : mg_matches (w_mgr w) !! matchID = Some ref) by (apply (mi_listed _ Hw); exists n, AtCleanup; split; [done|by right]).
    unfold cleanup. rewrite bool_decide_eq_true_2 by done.
    apply (inv_run_moves w ref matchID n AtCleanup AtDec); try done; simpl.
    + intros m r. rewrite lookup_delete_Some. split.
      * intros [Hne Hmr]. split; [done|]. intros ->. apply (mi_listed _ Hw) in Hmr as (k & pc & Hk & _). congruence.
      * intros [Hmr Hl]. split; [|done]. intros <-. rewrite Hm in Hmr. injection Hmr as ->. by destruct Hl.
    + by right.
    + intros k. naive_solver.
    + rewrite (mi_active _ Hw). f_equal. symmetry. apply (filter_size_insert_same unfinished _ _ _ _ Hr). by unfold unfinished.
  - apply (inv_run_moves w ref matchID n AtDec Finished); try done; simpl.
    + intros m r. split; [|by intros [? _]]. intros Hmr. split; [done|]. intros ->.
      apply (mi_listed _ Hw) in Hmr as (k & pc & Hk & Hl). rewrite Hr in Hk. injection Hk as <- <- <-. by destruct Hl.
    + by intros [?|?].
    + intros k. naive_solver.
    + rewrite (mi_active _ Hw). symmetry. apply (filter_size_drop unfinished _ _ _ _ Hr); unfold unfinished; [done|by intros Hn; apply Hn].
Qed.

Lemma inv_empty : mgr_inv empty_world.
Proof.
  split; cbn [empty_world w_mgr w_calls w_runs NewManager mg_matches mg_instances mg_active]; try done.
  - intros m ref. rewrite lookup_empty. split; [done|]. by intros (n & pc & H & _).
  - intros n. split; [set_solver|]. by intros [(i & m & H)|(ref & m & H)].
Qed.

Lemma reachable_inv w : reachable w → mgr_inv w.
Proof.
  unfold reachable. intros H. assert (Hi : ∀ w0, rtc mgr_step w0 w → mgr_inv w0 → mgr_inv w).
  { intros w0. induction 1 as [|w0 w1 w2 H1 H2 IH]; [done|]. intros H0. apply IH; [done|]. by eapply inv_step. }
  by apply (Hi empty_world), inv_empty.
Qed.

(** A call that nothing overtakes is three steps of its thread. *)
Lemma FindOrCreate_steps i matchID create init w r mgr' :
  w_calls w !! i = Some (matchID, AtLookup) →
  FindOrCreate matchID create init (w_mgr w) = (r, mgr') →
  ∃ w', rtc mgr_step w w' ∧ w_mgr w' = mgr' ∧ w_calls w' !! i = Some (matchID, CallDone r).
Proof.
  intros Hi. unfold FindOrCreate. destruct (Get matchID (w_mgr w)) as [existing|] eqn:Eg.
  - intros [= <- <-]. eexists. split; [eapply rtc_once, (step_lookup w i matchID Hi)|]. unfold after_lookup. rewrite Eg. split; [done|apply lookup_insert_eq].
  - rewrite M_bind_eval. pose proof (step_lookup w i matchID Hi) as S1. unfold after_lookup in S1. rewrite Eg in S1.
    set (w1 := after_call i matchID AtBuild w) in S1.
    assert (Hi1 : w_calls w1 !! i = Some (matchID, AtBuild)) by apply lookup_insert_eq.
    pose proof (step_build w1 i matchID create init Hi1) as S2. unfold after_build in S2. change (w_mgr w1) with (w_mgr w) in S2.
    destruct (buildPlugin create init (w_mgr w)) as [[n|e] mgr1] eqn:Eb.
    2: { intros [= <- <-]. eexists. split; [eapply rtc_l, rtc_once; [exact S1|exact S2]|]. split; [done|apply lookup_insert_eq]. }
    set (w2 := mkWorld mgr1 _ _) in S2.
    assert (Hi2 : w_calls w2 !! i = Some (matchID, AtPublish n)) by apply lookup_insert_eq.
    pose proof (step_publish w2 i matchID n Hi2) as S3. unfold after_publish in S3. change (w_mgr w2) with mgr1 in S3.
    rewrite M_bind_eval. destruct (publish matchID n mgr1) as [[[ref won]|e] mgr2] eqn:Ep.
    + intros [= <- <-]. eexists. split; [eapply rtc_l; [exact S1|]; eapply rtc_l, rtc_once; [exact S2|exact S3]|].
      split; [done|apply lookup_insert_eq].
    + unfold publish in Ep. by destruct (mg_matches mgr1 !! matchID).
Qed.

(** C9: however calls, matches and clean-ups interleave: there is at most one live match per id, and
    it is the one in the map; a call returns a match of the id it asked for, and two calls whose
    matches are both live got the same one; every plugin instance still open belongs to a call about
    to publish it or to a match still in its loop (the loser of a creation race closes its own), so
    none leaks; and the active-matches metric counts the goroutines that have not finished. *)
Theorem manager_safety w :
  reachable w →
  (∀ ref ref' m n n' pc pc', w_runs w !! ref = Some (mkRun m n pc) → w_runs w !! ref' = Some (mkRun m n' pc') →
     listed pc → listed pc' → ref = ref' ∧ Get m (w_mgr w) = Some ref) ∧
  (∀ i m ref, w_calls w !! i = Some (m, CallDone (Ok ref)) →
     ∃ n pc, w_runs w !! ref = Some (mkRun m n pc) ∧ (listed pc → Get m (w_mgr w) = Some ref)) ∧
  (∀ n, n ∈ mg_instances (w_mgr w) ↔ held_by_call w n ∨ held_by_run w n) ∧
  ((∀ i m n, w_calls w !! i <> Some (m, AtPublish n)) → (∀ ref m n, w_runs w !! ref <> Some (mkRun m n InRun)) →
     mg_instances (w_mgr w) = ∅) ∧
  mg_active (w_mgr w) = Z.of_nat (size (filter (λ kr, unfinished kr.2) (w_runs w))).
Proof.
  intros Hw%reachable_inv. split_and!.
  - intros ref ref' m n n' pc pc' Hr Hr' Hl Hl'. unfold Get.
    assert (H1 : mg_matches (w_mgr w) !! m = Some ref) by (apply (mi_listed _ Hw); eauto).
    assert (H2 : mg_matches (w_mgr w) !! m = Some ref') by (apply (mi_listed _ Hw); eauto). split; congruence.
  - intros i m ref Hi. destruct (mi_done _ Hw _ _ _ Hi) as (n & pc & Hr). exists n, pc. split; [done|].
    intros Hl. apply (mi_listed _ Hw). eauto.
  - apply Hw.
  - intros Hc Hr. apply set_eq. intros n. rewrite (mi_open _ Hw n). split; [|set_solver].
    intros [(i & m & Hi)|(ref & m & Hi)]; [by apply Hc in Hi|by apply Hr in Hi].
  - apply Hw.
Qed.

(** ** An evaluated instance: two arrivals race to create one match *)

Definition race_id : uuid := sample_uuid x77.
(** Call 0 builds first but call 1 publishes first; call 0 gets call 1's match and closes its instance. *)
Definition raced_world : world :=
  after_publish 0 race_id 0 (after_publish 1 race_id 1
    (after_build 1 race_id None (Ok 10) (after_build 0 race_id None (Ok 10)
      (after_lookup 1 race_id (after_lookup 0 race_id
        (after_call 1 race_id AtLookup (after_call 0 race_id AtLookup empty_world))))))).

Lemma raced_reachable : reachable raced_world.
Proof.
  unfold reachable, raced_world.
  eapply rtc_l; [apply (step_call _ 0 race_id); vm_compute; reflexivity|].
  eapply rtc_l; [apply (step_call _ 1 race_id); vm_compute; reflexivity|].
  eapply rtc_l; [apply (step_lookup _ 0 race_id); vm_compute; reflexivity|].
  eapply rtc_l; [apply (step_lookup _ 1 race_id); vm_compute; reflexivity|].
  eapply rtc_l; [apply (step_build _ 0 race_id None (Ok 10)); vm_compute; reflexivity|].
  eapply rtc_l; [apply (step_build _ 1 race_id None (Ok 10)); vm_compute; reflexivity|].
  eapply rtc_l; [apply (step_publish _ 1 race_id 1); vm_compute; reflexivity|].
  eapply rtc_l; [apply (step_publish _ 0 race_id 0); vm_compute; reflexivity|].
  apply rtc_refl.
Qed.

Example raced_outcome :
  w_calls raced_world !! 0%nat = Some (race_id, CallDone (Ok 0%nat)) ∧ w_calls raced_world !! 1%nat = Some (race_id, CallDone (Ok 0%nat)) ∧
  mg_instances (w_mgr raced_world) = {[ 1%nat ]}.
Proof. vm_compute. done. Qed.

Lemma manager_safety_witness :
  reachable raced_world ∧ Get race_id (w_mgr raced_world) = Some 0%nat ∧
  mg_active (w_mgr raced_world) = Z.of_nat (size (filter (λ kr, unfinished kr.2) (w_runs raced_world))).
Proof.
  split; [exact raced_reachable|]. split; [vm_compute; reflexivity|].
  pose proof (manager_safety raced_world raced_reachable) as H.
  exact (proj2 (proj2 (proj2 (proj2 H)))).
Defined.
