(* ===== verification/RoomServer.v ===== *)
(** * The room server (internal/presentation/room)

    [handleRoom] admits a connection to the match its URL names, on the strength of the session
    token in its first frame, and turns its datagrams into calls on the match ([Room.room_op]);
    [SendFrame] chooses a transport for each frame.  The transport and the protobuf encoding are
    parameters: what the upgrade, the streams and the datagrams deliver are arguments. *)

From S2P Require Import Prelude GoBase GoStrings Json Token Room.

(** ** What clients send *)

Inductive ClientFrame :=
  | Hello (sessionToken : string)
  | PlayerInput (tick : Z) (payload : string)
  | OtherFrame.

(** [proto.Unmarshal] into a frame, and [proto.Marshal] of one. *)
Class FrameCodec := {
  unmarshal_frame : string → option ClientFrame;
  marshal_frame : Frame → option string;
}.

Section server.
Context {U : UuidCodec} {J : Jwt} {FC : FrameCodec}.

(** ** Admission (server.go) *)

(** [firstStream] is what [AcceptUniStream] and [io.ReadAll] deliver within the handshake timeout. *)
Definition authenticate (secret : string) (now : time) (firstStream : res string) : res SessionClaims :=
  match firstStream with
  | Err e => Err (Wrap "read hello" e)
  | Ok raw =>
      match unmarshal_frame raw with
      | None => Err (ErrText "unmarshal hello")
      | Some (Hello sessionToken) => VerifySession secret now sessionToken
      | Some _ => Err (ErrText "first frame was not a ClientHello")
      end
  end.

Inductive admission :=
  | BadRequest (msg : string)
  | UpgradeFailed
  | Rejected
  | Seated (matchID playerID : uuid) (roster : list uuid).

(** [strings.TrimPrefix]. *)
Definition TrimPrefix (s pre : string) : string := match CutPrefix s pre with Some r => r | None => s end.

(** The loop over [claims.MatchPlayers]; an id that does not parse is skipped. *)
Definition parseRoster (claims : SessionClaims) : list uuid :=
  let roster := omap uuid_Parse (sc_MatchPlayers claims) in
  match roster with [] => [sc_PlayerID claims] | _ => roster end.

Definition checkSession (secret : string) (now : time) (path : string) (upgraded : bool) (firstStream : res string) : admission :=
  let matchIDStr := TrimPrefix path "/room/" in
  if bool_decide (matchIDStr = "") then BadRequest "match id required"
  else match uuid_Parse matchIDStr with
  | None => BadRequest "invalid match id"
  | Some matchID =>
      if negb upgraded then UpgradeFailed
      else match authenticate secret now firstStream with
      | Err _ => Rejected
      | Ok claims =>
          if bool_decide (sc_MatchID claims <> matchIDStr) then Rejected
          else Seated matchID (sc_PlayerID claims) (parseRoster claims)
      end
  end.

(** ** The session (session.go) *)

(** The calls the read loop makes; [None] is the end of the transport or of the context. *)
Fixpoint readLoop (playerID : uuid) (datagrams : list (option string)) : list room_op :=
  match datagrams with
  | [] => []
  | None :: _ => []
  | Some raw :: rest =>
      match unmarshal_frame raw with
      | Some (PlayerInput tick payload) => OpInput playerID tick payload :: readLoop playerID rest
      | _ => readLoop playerID rest
      end
  end.

(** Everything [handleRoom] does to the match: [found] says whether the manager gave one, [joined]
    whether the match accepted the player; the deferred [Leave] comes last. *)
Definition handleRoom (secret : string) (now : time) (path : string) (upgraded : bool) (firstStream : res string)
    (found joined : bool) (io : nat) (datagrams : list (option string)) : admission * list room_op :=
  match checkSession secret now path upgraded firstStream with
  | Seated matchID playerID roster =>
      (Seated matchID playerID roster,
       if negb found then []
       else OpJoin playerID io :: (if negb joined then [] else readLoop playerID datagrams ++ [OpLeave playerID "disconnected"]))
  | a => (a, [])
  end.

Definition reliableFrame (frame : Frame) : bool :=
  match frame with Frame_Event _ _ => true | Frame_Delta _ _ _ => false end.

Inductive delivery := Datagram (data : string) | Stream (data : string).

(** The match sends deltas and events only.  The attempts to deliver a frame, in order, and the
    error returned; [sendDatagram] and [sendStream] are the transport's answers. *)
Definition SendFrame (closed : bool) (datagramMax : Z) (sendDatagram sendStream : string → res unit) (frame : Frame) : list delivery * res unit :=
  if closed then ([], Err (ErrText "room: session closed"))
  else match marshal_frame frame with
  | None => ([], Err (ErrText "room: marshal frame"))
  | Some data =>
      if reliableFrame frame || (datagramMax <? Z.of_nat (String.length data)) then ([Stream data], sendStream data)
      else match sendDatagram data with
           | Err _ => ([Datagram data; Stream data], sendStream data)
           | Ok _ => ([Datagram data], Ok tt)
           end
  end.

(** The session: who is at its other end, and whether the match has closed it. *)
Record playerSession := mkPlayerSession { ps_playerID : uuid; ps_matchID : uuid; ps_datagramMax : Z; ps_closed : bool }.

Definition newPlayerSession (playerID matchID : uuid) (datagramMax : Z) : playerSession := mkPlayerSession playerID matchID datagramMax false.

(** What a session asks of its WebTransport session. *)
Inductive wire_op := WDatagram (data : string) | WOpenStream | WWrite (data : string) | WCloseStream.

(** The transport's answers to one frame. *)
Record transport := mkTransport { tr_datagram : option error; tr_open : option error; tr_write : option error }.

Definition sendStream (tr : transport) (data : string) : list wire_op * res unit :=
  match tr_open tr with
  | Some err => ([WOpenStream], Err (Wrap "room: open uni stream" err))
  | None => ([WOpenStream; WWrite data; WCloseStream],
             match tr_write tr with Some err => Err (Wrap "room: write stream frame" err) | None => Ok tt end)
  end.

(** [SendFrame] on the session, down to the wire. *)
Definition session_SendFrame (frame : Frame) (tr : transport) (s : playerSession) : list wire_op * res unit :=
  let '(attempts, r) := SendFrame (ps_closed s) (ps_datagramMax s)
    (λ _, match tr_datagram tr with Some err => Err err | None => Ok tt end) (λ data, (sendStream tr data).2) frame in
  (attempts ≫= λ a, match a with Datagram data => [WDatagram data] | Stream data => (sendStream tr data).1 end, r).

Definition session_Close (s : playerSession) : playerSession := mkPlayerSession (ps_playerID s) (ps_matchID s) (ps_datagramMax s) true.

(** What the match does with a session, and what reaches the wire. *)
Inductive session_op := SessionSend (frame : Frame) (tr : transport) | SessionClose.

Fixpoint run_session (ops : list session_op) (s : playerSession) : list wire_op :=
  match ops with
  | [] => []
  | SessionSend frame tr :: ops' => (session_SendFrame frame tr s).1 ++ run_session ops' s
  | SessionClose :: ops' => run_session ops' (session_Close s)
  end.

(** ** Who gets in *)

Context {UL : UuidCodecLaws U} {JL : JwtLaws J}.

Lemma TrimPrefix_app pre s : TrimPrefix (pre +:+ s) pre = s.
Proof. unfold TrimPrefix. by rewrite CutPrefix_app. Qed.

Lemma parse_roster_ids (ps : list uuid) : omap uuid_Parse (ToValid <$> (uuid_String <$> ps)) = ps.
Proof. induction ps as [|p ps IH]; [done|]. csimpl. by rewrite ToValid_uuid, uuid_parse_string, IH. Qed.

Lemma uuid_String_nonempty u : uuid_String u <> "".
Proof. intros E. pose proof (uuid_string_length u) as H. rewrite E in H. discriminate H. Qed.

(** The room opens to the holder of a seat. *)
Lemma admits_seat secret now ttl p m ps tok t raw :
  SignSession secret p (uuid_String m) (uuid_String <$> ps) now ttl = Ok tok → t < expires now ttl →
  unmarshal_frame raw = Some (Hello tok) →
  checkSession secret t ("/room/" +:+ uuid_String m) true (Ok raw) = Seated m p (match ps with [] => [p] | _ => ps end).
Proof.
  intros Hs Ht Hf. unfold checkSession. rewrite TrimPrefix_app, uuid_parse_string.
  rewrite bool_decide_eq_false_2 by apply uuid_String_nonempty. simpl. rewrite Hf, (verify_session _ _ _ _ _ _ _ t Hs).
  rewrite (proj2 (Z.ltb_lt _ _) Ht). simpl. rewrite ToValid_uuid, bool_decide_eq_false_2 by tauto.
  f_equal. unfold parseRoster. simpl. rewrite parse_roster_ids. by destruct ps.
Qed.

(** Every call the session makes is for the admitted player. *)
Definition acts_for (p : uuid) (o : room_op) : Prop :=
  match o with OpJoin q _ | OpLeave q _ | OpInput q _ _ => q = p end.

Lemma readLoop_acts p datagrams : Forall (acts_for p) (readLoop p datagrams).
Proof.
  induction datagrams as [|[raw|] rest IH]; simpl; [done| |done].
  destruct (unmarshal_frame raw) as [[| |]|]; [done|by constructor|done|done].
Qed.

(** C5: a room is open to exactly those the matchmaker seated in it.  The session token issued for
    a player of a group opens the room of its match, with the group as its roster, until it expires
    and not after; a token seated in another match, and an access token, are refused; whoever is
    admitted holds a session token for that very match in its own name, and everything its
    connection then does to the match it does as that player, leaving when it ends. *)
Theorem room_admission secret now ttl p m ps tok t raw :
  SignSession secret p (uuid_String m) (uuid_String <$> ps) now ttl = Ok tok → unmarshal_frame raw = Some (Hello tok) →
  (checkSession secret t ("/room/" +:+ uuid_String m) true (Ok raw) =
     if t <? expires now ttl then Seated m p (match ps with [] => [p] | _ => ps end) else Rejected) ∧
  (∀ m', m' <> m → checkSession secret t ("/room/" +:+ uuid_String m') true (Ok raw) = Rejected) ∧
  (∀ q atok raw' path, SignAccess secret q now ttl = Ok atok → unmarshal_frame raw' = Some (Hello atok) →
     ∀ m' p' r', checkSession secret t path true (Ok raw') <> Seated m' p' r') ∧
  (∀ path upgraded stream found joined io datagrams m' p' r' ops,
     handleRoom secret t path upgraded stream found joined io datagrams = (Seated m' p' r', ops) →
     (∃ hello tok' claims, stream = Ok hello ∧ unmarshal_frame hello = Some (Hello tok') ∧ VerifySession secret t tok' = Ok claims ∧
        sc_PlayerID claims = p' ∧ uuid_Parse (sc_MatchID claims) = Some m') ∧
     Forall (acts_for p') ops ∧ (joined = true → ops = [] ∨ last ops = Some (OpLeave p' "disconnected"))).
Proof.
  intros Hs Hf. split_and!.
  - destruct (t <? expires now ttl) eqn:Et; [apply Z.ltb_lt in Et; by eapply admits_seat|].
    unfold checkSession. rewrite TrimPrefix_app, uuid_parse_string, bool_decide_eq_false_2 by apply uuid_String_nonempty.
    simpl. by rewrite Hf, (verify_session _ _ _ _ _ _ _ t Hs), Et.
  - intros m' Hne. unfold checkSession. rewrite TrimPrefix_app, uuid_parse_string, bool_decide_eq_false_2 by apply uuid_String_nonempty.
    simpl. rewrite Hf, (verify_session _ _ _ _ _ _ _ t Hs). destruct (t <? _); [|done]. simpl.
    rewrite ToValid_uuid, bool_decide_eq_true_2; [done|]. intros E. by apply uuid_String_inj in E.
  - intros q atok raw' path Ha Hf' m' p' r'. unfold checkSession. case_bool_decide as Hp; [done|].
    destruct (uuid_Parse _); [|done]. simpl. rewrite Hf'. destruct (verify_access _ _ _ _ _ t Ha) as [_ ->].
    destruct (t <? _); [|done]. simpl. by rewrite bool_decide_eq_true_2 by congruence.
  - intros path upgraded stream found joined io datagrams m' p' r' ops. unfold handleRoom, checkSession.
    case_bool_decide as Hp; [done|]. destruct (uuid_Parse (TrimPrefix path "/room/")) as [mid|] eqn:Em; [|done].
    destruct upgraded; [|done]. simpl. destruct stream as [hello|e]; [|done]. simpl.
    destruct (unmarshal_frame hello) as [[tok'| |]|] eqn:Eh; try done.
    destruct (VerifySession secret t tok') as [claims|e] eqn:Ev; [|done]. case_bool_decide as Hm; [done|].
    intros [= <- <- <- <-]. split_and!.
    + exists hello, tok', claims. by rewrite Hm.
    + destruct found; [|done]. simpl. constructor; [done|]. destruct joined; simpl; [|done].
      apply list.Forall_app. split; [apply readLoop_acts|by constructor].
    + intros ->. destruct found; [right|by left]. simpl. by rewrite last_cons, last_snoc.
Qed.

(** what must arrive is never sent as a datagram.  An end-of-game event, and any frame over the
    datagram limit, goes over a stream and the caller is told if that fails; a delta that a datagram
    cannot carry is retried over a stream; on a closed session nothing is sent. *)
Theorem reliable_delivery datagramMax sendDatagram sendStream frame data :
  marshal_frame frame = Some data →
  let '(attempts, r) := SendFrame false datagramMax sendDatagram sendStream frame in
  (reliableFrame frame = true ∨ datagramMax < Z.of_nat (String.length data) → attempts = [Stream data] ∧ r = sendStream data) ∧
  (∀ e, sendDatagram data = Err e → last attempts = Some (Stream data) ∧ r = sendStream data) ∧
  (r = Ok tt → Datagram data ∈ attempts ∧ sendDatagram data = Ok tt ∨ Stream data ∈ attempts ∧ sendStream data = Ok tt) ∧
  (SendFrame true datagramMax sendDatagram sendStream frame).1 = [].
Proof.
  intros Hm. unfold SendFrame. rewrite Hm. destruct (reliableFrame frame) eqn:Er; simpl.
  { split_and!; [done|done| |done]. intros H. right. split; [left|done]. }
  destruct (datagramMax <? _) eqn:El; to_prop; simpl.
  { split_and!; [done|done| |done]. intros H. right. split; [left|done]. }
  destruct (sendDatagram data) as [[]|e] eqn:Ed.
  - split_and!; [intros [?|?]; [done|lia]|done| |done]. intros _. left. split; [left|done].
  - split_and!; [intros [?|?]; [done|lia]|done| |done]. intros H. right. split; [right; left|done].
Qed.

(** *** What reaches the wire *)

(** One attempt at one frame. *)
Inductive attempt_of (data : string) : list wire_op → Prop :=
  | attempt_datagram : attempt_of data [WDatagram data]
  | attempt_no_stream : attempt_of data [WOpenStream]
  | attempt_stream : attempt_of data [WOpenStream; WWrite data; WCloseStream].

Fixpoint before_close (ops : list session_op) : list Frame :=
  match ops with SessionSend frame _ :: ops' => frame :: before_close ops' | _ => [] end.

Lemma sendStream_attempt tr data : attempt_of data (sendStream tr data).1.
Proof. unfold sendStream. destruct (tr_open tr); constructor. Qed.

Lemma SendFrame_attempts frame tr s : ∃ blocks, (session_SendFrame frame tr s).1 = concat blocks ∧
  Forall (λ b, ∃ data, marshal_frame frame = Some data ∧ attempt_of data b) blocks ∧ (ps_closed s = true → blocks = []).
Proof.
  unfold session_SendFrame, SendFrame. destruct (ps_closed s); [by exists []|]. destruct (marshal_frame frame) as [data|]; [|by exists []].
  pose proof (sendStream_attempt tr data) as Hs.
  destruct (reliableFrame frame || _); [|destruct (tr_datagram tr)]; cbn [fst mbind list_bind]; rewrite ?app_nil_r.
  - exists [(sendStream tr data).1]. cbn. rewrite app_nil_r. split_and!; [done| |done]. constructor; [|done]. by exists data.
  - exists [[WDatagram data]; (sendStream tr data).1]. cbn. rewrite app_nil_r. split_and!; [done| |done].
    repeat constructor; exists data; (split; [done|]); [constructor|done].
  - exists [[WDatagram data]]. cbn. split_and!; [done| |done]. constructor; [|done]. exists data. split; [done|constructor].
Qed.

Lemma run_session_closed ops s : ps_closed s = true → run_session ops s = [].
Proof.
  revert s. induction ops as [|[frame tr|] ops IH]; intros s Hs; [done| |by apply IH]. cbn [run_session].
  destruct (SendFrame_attempts frame tr s) as (blocks & -> & _ & Hb). rewrite (Hb Hs). by apply IH.
Qed.

(** whatever the transport answers, each stream that opens carries one whole frame and is closed, a
    frame is on the wire only if it was sent before the session was closed, and the order is the
    order of the calls. *)
Theorem session_wire ops playerID matchID datagramMax :
  ∃ sent : list (list (list wire_op)), run_session ops (newPlayerSession playerID matchID datagramMax) = concat (concat sent) ∧
    Forall2 (λ frame blocks, Forall (λ b, ∃ data, marshal_frame frame = Some data ∧ attempt_of data b) blocks) (before_close ops) sent.
Proof.
  induction ops as [|[frame tr|] ops (sent & E & Hs)]; [by exists []| |].
  - destruct (SendFrame_attempts frame tr (newPlayerSession playerID matchID datagramMax)) as (blocks & Eb & Hb & _).
    exists (blocks :: sent). cbn [run_session before_close concat]. rewrite Eb, E, concat_app. split; [done|by constructor].
  - exists []. cbn [run_session before_close]. by rewrite run_session_closed.
Qed.
End server.

(** ** Evaluation *)

Definition demo_frames : FrameCodec := {|
  unmarshal_frame raw := match raw with "" => None | "i" => Some (PlayerInput 3 "rock") | _ => Some (Hello raw) end;
  marshal_frame f := match f with Frame_Delta _ _ d => Some d | Frame_Event t _ => Some t end;
|}.

Definition demo_match : uuid := sample_uuid x33.
Definition demo_seats : list json :=
  [session_claims (U := hex_codec) (sample_uuid x01) (hex_String demo_match) [hex_String (sample_uuid x01); hex_String (sample_uuid x02)] demo_now (60 * Second)].

Lemma room_admission_witness :
  checkSession (U := hex_codec) (J := list_jwt demo_seats) (FC := demo_frames) "k" demo_now ("/room/" +:+ hex_String demo_match) true (Ok "k0")
  = Seated demo_match (sample_uuid x01) [sample_uuid x01; sample_uuid x02].
Proof.
  destruct (room_admission (U := hex_codec) (J := list_jwt demo_seats) (FC := demo_frames) (JL := list_jwt_laws demo_seats)
    "k" demo_now (60 * Second) (sample_uuid x01) demo_match [sample_uuid x01; sample_uuid x02] "k0" demo_now "k0") as [E _].
  - vm_compute. reflexivity.
  - reflexivity.
  - exact E.
Defined.

Lemma reliable_delivery_witness :
  SendFrame (FC := demo_frames) false 1200 (λ _, Ok tt) (λ _, Err (ErrText "gone")) (Frame_Event "game_ended" "") = ([Stream "game_ended"], Err (ErrText "gone")).
Proof.
  pose proof (reliable_delivery (FC := demo_frames) 1200 (λ _, Ok tt) (λ _, Err (ErrText "gone")) (Frame_Event "game_ended" "") "game_ended" eq_refl) as H.
  destruct (SendFrame _ _ _ _) as [attempts r]. destruct H as [H _]. destruct H as [-> ->]; [left; reflexivity|]. reflexivity.
Defined.
