(* ===== verification/Agones.v ===== *)
(** * The game-server lifecycle (infra/agones/lifecycle.go)

    A room in an Agones pod reports Ready, pings Health from a goroutine and sends Shutdown when it
    stops.  The goroutine, the function [stop] and the end of the daemon's context interleave freely:
    they are a step relation over [Lifecycle].  [agones_protocol] is what the sidecar sees. *)

From stdpp Require Import relations.
From S2P Require Import Prelude GoBase.

(** What the sidecar is told; a failing call is only logged. *)
Inductive sdk_call := Ready | Health | Shutdown.

(** Where [stop] is: not called, in [<-done], returned. *)
Inductive stop_stage := NotCalled | Waiting | Returned.

(** [healthCtx] is cancelled, [done] is closed, the progress of [stop], and the calls so far. *)
Record Lifecycle := mkLifecycle { lc_cancelled : bool; lc_done : bool; lc_stop : stop_stage; lc_calls : list sdk_call }.

(** [start]: [Ready] first, then the goroutine; Start's [NewSDK] is [connected]. *)
Definition start (ready : option error) : res Lifecycle :=
  match ready with
  | Some err => Err (Wrap "agones: ready" err)
  | None => Ok (mkLifecycle false false NotCalled [Ready])
  end.

Definition Start (connected ready : option error) : res Lifecycle :=
  match connected with
  | Some err => Err (Wrap "agones: connect sdk" err)
  | None => start ready
  end.

(** A tick fires, the goroutine sees the cancellation (it may take a tick that is ready first), the
    daemon's context ends, [stop] cancels and waits, [stop] goes on. *)
Inductive lifecycle_move := Tick | SeeDone | ParentDone | CallStop | FinishStop.

Definition lifecycle_step (m : lifecycle_move) (s : Lifecycle) : option Lifecycle :=
  match m with
  | Tick => if lc_done s then None else Some (mkLifecycle (lc_cancelled s) false (lc_stop s) (lc_calls s ++ [Health]))
  | SeeDone => if negb (lc_done s) && lc_cancelled s then Some (mkLifecycle true true (lc_stop s) (lc_calls s)) else None
  | ParentDone => Some (mkLifecycle true (lc_done s) (lc_stop s) (lc_calls s))
  | CallStop => match lc_stop s with
                | NotCalled => Some (mkLifecycle true (lc_done s) Waiting (lc_calls s))
                | _ => None
                end
  | FinishStop => match lc_stop s with
                  | Waiting => if lc_done s then Some (mkLifecycle (lc_cancelled s) true Returned (lc_calls s ++ [Shutdown])) else None
                  | _ => None
                  end
  end.

Definition steps_to (s s' : Lifecycle) : Prop := ∃ m, lifecycle_step m s = Some s'.

(** ** What the sidecar sees *)

Record lifecycle_ok (s : Lifecycle) : Prop := {
  ok_calls : ∃ n, lc_calls s = Ready :: repeat Health n ++ (match lc_stop s with Returned => [Shutdown] | _ => [] end);
  ok_stopping : lc_stop s <> NotCalled → lc_cancelled s = true;
  ok_returned : lc_stop s = Returned → lc_done s = true;
}.

Lemma lifecycle_step_ok s s' : steps_to s s' → lifecycle_ok s → lifecycle_ok s'.
Proof.
  intros [m Hm] [(n & Hc) Hs Hr]. destruct s as [c d st calls]. cbn in *. destruct m; cbn in Hm.
  - destruct d; [done|]. injection Hm as <-. split; cbn; [|done..]. exists (S n). destruct st; [..|by specialize (Hr eq_refl)];
      rewrite Hc, !app_nil_r; cbn; by rewrite repeat_cons.
  - destruct d, c; try done. injection Hm as <-. split; cbn; eauto.
  - injection Hm as <-. split; cbn; eauto.
  - destruct st; try done. injection Hm as <-. split; cbn; eauto. done.
  - destruct st; try done. destruct d; try done. injection Hm as <-. split; cbn; [|eauto..]. exists n. by rewrite Hc, app_nil_r.
Qed.

Lemma lifecycle_reachable s s' : rtc steps_to s s' → lifecycle_ok s → lifecycle_ok s'.
Proof. induction 1; eauto using lifecycle_step_ok. Qed.

Lemma started_ok connected ready s : Start connected ready = Ok s → lifecycle_ok s.
Proof.
  unfold Start, start. destruct connected, ready; try done. intros [= <-]. split; cbn; try done. by exists 0%nat.
Qed.

Lemma returned_stays s s' : rtc steps_to s s' → lc_stop s = Returned → lc_done s = true → lc_calls s' = lc_calls s.
Proof.
  induction 1 as [|x y z [m Hm] Hyz IH]; intros Hst Hd; [done|]. destruct x as [c d st calls]. cbn in *. subst.
  destruct m; cbn in Hm; try done. injection Hm as <-. by apply IH.
Qed.

(** C37: however ticks, the end of the daemon and [stop] interleave, the sidecar is told Ready once and
    first, then Health pings, and Shutdown at most once, when [stop] returns and with nothing after it;
    a [stop] that was called can always finish. *)
Theorem agones_protocol connected ready s s' : Start connected ready = Ok s → rtc steps_to s s' →
  (∃ n, lc_calls s' = Ready :: repeat Health n ++ (match lc_stop s' with Returned => [Shutdown] | _ => [] end)) ∧
  (lc_stop s' = Returned → ∀ s'', rtc steps_to s' s'' → lc_calls s'' = lc_calls s') ∧
  (lc_stop s' = Waiting → ∃ s'', rtc steps_to s' s'' ∧ lc_stop s'' = Returned).
Proof.
  intros H0%started_ok Hr. destruct (lifecycle_reachable _ _ Hr H0) as [Hc Hs Hd]. split_and!; [done|..].
  - intros Hst s'' Hr'. apply (returned_stays s' s''); auto.
  - intros Hst. destruct s' as [c d st calls]. cbn in *. subst st. rewrite Hs by done. destruct d.
    + exists (mkLifecycle true true Returned (calls ++ [Shutdown])). split; [|done]. apply rtc_once. by exists FinishStop.
    + exists (mkLifecycle true true Returned (calls ++ [Shutdown])). split; [|done].
      apply (rtc_l _ _ (mkLifecycle true true Waiting calls)); [by exists SeeDone|]. apply rtc_once. by exists FinishStop.
Qed.

Definition demo_started : Lifecycle := mkLifecycle false false NotCalled [Ready].
Definition demo_stopped : Lifecycle := mkLifecycle true true Returned [Ready; Health; Health; Shutdown].

(** A tick that is ready when [stop] cancels is still served. *)
Lemma agones_protocol_witness :
  Start None None = Ok demo_started ∧ rtc steps_to demo_started demo_stopped ∧
  (lc_stop demo_stopped = Returned → ∀ s'', rtc steps_to demo_stopped s'' → lc_calls s'' = lc_calls demo_stopped).
Proof.
  assert (Hr : rtc steps_to demo_started demo_stopped).
  { eapply rtc_l; [exists Tick; reflexivity|]. eapply rtc_l; [exists CallStop; reflexivity|]. eapply rtc_l; [exists Tick; reflexivity|].
    eapply rtc_l; [exists SeeDone; reflexivity|]. eapply rtc_l; [exists FinishStop; reflexivity|]. apply rtc_refl. }
  split; [reflexivity|]. split; [exact Hr|]. exact (proj1 (proj2 (agones_protocol None None demo_started demo_stopped eq_refl Hr))).
Defined.
