(* ===== verification/WasmPlugin.v ===== *)
(** * WASM plugins (internal/infra/plugin/wazerohost/wazerohost.go, sdk/plugin/go/guest.go)

    The room can host a game compiled to WebAssembly.  The host side ([Host] below) speaks to any
    module that has the vfx exports, through the interface [WasmModule] of the wazero runtime; the guest
    SDK ([Guest]) is what a Go game is compiled with, and its instance of that interface.  The two
    exchange protobuf messages over the module's linear memory.  The runtime, the memory, the
    guest's allocator and the protobuf codecs are parameters with their documented laws.  The
    theorem: a game behind this boundary answers every call as it does natively. *)

From S2P Require Import Prelude GoBase GoStrings Json Room.

(** ** The messages of schema/api/plugin/v1/plugin.proto that [Room] keeps as bare values *)

Record InitRequest := mkInitRequest { iq_PlayerIds : list string }.
Record OnGameEndRequest := mkOnGameEndRequest { gq_FinalTick : Z }.

Definition byteLen (s : string) : Z := Z.of_nat (String.length s).

(** ** Protobuf

    The host encodes with the protobuf library, the guest with the generated [MarshalVT] and
    [UnmarshalVT].  Both are the one wire format, for messages whose fields have values of their
    types: strings are UTF-8, integers fit their width, a timestamp has seconds in 64 bits. *)
Class Wire (A : Type) := {
  Marshal : A → res string;
  Unmarshal : string → res A;
  MarshalVT : A → res string;
  UnmarshalVT : string → res A;
}.

Class WellTyped (A : Type) := well_typed : A → Prop.

Class WireLaws (A : Type) {W : Wire A} {T : WellTyped A} : Prop := {
  host_to_guest m : well_typed m → ∃ d, Marshal m = Ok d ∧ UnmarshalVT d = Ok m;
  guest_to_host m : well_typed m → ∃ d, MarshalVT m = Ok d ∧ Unmarshal d = Ok m;
}.

Definition uint32 (z : Z) : Prop := 0 ≤ z < 4294967296.
Definition utf8 (s : string) : Prop := ValidString s = true.

#[export] Instance InitRequest_typed : WellTyped InitRequest := λ m, Forall utf8 (iq_PlayerIds m).
#[export] Instance InitResponse_typed : WellTyped InitResponse := λ m, uint32 (ir_TickRateHz m).
#[export] Instance PlayerAction_typed : WellTyped PlayerAction := λ a, utf8 (pa_PlayerId a) ∧ uint32 (pa_ClientTick a).
#[export] Instance NetworkEvent_typed : WellTyped NetworkEvent := λ e,
  match e with PlayerJoined p => utf8 p | PlayerLeft p reason => utf8 p ∧ utf8 reason end.
#[export] Instance OnTickRequest_typed : WellTyped OnTickRequest := λ m,
  uint32 (tr_Tick m) ∧ min_int64 ≤ tr_Timestamp m / Second ≤ max_int64 ∧
  Forall well_typed (tr_Actions m) ∧ Forall well_typed (tr_NetworkEvents m).
#[export] Instance OutboundEvent_typed : WellTyped OutboundEvent := λ e, utf8 (oe_Type e) ∧ Forall utf8 (oe_Recipients e).
#[export] Instance OnTickResponse_typed : WellTyped OnTickResponse := λ m, Forall well_typed (tp_Events m).
#[export] Instance OnGameEndRequest_typed : WellTyped OnGameEndRequest := λ m, uint32 (gq_FinalTick m).
#[export] Instance PlayerResult_typed : WellTyped PlayerResult := λ r,
  utf8 (pr_PlayerId r) ∧ -2147483648 ≤ pr_Rank r < 2147483648 ∧ map_Forall (λ k v, utf8 k ∧ utf8 v) (pr_Stats r).
#[export] Instance OnGameEndResponse_typed : WellTyped OnGameEndResponse := λ m, Forall well_typed (er_PlayerResults m).

(** ** Linear memory *)

(** Loads and stores of byte ranges; [None] out of range. *)
Class LinearMemory (Mem : Type) := {
  mem_Read : Z → Z → Mem → option string;
  mem_Write : Z → string → Mem → option Mem;
}.

Class LinearMemoryLaws (Mem : Type) {L : LinearMemory Mem} := {
  mem_size : Mem → Z;
  read_inside p n m : 0 ≤ p → 0 ≤ n → p + n ≤ mem_size m → ∃ s, mem_Read p n m = Some s ∧ byteLen s = n;
  read_app p a b s t m : 0 ≤ p → 0 ≤ a → 0 ≤ b →
    mem_Read p a m = Some s → mem_Read (p + a) b m = Some t → mem_Read p (a + b) m = Some (s +:+ t);
  write_inside p s m : 0 ≤ p → p + byteLen s ≤ mem_size m →
    ∃ m', mem_Write p s m = Some m' ∧ mem_size m' = mem_size m ∧ mem_Read p (byteLen s) m' = Some s;
  write_frame p s m m' q n : mem_Write p s m = Some m' → (q + n ≤ p ∨ p + byteLen s ≤ q) → mem_Read q n m' = mem_Read q n m;
}.

(** [make([]byte, n)] in the guest: the address of a new block; [None] when memory is exhausted. *)
Class Allocator (Mem : Type) := go_make : Z → Mem → option (Z * Mem).

(** Blocks of up to [limit] bytes can be had, inside the 32-bit address space. *)
Class AllocatorLaws (Mem : Type) {L : LinearMemory Mem} {LL : LinearMemoryLaws Mem} {A : Allocator Mem} (limit : Z) : Prop :=
  make_inside n m : 0 ≤ n ≤ limit → ∃ a m', go_make n m = Some (a, m') ∧ 0 < a ∧ a + n ≤ mem_size m' ∧ a + n ≤ 4294967296.

(** ** Host (wazerohost.go) *)

(** A module instance, as the wazero runtime presents it ([api.Module]): the exports it has, called
    with and answering machine words, and its memory. *)
Class WasmModule (I : Type) := {
  ExportedFunction : I → string → option (list Z → M I (list Z));
  has_memory : I → bool;
  Memory_Read : Z → Z → I → option string;
  Memory_Write : Z → string → I → option I;
  mod_Close : I → res unit * I;
}.

Definition statusOK : ascii := zero.

Section host.
Context {I : Type} {MO : WasmModule I} {ET : ErrorText}.

Record wasmPlugin := mkWasmPlugin {
  wp_alloc : list Z → M I (list Z);
  wp_init : list Z → M I (list Z);
  wp_onTick : list Z → M I (list Z);
  wp_onGameEnd : list Z → M I (list Z);
}.

(** [mod] is what [InstantiateModule] gives: a fresh instance, after its _initialize. *)
Definition Create (mod_ : res I) : res (wasmPlugin * I) :=
  match mod_ with
  | Err err => Err (Wrap "wazerohost: instantiate module" err)
  | Ok i =>
      match ExportedFunction i "vfx_alloc", ExportedFunction i "vfx_init", ExportedFunction i "vfx_on_tick",
            ExportedFunction i "vfx_on_game_end", has_memory i with
      | Some alloc, Some init, Some onTick, Some onGameEnd, true => Ok (mkWasmPlugin alloc init onTick onGameEnd, i)
      | _, _, _, _, _ => Err (ErrText "wazerohost: module is missing required vfx exports")
      end
  end.

(** [fmt.Errorf("...: %w", err)] around a call. *)
Definition wrap {S A} (msg : string) (m : M S A) : M S A := λ s,
  match m s with (Err e, s') => (Err (Wrap msg e), s') | r => r end.

(** [res[0]]: a function without results panics here. *)
Definition result0 (l : list Z) : M I Z :=
  match l with [] => fail (panic "index out of range [0] with length 0") | x :: _ => mret x end.

Definition writeRequest (ptr : Z) (data : string) : M I unit := λ i,
  if 0 <? byteLen data then
    match Memory_Write ptr data i with
    | Some i' => (Ok tt, i')
    | None => (Err (ErrText "wazerohost: failed writing request into guest memory"), i)
    end
  else (Ok tt, i).

(** [packed(ptr << 32 | len)]. *)
Definition respPtr (packed : Z) : Z := u32 (Z.shiftr packed 32).
Definition respLen (packed : Z) : Z := u32 packed.

Definition readFrame (packed : Z) : M I string := λ i,
  (if respLen packed =? 0 then Err (ErrText "wazerohost: guest returned an empty frame")
   else match Memory_Read (respPtr packed) (respLen packed) i with
        | None => Err (ErrText "wazerohost: failed reading response from guest memory")
        | Some frame => Ok frame
        end, i).

Definition decodeFrame {Resp} {W : Wire Resp} (frame : string) : res Resp :=
  match frame with
  | "" => Err (panic "index out of range [0] with length 0")
  | String status payload =>
      if bool_decide (status <> statusOK) then Err (ErrText ("wazerohost: plugin returned an error: " +:+ payload))
      else match Unmarshal payload with Err err => Err (Wrap "wazerohost: unmarshal response" err) | Ok out => Ok out end
  end.

Definition call {Req Resp} {WQ : Wire Req} {WR : Wire Resp} (p : wasmPlugin) (fn : list Z → M I (list Z)) (req : Req) : M I Resp :=
  data ← wrap "wazerohost: marshal request" (lift_res (Marshal req));
  allocRes ← wrap "wazerohost: alloc" (wp_alloc p [u64 (byteLen data)]);
  r ← result0 allocRes;
  let ptr := u32 r in
  _ ← writeRequest ptr data;
  res ← wrap "wazerohost: call export" (fn [u64 ptr; u64 (byteLen data)]);
  packed ← result0 res;
  frame ← readFrame packed;
  lift_res (decodeFrame frame).

Context {W1 : Wire InitRequest} {W2 : Wire InitResponse} {W3 : Wire OnTickRequest} {W4 : Wire OnTickResponse}
  {W5 : Wire OnGameEndRequest} {W6 : Wire OnGameEndResponse}.

Definition wasm_Init (p : wasmPlugin) (req : InitRequest) : M I InitResponse := call p (wp_init p) req.
Definition wasm_OnTick (p : wasmPlugin) (req : OnTickRequest) : M I OnTickResponse := call p (wp_onTick p) req.
Definition wasm_OnGameEnd (p : wasmPlugin) (req : OnGameEndRequest) : M I OnGameEndResponse := call p (wp_onGameEnd p) req.
Definition wasm_Close (i : I) : res unit * I := mod_Close i.

(** The room's view of it. *)
Definition hosted (p : wasmPlugin) : Plugin I := {|
  pl_Init ids := wasm_Init p (mkInitRequest ids);
  pl_OnTick := wasm_OnTick p;
  pl_OnGameEnd tick := wasm_OnGameEnd p (mkOnGameEndRequest tick);
  pl_Close := wasm_Close;
|}.
End host.
Arguments wasmPlugin : clear implicits.

(** ** Guest (guest.go) *)

Record slice := mkSlice { sl_ptr : Z; sl_len : Z }.

(** The module's memory and the globals of the SDK; the game's own state is [G]. *)
Record guest (Mem G : Type) := mkGuest {
  g_memory : Mem; g_factory : option G; g_game : option G; g_reqBuf : slice; g_respBuf : slice;
}.
Arguments mkGuest {Mem G}.
Arguments g_memory {Mem G}.
Arguments g_factory {Mem G}.
Arguments g_game {Mem G}.
Arguments g_reqBuf {Mem G}.
Arguments g_respBuf {Mem G}.

(** A panic in the guest traps, and the export's call fails. *)
Definition trap : error := ErrText "wasm error: unreachable".

Definition guest_statusErr : ascii := Ascii true false false false false false false false.

Section guest.
Context {Mem : Type} {LM : LinearMemory Mem} {AL : Allocator Mem} {ET : ErrorText}.
(** [vfxplugin.Game] is the plugin contract without [Close]. *)
Context {G : Type} {PG : Plugin G}.
Context {W1 : Wire InitRequest} {W2 : Wire InitResponse} {W3 : Wire OnTickRequest} {W4 : Wire OnTickResponse}
  {W5 : Wire OnGameEndRequest} {W6 : Wire OnGameEndResponse}.

Definition set_memory (mem : Mem) (s : guest Mem G) : guest Mem G := mkGuest mem (g_factory s) (g_game s) (g_reqBuf s) (g_respBuf s).
Definition set_game (g : G) (s : guest Mem G) : guest Mem G := mkGuest (g_memory s) (g_factory s) (Some g) (g_reqBuf s) (g_respBuf s).
Definition set_reqBuf (b : slice) (s : guest Mem G) : guest Mem G := mkGuest (g_memory s) (g_factory s) (g_game s) b (g_respBuf s).
Definition set_respBuf (b : slice) (s : guest Mem G) : guest Mem G := mkGuest (g_memory s) (g_factory s) (g_game s) (g_reqBuf s) b.

(** The factory makes every game in the same initial state. *)
Definition Register (f : G) : M (guest Mem G) unit := modify (λ s, mkGuest (g_memory s) (Some f) (g_game s) (g_reqBuf s) (g_respBuf s)).

Definition make (n : Z) : M (guest Mem G) slice := λ s,
  match go_make n (g_memory s) with
  | None => (Err trap, s)
  | Some (a, mem) => (Ok (mkSlice a n), set_memory mem s)
  end.

(** A store through a slice. *)
Definition store (a : Z) (bytes : string) : M (guest Mem G) unit := λ s,
  match mem_Write a bytes (g_memory s) with None => (Err trap, s) | Some mem => (Ok tt, set_memory mem s) end.

(** The bytes of [b[:length]]. *)
Definition load (b : slice) (length : Z) : M (guest Mem G) string := λ s,
  (if sl_len b <? length then Err trap
   else if length =? 0 then Ok ""
   else match mem_Read (sl_ptr b) length (g_memory s) with None => Err trap | Some d => Ok d end, s).

Definition bytesPtr (b : slice) : Z := if sl_len b =? 0 then 0 else u32 (sl_ptr b).

Definition pack (ptr length : Z) : Z := Z.lor (u64 (Z.shiftl ptr 32)) length.

Definition vfxAlloc (size : Z) : M (guest Mem G) Z :=
  b ← make size; _ ← modify (set_reqBuf b); mret (bytesPtr b).

Definition frame (status : ascii) (payload : string) : M (guest Mem G) Z :=
  b ← make (byteLen payload + 1);
  _ ← modify (set_respBuf b);
  _ ← store (sl_ptr b) (String status "");
  _ ← store (sl_ptr b + 1) payload;
  mret (pack (bytesPtr b) (u32 (sl_len b))).

Definition guest_fail (msg : string) : M (guest Mem G) Z := frame guest_statusErr msg.

Definition guest_ok {Resp} {W : Wire Resp} (m : Resp) : M (guest Mem G) Z :=
  match MarshalVT m with
  | Err err => guest_fail ("marshal response: " +:+ error_text err)
  | Ok out => frame statusOK out
  end.

(** [game.Init] and its like; a nil [game] traps. *)
Definition on_game {Resp} (f : G → res Resp * G) : M (guest Mem G) (res Resp) := λ s,
  match g_game s with
  | None => (Err trap, s)
  | Some g => let '(r, g') := f g in (Ok r, set_game g' s)
  end.

(** What the three exports share: decode [reqBuf[:length]], run the game, answer with a frame. *)
Definition serve_export {Req Resp} {WQ : Wire Req} {WR : Wire Resp} (name : string) (f : Req → G → res Resp * G) (length : Z) : M (guest Mem G) Z :=
  reqBuf ← gets g_reqBuf;
  data ← load reqBuf length;
  match UnmarshalVT data with
  | Err err => guest_fail ("unmarshal " +:+ name +:+ ": " +:+ error_text err)
  | Ok req =>
      r ← on_game (f req);
      match r with Err err => guest_fail (error_text err) | Ok resp => guest_ok resp end
  end.

Definition vfxInit (length : Z) : M (guest Mem G) Z :=
  factory ← gets g_factory;
  match factory with
  | None => fail trap
  | Some g => _ ← modify (set_game g); serve_export "InitRequest" (λ req, pl_Init (iq_PlayerIds req)) length
  end.
Definition vfxOnTick (length : Z) : M (guest Mem G) Z := serve_export "OnTickRequest" pl_OnTick length.
Definition vfxOnGameEnd (length : Z) : M (guest Mem G) Z := serve_export "OnGameEndRequest" (λ req, pl_OnGameEnd (gq_FinalTick req)) length.

(** The module the SDK is compiled to.  A word passed for an i32 is its low half. *)
Definition export1 (f : Z → M (guest Mem G) Z) (args : list Z) : M (guest Mem G) (list Z) :=
  match args with [x] => r ← f (u32 x); mret [r] | _ => fail (ErrText "expected 1 params") end.
Definition export2 (f : Z → M (guest Mem G) Z) (args : list Z) : M (guest Mem G) (list Z) :=
  match args with [_; x] => r ← f (u32 x); mret [r] | _ => fail (ErrText "expected 2 params") end.

Definition guest_export (name : string) : option (list Z → M (guest Mem G) (list Z)) :=
  if bool_decide (name = "vfx_alloc") then Some (export1 vfxAlloc)
  else if bool_decide (name = "vfx_init") then Some (export2 vfxInit)
  else if bool_decide (name = "vfx_on_tick") then Some (export2 vfxOnTick)
  else if bool_decide (name = "vfx_on_game_end") then Some (export2 vfxOnGameEnd)
  else None.

#[local] Instance guest_module : WasmModule (guest Mem G) := {|
  ExportedFunction _ := guest_export;
  has_memory _ := true;
  Memory_Read p n s := mem_Read p n (g_memory s);
  Memory_Write p d s := (λ mem, set_memory mem s) <$> mem_Write p d (g_memory s);
  mod_Close s := (Ok tt, s);
|}.

(** The plugin the host makes of it. *)
Definition guest_plugin : wasmPlugin (guest Mem G) :=
  mkWasmPlugin (export1 vfxAlloc) (export2 vfxInit) (export2 vfxOnTick) (export2 vfxOnGameEnd).

Lemma guest_created (s : guest Mem G) : Create (Ok s) = Ok (guest_plugin, s).
Proof. reflexivity. Qed.

#[local] Instance wasm_game : Plugin (guest Mem G) := hosted guest_plugin.
End guest.

(** ** The boundary is transparent *)

(** What the host reports for what the game answered. *)
Definition reported {ET : ErrorText} {A} (r : res A) : res A :=
  match r with
  | Ok a => Ok a
  | Err e => Err (ErrText ("wazerohost: plugin returned an error: " +:+ error_text e))
  end.

(** A packed word is the pointer's 32 bits above the length's. *)
Lemma pack_lor p l : uint32 p → pack p l = Z.lor (Z.shiftl p 32) l.
Proof.
  unfold uint32, pack. intros. rewrite u64_small; [done|]. rewrite Z.shiftl_mul_pow2 by lia.
  change (2 ^ 32) with 4294967296. unfold two64. lia.
Qed.

Lemma respPtr_pack p l : uint32 p → uint32 l → respPtr (pack p l) = p.
Proof.
  intros Hp Hl. rewrite pack_lor by done. unfold uint32, respPtr, u32 in *.
  rewrite Z.shiftr_lor, Z.shiftr_shiftl_l, Z.sub_diag, Z.shiftl_0_r by lia.
  rewrite Z.shiftr_div_pow2, Z.div_small, Z.lor_0_r by (change (2 ^ 32) with 4294967296; lia). by apply Z.mod_small.
Qed.

Lemma respLen_pack p l : uint32 p → uint32 l → respLen (pack p l) = l.
Proof.
  intros Hp Hl. rewrite pack_lor by done. unfold uint32, respLen, u32 in *. change 4294967296 with (2 ^ 32) in *.
  rewrite <- Z.land_ones, Z.land_lor_distr_l, !Z.land_ones, Z.shiftl_mul_pow2, Z.mod_mul by lia.
  by apply Z.mod_small.
Qed.

Lemma byteLen_nonneg s : 0 ≤ byteLen s.
Proof. unfold byteLen. lia. Qed.

Lemma byteLen_empty s : byteLen s = 0 → s = "".
Proof. unfold byteLen. destruct s; [done|]. cbn [String.length]. lia. Qed.

Section transparent.
Context {Mem : Type} {LM : LinearMemory Mem} {LL : LinearMemoryLaws Mem} {AL : Allocator Mem} {ET : ErrorText}.
Context (limit : Z) {ALL : AllocatorLaws Mem limit}.
Context {G : Type} {PG : Plugin G}.
Context {W1 : Wire InitRequest} {W2 : Wire InitResponse} {W3 : Wire OnTickRequest} {W4 : Wire OnTickResponse}
  {W5 : Wire OnGameEndRequest} {W6 : Wire OnGameEndResponse}.
Context {WL1 : WireLaws InitRequest} {WL2 : WireLaws InitResponse} {WL3 : WireLaws OnTickRequest} {WL4 : WireLaws OnTickResponse}
  {WL5 : WireLaws OnGameEndRequest} {WL6 : WireLaws OnGameEndResponse}.
#[local] Existing Instance guest_module.

(** A message the host can send, and an answer the guest can give. *)
Definition sendable {A} {W : Wire A} {T : WellTyped A} (m : A) : Prop :=
  well_typed m ∧ ∀ d, Marshal m = Ok d → byteLen d ≤ limit.
Definition answerable {A} {W : Wire A} {T : WellTyped A} (r : res A) : Prop :=
  match r with
  | Ok m => well_typed m ∧ ∀ d, MarshalVT m = Ok d → byteLen d < limit
  | Err e => byteLen (error_text e) < limit
  end.

(** The game and its factory are untouched. *)
Definition same_game (s s' : guest Mem G) : Prop := g_game s' = g_game s ∧ g_factory s' = g_factory s.

Lemma make_spec n (s : guest Mem G) : 0 ≤ n ≤ limit →
  ∃ a s', make n s = (Ok (mkSlice a n), s') ∧ same_game s s' ∧ 0 < a ∧ a + n ≤ mem_size (g_memory s') ∧ a + n ≤ 4294967296.
Proof.
  intros Hn. unfold make. destruct (make_inside (Mem := Mem) n (g_memory s) Hn) as (a & m' & -> & ?).
  by exists a, (set_memory m' s).
Qed.

Lemma store_spec a d (s : guest Mem G) : 0 ≤ a → a + byteLen d ≤ mem_size (g_memory s) →
  ∃ mem, store a d s = (Ok tt, set_memory mem s) ∧ mem_Write a d (g_memory s) = Some mem ∧
    mem_size mem = mem_size (g_memory s) ∧ mem_Read a (byteLen d) mem = Some d.
Proof.
  intros Ha Hb. destruct (write_inside a d (g_memory s) Ha Hb) as (mem & E & Hs & Hr).
  exists mem. unfold store. by rewrite E.
Qed.

(** A frame of the guest is what the host then reads. *)
Lemma frame_spec status payload (s : guest Mem G) : byteLen payload < limit →
  ∃ packed s', frame status payload s = (Ok packed, s') ∧ same_game s s' ∧
    readFrame packed s' = (Ok (String status payload), s').
Proof.
  intros Hl. pose proof (byteLen_nonneg payload) as Hp. unfold frame.
  destruct (make_spec (byteLen payload + 1) s) as (a & s1 & E & Hg & Ha & Hm & H32); [lia|].
  rewrite M_bind_eval, E. cbn [sl_ptr sl_len].
  set (s2 := set_respBuf (mkSlice a (byteLen payload + 1)) s1).
  change ((modify (set_respBuf (mkSlice a (byteLen payload + 1))) ≫= ?k) s1) with (k tt s2).
  destruct (store_spec a (String status "") s2) as (m1 & E1 & _ & Z1 & R1);
    [lia|change (g_memory s2) with (g_memory s1); change (byteLen (String status "")) with 1; lia|].
  rewrite M_bind_eval, E1.
  destruct (store_spec (a + 1) payload (set_memory m1 s2)) as (m2 & E2 & HW & Z2 & R2);
    [lia|cbn [g_memory set_memory]; rewrite Z1; change (g_memory s2) with (g_memory s1); lia|].
  rewrite M_bind_eval, E2. eexists _, _. split; [reflexivity|]. split; [exact Hg|].
  cbn [g_memory set_memory] in HW. assert (uint32 a) by (unfold uint32; lia). assert (uint32 (byteLen payload + 1)) by (unfold uint32; lia).
  unfold readFrame, bytesPtr. cbn [sl_len sl_ptr].
  assert (byteLen payload + 1 =? 0 = false) as E0 by (apply Z.eqb_neq; lia). rewrite E0.
  rewrite (u32_small a), (u32_small (byteLen payload + 1)) by (unfold uint32 in *; lia).
  rewrite respPtr_pack, respLen_pack, E0 by done.
  cbn [Memory_Read guest_module g_memory set_memory].
  assert (mem_Read a (1 + byteLen payload) m2 = Some (String status "" +:+ payload)) as Hread.
  { apply read_app; [lia..| |done]. by rewrite (write_frame _ _ _ _ a 1 HW) by lia. }
  rewrite Z.add_comm, Hread. reflexivity.
Qed.

(** The host's request is what the guest then decodes. *)
Lemma request_spec data (s : guest Mem G) : byteLen data ≤ limit →
  ∃ ptr s1 s2, export1 vfxAlloc [u64 (byteLen data)] s = (Ok [ptr], s1) ∧ writeRequest (u32 ptr) data s1 = (Ok tt, s2) ∧
    same_game s s2 ∧ load (g_reqBuf s2) (byteLen data) s2 = (Ok data, s2) ∧ byteLen data < 4294967296.
Proof.
  intros Hl. pose proof (byteLen_nonneg data) as Hp.
  destruct (make_spec (byteLen data) s) as (a & s1 & E & Hg & Ha & Hm & H32); [lia|].
  assert (u32 (u64 (byteLen data)) = byteLen data) as Hu by (rewrite u64_small by (unfold two64; lia); apply u32_small; lia).
  unfold export1, vfxAlloc. rewrite Hu, !M_bind_eval, E. cbn -[writeRequest load u32 bytesPtr].
  set (s1' := set_reqBuf (mkSlice a (byteLen data)) s1). unfold writeRequest, load, bytesPtr.
  destruct (decide (byteLen data = 0)) as [E0|E0].
  - eexists _, s1', s1'. split; [reflexivity|]. rewrite E0. cbn. rewrite E0. cbn. rewrite (byteLen_empty data E0). split_and!; [done..|lia].
  - destruct (store_spec a data s1') as (mem & _ & EW & Zm & R); [lia|exact Hm|].
    exists (u32 a), s1', (set_memory mem s1').
    assert (byteLen data =? 0 = false) as -> by (apply Z.eqb_neq; lia).
    assert (0 <? byteLen data = true) as -> by (apply Z.ltb_lt; lia).
    assert (u32 (u32 a) = a) as -> by (rewrite (u32_small a) by lia; apply u32_small; lia).
    cbn [Memory_Write guest_module g_memory set_memory sl_len sl_ptr s1']. rewrite EW. cbn.
    rewrite Z.ltb_irrefl, R. assert (byteLen data =? 0 = false) as -> by (apply Z.eqb_neq; lia). split_and!; [done..|lia].
Qed.

(** An answer of the game reaches the host. *)
Lemma answer_spec {Resp} {W : Wire Resp} {T : WellTyped Resp} {L : WireLaws Resp} (r : res Resp) (s : guest Mem G) : answerable r →
  ∃ packed frm s', (match r with Err err => guest_fail (error_text err) | Ok resp => guest_ok resp end) s = (Ok packed, s') ∧
    same_game s s' ∧ readFrame packed s' = (Ok frm, s') ∧ decodeFrame frm = reported r.
Proof.
  destruct r as [m|e]; cbn [answerable].
  - intros [Ht Hs]. destruct (guest_to_host m Ht) as (d & Em & Eu).
    destruct (frame_spec statusOK d s (Hs d Em)) as (packed & s' & E & Hg & Hr).
    exists packed, (String statusOK d), s'. unfold guest_ok. rewrite Em. split_and!; [done..|].
    cbn [decodeFrame]. rewrite bool_decide_eq_false_2 by (by intros []). by rewrite Eu.
  - intros Hs. destruct (frame_spec guest_statusErr (error_text e) s Hs) as (packed & s' & E & Hg & Hr).
    exists packed, (String guest_statusErr (error_text e)), s'. by split_and!.
Qed.

(** One call, for the three exports alike. *)
Lemma serve_spec {Req Resp} {WQ : Wire Req} {WR : Wire Resp} {TQ : WellTyped Req} {TR : WellTyped Resp}
    {LQ : WireLaws Req} {LR : WireLaws Resp} name (f : Req → G → res Resp * G) req d g (s : guest Mem G) :
  Marshal req = Ok d → UnmarshalVT d = Ok req → load (g_reqBuf s) (byteLen d) s = (Ok d, s) → g_game s = Some g → answerable (f req g).1 →
  ∃ packed frm s', serve_export name f (byteLen d) s = (Ok packed, s') ∧ readFrame packed s' = (Ok frm, s') ∧
    decodeFrame frm = reported (f req g).1 ∧ g_game s' = Some (f req g).2 ∧ g_factory s' = g_factory s.
Proof.
  intros Em Eu Hload Hg Ha. destruct (f req g) as [r g'] eqn:Ef. cbn [fst snd] in *.
  destruct (answer_spec r (set_game g' s) Ha) as (packed & frm & s' & E & [Hg' Hf'] & Hr & Hd).
  exists packed, frm, s'. split_and!; [|done..].
  unfold serve_export. rewrite M_bind_eval. cbn [gets]. rewrite M_bind_eval, Hload, Eu, M_bind_eval.
  unfold on_game. rewrite Hg, Ef. exact E.
Qed.

(** The host's side of a call whose export answers with a frame. *)
Lemma call_spec {Req Resp} {WQ : Wire Req} {WR : Wire Resp} {TQ : WellTyped Req} {LQ : WireLaws Req}
    (fn : Z → M (guest Mem G) Z) (req : Req) (out : res Resp) (s : guest Mem G) (post : guest Mem G → Prop) :
  sendable req →
  (∀ d s2, Marshal req = Ok d → UnmarshalVT d = Ok req → same_game s s2 → load (g_reqBuf s2) (byteLen d) s2 = (Ok d, s2) →
     ∃ packed frm s', fn (byteLen d) s2 = (Ok packed, s') ∧ readFrame packed s' = (Ok frm, s') ∧ decodeFrame frm = out ∧ post s') →
  ∃ s', call guest_plugin (export2 fn) req s = (out, s') ∧ post s'.
Proof.
  intros [Ht Hs] Hfn. destruct (host_to_guest req Ht) as (d & Em & Eu).
  destruct (request_spec d s (Hs d Em)) as (ptr & s1 & s2 & Ea & Ew & Hg & Hl & H32).
  destruct (Hfn d s2 Em Eu Hg Hl) as (packed & frm & s' & Ef & Hr & Hd & Hp).
  exists s'. split; [|done]. unfold call, wrap. rewrite Em, M_bind_eval. cbn [lift_res].
  rewrite M_bind_eval. cbn [wp_alloc guest_plugin]. rewrite Ea, M_bind_eval. cbn [result0 mret M_ret].
  rewrite M_bind_eval, Ew, M_bind_eval. unfold export2 at 1. pose proof (byteLen_nonneg d).
  rewrite M_bind_eval, u64_small, u32_small, Ef by (unfold two64; lia). cbn [mret M_ret].
  rewrite M_bind_eval. cbn [result0 mret M_ret]. by rewrite M_bind_eval, Hr, <- Hd.
Qed.

Lemma wasm_OnTick_spec req g s : g_game s = Some g → sendable req → answerable (pl_OnTick req g).1 →
  ∃ s', wasm_OnTick guest_plugin req s = (reported (pl_OnTick req g).1, s') ∧ g_game s' = Some (pl_OnTick req g).2.
Proof.
  intros Hg Hs Ha. apply (call_spec vfxOnTick); [done|]. intros d s2 Em Eu [Hg2 _] Hl.
  destruct (serve_spec "OnTickRequest" pl_OnTick req d g s2) as (? & ? & ? & ? & ? & ? & ? & ?); [..|naive_solver]; try done; congruence.
Qed.

Lemma wasm_OnGameEnd_spec req g s : g_game s = Some g → sendable req → answerable (pl_OnGameEnd (gq_FinalTick req) g).1 →
  ∃ s', wasm_OnGameEnd guest_plugin req s = (reported (pl_OnGameEnd (gq_FinalTick req) g).1, s') ∧
    g_game s' = Some (pl_OnGameEnd (gq_FinalTick req) g).2.
Proof.
  intros Hg Hs Ha. apply (call_spec vfxOnGameEnd); [done|]. intros d s2 Em Eu [Hg2 _] Hl.
  destruct (serve_spec "OnGameEndRequest" (λ r, pl_OnGameEnd (gq_FinalTick r)) req d g s2) as (? & ? & ? & ? & ? & ? & ? & ?); [..|naive_solver]; try done; congruence.
Qed.

Lemma load_game b n g (s : guest Mem G) r : load b n s = (r, s) → load b n (set_game g s) = (r, set_game g s).
Proof. unfold load. cbn. by intros [= ->]. Qed.

(** Init starts the game anew. *)
Lemma wasm_Init_spec req g s : g_factory s = Some g → sendable req → answerable (pl_Init (iq_PlayerIds req) g).1 →
  ∃ s', wasm_Init guest_plugin req s = (reported (pl_Init (iq_PlayerIds req) g).1, s') ∧ g_game s' = Some (pl_Init (iq_PlayerIds req) g).2.
Proof.
  intros Hg Hs Ha. apply (call_spec vfxInit); [done|]. intros d s2 Em Eu [_ Hf2] Hl.
  destruct (serve_spec "InitRequest" (λ r, pl_Init (iq_PlayerIds r)) req d g (set_game g s2)) as (packed & frm & s' & E & ? & ? & ? & ?);
    [done|done|by apply load_game|done..|].
  exists packed, frm, s'. split_and!; [|done..]. unfold vfxInit. rewrite M_bind_eval. cbn [gets]. by rewrite Hf2, Hg.
Qed.

(** ** Whole runs *)

Inductive plugin_call := CallInit (ids : list string) | CallTick (req : OnTickRequest) | CallEnd (tick : Z).
Inductive plugin_answer := AnswerInit (r : res InitResponse) | AnswerTick (r : res OnTickResponse) | AnswerEnd (r : res OnGameEndResponse).

Definition run_call {P} {PL : Plugin P} (c : plugin_call) (p : P) : plugin_answer * P :=
  match c with
  | CallInit ids => let '(r, p') := pl_Init ids p in (AnswerInit r, p')
  | CallTick req => let '(r, p') := pl_OnTick req p in (AnswerTick r, p')
  | CallEnd tick => let '(r, p') := pl_OnGameEnd tick p in (AnswerEnd r, p')
  end.

Fixpoint run_calls {P} {PL : Plugin P} (cs : list plugin_call) (p : P) : list plugin_answer :=
  match cs with [] => [] | c :: cs' => let '(a, p') := run_call c p in a :: run_calls cs' p' end.

Definition reported_answer (a : plugin_answer) : plugin_answer :=
  match a with
  | AnswerInit r => AnswerInit (reported r)
  | AnswerTick r => AnswerTick (reported r)
  | AnswerEnd r => AnswerEnd (reported r)
  end.

Definition call_ok (c : plugin_call) : Prop :=
  match c with
  | CallInit ids => sendable (mkInitRequest ids)
  | CallTick req => sendable req
  | CallEnd tick => sendable (mkOnGameEndRequest tick)
  end.
Definition answer_ok (a : plugin_answer) : Prop :=
  match a with AnswerInit r => answerable r | AnswerTick r => answerable r | AnswerEnd r => answerable r end.

(** Every message of a native run fits the boundary. *)
Fixpoint run_ok (cs : list plugin_call) (g : G) : Prop :=
  match cs with
  | [] => True
  | c :: cs' => call_ok c ∧ answer_ok (run_call c g).1 ∧ run_ok cs' (run_call c g).2
  end.

Definition later_call (c : plugin_call) : Prop := match c with CallInit _ => False | _ => True end.

Lemma later_call_spec c g s : later_call c → g_game s = Some g → call_ok c → answer_ok (run_call c g).1 →
  ∃ s', run_call (PL := hosted guest_plugin) c s = (reported_answer (run_call c g).1, s') ∧ g_game s' = Some (run_call c g).2.
Proof.
  intros Hc Hg Hok Ha. destruct c as [ids|req|t]; [done| |]; cbn [run_call pl_OnTick pl_OnGameEnd hosted] in *.
  - destruct (pl_OnTick req g) as [r g'] eqn:E. destruct (wasm_OnTick_spec req g s Hg Hok) as (s' & Es & Hs'); rewrite E in *; [done|].
    rewrite Es. by eexists.
  - destruct (pl_OnGameEnd t g) as [r g'] eqn:E. destruct (wasm_OnGameEnd_spec (mkOnGameEndRequest t) g s Hg Hok) as (s' & Es & Hs');
      cbn [gq_FinalTick] in *; rewrite E in *; [done|]. rewrite Es. by eexists.
Qed.

Lemma later_calls_spec cs g s : Forall later_call cs → g_game s = Some g → run_ok cs g →
  run_calls (PL := hosted guest_plugin) cs s = reported_answer <$> run_calls cs g.
Proof.
  intros Hcs. revert g s. induction Hcs as [|c cs Hc Hcs IH]; intros g s Hg; cbn [run_calls run_ok]; [done|].
  intros (Hok & Ha & Hr). destruct (later_call_spec c g s Hc Hg Hok Ha) as (s' & -> & Hg').
  destruct (run_call c g) as [a g']. cbn [fst snd] in *. by rewrite (IH g' s' Hg' Hr).
Qed.

(** C17: the WebAssembly boundary is transparent.  A game compiled with the guest SDK and loaded by
    the wazero host answers an Init and any sequence of ticks and ends exactly as the same game does
    natively, responses field by field and errors with their text, whatever the module's memory held
    before, as long as the messages exchanged have well-typed fields and fit the blocks the guest's
    allocator can give. *)
Theorem wasm_plugin_transparent g ids cs s p i :
  Create (Ok s) = Ok (p, i) → g_factory s = Some g → Forall later_call cs → run_ok (CallInit ids :: cs) g →
  run_calls (PL := hosted p) (CallInit ids :: cs) i = reported_answer <$> run_calls (CallInit ids :: cs) g.
Proof.
  rewrite guest_created. intros [= <- <-] Hf Hcs (Hok & Ha & Hr). cbn [run_calls run_call pl_Init hosted call_ok] in *.
  destruct (pl_Init ids g) as [r g'] eqn:E. cbn [fst snd answer_ok] in *.
  destruct (wasm_Init_spec (mkInitRequest ids) g s Hf Hok) as (s' & Es & Hg'); cbn [iq_PlayerIds] in *; rewrite E in *; [done|].
  rewrite Es. cbn [fmap list_fmap reported_answer]. by rewrite (later_calls_spec cs g' s').
Qed.
End transparent.

(** ** Evaluated instances *)

(** Memory as the list of its bytes. *)
#[export] Instance list_memory : LinearMemory (list ascii) := {|
  mem_Read p n m :=
    if (p <? 0) || (n <? 0) || (Z.of_nat (length m) <? p + n) then None
    else Some (string_of_list_ascii (take (Z.to_nat n) (drop (Z.to_nat p) m)));
  mem_Write p s m :=
    if (p <? 0) || (Z.of_nat (length m) <? p + byteLen s) then None
    else Some (take (Z.to_nat p) m ++ list_ascii_of_string s ++ drop (Z.to_nat p + String.length s) m);
|}.

Lemma list_ascii_length s : length (list_ascii_of_string s) = String.length s.
Proof. induction s; cbn; congruence. Qed.

Lemma string_of_bytes_app l k : string_of_list_ascii (l ++ k) = string_of_list_ascii l +:+ string_of_list_ascii k.
Proof. induction l as [|a l IH]; [done|]. cbn [app string_of_list_ascii]. by rewrite IH. Qed.

Lemma string_of_bytes_length l : String.length (string_of_list_ascii l) = length l.
Proof. induction l; cbn; congruence. Qed.

Lemma list_read p n (m : list ascii) : 0 ≤ p → 0 ≤ n → p + n ≤ Z.of_nat (length m) →
  mem_Read p n m = Some (string_of_list_ascii (take (Z.to_nat n) (drop (Z.to_nat p) m))).
Proof.
  intros. cbn. assert ((p <? 0) || (n <? 0) || (Z.of_nat (length m) <? p + n) = false) as ->; [|done].
  rewrite !orb_false_iff, !Z.ltb_ge. lia.
Qed.

Lemma list_read_Some p n (m : list ascii) s : mem_Read p n m = Some s →
  0 ≤ p ∧ 0 ≤ n ∧ p + n ≤ Z.of_nat (length m) ∧ s = string_of_list_ascii (take (Z.to_nat n) (drop (Z.to_nat p) m)).
Proof. cbn. intros H. case_match; [done|]. to_prop. split_and!; [lia..|congruence]. Qed.

#[export] Program Instance list_memory_laws : LinearMemoryLaws (list ascii) := {| mem_size m := Z.of_nat (length m) |}.
Next Obligation.
  intros p n m Hp Hn Hl. cbn beta in Hl. rewrite list_read by done. eexists; split; [done|].
  unfold byteLen. rewrite string_of_bytes_length, length_take, length_drop. lia.
Qed.
Next Obligation.
  intros p a b s t m Hp Ha Hb (_ & _ & _ & ->)%list_read_Some (_ & _ & Hl & ->)%list_read_Some.
  rewrite list_read by lia. rewrite <- string_of_bytes_app, !Z2Nat.inj_add, <- drop_drop, take_take_drop by lia. done.
Qed.
Next Obligation.
  intros p s m Hp Hl. cbn beta in Hl. unfold byteLen in Hl. eexists. split; [cbn; unfold byteLen|].
  { assert ((p <? 0) || (Z.of_nat (length m) <? p + Z.of_nat (String.length s)) = false) as ->; [|done].
    rewrite orb_false_iff, !Z.ltb_ge. lia. }
  assert (length (take (Z.to_nat p) m ++ list_ascii_of_string s ++ drop (Z.to_nat p + String.length s) m) = length m) as Hlen.
  { rewrite !length_app, length_take, length_drop, list_ascii_length. lia. }
  cbn beta. rewrite Hlen. split; [done|]. unfold byteLen. rewrite list_read by lia. f_equal.
  rewrite drop_app_length', Nat2Z.id, take_app_length' by (rewrite ?list_ascii_length, ?length_take; lia).
  apply string_of_list_ascii_of_string.
Qed.
Next Obligation.
  intros p s m m' q n Hw Hd. cbn in Hw. case_match eqn:E; [done|]. injection Hw as <-. rewrite orb_false_iff, !Z.ltb_ge in E. unfold byteLen in *.
  cbn. rewrite !length_app, length_take, length_drop, list_ascii_length.
  replace (_ + (_ + _))%nat with (length m) by lia. case_match eqn:E'; [done|]. rewrite !orb_false_iff, !Z.ltb_ge in E'.
  do 2 f_equal. destruct Hd as [Hd|Hd].
  - rewrite drop_app_le, take_app_le by (rewrite ?length_drop, ?length_take; lia).
    rewrite skipn_firstn_comm, take_take. do 2 f_equal. lia.
  - rewrite app_assoc, drop_app_ge by (rewrite length_app, length_take, list_ascii_length; lia).
    rewrite drop_drop. do 2 f_equal. rewrite length_app, length_take, list_ascii_length. lia.
Qed.

(** An allocator for a game that keeps nothing: every block is at the same address. *)
Definition demo_limit : Z := 1000000.
#[export] Instance demo_allocator : Allocator (list ascii) := λ n m,
  if demo_limit <? n then None
  else Some (8, take 8 (m ++ replicate 8 zero) ++ replicate (Z.to_nat n) zero ++ drop (8 + Z.to_nat n) m).

#[export] Instance demo_allocator_laws : AllocatorLaws (list ascii) demo_limit.
Proof.
  intros n m [H0 Hn]. unfold go_make, demo_allocator. rewrite (proj2 (Z.ltb_ge _ _)) by done.
  eexists _, _. split; [done|]. cbn [mem_size list_memory_laws].
  rewrite !length_app, length_take, length_app, !length_replicate, length_drop. unfold demo_limit in Hn. lia.
Qed.

(** A wire format out of any enumeration of the messages: the bits of a message's number. *)
#[local] Instance countable_wire {A} `{Countable A} : Wire A := {|
  Marshal m := Ok (bits (encode m));
  Unmarshal d := match decode (unbits d) with Some m => Ok m | None => Err (ErrText "malformed") end;
  MarshalVT m := Ok (bits (encode m));
  UnmarshalVT d := match decode (unbits d) with Some m => Ok m | None => Err (ErrText "malformed") end;
|}.

#[local] Instance countable_wire_laws {A} `{Countable A} {T : WellTyped A} : WireLaws A.
Proof. split; intros m _; eexists; (split; [done|]); cbn; by rewrite unbits_bits, decode_encode. Qed.

#[export] Instance InitRequest_eq_dec : EqDecision InitRequest.
Proof. solve_decision. Defined.
#[export] Instance InitResponse_eq_dec : EqDecision InitResponse.
Proof. solve_decision. Defined.
#[export] Instance OutboundEvent_eq_dec : EqDecision OutboundEvent.
Proof. solve_decision. Defined.
#[export] Instance OnTickResponse_eq_dec : EqDecision OnTickResponse.
Proof. solve_decision. Defined.
#[export] Instance OnGameEndRequest_eq_dec : EqDecision OnGameEndRequest.
Proof. solve_decision. Defined.
#[export] Instance PlayerResult_eq_dec : EqDecision PlayerResult.
Proof. solve_decision. Defined.
#[export] Instance OnGameEndResponse_eq_dec : EqDecision OnGameEndResponse.
Proof. solve_decision. Defined.

#[export] Instance InitRequest_countable : Countable InitRequest.
Proof. apply (inj_countable' iq_PlayerIds mkInitRequest). by intros []. Defined.
#[export] Instance InitResponse_countable : Countable InitResponse.
Proof. apply (inj_countable' (λ m, (ir_TickRateHz m, ir_InitialSnapshot m)) (λ '(a, b), mkInitResponse a b)). by intros []. Defined.
#[export] Instance PlayerAction_countable : Countable PlayerAction.
Proof. apply (inj_countable' (λ m, (pa_PlayerId m, pa_ClientTick m, pa_Payload m)) (λ '(a, b, c), mkPlayerAction a b c)). by intros []. Defined.
#[export] Instance NetworkEvent_countable : Countable NetworkEvent.
Proof.
  apply (inj_countable' (λ e, match e with PlayerJoined p => inl p | PlayerLeft p r => inr (p, r) end)
    (λ x, match x with inl p => PlayerJoined p | inr (p, r) => PlayerLeft p r end)). by intros [].
Defined.
#[export] Instance OnTickRequest_countable : Countable OnTickRequest.
Proof. apply (inj_countable' (λ m, (tr_Tick m, tr_Timestamp m, tr_Actions m, tr_NetworkEvents m)) (λ '(a, b, c, d), mkOnTickRequest a b c d)). by intros []. Defined.
#[export] Instance OutboundEvent_countable : Countable OutboundEvent.
Proof. apply (inj_countable' (λ m, (oe_Type m, oe_Payload m, oe_Recipients m)) (λ '(a, b, c), mkOutboundEvent a b c)). by intros []. Defined.
#[export] Instance OnTickResponse_countable : Countable OnTickResponse.
Proof. apply (inj_countable' (λ m, (tp_StateDelta m, tp_Events m, tp_GameEnded m)) (λ '(a, b, c), mkOnTickResponse a b c)). by intros []. Defined.
#[export] Instance OnGameEndRequest_countable : Countable OnGameEndRequest.
Proof. apply (inj_countable' gq_FinalTick mkOnGameEndRequest). by intros []. Defined.
#[export] Instance PlayerResult_countable : Countable PlayerResult.
Proof. apply (inj_countable' (λ m, (pr_PlayerId m, pr_Rank m, pr_Stats m)) (λ '(a, b, c), mkPlayerResult a b c)). by intros []. Defined.
#[export] Instance OnGameEndResponse_countable : Countable OnGameEndResponse.
Proof. apply (inj_countable' (λ m, (er_FinalState m, er_PlayerResults m)) (λ '(a, b), mkOnGameEndResponse a b)). by intros []. Defined.

#[local] Instance demo_error_text : ErrorText := λ e, match e with ErrText m => m | _ => "error" end.
#[local] Existing Instance guest_module.

(** An instance of [demo_plugin]'s module, before its first call; memory holds leftovers. *)
Definition demo_guest : guest (list ascii) nat := mkGuest (list_ascii_of_string "leftover") (Some 0%nat) None (mkSlice 0 0) (mkSlice 0 0).
Definition demo_calls : list plugin_call :=
  [CallTick (mkOnTickRequest 0 1000 [mkPlayerAction "p1" 7 "move"] [PlayerJoined "p1"]); CallEnd 1].

Example demo_guest_answers : run_calls (PL := hosted guest_plugin) (CallInit ["p1"] :: demo_calls) demo_guest = run_calls (CallInit ["p1"] :: demo_calls) 0%nat.
Proof. vm_compute. reflexivity. Qed.

(** A tick before Init finds no game: the guest traps and the call fails. *)
Example tick_before_init :
  (wasm_OnTick guest_plugin (mkOnTickRequest 0 1000 [] []) demo_guest).1 = Err (Wrap "wazerohost: call export" trap).
Proof. vm_compute. reflexivity. Qed.

Lemma demo_sendable {A} `{Countable A} {T : WellTyped A} (m : A) :
  well_typed m → (byteLen (bits (encode m)) <=? demo_limit) = true → sendable demo_limit m.
Proof. intros Ht Hl%Z.leb_le. split; [done|]. by intros d [= <-]. Qed.

Lemma demo_answerable {A} `{Countable A} {T : WellTyped A} (m : A) :
  well_typed m → (byteLen (bits (encode m)) <? demo_limit) = true → answerable demo_limit (Ok m).
Proof. intros Ht Hl%Z.ltb_lt. split; [done|]. by intros d [= <-]. Qed.

(** The fields of a closed message have values of their types. *)
Ltac closed_typed :=
  repeat match goal with
  | |- Forall _ [] => constructor
  | |- Forall _ (_ :: _) => constructor
  | |- _ ∧ _ => split
  | |- utf8 _ => vm_compute; reflexivity
  | |- uint32 _ => unfold uint32; cbn; lia
  | |- (_ <= _)%Z => vm_compute; congruence
  | |- well_typed _ => red; cbn
  | |- _ => progress unfold InitRequest_typed, InitResponse_typed, OnTickRequest_typed, OnTickResponse_typed, OutboundEvent_typed,
        PlayerAction_typed, NetworkEvent_typed, OnGameEndRequest_typed, OnGameEndResponse_typed; cbn
  end.

Lemma demo_run_ok : run_ok demo_limit (CallInit ["p1"] :: demo_calls) 0%nat.
Proof.
  cbn [run_ok demo_calls]. do 3 (split; [apply demo_sendable; [closed_typed|vm_compute; reflexivity]|]; split;
    [apply demo_answerable; [closed_typed|vm_compute; reflexivity]|]). done.
Qed.

Lemma wasm_plugin_transparent_witness :
  run_calls (PL := hosted guest_plugin) (CallInit ["p1"] :: demo_calls) demo_guest = reported_answer <$> run_calls (CallInit ["p1"] :: demo_calls) 0%nat.
Proof.
  apply (wasm_plugin_transparent demo_limit 0%nat ["p1"] demo_calls demo_guest); [reflexivity|reflexivity|by repeat constructor|apply demo_run_ok].
Defined.
