(* ===== verification/WasmMatch.v ===== *)
(** * A match does not see where its plugin runs

    The match loop ([Room]) over two plugins that answer alike: whatever the schedule, it sends the
    same frames to the same sessions.  [follows] relates an operation on the one match to the same
    operation on the other; it composes, so each operation inherits it from its parts.  The instance
    that matters is a game run natively against the same game behind the WebAssembly boundary. *)

From S2P Require Import Prelude GoBase Room WasmPlugin.

(** The hints below: how operations follow one another. *)
Create HintDb following.

Section follows.
Context {P Q : Type} {PP : Plugin P} {PQ : Plugin Q} {PM : ProtoMarshal} {U : UuidCodec} {RO : RangeOrder}.

(** Equal values, or an error on both sides. *)
Definition alike {A} (r1 r2 : res A) : Prop :=
  match r1, r2 with Ok a, Ok b => a = b | Err _, Err _ => True | _, _ => False end.

(** [same] relates the plugins' states; [tickable] and [endable] are the calls on which they agree. *)
Context (same : P → Q → Prop) (tickable : OnTickRequest → Prop) (endable : Z → Prop).
Hypothesis same_tick : ∀ req p q, tickable req → same p q →
  alike (pl_OnTick req p).1 (pl_OnTick req q).1 ∧ same (pl_OnTick req p).2 (pl_OnTick req q).2.
Hypothesis same_end : ∀ t p q, endable t → same p q →
  alike (pl_OnGameEnd t p).1 (pl_OnGameEnd t q).1 ∧ same (pl_OnGameEnd t p).2 (pl_OnGameEnd t q).2.
Hypothesis same_close : ∀ p q, same p q → same (pl_Close p).2 (pl_Close q).2.

Definition agreed (o : obs) : Prop :=
  match o with OTick req => tickable req | OGameEnd t => endable t | _ => True end.

Definition status_alike (s1 s2 : run_status) : Prop :=
  match s1, s2 with Running, Running => True | Returned r1, Returned r2 => alike r1 r2 | _, _ => False end.

Record twins (m1 : Match P) (m2 : Match Q) : Prop := {
  tw_players : m_players m2 = m_players m1;
  tw_tick : m_currentTick m2 = m_currentTick m1;
  tw_rate : m_tickRateHz m2 = m_tickRateHz m1;
  tw_inputs : m_inputs m2 = m_inputs m1;
  tw_events : m_events m2 = m_events m1;
  tw_trace : m_trace m2 = m_trace m1;
  tw_status : status_alike (m_status m1) (m_status m2);
  tw_plugin : same (m_plugin m1) (m_plugin m2);
}.

(** The trace only grows. *)
Definition grows {A} (c : M (Match P) A) : Prop := ∀ m, ∃ t, m_trace (c m).2 = m_trace m ++ t.

(** From twins, and if the calls made are agreed, the two operations answer alike and leave twins. *)
Definition follows_at {A} (m1 : Match P) (m2 : Match Q) (c1 : M (Match P) A) (c2 : M (Match Q) A) : Prop :=
  twins m1 m2 → Forall agreed (m_trace (c1 m1).2) → alike (c1 m1).1 (c2 m2).1 ∧ twins (c1 m1).2 (c2 m2).2.
Definition follows {A} (c1 : M (Match P) A) (c2 : M (Match Q) A) : Prop := ∀ m1 m2, follows_at m1 m2 c1 c2.

Lemma grows_ret {A} (a : A) : grows (mret a).
Proof. intros m. exists []. by rewrite app_nil_r. Qed.

Lemma grows_fail {A} e : grows (fail e : M _ A).
Proof. intros m. exists []. by rewrite app_nil_r. Qed.

Lemma grows_bind {A B} (c : M _ A) (k : A → M _ B) : grows c → (∀ a, grows (k a)) → grows (c ≫= k).
Proof.
  intros Hc Hk m. rewrite M_bind_eval. specialize (Hc m). destruct (c m) as [[a|e] m']; cbn [fst snd] in *; [|done].
  destruct Hc as [t Ht]. destruct (Hk a m') as [t' Ht']. exists (t ++ t'). by rewrite Ht', Ht, app_assoc.
Qed.

Lemma grows_get {A} (k : Match P → M _ A) : (∀ m, grows (k m)) → grows (Prelude.get ≫= k).
Proof. intros Hk m. apply (Hk m). Qed.

Lemma grows_observe o : grows (observe o).
Proof. intros m. by exists [o]. Qed.

Lemma grows_modify f : (∀ m, m_trace (f m) = m_trace m) → grows (modify f).
Proof. intros Hf m. exists []. cbn. by rewrite Hf, app_nil_r. Qed.

Lemma grows_for_each {X} (f : X → M (Match P) unit) l : (∀ x, grows (f x)) → grows (for_each f l).
Proof. intros Hf. induction l; cbn [for_each]; [apply grows_ret|]. by apply grows_bind. Qed.

Lemma grows_ignore {A} (c : M (Match P) A) : grows c → grows (ignore c).
Proof. done. Qed.

Lemma follows_ret {A} (a : A) : follows (mret a) (mret a).
Proof. by intros m1 m2 H _. Qed.

Lemma follows_bind_at {A B} m1 m2 (c1 : M _ A) c2 (k1 : A → M _ B) k2 :
  follows_at m1 m2 c1 c2 → (∀ a, grows (k1 a)) → (∀ a, follows (k1 a) (k2 a)) → follows_at m1 m2 (c1 ≫= k1) (c2 ≫= k2).
Proof.
  intros Hc Hg Hk Ht. unfold follows_at in Hc. rewrite !M_bind_eval.
  destruct (c1 m1) as [[a|e] m1'] eqn:E1; cbn [fst snd] in *.
  - intros Ha. destruct (Hg a m1') as [t Et].
    destruct Hc as [Hr Ht']; [done|by rewrite Et, list.Forall_app in Ha; apply Ha|].
    destruct (c2 m2) as [[a2|e2] m2']; cbn in Hr; [subst a2|done]. by apply Hk.
  - intros Ha. destruct Hc as [Hr Ht']; [done..|]. by destruct (c2 m2) as [[a2|e2] m2'].
Qed.

Lemma follows_bind {A B} (c1 : M _ A) c2 (k1 : A → M _ B) k2 :
  follows c1 c2 → (∀ a, grows (k1 a)) → (∀ a, follows (k1 a) (k2 a)) → follows (c1 ≫= k1) (c2 ≫= k2).
Proof. intros Hc Hg Hk m1 m2. by apply follows_bind_at. Qed.

(** A read sees the same on both sides, the plugin apart. *)
Lemma follows_get {A} (k1 : Match P → M _ A) k2 :
  (∀ m1 m2, twins m1 m2 → follows_at m1 m2 (k1 m1) (k2 m2)) → follows (Prelude.get ≫= k1) (Prelude.get ≫= k2).
Proof. intros Hk m1 m2 Ht. by apply Hk. Qed.

Lemma twins_observe o m1 m2 : twins m1 m2 → twins (observe o m1).2 (observe o m2).2.
Proof. intros []. split; cbn; first [done|congruence]. Qed.

Lemma follows_observe o : follows (observe o) (observe o).
Proof. intros m1 m2 H _. split; [done|]. by apply twins_observe. Qed.

Lemma follows_modify f1 f2 : (∀ m1 m2, twins m1 m2 → twins (f1 m1) (f2 m2)) → follows (modify f1) (modify f2).
Proof. intros Hf m1 m2 Ht _. split; [done|]. by apply Hf. Qed.

Lemma follows_for_each {X} (f1 : X → M (Match P) unit) (f2 : X → M (Match Q) unit) l :
  (∀ x, grows (f1 x)) → (∀ x, follows (f1 x) (f2 x)) → follows (for_each f1 l) (for_each f2 l).
Proof.
  intros Hg Hf. induction l; cbn [for_each]; [apply follows_ret|].
  apply follows_bind; [done|intros; by apply grows_for_each|done].
Qed.

Lemma follows_ignore {A} (c1 : M _ A) c2 : follows c1 c2 → follows (ignore c1) (ignore c2).
Proof. intros Hc m1 m2 Ht Ha. split; [done|]. by apply Hc. Qed.

(** ** Joins, leaves, inputs *)

#[local] Hint Resolve grows_ret grows_fail grows_observe grows_ignore follows_ret follows_observe follows_ignore : following.
#[local] Hint Extern 3 (grows (_ ≫= _)) => apply grows_bind : following.
#[local] Hint Extern 2 (grows (Prelude.get ≫= _)) => apply grows_get : following.
#[local] Hint Extern 2 (grows (modify _)) => apply grows_modify : following.
#[local] Hint Extern 2 (grows (for_each _ _)) => apply grows_for_each : following.
#[local] Hint Extern 2 (grows (match ?x with _ => _ end)) => destruct x : following.
#[local] Hint Extern 3 (follows (_ ≫= _) (_ ≫= _)) => apply follows_bind : following.
#[local] Hint Extern 2 (follows (Prelude.get ≫= _) (Prelude.get ≫= _)) => apply follows_get : following.
#[local] Hint Extern 2 (follows (for_each _ _) (for_each _ _)) => apply follows_for_each : following.

Lemma at_follows {A} m1 m2 (c1 : M _ A) c2 : follows c1 c2 → follows_at m1 m2 c1 c2.
Proof. by intros H. Qed.

Lemma grows_if {A} (b : bool) (c d : M (Match P) A) : grows c → grows d → grows (if b then c else d).
Proof. by destruct b. Qed.

Lemma follows_if {A} (b : bool) (c1 d1 : M _ A) c2 d2 : follows c1 c2 → follows d1 d2 → follows (if b then c1 else d1) (if b then c2 else d2).
Proof. by destruct b. Qed.

(** Updates of the shared fields. *)
Lemma twins_players m1 m2 ps : twins m1 m2 → twins (set_players ps m1) (set_players ps m2).
Proof. by intros []. Qed.
Lemma twins_inputs m1 m2 l : twins m1 m2 → twins (set_inputs l m1) (set_inputs l m2).
Proof. by intros []. Qed.
Lemma twins_events m1 m2 l : twins m1 m2 → twins (set_events l m1) (set_events l m2).
Proof. by intros []. Qed.
Lemma twins_set_tick m1 m2 t : twins m1 m2 → twins (set_tick t m1) (set_tick t m2).
Proof. by intros []. Qed.

(** Prove one operation: read the fields of the twin, then compose. *)
Ltac following := intros; eauto 20 with following.
Ltac read_twin := apply follows_get; let H := fresh in intros ? ? H; rewrite ?(tw_players _ _ H), ?(tw_inputs _ _ H), ?(tw_events _ _ H), ?(tw_tick _ _ H); apply at_follows.

#[local] Hint Resolve grows_if follows_if twins_players twins_inputs twins_events twins_set_tick follows_modify : following.

Lemma offer_event_grows e : grows (offer_event e).
Proof. unfold offer_event. following. Qed.

Lemma offer_event_follows e : follows (offer_event e) (offer_event e).
Proof. unfold offer_event. read_twin. following. Qed.

#[local] Hint Resolve offer_event_grows offer_event_follows : following.

Lemma Join_grows p io : grows (Join p io).
Proof. unfold Join. following. Qed.

Lemma Join_follows p io : follows (Join p io) (Join p io).
Proof. unfold Join. read_twin. case_match; [by intros ????|]. following. Qed.

Lemma Leave_grows p r : grows (Leave p r).
Proof. unfold Leave. following. Qed.

Lemma Leave_follows p r : follows (Leave p r) (Leave p r).
Proof. unfold Leave. read_twin. case_match; following. Qed.

Lemma SubmitInput_grows p t d : grows (SubmitInput p t d).
Proof. unfold SubmitInput. following. Qed.

Lemma SubmitInput_follows p t d : follows (SubmitInput p t d) (SubmitInput p t d).
Proof. unfold SubmitInput. read_twin. following. Qed.

#[local] Hint Resolve Join_grows Join_follows Leave_grows Leave_follows SubmitInput_grows SubmitInput_follows : following.

Lemma run_op_grows o : grows (run_op o).
Proof. destruct o; cbn [run_op]; following. Qed.

Lemma run_op_follows o : follows (run_op o) (run_op o).
Proof. destruct o; cbn [run_op]; following. Qed.

#[local] Hint Resolve run_op_grows run_op_follows : following.

Lemma yield_grows os : grows (yield os).
Proof. unfold yield. following. Qed.

Lemma yield_follows os : follows (yield os) (yield os).
Proof. unfold yield. following. Qed.

#[local] Hint Resolve yield_grows yield_follows : following.

(** ** Fan-out *)

Lemma send_grows f io : grows (send f io).
Proof. unfold send. following. Qed.

Lemma send_follows f io : follows (send f io) (send f io).
Proof. unfold send. following. Qed.

#[local] Hint Resolve send_grows send_follows : following.

Lemma broadcast_grows os f : grows (broadcast os f).
Proof. unfold broadcast. following. Qed.

Lemma broadcast_follows os f : follows (broadcast os f) (broadcast os f).
Proof. unfold broadcast. read_twin. following. Qed.

Lemma send_to_grows f rid : grows (send_to f rid).
Proof. unfold send_to. following. Qed.

Lemma send_to_follows f rid : follows (send_to f rid) (send_to f rid).
Proof. unfold send_to. read_twin. repeat case_match; following. Qed.

#[local] Hint Resolve broadcast_grows broadcast_follows send_to_grows send_to_follows : following.

Lemma dispatchEvent_grows os ev : grows (dispatchEvent os ev).
Proof. unfold dispatchEvent. following. Qed.

Lemma dispatchEvent_follows os ev : follows (dispatchEvent os ev) (dispatchEvent os ev).
Proof. unfold dispatchEvent. case_match; following. Qed.

#[local] Hint Resolve dispatchEvent_grows dispatchEvent_follows : following.

Lemma dispatchAll_grows os k evs : grows (dispatchAll os k evs).
Proof. revert k. induction evs; cbn [dispatchAll]; following. Qed.

#[local] Hint Resolve dispatchAll_grows : following.

Lemma dispatchAll_follows os k evs : follows (dispatchAll os k evs) (dispatchAll os k evs).
Proof. revert k. induction evs; cbn [dispatchAll]; following. Qed.

Lemma closeAllPlayers_grows : grows closeAllPlayers.
Proof. unfold closeAllPlayers. following. Qed.

Lemma closeAllPlayers_follows : follows closeAllPlayers closeAllPlayers.
Proof. unfold closeAllPlayers. read_twin. following. Qed.

#[local] Hint Resolve dispatchAll_follows closeAllPlayers_grows closeAllPlayers_follows : following.

(** ** The tick and the end *)

Lemma gets_tick : follows (gets m_currentTick) (gets m_currentTick).
Proof. intros m1 m2 H _. split; [|done]. cbn. by rewrite (tw_tick _ _ H). Qed.

Lemma gets_grows {A} (f : Match P → A) : grows (gets f).
Proof. intros m. exists []. by rewrite app_nil_r. Qed.

Lemma drainActions_follows : follows drainActions drainActions.
Proof. unfold drainActions. read_twin. following. Qed.

Lemma drainEvents_follows : follows drainEvents drainEvents.
Proof. unfold drainEvents. read_twin. following. Qed.

Lemma call_OnTick_grows req : grows (call_OnTick req).
Proof. intros m. unfold call_OnTick. destruct (pl_OnTick req (m_plugin m)) as [[] p]; by exists [OTick req]. Qed.

Lemma twins_plugin m1 m2 p q : twins m1 m2 → same p q → twins (set_plugin p m1) (set_plugin q m2).
Proof. by intros []. Qed.

(** The last event of a trace that is agreed. *)
Lemma agreed_last t o : Forall agreed (t ++ [o]) → agreed o.
Proof. rewrite list.Forall_app. intros [_ H]. by inversion H. Qed.

Lemma call_OnTick_follows req : follows (call_OnTick req) (call_OnTick req).
Proof.
  intros m1 m2 H Ha. unfold call_OnTick in *.
  destruct (pl_OnTick req (m_plugin m1)) as [r1 p1] eqn:E1, (pl_OnTick req (m_plugin m2)) as [r2 p2] eqn:E2.
  assert (tickable req) as Ht by (destruct r1; exact (agreed_last _ _ Ha)).
  destruct (same_tick req _ _ Ht (tw_plugin _ _ H)) as [Hal Hsame]. rewrite E1, E2 in Hal, Hsame. cbn [fst snd] in Hal, Hsame.
  pose proof (twins_observe (OTick req) _ _ (twins_plugin _ _ _ _ H Hsame)) as Htw.
  destruct r1, r2; cbn in Hal; try done; (split; [exact Hal|exact Htw]).
Qed.

#[local] Hint Resolve gets_tick drainActions_follows drainEvents_follows call_OnTick_grows call_OnTick_follows : following.

Lemma when_grows b (c : M (Match P) unit) : grows c → grows (when b c).
Proof. destruct b; following. Qed.

Lemma when_follows b (c1 : M _ unit) c2 : follows c1 c2 → follows (when b c1) (when b c2).
Proof. destruct b; following. Qed.

#[local] Hint Resolve when_grows when_follows : following.

Lemma drainActions_grows : grows drainActions.
Proof. unfold drainActions. following. Qed.

Lemma drainEvents_grows : grows drainEvents.
Proof. unfold drainEvents. following. Qed.

#[local] Hint Resolve drainActions_grows drainEvents_grows gets_grows : following.

(** A long sequence: one [follows_bind] per statement. *)
Ltac compose :=
  repeat (intros; match goal with |- follows (_ ≫= _) _ => apply follows_bind | |- grows (_ ≫= _) => apply grows_bind end); following.

Lemma tick_follows now os : follows (tick now os) (tick now os).
Proof. unfold tick. compose. Qed.

Lemma tick_grows now os : grows (tick now os).
Proof. unfold tick. compose. Qed.

(** The call of [finalise] to the plugin, with the payload it leaves. *)
Definition call_OnGameEnd {X} {PX : Plugin X} : M (Match X) string := λ m,
  let '(r, p) := pl_OnGameEnd (m_currentTick m) (m_plugin m) in
  (_ ← modify (set_plugin p); _ ← observe (OGameEnd (m_currentTick m));
   mret (match r with Ok resp => from_option id "" (marshal_end resp) | Err _ => "" end)) m.

Lemma finalise_eq {X} {PX : Plugin X} os (m : Match X) :
  finalise os m = (payload ← call_OnGameEnd; _ ← yield (os 4%nat); _ ← broadcast (os 0%nat) (Frame_Event "game_ended" payload); _ ← yield (os 1%nat); closeAllPlayers) m.
Proof.
  unfold finalise, call_OnGameEnd. change (Prelude.get ≫= ?k) with (λ m, k m m). cbn beta.
  rewrite M_bind_eval. by destruct (pl_OnGameEnd (m_currentTick m) (m_plugin m)) as [r p].
Qed.

Lemma call_OnGameEnd_follows : follows call_OnGameEnd call_OnGameEnd.
Proof.
  intros m1 m2 H Ha. unfold call_OnGameEnd in *. rewrite (tw_tick _ _ H).
  destruct (pl_OnGameEnd (m_currentTick m1) (m_plugin m1)) as [r1 p1] eqn:E1, (pl_OnGameEnd (m_currentTick m1) (m_plugin m2)) as [r2 p2] eqn:E2.
  destruct (same_end _ _ _ (agreed_last _ (OGameEnd _) Ha) (tw_plugin _ _ H)) as [Hal Hsame]. rewrite E1, E2 in Hal, Hsame. cbn [fst snd] in Hal, Hsame.
  pose proof (twins_observe (OGameEnd (m_currentTick m1)) _ _ (twins_plugin _ _ _ _ H Hsame)) as Htw.
  split; [|exact Htw]. destruct r1, r2; cbn in Hal; by rewrite ?Hal.
Qed.

Lemma call_OnGameEnd_grows : grows call_OnGameEnd.
Proof. intros m. unfold call_OnGameEnd. destruct (pl_OnGameEnd _ _) as [r p]. by eexists. Qed.

#[local] Hint Resolve call_OnGameEnd_follows call_OnGameEnd_grows : following.

Lemma finalise_follows os : follows (finalise os) (finalise os).
Proof. intros m1 m2. unfold follows_at. rewrite !finalise_eq. revert m1 m2. change (follows (payload ← call_OnGameEnd; _ ← yield (os 4%nat); _ ← broadcast (os 0%nat) (Frame_Event "game_ended" payload); _ ← yield (os 1%nat); closeAllPlayers)
  (payload ← call_OnGameEnd; _ ← yield (os 4%nat); _ ← broadcast (os 0%nat) (Frame_Event "game_ended" payload); _ ← yield (os 1%nat); closeAllPlayers)). compose. Qed.

Lemma finalise_grows os : grows (finalise os).
Proof.
  intros m. rewrite finalise_eq. revert m. change (grows (payload ← call_OnGameEnd; _ ← yield (os 4%nat);
    _ ← broadcast (os 0%nat) (Frame_Event "game_ended" payload); _ ← yield (os 1%nat); closeAllPlayers)). compose.
Qed.

(** The call of [Run]'s deferred function to the plugin. *)
Lemma close_follows : follows (_ ← modify (λ m, set_plugin (pl_Close (m_plugin m)).2 m); observe OPluginClose)
  (_ ← modify (λ m, set_plugin (pl_Close (m_plugin m)).2 m); observe OPluginClose).
Proof. intros m1 m2 H _. split; [done|]. exact (twins_observe OPluginClose _ _ (twins_plugin _ _ _ _ H (same_close _ _ (tw_plugin _ _ H)))). Qed.

Lemma close_grows : grows (_ ← modify (λ m : Match P, set_plugin (pl_Close (m_plugin m)).2 m); observe OPluginClose).
Proof. intros m. by exists [OPluginClose]. Qed.

Lemma status_follows r1 r2 : alike r1 r2 → follows (modify (set_status (Returned r1))) (modify (set_status (Returned r2))).
Proof. intros Hr m1 m2 H _. split; [done|]. destruct H. by split. Qed.

Lemma status_grows r : grows (modify (set_status (P := P) (Returned r))).
Proof. intros m. exists []. by rewrite app_nil_r. Qed.

Lemma return_eq {X} {PX : Plugin X} os r (m : Match X) : return_from_Run os r m =
  (_ ← yield (os 2%nat); _ ← (_ ← modify (λ m, set_plugin (pl_Close (m_plugin m)).2 m); observe OPluginClose); _ ← yield (os 3%nat); modify (set_status (Returned r))) m.
Proof. unfold return_from_Run. rewrite !M_bind_eval. by destruct (yield (os 2%nat) m) as [[]]. Qed.

#[local] Hint Resolve close_follows close_grows status_follows status_grows : following.

Lemma return_grows os r : grows (return_from_Run os r).
Proof. intros m. rewrite return_eq. revert m. change (grows (_ ← yield (os 2%nat); _ ← (_ ← modify (λ m : Match P, set_plugin (pl_Close (m_plugin m)).2 m); observe OPluginClose); _ ← yield (os 3%nat); modify (set_status (Returned r)))).
  apply grows_bind; [following|]. intros _. apply grows_bind; [apply close_grows|]. compose. Qed.

Lemma return_follows os r1 r2 : alike r1 r2 → follows (return_from_Run os r1) (return_from_Run os r2).
Proof.
  intros Hr m1 m2. unfold follows_at. rewrite !return_eq. revert m1 m2. apply follows_bind; [following..|]. intros _.
  apply follows_bind; [apply close_follows|intros _; compose|]. intros _. compose.
Qed.

#[local] Hint Resolve tick_follows tick_grows finalise_follows finalise_grows return_grows return_follows : following.

(** ** Run *)

#[local] Hint Extern 1 (alike _ _) => first [reflexivity|exact I] : following.

Lemma try_at {A B} m1 m2 (c1 : M _ A) c2 (k1 : res A → M _ B) k2 :
  follows_at m1 m2 c1 c2 → (∀ r, grows (k1 r)) → (∀ r1 r2, alike r1 r2 → follows (k1 r1) (k2 r2)) → follows_at m1 m2 (try c1 ≫= k1) (try c2 ≫= k2).
Proof.
  intros Hc Hg Hk Ht. unfold follows_at in Hc. unfold try. rewrite !M_bind_eval.
  destruct (c1 m1) as [r1 m1'] eqn:E1, (c2 m2) as [r2 m2'] eqn:E2. cbn [fst snd] in *. intros Ha.
  destruct (Hg r1 m1') as [t Et]. destruct Hc as [Hr Ht']; [done|by rewrite Et, list.Forall_app in Ha; apply Ha|].
  by apply (Hk r1 r2).
Qed.

(** A step, by the status it finds. *)
Definition step_at {X} {PX : Plugin X} (e : room_event) (st : run_status) : M (Match X) unit :=
  match e, st with
  | ROp o, _ => run_op o
  | _, Returned _ => mret tt
  | RCancel ctxErr ending, Running => _ ← closeAllPlayers; return_from_Run ending (Err ctxErr)
  | RTick now others ending, Running =>
      r ← try (tick now others);
      match r with
      | Err err => _ ← yield (ending 1%nat); _ ← closeAllPlayers; return_from_Run ending (Err err)
      | Ok false => mret tt
      | Ok true => _ ← finalise ending; return_from_Run ending (Ok tt)
      end
  end.

Lemma Run_step_at {X} {PX : Plugin X} e (m : Match X) : Run_step e m = step_at e (m_status m) m.
Proof. done. Qed.

Lemma step_at_follows e st1 st2 : status_alike st1 st2 → follows (step_at e st1) (step_at e st2).
Proof.
  intros Hs m1 m2. destruct e as [now os os'|c os'|o], st1, st2; cbn [step_at]; try done; try (apply at_follows; solve [following]).
  apply try_at; [apply tick_follows|intros [[]|]; following|].
  intros [[]|] [[]|] Hr; cbn in Hr; try done; following.
Qed.

Lemma step_at_grows e st : grows (step_at e st).
Proof.
  destruct e as [now os os'|c os'|o], st; cbn [step_at]; following.
  intros m. rewrite M_bind_eval. unfold try. destruct (tick_grows now os m) as [t Ht]. destruct (tick now os m) as [r m'].
  cbn [snd] in Ht. assert (grows (match r with Err err => _ ← yield (os' 1%nat); _ ← closeAllPlayers; return_from_Run os' (Err err)
    | Ok false => mret tt | Ok true => _ ← finalise os'; return_from_Run os' (Ok tt) end)) as Hg by (destruct r as [[]|]; following).
  destruct (Hg m') as [t' Ht']. exists (t ++ t'). by rewrite Ht', Ht, app_assoc.
Qed.

Lemma run_match_grows es (m : Match P) : ∃ t, m_trace (run_match es m) = m_trace m ++ t.
Proof.
  revert m. induction es as [|e es IH]; intros m; [by exists []; rewrite app_nil_r|]. cbn [run_match foldl].
  destruct (IH (Run_step e m).2) as [t Ht]. destruct (step_at_grows e (m_status m) m) as [t' Ht'].
  exists (t' ++ t). unfold run_match in Ht. by rewrite Ht, Run_step_at, Ht', app_assoc.
Qed.

(** Twins stay twins as long as the plugins agree. *)
Lemma run_match_twins es m1 m2 : twins m1 m2 → Forall agreed (m_trace (run_match es m1)) → twins (run_match es m1) (run_match es m2).
Proof.
  revert m1 m2. induction es as [|e es IH]; intros m1 m2 H; [done|]. intros Ha.
  apply (IH (Run_step e m1).2 (Run_step e m2).2); [|exact Ha].
  rewrite !Run_step_at. apply step_at_follows; [apply H|done|].
  destruct (run_match_grows es (Run_step e m1).2) as [t Ht]. rewrite <- Run_step_at.
  change (run_match (e :: es) m1) with (run_match es (Run_step e m1).2) in Ha. rewrite Ht in Ha. by apply list.Forall_app in Ha as [? _].
Qed.
End follows.

(** ** The game behind the boundary *)

Section wasm.
Context {Mem : Type} {LM : LinearMemory Mem} {LL : LinearMemoryLaws Mem} {AL : Allocator Mem} {ET : ErrorText}.
Context (limit : Z) {ALL : AllocatorLaws Mem limit}.
Context {G : Type} {PG : Plugin G}.
Context {W1 : Wire InitRequest} {W2 : Wire InitResponse} {W3 : Wire OnTickRequest} {W4 : Wire OnTickResponse}
  {W5 : Wire OnGameEndRequest} {W6 : Wire OnGameEndResponse}.
Context {WL1 : WireLaws InitRequest} {WL2 : WireLaws InitResponse} {WL3 : WireLaws OnTickRequest} {WL4 : WireLaws OnTickResponse}
  {WL5 : WireLaws OnGameEndRequest} {WL6 : WireLaws OnGameEndResponse}.
Context {PM : ProtoMarshal} {U : UuidCodec} {RO : RangeOrder}.

(** A game of the SDK: it has no Close, and in the states it reaches it answers what the boundary
    can carry. *)
Record portable (good : G → Prop) : Prop := {
  port_close g : (pl_Close g).2 = g;
  port_tick req g : sendable limit req → good g → answerable limit (pl_OnTick req g).1 ∧ good (pl_OnTick req g).2;
  port_end t g : good g → answerable limit (pl_OnGameEnd t g).1 ∧ good (pl_OnGameEnd t g).2;
}.

(** The calls of a match that the boundary can carry. *)
Definition carried (o : obs) : Prop :=
  match o with OTick req => sendable limit req | OGameEnd t => sendable limit (mkOnGameEndRequest t) | _ => True end.

Lemma alike_reported {A} (r : res A) : alike r (reported r).
Proof. by destruct r. Qed.

(** C39: hosting a game in WebAssembly changes nothing for its players.  Under any schedule of joins,
    leaves, inputs, ticks and cancellations, a match whose plugin is the game compiled to a module
    delivers the same inputs, sends the same frames to the same sessions in the same order, closes
    the same sessions and ends as the match that runs the game natively, as long as the messages it
    exchanges with the game can be carried. *)
Theorem wasm_match_same good g s rate es :
  portable good → good g → g_game s = Some g → Forall carried (m_trace (run_match es (NewMatch g rate))) →
  let native := run_match es (NewMatch g rate) in
  let wasm := run_match (PL := hosted (MO := guest_module) guest_plugin) es (NewMatch s rate) in
  m_trace wasm = m_trace native ∧ m_players wasm = m_players native ∧ m_currentTick wasm = m_currentTick native ∧
  status_alike (m_status native) (m_status wasm).
Proof.
  intros Hp Hg Hs Hc. cbv zeta. set (same := λ g s, good g ∧ g_game (Mem := Mem) s = Some g).
  destruct (run_match_twins (PQ := hosted (MO := guest_module) guest_plugin) same (sendable limit) (λ t, sendable limit (mkOnGameEndRequest t))) with
    (es := es) (m1 := NewMatch g rate) (m2 := NewMatch s rate) as [Hpl Ht _ _ _ Htr Hst _]; [..|by split_and!].
  - intros req g1 s1 Hok [Hg1 Hs1]. destruct (port_tick _ Hp req g1 Hok Hg1) as [Ha Hg2].
    destruct (wasm_OnTick_spec limit req g1 s1 Hs1 Hok Ha) as (s2 & E & Hs2). cbn [pl_OnTick hosted]. rewrite E.
    split; [apply alike_reported|by split].
  - intros t g1 s1 Hok [Hg1 Hs1]. destruct (port_end _ Hp t g1 Hg1) as [Ha Hg2].
    destruct (wasm_OnGameEnd_spec limit (mkOnGameEndRequest t) g1 s1 Hs1 Hok Ha) as (s2 & E & Hs2). cbn [pl_OnGameEnd hosted]. rewrite E.
    split; [apply alike_reported|by split].
  - intros g1 s1 [Hg1 Hs1]. split; cbn; by rewrite (port_close _ Hp).
  - by split.
  - exact Hc.
Qed.
End wasm.

(** ** Evaluated instances *)

#[local] Existing Instance countable_wire.
#[local] Existing Instance countable_wire_laws.
#[local] Existing Instance demo_error_text.

(** A game that announces every turn and ends at the third. *)
#[local] Instance turn_game : Plugin nat := {|
  pl_Init _ n := (Ok (mkInitResponse 10 ""), n);
  pl_OnTick _ n := (Ok (mkOnTickResponse "delta" [mkOutboundEvent "turn" "next" []] (2 <=? n)%nat), S n);
  pl_OnGameEnd _ n := (Ok (mkOnGameEndResponse "final" []), n);
  pl_Close n := (Ok tt, n);
|}.

Lemma turn_game_portable : portable demo_limit (λ _ : nat, True).
Proof.
  split; [done|intros req n _ _|intros t n _]; (split; [|done]); cbn [pl_OnTick pl_OnGameEnd turn_game fst].
  - destruct (2 <=? n)%nat; (apply demo_answerable; [closed_typed|vm_compute; reflexivity]).
  - apply demo_answerable; [closed_typed|vm_compute; reflexivity].
Qed.

Definition demo_schedule : list room_event :=
  [ROp (OpJoin (sample_uuid x0a) 1); ROp (OpInput (sample_uuid x0a) 1 "a1"); RTick 1000 no_calls no_calls;
   RTick 2000 (λ k, if (k =? 2)%nat then [OpJoin (sample_uuid x0b) 2] else []) no_calls; RTick 3000 no_calls no_calls].

Definition turn_match : Match nat := @run_match nat turn_game demo_marshal hex_codec range_id demo_schedule (NewMatch 0%nat 10).
Definition turn_guest : guest (list ascii) nat := mkGuest (list_ascii_of_string "leftover") (Some 0%nat) (Some 0%nat) (mkSlice 0 0) (mkSlice 0 0).
Definition turn_wasm_match : Match (guest (list ascii) nat) :=
  @run_match _ (hosted (MO := guest_module) guest_plugin) demo_marshal hex_codec range_id demo_schedule (NewMatch turn_guest 10).

Lemma turn_carried : Forall (carried demo_limit) (m_trace turn_match).
Proof.
  match goal with |- Forall _ ?l => let l' := eval vm_compute in l in change l with l' end.
  repeat constructor; cbn [carried]; (apply demo_sendable; [closed_typed|vm_compute; reflexivity]).
Qed.

Lemma wasm_match_same_witness : m_trace turn_wasm_match = m_trace turn_match ∧ m_status turn_match = Returned (Ok tt).
Proof.
  split; [|vm_compute; reflexivity].
  exact (proj1 (wasm_match_same (PM := demo_marshal) (U := hex_codec) (RO := range_id) demo_limit (λ _, True) 0%nat turn_guest 10 demo_schedule
    turn_game_portable I eq_refl turn_carried)).
Defined.
