(* ===== verification/Gateway.v ===== *)
(** * The gateway (internal/presentation/gateway, internal/bootstrap/gateway.go)

    The RPC handlers of the seven services: each reads the caller from the request context, parses
    the ids of the message, calls its usecase, and turns the usecase's error into a Connect code.
    A message is the list of its fields, a response the record of its fields; [Rpc] is a handler
    over the [World] the usecases share.  [serve] is the dispatch of a request to its handler, and
    [handle] puts the authentication interceptor in front of it. *)

From S2P Require Import Prelude GoBase GoStrings Database Match MatchQueue AssignmentStore Matchmaker.
From S2P Require Import Social Storage Group Chat Leaderboard Auth Token.

(** ** Connect codes and handlers *)

Inductive Code :=
  | CodeInvalidArgument | CodeUnauthenticated | CodePermissionDenied | CodeNotFound | CodeAlreadyExists
  | CodeFailedPrecondition | CodeResourceExhausted | CodeInternal.

#[export] Instance Code_eq_dec : EqDecision Code.
Proof. solve_decision. Defined.

Inductive reply (A : Type) := Reply (a : A) | Fault (code : Code) (err : error).
Arguments Reply {A} a.
Arguments Fault {A} code err.

(** ** The error mapping of each service: the first sentinel of the chain that is listed decides *)

Definition social_toConnectError (err : error) : Code :=
  if errors_Is err ErrSelfFriend || errors_Is err ErrSelfBlock then CodeInvalidArgument
  else if errors_Is err ErrAlreadyFriends || errors_Is err ErrAlreadyRequested then CodeAlreadyExists
  else if errors_Is err ErrRequestNotFound || errors_Is err ErrNotFriends then CodeNotFound
  else if errors_Is err ErrBlocked then CodeFailedPrecondition
  else CodeInternal.

Definition group_toConnectError (err : error) : Code :=
  if errors_Is err ErrInvalidName then CodeInvalidArgument
  else if errors_Is err ErrGroupNotFound then CodeNotFound
  else if errors_Is err ErrNotOwner then CodePermissionDenied
  else if errors_Is err ErrOwnerMustDelete || errors_Is err ErrNotMember then CodeFailedPrecondition
  else CodeInternal.

Definition chat_toConnectError (err : error) : Code :=
  if errors_Is err ErrSelfMessage || errors_Is err ErrInvalidBody then CodeInvalidArgument
  else if errors_Is err ErrNotChannelMember then CodeFailedPrecondition
  else CodeInternal.

Definition leaderboard_toConnectError (err : error) : Code :=
  if errors_Is err ErrLeaderboardNotFound || errors_Is err ErrEntryNotFound then CodeNotFound else CodeInternal.

Definition storage_toConnectError (err : error) : Code :=
  if errors_Is err ErrInvalidFilename || errors_Is err ErrFileTooLarge then CodeInvalidArgument
  else if errors_Is err ErrFileNotFound then CodeNotFound
  else if errors_Is err ErrQuotaExceeded then CodeResourceExhausted
  else if errors_Is err ErrUploadIncomplete then CodeFailedPrecondition
  else CodeInternal.

Definition match_toConnectError (err : error) : Code :=
  if errors_Is err ErrTicketNotFound then CodeNotFound
  else if errors_Is err ErrPartyTooLarge then CodeInvalidArgument
  else CodeInternal.

Definition auth_toConnectError (err : error) : Code :=
  if errors_Is err ErrInvalidNickname then CodeInvalidArgument
  else if errors_Is err ErrPlayerNotFound then CodeNotFound
  else if errors_Is err ErrIdentityNotFound then CodeNotFound
  else if errors_Is err ErrRefreshTokenInvalid then CodeUnauthenticated
  else if errors_Is err ErrInvalidCredential then CodeUnauthenticated
  else if errors_Is err ErrIdentityAlreadyLinked then CodeAlreadyExists
  else CodeInternal.

(** ** The messages

    [timestamppb] carries an instant; the empty responses are [unit]. *)

Inductive RequestStatus := StatusPending | StatusAccepted.
(** A player id with a name and a time: [Friend], [FriendRequest], [BlockedPlayer] and [Member]. *)
Record PlayerPb := mkPlayerPb { pb_PlayerId : string; pb_Nickname : option string; pb_At : time }.
Record GroupPb := mkGroupPb { gpb_Id : string; gpb_Name : string; gpb_OwnerId : string; gpb_FoundedAt : time }.
Record MessagePb := mkMessagePb { mpb_Id : string; mpb_SenderId : string; mpb_RecipientId : string; mpb_Body : string; mpb_SentAt : time }.
Record ChannelMessagePb := mkChannelMessagePb { cpb_Id : string; cpb_ChannelId : string; cpb_SenderId : string; cpb_Body : string; cpb_SentAt : time }.
Record RankEntryPb := mkRankEntryPb { rpb_Rank : Z; rpb_PlayerId : string; rpb_Nickname : option string; rpb_Score : Z; rpb_AchievedAt : time }.
Record FilePb := mkFilePb { fpb_Filename : string; fpb_Size : Z; fpb_Hash : string; fpb_ModifiedAt : time }.
Record DownloadPb := mkDownloadPb { dpb_Metadata : FilePb; dpb_DownloadUrl : string; dpb_UrlExpiresAt : time }.
Record UploadPb := mkUploadPb { upb_UploadUrl : string; upb_RequiredHeaders : gmap string string; upb_UrlExpiresAt : time }.
Inductive WatchPb :=
  | Queued (at_ : time) (depth : Z)
  | Matched (endpoint token : string) (expires : time)
  | Failed (reason message : string).
Record CurrentMatchPb := mkCurrentMatchPb { cm_MatchId : string; cm_Endpoint : string; cm_SessionToken : string; cm_ExpiresAt : time }.
Record LoginPb := mkLoginPb { lpb_AccessToken : string; lpb_RefreshToken : string; lpb_Player : PlayerPb }.
Inductive ProviderPb := PROVIDER_GOOGLE | PROVIDER_APPLE | PROVIDER_OTHER (n : Z).
Inductive credential := Anonymous (deviceID nickname : option string) | Oidc (provider : ProviderPb) (idToken : string).

Section converters.
Context {U : UuidCodec}.

Definition toFriendPb (f : Friend) : PlayerPb := mkPlayerPb (uuid_String (friend_PlayerID f)) (friend_Nickname f) (Since f).
Definition toFriendRequestPb (r : PendingRequest) : PlayerPb := mkPlayerPb (uuid_String (pr_PlayerID r)) (pr_Nickname r) (RequestedAt r).
Definition toBlockedPb (b : BlockedPlayer) : PlayerPb := mkPlayerPb (uuid_String (bp_PlayerID b)) (bp_Nickname b) (BlockedAt b).
Definition toMemberPb (m : Member) : PlayerPb := mkPlayerPb (uuid_String (mem_PlayerID m)) (mem_Nickname m) (mem_JoinedAt m).
Definition toGroupPb (g : Group) : GroupPb := mkGroupPb (uuid_String (grp_ID g)) (grp_Name g) (uuid_String (grp_OwnerID g)) (grp_FoundedAt g).
Definition toMessagePb (m : Message) : MessagePb :=
  mkMessagePb (uuid_String (msg_ID m)) (uuid_String (msg_SenderID m)) (uuid_String (msg_RecipientID m)) (msg_Body m) (msg_SentAt m).
Definition toChannelMessagePb (m : ChannelMessage) : ChannelMessagePb :=
  mkChannelMessagePb (uuid_String (ch_ID m)) (uuid_String (ch_ChannelID m)) (uuid_String (ch_SenderID m)) (ch_Body m) (ch_SentAt m).
Definition toRankEntryPb (e : RankedEntry) : RankEntryPb :=
  mkRankEntryPb (re_Rank e) (uuid_String (re_PlayerID e)) (re_Nickname e) (re_Score e) (re_AchievedAt e).
Definition toFileMetadataPb (f : File) : FilePb := mkFilePb (f_Filename f) (f_Size f) (f_Hash f) (f_ModifiedAt f).
Definition toWatchResponse (ev : Event) : WatchPb :=
  match ev with
  | EventQueued at_ depth => Queued at_ depth
  | EventMatched a => Matched (a_Endpoint a) (a_SessionToken a) (a_ExpiresAt a)
  | EventFailed reason message => Failed reason message
  end.
Definition toCurrentMatchPb (a : Assignment) : CurrentMatchPb :=
  mkCurrentMatchPb (uuid_String (a_MatchID a)) (a_Endpoint a) (a_SessionToken a) (a_ExpiresAt a).
Definition toPlayerPb (p : Player) : PlayerPb := mkPlayerPb (uuid_String (pl_ID p)) (pl_Nickname p) (pl_RegisteredAt p).
End converters.

(** The body of a streaming handler: the responses sent before the stream ends or a send fails. *)
Fixpoint sendAll {A P} (convert : A → P) (send : P → option error) (received : list A) : list P * option error :=
  match received with
  | [] => ([], None)
  | x :: received' =>
      match send (convert x) with
      | Some err => ([], Some err)
      | None => let '(sent, err) := sendAll convert send received' in (convert x :: sent, err)
      end
  end.

(** ** The configuration (bootstrap/gateway.go) *)

Record GatewayConfig := mkGatewayConfig {
  gc_leaderboards : gmap string Leaderboard;
  gc_ranks : LeaderboardConfig;
  gc_chat : ChatConfig;
  gc_storage : StorageConfig;
  gc_auth : AuthConfig;
  gc_playersPerMatch : Z;
}.

(** [strings.Cut(s, ":")], without the third result. *)
Fixpoint cut_colon (s : string) : string * string :=
  match s with
  | "" => ("", "")
  | String c s' => if Ascii.eqb c ":" then ("", s') else let '(a, b) := cut_colon s' in (String c a, b)
  end.

Definition parseOrder (order : string) : res SortOrder :=
  let order := TrimSpace order in
  if bool_decide (order = "" ∨ order = "desc") then Ok Descending
  else if bool_decide (order = "asc") then Ok Ascending
  else Err (ErrText "bootstrap: leaderboard has unknown order").

Fixpoint parseLeaderboards_from (defs : gmap string Leaderboard) (specs : list string) : res (gmap string Leaderboard) :=
  match specs with
  | [] => Ok defs
  | spec :: specs' =>
      let '(id, order) := cut_colon spec in
      let id := TrimSpace id in
      if bool_decide (id = "") then parseLeaderboards_from defs specs'
      else sortOrder ← parseOrder order;
           parseLeaderboards_from (<[id := mkLeaderboard id sortOrder]> defs) specs'
  end.

Definition parseLeaderboards (specs : list string) : res (gmap string Leaderboard) := parseLeaderboards_from ∅ specs.

(** ** The state behind the handlers *)

(** The database, and what the ports keep: the chat broker, the blob store, the sorted sets, the
    match queue and the assignments. *)
Record World (B S V : Type) := mkWorld {
  w_db : DB; w_broker : B; w_blobs : S; w_ranks : V; w_queue : InMem; w_assignments : entries;
}.
Arguments mkWorld {B S V}.
Arguments w_db {B S V}.
Arguments w_broker {B S V}.
Arguments w_blobs {B S V}.
Arguments w_ranks {B S V}.
Arguments w_queue {B S V}.
Arguments w_assignments {B S V}.

(** What a call draws from its surroundings: the clock, [uuid.New()], the random values of the
    (at most two) attempts of a login, and the transactions that commit while an attempt runs. *)
Record Draw := mkDraw { d_now : time; d_id : uuid; d_id2 : uuid; d_fresh : nat → Fresh; d_others : nat → DB → DB }.

Section gateway.
Context {U : UuidCodec} {R : RangeOrder} {C : Collation}.
Context {B S V : Type} {BR : Broker B} {BS : BlobStore S} {RI : RankIndex V} {TI : TokenIssuer} {OV : OIDCVerifier}.
Context (cfg : GatewayConfig).

(** A handler: a reply or a fault, and the state it leaves. *)
Definition Rpc (A : Type) : Type := World B S V → reply A * World B S V.

#[export] Instance Rpc_ret : MRet Rpc := λ A a w, (Reply a, w).
#[export] Instance Rpc_bind : MBind Rpc := λ A A' f m w,
  match m w with
  | (Reply a, w') => f a w'
  | (Fault c e, w') => (Fault c e, w')
  end.

Definition fault {A} (code : Code) (err : error) : Rpc A := λ w, (Fault code err, w).

(** [x, err := h.uc.Method(...); if err != nil { return nil, toConnectError(err) }] over the part of
    the state that [get] and [set] delimit. *)
Definition call {T A} (toConnectError : error → Code) (get : World B S V → T) (set : T → World B S V → World B S V)
    (m : M T A) : Rpc A := λ w,
  match m (get w) with
  | (Ok a, t) => (Reply a, set t w)
  | (Err e, t) => (Fault (toConnectError e) e, set t w)
  end.

Definition set_db (db : DB) (w : World B S V) := mkWorld db (w_broker w) (w_blobs w) (w_ranks w) (w_queue w) (w_assignments w).
Definition set_chat (p : DB * B) (w : World B S V) := mkWorld p.1 p.2 (w_blobs w) (w_ranks w) (w_queue w) (w_assignments w).
Definition set_storage (p : DB * S) (w : World B S V) := mkWorld p.1 (w_broker w) p.2 (w_ranks w) (w_queue w) (w_assignments w).
Definition set_rank (p : DB * V) (w : World B S V) := mkWorld p.1 (w_broker w) (w_blobs w) p.2 (w_queue w) (w_assignments w).
Definition set_queue (q : InMem) (w : World B S V) := mkWorld (w_db w) (w_broker w) (w_blobs w) (w_ranks w) q (w_assignments w).
Definition set_assignments (s : entries) (w : World B S V) := mkWorld (w_db w) (w_broker w) (w_blobs w) (w_ranks w) (w_queue w) s.

Definition call_db {A} (conv : error → Code) (m : M DB A) : Rpc A := call conv w_db set_db m.
Definition call_chat {A} (m : M (DB * B) A) : Rpc A := call chat_toConnectError (λ w, (w_db w, w_broker w)) set_chat m.
Definition call_storage {A} (m : M (DB * S) A) : Rpc A := call storage_toConnectError (λ w, (w_db w, w_blobs w)) set_storage m.
Definition call_rank {A} (m : M (DB * V) A) : Rpc A := call leaderboard_toConnectError (λ w, (w_db w, w_ranks w)) set_rank m.
Definition call_queue {A} (m : M InMem A) : Rpc A := call match_toConnectError w_queue set_queue m.
Definition call_assignments {A} (m : M entries A) : Rpc A := call match_toConnectError w_assignments set_assignments m.

(** ** Shared by the handlers

    [ctx] is what [authctx.From] finds in the request's context. *)
Definition requireAuth (ctx : option uuid) : Rpc uuid :=
  match ctx with
  | Some id => mret id
  | None => fault CodeUnauthenticated (ErrText "authentication required")
  end.

Definition parseID (what raw : string) : Rpc uuid :=
  match uuid_Parse raw with
  | Some id => mret id
  | None => fault CodeInvalidArgument (ErrText what)
  end.

Definition parsePlayerID : string → Rpc uuid := parseID "invalid player id".
Definition parseGroupID : string → Rpc uuid := parseID "invalid group id".
(** The chat handler replaces the error of [parsePlayerID]. *)
Definition parseChannelID : string → Rpc uuid := parseID "invalid channel id".
Definition parseTicketID : string → Rpc uuid := parseID "invalid ticket_id".

(** ** SocialService *)

(** The pair (accepted, err) of the usecase; on an error the handler does not look at [accepted]. *)
Definition accepted_or_error (f : DB → (bool * res unit) * DB) : M DB bool := λ db,
  let '((accepted, r), db') := f db in
  match r with Ok _ => (Ok accepted, db') | Err e => (Err e, db') end.

Definition SocialHandler_SendFriendRequest (ctx : option uuid) (dr : Draw) (addressee : string) : Rpc RequestStatus :=
  me ← requireAuth ctx;
  addressee ← parsePlayerID addressee;
  accepted ← call_db social_toConnectError (accepted_or_error (SendFriendRequest (d_id dr) me addressee));
  mret (if (accepted : bool) then StatusAccepted else StatusPending).

Definition SocialHandler_AcceptFriendRequest (ctx : option uuid) (dr : Draw) (requester : string) : Rpc unit :=
  me ← requireAuth ctx;
  requester ← parsePlayerID requester;
  call_db social_toConnectError (AcceptFriendRequest (d_id dr) me requester).

Definition SocialHandler_DeclineFriendRequest (ctx : option uuid) (requester : string) : Rpc unit :=
  me ← requireAuth ctx;
  requester ← parsePlayerID requester;
  call_db social_toConnectError (DeclineFriendRequest me requester).

Definition SocialHandler_CancelFriendRequest (ctx : option uuid) (addressee : string) : Rpc unit :=
  me ← requireAuth ctx;
  addressee ← parsePlayerID addressee;
  call_db social_toConnectError (CancelFriendRequest me addressee).

Definition SocialHandler_ListFriends (ctx : option uuid) : Rpc (list PlayerPb) :=
  me ← requireAuth ctx;
  friends ← call_db social_toConnectError (ListFriends me);
  mret (toFriendPb <$> friends).

Definition SocialHandler_ListIncomingRequests (ctx : option uuid) : Rpc (list PlayerPb) :=
  me ← requireAuth ctx;
  requests ← call_db social_toConnectError (ListIncomingRequests me);
  mret (toFriendRequestPb <$> requests).

Definition SocialHandler_ListOutgoingRequests (ctx : option uuid) : Rpc (list PlayerPb) :=
  me ← requireAuth ctx;
  requests ← call_db social_toConnectError (ListOutgoingRequests me);
  mret (toFriendRequestPb <$> requests).

Definition SocialHandler_RemoveFriend (ctx : option uuid) (friend : string) : Rpc unit :=
  me ← requireAuth ctx;
  friend ← parsePlayerID friend;
  call_db social_toConnectError (RemoveFriend me friend).

Definition SocialHandler_BlockPlayer (ctx : option uuid) (dr : Draw) (target : string) : Rpc unit :=
  me ← requireAuth ctx;
  target ← parsePlayerID target;
  call_db social_toConnectError (BlockPlayer (d_id dr) me target).

Definition SocialHandler_UnblockPlayer (ctx : option uuid) (target : string) : Rpc unit :=
  me ← requireAuth ctx;
  target ← parsePlayerID target;
  call_db social_toConnectError (UnblockPlayer me target).

Definition SocialHandler_ListBlocked (ctx : option uuid) : Rpc (list PlayerPb) :=
  me ← requireAuth ctx;
  blocked ← call_db social_toConnectError (ListBlocked me);
  mret (toBlockedPb <$> blocked).

(** ** GroupService *)

Definition GroupHandler_CreateGroup (ctx : option uuid) (dr : Draw) (name : string) : Rpc GroupPb :=
  me ← requireAuth ctx;
  g ← call_db group_toConnectError (CreateGroup (d_id dr) (d_id2 dr) (d_now dr) me name);
  mret (toGroupPb g).

Definition GroupHandler_DeleteGroup (ctx : option uuid) (groupID : string) : Rpc unit :=
  me ← requireAuth ctx;
  groupID ← parseGroupID groupID;
  call_db group_toConnectError (DeleteGroup me groupID).

Definition GroupHandler_JoinGroup (ctx : option uuid) (dr : Draw) (groupID : string) : Rpc unit :=
  me ← requireAuth ctx;
  groupID ← parseGroupID groupID;
  call_db group_toConnectError (JoinGroup (d_id dr) (d_now dr) me groupID).

Definition GroupHandler_LeaveGroup (ctx : option uuid) (groupID : string) : Rpc unit :=
  me ← requireAuth ctx;
  groupID ← parseGroupID groupID;
  call_db group_toConnectError (LeaveGroup me groupID).

Definition GroupHandler_ListMyGroups (ctx : option uuid) : Rpc (list GroupPb) :=
  me ← requireAuth ctx;
  groups ← call_db group_toConnectError (ListMyGroups me);
  mret (toGroupPb <$> groups).

Definition GroupHandler_ListMembers (ctx : option uuid) (groupID : string) : Rpc (list PlayerPb) :=
  me ← requireAuth ctx;
  groupID ← parseGroupID groupID;
  members ← call_db group_toConnectError (ListMembers me groupID);
  mret (toMemberPb <$> members).

(** ** ChatService *)

(** An absent [before] is the zero time. *)
Definition before_of (before : option time) : time := default zeroTime before.

Definition ChatHandler_SendDirectMessage (ctx : option uuid) (dr : Draw) (recipient body : string) : Rpc MessagePb :=
  sender ← requireAuth ctx;
  recipient ← parsePlayerID recipient;
  msg ← call_chat (SendDirectMessage (d_id dr) (d_now dr) sender recipient body);
  mret (toMessagePb msg).

Definition ChatHandler_ListDirectMessages (ctx : option uuid) (other : string) (before : option time) (n : Z) : Rpc (list MessagePb) :=
  me ← requireAuth ctx;
  other ← parsePlayerID other;
  messages ← call_chat (ListDirectMessages (gc_chat cfg) me other (before_of before) n);
  mret (toMessagePb <$> messages).

Definition ChatHandler_SendChannelMessage (ctx : option uuid) (dr : Draw) (channelID body : string) : Rpc ChannelMessagePb :=
  sender ← requireAuth ctx;
  channelID ← parseChannelID channelID;
  msg ← call_chat (SendChannelMessage (d_id dr) (d_now dr) sender channelID body);
  mret (toChannelMessagePb msg).

Definition ChatHandler_ListChannelMessages (ctx : option uuid) (channelID : string) (before : option time) (n : Z) : Rpc (list ChannelMessagePb) :=
  me ← requireAuth ctx;
  channelID ← parseChannelID channelID;
  messages ← call_chat (ListChannelMessages (gc_chat cfg) me channelID (before_of before) n);
  mret (toChannelMessagePb <$> messages).

(** The channel of the subscription; [sendAll toChannelMessagePb] is what the stream then carries. *)
Definition ChatHandler_SubscribeChannel (ctx : option uuid) (channelID : string) : Rpc nat :=
  me ← requireAuth ctx;
  channelID ← parseChannelID channelID;
  call_chat (SubscribeChannel me channelID).

(** ** LeaderboardService *)

Definition LeaderboardHandler_SubmitScore (ctx : option uuid) (dr : Draw) (leaderboardID : string) (score : Z) : Rpc (RankEntryPb * bool) :=
  playerID ← requireAuth ctx;
  entry ← call_rank (SubmitScore (gc_leaderboards cfg) (d_id dr) (d_now dr) leaderboardID playerID score);
  mret (toRankEntryPb entry.1, entry.2).

Definition LeaderboardHandler_ListRanks (ctx : option uuid) (leaderboardID : string) (offset n : Z) : Rpc (list RankEntryPb) :=
  _ ← requireAuth ctx;
  entries ← call_rank (ListRanks (gc_leaderboards cfg) (gc_ranks cfg) leaderboardID offset n);
  mret (toRankEntryPb <$> entries).

(** An empty player id means the caller. *)
Definition LeaderboardHandler_GetPlayerRank (ctx : option uuid) (leaderboardID playerID : string) : Rpc RankEntryPb :=
  caller ← requireAuth ctx;
  target ← (if bool_decide (playerID = "") then mret caller else parseID "invalid player_id" playerID);
  entry ← call_rank (GetPlayerRank (gc_leaderboards cfg) leaderboardID target);
  mret (toRankEntryPb entry).

Definition LeaderboardHandler_ListRanksAroundPlayer (ctx : option uuid) (leaderboardID : string) (radius : Z) : Rpc (list RankEntryPb) :=
  playerID ← requireAuth ctx;
  entries ← call_rank (ListRanksAroundPlayer (gc_leaderboards cfg) (gc_ranks cfg) leaderboardID playerID radius);
  mret (toRankEntryPb <$> entries).

(** ** PlayerDataStorageService and TitleStorageService *)

Definition toDownload (p : File * SignedURL) : DownloadPb := mkDownloadPb (toFileMetadataPb p.1) (su_URL p.2) (su_Expires p.2).

Definition PlayerDataHandler_QueryFiles (ctx : option uuid) (prefix : string) : Rpc (list FilePb) :=
  ownerID ← requireAuth ctx;
  files ← call_storage (QueryPlayerFiles ownerID prefix);
  mret (toFileMetadataPb <$> files).

Definition PlayerDataHandler_ReadFile (ctx : option uuid) (filename : string) : Rpc DownloadPb :=
  ownerID ← requireAuth ctx;
  file ← call_storage (ReadPlayerFile (gc_storage cfg) ownerID filename);
  mret (toDownload file).

Definition PlayerDataHandler_WriteFile (ctx : option uuid) (filename : string) (size : Z) : Rpc UploadPb :=
  ownerID ← requireAuth ctx;
  url ← call_storage (WritePlayerFile (gc_storage cfg) ownerID filename size);
  mret (mkUploadPb (su_URL url) (su_Headers url) (su_Expires url)).

Definition PlayerDataHandler_CommitFile (ctx : option uuid) (dr : Draw) (filename : string) : Rpc FilePb :=
  ownerID ← requireAuth ctx;
  file ← call_storage (CommitPlayerFile (gc_storage cfg) (d_id dr) (d_now dr) ownerID filename);
  mret (toFileMetadataPb file).

Definition PlayerDataHandler_DeleteFile (ctx : option uuid) (filename : string) : Rpc unit :=
  ownerID ← requireAuth ctx;
  call_storage (DeletePlayerFile (gc_storage cfg) ownerID filename).

Definition TitleHandler_QueryFiles (ctx : option uuid) (tags : list string) : Rpc (list FilePb) :=
  _ ← requireAuth ctx;
  files ← call_storage (QueryTitleFiles tags);
  mret (toFileMetadataPb <$> files).

Definition TitleHandler_ReadFile (ctx : option uuid) (filename : string) : Rpc DownloadPb :=
  _ ← requireAuth ctx;
  file ← call_storage (ReadTitleFile (gc_storage cfg) filename);
  mret (toDownload file).

(** ** MatchService *)

Fixpoint parsePartyMembers (ids : list string) : Rpc (list uuid) :=
  match ids with
  | [] => mret []
  | id :: ids' =>
      parsed ← parseID "invalid party_member id" id;
      out ← parsePartyMembers ids';
      mret (parsed :: out)
  end.

Definition MatchHandler_CreateTicket (ctx : option uuid) (dr : Draw) (gameMode : string) (rating : option float64) (region : option string)
    (partyMembers : list string) (attributes : gmap string string) : Rpc string :=
  playerID ← requireAuth ctx;
  if bool_decide (gameMode = "") then fault CodeInvalidArgument (ErrText "game_mode is required") else
  partyMembers ← parsePartyMembers partyMembers;
  ticketID ← call_queue (CreateTicket (gc_playersPerMatch cfg) (d_id dr) (d_now dr)
                           (mkTicketInput playerID gameMode rating region partyMembers attributes));
  mret (uuid_String ticketID).

(** The channel of the subscription; [sendAll toWatchResponse] is what the stream then carries. *)
Definition MatchHandler_WatchTicket (ctx : option uuid) (ticketID : string) : Rpc chan_id :=
  _ ← requireAuth ctx;
  ticketID ← parseTicketID ticketID;
  call_queue (WatchTicket ticketID).

Definition MatchHandler_CancelTicket (ctx : option uuid) (ticketID : string) : Rpc unit :=
  _ ← requireAuth ctx;
  ticketID ← parseTicketID ticketID;
  call_queue (CancelTicket ticketID).

Definition MatchHandler_GetCurrentMatch (ctx : option uuid) (dr : Draw) : Rpc (option CurrentMatchPb) :=
  playerID ← requireAuth ctx;
  assignment ← call_assignments (GetCurrentMatch (d_now dr) playerID);
  mret (toCurrentMatchPb <$> (assignment : option Assignment)).

(** ** AuthService *)

Definition toProvider (p : ProviderPb) : Rpc string :=
  match p with
  | PROVIDER_GOOGLE => mret "google"
  | PROVIDER_APPLE => mret "apple"
  | PROVIDER_OTHER _ => fault CodeInvalidArgument (ErrText "unknown oidc provider")
  end.

Definition AuthHandler_Login (dr : Draw) (cred : option credential) : Rpc LoginPb :=
  result ← (match cred with
            | Some (Anonymous deviceID nickname) =>
                call_db auth_toConnectError (LoginAnonymous (gc_auth cfg) (d_fresh dr) (d_others dr) (d_now dr) deviceID nickname)
            | Some (Oidc provider idToken) =>
                provider ← toProvider provider;
                call_db auth_toConnectError (LoginOIDC (gc_auth cfg) (d_fresh dr) (d_others dr) (d_now dr) provider idToken)
            | None => fault CodeInvalidArgument (ErrText "credential is required")
            end);
  mret (mkLoginPb (AccessToken result) (lr_RefreshToken result) (toPlayerPb (lr_Player result))).

(** The field is absent when [oidc] is nil. *)
Definition AuthHandler_LinkIdentity (ctx : option uuid) (dr : Draw) (oidc : option (ProviderPb * string)) : Rpc PlayerPb :=
  playerID ← requireAuth ctx;
  match oidc with
  | None => fault CodeInvalidArgument (ErrText "oidc credential is required")
  | Some (provider, idToken) =>
      provider ← toProvider provider;
      p ← call_db auth_toConnectError (LinkIdentity (d_id dr) playerID provider idToken);
      mret (toPlayerPb p)
  end.

Definition AuthHandler_Refresh (dr : Draw) (refreshToken : string) : Rpc (string * string) :=
  if bool_decide (refreshToken = "") then fault CodeInvalidArgument (ErrText "refresh_token is required") else
  result ← call_db auth_toConnectError (Refresh (gc_auth cfg) (d_fresh dr 0%nat) (d_now dr) refreshToken);
  mret (AccessToken result, lr_RefreshToken result).

Definition AuthHandler_Logout (ctx : option uuid) (dr : Draw) : Rpc unit :=
  playerID ← requireAuth ctx;
  call_db auth_toConnectError (Logout (d_now dr) playerID).

Definition AuthHandler_UpdateProfile (ctx : option uuid) (nickname : option string) : Rpc PlayerPb :=
  playerID ← requireAuth ctx;
  updated ← call_db auth_toConnectError (UpdateProfile playerID nickname);
  mret (toPlayerPb updated).

(** ** Requests

    One constructor per procedure, indexed by the type of its response. *)
Inductive request : Type → Type :=
  | RqSendFriendRequest (addressee : string) : request RequestStatus
  | RqAcceptFriendRequest (requester : string) : request unit
  | RqDeclineFriendRequest (requester : string) : request unit
  | RqCancelFriendRequest (addressee : string) : request unit
  | RqListFriends : request (list PlayerPb)
  | RqListIncomingRequests : request (list PlayerPb)
  | RqListOutgoingRequests : request (list PlayerPb)
  | RqRemoveFriend (friend : string) : request unit
  | RqBlockPlayer (target : string) : request unit
  | RqUnblockPlayer (target : string) : request unit
  | RqListBlocked : request (list PlayerPb)
  | RqCreateGroup (name : string) : request GroupPb
  | RqDeleteGroup (groupID : string) : request unit
  | RqJoinGroup (groupID : string) : request unit
  | RqLeaveGroup (groupID : string) : request unit
  | RqListMyGroups : request (list GroupPb)
  | RqListMembers (groupID : string) : request (list PlayerPb)
  | RqSendDirectMessage (recipient body : string) : request MessagePb
  | RqListDirectMessages (other : string) (before : option time) (n : Z) : request (list MessagePb)
  | RqSendChannelMessage (channelID body : string) : request ChannelMessagePb
  | RqListChannelMessages (channelID : string) (before : option time) (n : Z) : request (list ChannelMessagePb)
  | RqSubscribeChannel (channelID : string) : request nat
  | RqSubmitScore (leaderboardID : string) (score : Z) : request (RankEntryPb * bool)
  | RqListRanks (leaderboardID : string) (offset n : Z) : request (list RankEntryPb)
  | RqGetPlayerRank (leaderboardID playerID : string) : request RankEntryPb
  | RqListRanksAroundPlayer (leaderboardID : string) (radius : Z) : request (list RankEntryPb)
  | RqQueryFiles (prefix : string) : request (list FilePb)
  | RqReadFile (filename : string) : request DownloadPb
  | RqWriteFile (filename : string) (size : Z) : request UploadPb
  | RqCommitFile (filename : string) : request FilePb
  | RqDeleteFile (filename : string) : request unit
  | RqQueryTitleFiles (tags : list string) : request (list FilePb)
  | RqReadTitleFile (filename : string) : request DownloadPb
  | RqCreateTicket (gameMode : string) (rating : option float64) (region : option string)
      (partyMembers : list string) (attributes : gmap string string) : request string
  | RqWatchTicket (ticketID : string) : request chan_id
  | RqCancelTicket (ticketID : string) : request unit
  | RqGetCurrentMatch : request (option CurrentMatchPb)
  | RqLogin (cred : option credential) : request LoginPb
  | RqLinkIdentity (oidc : option (ProviderPb * string)) : request PlayerPb
  | RqRefresh (refreshToken : string) : request (string * string)
  | RqLogout : request unit
  | RqUpdateProfile (nickname : option string) : request PlayerPb.

(** The routes the gateway mounts. *)
Definition serve {A} (ctx : option uuid) (dr : Draw) (rq : request A) : Rpc A :=
  match rq in request A return Rpc A with
  | RqSendFriendRequest addressee => SocialHandler_SendFriendRequest ctx dr addressee
  | RqAcceptFriendRequest requester => SocialHandler_AcceptFriendRequest ctx dr requester
  | RqDeclineFriendRequest requester => SocialHandler_DeclineFriendRequest ctx requester
  | RqCancelFriendRequest addressee => SocialHandler_CancelFriendRequest ctx addressee
  | RqListFriends => SocialHandler_ListFriends ctx
  | RqListIncomingRequests => SocialHandler_ListIncomingRequests ctx
  | RqListOutgoingRequests => SocialHandler_ListOutgoingRequests ctx
  | RqRemoveFriend friend => SocialHandler_RemoveFriend ctx friend
  | RqBlockPlayer target => SocialHandler_BlockPlayer ctx dr target
  | RqUnblockPlayer target => SocialHandler_UnblockPlayer ctx target
  | RqListBlocked => SocialHandler_ListBlocked ctx
  | RqCreateGroup name => GroupHandler_CreateGroup ctx dr name
  | RqDeleteGroup groupID => GroupHandler_DeleteGroup ctx groupID
  | RqJoinGroup groupID => GroupHandler_JoinGroup ctx dr groupID
  | RqLeaveGroup groupID => GroupHandler_LeaveGroup ctx groupID
  | RqListMyGroups => GroupHandler_ListMyGroups ctx
  | RqListMembers groupID => GroupHandler_ListMembers ctx groupID
  | RqSendDirectMessage recipient body => ChatHandler_SendDirectMessage ctx dr recipient body
  | RqListDirectMessages other before n => ChatHandler_ListDirectMessages ctx other before n
  | RqSendChannelMessage channelID body => ChatHandler_SendChannelMessage ctx dr channelID body
  | RqListChannelMessages channelID before n => ChatHandler_ListChannelMessages ctx channelID before n
  | RqSubscribeChannel channelID => ChatHandler_SubscribeChannel ctx channelID
  | RqSubmitScore leaderboardID score => LeaderboardHandler_SubmitScore ctx dr leaderboardID score
  | RqListRanks leaderboardID offset n => LeaderboardHandler_ListRanks ctx leaderboardID offset n
  | RqGetPlayerRank leaderboardID playerID => LeaderboardHandler_GetPlayerRank ctx leaderboardID playerID
  | RqListRanksAroundPlayer leaderboardID radius => LeaderboardHandler_ListRanksAroundPlayer ctx leaderboardID radius
  | RqQueryFiles prefix => PlayerDataHandler_QueryFiles ctx prefix
  | RqReadFile filename => PlayerDataHandler_ReadFile ctx filename
  | RqWriteFile filename size => PlayerDataHandler_WriteFile ctx filename size
  | RqCommitFile filename => PlayerDataHandler_CommitFile ctx dr filename
  | RqDeleteFile filename => PlayerDataHandler_DeleteFile ctx filename
  | RqQueryTitleFiles tags => TitleHandler_QueryFiles ctx tags
  | RqReadTitleFile filename => TitleHandler_ReadFile ctx filename
  | RqCreateTicket gameMode rating region partyMembers attributes =>
      MatchHandler_CreateTicket ctx dr gameMode rating region partyMembers attributes
  | RqWatchTicket ticketID => MatchHandler_WatchTicket ctx ticketID
  | RqCancelTicket ticketID => MatchHandler_CancelTicket ctx ticketID
  | RqGetCurrentMatch => MatchHandler_GetCurrentMatch ctx dr
  | RqLogin cred => AuthHandler_Login dr cred
  | RqLinkIdentity oidc => AuthHandler_LinkIdentity ctx dr oidc
  | RqRefresh refreshToken => AuthHandler_Refresh dr refreshToken
  | RqLogout => AuthHandler_Logout ctx dr
  | RqUpdateProfile nickname => AuthHandler_UpdateProfile ctx nickname
  end.

(** A request behind the interceptor, which reads the Authorization header. *)
Definition handle {J : Jwt} {A} (secret : string) (header : string) (dr : Draw) (rq : request A) : Rpc A :=
  serve (populate secret (d_now dr) header) dr rq.

(** The two procedures that take no access token: they hand tokens out. *)
Definition public {A} (rq : request A) : bool :=
  match rq with RqLogin _ | RqRefresh _ => true | _ => false end.
End gateway.

(** ** Steps that leave the world alone *)

Section inert.
Context {U : UuidCodec} {B S V : Type}.

Definition inert {A} (m : Rpc (B := B) (S := S) (V := V) A) : Prop := ∀ w, (m w).2 = w.

Lemma inert_ret {A} (a : A) : inert (mret a).
Proof. done. Qed.

Lemma inert_fault {A} c e : inert (fault c e : Rpc A).
Proof. done. Qed.

Lemma inert_bind {A A'} (m : Rpc A) (f : A → Rpc A') : inert m → (∀ a, inert (f a)) → inert (m ≫= f).
Proof. intros Hm Hf w. specialize (Hm w). unfold mbind, Rpc_bind. destruct (m w) as [[a|c e] w']; simpl in *; subst; [apply Hf|done]. Qed.

Lemma inert_auth ctx : inert (requireAuth ctx).
Proof. by destruct ctx. Qed.

Lemma inert_parse what s : inert (parseID what s).
Proof. intros w. unfold parseID. by case_match. Qed.

Lemma inert_members l : inert (parsePartyMembers l).
Proof. induction l as [|s l IH]; [done|]. apply inert_bind; [apply inert_parse|intros; by apply inert_bind]. Qed.

Lemma inert_provider x : inert (toProvider x).
Proof. by destruct x. Qed.
End inert.

(** The database as a part of itself, where a state that contains one is expected. *)
Definition whole (db : DB) : DB := db.

(** Opening a handler. *)
Create HintDb handlers.
#[export] Hint Unfold
  SocialHandler_SendFriendRequest SocialHandler_AcceptFriendRequest SocialHandler_DeclineFriendRequest
  SocialHandler_CancelFriendRequest SocialHandler_ListFriends SocialHandler_ListIncomingRequests
  SocialHandler_ListOutgoingRequests SocialHandler_RemoveFriend SocialHandler_BlockPlayer SocialHandler_UnblockPlayer
  SocialHandler_ListBlocked GroupHandler_CreateGroup GroupHandler_DeleteGroup GroupHandler_JoinGroup
  GroupHandler_LeaveGroup GroupHandler_ListMyGroups GroupHandler_ListMembers ChatHandler_SendDirectMessage
  ChatHandler_ListDirectMessages ChatHandler_SendChannelMessage ChatHandler_ListChannelMessages
  ChatHandler_SubscribeChannel LeaderboardHandler_SubmitScore LeaderboardHandler_ListRanks
  LeaderboardHandler_GetPlayerRank LeaderboardHandler_ListRanksAroundPlayer PlayerDataHandler_QueryFiles
  PlayerDataHandler_ReadFile PlayerDataHandler_WriteFile PlayerDataHandler_CommitFile PlayerDataHandler_DeleteFile
  TitleHandler_QueryFiles TitleHandler_ReadFile MatchHandler_CreateTicket MatchHandler_WatchTicket
  MatchHandler_CancelTicket MatchHandler_GetCurrentMatch AuthHandler_Login AuthHandler_LinkIdentity AuthHandler_Refresh
  AuthHandler_Logout AuthHandler_UpdateProfile : handlers.

(** ** Evaluated instances

    Player 01 owns group 51, of which 02 is a member; 02 owns group 52. *)
Definition demo_gateway : GatewayConfig :=
  mkGatewayConfig demo_defs (mkLeaderboardConfig 20 100 10) (mkChatConfig 50 200) demo_storage demo_auth_cfg 2.

Definition demo_gateway_db : DB :=
  let player b := mkPlayerRow (sample_uuid b) (Some "player") 0 0 in
  let group b owner := mkGroupRow (sample_uuid b) "clan" (sample_uuid owner) 0 in
  let member b g p := mkGroupMemberRow (sample_uuid b) (sample_uuid g) (sample_uuid p) 0 in
  T_players.(t_set) [player x01; player x02]
    (T_groups.(t_set) [group x51 x01; group x52 x02]
      (T_group_members.(t_set) [member x61 x51 x01; member x62 x51 x02; member x63 x52 x02] emptyDB)).

Definition demo_gateway_world : World StreamHub (gmap string ObjectAttrs) unit :=
  mkWorld demo_gateway_db NewHub ∅ tt NewInMem ∅.

Definition demo_draw : Draw := mkDraw demo_now (sample_uuid x71) (sample_uuid x72) demo_draws (λ _ db, db).

(** [handle] over the demonstration ports, for the bearer of the token "k0": player 01. *)
Definition demo_handle {A} (header : string) (rq : request A) :
    reply A * World StreamHub (gmap string ObjectAttrs) unit :=
  handle (U := hex_codec) (R := range_id) (C := str_ltb) (BR := hub_broker) (BS := mem_blobs) (RI := down) (TI := demo_issuer)
    (OV := demo_verifier) (J := list_jwt demo_claims) demo_gateway "k" header demo_draw rq demo_gateway_world.

Example demo_requests :
  (demo_handle "" RqListMyGroups).1 = Fault CodeUnauthenticated (ErrText "authentication required") ∧
  (demo_handle "Bearer k0" (RqDeleteGroup (hex_String (sample_uuid x52)))).1 = Fault CodePermissionDenied ErrNotOwner ∧
  groups (w_db (demo_handle "Bearer k0" (RqDeleteGroup (hex_String (sample_uuid x51)))).2) = [mkGroupRow (sample_uuid x52) "clan" (sample_uuid x02) 0].
Proof. split_and!; vm_compute; reflexivity. Qed.

Example leaderboard_specs :
  parseLeaderboards ["weekly"; " speedrun : asc"; ""] =
  Ok (<["speedrun" := mkLeaderboard "speedrun" Ascending]> {[ "weekly" := mkLeaderboard "weekly" Descending ]}) ∧
  parseLeaderboards ["weekly:up"] = Err (ErrText "bootstrap: leaderboard has unknown order").
Proof. split; vm_compute; reflexivity. Qed.
