(* ===== verification/GatewayIsolation.v ===== *)
(** * Who a request can write for

    Every row of the database belongs to players: [mine] says whether to the caller.  An action
    [frames] when it leaves every other row as it was, in its place; the notion composes, so each
    usecase is framed by its repositories and each handler by its usecase. *)

From S2P Require Import Prelude GoBase GoStrings Database Match MatchQueue AssignmentStore Matchmaker.
From S2P Require Import Social Storage Group Chat Leaderboard Auth Token Gateway.

(** The hints below: how actions, statements and handlers frame. *)
Create HintDb framing.

Section isolation.
(** The caller, and the database when the call began: it says who owns a group. *)
Context (p : uuid) (db0 : DB).
(** The primary key of the table groups. *)
Context (group_key : NoDup (g_id <$> groups db0)).

Definition owns_group (id : uuid) : bool :=
  exists_where T_groups (λ g, bool_decide (g_id g = id) && bool_decide (g_owner_id g = p)) db0.

Class Owned (R : Type) := mine : R → bool.

#[local] Instance player_owned : Owned PlayerRow := λ r, bool_decide (p_id r = p).
#[local] Instance identity_owned : Owned IdentityRow := λ r, bool_decide (i_player_id r = p).
#[local] Instance token_owned : Owned RefreshTokenRow := λ r, bool_decide (rt_player_id r = p).
#[local] Instance file_owned : Owned PlayerFileRow := λ r, bool_decide (pf_owner_id r = p).
(** No player owns a title file. *)
#[local] Instance title_owned : Owned TitleFileRow := λ r, false.
#[local] Instance entry_owned : Owned LeaderboardRow := λ r, bool_decide (le_player_id r = p).
#[local] Instance request_owned : Owned FriendRequestRow := λ r, bool_decide (fr_requester_id r = p) || bool_decide (fr_addressee_id r = p).
#[local] Instance friendship_owned : Owned FriendshipRow := λ r, bool_decide (fs_player_low r = p) || bool_decide (fs_player_high r = p).
#[local] Instance block_owned : Owned BlockRow := λ r, bool_decide (b_blocker_id r = p).
#[local] Instance message_owned : Owned DirectMessageRow := λ r, bool_decide (dm_sender_id r = p).
#[local] Instance group_owned : Owned GroupRow := λ r, bool_decide (g_owner_id r = p).
#[local] Instance member_owned : Owned GroupMemberRow := λ r, bool_decide (gm_player_id r = p) || owns_group (gm_group_id r).
#[local] Instance channel_owned : Owned ChannelMessageRow := λ r, bool_decide (cm_sender_id r = p) || owns_group (cm_channel_id r).

Definition others {R} `{Owned R} (l : list R) : list R := filter (λ r, mine r = false) l.

(** Everyone else's rows are the same, in the same order. *)
Record isolated (db db' : DB) : Prop := {
  iso_players : others (players db') = others (players db);
  iso_identities : others (player_identities db') = others (player_identities db);
  iso_tokens : others (refresh_tokens db') = others (refresh_tokens db);
  iso_files : others (player_files db') = others (player_files db);
  iso_titles : others (title_files db') = others (title_files db);
  iso_entries : others (leaderboard_entries db') = others (leaderboard_entries db);
  iso_requests : others (friend_requests db') = others (friend_requests db);
  iso_friendships : others (friendships db') = others (friendships db);
  iso_blocks : others (player_blocks db') = others (player_blocks db);
  iso_messages : others (direct_messages db') = others (direct_messages db);
  iso_groups : others (groups db') = others (groups db);
  iso_members : others (group_members db') = others (group_members db);
  iso_channel : others (channel_messages db') = others (channel_messages db);
}.

#[local] Instance isolated_preorder : PreOrder isolated.
Proof.
  split; [by intros db; split|]. intros a b c [] []. split; etransitivity; eassumption.
Qed.

(** ** Statements *)

(** A table of rows with owners, apart from the other tables. *)
Definition apart {R} `{Owned R} (T : table DB R) : Prop :=
  ∀ l db, others l = others (t_get T db) → isolated db (t_set T l db).

Ltac apart_table := intros l db H; split; by simpl.
Lemma apart_players : apart T_players. Proof. apart_table. Qed.
Lemma apart_identities : apart T_player_identities. Proof. apart_table. Qed.
Lemma apart_tokens : apart T_refresh_tokens. Proof. apart_table. Qed.
Lemma apart_files : apart T_player_files. Proof. apart_table. Qed.
Lemma apart_entries : apart T_leaderboard_entries. Proof. apart_table. Qed.
Lemma apart_requests : apart T_friend_requests. Proof. apart_table. Qed.
Lemma apart_friendships : apart T_friendships. Proof. apart_table. Qed.
Lemma apart_blocks : apart T_player_blocks. Proof. apart_table. Qed.
Lemma apart_messages : apart T_direct_messages. Proof. apart_table. Qed.
Lemma apart_groups : apart T_groups. Proof. apart_table. Qed.
Lemma apart_members : apart T_group_members. Proof. apart_table. Qed.
Lemma apart_channel : apart T_channel_messages. Proof. apart_table. Qed.

(** An action over any state with a database in it. *)
Definition frames {S A} (get : S → DB) (m : M S A) : Prop := ∀ s, isolated (get s) (get (m s).2).

Section statement.
Context {R : Type} {O : Owned R} (T : table DB R) (HT : apart T).

Lemma delete_isolated (q : R → bool) db :
  (∀ r, r ∈ t_get T db → q r = true → mine r = true) → isolated db (delete_where T q db).2.
Proof.
  intros Hq. apply HT. unfold others. induction (t_get T db) as [|r l IH]; [done|].
  assert (Hl : ∀ r, r ∈ l → q r = true → mine r = true) by (intros r' Hr'; apply Hq; by right).
  specialize (IH Hl). destruct (q r) eqn:E.
  - rewrite filter_cons_False by congruence. rewrite (filter_cons_False _ r); [done|].
    rewrite (Hq r); [done|left|done].
  - rewrite (filter_cons_True _ r) by done. rewrite !filter_cons. by rewrite IH.
Qed.

Lemma frames_delete (q : R → bool) : (∀ r, q r = true → mine r = true) → frames whole (delete_where T q).
Proof. intros Hq db. apply delete_isolated. auto. Qed.

Lemma frames_update (q : R → bool) (f : R → R) :
  (∀ r, q r = true → mine r = true ∧ mine (f r) = true) → frames whole (update_where T q f).
Proof.
  intros Hq db. apply HT. unfold others. induction (t_get T db) as [|r l IH]; [done|]. csimpl.
  destruct (q r) eqn:E.
  - destruct (Hq r E) as [H1 H2]. by rewrite !filter_cons_False, IH by congruence.
  - rewrite !filter_cons. by rewrite IH.
Qed.

Lemma frames_insert check unique fk r : mine r = true → frames whole (insert_row T check unique fk r).
Proof.
  intros Hr db. unfold insert_row. repeat case_match; simpl; try reflexivity. apply HT. unfold others.
  rewrite filter_app, filter_cons_False by congruence. by rewrite app_nil_r.
Qed.

Lemma frames_query (q : R → bool) : frames whole (query_one T q).
Proof. intros db. unfold query_one. by case_match. Qed.
End statement.

(** ** Combinators *)

Lemma frames_ret {S A} get (a : A) : frames get (mret a : M S A).
Proof. intros s. reflexivity. Qed.

Lemma frames_fail {S A} get e : frames get (fail e : M S A).
Proof. intros s. reflexivity. Qed.

Lemma frames_gets {S A} get (f : S → A) : frames get (gets f).
Proof. intros s. reflexivity. Qed.

Lemma frames_lift {S A} get (r : res A) : frames get (lift_res r : M S A).
Proof. intros s. reflexivity. Qed.

Lemma frames_bind {S A A'} get (m : M S A) (f : A → M S A') :
  frames get m → (∀ a, frames get (f a)) → frames get (m ≫= f).
Proof.
  intros Hm Hf s. rewrite M_bind_eval. specialize (Hm s). destruct (m s) as [[a|e] s1]; [|done].
  etransitivity; [apply Hm|apply Hf].
Qed.

Lemma frames_try {S A} get (m : M S A) : frames get m → frames get (try m).
Proof. intros Hm s. specialize (Hm s). unfold try. by destruct (m s). Qed.

Lemma frames_ignore {S A} get (m : M S A) : frames get m → frames get (ignore m).
Proof. intros Hm s. apply Hm. Qed.

Lemma frames_tolerate {S} get e (m : M S unit) : frames get m → frames get (tolerate e m).
Proof. intros Hm s. specialize (Hm s). unfold tolerate. destruct (m s) as [[a|e'] s1]; [done|]. by case_match. Qed.

Lemma frames_wrap {A} msg (m : M DB A) : frames whole m → frames whole (wrap msg m).
Proof. intros Hm s. specialize (Hm s). unfold wrap. by destruct (m s) as [[a|e'] s1]. Qed.

Lemma frames_no_rows {A} e (m : M DB A) : frames whole m → frames whole (no_rows_as e m).
Proof. intros Hm s. specialize (Hm s). unfold no_rows_as. by destruct (m s) as [[a|e'] s1]. Qed.

Lemma frames_RW {A} (m : M DB A) : frames whole m → frames whole (RW m).
Proof. intros Hm s. specialize (Hm s). rewrite RW_eval. by destruct (m s) as [[a|e'] s1]. Qed.

Lemma frames_RO {A} (f : DB → res A) : frames whole (RO f).
Proof. intros s. reflexivity. Qed.

(** The actions of one component of a pair. *)
Lemma frames_in_tx {V A} (m : M DB A) : frames whole m → frames fst (in_tx m : M (DB * V) A).
Proof. intros Hm [db v]. specialize (Hm db). unfold in_tx. simpl. by destruct (m db). Qed.

Lemma frames_assign {V} (v : V) : frames fst (assign v).
Proof. intros s. reflexivity. Qed.

Lemma frames_capture {V A} (v : V) (m : M (DB * V) A) : frames fst m →
  ∀ db, isolated db (RW_capture v m db).2.
Proof. intros Hm db. specialize (Hm (db, v)). unfold RW_capture. by destruct (m (db, v)) as [[a|e] [db' v']]. Qed.

#[local] Hint Resolve frames_ret frames_fail frames_gets frames_lift frames_bind frames_try frames_ignore frames_tolerate
  frames_wrap frames_no_rows frames_RW frames_RO frames_in_tx frames_assign frames_query : framing.

Lemma frames_if {S A} get (b : bool) (m n : M S A) : frames get m → frames get n → frames get (if b then m else n).
Proof. by destruct b. Qed.

#[local] Hint Resolve frames_if : framing.

(** [mine] of a row that names the caller. *)
Ltac owned := intros;
  unfold mine, player_owned, identity_owned, token_owned, file_owned, entry_owned, request_owned, friendship_owned,
    block_owned, message_owned, group_owned, member_owned, channel_owned in *;
  repeat match goal with
  | H : (_ && _)%bool = true |- _ => apply andb_true_iff in H as [? ?]
  | H : bool_decide _ = true |- _ => apply bool_decide_eq_true in H
  end; subst; simpl in *; rewrite ?orb_true_iff, ?bool_decide_eq_true; tauto.

(** ** The repositories *)

Lemma frames_request_save id r : Requester r = p → frames whole (FriendRequests_Save id r).
Proof.
  intros Hr db. unfold FriendRequests_Save. apply (frames_insert _ apart_requests). owned.
Qed.

Lemma frames_request_delete a b : a = p ∨ b = p → frames whole (FriendRequests_Delete a b).
Proof.
  intros Hab. unfold FriendRequests_Delete. apply frames_bind; [|auto with framing].
  apply (frames_delete _ apart_requests). unfold is_request. owned.
Qed.

Lemma OrderPair_has (a b : uuid) : a = p ∨ b = p → (OrderPair a b).1 = p ∨ (OrderPair a b).2 = p.
Proof. unfold OrderPair, canonical_pair. case_match; simpl; tauto. Qed.

Lemma frames_friendship_save id a b : a = p ∨ b = p → frames whole (Friendships_Save id (NewFriendship a b)).
Proof.
  intros Hab db. apply OrderPair_has in Hab. unfold Friendships_Save, NewFriendship.
  destruct (OrderPair a b) as [low high]. apply (frames_insert _ apart_friendships). owned.
Qed.

Lemma frames_friendship_delete a b : a = p ∨ b = p → frames whole (Friendships_Delete a b).
Proof.
  intros Hab. apply OrderPair_has in Hab. unfold Friendships_Delete. destruct (OrderPair a b) as [low high].
  apply frames_bind; [|auto with framing]. apply (frames_delete _ apart_friendships). unfold is_friendship. simpl in Hab. owned.
Qed.

Lemma frames_block_save id b : Blocker b = p → frames whole (Blocks_Save id b).
Proof.
  intros Hb db. unfold Blocks_Save. case_match; [reflexivity|]. apply (frames_insert _ apart_blocks). owned.
Qed.

Lemma frames_block_delete b : frames whole (Blocks_Delete p b).
Proof. apply frames_bind; [|auto with framing]. apply (frames_delete _ apart_blocks). unfold is_block. owned. Qed.

Lemma frames_member_save id m : mb_PlayerID m = p → frames whole (GroupMembership_Save id m).
Proof.
  intros Hm db. unfold GroupMembership_Save. case_match; [reflexivity|]. apply (frames_insert _ apart_members). owned.
Qed.

Lemma frames_member_delete g : frames whole (GroupMembership_Delete g p).
Proof.
  apply frames_bind; [|auto with framing]. apply (frames_delete _ apart_members). unfold is_member_row. owned.
Qed.

Lemma frames_find_group g : frames whole (Group_Find g).
Proof. intros db. unfold Group_Find, query_one. repeat case_match; by simplify_eq/=. Qed.


Lemma owns_group_true g : owns_group g = true ↔ ∃ r, r ∈ groups db0 ∧ g_id r = g ∧ g_owner_id r = p.
Proof.
  unfold owns_group, exists_where. rewrite existsb_true. simpl. setoid_rewrite andb_true_iff.
  setoid_rewrite bool_decide_eq_true. done.
Qed.

(** The rows that go with a group of the caller. *)
Lemma frames_cascade g : owns_group g = true →
  frames whole (_ ← delete_where T_group_members (λ m, bool_decide (gm_group_id m = g));
                _ ← delete_where T_channel_messages (λ m, bool_decide (cm_channel_id m = g)); mret tt).
Proof.
  intros Hg. apply frames_bind; [|intros _; apply frames_bind; [|auto with framing]].
  - apply (frames_delete _ apart_members). intros r Hr. apply bool_decide_eq_true in Hr.
    unfold mine, member_owned. by rewrite Hr, Hg, orb_true_r.
  - apply (frames_delete _ apart_channel). intros r Hr. apply bool_decide_eq_true in Hr.
    unfold mine, channel_owned. by rewrite Hr, Hg, orb_true_r.
Qed.

Lemma group_delete_isolated g : owns_group g = true → isolated db0 (Group_Delete g db0).2.
Proof.
  intros Hg. unfold Group_Delete. rewrite M_bind_eval. unfold delete_where at 1.
  transitivity (delete_where T_groups (is_group g) db0).2.
  - apply (delete_isolated _ apart_groups). intros r Hr Hi. apply owns_group_true in Hg as (r' & Hr' & <- & Ho).
    apply bool_decide_eq_true in Hi. rewrite (NoDup_key _ _ _ _ group_key Hr Hr' Hi). owned.
  - exact (frames_cascade g Hg (delete_where T_groups (is_group g) db0).2).
Qed.

Lemma frames_message_save m : msg_SenderID m = p → frames whole (Chat_Save m).
Proof.
  intros Hm db. unfold Chat_Save. destruct (Conversation _ _) as [low high]. apply (frames_insert _ apart_messages). owned.
Qed.

Lemma frames_channel_save m : ch_SenderID m = p → frames whole (Chat_SaveChannelMessage m).
Proof. intros Hm db. apply (frames_insert _ apart_channel). owned. Qed.

Lemma frames_file_save id f : frames whole (PlayerFile_SaveFile id p f).
Proof.
  intros db. unfold PlayerFile_SaveFile. case_match.
  - apply (frames_bind whole); [|auto with framing]. apply (frames_update _ apart_files). unfold is_player_file. owned.
  - apply (frames_insert _ apart_files). owned.
Qed.

Lemma frames_file_delete f : frames whole (PlayerFile_DeleteFile p f).
Proof.
  apply frames_bind; [|auto with framing]. apply (frames_delete _ apart_files). unfold is_player_file. owned.
Qed.

Lemma frames_score id l s t : frames whole (Leaderboard_Submit id l p s t).
Proof.
  intros db. unfold Leaderboard_Submit. case_match.
  - apply (frames_bind whole); [|auto with framing]. apply (frames_update _ apart_entries). unfold is_entry. owned.
  - match goal with |- context [insert_row ?T ?c ?u ?f ?r db] => 
      pose proof (frames_insert T apart_entries c u f r ltac:(owned) db) as Hi end.
    unfold whole in *. by destruct (insert_row _ _ _ _ _ db) as [[?|?] ?].
Qed.

Lemma frames_player_save pl : pl_ID pl = p → frames whole (Player_Save pl).
Proof.
  intros Hp db. unfold Player_Save. case_match; [reflexivity|]. case_match.
  - apply (frames_bind whole); [|auto with framing]. apply (frames_update _ apart_players). unfold is_player. owned.
  - apply (frames_insert _ apart_players). owned.
Qed.

Lemma frames_identity_save i : id_PlayerID i = p → frames whole (Identity_Save i).
Proof.
  intros Hp db. unfold Identity_Save. 
  match goal with |- context [insert_row ?T ?c ?u ?f ?r db] => 
      pose proof (frames_insert T apart_identities c u f r ltac:(owned) db) as Hi end.
  unfold whole in *. by destruct (insert_row _ _ _ _ _ db) as [[?|?] ?].
Qed.

Lemma frames_revoke_all now : frames whole (RefreshToken_RevokeAllForPlayer p now).
Proof.
  apply frames_bind; [|auto with framing]. apply (frames_update _ apart_tokens). unfold revoke_at. owned.
Qed.

Lemma frames_get_player a : frames whole (Player_GetByID a).
Proof. intros db. unfold Player_GetByID, query_one. repeat case_match; by simplify_eq/=. Qed.

Lemma frames_find_identity a b : frames whole (Identity_Find a b).
Proof. intros db. unfold Identity_Find, query_one. repeat case_match; by simplify_eq/=. Qed.

Lemma frames_usage a : frames whole (PlayerFile_Usage a).
Proof. intros db. unfold PlayerFile_Usage. by case_match. Qed.

#[local] Hint Resolve frames_request_save frames_request_delete frames_friendship_save frames_friendship_delete frames_block_save
  frames_block_delete frames_member_save frames_member_delete frames_find_group frames_message_save frames_channel_save
  frames_file_save frames_file_delete frames_score frames_player_save frames_identity_save frames_revoke_all frames_get_player
  frames_find_identity frames_usage : framing.

(** ** The usecases *)

Ltac frame_all := repeat
  match goal with
  | |- frames _ (_ ≫= _) => apply frames_bind; intros
  | |- frames _ (if _ then _ else _) => apply frames_if
  | |- frames _ (match _ with _ => _ end) => case_match
  | |- frames _ (RW _) => apply frames_RW
  end; auto 8 with framing.

Lemma frames_send id a db : isolated db (SendFriendRequest id p a db).2.
Proof.
  unfold SendFriendRequest. case_match; [reflexivity|]. apply frames_capture. unfold SendFriendRequest_tx.
  unfold Blocks_IsBlocked, Friendships_Exists, FriendRequests_Exists. destruct (OrderPair p a) as [low high]. frame_all.
Qed.

Lemma frames_accept id a : frames whole (AcceptFriendRequest id p a).
Proof. unfold AcceptFriendRequest. frame_all. Qed.

Lemma frames_block id a : frames whole (BlockPlayer id p a).
Proof. unfold BlockPlayer. frame_all. Qed.

Lemma frames_group_save g db : grp_OwnerID g = p → grp_ID g ∉ g_id <$> groups db → isolated db (Group_Save g db).2.
Proof.
  intros Ho Hfresh. unfold Group_Save. assert (exists_where T_groups (is_group (grp_ID g)) db = false) as ->.
  2: { apply (frames_insert _ apart_groups). owned. }
  apply existsb_false. intros r Hr. apply bool_decide_eq_false. intros E. apply Hfresh. rewrite <- E. by apply list_elem_of_fmap_2.
Qed.

Lemma frames_create_group gid mid now name db : gid ∉ g_id <$> groups db → isolated db (CreateGroup gid mid now p name db).2.
Proof.
  intros Hfresh. unfold CreateGroup, lift_res. rewrite M_bind_eval. destruct (NewGroup gid p name now) as [g|] eqn:E; [|reflexivity].
  unfold NewGroup in E. case_match; simplify_eq. rewrite M_bind_eval, RW_eval, M_bind_eval.
  set (g := mkGroup gid (TrimSpace name) p now). pose proof (frames_group_save g db eq_refl Hfresh) as H1.
  destruct (Group_Save g db) as [[?|?] db1]; [|reflexivity]. simpl in H1 |- *.
  pose proof (frames_member_save mid (NewMembership gid p now) eq_refl db1) as H2. unfold whole in H2.
  destruct (GroupMembership_Save _ _ db1) as [[?|?] db2]; [|reflexivity]. by etransitivity.
Qed.

Lemma frames_delete_group g : isolated db0 (DeleteGroup p g db0).2.
Proof.
  unfold DeleteGroup. rewrite RW_eval, M_bind_eval. unfold Group_Find, query_one.
  destruct (select_where T_groups (is_group g) db0) as [|row rows] eqn:E; [reflexivity|].
  assert (row ∈ select_where T_groups (is_group g) db0) as Hr by (rewrite E; left).
  apply filter_selected in Hr as [Hr Hg]. apply bool_decide_eq_true in Hg. simpl. case_bool_decide as Ho; [reflexivity|].
  assert (owns_group g = true) as Hown by (apply owns_group_true; exists row; split_and!; [done|done|by destruct (decide (g_owner_id row = p))]).
  pose proof (group_delete_isolated g Hown) as H. by destruct (Group_Delete g db0) as [[?|?] db1].
Qed.

Lemma frames_join mid now g : frames whole (JoinGroup mid now p g).
Proof. unfold JoinGroup. frame_all. Qed.

Lemma frames_leave g : frames whole (LeaveGroup p g).
Proof. unfold LeaveGroup. frame_all. Qed.

Section pairs.
Context {X : Type}.

Lemma frames_in_db {A} (m : M DB A) : frames whole m → frames fst (in_db m : M (DB * X) A).
Proof. intros Hm [db x]. specialize (Hm db). unfold in_db. simpl. by destruct (m db). Qed.

Lemma frames_in_broker {A} (m : M X A) : frames fst (in_broker m).
Proof. intros [db x]. unfold in_broker. simpl. by destruct (m x). Qed.

Lemma frames_on_db {A} (m : M DB A) : frames whole m → frames fst (on_db m : M (DB * X) A).
Proof. exact (frames_in_db m). Qed.

Lemma frames_on_blobs {A} (m : M X A) : frames fst (on_blobs m).
Proof. exact (frames_in_broker m). Qed.

Lemma frames_on_pg {A} (m : M DB A) : frames whole m → frames fst (on_pg m : M (DB * X) A).
Proof. exact (frames_in_db m). Qed.

Lemma frames_on_valkey {A} (m : M X A) : frames fst (on_valkey m).
Proof. exact (frames_in_broker m). Qed.
End pairs.

#[local] Hint Resolve frames_in_db frames_in_broker frames_on_db frames_on_blobs frames_on_pg frames_on_valkey : framing.

Lemma frames_direct {B} id now a body : frames fst (SendDirectMessage id now p a body : M (DB * B) Message).
Proof.
  unfold SendDirectMessage, lift_res. intros w. rewrite M_bind_eval. destruct (NewMessage id p a body now) as [m|] eqn:E; [|reflexivity].
  apply frames_bind; [|auto with framing]. apply frames_in_db, frames_RW, frames_message_save.
  unfold NewMessage in E. repeat case_match; by simplify_eq.
Qed.

Lemma frames_channel {B} {BR : Broker B} id now g body : frames fst (SendChannelMessage id now p g body : M (DB * B) ChannelMessage).
Proof.
  unfold SendChannelMessage, lift_res. intros w. rewrite M_bind_eval. destruct (NewChannelMessage id g p body now) as [m|] eqn:E; [|reflexivity].
  assert (ch_SenderID m = p) as Hm by (unfold NewChannelMessage in E; repeat case_match; by simplify_eq).
  apply frames_bind; [|intros; frame_all]. unfold GroupMembership_IsMember. apply frames_in_db. frame_all.
Qed.

Section storage.
Context {S : Type} {BS : BlobStore S} {U : UuidCodec} (cfg : StorageConfig).

Lemma frames_quota f size : frames whole (checkQuota cfg p f size).
Proof. unfold checkQuota, PlayerFile_GetFile. frame_all. Qed.

#[local] Hint Resolve frames_quota : framing.

Lemma frames_commit id now f : frames fst (CommitPlayerFile cfg id now p f : M (DB * S) File).
Proof. unfold CommitPlayerFile. frame_all. Qed.

Lemma frames_delete_file f : frames fst (DeletePlayerFile cfg p f : M (DB * S) unit).
Proof. unfold DeletePlayerFile, PlayerFile_GetFile. frame_all. Qed.
End storage.

Section ranks.
Context {V : Type} {RI : RankIndex V}.

Lemma frames_index_RW {A} (m : M (DB * V) A) : frames fst m → frames fst (repo_RW m).
Proof. intros Hm w. specialize (Hm w). simpl. by destruct (m w) as [[?|?] [? ?]]. Qed.

Lemma frames_index_RO {A} (m : M (DB * V) A) : frames fst (repo_RO m).
Proof. intros w. simpl. by destruct (m w) as [? [? ?]]. Qed.

Lemma frames_built l : frames fst (ensureBuilt l : M (DB * V) unit).
Proof. unfold ensureBuilt, rebuild. frame_all. Qed.

#[local] Hint Resolve frames_index_RO frames_built : framing.

Lemma frames_submit defs id now b s : frames fst (SubmitScore defs id now b p s : M (DB * V) _).
Proof. unfold SubmitScore, rankOf. frame_all. apply frames_index_RW. unfold repo_Submit, index_leaderboard, Index_Submit. frame_all. Qed.
End ranks.

Section accounts.
Context {TI : TokenIssuer} {OV : OIDCVerifier} (cfg : AuthConfig).

Lemma frames_link id provider tok : frames whole (LinkIdentity id p provider tok).
Proof. unfold LinkIdentity. frame_all. Qed.

Lemma frames_logout now : frames whole (Logout now p).
Proof. unfold Logout. frame_all. Qed.

Lemma frames_profile nickname : frames whole (UpdateProfile p nickname).
Proof.
  unfold UpdateProfile. apply frames_RW. intros db. rewrite M_bind_eval.
  destruct (GetByID_spec p db) as [(row & _ & Hid & ->)|[_ ->]]; [|reflexivity].
  destruct nickname as [n|]; rewrite M_bind_eval;
    [unfold lift_res, SetNickname; destruct (validateNickname (Some n)) as [[]|]; [simpl|reflexivity]|];
    (apply (frames_bind whole); [by apply frames_player_save|auto with framing]).
Qed.
End accounts.

#[local] Hint Resolve frames_accept frames_block frames_join frames_leave frames_direct frames_channel frames_commit
  frames_delete_file frames_submit frames_link frames_logout frames_profile frames_quota frames_index_RO : framing.

(** ** The handlers *)

Section handlers.
Context {U : UuidCodec} {R : RangeOrder} {C : Collation}.
Context {B S V : Type} {BR : Broker B} {BS : BlobStore S} {RI : RankIndex V} {TI : TokenIssuer} {OV : OIDCVerifier}.
Context (cfg : GatewayConfig).
Implicit Types w : World B S V.

(** Handlers that started from [db0]. *)
Definition confined {A} (m : Rpc (B := B) (S := S) (V := V) A) : Prop := ∀ w, w_db w = db0 → isolated db0 (w_db (m w).2).
Lemma confined_inert {A} (m : Rpc A) : inert m → confined m.
Proof. intros Hm w Hw. rewrite (Hm w), Hw. reflexivity. Qed.

Lemma confined_after {A A'} (m : Rpc A) (f : A → Rpc A') : inert m → (∀ a, confined (f a)) → confined (m ≫= f).
Proof.
  intros Hm Hf w Hw. specialize (Hm w). unfold mbind, Rpc_bind. destruct (m w) as [[a|c e] w']; simpl in *; subst; [by apply Hf|]. by rewrite Hw.
Qed.

Lemma confined_before {A A'} (m : Rpc A) (f : A → Rpc A') : confined m → (∀ a, inert (f a)) → confined (m ≫= f).
Proof.
  intros Hm Hf w Hw. specialize (Hm w Hw). unfold mbind, Rpc_bind. destruct (m w) as [[a|c e] w']; [|done]. by rewrite (Hf a w').
Qed.

(** The caller of an authenticated handler is [p]. *)
Lemma confined_caller {A} (f : uuid → Rpc A) : confined (f p) → confined (requireAuth (Some p) ≫= f).
Proof. done. Qed.

Lemma confined_db {A} conv (m : M DB A) : isolated db0 (m db0).2 → confined (call_db conv m).
Proof. intros Hm w Hw. unfold call_db, call. rewrite Hw. by destruct (m db0) as [[?|?] ?]. Qed.

Lemma confined_frames {A} conv (m : M DB A) : frames whole m → confined (call_db conv m).
Proof. intros Hm. apply confined_db, Hm. Qed.

Lemma confined_chat {A} (m : M (DB * B) A) : frames fst m → confined (call_chat m).
Proof. intros Hm w Hw. specialize (Hm (w_db w, w_broker w)). rewrite Hw in Hm. unfold call_chat, call. rewrite Hw. by destruct (m _) as [[?|?] [? ?]]. Qed.

Lemma confined_storage {A} (m : M (DB * S) A) : frames fst m → confined (call_storage m).
Proof. intros Hm w Hw. specialize (Hm (w_db w, w_blobs w)). rewrite Hw in Hm. unfold call_storage, call. rewrite Hw. by destruct (m _) as [[?|?] [? ?]]. Qed.

Lemma confined_rank {A} (m : M (DB * V) A) : frames fst m → confined (call_rank m).
Proof. intros Hm w Hw. specialize (Hm (w_db w, w_ranks w)). rewrite Hw in Hm. unfold call_rank, call. rewrite Hw. by destruct (m _) as [[?|?] [? ?]]. Qed.

Lemma confined_queue {A} (m : M InMem A) : confined (call_queue m).
Proof. intros w Hw. unfold call_queue, call. destruct (m _) as [[?|?] ?]; simpl; by rewrite Hw. Qed.

Lemma confined_assignments {A} (m : M entries A) : confined (call_assignments m).
Proof. intros w Hw. unfold call_assignments, call. destruct (m _) as [[?|?] ?]; simpl; by rewrite Hw. Qed.

#[local] Hint Resolve inert_ret inert_fault inert_parse inert_members inert_provider confined_inert confined_frames confined_chat
  confined_storage confined_rank confined_queue confined_assignments : framing.

Ltac confine := repeat
  match goal with
  | |- confined (requireAuth _ ≫= _) => apply confined_caller
  | |- confined (parseID _ _ ≫= _) => apply confined_after; [apply inert_parse|intros]
  | |- confined (parsePlayerID _ ≫= _) => apply confined_after; [apply inert_parse|intros]
  | |- confined (parseGroupID _ ≫= _) => apply confined_after; [apply inert_parse|intros]
  | |- confined (parseChannelID _ ≫= _) => apply confined_after; [apply inert_parse|intros]
  | |- confined (parseTicketID _ ≫= _) => apply confined_after; [apply inert_parse|intros]
  | |- confined (parsePartyMembers _ ≫= _) => apply confined_after; [apply inert_members|intros]
  | |- confined (toProvider _ ≫= _) => apply confined_after; [apply inert_provider|intros]
  | |- confined ((if _ then _ else _) ≫= _) => apply confined_after; [case_match; auto with framing|intros]
  | |- confined (_ ≫= _) => apply confined_before; [|intros; apply inert_ret]
  | |- confined (if _ then _ else _) => case_match
  | |- confined (match _ with _ => _ end) => case_match
  end; auto with framing.

Lemma confined_send conv id a : confined (call_db conv (accepted_or_error (SendFriendRequest id p a))).
Proof.
  apply confined_db. pose proof (frames_send id a db0) as H. unfold accepted_or_error.
  by destruct (SendFriendRequest id p a db0) as [[? [?|?]] ?].
Qed.

#[local] Hint Resolve confined_send : framing.

(** The usecases that only read, and the one-statement ones. *)
#[local] Hint Unfold DeclineFriendRequest CancelFriendRequest ListFriends ListIncomingRequests ListOutgoingRequests RemoveFriend
  UnblockPlayer ListBlocked ListMyGroups ListMembers ListDirectMessages ListChannelMessages SubscribeChannel ListRanks
  GetPlayerRank ListRanksAroundPlayer rankOf QueryPlayerFiles ReadPlayerFile WritePlayerFile QueryTitleFiles ReadTitleFile : readers.

Lemma serve_confined {A} dr (rq : request A) : public rq = false → d_id dr ∉ g_id <$> groups db0 → confined (serve cfg (Some p) dr rq).
Proof.
  intros Hp Hfresh. destruct rq; try done; cbn [serve]; autounfold with handlers; confine.
  all: try (apply confined_db; first [by apply frames_create_group | by apply frames_delete_group]).
  all: first [apply confined_frames | apply confined_chat | apply confined_storage | apply confined_rank];
    autounfold with readers; frame_all.
Qed.
End handlers.
End isolation.

(** ** The claims *)

Section claims.
Context {U : UuidCodec} {R : RangeOrder} {C : Collation} {J : Jwt}.
Context {B S V : Type} {BR : Broker B} {BS : BlobStore S} {RI : RankIndex V} {TI : TokenIssuer} {OV : OIDCVerifier}.
Context (cfg : GatewayConfig) (secret : string).

Lemma serve_anonymous {A} dr (rq : request A) (w : World B S V) : public rq = false →
  serve cfg None dr rq w = (Fault CodeUnauthenticated (ErrText "authentication required"), w).
Proof. by destruct rq. Qed.

(** C2: A gateway request, of any procedure but Login and Refresh, whose Authorization header
    carries no valid token is answered Unauthenticated and leaves the whole state as it was.  When
    the header carries a valid token, the request leaves in every table of the database each row
    that does not belong to the player the token names exactly as it was and where it was: their
    profile, identities, refresh tokens, files, scores, friendships and requests, blocks, messages,
    groups, and the members and messages of groups the caller does not own.  The group primary key
    is unique and the id drawn for the call is not a group's. *)
Theorem gateway_isolation {A} header dr (rq : request A) (w : World B S V) :
  public rq = false → NoDup (g_id <$> groups (w_db w)) → d_id dr ∉ g_id <$> groups (w_db w) →
  match populate secret (d_now dr) header with
  | None => ∃ err, handle cfg secret header dr rq w = (Fault CodeUnauthenticated err, w)
  | Some p => isolated p (w_db w) (w_db w) (w_db (handle cfg secret header dr rq w).2)
  end.
Proof.
  intros Hp Hkey Hfresh. unfold handle. destruct (populate secret (d_now dr) header) as [p|].
  - by apply (serve_confined p (w_db w) Hkey cfg dr rq Hp Hfresh).
  - rewrite serve_anonymous by done. by eexists.
Qed.
End claims.

(** Player 01 deletes their group 51, whose members include player 02. *)
Lemma gateway_isolation_witness :
  isolated (sample_uuid x01) demo_gateway_db demo_gateway_db
    (w_db (demo_handle "Bearer k0" (RqDeleteGroup (hex_String (sample_uuid x51)))).2).
Proof.
  pose proof (gateway_isolation (U := hex_codec) (R := range_id) (C := str_ltb) (BR := hub_broker) (BS := mem_blobs) (RI := down)
    (TI := demo_issuer) (OV := demo_verifier) (J := list_jwt demo_claims) demo_gateway "k" "Bearer k0" demo_draw
    (RqDeleteGroup (hex_String (sample_uuid x51))) demo_gateway_world) as H.
  assert (populate (U := hex_codec) (J := list_jwt demo_claims) "k" (d_now demo_draw) "Bearer k0" = Some (sample_uuid x01)) as E
    by (vm_compute; reflexivity).
  rewrite E in H. apply H; [reflexivity|by_compute|by_compute].
Defined.
