(* ===== verification/GatewayErrors.v ===== *)
(** * What a failed request means

    The code of a fault, as a function of the root cause of the error alone; and that a fault
    leaves the database as it was.  [raises] follows the errors of an action through its
    combinators, [atomic] its effects on failure; both compose, so each usecase inherits them from
    its repositories. *)

From S2P Require Import Prelude GoBase GoStrings Database Match MatchQueue AssignmentStore Matchmaker.
From S2P Require Import Social Storage Group Chat Leaderboard Auth Token Gateway.

(** ** Root causes *)

Fixpoint cause (e : error) : error := match e with Wrap _ inner => cause inner | _ => e end.

(** The code each sentinel of the domain and of the usecases is meant to be reported with; [None]
    for an error that is not the program's own. *)
Definition code_of (e : error) : option Code :=
  match e with
  | ErrTicketNoPlayer | ErrTicketNoGameMode | ErrPartyTooLarge | ErrInvalidNickname | ErrSelfMessage | ErrInvalidBody
  | ErrInvalidName | ErrSelfFriend | ErrSelfBlock | ErrInvalidFilename | ErrFileTooLarge => Some CodeInvalidArgument
  | ErrTicketNotFound | ErrPlayerNotFound | ErrIdentityNotFound | ErrGroupNotFound | ErrLeaderboardNotFound
  | ErrEntryNotFound | ErrRequestNotFound | ErrNotFriends | ErrFileNotFound => Some CodeNotFound
  | ErrAlreadyFriends | ErrAlreadyRequested | ErrIdentityAlreadyLinked => Some CodeAlreadyExists
  | ErrNotChannelMember | ErrOwnerMustDelete | ErrNotMember | ErrBlocked | ErrUploadIncomplete => Some CodeFailedPrecondition
  | ErrRefreshTokenInvalid | ErrInvalidCredential => Some CodeUnauthenticated
  | ErrNotOwner => Some CodePermissionDenied
  | ErrQuotaExceeded => Some CodeResourceExhausted
  | ErrObjectNotFound | PgNoRows | PgConstraint _ | ErrText _ | Wrap _ _ => None
  end.

Definition foreign (e : error) : Prop := code_of (cause e) = None.

Definition is_wrap (e : error) : bool := match e with Wrap _ _ => true | _ => false end.

Lemma errors_Is_cause e target : is_wrap target = false → errors_Is e target = bool_decide (cause e = target).
Proof.
  intros Ht. induction e; cbn [errors_Is cause]; rewrite ?orb_false_r; try done.
  rewrite IHe. rewrite bool_decide_eq_false_2; [done|]. by intros <-.
Qed.

Lemma cause_not_wrap e : is_wrap (cause e) = false.
Proof. by induction e. Qed.

(** The code is the one meant for the cause, or Internal when there is none. *)
Definition mapped (conv : error → Code) (e : error) : Prop := conv e = default CodeInternal (code_of (cause e)).

(** A mapping looks at the cause only, and knows no other error. *)
Class Converter (conv : error → Code) : Prop := {
  conv_wrap : ∀ msg e, conv (Wrap msg e) = conv e;
  conv_foreign : ∀ e, foreign e → conv e = CodeInternal;
}.

Ltac converter := split;
  [intros msg e; by rewrite !errors_Is_cause by done
  |intros e He; unfold foreign in He; rewrite !errors_Is_cause by done; by destruct (cause e)].

#[export] Instance social_converter : Converter social_toConnectError.
Proof. unfold social_toConnectError. converter. Qed.
#[export] Instance group_converter : Converter group_toConnectError.
Proof. unfold group_toConnectError. converter. Qed.
#[export] Instance chat_converter : Converter chat_toConnectError.
Proof. unfold chat_toConnectError. converter. Qed.
#[export] Instance leaderboard_converter : Converter leaderboard_toConnectError.
Proof. unfold leaderboard_toConnectError. converter. Qed.
#[export] Instance storage_converter : Converter storage_toConnectError.
Proof. unfold storage_toConnectError. converter. Qed.
#[export] Instance match_converter : Converter match_toConnectError.
Proof. unfold match_toConnectError. converter. Qed.
#[export] Instance auth_converter : Converter auth_toConnectError.
Proof. unfold auth_toConnectError. converter. Qed.

(** ** The errors an action can return *)

Create HintDb raising.

Section raising.
Context (conv : error → Code) {CV : Converter conv}.

Definition raises {S A} (m : M S A) : Prop := ∀ s e s', m s = (Err e, s') → mapped conv e.

Lemma mapped_wrap msg e : mapped conv e → mapped conv (Wrap msg e).
Proof. unfold mapped. by rewrite conv_wrap. Qed.

Lemma mapped_foreign e : foreign e → mapped conv e.
Proof. intros He. unfold mapped. by rewrite (conv_foreign e He), He. Qed.

Lemma raises_ret {S A} (a : A) : raises (mret a : M S A).
Proof. by intros s e s' [=]. Qed.

Lemma raises_gets {S A} (f : S → A) : raises (gets f).
Proof. by intros s e s' [=]. Qed.

Lemma raises_fail {S A} e : mapped conv e → raises (fail e : M S A).
Proof. intros He s e' s' [= <- <-]. done. Qed.

Lemma raises_lift {S A} (r : res A) : (∀ e, r = Err e → mapped conv e) → raises (lift_res r : M S A).
Proof. intros Hr s e s' [= -> <-]. by apply Hr. Qed.

Lemma raises_bind {S A A'} (m : M S A) (f : A → M S A') : raises m → (∀ a, raises (f a)) → raises (m ≫= f).
Proof. intros Hm Hf s e s'. rewrite M_bind_eval. destruct (m s) as [[a|e1] s1] eqn:E; [apply Hf|]. intros [= <- <-]. by eapply Hm. Qed.

Lemma raises_try {S A A'} (m : M S A) (f : res A → M S A') :
  raises m → (∀ a, raises (f (Ok a))) → (∀ e, mapped conv e → raises (f (Err e))) → raises (try m ≫= f).
Proof.
  intros Hm Hok Herr s e s'. rewrite M_bind_eval. unfold try. destruct (m s) as [[a|e1] s1] eqn:E; [apply Hok|].
  apply Herr. by eapply Hm.
Qed.

Lemma raises_try_any {S A A'} (m : M S A) (f : res A → M S A') : (∀ r, raises (f r)) → raises (try m ≫= f).
Proof. intros Hf s e s'. rewrite M_bind_eval. unfold try. destruct (m s) as [r s1]. apply Hf. Qed.

Lemma raises_ignore {S A} (m : M S A) : raises (ignore m).
Proof. by intros s e s' [=]. Qed.

Lemma raises_tolerate {S} target (m : M S unit) : raises m → raises (tolerate target m).
Proof. intros Hm s e s'. unfold tolerate. destruct (m s) as [[a|e1] s1] eqn:E; [by intros [=]|]. case_match; intros [= <- <-]. by eapply Hm. Qed.

Lemma raises_wrap {A} msg (m : M DB A) : raises m → raises (wrap msg m).
Proof. intros Hm s e s'. unfold wrap. destruct (m s) as [[a|e1] s1] eqn:E; [by intros [=]|]. intros [= <- <-]. apply mapped_wrap. by eapply Hm. Qed.

Lemma raises_RW {D A} (m : M D A) : raises m → raises (RW m).
Proof. intros Hm s e s'. rewrite RW_eval. destruct (m s) as [[a|e1] s1] eqn:E; [by intros [=]|]. intros [= <- <-]. by eapply Hm. Qed.

Lemma raises_RO {D A} (f : D → res A) : raises (λ s, (f s, s)) → raises (RO f).
Proof. done. Qed.

Lemma raises_if {S A} (b : bool) (m n : M S A) : raises m → raises n → raises (if b then m else n).
Proof. by destruct b. Qed.

Lemma raises_delete {D R} (T : table D R) q : raises (delete_where T q).
Proof. by intros s e s' [=]. Qed.

Lemma raises_update {D R} (T : table D R) q f : raises (update_where T q f).
Proof. by intros s e s' [=]. Qed.

(** The driver's errors are not the program's. *)
Lemma raises_insert {D R} (T : table D R) check unique fk r : raises (insert_row T check unique fk r).
Proof. intros s e s'. unfold insert_row. repeat case_match; intros [= <- <-]; by apply mapped_foreign. Qed.

Lemma raises_in_tx {V A} (m : M DB A) : raises m → raises (in_tx m : M (DB * V) A).
Proof. intros Hm [db v] e s'. unfold in_tx. simpl. destruct (m db) as [r db'] eqn:E. intros [= -> <-]. by eapply Hm. Qed.

Lemma raises_assign {D V} (v : V) : raises (assign v : M (D * V) unit).
Proof. by intros s e s' [=]. Qed.

Lemma raises_in_db {X A} (m : M DB A) : raises m → raises (in_db m : M (DB * X) A).
Proof. exact (raises_in_tx m). Qed.
Lemma raises_on_db {X A} (m : M DB A) : raises m → raises (on_db m : M (DB * X) A).
Proof. exact (raises_in_tx m). Qed.
Lemma raises_on_pg {X A} (m : M DB A) : raises m → raises (on_pg m : M (DB * X) A).
Proof. exact (raises_in_tx m). Qed.

Lemma raises_port {X A} (m : M X A) : raises m → raises (in_broker m : M (DB * X) A).
Proof. intros Hm [db x] e s'. unfold in_broker. simpl. destruct (m x) as [r x'] eqn:E. intros [= -> <-]. by eapply Hm. Qed.

Lemma raises_on_blobs {X A} (m : M X A) : raises m → raises (on_blobs m : M (DB * X) A).
Proof. exact (raises_port m). Qed.
End raising.

#[export] Hint Resolve raises_ret raises_gets raises_fail raises_bind raises_ignore raises_tolerate raises_wrap raises_RW raises_if
  raises_delete raises_update raises_insert raises_assign raises_in_tx raises_in_db raises_on_db raises_on_pg raises_port raises_on_blobs : raising.
#[export] Hint Extern 1 (mapped _ _) => reflexivity : raising.
#[export] Hint Extern 0 (Converter _) => apply _ : raising.

Ltac raise_all := repeat
  match goal with
  | |- raises _ (try _ ≫= _) => apply raises_try; intros
  | |- raises _ (_ ≫= _) => apply raises_bind; intros
  | |- raises _ (if _ then _ else _) => case_match
  | |- raises _ (match _ with _ => _ end) => case_match
  | |- raises _ (RW _) => apply raises_RW
  end; auto with raising.

(** ** Friends and blocks *)

Section social.
Let conv := social_toConnectError.

Lemma request_save_raises id r : raises conv (FriendRequests_Save id r).
Proof. intros db. apply (raises_insert conv). Qed.

Lemma request_delete_raises a b : raises conv (FriendRequests_Delete a b).
Proof. unfold FriendRequests_Delete. raise_all. Qed.

Lemma friendship_save_raises id f : raises conv (Friendships_Save id f).
Proof. intros db. apply (raises_insert conv). Qed.

Lemma friendship_delete_raises a b : raises conv (Friendships_Delete a b).
Proof. unfold Friendships_Delete. raise_all. Qed.

Lemma block_save_raises id b : raises conv (Blocks_Save id b).
Proof. intros db. unfold Blocks_Save. case_match; [apply (raises_ret conv)|apply (raises_insert conv)]. Qed.

#[local] Hint Resolve request_save_raises request_delete_raises friendship_save_raises friendship_delete_raises block_save_raises : raising.

Lemma send_raises id me a db r db' : SendFriendRequest id me a db = (r, db') → ∀ e, r.2 = Err e → mapped conv e.
Proof.
  unfold SendFriendRequest, RW_capture. case_match; [intros [= <- <-] e [= <-]; done|].
  assert (raises conv (SendFriendRequest_tx id me a)) as Ht.
  { unfold SendFriendRequest_tx, Blocks_IsBlocked, Friendships_Exists, FriendRequests_Exists. destruct (OrderPair me a). raise_all. }
  destruct (SendFriendRequest_tx id me a (db, false)) as [[?|e'] [db1 v]] eqn:E; intros [= <- <-] e [= <-]. by eapply Ht.
Qed.

Lemma send_reply_raises id me a : raises conv (accepted_or_error (SendFriendRequest id me a)).
Proof.
  intros db e db'. unfold accepted_or_error. destruct (SendFriendRequest id me a db) as [[acc r] db1] eqn:E.
  destruct r as [?|e']; intros [= <- <-]. by eapply send_raises.
Qed.

Lemma accept_raises id me a : raises conv (AcceptFriendRequest id me a).
Proof. unfold AcceptFriendRequest. raise_all. Qed.

Lemma block_raises id me a : raises conv (BlockPlayer id me a).
Proof. unfold BlockPlayer. raise_all. Qed.

Lemma unblock_raises me a : raises conv (UnblockPlayer me a).
Proof. unfold UnblockPlayer, Blocks_Delete. raise_all. Qed.
End social.

(** ** Groups *)

Section group.
Let conv := group_toConnectError.

Lemma find_group_raises id : raises conv (Group_Find id).
Proof. intros db e db'. unfold Group_Find, query_one. repeat case_match; intros; by simplify_eq. Qed.

Lemma group_save_raises g : raises conv (Group_Save g).
Proof. intros db. unfold Group_Save. case_match; [apply (raises_bind conv); auto with raising|apply (raises_insert conv)]. Qed.

Lemma member_save_raises id m : raises conv (GroupMembership_Save id m).
Proof. intros db. unfold GroupMembership_Save. case_match; [apply (raises_ret conv)|apply (raises_insert conv)]. Qed.

#[local] Hint Resolve find_group_raises group_save_raises member_save_raises : raising.

Lemma create_group_raises gid mid now me name : raises conv (CreateGroup gid mid now me name).
Proof.
  unfold CreateGroup. raise_all. apply (raises_lift conv). intros e. unfold NewGroup. case_match; [by intros [= <-]|done].
Qed.

Lemma delete_group_raises me g : raises conv (DeleteGroup me g).
Proof. unfold DeleteGroup, Group_Delete. raise_all. Qed.

Lemma join_raises mid now me g : raises conv (JoinGroup mid now me g).
Proof. unfold JoinGroup. raise_all. Qed.

Lemma leave_raises me g : raises conv (LeaveGroup me g).
Proof. unfold LeaveGroup, GroupMembership_Delete. raise_all. Qed.

Lemma members_raises me g : raises conv (ListMembers me g).
Proof.
  intros db e db'. unfold ListMembers, RO, GroupMembership_IsMember, gets, result. simpl.
  destruct (exists_where _ _ _); simpl; intros [= <- <-]. done.
Qed.
End group.

(** ** Chat *)

Section chat.
Context {B : Type} {BR : Broker B} (subscribe_foreign : ∀ c b e, result (br_Subscribe c b) = Err e → foreign e).
Let conv := chat_toConnectError.

Lemma message_save_raises m : raises conv (Chat_Save m).
Proof. intros db. unfold Chat_Save. destruct (Conversation _ _). apply (raises_insert conv). Qed.

Lemma channel_save_raises m : raises conv (Chat_SaveChannelMessage m).
Proof. intros db. apply (raises_insert conv). Qed.

#[local] Hint Resolve message_save_raises channel_save_raises : raising.

Lemma direct_raises id now me a body : raises conv (SendDirectMessage id now me a body : M (DB * B) Message).
Proof.
  unfold SendDirectMessage. raise_all. apply (raises_lift conv). intros e. unfold NewMessage.
  repeat case_match; intros [= <-]; done.
Qed.

Lemma channel_raises id now me g body : raises conv (SendChannelMessage id now me g body : M (DB * B) ChannelMessage).
Proof.
  unfold SendChannelMessage, GroupMembership_IsMember. raise_all.
  - apply (raises_lift conv). intros e. unfold NewChannelMessage. case_match; [by intros [= <-]|done].
  - apply (raises_in_db conv). raise_all.
Qed.

Lemma subscribe_raises me g : raises conv (SubscribeChannel me g : M (DB * B) nat).
Proof.
  unfold SubscribeChannel. raise_all.
  - apply (raises_in_db conv). by intros db e db' [=].
  - apply (raises_port conv). intros b e b' E. apply (mapped_foreign conv), (subscribe_foreign g b). unfold result. by rewrite E.
Qed.

Lemma history_raises {R} (k : R → time) rows before n e : Chat.history k rows before n = Err e → foreign e.
Proof. unfold Chat.history. repeat case_match; intros; by simplify_eq. Qed.

Lemma list_direct_raises cfg me a before n : raises conv (ListDirectMessages cfg me a before n : M (DB * B) _).
Proof.
  apply (raises_in_db conv). intros db e db' [= E <-]. unfold Chat_ListConversation in E. destruct (Conversation me a).
  destruct (Chat.history _ _ _ _) eqn:Eh; simplify_eq/=. by apply (mapped_foreign conv), (history_raises _ _ _ _ _ Eh).
Qed.

Lemma list_channel_raises cfg me g before n : raises conv (ListChannelMessages cfg me g before n : M (DB * B) _).
Proof.
  apply (raises_in_db conv). intros db e db' [= E <-]. unfold GroupMembership_IsMember, gets, result in E. simpl in E.
  destruct (exists_where _ _ _); simpl in E; [|by simplify_eq]. unfold Chat_ListChannel in E.
  destruct (Chat.history _ _ _ _) eqn:Eh; simplify_eq/=. by apply (mapped_foreign conv), (history_raises _ _ _ _ _ Eh).
Qed.
End chat.

(** ** Leaderboards: an error of the sorted set never escapes *)

Section leaderboard.
Context {V : Type} {RI : RankIndex V}.
Let conv := leaderboard_toConnectError.

Lemma lookup_raises {S} defs b : raises conv (lift_res (lookup_board defs b) : M S Leaderboard).
Proof. apply (raises_lift conv). intros e. unfold lookup_board. case_match; [done|by intros [= <-]]. Qed.

Lemma score_raises id l me s now : raises conv (Leaderboard_Submit id l me s now).
Proof.
  intros db. unfold Leaderboard_Submit. case_match; [apply (raises_bind conv); auto with raising|].
  intros e db'. destruct (insert_row _ _ _ _ _ db) as [[?|e'] db1] eqn:E; intros [= <- <-]. by eapply (raises_insert conv).
Qed.

Lemma rank_raises l me (db : DB) e : Leaderboard_RankOf l me db = Err e → mapped conv e.
Proof. unfold Leaderboard_RankOf. case_match; [by intros [= <-]|done]. Qed.

Lemma index_rank_raises l me : raises conv (repo_RankOf l me : M (DB * V) RankedEntry).
Proof.
  unfold repo_RankOf, index_leaderboard, Index_RankOf. intros w e w'. rewrite M_bind_eval. unfold try. destruct (rankViaIndex l me w) as [[?|err] w1]; [done|].
  destruct (errors_Is err ErrEntryNotFound) eqn:Ei.
  - intros [= <- <-]. rewrite errors_Is_cause in Ei by done. apply bool_decide_eq_true in Ei. unfold mapped. rewrite Ei.
    unfold conv, leaderboard_toConnectError. by rewrite !errors_Is_cause, Ei by done.
  - apply (raises_on_pg conv). intros db e' db' [= E <-]. by eapply rank_raises.
Qed.

Lemma index_top_raises l offset n : raises conv (repo_TopRanks l offset n : M (DB * V) _).
Proof.
  apply (raises_on_pg conv). intros db e db' [= E <-]. unfold Leaderboard_TopRanks in E. case_match; simplify_eq. by apply (mapped_foreign conv).
Qed.

Lemma index_RW_raises {A} (m : M (DB * V) A) : raises conv m → raises conv (repo_RW m).
Proof. intros Hm w e w'. simpl. destruct (m w) as [[?|?] [? ?]] eqn:E; intros [= <- <-]. by eapply Hm. Qed.

Lemma index_RO_raises {A} (m : M (DB * V) A) : raises conv m → raises conv (repo_RO m).
Proof. intros Hm w e w'. simpl. destruct (m w) as [? [? ?]] eqn:E; intros [= -> <-]. by eapply Hm. Qed.

#[local] Hint Resolve lookup_raises score_raises index_rank_raises index_top_raises index_RW_raises index_RO_raises : raising.

Lemma submit_raises defs id now b me s : raises conv (SubmitScore defs id now b me s : M (DB * V) _).
Proof.
  unfold SubmitScore, rankOf. raise_all. apply index_RW_raises. unfold repo_Submit, index_leaderboard, Index_Submit.
  apply raises_bind; [auto with raising|intros]. apply raises_try_any. raise_all.
Qed.

Lemma ranks_raises defs cfg b offset n : raises conv (ListRanks defs cfg b offset n : M (DB * V) _).
Proof. unfold ListRanks. raise_all. Qed.

Lemma player_rank_raises defs b me : raises conv (GetPlayerRank defs b me : M (DB * V) _).
Proof. unfold GetPlayerRank, rankOf. raise_all. Qed.

Lemma around_raises defs cfg b me radius : raises conv (ListRanksAroundPlayer defs cfg b me radius : M (DB * V) _).
Proof. unfold ListRanksAroundPlayer. raise_all. Qed.
End leaderboard.

(** ** Files *)

Section storage.
Context {S : Type} {BS : BlobStore S} {U : UuidCodec} {C : Collation} (cfg : StorageConfig).
Context (sign_foreign : ∀ k ttl b e, result (SignUpload k ttl b) = Err e ∨ result (SignDownload k ttl b) = Err e → foreign e).
Context (stat_foreign : ∀ k b e, result (Stat k b) = Err e → foreign e).
Let conv := storage_toConnectError.

Lemma filename_raises {T} f : raises conv (lift_res (ValidateFilename f) : M T unit).
Proof. apply (raises_lift conv). intros e. unfold ValidateFilename. repeat case_match; intros; by simplify_eq. Qed.

Lemma size_raises {T} n : raises conv (lift_res (ValidateSize n) : M T unit).
Proof. apply (raises_lift conv). intros e. unfold ValidateSize. case_match; intros; by simplify_eq. Qed.

Lemma new_file_raises {T} f n h t : raises conv (lift_res (NewFile f n h t) : M T File).
Proof.
  apply (raises_lift conv). intros e. unfold NewFile. destruct (ValidateFilename f) eqn:E1; simpl.
  - destruct (ValidateSize n) eqn:E2; simpl; intros [= <-]. by apply (size_raises n tt _ tt); unfold lift_res; rewrite E2.
  - intros [= <-]. by apply (filename_raises f tt _ tt); unfold lift_res; rewrite E1.
Qed.

Lemma get_file_raises o f : raises conv (PlayerFile_GetFile o f).
Proof.
  intros db e db'. unfold PlayerFile_GetFile. rewrite M_bind_eval. unfold no_rows_as, query_one.
  repeat case_match; intros; by simplify_eq/=.
Qed.

Lemma get_title_raises f : raises conv (TitleFile_GetFile f).
Proof.
  intros db e db'. unfold TitleFile_GetFile. rewrite M_bind_eval. unfold no_rows_as, query_one.
  repeat case_match; intros; by simplify_eq/=.
Qed.

Lemma usage_raises o : raises conv (PlayerFile_Usage o).
Proof. intros db e db'. unfold PlayerFile_Usage. case_match; intros; simplify_eq. by apply (mapped_foreign conv). Qed.

Lemma file_save_raises id o f : raises conv (PlayerFile_SaveFile id o f).
Proof. intros db. unfold PlayerFile_SaveFile. case_match; [apply (raises_bind conv); auto with raising|apply (raises_insert conv)]. Qed.

#[local] Hint Resolve filename_raises size_raises new_file_raises get_file_raises get_title_raises usage_raises file_save_raises : raising.

Lemma quota_raises o f n : raises conv (checkQuota cfg o f n).
Proof. unfold checkQuota. raise_all. Qed.

#[local] Hint Resolve quota_raises : raising.

(** A read-only transaction fails as the action it runs. *)
Lemma read_raises {A} (m : M DB A) : raises conv m → raises conv (on_db (RO (λ db, result (m db))) : M (DB * S) A).
Proof.
  intros Hm. apply (raises_on_db conv). intros db e db' [= E <-]. destruct (m db) as [r db1] eqn:Em. simpl in E. subst. by eapply Hm.
Qed.

Lemma sign_download_raises k ttl : raises conv (SignDownload k ttl : M S SignedURL).
Proof. intros b e b' E. apply (mapped_foreign conv), (sign_foreign k ttl b). right. unfold result. by rewrite E. Qed.

Lemma sign_upload_raises k ttl : raises conv (SignUpload k ttl : M S SignedURL).
Proof. intros b e b' E. apply (mapped_foreign conv), (sign_foreign k ttl b). left. unfold result. by rewrite E. Qed.

#[local] Hint Resolve read_raises sign_download_raises sign_upload_raises : raising.

Lemma read_file_raises o f : raises conv (ReadPlayerFile cfg o f : M (DB * S) _).
Proof. unfold ReadPlayerFile. raise_all. Qed.

Lemma write_file_raises o f n : raises conv (WritePlayerFile cfg o f n : M (DB * S) _).
Proof. unfold WritePlayerFile. raise_all. Qed.

Lemma commit_raises id now o f : raises conv (CommitPlayerFile cfg id now o f : M (DB * S) _).
Proof.
  unfold CommitPlayerFile. apply (raises_bind conv); [auto with raising|intros _]. intros [db b] e w'. rewrite M_bind_eval.
  unfold try, on_blobs. simpl. destruct (Stat _ b) as [[attrs|err] b'] eqn:E.
  - simpl. set (m := _ ≫= _). assert (raises conv m) as Hm by (subst m; raise_all). apply Hm.
  - intros [= <- <-]. case_match; [done|]. apply (mapped_foreign conv), (stat_foreign (playerKey cfg o f) b). unfold result. by rewrite E.
Qed.

Lemma delete_file_raises o f : raises conv (DeletePlayerFile cfg o f : M (DB * S) _).
Proof. unfold DeletePlayerFile, PlayerFile_DeleteFile. raise_all. Qed.

Lemma read_title_raises f : raises conv (ReadTitleFile cfg f : M (DB * S) _).
Proof. unfold ReadTitleFile. raise_all. Qed.
End storage.

(** ** Tickets: the panics of the queue's channels (which never happen) are not the program's errors *)

Section matching.
Context {U : UuidCodec} {R : RangeOrder}.
Let conv := match_toConnectError.

Lemma for_each_raises {S A} (f : A → M S unit) l : (∀ x, raises conv (f x)) → raises conv (for_each f l).
Proof. intros Hf. induction l; cbn [for_each]; raise_all. Qed.

Lemma modify_raises {S} (f : S → S) : raises conv (modify f).
Proof. by intros s e s' [=]. Qed.

Lemma send_raises_foreign c ev : raises conv (chan_trySend c ev).
Proof. intros q e q'. unfold chan_trySend. repeat case_match; intros; simplify_eq; by apply (mapped_foreign conv). Qed.

Lemma close_raises c : raises conv (chan_close c).
Proof. intros q e q'. unfold chan_close. repeat case_match; intros; simplify_eq; by apply (mapped_foreign conv). Qed.

#[local] Hint Resolve for_each_raises modify_raises send_raises_foreign close_raises : raising.

Lemma publish_raises id ev : raises conv (publishLocked id ev).
Proof.
  intros q. unfold publishLocked. case_match; [|intros e q' [= <- <-]; by apply (mapped_foreign conv)].
  match goal with |- ∀ e s', ?m q = _ → _ => assert (raises conv m) as Hm; [|apply Hm] end.
  unfold when. raise_all.
Qed.

Lemma cancel_raises id : raises conv (CancelTicket id).
Proof.
  intros q. unfold CancelTicket, Cancel. case_match; [|by intros e q' [= <- <-]]. case_match; [done|apply publish_raises].
Qed.

Lemma watch_raises id : raises conv (WatchTicket id).
Proof. intros q e q'. unfold WatchTicket, Subscribe. repeat case_match; intros; by simplify_eq. Qed.

Lemma create_raises n id now input : in_PlayerID input <> uuid_Nil → in_GameMode input <> "" →
  raises conv (CreateTicket n id now input).
Proof.
  intros Hp Hg. unfold CreateTicket. raise_all.
  - apply (raises_lift conv). intros e. unfold buildTicket, NewTicket. rewrite !bool_decide_eq_false_2 by done. simpl.
    case_match; intros; by simplify_eq.
  - intros q e q'. unfold Enqueue. case_match; by intros [=].
Qed.
End matching.

(** ** Accounts *)

Section accounts.
Context {TI : TokenIssuer} {OV : OIDCVerifier} (cfg : AuthConfig).
Context (sign_access_foreign : ∀ p now ttl e, Auth.SignAccess p now ttl = Err e → foreign e).
Let conv := auth_toConnectError.

Lemma get_player_raises id : raises conv (Player_GetByID id).
Proof. intros db e db'. unfold Player_GetByID, query_one. repeat case_match; intros; by simplify_eq. Qed.

Lemma find_identity_raises a b : raises conv (Identity_Find a b).
Proof. intros db e db'. unfold Identity_Find, query_one. repeat case_match; intros; by simplify_eq. Qed.

Lemma find_token_raises h now : raises conv (RefreshToken_FindByHash h now).
Proof. intros db e db'. unfold RefreshToken_FindByHash, query_one. repeat case_match; intros; by simplify_eq. Qed.

Lemma player_save_raises p : raises conv (Player_Save p).
Proof.
  intros db. unfold Player_Save. case_match; [intros e db' [= <- <-]; by apply (mapped_foreign conv)|].
  case_match; [apply (raises_bind conv); auto with raising|apply (raises_insert conv)].
Qed.

Lemma identity_save_raises i : raises conv (Identity_Save i).
Proof.
  intros db e db'. unfold Identity_Save. destruct (insert_row _ _ _ _ _ db) as [[?|e1] db1] eqn:E; intros; simplify_eq.
  case_match; [done|]. by eapply (raises_insert conv).
Qed.

Lemma token_create_raises rt : raises conv (RefreshToken_Create rt).
Proof. intros db. apply (raises_insert conv). Qed.

Lemma revoke_raises id now : raises conv (RefreshToken_Revoke id now).
Proof. unfold RefreshToken_Revoke. raise_all. Qed.

#[local] Hint Resolve get_player_raises find_identity_raises find_token_raises player_save_raises identity_save_raises
  token_create_raises revoke_raises : raising.

Lemma nickname_raises {S A} (r : res A) n :
  (∀ e, r = Err e → validateNickname n = Err e) → raises conv (lift_res r : M S A).
Proof. intros Hr. apply (raises_lift conv). intros e H%Hr. unfold validateNickname in H. repeat case_match; by simplify_eq. Qed.

Lemma issue_raises fr p now : (∀ e, f_refresh fr = Err e → foreign e) → raises conv (issueTokens cfg fr p now).
Proof.
  intros Hf. unfold issueTokens. raise_all.
  - apply (raises_lift conv). intros e He. by eapply (mapped_foreign conv), sign_access_foreign.
  - apply (raises_lift conv). intros e He. by apply (mapped_foreign conv), Hf.
Qed.

Lemma create_raises_account fr provider uid n now : raises conv (createWithIdentity fr provider uid n now).
Proof.
  unfold createWithIdentity. raise_all. apply (nickname_raises _ n). intros e. unfold NewPlayer. destruct (validateNickname n) as [[]|]; simpl; congruence.
Qed.

Lemma interleave_raises f : raises conv (interleave f).
Proof. by intros s e s' [=]. Qed.

#[local] Hint Resolve issue_raises create_raises_account interleave_raises : raising.

Lemma login_tx_raises {A} (fn : nat → Tx A) : (∀ k, raises conv (fn k)) → raises conv (runLoginTx fn).
Proof.
  assert (Hs : ∀ f : Tx A, raises conv f → raises conv (RW_shared f)).
  { intros f Hf db e db'. unfold RW_shared. destruct (f (db, db)) as [[?|?] [? ?]] eqn:E; intros; simplify_eq. by eapply Hf. }
  intros Hfn db e db'. unfold runLoginTx. destruct (RW_shared (fn 0%nat) db) as [[a|e1] db1] eqn:E; [by intros [=]|].
  case_match; [apply (Hs _ (Hfn 1%nat))|]. intros [= <- <-]. by eapply (Hs _ (Hfn 0%nat)).
Qed.

Lemma login_raises fr others now dev n : (∀ k e, f_refresh (fr k) = Err e → foreign e) →
  raises conv (LoginAnonymous cfg fr others now dev n).
Proof.
  intros Hf. unfold LoginAnonymous. apply login_tx_raises. intros k. pose proof (Hf k).
  unfold findOrCreatePlayer. raise_all.
Qed.

Lemma oidc_raises fr others now provider tok : (∀ k e, f_refresh (fr k) = Err e → foreign e) →
  raises conv (LoginOIDC cfg fr others now provider tok).
Proof.
  intros Hf. unfold LoginOIDC. case_match; [|auto with raising]. apply login_tx_raises. intros k. pose proof (Hf k).
  unfold findOrCreateByIdentity. raise_all.
Qed.

Lemma link_raises id me provider tok : raises conv (LinkIdentity id me provider tok).
Proof. unfold LinkIdentity. raise_all. Qed.

Lemma refresh_raises fr now raw : (∀ e, f_refresh fr = Err e → foreign e) → raises conv (Refresh cfg fr now raw).
Proof. intros Hf. unfold Refresh. raise_all. Qed.

Lemma logout_raises now me : raises conv (Logout now me).
Proof. unfold Logout, RefreshToken_RevokeAllForPlayer. raise_all. Qed.

Lemma profile_raises me n : raises conv (UpdateProfile me n).
Proof.
  unfold UpdateProfile. raise_all.
  match goal with |- raises _ (lift_res (SetNickname _ ?n)) => apply (nickname_raises _ n) end. intros e. unfold SetNickname.
  destruct (validateNickname _) as [[]|]; simpl; congruence.
Qed.
End accounts.

(** ** The codes of the gateway *)

(** The ports fail with errors of their own, not with the program's. *)
Class PortErrors {B S V : Type} (BR : Broker B) (BS : BlobStore S) (TI : TokenIssuer) : Prop := {
  subscribe_foreign : ∀ c (b : B) e, result (br_Subscribe c b) = Err e → foreign e;
  sign_foreign : ∀ k ttl (b : S) e, result (SignUpload k ttl b) = Err e ∨ result (SignDownload k ttl b) = Err e → foreign e;
  stat_foreign : ∀ k (b : S) e, result (Stat k b) = Err e → foreign e;
  sign_access_foreign : ∀ p now ttl e, Auth.SignAccess p now ttl = Err e → foreign e;
}.

Section codes.
Context {U : UuidCodec} {R : RangeOrder} {C : Collation}.
Context {B S V : Type} {BR : Broker B} {BS : BlobStore S} {RI : RankIndex V} {TI : TokenIssuer} {OV : OIDCVerifier}.
Context {PE : PortErrors (V := V) BR BS TI} (cfg : GatewayConfig).

Definition right_code (c : Code) (e : error) : Prop :=
  match code_of (cause e) with
  | Some meant => c = meant
  | None => c ∈ [CodeInternal; CodeUnauthenticated; CodeInvalidArgument]
  end.

Definition coded {A} (m : Rpc (B := B) (S := S) (V := V) A) : Prop := ∀ w c e w', m w = (Fault c e, w') → right_code c e.

Lemma coded_ret {A} (a : A) : coded (mret a).
Proof. by intros w c e w' [=]. Qed.

Lemma coded_fault {A} c msg : c ∈ [CodeInternal; CodeUnauthenticated; CodeInvalidArgument] → coded (fault c (ErrText msg) : Rpc A).
Proof. intros Hc w c' e w' [= <- <- _]. exact Hc. Qed.

Lemma coded_bind {A A'} (m : Rpc A) (f : A → Rpc A') : coded m → (∀ a, coded (f a)) → coded (m ≫= f).
Proof.
  intros Hm Hf w c e w'. unfold mbind, Rpc_bind. destruct (m w) as [[a|c1 e1] w1] eqn:E; [apply Hf|]. intros [= <- <- _]. by eapply Hm.
Qed.

Lemma coded_call {T A} conv get set (m : M T A) : raises conv m → coded (call conv get set m : Rpc A).
Proof.
  intros Hm w c e w'. unfold call. destruct (m (get w)) as [[a|e1] t] eqn:E; [done|]. intros [= <- <- _].
  unfold right_code. rewrite (Hm _ _ _ E). destruct (code_of (cause e1)); [done|left].
Qed.

Lemma coded_parse what s : coded (parseID what s).
Proof. unfold parseID. case_match; [apply coded_ret|apply coded_fault; set_solver]. Qed.

Lemma coded_auth ctx : coded (requireAuth ctx).
Proof. destruct ctx; [apply coded_ret|apply coded_fault; set_solver]. Qed.

Lemma coded_members l : coded (parsePartyMembers l).
Proof. induction l; cbn [parsePartyMembers]; [apply coded_ret|]. apply coded_bind; [apply coded_parse|intros]. apply coded_bind; [done|intros; apply coded_ret]. Qed.

Lemma coded_provider p : coded (toProvider p).
Proof. destruct p; [apply coded_ret..|apply coded_fault; set_solver]. Qed.

(** A usecase that cannot fail. *)
Lemma total_raises {T A} conv (f : T → res A) : (∀ s, is_ok (f s) = true) → raises conv (RO f).
Proof. intros Hf s e s' [= E <-]. specialize (Hf s). by rewrite E in Hf. Qed.

#[local] Hint Resolve coded_ret coded_bind coded_parse coded_auth coded_members coded_provider : raising.
#[local] Hint Resolve send_reply_raises accept_raises block_raises unblock_raises create_group_raises delete_group_raises join_raises
  leave_raises members_raises direct_raises channel_raises subscribe_raises list_direct_raises list_channel_raises submit_raises
  ranks_raises player_rank_raises around_raises read_file_raises write_file_raises commit_raises delete_file_raises read_title_raises
  cancel_raises watch_raises login_raises oidc_raises link_raises refresh_raises logout_raises profile_raises
  request_delete_raises friendship_delete_raises subscribe_foreign sign_foreign stat_foreign sign_access_foreign : raising.

Ltac code_all := repeat
  match goal with
  | |- coded (requireAuth None ≫= _) => apply (coded_fault (A := _)); set_solver
  | |- coded (requireAuth (Some ?p) ≫= ?f) => change (coded (f p)); cbv beta
  | |- coded (_ ≫= _) => apply coded_bind; [|intros]
  | |- coded (if _ then _ else _) => case_match
  | |- coded (match _ with _ => _ end) => case_match
  | |- coded (fault _ _) => apply coded_fault; set_solver
  | |- coded (call_db _ _) => apply coded_call
  | |- coded (call_chat _) => apply coded_call
  | |- coded (call_rank _) => apply coded_call
  | |- coded (call_storage _) => apply coded_call
  | |- coded (call_queue _) => apply coded_call
  | |- coded (call_assignments _) => apply coded_call
  end; eauto with raising.

Lemma current_raises now me : raises match_toConnectError (GetCurrentMatch now me).
Proof. intros s e s'. unfold GetCurrentMatch, Get. repeat case_match; by intros [=]. Qed.

#[local] Hint Resolve current_raises : raising.

Lemma serve_coded {A} ctx dr (rq : request A) : ctx <> Some uuid_Nil → (∀ k e, f_refresh (d_fresh dr k) = Err e → foreign e) →
  coded (serve cfg ctx dr rq).
Proof.
  intros Hctx Hfr. destruct ctx as [p|], rq; cbn [serve]; autounfold with handlers; code_all. all: try apply create_raises; try naive_solver.
Qed.
End codes.

(** ** A failed request leaves the database as it was *)

Create HintDb atomicity.

Section atomic.
Context {S : Type} (get : S → DB).

(** The action never writes, and it does not write when it fails. *)
Definition reads {A} (m : M S A) : Prop := ∀ s, get (m s).2 = get s.
Definition atomic {A} (m : M S A) : Prop := ∀ s e s', m s = (Err e, s') → get s' = get s.

Lemma reads_ret {A} (a : A) : reads (mret a).
Proof. done. Qed.
Lemma reads_fail {A} e : reads (fail e : M S A).
Proof. done. Qed.
Lemma reads_gets {A} (f : S → A) : reads (gets f).
Proof. done. Qed.
Lemma reads_lift {A} (r : res A) : reads (lift_res r).
Proof. done. Qed.

Lemma reads_bind {A A'} (m : M S A) (f : A → M S A') : reads m → (∀ a, reads (f a)) → reads (m ≫= f).
Proof. intros Hm Hf s. rewrite M_bind_eval. specialize (Hm s). destruct (m s) as [[a|e] s1]; [|done]. by rewrite (Hf a s1). Qed.

Lemma reads_try {A} (m : M S A) : reads m → reads (try m).
Proof. intros Hm s. specialize (Hm s). unfold try. by destruct (m s). Qed.

Lemma atomic_reads {A} (m : M S A) : reads m → atomic m.
Proof. intros Hm s e s' E. specialize (Hm s). by rewrite E in Hm. Qed.

Lemma atomic_after {A A'} (m : M S A) (f : A → M S A') : reads m → (∀ a, atomic (f a)) → atomic (m ≫= f).
Proof.
  intros Hm Hf s e s'. rewrite M_bind_eval. specialize (Hm s). destruct (m s) as [[a|e1] s1]; simpl in Hm.
  - intros E. by rewrite (Hf a s1 e s' E).
  - by intros [= <- <-].
Qed.

(** What follows the last write cannot fail. *)
Lemma atomic_before {A A'} (m : M S A) (f : A → M S A') : atomic m → (∀ a s, is_ok (f a s).1 = true) → atomic (m ≫= f).
Proof.
  intros Hm Hf s e s'. rewrite M_bind_eval. destruct (m s) as [[a|e1] s1] eqn:E.
  - intros E'. specialize (Hf a s1). by rewrite E' in Hf.
  - intros [= <- <-]. by eapply Hm.
Qed.

Lemma atomic_if {A} (b : bool) (m n : M S A) : atomic m → atomic n → atomic (if b then m else n).
Proof. by destruct b. Qed.
End atomic.

Lemma atomic_RW {A} (m : M DB A) : atomic whole (RW m).
Proof. intros db e db'. rewrite RW_eval. destruct (m db) as [[?|?] ?]; by intros [= <- <-]. Qed.

Lemma reads_RO {A} (f : DB → res A) : reads whole (RO f).
Proof. done. Qed.

Lemma atomic_in_db {X A} (m : M DB A) : atomic whole m → atomic fst (in_db m : M (DB * X) A).
Proof. intros Hm [db x] e s'. unfold in_db. simpl. destruct (m db) as [r db1] eqn:E. intros [= -> <-]. by eapply Hm. Qed.
Lemma atomic_on_db {X A} (m : M DB A) : atomic whole m → atomic fst (on_db m : M (DB * X) A).
Proof. exact (atomic_in_db m). Qed.

Lemma reads_in_db {X A} (m : M DB A) : reads whole m → reads fst (in_db m : M (DB * X) A).
Proof. intros Hm [db x]. specialize (Hm db). unfold in_db. simpl. by destruct (m db). Qed.
Lemma reads_on_db {X A} (m : M DB A) : reads whole m → reads fst (on_db m : M (DB * X) A).
Proof. exact (reads_in_db m). Qed.

Lemma reads_in_broker {X A} (m : M X A) : reads fst (in_broker m).
Proof. intros [db x]. unfold in_broker. simpl. by destruct (m x). Qed.
Lemma reads_on_blobs {X A} (m : M X A) : reads fst (on_blobs m).
Proof. exact (reads_in_broker m). Qed.

Lemma reads_index_RO {V A} {RI : RankIndex V} (m : M (DB * V) A) : reads fst (repo_RO m).
Proof. intros w. simpl. by destruct (m w) as [? [? ?]]. Qed.

#[export] Hint Resolve reads_ret reads_fail reads_gets reads_lift reads_try atomic_RW reads_RO atomic_in_db atomic_on_db
  reads_in_db reads_on_db reads_in_broker reads_on_blobs reads_index_RO : atomicity.

Ltac atomic_all := repeat
  match goal with
  | |- atomic _ (RW _) => apply atomic_RW
  | |- atomic _ (RO _) => apply atomic_reads, reads_RO
  | |- atomic _ (if _ then _ else _) => case_match
  | |- atomic _ (match _ with _ => _ end) => case_match
  | |- atomic _ (_ ≫= _) => apply atomic_after; [solve [auto with atomicity]|intros]
  | |- atomic _ (_ ≫= _) => apply atomic_before; [|by intros; unfold ignore; repeat case_match]
  | |- reads _ (_ ≫= _) => apply reads_bind; [|intros]
  | |- reads _ (if _ then _ else _) => case_match
  | |- reads _ (match _ with _ => _ end) => case_match
  end; auto using atomic_reads with atomicity.

(** *** Logins that no other transaction overtakes *)

Section logins.
Context {TI : TokenIssuer} {OV : OIDCVerifier} (cfg : AuthConfig).

Lemma in_tx_commits {A} (m : M DB A) : reads snd (in_tx m).
Proof. intros [db1 db2]. unfold in_tx. simpl. by destruct (m db1). Qed.

Lemma login_tx_atomic {A} (fn : nat → Tx A) : (∀ k, reads snd (fn k)) → atomic whole (runLoginTx fn).
Proof.
  assert (Hs : ∀ f : Tx A, reads snd f → atomic whole (RW_shared f)).
  { intros f Hf db e db'. specialize (Hf (db, db)). unfold RW_shared. destruct (f (db, db)) as [[?|?] [? ?]]; by intros [= <- <-]. }
  intros Hfn db e db'. unfold runLoginTx. destruct (RW_shared (fn 0%nat) db) as [[a|e1] db1] eqn:E; [by intros [=]|].
  apply (Hs _ (Hfn 0%nat)) in E. unfold whole in E. subst db1. case_match; [apply (Hs _ (Hfn 1%nat))|]. by intros [= <- <-].
Qed.

Lemma interleave_commits f : (∀ db, f db = db) → reads snd (interleave f).
Proof. intros Hf s. apply Hf. Qed.

#[local] Hint Resolve in_tx_commits interleave_commits : atomicity.

Lemma login_atomic fr others now dev n : (∀ k db, others k db = db) → atomic whole (LoginAnonymous cfg fr others now dev n).
Proof.
  intros Ho. apply login_tx_atomic. intros k. pose proof (Ho k). unfold findOrCreatePlayer. atomic_all.
Qed.

Lemma oidc_atomic fr others now provider tok : (∀ k db, others k db = db) → atomic whole (LoginOIDC cfg fr others now provider tok).
Proof.
  intros Ho. unfold LoginOIDC. destruct (Auth.Verify provider tok) as [vi|]; [|by apply atomic_reads]. apply login_tx_atomic. intros k. pose proof (Ho k).
  unfold findOrCreateByIdentity. atomic_all.
Qed.
End logins.

Lemma send_atomic id me a : atomic whole (accepted_or_error (SendFriendRequest id me a)).
Proof.
  intros db e db'. unfold accepted_or_error, SendFriendRequest, RW_capture. case_bool_decide; [by intros [= <- <-]|].
  destruct (SendFriendRequest_tx _ _ _ _) as [[?|?] [? ?]]; by intros [= <- <-].
Qed.

(** *** The handlers *)

Section settled.
Context {U : UuidCodec} {R : RangeOrder} {C : Collation}.
Context {B S V : Type} {BR : Broker B} {BS : BlobStore S} {RI : RankIndex V} {TI : TokenIssuer} {OV : OIDCVerifier}.
Context (cfg : GatewayConfig).

Definition settled {A} (m : Rpc (B := B) (S := S) (V := V) A) : Prop := ∀ w c e w', m w = (Fault c e, w') → w_db w' = w_db w.

Lemma settled_ret {A} (a : A) : settled (mret a).
Proof. by intros w c e w' [=]. Qed.

Lemma settled_after {A A'} (m : Rpc A) (f : A → Rpc A') : inert m → (∀ a, settled (f a)) → settled (m ≫= f).
Proof.
  intros Hm Hf w c e w'. specialize (Hm w). unfold mbind, Rpc_bind. destruct (m w) as [[a|c1 e1] w1]; simpl in Hm; subst; [apply Hf|].
  by intros [= <- <- <-].
Qed.

(** After the usecase a handler only converts. *)
Lemma settled_before {A A'} (m : Rpc A) (f : A → A') : settled m → settled (m ≫= λ a, mret (f a)).
Proof.
  intros Hm w c e w'. unfold mbind, Rpc_bind. destruct (m w) as [[a|c1 e1] w1] eqn:E; [done|]. intros [= <- <- <-]. by eapply Hm.
Qed.

Lemma settled_inert {A} (m : Rpc A) : inert m → settled m.
Proof. intros Hm w c e w' E. specialize (Hm w). by rewrite E in Hm; simpl in Hm; subst. Qed.

Lemma settled_db {A} conv (m : M DB A) : atomic whole m → settled (call_db conv m).
Proof. intros Hm w c e w'. unfold call_db, call. destruct (m (w_db w)) as [[?|?] ?] eqn:E; [done|]. intros [= <- <- <-]. by eapply Hm in E. Qed.

Lemma settled_chat {A} (m : M (DB * B) A) : atomic fst m → settled (call_chat m).
Proof. intros Hm w c e w'. unfold call_chat, call. destruct (m _) as [[?|?] ?] eqn:E; [done|]. intros [= <- <- <-]. by eapply Hm in E. Qed.

Lemma settled_storage {A} (m : M (DB * S) A) : atomic fst m → settled (call_storage m).
Proof. intros Hm w c e w'. unfold call_storage, call. destruct (m _) as [[?|?] ?] eqn:E; [done|]. intros [= <- <- <-]. by eapply Hm in E. Qed.

Lemma settled_rank {A} (m : M (DB * V) A) : atomic fst m → settled (call_rank m).
Proof. intros Hm w c e w'. unfold call_rank, call. destruct (m _) as [[?|?] ?] eqn:E; [done|]. intros [= <- <- <-]. by eapply Hm in E. Qed.

Lemma settled_queue {A} (m : M InMem A) : settled (call_queue m).
Proof. intros w c e w'. unfold call_queue, call. destruct (m _) as [[?|?] ?]; [done|]. by intros [= <- <- <-]. Qed.

Lemma settled_assignments {A} (m : M entries A) : settled (call_assignments m).
Proof. intros w c e w'. unfold call_assignments, call. destruct (m _) as [[?|?] ?]; [done|]. by intros [= <- <- <-]. Qed.

Definition undisturbed {A} (dr : Draw) (rq : request A) : Prop :=
  match rq with
  | RqLogin _ => ∀ k db, d_others dr k db = db
  | RqSubmitScore _ _ => False
  | _ => True
  end.

#[local] Hint Unfold AcceptFriendRequest DeclineFriendRequest CancelFriendRequest ListFriends ListIncomingRequests ListOutgoingRequests
  RemoveFriend BlockPlayer UnblockPlayer ListBlocked CreateGroup DeleteGroup JoinGroup LeaveGroup ListMyGroups ListMembers
  SendDirectMessage SendChannelMessage ListDirectMessages ListChannelMessages SubscribeChannel ListRanks
  GetPlayerRank ListRanksAroundPlayer rankOf QueryPlayerFiles ReadPlayerFile WritePlayerFile CommitPlayerFile DeletePlayerFile
  QueryTitleFiles ReadTitleFile LinkIdentity Refresh Logout UpdateProfile : usecases.

Ltac settle := repeat
  match goal with
  | |- settled (requireAuth _ ≫= _) => apply settled_after; [apply inert_auth|intros]
  | |- settled (parseID _ _ ≫= _) => apply settled_after; [apply inert_parse|intros]
  | |- settled (parsePlayerID _ ≫= _) => apply settled_after; [apply inert_parse|intros]
  | |- settled (parseGroupID _ ≫= _) => apply settled_after; [apply inert_parse|intros]
  | |- settled (parseChannelID _ ≫= _) => apply settled_after; [apply inert_parse|intros]
  | |- settled (parseTicketID _ ≫= _) => apply settled_after; [apply inert_parse|intros]
  | |- settled (parsePartyMembers _ ≫= _) => apply settled_after; [apply inert_members|intros]
  | |- settled (toProvider _ ≫= _) => apply settled_after; [apply inert_provider|intros]
  | |- settled ((if _ then mret _ else parseID _ _) ≫= _) => apply settled_after; [case_match; [apply inert_ret|apply inert_parse]|intros]
  | |- settled (_ ≫= _) => apply settled_before
  | |- settled (if _ then _ else _) => case_match
  | |- settled (match _ with _ => _ end) => case_match
  | |- settled (fault _ _) => apply settled_inert, inert_fault
  | |- settled (call_db _ _) => apply settled_db
  | |- settled (call_chat _) => apply settled_chat
  | |- settled (call_storage _) => apply settled_storage
  | |- settled (call_rank _) => apply settled_rank
  | |- settled (call_queue _) => apply settled_queue
  | |- settled (call_assignments _) => apply settled_assignments
  end.

Lemma serve_settled {A} ctx dr (rq : request A) : undisturbed dr rq → settled (serve cfg ctx dr rq).
Proof.
  intros Hq. destruct rq; try done; cbn [serve]; autounfold with handlers; settle.
  all: first [apply send_atomic | apply login_atomic, Hq | apply oidc_atomic, Hq | autounfold with usecases; atomic_all].
Qed.
End settled.

(** ** The claims *)

Section claims.
Context {U : UuidCodec} {R : RangeOrder} {C : Collation} {J : Jwt}.
Context {B S V : Type} {BR : Broker B} {BS : BlobStore S} {RI : RankIndex V} {TI : TokenIssuer} {OV : OIDCVerifier}.
Context (cfg : GatewayConfig) (secret : string).

(** C31: The Connect code of a failed request, whatever the procedure and however often the error was
    wrapped on its way, is the one code meant for the sentinel at its root; Internal is answered
    only for errors that are not the program's own (and Unauthenticated and InvalidArgument else
    only for the handlers' own checks).  The ports fail with errors of their own, and no token is
    issued to the nil player. *)
Theorem gateway_error_codes {PE : PortErrors (V := V) BR BS TI} {A} header dr (rq : request A) (w : World B S V) c err w' :
  (∀ k e, f_refresh (d_fresh dr k) = Err e → foreign e) →
  populate secret (d_now dr) header <> Some uuid_Nil →
  handle cfg secret header dr rq w = (Fault c err, w') →
  match code_of (cause err) with
  | Some meant => c = meant
  | None => c ∈ [CodeInternal; CodeUnauthenticated; CodeInvalidArgument]
  end.
Proof. intros Hf Hp E. by eapply serve_coded in E. Qed.

(** C32: A request that is answered with a fault has changed nothing in the database, on any path and
    at any step it can fail: every procedure writes in one transaction that is its last fallible
    step.  This holds of every procedure but SubmitScore, which reads the new rank after it has
    saved the score; of a login, when no other transaction commits while it runs. *)
Theorem gateway_faults_keep_database {A} header dr (rq : request A) (w : World B S V) c err w' :
  undisturbed dr rq →
  handle cfg secret header dr rq w = (Fault c err, w') → w_db w' = w_db w.
Proof. intros Hq E. by eapply serve_settled in E. Qed.
End claims.

Lemma demo_ports : PortErrors (V := unit) hub_broker mem_blobs demo_issuer.
Proof.
  split.
  - by intros c b e [=].
  - by intros k ttl b e [[=]|[=]].
  - intros k b e. unfold Stat, mem_blobs, result. case_match; by intros [= <-].
  - by intros p now ttl e [=].
Qed.

(** Player 01 asks for the deletion of player 02's group. *)
Lemma gateway_error_codes_witness :
  demo_handle "Bearer k0" (RqDeleteGroup (hex_String (sample_uuid x52))) = (Fault CodePermissionDenied ErrNotOwner, demo_gateway_world) ∧
  match code_of (cause ErrNotOwner) with Some meant => CodePermissionDenied = meant | None => False end.
Proof.
  assert (E : demo_handle "Bearer k0" (RqDeleteGroup (hex_String (sample_uuid x52))) = (Fault CodePermissionDenied ErrNotOwner, demo_gateway_world))
    by (vm_compute; reflexivity).
  split; [exact E|].
  refine (gateway_error_codes (U := hex_codec) (R := range_id) (C := str_ltb) (J := list_jwt demo_claims) (PE := demo_ports) (RI := down) (OV := demo_verifier)
    demo_gateway "k" "Bearer k0" demo_draw (RqDeleteGroup (hex_String (sample_uuid x52))) demo_gateway_world
    CodePermissionDenied ErrNotOwner demo_gateway_world _ _ E).
  - intros k e. by destruct k as [|[|k]].
  - vm_compute. discriminate.
Defined.

Lemma gateway_faults_keep_database_witness :
  ∃ c err w', demo_handle "Bearer k0" (RqBlockPlayer (hex_String (sample_uuid x01))) = (Fault c err, w') ∧ w_db w' = demo_gateway_db.
Proof.
  destruct (demo_handle "Bearer k0" (RqBlockPlayer (hex_String (sample_uuid x01)))) as [[a|c err] w'] eqn:E; [exfalso; revert E; vm_compute; discriminate|].
  exists c, err, w'. split; [reflexivity|].
  exact (gateway_faults_keep_database (U := hex_codec) (R := range_id) (C := str_ltb) (BR := hub_broker) (BS := mem_blobs) (RI := down)
    (TI := demo_issuer) (OV := demo_verifier) (J := list_jwt demo_claims) demo_gateway "k" "Bearer k0" demo_draw
    (RqBlockPlayer (hex_String (sample_uuid x01))) demo_gateway_world c err w' I E).
Defined.
