(* ===== verification/Interceptors.v ===== *)
(** * The interceptor chain (infra/connectrpc/interceptor, infra/connectrpc/authctx, stdx/clock, gateway/server.go)

    Every procedure runs behind three interceptors: [Metrics] counts its outcome, [Clock] attaches the
    time to the context, [Auth] the player of the access token.  [chain_is_handle] is why the rest of
    the development can take [Gateway.handle] for a request; [requests_accounted] is what the
    counters say after any number of them. *)

From S2P Require Import Prelude GoBase GoStrings Database Match MatchQueue AssignmentStore Matchmaker.
From S2P Require Import Social Storage Group Chat Leaderboard Auth Token Gateway.

(** ** The request context *)

Record Context := mkContext { cx_now : option time; cx_player : option uuid }.
Definition Background : Context := mkContext None None.

Definition clock_With (cx : Context) (t : time) : Context := mkContext (Some t) (cx_player cx).
(** [clock.Now]; [wall] is what [time.Now] would give. *)
Definition clock_Now (wall : time) (cx : Context) : time := default wall (cx_now cx).

Definition authctx_With (cx : Context) (playerID : uuid) : Context := mkContext (cx_now cx) (Some playerID).
Definition authctx_From (cx : Context) : option uuid := cx_player cx.

(** ** Metrics (infra/metrics/metrics.go): the two collectors of the interceptor *)

Record MetricsRegistry := mkMetricsRegistry { RPCRequests : gmap (string * string) nat; RPCDuration : list (string * duration) }.
Definition NewMetricsRegistry : MetricsRegistry := mkMetricsRegistry ∅ [].

Definition Inc (method code : string) (reg : MetricsRegistry) : MetricsRegistry :=
  mkMetricsRegistry (<[(method, code) := S (default 0%nat (RPCRequests reg !! (method, code)))]> (RPCRequests reg)) (RPCDuration reg).
Definition Observe (method : string) (d : duration) (reg : MetricsRegistry) : MetricsRegistry :=
  mkMetricsRegistry (RPCRequests reg) (RPCDuration reg ++ [(method, d)]).

(** What the generated code knows of a procedure and the names of the codes. *)
Class RpcNames := { Procedure : ∀ {A}, request A → string; Code_String : Code → string }.

(** The two server streams; every other procedure is unary. *)
Definition streaming {A} (rq : request A) : bool := match rq with RqSubscribeChannel _ | RqWatchTicket _ => true | _ => false end.

Section chain.
Context {U : UuidCodec} {R : RangeOrder} {C : Collation} {J : Jwt} {N : RpcNames}.
Context {B S V : Type} {BR : Broker B} {BS : BlobStore S} {RI : RankIndex V} {TI : TokenIssuer} {OV : OIDCVerifier}.
Context (cfg : GatewayConfig) (secret : string).
#[local] Notation World := (World B S V).

(** What is called with a context: the procedure itself, or an interceptor around the next. *)
Definition NextFunc (A : Type) : Type := Context → World → MetricsRegistry → reply A * World * MetricsRegistry.

Definition codeLabel {A} (r : reply A) : string := match r with Reply _ => "ok" | Fault code _ => Code_String code end.

(** [start] and [stop] are the readings of the clock around [next]; a stream is not timed. *)
Definition metrics_Wrap {A} (start stop : time) (rq : request A) (next : NextFunc A) : NextFunc A := λ cx w reg,
  let '(r, w', reg') := next cx w reg in
  let reg' := if streaming rq then reg' else Observe (Procedure rq) (stop - start) reg' in
  (r, w', Inc (Procedure rq) (codeLabel r) reg').

Definition clock_Wrap {A} (now : time) (next : NextFunc A) : NextFunc A := λ cx, next (clock_With cx now).

(** [verified] is the time at which the JWT library checks the token. *)
Definition auth_Wrap {A} (verified : time) (header : string) (next : NextFunc A) : NextFunc A := λ cx,
  next (match populate secret verified header with Some id => authctx_With cx id | None => cx end).

(** The procedure: it takes the caller and the time from its context. *)
Definition procedure {A} (wall : time) (dr : Draw) (rq : request A) : NextFunc A := λ cx w reg,
  let dr := mkDraw (clock_Now wall cx) (d_id dr) (d_id2 dr) (d_fresh dr) (d_others dr) in
  let '(r, w') := serve cfg (authctx_From cx) dr rq w in (r, w', reg).

(** The readings of the clock while a request is served. *)
Record Readings := mkReadings { rd_start : time; rd_clock : time; rd_verified : time; rd_later : time; rd_stop : time }.

(** NewHandler puts them in this order, Metrics outermost (below the spans). *)
Definition chain {A} (rd : Readings) (header : string) (dr : Draw) (rq : request A) : NextFunc A :=
  metrics_Wrap (rd_start rd) (rd_stop rd) rq (clock_Wrap (rd_clock rd) (auth_Wrap (rd_verified rd) header (procedure (rd_later rd) dr rq))).

(** ** Against the bare procedure *)

Definition at_time (t : time) (dr : Draw) : Draw := mkDraw t (d_id dr) (d_id2 dr) (d_fresh dr) (d_others dr).

(** What the metrics hold after a call with this outcome. *)
Definition accounted {A} (rd : Readings) (rq : request A) (r : reply A) (reg : MetricsRegistry) : MetricsRegistry :=
  Inc (Procedure rq) (codeLabel r) (if streaming rq then reg else Observe (Procedure rq) (rd_stop rd - rd_start rd) reg).

Lemma chain_eval {A} rd header dr (rq : request A) w reg :
  chain rd header dr rq Background w reg =
  let '(r, w') := serve cfg (populate secret (rd_verified rd) header) (at_time (rd_clock rd) dr) rq w in (r, w', accounted rd rq r reg).
Proof.
  unfold chain, metrics_Wrap, clock_Wrap, auth_Wrap, procedure, accounted, at_time. destruct (populate secret _ header) as [id|]; cbn;
    by destruct (serve _ _ _ _ _) as [r w'], (streaming rq).
Qed.

(** A call with everything that is drawn while it is served. *)
Inductive rpc_call :=
  | Call (A : Type) (rq : request A) (header : string) (dr : Draw) (rd : Readings).

(** The calls of a gateway one after the other; of each the procedure and the outcome. *)
Fixpoint run_calls (l : list rpc_call) (w : World) (reg : MetricsRegistry) : list (string * string) * World * MetricsRegistry :=
  match l with
  | [] => ([], w, reg)
  | Call A rq header dr rd :: l' =>
      let '(r, w', reg') := chain rd header dr rq Background w reg in
      let '(outs, w'', reg'') := run_calls l' w' reg' in ((Procedure rq, codeLabel r) :: outs, w'', reg'')
  end.

(** The same calls as the theorems about the gateway take them. *)
Fixpoint handle_calls (l : list rpc_call) (w : World) : list (string * string) * World :=
  match l with
  | [] => ([], w)
  | Call A rq header dr rd :: l' =>
      let '(r, w') := handle cfg secret header (at_time (rd_clock rd) dr) rq w in
      let '(outs, w'') := handle_calls l' w' in ((Procedure rq, codeLabel r) :: outs, w'')
  end.

Definition same_instant (c : rpc_call) : Prop := match c with Call _ _ _ _ rd => rd_verified rd = rd_clock rd end.
Definition timed (c : rpc_call) : list (string * duration) :=
  match c with Call _ rq _ _ rd => if streaming rq then [] else [(Procedure rq, rd_stop rd - rd_start rd)] end.

Definition counted (reg : MetricsRegistry) (key : string * string) : nat := default 0%nat (RPCRequests reg !! key).
Definition occurrences (key : string * string) (outs : list (string * string)) : nat := length (filter (λ k, k = key) outs).

Lemma occurrences_cons key k outs : occurrences key (k :: outs) = (occurrences key [k] + occurrences key outs)%nat.
Proof. unfold occurrences. cbn. by destruct (decide (k = key)). Qed.

Lemma counted_Inc method code reg key :
  counted (Inc method code reg) key = (counted reg key + occurrences key [(method, code)])%nat.
Proof.
  unfold counted, occurrences. cbn. destruct (decide ((method, code) = key)) as [<-|Hne].
  - rewrite lookup_insert_eq. cbn. lia.
  - rewrite lookup_insert_ne by done. cbn. lia.
Qed.

(** C26: the interceptors change nothing but the metrics.  When the token is checked at the instant the
    clock attaches, calls behind the chain give the replies and leave the state that
    [Gateway.handle] gives at that one instant, whatever later readings of the clock would say; and
    the request counter of every procedure and code has grown by exactly the calls that ended with
    it, the latency histogram by one sample per unary call, in order. *)
Theorem requests_accounted l w reg : Forall same_instant l →
  let '(outs, w', reg') := run_calls l w reg in
  handle_calls l w = (outs, w') ∧
  (∀ key, counted reg' key = counted reg key + occurrences key outs)%nat ∧
  RPCDuration reg' = RPCDuration reg ++ (l ≫= timed).
Proof.
  revert w reg. induction l as [|[A rq header dr rd] l IH]; intros w reg Hl.
  - cbn. split_and!; [done| |by rewrite app_nil_r]. intros key. unfold occurrences. cbn. lia.
  - apply list.Forall_cons in Hl as [Hrd Hl]. cbn [same_instant] in Hrd. cbn [run_calls handle_calls]. rewrite chain_eval, Hrd. unfold handle. cbn [d_now at_time].
    destruct (serve _ _ _ _ _) as [r w1]. specialize (IH w1 (accounted rd rq r reg) Hl).
    destruct (run_calls _ _ _) as [[outs w2] reg2]. destruct IH as (-> & Hc & Hd). split_and!; [done|..].
    + intros key. rewrite Hc. unfold accounted. rewrite counted_Inc, (occurrences_cons key (_, _) outs). destruct (streaming rq); unfold counted; cbn [RPCRequests Observe]; lia.
    + rewrite Hd. unfold accounted. cbn. destruct (streaming rq); cbn; [done|]. by rewrite <- app_assoc.
Qed.
End chain.

(** ** Evaluation *)

Definition demo_names : RpcNames := {|
  Procedure A rq := match rq with RqListMyGroups => "/vfx.v1.group.GroupService/ListMyGroups" | RqDeleteGroup _ => "/vfx.v1.group.GroupService/DeleteGroup" | _ => "/other" end;
  Code_String c := match c with CodeUnauthenticated => "unauthenticated" | CodePermissionDenied => "permission_denied" | _ => "internal" end;
|}.

Definition demo_readings : Readings := mkReadings 999 1000 1000 1001 1005.
Definition demo_calls : list rpc_call :=
  [Call _ RqListMyGroups "" demo_draw demo_readings; Call _ RqListMyGroups "Bearer k0" demo_draw demo_readings;
   Call _ (RqDeleteGroup (hex_String (sample_uuid x52))) "Bearer k0" demo_draw demo_readings].

Definition demo_run : list (string * string) * World StreamHub (gmap string ObjectAttrs) unit * MetricsRegistry :=
  run_calls (U := hex_codec) (R := range_id) (C := str_ltb) (J := list_jwt demo_claims) (N := demo_names) (BR := hub_broker) (BS := mem_blobs) (RI := down)
    (TI := demo_issuer) (OV := demo_verifier) demo_gateway "k" demo_calls demo_gateway_world NewMetricsRegistry.

Lemma requests_accounted_witness :
  demo_run.1.1 = [("/vfx.v1.group.GroupService/ListMyGroups", "unauthenticated"); ("/vfx.v1.group.GroupService/ListMyGroups", "ok");
                  ("/vfx.v1.group.GroupService/DeleteGroup", "permission_denied")] ∧
  counted demo_run.2 ("/vfx.v1.group.GroupService/ListMyGroups", "ok") = 1%nat.
Proof.
  assert (E : demo_run.1.1 = [("/vfx.v1.group.GroupService/ListMyGroups", "unauthenticated"); ("/vfx.v1.group.GroupService/ListMyGroups", "ok");
                  ("/vfx.v1.group.GroupService/DeleteGroup", "permission_denied")]) by (vm_compute; reflexivity).
  split; [exact E|].
  assert (Hs : Forall same_instant demo_calls) by (repeat constructor).
  assert (H := requests_accounted (U := hex_codec) (R := range_id) (C := str_ltb) (J := list_jwt demo_claims) (N := demo_names) (BR := hub_broker) (BS := mem_blobs)
    (RI := down) (TI := demo_issuer) (OV := demo_verifier) demo_gateway "k" demo_calls demo_gateway_world NewMetricsRegistry Hs).
  fold demo_run in H. destruct demo_run as [[outs w] reg]. cbn in E. destruct H as (_ & Hc & _). cbn [snd]. rewrite Hc, E. vm_compute. reflexivity.
Defined.
