(* ===== verification/Metrics.v ===== *)
(** * The metrics of the two processes (infra/metrics/metrics.go, with the adapters of bootstrap)

    One registry holds every collector.  The matchmaker and the room reach it through small ports
    with a no-op in place of a missing one; [metered] puts any such port under the worker of
    [Matchmaker].  [metrics_inert] shows that the choice changes nothing but the registry,
    [metered_laws] that the worker's theorems hold with it, and [gauge_exact] and [active_exact]
    what the gauges read.  Prometheus keeps its numbers as float64, which are exact here below 2^53;
    the exposition is the library's. *)

From S2P Require Import Prelude GoBase Match Matchmaker RoomManager Interceptors.

Record Registry := mkRegistry {
  RPC : MetricsRegistry;
  MatchesAllocated : Z; QueueDepth : gmap string Z;
  RoomMatchesActive : Z; RoomTickDuration : list duration;
}.
Definition NewRegistry : Registry := mkRegistry NewMetricsRegistry 0 ∅ 0 [].

(** ** The port of the matchmaker (usecase/match/matchmaker.go, bootstrap/gateway.go) *)

Record Metrics := mkMetrics { MatchAllocated : Registry → Registry; SetQueueDepth : string → Z → Registry → Registry }.

Definition noopMetrics : Metrics := mkMetrics id (λ _ _, id).
Definition matchmakerMetrics : Metrics := mkMetrics
  (λ r, mkRegistry (RPC r) (MatchesAllocated r + 1) (QueueDepth r) (RoomMatchesActive r) (RoomTickDuration r))
  (λ gameMode depth r, mkRegistry (RPC r) (MatchesAllocated r) (<[gameMode := depth]> (QueueDepth r)) (RoomMatchesActive r) (RoomTickDuration r)).

(** ** The ports of the room (usecase/room/metrics.go, bootstrap/room.go) *)

Definition IncActiveMatches (r : Registry) : Registry :=
  mkRegistry (RPC r) (MatchesAllocated r) (QueueDepth r) (RoomMatchesActive r + 1) (RoomTickDuration r).
Definition DecActiveMatches (r : Registry) : Registry :=
  mkRegistry (RPC r) (MatchesAllocated r) (QueueDepth r) (RoomMatchesActive r - 1) (RoomTickDuration r).
Definition ObserveTick (d : duration) (r : Registry) : Registry :=
  mkRegistry (RPC r) (MatchesAllocated r) (QueueDepth r) (RoomMatchesActive r) (RoomTickDuration r ++ [d]).

(** ** The worker with a registry beside its world *)

Section metered.
Context {W : Type} {P : MatchmakerPorts W}.

Definition aside {A} (m : M W A) : M (W * Registry) A := λ wr, let '(r, w') := m wr.1 in (r, (w', wr.2)).
Definition record (f : Registry → Registry) : M (W * Registry) unit := λ wr, (Ok tt, (wr.1, f wr.2)).

Definition metered (a : Metrics) : MatchmakerPorts (W * Registry) := {|
  p_Pending mode := aside (p_Pending mode);
  p_Claim mode ids := aside (p_Claim mode ids);
  p_Publish i ev := aside (p_Publish i ev);
  p_Allocate mode n := aside (p_Allocate mode n);
  p_SignSession p m ps now ttl := aside (p_SignSession p m ps now ttl);
  p_PutAssignment p x ttl := aside (p_PutAssignment p x ttl);
  p_MatchAllocated := record (MatchAllocated a);
  p_SetQueueDepth mode n := record (SetQueueDepth a mode n);
  p_Now wr := p_Now wr.1;
|}.

(** [NewMatchmaker]: a missing port records nothing. *)
Definition with_default (a : option Metrics) : Metrics := default noopMetrics a.

(** ** The choice of the port is invisible to the worker *)

(** The same answer and the same world, whatever the registries hold. *)
Definition alike {A} (c1 c2 : M (W * Registry) A) : Prop := ∀ w r1 r2,
  (c1 (w, r1)).1 = (c2 (w, r2)).1 ∧ (c1 (w, r1)).2.1 = (c2 (w, r2)).2.1.

Lemma alike_aside {A} (m : M W A) : alike (aside m) (aside m).
Proof. intros w r1 r2. unfold aside. cbn. by destruct (m w). Qed.
Lemma alike_record f g : alike (record f) (record g).
Proof. done. Qed.
Lemma alike_ret {A} (x : A) : alike (mret x) (mret x).
Proof. done. Qed.
Lemma alike_fail {A} e : alike (fail e : M _ A) (fail e).
Proof. done. Qed.
Lemma alike_now : alike (gets (λ wr : W * Registry, p_Now wr.1)) (gets (λ wr, p_Now wr.1)).
Proof. done. Qed.

Lemma alike_bind {A B} (c1 c2 : M (W * Registry) A) (f1 f2 : A → M (W * Registry) B) :
  alike c1 c2 → (∀ x, alike (f1 x) (f2 x)) → alike (c1 ≫= f1) (c2 ≫= f2).
Proof.
  intros Hc Hf w r1 r2. rewrite !M_bind_eval. destruct (Hc w r1 r2) as [H1 H2].
  destruct (c1 (w, r1)) as [[x|e] [w1 s1]], (c2 (w, r2)) as [[y|e'] [w2 s2]]; cbn in *; simplify_eq; [apply Hf|done].
Qed.

Lemma alike_try {A} (c1 c2 : M (W * Registry) A) : alike c1 c2 → alike (try c1) (try c2).
Proof.
  intros Hc w r1 r2. unfold try. destruct (Hc w r1 r2) as [H1 H2].
  destruct (c1 (w, r1)), (c2 (w, r2)); cbn in *; by simplify_eq.
Qed.

Lemma alike_ignore {A} (c1 c2 : M (W * Registry) A) : alike c1 c2 → alike (ignore c1) (ignore c2).
Proof.
  intros Hc w r1 r2. unfold ignore. destruct (Hc w r1 r2) as [H1 H2].
  destruct (c1 (w, r1)) as [[]], (c2 (w, r2)) as [[]]; cbn in *; by simplify_eq.
Qed.

Lemma alike_for_each {A} (f1 f2 : A → M (W * Registry) unit) l : (∀ x, alike (f1 x) (f2 x)) → alike (for_each f1 l) (for_each f2 l).
Proof. intros H. induction l as [|x l IH]; [apply alike_ret|]. by apply alike_bind. Qed.

Lemma alike_when b (c1 c2 : M (W * Registry) unit) : alike c1 c2 → alike (when b c1) (when b c2).
Proof. by destruct b. Qed.
End metered.

(** Decompose a method into the ports it calls. *)
Ltac alike :=
  repeat match goal with
  | |- ∀ _, _ => intros ?
  | |- alike (mbind _ _) _ => apply alike_bind
  | |- alike (mret _) _ => apply alike_ret
  | |- alike (fail _) _ => apply alike_fail
  | |- alike (try _) _ => apply alike_try
  | |- alike (ignore _) _ => apply alike_ignore
  | |- alike (for_each _ _) _ => apply alike_for_each
  | |- alike (when _ _) _ => apply alike_when
  | |- alike (match ?x with _ => _ end) _ => destruct x
  | |- alike _ _ => first [apply alike_aside | apply alike_record | apply alike_now]
  end.

Section worker.
Context {W : Type} {P : MatchmakerPorts W} {U : UuidCodec} {R : RangeOrder} {E : ErrorText}.
Context (matcher : Matcher) (ttl : duration).

#[local] Notation pairOne_with a := (@pairOne _ (metered a) U ttl).
#[local] Notation pairAll_with a := (@pairAll _ (metered a) U ttl).
#[local] Notation pair_with a := (@pair _ (metered a) U E ttl).
#[local] Notation step_with a := (@processStep _ (metered a) U R E matcher ttl).
#[local] Notation loop_with a := (@processLoop _ (metered a) U R E matcher ttl).

Lemma pairOne_alike a b x players now exp t : alike (pairOne_with a x players now exp t) (pairOne_with b x players now exp t).
Proof. unfold pairOne. alike. Qed.

Lemma pairAll_alike a b x players now exp ts n : alike (pairAll_with a x players now exp ts n) (pairAll_with b x players now exp ts n).
Proof.
  revert n. induction ts as [|t ts IH]; intros n; [apply alike_ret|]. cbn [pairAll]. apply alike_bind; [apply pairOne_alike|]. intros ok. apply IH.
Qed.

Lemma pair_alike a b mode ts : alike (pair_with a mode ts) (pair_with b mode ts).
Proof.
  unfold pair. alike. apply pairAll_alike.
Qed.

Lemma step_alike a b now mode : alike (step_with a now mode) (step_with b now mode).
Proof.
  unfold processStep. apply alike_bind; [apply alike_aside|]. intros pending. apply alike_bind; [apply alike_record|]. intros _.
  destruct (_ <? _); [apply alike_ret|]. destruct (SelectGroup matcher now pending); [|apply alike_ret].
  apply alike_bind; [apply pair_alike|]. intros _. apply alike_ret.
Qed.

(** What a metrics port does is invisible to the matching: the loop over a mode answers the same, and
    leaves the same queue, assignments and events, whichever port the worker was given, and
    whatever the registry holds. *)
Lemma metrics_inert a b fuel mode w r1 r2 :
  (λ x, (x.1, x.2.1)) <$> @processMode _ (metered a) U R E matcher ttl fuel mode (w, r1) =
  (λ x, (x.1, x.2.1)) <$> @processMode _ (metered b) U R E matcher ttl fuel mode (w, r2).
Proof.
  unfold processMode. change (@p_Now _ (metered ?c) (w, ?r)) with (p_Now w). generalize (p_Now w). intros now.
  revert w r1 r2. induction fuel as [|fuel IH]; intros w r1 r2; [done|]. cbn [processLoop].
  destruct (step_alike a b now mode w r1 r2) as [H1 H2].
  destruct (step_with a now mode (w, r1)) as [[[]|e] [w1 s1]], (step_with b now mode (w, r2)) as [[[]|e'] [w2 s2]];
    cbn in *; simplify_eq; [apply IH|done..].
Qed.
End worker.

(** ** The laws of the worker's ports, with the registry's counter *)

Section laws.
Context {W : Type} {P : MatchmakerPorts W} {L : MatchmakerLaws W}.

#[local] Instance matchmaker_ports : MatchmakerPorts (W * Registry) := metered matchmakerMetrics.

Definition metered_laws : MatchmakerLaws (W * Registry).
Proof.
  refine (@Build_MatchmakerLaws (W * Registry) matchmaker_ports (λ wr, wf wr.1) (λ wr, pool wr.1) (λ wr, snapshot wr.1) (λ wr, assigned wr.1)
    (λ wr, MatchesAllocated wr.2) _ _ _ kept_ev _ _ kept_asg _ _ _ _ _).
  - intros mode [w r] Hw. destruct (law_pending mode w Hw) as (x & Ex & Hx). exists x. split; [|done]. cbn. unfold aside. cbn. by rewrite Ex.
  - intros mode [w r] t. apply law_known.
  - intros mode ids [w r] Hw. pose proof (law_claim mode ids w Hw) as Hl. cbn. unfold aside, state, result in *. cbn in *.
    destruct (p_Claim mode ids w) as [[[]|e] w']; cbn in *; destruct Hl as (? & ? & ? & ? & ? & Hl); split_and!; try done.
    + by destruct Hl as [-> _].
    + by destruct Hl as [_ ?].
    + destruct Hl as [->|Hl]; [by left|by right].
  - exact law_texts.
  - intros i ev [w r] Hw Hi Ht. pose proof (law_publish i ev w Hw Hi Ht) as Hl. cbn. unfold aside, state, result in *. cbn in *.
    destruct (p_Publish i ev w) as [x w']. cbn in *. by destruct Hl as (? & ? & ? & _ & ? & ? & ?).
  - intros p x d [w r] Hw. pose proof (law_put p x d w Hw) as Hl. cbn. unfold aside, state, result in *. cbn in *.
    destruct (p_PutAssignment p x d w) as [y w']. cbn in *. by destruct Hl as (? & ? & ? & _ & ? & ?).
  - intros mode n [w r] Hw. pose proof (law_allocate mode n w Hw) as Hl. cbn. unfold aside, state in *. cbn in *.
    destruct (p_Allocate mode n w) as [y w']. cbn in *. by destruct Hl as (? & ? & ? & ? & _).
  - intros p m ps now d [w r] Hw. pose proof (law_sign p m ps now d w Hw) as Hl. cbn. unfold aside, state in *. cbn in *.
    destruct (p_SignSession p m ps now d w) as [y w']. cbn in *. by destruct Hl as (? & ? & ? & ? & _).
  - by intros mode n [w r] Hw.
  - by intros [w r] Hw.
Defined.

(** ** What the worker writes into the registry *)

(** A match may have been counted; nothing else. *)
Record counts (r r' : Registry) : Prop := {
  cn_more : MatchesAllocated r ≤ MatchesAllocated r';
  cn_rest : ∃ n, r' = mkRegistry (RPC r) n (QueueDepth r) (RoomMatchesActive r) (RoomTickDuration r);
}.
Definition counting {A} (c : M (W * Registry) A) : Prop := ∀ wr, counts wr.2 (c wr).2.2.

Lemma counts_refl r : counts r r.
Proof. split; [lia|]. exists (MatchesAllocated r). by destruct r. Qed.
Lemma counts_trans r1 r2 r3 : counts r1 r2 → counts r2 r3 → counts r1 r3.
Proof. intros [H1 [n1 ->]] [H2 [n2 ->]]. split; [cbn in *; lia|]. by exists n2. Qed.

Lemma counting_aside {A} (m : M W A) : counting (aside m).
Proof. intros [w r]. unfold aside. cbn. destruct (m w). apply counts_refl. Qed.
Lemma counting_ret {A} (x : A) : counting (mret x).
Proof. intros wr. apply counts_refl. Qed.
Lemma counting_fail {A} e : counting (fail e : M _ A).
Proof. intros wr. apply counts_refl. Qed.
Lemma counting_gets {A} (f : W * Registry → A) : counting (gets f).
Proof. intros wr. apply counts_refl. Qed.
Lemma counting_bind {A B} (c : M (W * Registry) A) (f : A → M (W * Registry) B) : counting c → (∀ x, counting (f x)) → counting (c ≫= f).
Proof.
  intros Hc Hf wr. rewrite M_bind_eval. specialize (Hc wr). destruct (c wr) as [[x|e] wr']; [|done]. by eapply counts_trans; [exact Hc|apply Hf].
Qed.
Lemma counting_try {A} (c : M (W * Registry) A) : counting c → counting (try c).
Proof. intros Hc wr. specialize (Hc wr). unfold try. by destruct (c wr). Qed.
Lemma counting_ignore {A} (c : M (W * Registry) A) : counting c → counting (ignore c).
Proof. done. Qed.
Lemma counting_for_each {A} (f : A → M (W * Registry) unit) l : (∀ x, counting (f x)) → counting (for_each f l).
Proof. intros H. induction l as [|x l IH]; [apply counting_ret|]. by apply counting_bind. Qed.
Lemma counting_allocated : counting (record (MatchAllocated matchmakerMetrics)).
Proof. intros [w r]. split; [cbn; lia|]. by eexists. Qed.

Ltac counting :=
  repeat match goal with
  | |- ∀ _, _ => intros ?
  | |- counting (mbind _ _) => apply counting_bind
  | |- counting (mret _) => apply counting_ret
  | |- counting (fail _) => apply counting_fail
  | |- counting (gets _) => apply counting_gets
  | |- counting (try _) => apply counting_try
  | |- counting (ignore _) => apply counting_ignore
  | |- counting (for_each _ _) => apply counting_for_each
  | |- counting (when ?b _) => destruct b; cbn [when]
  | |- counting (match ?x with _ => _ end) => destruct x
  | |- counting p_MatchAllocated => apply counting_allocated
  | |- counting _ => apply counting_aside
  end.

Context {U : UuidCodec} {R : RangeOrder} {RL : RangeOrderLaw R} {E : ErrorText}.

Lemma counting_pair ttl mode ts : counting (pair ttl mode ts).
Proof.
  assert (H1 : ∀ x players now exp t, counting (pairOne ttl x players now exp t)) by (unfold pairOne; counting).
  assert (Hall : ∀ x players now exp l n, counting (pairAll ttl x players now exp l n)).
  { intros x players now exp l. induction l as [|t l IH]; intros n; [apply counting_ret|]. cbn [pairAll]. by apply counting_bind. }
  unfold pair. counting. apply Hall.
Qed.

(** The registry after some work on [mode]: matches may have been counted and its gauge set. *)
Record worked (mode : string) (r r' : Registry) : Prop := {
  wk_more : MatchesAllocated r ≤ MatchesAllocated r';
  wk_gauges : ∀ m, m <> mode → QueueDepth r' !! m = QueueDepth r !! m;
  wk_rest : RPC r' = RPC r ∧ RoomMatchesActive r' = RoomMatchesActive r ∧ RoomTickDuration r' = RoomTickDuration r;
}.

Lemma worked_trans mode r1 r2 r3 : worked mode r1 r2 → worked mode r2 r3 → worked mode r1 r3.
Proof. intros [A1 B1 (C1 & D1 & E1)] [A2 B2 (C2 & D2 & E2)]. split; [lia| |split_and!; congruence]. intros m Hm. by rewrite B2, B1. Qed.
Lemma counts_worked mode r r' : counts r r' → worked mode r r'.
Proof. by intros [H [n ->]]. Qed.

Context (matcher : Matcher) (ttl : duration) (matcher_pos : 1 ≤ m_playersPerMatch matcher).

Lemma step_gauge now mode w reg : wf w →
  let '(r, (w', reg')) := processStep matcher ttl now mode (w, reg) in
  worked mode reg reg' ∧ (r = Ok false → QueueDepth reg' !! mode = Some (Z.of_nat (length (pool w' mode)))).
Proof.
  intros Hw. unfold processStep. rewrite M_bind_eval. cbn [p_Pending matchmaker_ports metered]. unfold aside at 1. cbn [fst snd].
  destruct (law_pending mode w Hw) as ([pending|e] & -> & Hp); [|by split; [apply counts_worked, counts_refl|]].
  pose proof (Permutation_length (Hp _ eq_refl)) as Hlen. rewrite M_bind_eval. cbn [p_SetQueueDepth matchmaker_ports metered record fst snd].
  set (reg1 := SetQueueDepth matchmakerMetrics mode (Z.of_nat (length pending)) reg).
  assert (Hk : worked mode reg reg1) by (split; [done|intros m Hm; by apply lookup_insert_ne|done]).
  assert (Hd : QueueDepth reg1 !! mode = Some (Z.of_nat (length (pool w mode)))) by (rewrite <- Hlen; apply lookup_insert_eq).
  destruct (_ <? _); [by split|]. destruct (SelectGroup matcher now pending) as [g|]; [|by split].
  rewrite M_bind_eval. pose proof (counting_pair ttl mode g (w, reg1)) as Hc.
  destruct (pair ttl mode g (w, reg1)) as [[[]|e] [w2 reg2]]; cbn in *; (split; [|done]);
    exact (worked_trans _ _ _ _ Hk (counts_worked _ _ _ Hc)).
Qed.

Lemma loop_gauge fuel now mode w reg r w' reg' : wf w → processLoop matcher ttl fuel now mode (w, reg) = Some (r, (w', reg')) →
  worked mode reg reg' ∧ (r = Ok tt → QueueDepth reg' !! mode = Some (Z.of_nat (length (pool w' mode)))).
Proof.
  revert w reg. induction fuel as [|fuel IH]; intros w reg Hw; [done|]. cbn [processLoop].
  pose proof (step_gauge now mode w reg Hw) as Hs. pose proof (processStep_spec (L := metered_laws) matcher ttl matcher_pos now mode (w, reg) Hw) as Hok.
  destruct (processStep matcher ttl now mode (w, reg)) as [[[]|e] [w1 reg1]]; destruct Hs as [Hk Hg], Hok as [Hsh _].
  - intros (Hk' & Hg')%IH; [|exact (sh_wf _ _ Hsh)]. split; [by eapply worked_trans|done].
  - intros [= <- <- <-]. split; [done|]. intros _. by apply Hg.
  - intros [= <- <- <-]. by split.
Qed.
End laws.

(** what the matchmaker's metrics say.  The work on a game mode comes to an end; when it ends
    without an error the mode's gauge reads exactly the number of tickets that then wait in the
    queue; it leaves every other gauge and every other collector alone, and never lowers the count
    of allocated matches. *)
Theorem gauge_exact {W : Type} {P : MatchmakerPorts W} {L : MatchmakerLaws W} {U : UuidCodec}
    {R : RangeOrder} {RL : RangeOrderLaw R} {E : ErrorText} cfg mode (w : W) (reg : Registry) : wf w →
  ∃ r w' reg', @processMode _ (metered matchmakerMetrics) U R E (NewMatchmakerMatcher cfg) (cfg_SessionTokenTTL cfg)
      (S (length (pool w mode))) mode (w, reg) = Some (r, (w', reg')) ∧
    worked mode reg reg' ∧ (r = Ok tt → QueueDepth reg' !! mode = Some (Z.of_nat (length (pool w' mode)))).
Proof.
  intros Hw. destruct (processLoop_total (L := metered_laws) (NewMatchmakerMatcher cfg) (cfg_SessionTokenTTL cfg) (NewMatchmakerMatcher_pos cfg)
    (S (length (pool w mode))) (p_Now w) mode (w, reg) Hw ltac:(cbn; lia)) as (r & [w' reg'] & E1 & _).
  exists r, w', reg'. split; [exact E1|]. exact (loop_gauge _ _ (NewMatchmakerMatcher_pos cfg) _ _ _ _ _ _ _ _ Hw E1).
Qed.

(** ** The room's gauge *)

(** The manager's steps with the calls of its port: one when a match is published, one when its
    goroutine ends. *)
Inductive metered_step : world * Registry → world * Registry → Prop :=
  | ms_publish w reg i matchID n :
      w_calls w !! i = Some (matchID, AtPublish n) →
      metered_step (w, reg) (after_publish i matchID n w,
        match publish matchID n (w_mgr w) with (Ok (_, true), _) => IncActiveMatches reg | _ => reg end)
  | ms_dec w reg ref matchID n :
      w_runs w !! ref = Some (mkRun matchID n AtDec) →
      metered_step (w, reg) (after_run ref matchID n Finished (RoomManager.DecActiveMatches (w_mgr w)) w, DecActiveMatches reg)
  | ms_silent w reg w' :
      mgr_step w w' → mg_active (w_mgr w') = mg_active (w_mgr w) → metered_step (w, reg) (w', reg).

(** the gauge of the room is the number of matches whose goroutine has not ended. *)
Theorem active_exact w reg : rtc metered_step (RoomManager.empty_world, NewRegistry) (w, reg) →
  reachable w ∧ RoomMatchesActive reg = Z.of_nat (size (filter (λ kr, unfinished kr.2) (w_runs w))).
Proof.
  intros H. assert (Hr : reachable w ∧ RoomMatchesActive reg = mg_active (w_mgr w)); [|destruct Hr as [Hr ->]; split; [done|apply mi_active, reachable_inv, Hr]].
  change w with (w, reg).1. change reg with (w, reg).2 at 2. revert H. generalize (w, reg). clear w reg. intros x H.
  revert x H. apply rtc_ind_r; [split; [apply rtc_refl|done]|]. intros x y _ Hyz [Hr Ha].
  destruct Hyz as [w reg i matchID n Hi|w reg ref matchID n Hi|w reg w' Hs E]; cbn [fst snd] in *.
  - split; [eapply rtc_r; [exact Hr|by apply step_publish]|]. unfold after_publish, publish.
    destruct (mg_matches (w_mgr w) !! matchID); [rewrite M_bind_eval|]; cbn; lia.
  - split; [eapply rtc_r; [exact Hr|by apply step_dec]|]. cbn. lia.
  - split; [eapply rtc_r; [exact Hr|exact Hs]|]. by rewrite E.
Qed.

(** ** Evaluated instances *)

#[local] Instance metrics_range : RangeOrder := range_id.
#[local] Instance metrics_range_law : RangeOrderLaw metrics_range := range_id_law.
#[local] Instance metrics_codec : UuidCodec := hex_codec.
#[local] Instance metrics_error_text : ErrorText := λ e, match e with ErrText m => m | _ => "error" end.

(** Rooms without end. *)
Definition rooms (call : nat) (mode : string) (players : Z) : res RoomAllocation :=
  Ok (mkRoomAllocation (sample_uuid x77) "10.0.0.7:7777").
#[local] Instance rooms_ports : MatchmakerPorts MemWorld := mem_ports rooms demo_signer.
#[local] Instance rooms_laws : MatchmakerLaws MemWorld := mem_laws rooms demo_signer.

(** Five tickets make two matches, of which one is counted (the other has a player who gets no
    token), and one ticket is left. *)
Lemma gauge_exact_witness :
  ∃ w' reg', @processMode _ (metered matchmakerMetrics) _ _ _ (NewMatchmakerMatcher demo_config) (cfg_SessionTokenTTL demo_config)
      (S (length (pool (MatchmakerLaws := rooms_laws) demo_world "ranked"))) "ranked" (demo_world, NewRegistry) = Some (Ok tt, (w', reg')) ∧
    QueueDepth reg' !! "ranked" = Some 1 ∧ MatchesAllocated reg' = 1.
Proof.
  destruct (gauge_exact (L := rooms_laws) demo_config "ranked" demo_world NewRegistry demo_world_wf) as (r & w' & reg' & E & _ & Hg).
  exists w', reg'. assert (Ev : (λ x, (is_ok x.1, length (pool x.2.1 "ranked"), MatchesAllocated x.2.2)) <$>
      @processMode _ (metered matchmakerMetrics) _ _ _ (NewMatchmakerMatcher demo_config) (cfg_SessionTokenTTL demo_config)
        (S (length (pool (MatchmakerLaws := rooms_laws) demo_world "ranked"))) "ranked" (demo_world, NewRegistry) = Some (true, 1%nat, 1)) by (vm_compute; reflexivity).
  rewrite E in Ev. destruct r as [[]|]; cbn in Ev; [|discriminate Ev]. injection Ev as E1 E2.
  split; [exact E|]. split; [|exact E2]. rewrite (Hg eq_refl). unfold pool, rooms_laws in *. cbn in *. by rewrite E1.
Defined.
