(* ===== verification/Oidc.v ===== *)
(** * Provider ID tokens (infra/oidc/verifier.go)

    [New] pins, for each configured provider, its issuer, its key set and the audience its tokens must
    carry; [Verifier_Verify] is the verifier the auth usecase is given.  The OpenID Connect library is
    the class [OidcLibrary]; [oidc_login_genuine] follows a login through the gateway's handler. *)

From S2P Require Import Prelude GoBase GoStrings Database Match MatchQueue AssignmentStore Matchmaker.
From S2P Require Import Social Storage Group Chat Leaderboard Auth Token Gateway.

(** ** The library *)

(** [oidc.NewVerifier(issuer, NewRemoteKeySet(ctx, jwksURL), &Config{ClientID: clientID})]. *)
Record IDTokenVerifier := mkIDTokenVerifier { iv_issuer : string; iv_jwksURL : string; iv_ClientID : string }.

Class OidcLibrary := {
  IDToken : Type;
  IDTokenVerifier_Verify : IDTokenVerifier → time → string → res IDToken;
  tok_Issuer : IDToken → string;
  tok_Audience : IDToken → list string;
  tok_Expiry : IDToken → time;
  tok_Subject : IDToken → string;
  Claims_name : IDToken → res string;
}.

(** A token is in the name of the issuer the verifier was made for; Google's may leave out the scheme. *)
Definition issued_by (issuer tok : string) : Prop :=
  tok = issuer ∨ (issuer = "https://accounts.google.com" ∧ tok = "accounts.google.com").

(** A verified token comes from the issuer, for the client, unexpired, under a signature by one of the
    keys of the key set ([signed_by]). *)
Class OidcLaws (L : OidcLibrary) := {
  signed_by : string → string → Prop;
  verified_sound v now raw t : IDTokenVerifier_Verify v now raw = Ok t →
    issued_by (iv_issuer v) (tok_Issuer t) ∧ iv_ClientID v ∈ tok_Audience t ∧ now ≤ tok_Expiry t ∧ signed_by (iv_jwksURL v) raw;
}.

(** ** The verifier *)

Record endpoint := mkEndpoint { ep_issuer : string; ep_jwksURL : string }.

Definition providerEndpoints : gmap string endpoint :=
  <["google" := mkEndpoint "https://accounts.google.com" "https://www.googleapis.com/oauth2/v3/certs"]>
  {[ "apple" := mkEndpoint "https://appleid.apple.com" "https://appleid.apple.com/auth/keys" ]}.

(** The body of the loop of [New]; one key is assigned at most once, so its order does not matter. *)
Definition verifier_for (provider audience : string) : option IDTokenVerifier :=
  match providerEndpoints !! provider with
  | None => None
  | Some ep => if bool_decide (audience = "") then None else Some (mkIDTokenVerifier (ep_issuer ep) (ep_jwksURL ep) audience)
  end.

Definition New (cfg : gmap string string) : gmap string IDTokenVerifier := map_imap verifier_for cfg.

Section verify.
Context {L : OidcLibrary}.

Definition Verifier_Verify (verifiers : gmap string IDTokenVerifier) (now : time) (provider idToken : string) : res VerifiedIdentity :=
  match verifiers !! provider with
  | None => Err (ErrText ("oidc: provider " +:+ provider +:+ " is not configured"))
  | Some verifier =>
      match IDTokenVerifier_Verify verifier now idToken with
      | Err err => Err (Wrap ("oidc: verify " +:+ provider +:+ " token") err)
      | Ok tok => Ok (mkVerifiedIdentity (tok_Subject tok) (match Claims_name tok with Ok name => name | Err _ => "" end))
      end
  end.

Lemma New_lookup cfg provider v : New cfg !! provider = Some v →
  ∃ audience ep, cfg !! provider = Some audience ∧ audience <> "" ∧ providerEndpoints !! provider = Some ep ∧
    v = mkIDTokenVerifier (ep_issuer ep) (ep_jwksURL ep) audience.
Proof.
  unfold New. rewrite map_lookup_imap. destruct (cfg !! provider) as [a|]; [|done]. cbn. unfold verifier_for.
  destruct (providerEndpoints !! provider) as [ep|]; [|done]. case_bool_decide; [done|]. intros [= <-]. by exists a, ep.
Qed.

(** The identity of a token that the provider issued to this deployment. *)
Definition genuine {LL : OidcLaws L} (cfg : gmap string string) (now : time) (provider idToken : string) (t : IDToken) : Prop :=
  ∃ audience ep, cfg !! provider = Some audience ∧ audience <> "" ∧ providerEndpoints !! provider = Some ep ∧
    issued_by (ep_issuer ep) (tok_Issuer t) ∧ audience ∈ tok_Audience t ∧ now ≤ tok_Expiry t ∧ signed_by (ep_jwksURL ep) idToken.

Lemma Verify_genuine {LL : OidcLaws L} cfg now provider idToken vi : Verifier_Verify (New cfg) now provider idToken = Ok vi →
  ∃ t, genuine cfg now provider idToken t ∧ vi_Subject vi = tok_Subject t.
Proof.
  unfold Verifier_Verify. destruct (New cfg !! provider) as [v|] eqn:E; [|done]. apply New_lookup in E as (a & ep & H1 & H2 & H3 & ->).
  destruct (IDTokenVerifier_Verify _ now idToken) as [t|e] eqn:Ev; [|done]. intros [= <-]. exists t. split; [|done].
  apply verified_sound in Ev as (? & ? & ? & ?). by exists a, ep.
Qed.
End verify.

(** ** A login with a provider's token *)

Section login.
Context {L : OidcLibrary} {LL : OidcLaws L} {U : UuidCodec} {R : RangeOrder} {C : Collation}.
Context {B S V : Type} {BR : Broker B} {BS : BlobStore S} {RI : RankIndex V} {TI : TokenIssuer}.
Context (cfg : GatewayConfig) (ocfg : gmap string string) (dr : Draw).

(** The gateway's verifier (bootstrap/gateway.go), at the time of the call. *)
#[local] Instance oidcVerifier : OIDCVerifier := Verifier_Verify (New ocfg) (d_now dr).

(** C22: only the provider's own token opens the account of its subject. A login with an OIDC
    credential that the gateway answers was made with a token that the provider signed with its
    pinned keys, issued in its own name (Google's with or without the scheme), for the audience
    this deployment configured for that very provider, and not yet expired; the player it
    returns owns the token's subject from then on. A token that does not verify, or of a
    provider without a configured audience, is refused and changes nothing; one that does verify
    logs in, whatever becomes of its optional name, under the interference of well-behaved
    transactions. *)
Theorem oidc_login_genuine pr idToken (w : World B S V) :
  race (gc_auth cfg) (d_fresh dr) (d_others dr) (w_db w) →
  let out := AuthHandler_Login cfg dr (Some (Oidc pr idToken)) w in
  match (toProvider pr w : reply string * World B S V).1 with
  | Fault c e => out = (Fault CodeInvalidArgument (ErrText "unknown oidc provider"), w)
  | Reply provider =>
      (is_Some (New ocfg !! provider) ↔ ∃ audience, ocfg !! provider = Some audience ∧ audience <> "") ∧
      match Verifier_Verify (New ocfg) (d_now dr) provider idToken with
      | Err _ => out = (Fault CodeUnauthenticated ErrInvalidCredential, w)
      | Ok vi => ∃ t p l w', genuine ocfg (d_now dr) provider idToken t ∧ vi_Subject vi = tok_Subject t ∧
          out = (Reply l, w') ∧ lpb_Player l = toPlayerPb p ∧ owner provider (tok_Subject t) (w_db w') = Some (pl_ID p)
      end
  end.
Proof.
  intros Hr. cbv zeta. unfold AuthHandler_Login, mbind, Rpc_bind.
  assert (Hp : ∀ provider, provider = "google" ∨ provider = "apple" →
    (is_Some (New ocfg !! provider) ↔ ∃ audience, ocfg !! provider = Some audience ∧ audience <> "")).
  { intros provider Hpr. split; [intros [v (a & ep & ? & ? & _)%New_lookup]; by exists a|]. intros (a & Ha & Hne).
    unfold New. rewrite map_lookup_imap, Ha. cbn. unfold verifier_for. rewrite bool_decide_eq_false_2 by done.
    by destruct Hpr as [-> | ->]; eexists. }
  assert (Hc : ∀ provider, match Verifier_Verify (New ocfg) (d_now dr) provider idToken with
    | Err _ => call_db (S := S) (B := B) (V := V) auth_toConnectError (LoginOIDC (gc_auth cfg) (d_fresh dr) (d_others dr) (d_now dr) provider idToken) w
        = (Fault CodeUnauthenticated ErrInvalidCredential, w)
    | Ok vi => ∃ t lr w', genuine ocfg (d_now dr) provider idToken t ∧ vi_Subject vi = tok_Subject t ∧
        call_db (S := S) (B := B) (V := V) auth_toConnectError (LoginOIDC (gc_auth cfg) (d_fresh dr) (d_others dr) (d_now dr) provider idToken) w = (Reply lr, w') ∧
        owner provider (tok_Subject t) (w_db w') = Some (pl_ID (lr_Player lr))
    end).
  { intros provider. pose proof (oidc_login_converges (gc_auth cfg) (d_fresh dr) (d_others dr) (d_now dr) provider idToken (w_db w) Hr) as H.
    change (Auth.Verify provider idToken) with (Verifier_Verify (New ocfg) (d_now dr) provider idToken) in H. unfold call_db, call.
    destruct (Verifier_Verify _ _ provider idToken) as [vi|e] eqn:E; [|rewrite H; by destruct w].
    destruct (Verify_genuine _ _ _ _ _ E) as (t & Hg & Hs). destruct H as (lr & db' & -> & _ & _ & Ho & _).
    exists t, lr, (set_db db' w). split_and!; [done|done|done|]. by rewrite <- Hs. }
  destruct pr as [| |x]; cbn [toProvider mret Rpc_ret fault fst]; [| |done].
  all: split; [by apply Hp; auto|].
  all: match goal with |- context [Verifier_Verify _ _ ?p _] => specialize (Hc p) end.
  all: destruct (Verifier_Verify _ _ _ idToken) as [vi|e]; [|by rewrite Hc].
  all: destruct Hc as (t & lr & w' & Hg & Hs & -> & Ho); by exists t, (lr_Player lr), (mkLoginPb (AccessToken lr) (lr_RefreshToken lr) (toPlayerPb (lr_Player lr))), w'.
Qed.
End login.

(** ** Evaluation

    A library that accepts the token "good" and gives it no name, and Google's no scheme. *)
#[local] Instance demo_library : OidcLibrary := {|
  IDToken := string * string;
  IDTokenVerifier_Verify v now raw := if bool_decide (raw = "good" ∧ now ≤ 5000000000) then
      Ok (if bool_decide (iv_issuer v = "https://accounts.google.com") then "accounts.google.com" else iv_issuer v, iv_ClientID v) else Err (ErrText "oidc: malformed jwt");
  tok_Issuer t := t.1; tok_Audience t := [t.2]; tok_Expiry t := 5000000000; tok_Subject t := "sub-1";
  Claims_name t := Err (ErrText "no name");
|}.

#[local] Instance demo_library_laws : OidcLaws demo_library.
Proof.
  refine {| signed_by _ raw := raw = "good" |}. intros v now raw t. cbn. case_bool_decide as H; [|done]. intros [= <-].
  destruct H as [-> H]. split_and!; [|by left|done|done].
  cbn. case_bool_decide; [by right|by left].
Defined.

Definition demo_oidc : gmap string string := <["google" := "vfx-client"]> {[ "apple" := "" ]}.
Definition demo_oidc_draw : Draw := mkDraw 1000 (sample_uuid x71) (sample_uuid x72) demo_draws demo_others.
Definition demo_oidc_world : World StreamHub (gmap string ObjectAttrs) unit := mkWorld demo_auth_db NewHub ∅ tt NewInMem ∅.

Lemma oidc_login_genuine_witness :
  ∃ t p l w', genuine demo_oidc 1000 "google" "good" t ∧
    AuthHandler_Login (TI := demo_issuer) (OV := oidcVerifier demo_oidc demo_oidc_draw) (U := hex_codec) demo_gateway demo_oidc_draw
      (Some (Oidc PROVIDER_GOOGLE "good")) demo_oidc_world = (Reply l, w') ∧ lpb_Player l = toPlayerPb (U := hex_codec) p ∧
    owner "google" (tok_Subject t) (w_db w') = Some (pl_ID p).
Proof.
  pose proof (oidc_login_genuine (U := hex_codec) (TI := demo_issuer) demo_gateway demo_oidc demo_oidc_draw PROVIDER_GOOGLE "good" demo_oidc_world demo_race) as H.
  cbv zeta in H. destruct H as [_ H].
  assert (E : Verifier_Verify (New demo_oidc) (d_now demo_oidc_draw) "google" "good" = Ok (mkVerifiedIdentity "sub-1" "")).
  { unfold Verifier_Verify, New. rewrite map_lookup_imap. replace (demo_oidc !! "google") with (Some "vfx-client") by (vm_compute; reflexivity).
    vm_compute. reflexivity. }
  cbn [toProvider mret Rpc_ret fst] in H. rewrite E in H. destruct H as (t & p & l & w' & Hg & _ & Ho & Hp & Hw). exists t, p, l, w'. exact (conj Hg (conj Ho (conj Hp Hw))).
Defined.
