(* ===== verification/Bootstrap.v ===== *)
(** * Starting the processes (internal/bootstrap, infra/config, infra/postgres, infra/valkey, domain/plugin/registry.go)

    The constructors open connections and clients, hand parts of the configuration to the components,
    and return a cleanup.  Their state is the trace of what was opened and closed; what the outside
    answers to each attempt is an argument.  [gateway_no_leak] and [admin_no_leak] show that a failed
    start leaves nothing open and that the cleanup of a successful one closes everything, in reverse;
    [room_leaves_manager] where the room's start falls short of that; [defaults_fit] that the default
    configuration is one the theorems of the other files apply to. *)

From S2P Require Import Prelude GoBase GoStrings Database Match Matchmaker.
From S2P Require Import Social Storage ObjectStore Group Chat Leaderboard Auth Token Gateway Allocator.

(** ** Resources *)

Inductive resource := PgPool | ValkeyClient | ObjectClient | WazeroRuntime | ManagerContext.
Inductive lifecycle := Opened (r : resource) | Closed (r : resource).

Notation Boot := (M (list lifecycle)).

Definition note (e : lifecycle) : Boot unit := modify (λ tr, tr ++ [e]).

(** A constructor of a library: it opens [r] unless it fails. *)
Definition open (r : resource) (outcome : option error) : Boot unit :=
  match outcome with Some err => fail err | None => note (Opened r) end.
Definition close (r : resource) : Boot unit := note (Closed r).
Fixpoint close_all (l : list resource) : Boot unit := match l with [] => mret tt | r :: l' => _ ← close r; close_all l' end.

Definition wrapping {A} (msg : string) (m : Boot A) : Boot A := λ tr, match m tr with (Err e, tr') => (Err (Wrap msg e), tr') | r => r end.

(** [x, err := m; if err != nil { cleanup; return err }]. *)
Definition or_close {A} (l : list resource) (m : Boot A) : Boot A := λ tr,
  match m tr with
  | (Err e, tr') => ((_ ← close_all l; fail e) : Boot A) tr'
  | r => r
  end.

(** postgres.NewPool and valkey.NewClient; [Ping] of the pool, [ParseURL] of the client. *)
Definition NewPool (created ping : option error) : Boot unit :=
  _ ← wrapping "postgres: open pool" (open PgPool created);
  match ping with Some err => _ ← close PgPool; fail (Wrap "postgres: ping" err) | None => mret tt end.

Definition NewValkeyClient (parsed created : option error) : Boot unit :=
  match parsed with
  | Some err => fail (Wrap "valkey: parse url" err)
  | None => wrapping "valkey: new client" (open ValkeyClient created)
  end.

(** blobstore.NewGCS; [key] is the ephemeral key, drawn only against the emulator. *)
Definition NewGCS (created : option error) (emulated : bool) (key : res string) : Boot (option string) :=
  _ ← wrapping "blobstore: new client" (open ObjectClient created);
  if negb emulated then mret None
  else match key with
       | Err err => _ ← close ObjectClient; fail (Wrap "blobstore: generate signing key" err)
       | Ok k => mret (Some k)
       end.

(** ** Configuration (infra/config/gateway.go, admin.go)

    The structs after parsing; the defaults are those of the env tags. *)

Record GatewayEnv := mkGatewayEnv {
  ge_ListenAddr : string; ge_DatabaseURL : string; ge_ValkeyURL : string; ge_JWTSecret : string;
  ge_AccessTokenTTL : duration; ge_RefreshTokenTTL : duration; ge_SessionTokenTTL : duration;
  ge_OIDCGoogleClientID : string; ge_OIDCAppleClientID : string;
  ge_MatchmakerInterval : duration; ge_MatchmakerLeaderTTL : duration; ge_GameModes : list string; ge_PlayersPerMatch : Z;
  ge_MatchBaseRatingWindow : float64; ge_MatchRatingWindowGrowthPerSec : float64; ge_MatchRegionRelaxAfter : duration;
  ge_RoomEndpoint : string; ge_MatchQueue : string; ge_Allocator : string; ge_AgonesNamespace : string;
  ge_StorageBucket : string; ge_StorageEmulatorHost : string; ge_StoragePlayerDataPrefix : string; ge_StorageTitlePrefix : string;
  ge_StorageURLTTL : duration; ge_StorageMaxBytesPerPlayer : Z; ge_StorageMaxFilesPerPlayer : Z;
  ge_Leaderboards : list string; ge_LeaderboardDefaultLimit : Z; ge_LeaderboardMaxLimit : Z; ge_LeaderboardMaxRadius : Z;
  ge_LeaderboardIndexTTL : duration; ge_ChatHistoryDefaultLimit : Z; ge_ChatHistoryMaxLimit : Z;
}.

Definition Minute : duration := 60 * Second.
Definition Hour : duration := 60 * Minute.

Definition gateway_defaults (databaseURL secret bucket : string) : GatewayEnv :=
  mkGatewayEnv ":8080" databaseURL "redis://localhost:6379" secret (15 * Minute) (720 * Hour) (5 * Minute) "" ""
    (200 * Millisecond) (15 * Second) ["rps"] 2 (f64_of_Z 0) (f64_of_Z 0) 0 "localhost:7777" "inmem" "stub" "default"
    bucket "" "player-data" "title" (15 * Minute) 10485760 64 [] 20 100 50 Hour 50 200.

Record AdminEnv := mkAdminEnv {
  ae_ListenAddr : string; ae_DatabaseURL : string; ae_ValkeyURL : string; ae_MatchQueue : string; ae_AuthToken : string;
  ae_StorageBucket : string; ae_StorageEmulatorHost : string; ae_StorageTitlePrefix : string;
}.

Definition admin_defaults (databaseURL token bucket : string) : AdminEnv :=
  mkAdminEnv ":8090" databaseURL "redis://localhost:6379" "inmem" token bucket "" "title".

(** ** Choosing implementations (bootstrap/gateway.go) *)

Inductive queue_kind := ValkeyQueue | InMemQueue.
Definition newMatchQueue (mode : string) : res queue_kind :=
  if bool_decide (mode = "valkey") then Ok ValkeyQueue
  else if bool_decide (mode = "" ∨ mode = "inmem") then Ok InMemQueue
  else Err (ErrText ("bootstrap: unknown match queue " +:+ mode)).

Inductive allocator_kind := AgonesAllocator (a : Agones) | StubAllocator (s : Stub).

(** NewAgones: the in-cluster configuration, then the clientset; neither holds a connection. *)
Definition NewAgones (in_cluster clientset : option error) (namespace : string) : res allocator_kind :=
  match in_cluster with
  | Some err => Err (Wrap "allocator: in-cluster config" err)
  | None => match clientset with
            | Some err => Err (Wrap "allocator: agones clientset" err)
            | None => Ok (AgonesAllocator (newAgonesWithClient namespace))
            end
  end.

Definition newAllocator (in_cluster clientset : option error) (cfg : GatewayEnv) : res allocator_kind :=
  if bool_decide (ge_Allocator cfg = "agones") then NewAgones in_cluster clientset (ge_AgonesNamespace cfg)
  else if bool_decide (ge_Allocator cfg = "" ∨ ge_Allocator cfg = "stub") then Ok (StubAllocator (NewStub (ge_RoomEndpoint cfg)))
  else Err (ErrText ("bootstrap: unknown allocator " +:+ ge_Allocator cfg)).

(** ** The gateway *)

(** What the outside answers. *)
Record Outcomes := mkOutcomes {
  oc_pool : option error; oc_ping : option error; oc_valkeyURL : option error; oc_valkey : option error;
  oc_in_cluster : option error; oc_clientset : option error; oc_objects : option error; oc_key : res string;
}.

Record GatewayContainer := mkGatewayContainer {
  gw_queue : queue_kind; gw_allocator : allocator_kind; gw_secret : string; gw_oidc : gmap string string;
  gw_matchmaker : Config; gw_storage : option StorageConfig; gw_config : StorageConfig → GatewayConfig;
}.

Definition matchmaker_config (cfg : GatewayEnv) : Config :=
  mkConfig (ge_MatchmakerInterval cfg) (ge_SessionTokenTTL cfg) (ge_PlayersPerMatch cfg) (ge_GameModes cfg)
    (mkMatchingPolicy (ge_MatchBaseRatingWindow cfg) (ge_MatchRatingWindowGrowthPerSec cfg) (ge_MatchRegionRelaxAfter cfg)).

Definition storage_config (cfg : GatewayEnv) : StorageConfig :=
  mkStorageConfig (ge_StoragePlayerDataPrefix cfg) (ge_StorageTitlePrefix cfg) (ge_StorageURLTTL cfg)
    (ge_StorageMaxBytesPerPlayer cfg) (ge_StorageMaxFilesPerPlayer cfg).

Definition handler_config (cfg : GatewayEnv) (defs : gmap string Leaderboard) (storage : StorageConfig) : GatewayConfig :=
  mkGatewayConfig defs (mkLeaderboardConfig (ge_LeaderboardDefaultLimit cfg) (ge_LeaderboardMaxLimit cfg) (ge_LeaderboardMaxRadius cfg))
    (mkChatConfig (ge_ChatHistoryDefaultLimit cfg) (ge_ChatHistoryMaxLimit cfg)) storage
    (mkAuthConfig (ge_AccessTokenTTL cfg) (ge_RefreshTokenTTL cfg)) (ge_PlayersPerMatch cfg).

(** The container and the resources that the cleanup closes, in that order.  [loaded] is what
    [config.LoadGateway] gives. *)
Definition NewGateway (loaded : res GatewayEnv) (o : Outcomes) : Boot (GatewayContainer * list resource) :=
  cfg ← lift_res loaded;
  _ ← NewPool (oc_pool o) (oc_ping o);
  _ ← or_close [PgPool] (wrapping "bootstrap" (NewValkeyClient (oc_valkeyURL o) (oc_valkey o)));
  let oidc := <["google" := ge_OIDCGoogleClientID cfg]> {[ "apple" := ge_OIDCAppleClientID cfg ]} in
  matchQueue ← or_close [ValkeyClient; PgPool] (lift_res (newMatchQueue (ge_MatchQueue cfg)));
  matchAllocator ← or_close [ValkeyClient; PgPool] (lift_res (newAllocator (oc_in_cluster o) (oc_clientset o) cfg));
  '(storage, blobCleanup) ←
    (if bool_decide (ge_StorageBucket cfg = "") then mret (None, [])
     else _ ← or_close [ValkeyClient; PgPool] (NewGCS (oc_objects o) (bool_decide (ge_StorageEmulatorHost cfg <> "")) (oc_key o));
          mret (Some (storage_config cfg), [ObjectClient]));
  leaderboardDefs ← or_close (blobCleanup ++ [ValkeyClient; PgPool]) (lift_res (parseLeaderboards (ge_Leaderboards cfg)));
  mret (mkGatewayContainer matchQueue matchAllocator (ge_JWTSecret cfg) oidc (matchmaker_config cfg) storage (handler_config cfg leaderboardDefs),
        blobCleanup ++ [ValkeyClient; PgPool]).

(** ** The operations API (bootstrap/admin.go)

    Its storage usecase has the title prefix only: the other knobs keep their zero values. *)

Record AdminContainer := mkAdminContainer { ac_queue : queue_kind; ac_storage : option StorageConfig; ac_token : string }.

Definition NewAdmin (loaded : res AdminEnv) (o : Outcomes) : Boot (AdminContainer * list resource) :=
  cfg ← lift_res loaded;
  _ ← NewPool (oc_pool o) (oc_ping o);
  _ ← or_close [PgPool] (wrapping "bootstrap" (NewValkeyClient (oc_valkeyURL o) (oc_valkey o)));
  matchQueue ← or_close [ValkeyClient; PgPool] (lift_res (newMatchQueue (ae_MatchQueue cfg)));
  '(storage, blobCleanup) ←
    (if bool_decide (ae_StorageBucket cfg = "") then mret (None, [])
     else _ ← or_close [ValkeyClient; PgPool] (NewGCS (oc_objects o) (bool_decide (ae_StorageEmulatorHost cfg <> "")) (oc_key o));
          mret (Some (mkStorageConfig "" (ae_StorageTitlePrefix cfg) 0 0 0), [ObjectClient]));
  mret (mkAdminContainer matchQueue storage (ae_AuthToken cfg), blobCleanup ++ [ValkeyClient; PgPool]).

(** ** The room (bootstrap/room.go, domain/plugin/registry.go) *)

Section registry.
Context {F : Type} (Name : F → string) {RO : RangeOrder}.

Notation Registry := (gmap string F).
Definition NewRegistry : Registry := ∅.

Definition Register (f : F) : M Registry unit := λ r,
  match r !! Name f with
  | Some _ => (Err (ErrText ("plugin: " +:+ Name f +:+ " already registered")), r)
  | None => (Ok tt, <[Name f := f]> r)
  end.

Definition Registry_Lookup (name : string) (r : Registry) : res F :=
  match r !! name with Some f => Ok f | None => Err (ErrText ("plugin: " +:+ name +:+ " not registered")) end.

(** In the order of a range over the map. *)
Definition Names (r : Registry) : list string := range_order (map_to_list r).*1.

(** [strings.HasSuffix]. *)
Definition HasSuffix (s suf : string) : bool :=
  (String.length suf <=? String.length s)%nat &&
  String.eqb (String.substring (String.length s - String.length suf) (String.length suf) s) suf.

Inductive room_factory := WasmFactory (name wasm : string) | Registered (f : F).

(** wazerohost.NewFactory: the runtime, then WASI, then the module. *)
Definition NewFactory (wasi compiled : option error) (name wasm : string) : Boot room_factory :=
  _ ← note (Opened WazeroRuntime);
  match wasi with
  | Some err => _ ← close WazeroRuntime; fail (Wrap "wazerohost: instantiate wasi" err)
  | None => match compiled with
            | Some err => _ ← close WazeroRuntime; fail (Wrap "wazerohost: compile module" err)
            | None => mret (WasmFactory name wasm)
            end
  end.

Record RoomEnv := mkRoomEnv {
  re_ListenAddr : string; re_TLSCertFile : string; re_TLSKeyFile : string; re_JWTSecret : string; re_TickRateHz : Z; re_PluginPath : string;
  re_HandshakeTimeout : duration; re_AgonesEnabled : bool; re_AgonesHealthInterval : duration; re_MetricsAddr : string; re_DatagramMaxBytes : Z;
}.

(** The factory and what its cleanup closes; [file] is the content of the plugin file. *)
Definition selectFactory (file : res string) (wasi compiled : option error) (pluginPath : string) (registry : Registry) : Boot (room_factory * list resource) :=
  if HasSuffix pluginPath ".wasm" then
    wasm ← wrapping "room: read plugin" (lift_res file);
    factory ← NewFactory wasi compiled pluginPath wasm;
    mret (factory, [WazeroRuntime])
  else
    name ← (if bool_decide (pluginPath = "") then
              match Names registry with
              | [] => fail (ErrText "room: no plugin available; set VFX_ROOM_PLUGIN_PATH to a .wasm file or build a binary that registers one")
              | name :: _ => mret name
              end
            else mret pluginPath);
    factory ← wrapping "room" (lift_res (Registry_Lookup name registry));
    mret (Registered factory, []).

(** presentation/room/server.go: the HTTP/3 server of a room and what it demands of a connection. *)
Record RoomListener := mkRoomListener {
  rl_Addr : string; rl_Patterns : list string; rl_NextProtos : list string; rl_MinTLS : string; rl_HandshakeIdleTimeout : duration;
  rl_EnableDatagrams : bool; rl_EnableStreamResetPartialDelivery : bool; rl_CheckOrigin : string → bool;
}.

Definition NewServer (cert : option error) (cfg : RoomEnv) : res RoomListener :=
  match cert with
  | Some err => Err (Wrap "room: load tls" err)
  | None => Ok (mkRoomListener (re_ListenAddr cfg) ["/room/"] ["h3"] "1.3" (re_HandshakeTimeout cfg) true true (λ _, true))
  end.

(** The container keeps the factory, the secret, the datagram bound and the handshake timeout;
    [cert] is [tls.LoadX509KeyPair]. *)
Record RoomContainer := mkRoomContainer { rc_factory : room_factory; rc_secret : string; rc_datagramMax : Z; rc_server : RoomListener }.

Definition NewRoom (loaded : res RoomEnv) (file : res string) (wasi compiled cert : option error) (registry : Registry)
    : Boot (RoomContainer * list resource) :=
  cfg ← lift_res loaded;
  '(factory, factoryCleanup) ← selectFactory file wasi compiled (re_PluginPath cfg) registry;
  _ ← note (Opened ManagerContext);
  match NewServer cert cfg with
  | Err err => _ ← close_all factoryCleanup; fail err
  | Ok server => mret (mkRoomContainer factory (re_JWTSecret cfg) (re_DatagramMaxBytes cfg) server, ManagerContext :: factoryCleanup)
  end.
End registry.

(** ** Balanced traces *)

Lemma close_all_eval l tr : close_all l tr = (Ok tt, tr ++ (Closed <$> l)).
Proof.
  revert tr. induction l as [|r l IH]; intros tr; [by rewrite app_nil_r|]. cbn [close_all]. rewrite M_bind_eval. cbn.
  by rewrite IH, <- app_assoc.
Qed.

(** With [l] open, in this order, [m] succeeds with more open, as [Q] says, or fails with everything
    closed again, in reverse. *)
Definition tidy {A} (l : list resource) (m : Boot A) (Q : A → list resource → Prop) : Prop := ∀ tr,
  match m (tr ++ (Opened <$> l)) with
  | (Ok a, tr') => ∃ l', tr' = tr ++ (Opened <$> l') ∧ Q a l'
  | (Err _, tr') => ∃ l', tr' = tr ++ (Opened <$> l') ++ (Closed <$> rev l')
  end.

Lemma tidy_ret {A} l (a : A) (Q : A → list resource → Prop) : Q a l → tidy l (mret a) Q.
Proof. intros H tr. by exists l. Qed.

Lemma tidy_bind {A A'} l (m : Boot A) (k : A → Boot A') Q R : tidy l m Q → (∀ a l', Q a l' → tidy l' (k a) R) → tidy l (m ≫= k) R.
Proof.
  intros Hm Hk tr. rewrite M_bind_eval. specialize (Hm tr). destruct (m _) as [[a|e] tr']; [|done].
  destruct Hm as (l' & -> & Hq). exact (Hk a l' Hq tr).
Qed.

Lemma tidy_lift {A} (r : res A) : tidy [] (lift_res r) (λ a l, r = Ok a ∧ l = []).
Proof. intros tr. unfold lift_res. destruct r as [a|e]; cbn; rewrite app_nil_r; exists []; by rewrite ?app_nil_r. Qed.

Lemma tidy_wrapping {A} msg l (m : Boot A) Q : tidy l m Q → tidy l (wrapping msg m) Q.
Proof. intros H tr. specialize (H tr). unfold wrapping. by destruct (m _) as [[a|e] tr']. Qed.

Lemma tidy_open r outcome : tidy [] (open r outcome) (λ _ l, l = [r]).
Proof. intros tr. unfold open, fail, note, modify. destruct outcome; cbn; rewrite app_nil_r; [exists []; by rewrite app_nil_r|by exists [r]]. Qed.

Lemma tidy_closing {A} (l : list resource) err : tidy l (_ ← close_all (rev l); fail err : Boot A) (λ _ _, False).
Proof. intros tr. rewrite M_bind_eval, close_all_eval. cbn. exists l. by rewrite app_assoc. Qed.

(** Closing the others after a failure that left them open. *)
Lemma tidy_or_close {A} l (m : Boot A) Q : tidy [] m Q → tidy l (or_close (rev l) m) (λ a l', ∃ k, l' = l ++ k ∧ Q a k).
Proof.
  intros H tr. unfold or_close. specialize (H (tr ++ (Opened <$> l))). cbn [fmap list_fmap] in H. rewrite app_nil_r in H.
  destruct (m _) as [[a|e] tr'].
  - destruct H as (k & -> & Hq). exists (l ++ k). rewrite fmap_app, app_assoc. split; [done|]. by exists k.
  - destruct H as (k & ->). rewrite M_bind_eval, close_all_eval. cbn. exists (l ++ k). by rewrite rev_app_distr, !fmap_app, !app_assoc.
Qed.

Lemma tidy_weaken {A} l (m : Boot A) (Q R : A → list resource → Prop) : (∀ a l', Q a l' → R a l') → tidy l m Q → tidy l m R.
Proof. intros H Hm tr. specialize (Hm tr). destruct (m _) as [[a|e] tr']; [|done]. destruct Hm as (l' & ? & ?). eauto. Qed.

Lemma tidy_pool created ping : tidy [] (NewPool created ping) (λ _ l, l = [PgPool]).
Proof.
  unfold NewPool. eapply tidy_bind; [apply tidy_wrapping, tidy_open|]. intros _ l ->. destruct ping as [err|]; [|by apply tidy_ret].
  eapply tidy_weaken; [|apply (tidy_closing [PgPool])]. done.
Qed.

Lemma tidy_valkey parsed created : tidy [] (NewValkeyClient parsed created) (λ _ l, l = [ValkeyClient]).
Proof.
  unfold NewValkeyClient. destruct parsed as [err|]; [|apply tidy_wrapping, tidy_open].
  intros tr. exists []. cbn. by rewrite !app_nil_r.
Qed.

Lemma tidy_gcs created emulated key : tidy [] (NewGCS created emulated key) (λ _ l, l = [ObjectClient]).
Proof.
  unfold NewGCS. eapply tidy_bind; [apply tidy_wrapping, tidy_open|]. intros _ l ->. destruct (negb emulated); [by apply tidy_ret|].
  destruct key as [k|err]; [by apply tidy_ret|]. eapply tidy_weaken; [|apply (tidy_closing [ObjectClient])]. done.
Qed.

#[local] Hint Resolve tidy_pool tidy_valkey tidy_gcs tidy_lift tidy_ret : tidy.

(** A step that closes [l] when it fails, [k] being what it opens itself. *)
Lemma tidy_step {A A'} l k (m : Boot A) (f : A → Boot A') (Q R : A → list resource → Prop) (P : A' → list resource → Prop) :
  tidy [] m Q → (∀ a k', Q a k' → k' = k ∧ R a k) → (∀ a, R a k → tidy (l ++ k) (f a) P) → tidy l (or_close (rev l) m ≫= f) P.
Proof.
  intros Hm HQ Hf. eapply tidy_bind; [by apply tidy_or_close|]. intros a l' (k' & -> & Hq). destruct (HQ _ _ Hq) as [-> Hr]. by apply Hf.
Qed.

Lemma tidy_choice {A A'} l (r : res A) (f : A → Boot A') P : (∀ a, r = Ok a → tidy l (f a) P) → tidy l (or_close (rev l) (lift_res r) ≫= f) P.
Proof.
  intros Hf. eapply (tidy_step l [] _ _ _ (λ a _, r = Ok a)); [apply tidy_lift| |].
  - by intros a k' [-> ->].
  - intros a Ha. rewrite app_nil_r. by apply Hf.
Qed.

(** The connections of both processes, and the object store when a bucket is named. *)
Definition resources (bucket : string) : list resource := [PgPool; ValkeyClient] ++ (if bool_decide (bucket = "") then [] else [ObjectClient]).

Lemma tidy_connected {A} o (f : Boot A) P : tidy [PgPool; ValkeyClient] f P →
  tidy [] (_ ← NewPool (oc_pool o) (oc_ping o); _ ← or_close [PgPool] (wrapping "bootstrap" (NewValkeyClient (oc_valkeyURL o) (oc_valkey o))); f) P.
Proof.
  intros Hf. eapply tidy_bind; [apply tidy_pool|]. intros _ l ->. change [PgPool] with (rev [PgPool]).
  eapply (tidy_step [PgPool] [ValkeyClient] _ _ _ (λ _ _, True)); [apply tidy_wrapping, tidy_valkey|by intros _ k' ->|done].
Qed.

Lemma tidy_blobs {A} o bucket emulated (cfg : StorageConfig) (f : option StorageConfig * list resource → Boot A) P :
  (∀ storage cleanup, (storage = None ↔ bucket = "") → cleanup ++ [ValkeyClient; PgPool] = rev (resources bucket) →
     tidy (resources bucket) (f (storage, cleanup)) P) →
  tidy [PgPool; ValkeyClient]
    ((if bool_decide (bucket = "") then mret (None, [])
      else _ ← or_close [ValkeyClient; PgPool] (NewGCS (oc_objects o) emulated (oc_key o)); mret (Some cfg, [ObjectClient])) ≫= f) P.
Proof.
  unfold resources. intros Hf. destruct (decide (bucket = "")) as [Hb|Hb].
  - rewrite !bool_decide_true in * by done. eapply tidy_bind; [by apply (tidy_ret _ _ (λ a l, a = (None, []) ∧ l = [PgPool; ValkeyClient]))|].
    intros a l [-> ->]. by apply Hf.
  - rewrite !bool_decide_false in * by done.
    eapply (tidy_bind _ _ _ (λ a l, a = (Some cfg, [ObjectClient]) ∧ l = [PgPool; ValkeyClient; ObjectClient])).
    + change [ValkeyClient; PgPool] with (rev [PgPool; ValkeyClient]).
      eapply (tidy_step _ [ObjectClient] _ _ _ (λ _ _, True)); [apply tidy_gcs|by intros _ k' ->|]. intros a _. by apply tidy_ret.
    + intros a l [-> ->]. by apply Hf.
Qed.

(** ** The processes start and stop cleanly *)

(** When the gateway starts. *)
Definition gateway_startable (loaded : res GatewayEnv) (o : Outcomes) : bool :=
  match loaded with
  | Err _ => false
  | Ok cfg =>
      forallb (λ x : option error, negb (bool_decide (is_Some x))) [oc_pool o; oc_ping o; oc_valkeyURL o; oc_valkey o] &&
      bool_decide (ge_MatchQueue cfg ∈ ["valkey"; ""; "inmem"]) &&
      (bool_decide (ge_Allocator cfg ∈ [""; "stub"]) ||
       bool_decide (ge_Allocator cfg = "agones" ∧ oc_in_cluster o = None ∧ oc_clientset o = None)) &&
      (bool_decide (ge_StorageBucket cfg = "") || bool_decide (oc_objects o = None) && (bool_decide (ge_StorageEmulatorHost cfg = "") || is_ok (oc_key o))) &&
      is_ok (parseLeaderboards (ge_Leaderboards cfg))
  end.

Lemma newMatchQueue_ok mode : is_ok (newMatchQueue mode) = bool_decide (mode ∈ ["valkey"; ""; "inmem"]).
Proof.
  unfold newMatchQueue. destruct (decide (mode = "valkey")) as [->|H]; [done|]. rewrite (bool_decide_false (mode = "valkey")) by done.
  destruct (decide (mode = "" ∨ mode = "inmem")) as [[-> | ->]|H']; [done..|]. rewrite !bool_decide_false; [done| |done].
  intros Hin%list_elem_of_In. cbn in Hin. naive_solver.
Qed.

Lemma newAllocator_ok in_cluster clientset cfg : is_ok (newAllocator in_cluster clientset cfg) =
  bool_decide (ge_Allocator cfg ∈ [""; "stub"]) || bool_decide (ge_Allocator cfg = "agones" ∧ in_cluster = None ∧ clientset = None).
Proof.
  unfold newAllocator, NewAgones. destruct (decide (ge_Allocator cfg = "agones")) as [->|H].
  - by destruct in_cluster, clientset.
  - rewrite (bool_decide_false (ge_Allocator cfg = "agones")), (bool_decide_false (_ ∧ _)), orb_false_r by naive_solver.
    destruct (decide (ge_Allocator cfg = "" ∨ ge_Allocator cfg = "stub")) as [[-> | ->]|H']; [done..|]. rewrite !bool_decide_false; [done| |done].
    intros Hin%list_elem_of_In. cbn in Hin. naive_solver.
Qed.

Lemma NewGateway_starts loaded o tr : is_ok (NewGateway loaded o tr).1 = gateway_startable loaded o.
Proof.
  destruct loaded as [cfg|e]; [|done]. unfold gateway_startable. rewrite <- newMatchQueue_ok, <- newAllocator_ok.
  destruct o as [pool ping url client cluster clientset objects key]. cbn [forallb oc_pool oc_ping oc_valkeyURL oc_valkey oc_objects oc_key oc_in_cluster oc_clientset].
  unfold NewGateway. cbn [oc_pool oc_ping oc_valkeyURL oc_valkey oc_objects oc_key oc_in_cluster oc_clientset].
  destruct pool; [done|]. destruct ping; [done|]. destruct url; [done|]. destruct client; [done|].
  cbn [andb negb]. unfold lift_res at 1. rewrite M_bind_eval. cbn [mret M_ret].
  destruct (newMatchQueue (ge_MatchQueue cfg)) as [q|e] eqn:Eq; [|cbn; by rewrite Eq].
  destruct (newAllocator cluster clientset cfg) as [a|e] eqn:Ea; [|cbn; rewrite Eq; cbn; by rewrite Ea].
  destruct (bool_decide (ge_StorageBucket cfg = "")) eqn:Eb.
  - destruct (parseLeaderboards (ge_Leaderboards cfg)) as [defs|e] eqn:El; cbn; rewrite Eq; cbn; rewrite Ea; cbn; rewrite Eb; cbn; by rewrite El.
  - destruct objects; [cbn; rewrite Eq; cbn; rewrite Ea; cbn; by rewrite Eb|].
    assert (He : bool_decide (ge_StorageEmulatorHost cfg <> "") = negb (bool_decide (ge_StorageEmulatorHost cfg = ""))) by apply bool_decide_not.
    destruct (bool_decide (ge_StorageEmulatorHost cfg = "")) eqn:Ee, key as [k|e], (parseLeaderboards (ge_Leaderboards cfg)) as [defs|e'] eqn:El;
      cbn; rewrite Eq; cbn; rewrite Ea; cbn; rewrite Eb; cbn; rewrite He; cbn; by rewrite ?El.
Qed.

Definition leftovers (opened : list resource) : list lifecycle := (Opened <$> opened) ++ (Closed <$> rev opened).

Lemma tidy_gateway cfg o : tidy [] (NewGateway (Ok cfg) o) (λ r l,
  l = resources (ge_StorageBucket cfg) ∧ r.2 = rev l ∧ (gw_storage r.1 = None ↔ ge_StorageBucket cfg = "")).
Proof.
  unfold NewGateway. unfold lift_res at 1. apply tidy_connected. change [ValkeyClient; PgPool] with (rev [PgPool; ValkeyClient]).
  apply tidy_choice. intros q Hq. apply tidy_choice. intros a Ha. apply tidy_blobs. intros storage cleanup Hs Hc.
  cbn [rev app]. rewrite Hc. apply tidy_choice. intros defs Hd. by apply tidy_ret.
Qed.

(** the gateway's start opens in order and closes in reverse.  It succeeds exactly when the
    configuration loads, every dependency answers and the queue, allocator and leaderboards named in
    it are known ones.  On any failure everything opened before is closed again, last opened
    first; on success what is open is the pool, the Valkey client and, if a bucket is named, the
    object-store client, the storage service is wired exactly in that last case, and running the
    returned cleanup closes all of it. *)
Theorem gateway_no_leak loaded o tr :
  is_ok (NewGateway loaded o tr).1 = gateway_startable loaded o ∧
  match NewGateway loaded o tr with
  | (Err _, tr') => ∃ opened, tr' = tr ++ leftovers opened
  | (Ok (c, cleanup), tr') => ∃ cfg, let opened := resources (ge_StorageBucket cfg) in
      loaded = Ok cfg ∧ tr' = tr ++ (Opened <$> opened) ∧ (gw_storage c = None ↔ ge_StorageBucket cfg = "") ∧
      close_all cleanup tr' = (Ok tt, tr ++ leftovers opened)
  end.
Proof.
  split; [apply NewGateway_starts|]. destruct loaded as [cfg|e]; [|by exists []; rewrite app_nil_r].
  pose proof (tidy_gateway cfg o tr) as H. cbn [fmap list_fmap] in H. rewrite app_nil_r in H.
  destruct (NewGateway _ _ _) as [[[c cleanup]|e] tr'].
  - destruct H as (l & -> & -> & Hc & Hs). exists cfg. split_and!; [done..|]. cbn [snd] in Hc. by rewrite close_all_eval, Hc, <- app_assoc.
  - exact H.
Qed.

(** ** The operations API *)

Lemma tidy_admin cfg o : tidy [] (NewAdmin (Ok cfg) o) (λ r l,
  l = resources (ae_StorageBucket cfg) ∧ r.2 = rev l ∧ (ac_storage r.1 = None ↔ ae_StorageBucket cfg = "")).
Proof.
  unfold NewAdmin. unfold lift_res at 1. apply tidy_connected. change [ValkeyClient; PgPool] with (rev [PgPool; ValkeyClient]).
  apply tidy_choice. intros q Hq. apply tidy_blobs. intros storage cleanup Hs Hc. cbn [rev app]. rewrite Hc. by apply tidy_ret.
Qed.

(** The same for the operations process, whose file routes are mounted exactly when a bucket is named. *)
Theorem admin_no_leak loaded o tr :
  match NewAdmin loaded o tr with
  | (Err _, tr') => ∃ opened, tr' = tr ++ leftovers opened
  | (Ok (c, cleanup), tr') => ∃ cfg, let opened := resources (ae_StorageBucket cfg) in
      loaded = Ok cfg ∧ tr' = tr ++ (Opened <$> opened) ∧ (ac_storage c = None ↔ ae_StorageBucket cfg = "") ∧
      close_all cleanup tr' = (Ok tt, tr ++ leftovers opened)
  end.
Proof.
  destruct loaded as [cfg|e]; [|by exists []; rewrite app_nil_r].
  pose proof (tidy_admin cfg o tr) as H. cbn [fmap list_fmap] in H. rewrite app_nil_r in H.
  destruct (NewAdmin _ _ _) as [[[c cleanup]|e] tr'].
  - destruct H as (l & -> & -> & Hc & Hs). exists cfg. split_and!; [done..|]. cbn [snd] in Hc. by rewrite close_all_eval, Hc, <- app_assoc.
  - exact H.
Qed.

(** ** The room *)

Section room.
Context {F : Type} (Name : F → string) {RO : RangeOrder} {RL : RangeOrderLaw RO}.
Notation Registry := (gmap string F).

(** Registering plugins one after the other. *)
Fixpoint register_all (fs : list F) : M Registry unit :=
  match fs with [] => mret tt | f :: fs' => _ ← Register Name f; register_all fs' end.

Lemma Register_lookup f (r r' : Registry) : Register Name f r = (Ok tt, r') → r' = <[Name f := f]> r ∧ r !! Name f = None.
Proof. unfold Register. destruct (r !! Name f); [done|]. by intros [= <-]. Qed.

Lemma Lookup_Ok name (r : Registry) f : Registry_Lookup name r = Ok f ↔ r !! name = Some f.
Proof. unfold Registry_Lookup. destruct (r !! name); naive_solver. Qed.

(** The registry knows the plugins under their names. *)
Definition well_named (r : Registry) : Prop := ∀ name f, r !! name = Some f → Name f = name.

Lemma register_all_ok fs : ∀ r, well_named r → (∀ f, f ∈ fs → r !! Name f = None) → NoDup (Name <$> fs) →
  ∃ r', register_all fs r = (Ok tt, r') ∧ well_named r' ∧ (∀ name f, r' !! name = Some f ↔ r !! name = Some f ∨ f ∈ fs ∧ Name f = name).
Proof.
  induction fs as [|f fs IH]; intros r Hw Hfree Hnd; [exists r; split_and!; [done..|]; set_solver|].
  rewrite fmap_cons, NoDup_cons in Hnd. destruct Hnd as [Hni Hnd]. assert (Hf : r !! Name f = None) by (apply Hfree; set_solver).
  destruct (IH (<[Name f := f]> r)) as (r' & E & Hw' & Hl); [intros name g; rewrite lookup_insert_Some; naive_solver|intros g Hg|done|].
  - rewrite lookup_insert_ne; [apply Hfree; set_solver|]. intros En. apply Hni. rewrite En. by apply list_elem_of_fmap_2.
  - exists r'. split_and!; [|done|].
    + cbn [register_all]. rewrite M_bind_eval. unfold Register. by rewrite Hf.
    + intros name g. rewrite Hl, lookup_insert_Some, elem_of_cons. destruct (decide (Name f = name)) as [<-|]; naive_solver.
Qed.

Lemma Names_elem (r : Registry) name : name ∈ Names r ↔ is_Some (r !! name).
Proof.
  unfold Names. rewrite range_perm, list_elem_of_fmap. split.
  - intros ([n f] & -> & Hin%elem_of_map_to_list). by exists f.
  - intros [f Hf]. exists (name, f). by rewrite elem_of_map_to_list.
Qed.

(** the room runs the plugin its operator asked for.  Plugins with distinct names can all be
    registered, a second one with a taken name is refused and changes nothing; a path that names a
    registered plugin selects it, no path selects one of them as soon as there is one, and any other
    path that is not a .wasm file stops the start. *)
Theorem plugin_selected file wasi compiled fs path tr : NoDup (Name <$> fs) → HasSuffix path ".wasm" = false →
  ∃ r, register_all fs (NewRegistry) = (Ok tt, r) ∧
    (∀ g, Name g ∈ Name <$> fs → ∃ err, Register Name g r = (Err err, r)) ∧
    match selectFactory file wasi compiled path r tr with
    | (Ok (factory, cleanup), tr') => tr' = tr ∧ cleanup = [] ∧ ∃ f, f ∈ fs ∧ factory = Registered f ∧ (path = "" ∨ path = Name f)
    | (Err _, tr') => tr' = tr ∧ (path = "" → fs = []) ∧ (path <> "" → path ∉ Name <$> fs)
    end.
Proof.
  intros Hnd Hsuf. destruct (register_all_ok fs NewRegistry) as (r & E & Hw & Hl); [done..|]. exists r. split; [done|].
  assert (Hfs : ∀ name f, r !! name = Some f → f ∈ fs ∧ Name f = name).
  { intros name f [H|H]%Hl; [by unfold NewRegistry in H; rewrite lookup_empty in H|done]. }
  assert (Hin : ∀ name, name ∈ Name <$> fs → is_Some (r !! name)).
  { intros name (f & -> & Hf)%list_elem_of_fmap. exists f. apply Hl. by right. }
  split.
  - intros g [f Hf]%Hin. unfold Register. rewrite Hf. by eexists.
  - unfold selectFactory. rewrite Hsuf. destruct (decide (path = "")) as [->|Hp].
    + rewrite bool_decide_true by done. destruct (Names r) as [|name names] eqn:En; cbn.
      * split_and!; [done| |done]. intros _. destruct fs as [|f fs]; [done|]. exfalso.
        assert (Hn : Name f ∈ Names r) by (apply Names_elem, Hin; cbn; set_solver). rewrite En in Hn. set_solver.
      * assert (Hn : name ∈ Names r) by (rewrite En; set_solver). apply Names_elem in Hn as [f Hf].
        unfold wrapping, lift_res, Registry_Lookup. rewrite M_bind_eval. cbn. rewrite Hf. destruct (Hfs _ _ Hf) as [Hff _]. split_and!; [done..|]. exists f. split_and!; [done..|by left].
    + rewrite bool_decide_false by done. rewrite M_bind_eval. cbn. unfold wrapping, lift_res, Registry_Lookup. destruct (r !! path) as [f|] eqn:Hf; cbn.
      * destruct (Hfs _ _ Hf) as [Hff Hnm]. split_and!; [done..|]. exists f. split_and!; [done..|by right].
      * split_and!; [done..|]. intros _ Hpin%Hin. rewrite Hf in Hpin. by destruct Hpin.
Qed.

(** The room's cleanup closes everything in reverse.  A start that fails at the certificate, after the
    manager was made, closes the plugin runtime but never cancels the manager's context. *)
Theorem room_leaves_manager cfg file wasi compiled cert (r : Registry) tr factory cleanup tr' :
  selectFactory file wasi compiled (re_PluginPath cfg) r tr = (Ok (factory, cleanup), tr') →
  tr' = tr ++ (Opened <$> rev cleanup) ∧
  NewRoom (Ok cfg) file wasi compiled cert r tr =
  match NewServer cert cfg with
  | Err err => (Err err, tr' ++ Opened ManagerContext :: (Closed <$> cleanup))
  | Ok server => (Ok (mkRoomContainer factory (re_JWTSecret cfg) (re_DatagramMaxBytes cfg) server, ManagerContext :: cleanup),
                  tr' ++ [Opened ManagerContext])
  end.
Proof.
  intros E. split.
  - revert E. unfold selectFactory. destruct (HasSuffix _ _).
    + destruct file as [wasm|e]; [|done]. unfold NewFactory. destruct wasi; [done|]. destruct compiled; [done|]. by intros [= <- <- <-].
    + destruct (bool_decide _); [destruct (Names r) as [|name names]; [done|]|set (name := re_PluginPath cfg)];
        unfold wrapping, lift_res, Registry_Lookup; rewrite M_bind_eval; cbn; rewrite M_bind_eval; destruct (r !! name); cbn; try done;
        intros [= <- <- <-]; by rewrite app_nil_r.
  - unfold NewRoom, lift_res. rewrite M_bind_eval. cbn. rewrite M_bind_eval, E, M_bind_eval. unfold note at 1, modify at 1.
    destruct cert; cbn; [|done]. by rewrite M_bind_eval, close_all_eval, <- app_assoc.
Qed.
End room.

(** ** The default configuration *)

(** A gateway and an operations process started with the defaults, given a bucket, meet what the file
    theorems ask: limits in range, title keys apart from the players', one title prefix for both. *)
Lemma defaults_fit databaseURL secret token bucket :
  let cfg := gateway_defaults databaseURL secret bucket in
  let acfg := mkStorageConfig "" (ae_StorageTitlePrefix (admin_defaults databaseURL token bucket)) 0 0 0 in
  sane_limits (storage_config cfg) ∧ title_apart acfg ∧ title_apart (storage_config cfg) ∧
  TitlePrefix acfg = TitlePrefix (storage_config cfg) ∧
  newMatchQueue (ge_MatchQueue cfg) = Ok InMemQueue ∧
  newAllocator None None cfg = Ok (StubAllocator (NewStub "localhost:7777")) ∧
  parseLeaderboards (ge_Leaderboards cfg) = Ok ∅.
Proof. unfold sane_limits, title_apart. cbn. split_and!; try done; lia. Qed.

Definition all_up : Outcomes := mkOutcomes None None None None None None None (Ok "").

Example gateway_starts_default : is_ok (NewGateway (Ok (gateway_defaults "postgres://" "k" "")) all_up []).1 = true.
Proof. rewrite NewGateway_starts. vm_compute. reflexivity. Qed.

(** The object store cannot be reached. *)
Example store_unreachable : (NewGateway (Ok (gateway_defaults "postgres://" "k" "files")) (mkOutcomes None None None None None None (Some (ErrText "down")) (Ok "")) []).2 =
  [Opened PgPool; Opened ValkeyClient; Closed ValkeyClient; Closed PgPool].
Proof. vm_compute. reflexivity. Qed.

Lemma plugin_selected_witness :
  NoDup ["rps"; "chess"] ∧
  selectFactory (RO := range_id) (Err (ErrText "down")) None None "rps" (register_all id ["rps"; "chess"] NewRegistry).2 [] = (Ok (Registered "rps", []), []).
Proof.
  assert (Hnd : NoDup ["rps"; "chess"]) by (by apply (bool_decide_unpack _); vm_compute). split; [exact Hnd|].
  destruct (plugin_selected (RL := range_id_law) id (Err (ErrText "down")) None None ["rps"; "chess"] "rps" [] Hnd eq_refl) as (r & E & _ & H).
  rewrite E. cbn [snd]. destruct (selectFactory _ _ _ _ _ _) as [[[factory cleanup]|err] tr'].
  - destruct H as (-> & -> & f & _ & -> & [H|H]); [discriminate|]. unfold id in H. by subst f.
  - destruct H as (_ & _ & H). exfalso. apply H; [discriminate|]. cbn. set_solver.
Defined.
