(* ===== verification/Process.v ===== *)
(** * Running the processes (internal/cli, infra/tracing, presentation/gateway/server.go)

    The commands wire a container, serve until the context ends or the listener fails, and unwind
    their deferred calls.  The state is the trace of what came up and went down; what the outside
    does, and which branch of the [select] is taken, are arguments.  [gateway_run], [admin_run] and
    [room_run] give the whole trace on every path. *)

From S2P Require Import Prelude GoBase GoStrings Gateway Bootstrap Agones.

Inductive service := Tracing | Uses (r : resource) | HTTPServer | MatchmakerLoop | GameServerSDK | MetricsServer | RoomListener.
Inductive process_event := Up (s : service) | Down (s : service).

Notation Proc := (M (list process_event)).

Definition tell (e : process_event) : Proc unit := modify (λ tr, tr ++ [e]).

(** [defer d()] for the rest [m] of the function. *)
Definition deferred {A} (d : Proc unit) (m : Proc A) : Proc A := λ tr, let '(r, tr') := m tr in (r, (d tr').2).

Definition to_process (e : lifecycle) : process_event := match e with Opened r => Up (Uses r) | Closed r => Down (Uses r) end.

(** The constructors of the container. *)
Definition on_boot {A} (m : Boot A) : Proc A := λ tr, let '(r, l) := m [] in (r, tr ++ (to_process <$> l)).

Definition wrapped {A} (msg : string) (m : Proc A) : Proc A := λ tr, match m tr with (Err e, tr') => (Err (Wrap msg e), tr') | r => r end.

(** ** Tracing (infra/tracing/tracing.go)

    The two variables, and what the exporter and the resource answer. *)

Record TracingEnv := mkTracingEnv { te_endpoint : string; te_traces_endpoint : string; te_exporter : option error; te_resource : option error }.

Definition enabled (e : TracingEnv) : bool := bool_decide (te_endpoint e <> "") || bool_decide (te_traces_endpoint e <> "").

(** The result is the shutdown function. *)
Definition Setup (e : TracingEnv) : Proc (Proc unit) :=
  if negb (enabled e) then mret (mret tt)
  else match te_exporter e with
       | Some err => fail (Wrap "tracing: otlp exporter" err)
       | None => match te_resource e with
                 | Some err => fail (Wrap "tracing: resource" err)
                 | None => _ ← tell (Up Tracing); mret (tell (Down Tracing))
                 end
       end.

(** ** Serving *)

(** What the [select] receives: the end of the context, or the end of ListenAndServe, whose
    ErrServerClosed is no error. *)
Inductive stop_reason := ContextDone | ListenEnded (err : option error).

(** From the start of the listener to the return; [shutdown] is what Shutdown answers when its
    thirty seconds, in which it waits for the open requests, are over. *)
Definition serve_until (name : string) (reason : stop_reason) (shutdown : option error) : Proc unit :=
  match reason with
  | ContextDone => match shutdown with
                   | Some err => fail (Wrap (name +:+ " shutdown") err)
                   | None => tell (Down HTTPServer)
                   end
  | ListenEnded err => _ ← tell (Down HTTPServer); match err with Some err => fail (Wrap (name +:+ " listen") err) | None => mret tt end
  end.

(** cli/gateway.go; [interceptor] is what otelconnect.NewInterceptor answers in gateway.NewHandler. *)
Definition runGateway (env : TracingEnv) (loaded : res GatewayEnv) (o : Outcomes) (interceptor : option error)
    (reason : stop_reason) (shutdown : option error) : Proc unit :=
  shutdownTracing ← wrapped "gateway tracing" (Setup env);
  deferred shutdownTracing
    ('(container, cleanup) ← wrapped "gateway bootstrap" (on_boot (NewGateway loaded o));
     deferred (on_boot (close_all cleanup))
       match interceptor with
       | Some err => fail (Wrap "gateway handler" (Wrap "gateway: otel interceptor" err))
       | None => _ ← tell (Up HTTPServer);
                 _ ← tell (Up MatchmakerLoop);
                 deferred (tell (Down MatchmakerLoop)) (serve_until "gateway" reason shutdown)
       end).

(** gateway.NewHandler: what is mounted; without a bucket the storage handlers are nil. *)
Inductive mount :=
  | AuthService | MatchService | LeaderboardService | SocialService | ChatService | GroupService
  | PlayerDataStorageService | TitleStorageService | Healthz | Readyz | MetricsPath.

Definition gateway_mounts (c : GatewayContainer) : list mount :=
  [AuthService; MatchService; LeaderboardService; SocialService; ChatService; GroupService] ++
  (match gw_storage c with Some _ => [PlayerDataStorageService; TitleStorageService] | None => [] end) ++ [Healthz; Readyz; MetricsPath].

(** The status of the probes; [ping] is the answer of PostgreSQL. *)
Definition gateway_healthz : Z := 200.
Definition gateway_readyz (ping : option error) : Z := match ping with Some _ => 503 | None => 200 end.

(** cli/admin.go. *)
Definition runAdmin (loaded : res AdminEnv) (o : Outcomes) (reason : stop_reason) (shutdown : option error) : Proc unit :=
  '(container, cleanup) ← wrapped "admin bootstrap" (on_boot (NewAdmin loaded o));
  deferred (on_boot (close_all cleanup)) (_ ← tell (Up HTTPServer); serve_until "admin" reason shutdown).

(** presentation/room/server.go: ListenAndServe. *)
Definition ListenAndServe (reason : stop_reason) : Proc unit :=
  _ ← tell (Up RoomListener);
  _ ← tell (Down RoomListener);
  match reason with ListenEnded (Some err) => fail (Wrap "room: serve" err) | _ => mret tt end.

Section room.
Context {F : Type} {RO : RangeOrder}.

(** cli/room.go; [connected] and [ready] are what the Agones SDK answers. *)
Definition runRoom (env : TracingEnv) (loaded : res RoomEnv) (file : res string) (wasi compiled cert : option error) (registry : gmap string F)
    (connected ready : option error) (reason : stop_reason) : Proc unit :=
  shutdownTracing ← wrapped "room tracing" (Setup env);
  deferred shutdownTracing
    ('(container, cleanup) ← wrapped "room bootstrap" (on_boot (NewRoom loaded file wasi compiled cert registry));
     deferred (on_boot (close_all cleanup))
       (cfg ← lift_res loaded;
        let rest :=
          (if bool_decide (re_MetricsAddr cfg = "") then ListenAndServe reason
           else _ ← tell (Up MetricsServer); deferred (tell (Down MetricsServer)) (ListenAndServe reason)) in
        if re_AgonesEnabled cfg then
          match Start connected ready with
          | Err err => fail (Wrap "room agones" err)
          | Ok _ => _ ← tell (Up GameServerSDK); deferred (tell (Down GameServerSDK)) rest
          end
        else rest)).
End room.

(** ** Traces *)

Definition ups (l : list resource) : list process_event := (λ r, Up (Uses r)) <$> l.
Definition downs (l : list resource) : list process_event := (λ r, Down (Uses r)) <$> l.

Lemma to_process_opened l : to_process <$> (Opened <$> l) = ups l.
Proof. unfold ups. by rewrite <- list_fmap_compose. Qed.
Lemma to_process_closed l : to_process <$> (Closed <$> l) = downs l.
Proof. unfold downs. by rewrite <- list_fmap_compose. Qed.

Lemma on_boot_tidy {A} (m : Boot A) Q : tidy [] m Q →
  (∃ a l, Q a l ∧ ∀ tr, on_boot m tr = (Ok a, tr ++ ups l)) ∨ (∃ e l, ∀ tr, on_boot m tr = (Err e, tr ++ ups l ++ downs (rev l))).
Proof.
  intros H. specialize (H []). unfold on_boot. cbn in H. destruct (m []) as [[a|e] t].
  - left. destruct H as (l & -> & Hq). exists a, l. split; [done|]. intros tr. by rewrite to_process_opened.
  - right. destruct H as (l & ->). exists e, l. intros tr. by rewrite fmap_app, to_process_opened, to_process_closed.
Qed.

Lemma on_boot_close l tr : on_boot (close_all l) tr = (Ok tt, tr ++ downs l).
Proof. unfold on_boot. rewrite close_all_eval. cbn. by rewrite to_process_closed. Qed.

Lemma on_boot_ok {A} (m : Boot A) tr : is_ok (on_boot m tr).1 = is_ok (m []).1.
Proof. unfold on_boot. by destruct (m []). Qed.

(** Everything a command does between the first and the last event of its tracing. *)
Definition tracing_starts (env : TracingEnv) : bool := negb (enabled env) || bool_decide (te_exporter env = None) && bool_decide (te_resource env = None).
Definition around (env : TracingEnv) (mid : list process_event) : list process_event := if enabled env then Up Tracing :: mid ++ [Down Tracing] else mid.

Lemma traced {A} env name (m : Proc A) (r : res A) mid tr : (∀ tr, m tr = (r, tr ++ mid)) →
  (shutdownTracing ← wrapped name (Setup env); deferred shutdownTracing m) tr =
  if tracing_starts env then (r, tr ++ around env mid) else (Err (Wrap name (match te_exporter env with
    | Some err => Wrap "tracing: otlp exporter" err | None => Wrap "tracing: resource" (default (ErrText "") (te_resource env)) end)), tr).
Proof.
  intros Hm. unfold tracing_starts, around, Setup, wrapped. rewrite M_bind_eval. destruct (enabled env); cbn [negb orb].
  - destruct (te_exporter env); [done|]. destruct (te_resource env); [done|]. rewrite M_bind_eval. cbn. unfold deferred. rewrite Hm. cbn. by rewrite <- !app_assoc.
  - cbn. unfold deferred. by rewrite Hm.
Qed.

(** What serving leaves in the trace and whether it ends without an error. *)
Definition served (reason : stop_reason) (shutdown : option error) : list process_event :=
  match reason, shutdown with ContextDone, Some _ => [] | _, _ => [Down HTTPServer] end.
Definition served_well (reason : stop_reason) (shutdown : option error) : bool :=
  match reason with ContextDone => negb (bool_decide (is_Some shutdown)) | ListenEnded err => negb (bool_decide (is_Some err)) end.

Lemma serve_until_eval name reason shutdown : ∃ r, is_ok r = served_well reason shutdown ∧
  ∀ tr, serve_until name reason shutdown tr = (r, tr ++ served reason shutdown).
Proof.
  destruct reason as [|[err|]]; [destruct shutdown as [err|]|..]; (eexists; split; [|intros tr; cbn; rewrite ?M_bind_eval, ?app_nil_r; reflexivity]; reflexivity).
Qed.

(** The part of a command that runs with its container: [work] between the openings and the closings. *)
Lemma with_container {A B} name (m : Boot (A * list resource)) Q (body : A → Proc B) (work : list process_event) (r : res B) :
  tidy [] m (λ a l, a.2 = rev l ∧ Q a.1 l) → (∀ a l tr, Q a l → body a tr = (r, tr ++ work)) →
  let whole := '(a, cleanup) ← wrapped name (on_boot m); deferred (on_boot (close_all cleanup)) (body a) in
  (∃ a l, Q a l ∧ is_ok (m []).1 = true ∧ ∀ tr, whole tr = (r, tr ++ ups l ++ work ++ downs (rev l))) ∨
  (∃ e l, is_ok (m []).1 = false ∧ ∀ tr, whole tr = (Err e, tr ++ ups l ++ downs (rev l))).
Proof.
  intros Hm Hb whole. unfold whole, wrapped.
  destruct (on_boot_tidy m _ Hm) as [([a cleanup] & l & [Hc Hq] & E)|(e & l & E)]; [left; exists a, l|right; exists (Wrap name e), l];
    (pose proof (on_boot_ok m []) as Hok; rewrite E in Hok; cbn in Hok; rewrite <- Hok).
  - cbn in Hc, Hq. split_and!; [done..|]. intros tr. rewrite M_bind_eval, E. unfold deferred.
    rewrite (Hb a l) by done. rewrite on_boot_close, Hc. cbn. by rewrite <- !app_assoc.
  - split; [done|]. intros tr. by rewrite M_bind_eval, E.
Qed.

Lemma bool_decide_Some {A} (x : option A) : bool_decide (x = None) = match x with Some _ => false | None => true end.
Proof. by destruct x. Qed.

(** The part of [runGateway] that has the container. *)
Lemma gateway_serves interceptor reason shutdown : ∃ r, is_ok r = bool_decide (interceptor = None) && served_well reason shutdown ∧ ∀ tr,
  match interceptor with
  | Some err => fail (Wrap "gateway handler" (Wrap "gateway: otel interceptor" err))
  | None => _ ← tell (Up HTTPServer); _ ← tell (Up MatchmakerLoop); deferred (tell (Down MatchmakerLoop)) (serve_until "gateway" reason shutdown)
  end tr = (r, tr ++ if bool_decide (interceptor = None) then [Up HTTPServer; Up MatchmakerLoop] ++ served reason shutdown ++ [Down MatchmakerLoop] else []).
Proof.
  rewrite bool_decide_Some. destruct interceptor as [err|].
  { exists (Err (Wrap "gateway handler" (Wrap "gateway: otel interceptor" err))). split; [done|]. intros tr. by rewrite app_nil_r. }
  destruct (serve_until_eval "gateway" reason shutdown) as (r & Hr & E). exists r. split; [done|]. intros tr.
  rewrite !M_bind_eval. cbn. rewrite M_bind_eval. cbn. unfold deferred. rewrite E. cbn. by rewrite <- !app_assoc.
Qed.

Lemma tidy_gateway_loaded loaded o : tidy [] (NewGateway loaded o) (λ r l,
  r.2 = rev l ∧ ∃ cfg, loaded = Ok cfg ∧ l = resources (ge_StorageBucket cfg)).
Proof.
  destruct loaded as [cfg|e]; [|intros tr; cbn; rewrite app_nil_r; exists []; by rewrite app_nil_r].
  eapply tidy_weaken; [|apply tidy_gateway]. intros r l (-> & Hr & _). split; [done|]. by exists cfg.
Qed.

(** what running a gateway leaves behind, on every path.  Tracing is the first thing up and the last
    down; what the container opened is closed again in reverse after the server and the matchmaker
    loop have ended; the server and the loop run exactly when tracing, the container and the handler
    could be set up; the command succeeds exactly when it served and ended well.  The one thing it can
    leave is the server, when the open requests outlast the thirty seconds of Shutdown. *)
Theorem gateway_run env loaded o interceptor reason shutdown tr :
  let started := tracing_starts env && gateway_startable loaded o && bool_decide (interceptor = None) in
  let '(r, tr') := runGateway env loaded o interceptor reason shutdown tr in
  is_ok r = started && served_well reason shutdown ∧
  if tracing_starts env then
    ∃ opened, tr' = tr ++ around env (ups opened ++
      (if started then [Up HTTPServer; Up MatchmakerLoop] ++ served reason shutdown ++ [Down MatchmakerLoop] else []) ++ downs (rev opened)) ∧
    (gateway_startable loaded o = true → ∃ cfg, loaded = Ok cfg ∧ opened = resources (ge_StorageBucket cfg))
  else tr' = tr.
Proof.
  cbn zeta. destruct (gateway_serves interceptor reason shutdown) as (r & Hr & Hbody). unfold runGateway.
  destruct (with_container "gateway bootstrap" (NewGateway loaded o) (λ _ l, ∃ cfg, loaded = Ok cfg ∧ l = resources (ge_StorageBucket cfg))
    (λ _, _) _ r (tidy_gateway_loaded loaded o) (λ _ _ tr _, Hbody tr)) as [(a & l & Hl & Hok & E)|(e & l & Hok & E)]; 
    rewrite (traced _ _ _ _ _ tr E); rewrite NewGateway_starts in Hok; rewrite Hok; (destruct (tracing_starts env); [|done]); cbn [andb].
  - split; [done|]. exists l. by destruct Hl as (cfg & -> & ->); split; [|intros _; exists cfg].
  - split; [done|]. by exists l.
Qed.


Lemma storage_mounted loaded o tr c cleanup tr' : NewGateway loaded o tr = (Ok (c, cleanup), tr') →
  ∃ cfg, loaded = Ok cfg ∧ (PlayerDataStorageService ∈ gateway_mounts c ↔ ge_StorageBucket cfg <> "").
Proof.
  destruct loaded as [cfg|e]; [|done]. intros E. exists cfg. split; [done|].
  pose proof (tidy_gateway cfg o tr) as H. cbn [fmap list_fmap] in H. rewrite app_nil_r, E in H. destruct H as (l & _ & _ & _ & Hs). cbn [fst] in Hs.
  unfold gateway_mounts. rewrite list_elem_of_In. destruct (gw_storage c); cbn.
  - split; [intros _ Hb; by apply Hs in Hb|]. tauto.
  - split; [|naive_solver]. intros H. by repeat destruct H as [H|H].
Qed.

(** ** The operations process *)

Lemma tidy_admin_loaded loaded o : tidy [] (NewAdmin loaded o) (λ r l,
  r.2 = rev l ∧ ∃ cfg, loaded = Ok cfg ∧ l = resources (ae_StorageBucket cfg)).
Proof.
  destruct loaded as [cfg|e]; [|intros tr; cbn; rewrite app_nil_r; exists []; by rewrite app_nil_r].
  eapply tidy_weaken; [|apply tidy_admin]. intros r l (-> & Hr & _). split; [done|]. by exists cfg.
Qed.

(** The same for the operations process, which has no tracing and no loop beside its server. *)
Theorem admin_run loaded o reason shutdown tr :
  let started := is_ok (NewAdmin loaded o []).1 in
  let '(r, tr') := runAdmin loaded o reason shutdown tr in
  is_ok r = started && served_well reason shutdown ∧
  ∃ opened, tr' = tr ++ ups opened ++ (if started then Up HTTPServer :: served reason shutdown else []) ++ downs (rev opened).
Proof.
  destruct (serve_until_eval "admin" reason shutdown) as (r & Hr & Hbody). unfold runAdmin.
  assert (Hserve : ∀ tr, (_ ← tell (Up HTTPServer); serve_until "admin" reason shutdown) tr = (r, tr ++ Up HTTPServer :: served reason shutdown)).
  { intros tr0. rewrite M_bind_eval. cbn. by rewrite Hbody, <- app_assoc. }
  destruct (with_container "admin bootstrap" (NewAdmin loaded o) (λ _ l, ∃ cfg, loaded = Ok cfg ∧ l = resources (ae_StorageBucket cfg)) (λ _, _) _ r (tidy_admin_loaded loaded o) (λ _ _ tr _, Hserve tr))
    as [(a & l & Hl & -> & E)|(e & l & -> & E)]; rewrite E; (split; [done|]); by exists l.
Qed.

(** ** The room *)

Definition if_on (b : bool) (l : list process_event) : list process_event := if b then l else [].

Section room_run.
Context {F : Type} {RO : RangeOrder}.

(** Something that is up around [m]. *)
Lemma up_around {A} e1 e2 (m : Proc A) r mid tr : (∀ tr, m tr = (r, tr ++ mid)) →
  (_ ← tell e1; deferred (tell e2) m) tr = (r, tr ++ [e1] ++ mid ++ [e2]).
Proof. intros Hm. rewrite M_bind_eval. cbn. unfold deferred. rewrite Hm. cbn. by rewrite <- !app_assoc. Qed.

Lemma NewRoom_Ok cfg file wasi compiled cert (registry : gmap string F) c cleanup l :
  NewRoom (Ok cfg) file wasi compiled cert registry [] = (Ok (c, cleanup), l) → l = Opened <$> rev cleanup.
Proof.
  destruct (selectFactory file wasi compiled (re_PluginPath cfg) registry []) as [[[factory fc]|e] tr'] eqn:E.
  - destruct (room_leaves_manager cfg file wasi compiled cert registry [] factory fc tr' E) as [-> ->]. destruct cert; [done|].
    intros [= _ <- <-]. cbn [rev]. by rewrite fmap_app.
  - unfold NewRoom, lift_res. rewrite M_bind_eval. cbn. rewrite M_bind_eval, E. done.
Qed.

Lemma ListenAndServe_eval reason : ∃ r, is_ok r = match reason with ListenEnded (Some _) => false | _ => true end ∧
  ∀ tr, ListenAndServe reason tr = (r, tr ++ [Up RoomListener; Down RoomListener]).
Proof.
  destruct reason as [|[err|]]; (eexists; split; [|intros tr; unfold ListenAndServe; rewrite !M_bind_eval; cbn; rewrite M_bind_eval; cbn; rewrite <- app_assoc; reflexivity]); reflexivity.
Qed.

(** The part of [runRoom] that has the container. *)
Definition room_served (cfg : RoomEnv) (connected ready : option error) : bool := negb (re_AgonesEnabled cfg) || is_ok (Start connected ready).
Definition room_work (cfg : RoomEnv) : list process_event :=
  let sdk := re_AgonesEnabled cfg in
  let metrics := negb (bool_decide (re_MetricsAddr cfg = "")) in
  if_on sdk [Up GameServerSDK] ++ if_on metrics [Up MetricsServer] ++ [Up RoomListener; Down RoomListener] ++
  if_on metrics [Down MetricsServer] ++ if_on sdk [Down GameServerSDK].

Lemma room_serves cfg connected ready reason : ∃ r,
  is_ok r = room_served cfg connected ready && match reason with ListenEnded (Some _) => false | _ => true end ∧
  ∀ tr, (let rest := if bool_decide (re_MetricsAddr cfg = "") then ListenAndServe reason
                     else _ ← tell (Up MetricsServer); deferred (tell (Down MetricsServer)) (ListenAndServe reason) in
         if re_AgonesEnabled cfg then
           match Start connected ready with
           | Err err => fail (Wrap "room agones" err)
           | Ok _ => _ ← tell (Up GameServerSDK); deferred (tell (Down GameServerSDK)) rest
           end
         else rest) tr = (r, tr ++ if_on (room_served cfg connected ready) (room_work cfg)).
Proof.
  destruct (ListenAndServe_eval reason) as (r & Hr & Hl). cbn zeta. unfold room_served, room_work.
  set (rest := if bool_decide _ then _ else _). set (metrics := negb (bool_decide (re_MetricsAddr cfg = ""))).
  assert (Hrest : ∀ tr, rest tr = (r, tr ++ if_on metrics [Up MetricsServer] ++ [Up RoomListener; Down RoomListener] ++ if_on metrics [Down MetricsServer])).
  { intros tr. subst rest metrics. destruct (bool_decide _); [by rewrite Hl|]. by apply up_around. }
  clearbody rest metrics. destruct (re_AgonesEnabled cfg); cbn [negb orb andb if_on].
  - destruct (Start connected ready) as [lc|err]; cbn.
    + exists r. split; [done|]. intros tr. rewrite (up_around _ _ _ _ _ _ Hrest). cbn. by rewrite <- !app_assoc.
    + eexists. split; [|intros tr; rewrite app_nil_r; reflexivity]. reflexivity.
  - exists r. split; [done|]. intros tr. by rewrite Hrest, app_nil_r.
Qed.

(** what running a room leaves behind once its container could be wired.  When the SDK is enabled and
    cannot be reached nothing is served; otherwise the listener runs between Ready and Shutdown of
    the SDK and within the life of the metrics server, the server is given back to the cluster
    before the matches are cancelled and the plugin runtime is closed, and tracing goes last. *)
Theorem room_run env cfg file wasi compiled cert (registry : gmap string F) connected ready reason tr c cleanup l :
  NewRoom (Ok cfg) file wasi compiled cert registry [] = (Ok (c, cleanup), l) → tracing_starts env = true →
  let '(r, tr') := runRoom env (Ok cfg) file wasi compiled cert registry connected ready reason tr in
  is_ok r = room_served cfg connected ready && match reason with ListenEnded (Some _) => false | _ => true end ∧
  tr' = tr ++ around env (ups (rev cleanup) ++ if_on (room_served cfg connected ready) (room_work cfg) ++ downs cleanup).
Proof.
  intros E Hts. destruct (room_serves cfg connected ready reason) as (r & Hr & Hbody).
  assert (Hboot : ∀ tr, on_boot (NewRoom (Ok cfg) file wasi compiled cert registry) tr = (Ok (c, cleanup), tr ++ ups (rev cleanup))).
  { intros tr0. unfold on_boot. by rewrite E, (NewRoom_Ok _ _ _ _ _ _ _ _ _ E), to_process_opened. }
  unfold runRoom. rewrite (traced _ _ _ r (ups (rev cleanup) ++ if_on (room_served cfg connected ready) (room_work cfg) ++ downs cleanup)), Hts; [done|].
  intros tr0. unfold wrapped. rewrite M_bind_eval, Hboot. unfold deferred at 1, lift_res at 1. rewrite M_bind_eval. cbn [mret M_ret].
  rewrite Hbody, on_boot_close. cbn. by rewrite <- !app_assoc.
Qed.
End room_run.

(** ** Evaluation *)

Definition demo_tracing : TracingEnv := mkTracingEnv "http://collector:4318" "" None None.
Definition demo_room_env : RoomEnv := mkRoomEnv ":7777" "cert.pem" "key.pem" "k" 30 "games/rps.wasm" (10 * Second) true (2 * Second) ":9090" 1200.

Lemma room_run_witness :
  runRoom (RO := range_id) demo_tracing (Ok demo_room_env) (Ok "wasm") None None None (∅ : gmap string unit) None None ContextDone [] =
  (Ok tt, [Up Tracing; Up (Uses WazeroRuntime); Up (Uses ManagerContext); Up GameServerSDK; Up MetricsServer; Up RoomListener; Down RoomListener;
           Down MetricsServer; Down GameServerSDK; Down (Uses ManagerContext); Down (Uses WazeroRuntime); Down Tracing]).
Proof.
  assert (H := room_run (RO := range_id) demo_tracing demo_room_env (Ok "wasm") None None None (∅ : gmap string unit) None None ContextDone []
    _ [ManagerContext; WazeroRuntime] _ eq_refl eq_refl).
  destruct (runRoom _ _ _ _ _ _ _ _ _ _ _) as [[[]|e] tr']; destruct H as [Hr ->]; [reflexivity|discriminate].
Defined.
