(* ===== verification/Commands.v ===== *)
(** * The command line (internal/cli/root.go, internal/cli/migrate.go, cmd/vfx, examples/rps/cmd/vfx-rps)

    The tree of commands as data, with what each of them runs; the migrations, which are handed to
    the atlas program; and the two binaries, which differ in the plugins they register.  Parsing the
    command line is cobra's; the atlas process is an argument. *)

From stdpp Require Import pretty.
From S2P Require Import Prelude GoBase GoStrings Bootstrap Process.

(** ** Migrations (migrate.go) *)

(** The flags; [--url] has the value of DATABASE_URL unless it is given. *)
Record migrate_flags := mkMigrateFlags { migrationsDir : string; databaseURL : string; amount : Z }.
Definition defaultMigrationsDir : string := "file:///etc/vfx/migrations".
Definition default_flags (env_DATABASE_URL : string) : migrate_flags := mkMigrateFlags defaultMigrationsDir env_DATABASE_URL 1.

(** [run] is the outcome of a process, given its command line. *)
Definition runAtlas (run : list string → option error) (args : list string) : res unit :=
  match run ("atlas" :: args) with
  | Some err => Err (Wrap ("atlas " +:+ default "" (head args)) err)
  | None => Ok tt
  end.

(** ** The tree *)

Section tree.
Context {F : Type} {RO : RangeOrder}.

(** What a command runs; a command without one prints its help. *)
Inductive action :=
  | RunGateway
  | RunRoom (registry : gmap string F)
  | RunAdmin
  | RunAtlas (args : migrate_flags → list string).

Inductive Command := mkCommand (cmd_Use : string) (cmd_RunE : option action) (cmd_Subs : list Command).
Definition cmd_name (c : Command) : string := match c with mkCommand name _ _ => name end.

Definition newGatewayCmd : Command := mkCommand "gateway" (Some RunGateway) [].
Definition newRoomCmd (registry : gmap string F) : Command := mkCommand "room" (Some (RunRoom registry)) [].
Definition newAdminCmd : Command := mkCommand "admin" (Some RunAdmin) [].

Definition newMigrateApplyCmd : Command :=
  mkCommand "apply" (Some (RunAtlas (λ fl, ["migrate"; "apply"; "--dir"; migrationsDir fl; "--url"; databaseURL fl]))) [].
Definition newMigrateStatusCmd : Command :=
  mkCommand "status" (Some (RunAtlas (λ fl, ["migrate"; "status"; "--dir"; migrationsDir fl; "--url"; databaseURL fl]))) [].
Definition newMigrateDownCmd : Command :=
  mkCommand "down" (Some (RunAtlas (λ fl, ["migrate"; "down"; "--dir"; migrationsDir fl; "--url"; databaseURL fl; "--amount"; pretty (amount fl)]))) [].
Definition newMigrateCmd : Command := mkCommand "migrate" None [newMigrateApplyCmd; newMigrateStatusCmd; newMigrateDownCmd].

Definition NewRootCmd (registry : gmap string F) : Command :=
  mkCommand "vfx" None [newGatewayCmd; newRoomCmd registry; newAdminCmd; newMigrateCmd].

(** ** The binaries *)

Context (Name : F → string).

(** cmd/vfx registers nothing, examples/rps/cmd/vfx-rps one plugin; [execute] is what cobra makes of the tree. *)
Definition vfx_run (execute : Command → res unit) : res unit := execute (NewRootCmd NewRegistry).
Definition vfx_rps_run (rps : F) (execute : Command → res unit) : res unit :=
  match Register Name rps NewRegistry with
  | (Err err, _) => Err (Wrap "register rps plugin" err)
  | (Ok _, registry) => execute (NewRootCmd registry)
  end.

Definition exit_status (r : res unit) : Z := match r with Err _ => 1 | Ok _ => 0 end.

(** ** Running a command

    Everything the outside answers to whichever command is run. *)

Record World := mkWorld {
  w_tracing : TracingEnv; w_gateway : res GatewayEnv; w_admin : res AdminEnv; w_room : res RoomEnv; w_outcomes : Outcomes;
  w_interceptor : option error; w_file : res string; w_wasi : option error; w_compiled : option error; w_cert : option error;
  w_connected : option error; w_ready : option error; w_reason : stop_reason; w_shutdown : option error;
  w_flags : migrate_flags; w_atlas : list string → option error;
}.

Definition RunE (w : World) (a : action) : Proc unit :=
  match a with
  | RunGateway => runGateway (w_tracing w) (w_gateway w) (w_outcomes w) (w_interceptor w) (w_reason w) (w_shutdown w)
  | RunRoom registry => runRoom (w_tracing w) (w_room w) (w_file w) (w_wasi w) (w_compiled w) (w_cert w) registry
                          (w_connected w) (w_ready w) (w_reason w)
  | RunAdmin => runAdmin (w_admin w) (w_outcomes w) (w_reason w) (w_shutdown w)
  | RunAtlas args => lift_res (runAtlas (w_atlas w) (args (w_flags w)))
  end.

Definition subcommands (c : Command) : list Command := match c with mkCommand _ _ subs => subs end.
Definition runs (c : Command) : option action := match c with mkCommand _ run _ => run end.

(** ** Theorems *)

(** Siblings never share a name, so a command line leads to one command. *)
Lemma names_distinct registry : NoDup (cmd_name <$> subcommands (NewRootCmd registry)) ∧ NoDup (cmd_name <$> subcommands newMigrateCmd).
Proof. split; cbn; by apply (bool_decide_unpack _). Qed.

Lemma deferred_fails {A B} (d : Proc unit) msg (m : Proc A) (k : A → Proc B) tr e : m tr = (Err e, tr) →
  deferred d (wrapped msg m ≫= k) tr = (Err (Wrap msg e), (d tr).2).
Proof. intros H. unfold deferred. rewrite M_bind_eval. unfold wrapped. by rewrite H. Qed.

(** The vanilla binary has nothing to host but a compiled module: its room command comes to an error
    before it listens, whatever else the outside answers, while the other commands do not read the registry. *)
Lemma vanilla_room_refused {RL : RangeOrderLaw RO} w tr cfg : w_room w = Ok cfg → HasSuffix (re_PluginPath cfg) ".wasm" = false →
  Some (RunRoom NewRegistry) ∈ runs <$> subcommands (NewRootCmd NewRegistry) ∧
  ∃ e t, RunE w (RunRoom NewRegistry) tr = (Err e, tr ++ t) ∧ Up RoomListener ∉ t.
Proof.
  intros Ec Hsuf. split; [cbn; set_solver|]. cbn [RunE]. rewrite Ec.
  assert (Hn : ∃ e, ∀ tr, on_boot (NewRoom (F := F) (Ok cfg) (w_file w) (w_wasi w) (w_compiled w) (w_cert w) NewRegistry) tr = (Err e, tr)).
  { destruct (plugin_selected Name (w_file w) (w_wasi w) (w_compiled w) [] (re_PluginPath cfg) []) as (r & E & _ & H); [by constructor|done|].
    injection E as <-. unfold on_boot, NewRoom. rewrite M_bind_eval. cbn. rewrite M_bind_eval.
    destruct (selectFactory _ _ _ _ _ []) as [[[factory cleanup]|e] t].
    - destruct H as (_ & _ & f & Hf & _). by apply not_elem_of_nil in Hf.
    - destruct H as (-> & _). exists e. intros tr'. cbn. by rewrite app_nil_r. }
  destruct Hn as [e Hn]. unfold runRoom, Setup. destruct (enabled _); [destruct (te_exporter _); [|destruct (te_resource _)]|].
  1, 2: by eexists _, []; rewrite app_nil_r; split; [done|apply not_elem_of_nil].
  - exists (Wrap "room bootstrap" e), [Up Tracing; Down Tracing]. split; [|set_solver].
    etrans; [exact (deferred_fails (tell (Down Tracing)) _ _ _ _ e (Hn (tr ++ [Up Tracing])))|]. cbn. by rewrite <- app_assoc.
  - exists (Wrap "room bootstrap" e), []. split; [|apply not_elem_of_nil]. rewrite app_nil_r.
    exact (deferred_fails (mret tt) _ _ _ _ e (Hn tr)).
Qed.

(** vfx-rps starts, and its room hosts the plugin it registers, by name or when none is asked for. *)
Lemma rps_room_hosts {RL : RangeOrderLaw RO} rps file wasi compiled cfg :
  re_PluginPath cfg = "" ∨ re_PluginPath cfg = Name rps → HasSuffix (re_PluginPath cfg) ".wasm" = false →
  ∃ registry, (∀ execute, vfx_rps_run rps execute = execute (NewRootCmd registry)) ∧
    ∃ c, (NewRoom (Ok cfg) file wasi compiled None registry []).1 = Ok c ∧ rc_factory c.1 = Registered rps.
Proof.
  intros Hp Hsuf. exists (<[Name rps := rps]> NewRegistry). split; [done|].
  destruct (plugin_selected Name file wasi compiled [rps] (re_PluginPath cfg) []) as (r & E & _ & H); [apply NoDup_singleton|done|].
  injection E as <-. unfold NewRoom. rewrite M_bind_eval. cbn. rewrite M_bind_eval.
  destruct (selectFactory _ _ _ _ _ []) as [[[factory cleanup]|e] t].
  - destruct H as (_ & -> & f & ->%list_elem_of_singleton & -> & _). by eexists.
  - destruct H as (_ & He & Hne). exfalso. destruct Hp as [Hp|Hp]; [by discriminate He|].
    destruct (decide (re_PluginPath cfg = "")) as [Hz|Hz]; [by discriminate He|]. apply (Hne Hz). rewrite Hp. left.
Qed.

(** Every migration is atlas's: the directory and the URL of the flags are forwarded, the number of
    steps to [down] alone, and a failure is reported under the subcommand's name. *)
Lemma migrations_forwarded fl atlas c args : c ∈ subcommands newMigrateCmd → runs c = Some (RunAtlas args) →
  ∃ rest, args fl = ["migrate"; cmd_name c; "--dir"; migrationsDir fl; "--url"; databaseURL fl] ++ rest ∧
    (rest <> [] ↔ cmd_name c = "down") ∧
    runAtlas atlas (args fl) = match atlas ("atlas" :: args fl) with Some err => Err (Wrap "atlas migrate" err) | None => Ok tt end.
Proof.
  intros Hc Hr. repeat (apply elem_of_cons in Hc as [->|Hc]; [injection Hr as <-; eexists; split_and!; [done| |done]; by split|]).
  by apply not_elem_of_nil in Hc.
Qed.
End tree.

Example down_by_default : ∀ F (run : list string → option error),
  runs (F := F) newMigrateDownCmd = Some (RunAtlas (λ fl, ["migrate"; "down"; "--dir"; migrationsDir fl; "--url"; databaseURL fl; "--amount"; pretty (amount fl)])) ∧
  runAtlas run ["migrate"; "down"; "--dir"; "file:///etc/vfx/migrations"; "--url"; "db"; "--amount"; pretty (amount (default_flags "db"))]
  = match run ["atlas"; "migrate"; "down"; "--dir"; "file:///etc/vfx/migrations"; "--url"; "db"; "--amount"; "1"] with
    | Some err => Err (Wrap "atlas migrate" err) | None => Ok tt end.
Proof. done. Qed.
