(* ===== verification/Admin.v ===== *)
(** * The operations API (presentation/admin, usecase/admin)

    Plain HTTP over the same database, object store and match queue as the gateway.  A request is what
    net/http hands a handler: the method, the segments of the cleaned path (unescaped), the headers
    and the query parameter that are read, and the body, or the error that reading it ends with.  A
    response is the status, the content type and the value that is encoded.  [title_confined] says
    what a request can change; [admin_gate] what one without the token can do and learn. *)

From S2P Require Import Prelude GoBase GoStrings Database Match MatchQueue Storage ObjectStore Auth.

(** ** Requests and responses *)

Record HttpRequest := mkHttpRequest {
  rq_Method : string; rq_Path : list string; rq_Authorization : string; rq_ContentType : string; rq_TagsParam : string;
  rq_Body : res string;
}.

Record playerView := mkPlayerView { pv_ID : string; pv_Nickname : option string; pv_RegisteredAt : time }.
Record queueView := mkQueueView { qv_GameMode : string; qv_QueueDepth : Z }.
Record titleFileView := mkTitleFileView { tv_Filename : string; tv_Size : Z; tv_Hash : string; tv_Tags : list string; tv_ModifiedAt : time }.

Inductive ResponseBody :=
  | NoBody
  | PlainText (text : string)
  | PlayerBody (v : playerView)
  | QueueBody (v : queueView)
  | TitleFileBody (v : titleFileView)
  | ErrorBody (msg : string).

Record HttpResponse := mkHttpResponse { rs_Status : Z; rs_ContentType : string; rs_Body : ResponseBody }.

Definition writeJSON (status : Z) (body : ResponseBody) : HttpResponse := mkHttpResponse status "application/json" body.
Definition writeError (status : Z) (msg : string) : HttpResponse := writeJSON status (ErrorBody msg).

(** [http.Error], with the line end it adds; [w.WriteHeader] alone. *)
Definition http_Error (msg : string) (status : Z) : HttpResponse :=
  mkHttpResponse status "text/plain; charset=utf-8" (PlainText (msg +:+ String (ascii_of_nat 10) "")).
Definition writeHeader (status : Z) : HttpResponse := mkHttpResponse status "" NoBody.

(** ** Parts of the handlers *)

(** [splitTags], with the empty list for [nil]. *)
Definition splitTags (raw : string) : list string :=
  if bool_decide (raw = "") then []
  else filter (λ t, t <> "") (TrimSpace <$> strings_Split ","%char raw).

Definition maxTitleFileBytes : Z := Z.shiftl 8 20.

(** [io.ReadAll(http.MaxBytesReader(w, r.Body, maxTitleFileBytes))]. *)
Definition readTitleBody (body : res string) : res string :=
  match body with
  | Err e => Err e
  | Ok data => if maxTitleFileBytes <? Z.of_nat (String.length data) then Err (ErrText "http: request body too large") else Ok data
  end.

Section admin.
Context {U : UuidCodec} {ET : ErrorText} {S : Type} {BS : BlobStore S}.
(** [match.Queue.Depth], which reads. *)
Context {Q : Type} (queue_Depth : string → Q → res Z).

(** The database, the object store and the queue. *)
Record Backend := mkBackend { be_store : DB * S; be_queue : Q }.

Definition writeStorageError (err : error) : HttpResponse :=
  if errors_Is err ErrInvalidFilename || errors_Is err ErrFileTooLarge then writeError 400 (error_text err)
  else if errors_Is err ErrFileNotFound then writeError 404 "title file not found"
  else writeError 500 "title file operation failed".

(** ** The usecase (usecase/admin) *)

Definition admin_GetPlayer (id : uuid) (b : Backend) : res Player := (RO (λ db, result (Player_GetByID id db)) (be_store b).1).1.
Definition QueueDepth (gameMode : string) (b : Backend) : res Z := queue_Depth gameMode (be_queue b).

(** ** The handlers *)

(** What a request draws: the clock, [uuid.New()], and the answer of [pool.Ping]. *)
Record AdminDraw := mkAdminDraw { ad_now : time; ad_id : uuid; ad_ping : option error }.
Definition Handler : Type := HttpRequest → AdminDraw → Backend → HttpResponse * Backend.

Definition requireToken (token : string) (h : Handler) : Handler :=
  if bool_decide (token = "") then h
  else λ rq dr b,
    if bool_decide (rq_Authorization rq = "Bearer " +:+ token) then h rq dr b else (writeError 401 "unauthorized", b).

Definition handleHealthz : Handler := λ rq dr b, (writeHeader 200, b).

Definition handleReadyz : Handler := λ rq dr b,
  match ad_ping dr with
  | Some err => (http_Error ("postgres unreachable: " +:+ error_text err) 503, b)
  | None => (writeHeader 200, b)
  end.

Definition handleGetPlayer (id : string) : Handler := λ rq dr b,
  match uuid_Parse id with
  | None => (writeError 400 "invalid player id", b)
  | Some id =>
      match admin_GetPlayer id b with
      | Err err => (if errors_Is err ErrPlayerNotFound then writeError 404 "player not found" else writeError 500 "lookup failed", b)
      | Ok p => (writeJSON 200 (PlayerBody (mkPlayerView (uuid_String (pl_ID p)) (pl_Nickname p) (pl_RegisteredAt p))), b)
      end
  end.

Definition handleQueueDepth (mode : string) : Handler := λ rq dr b,
  match QueueDepth mode b with
  | Err err => (writeError 500 "queue lookup failed", b)
  | Ok depth => (writeJSON 200 (QueueBody (mkQueueView mode depth)), b)
  end.

Definition handlePutTitleFile (cfg : StorageConfig) (name : string) : Handler := λ rq dr b,
  let tags := splitTags (rq_TagsParam rq) in
  match readTitleBody (rq_Body rq) with
  | Err err => (writeError 413 "title file too large or unreadable", b)
  | Ok data =>
      let contentType := if bool_decide (rq_ContentType rq = "") then "application/octet-stream" else rq_ContentType rq in
      match PublishTitleFile cfg (ad_id dr) (ad_now dr) name tags data contentType (be_store b) with
      | (Err err, st) => (writeStorageError err, mkBackend st (be_queue b))
      | (Ok file, st) =>
          (writeJSON 200 (TitleFileBody (mkTitleFileView (f_Filename file) (f_Size file) (f_Hash file) tags (f_ModifiedAt file))),
           mkBackend st (be_queue b))
      end
  end.

Definition handleDeleteTitleFile (cfg : StorageConfig) (name : string) : Handler := λ rq dr b,
  match DeleteTitleFile cfg name (be_store b) with
  | (Err err, st) => (writeStorageError err, mkBackend st (be_queue b))
  | (Ok _, st) => (writeHeader 204, mkBackend st (be_queue b))
  end.

(** ** The routes

    A pattern with a method matches that method, GET also HEAD; a wildcard matches one segment, not
    the empty one after a trailing slash.  A path that matches only under another method is answered
    405, any other path 404 (net/http's ServeMux). *)

Definition route (storage : option StorageConfig) (authToken : string) (path : list string) : list (string * Handler) :=
  match path with
  | ["healthz"] => [("GET", handleHealthz)]
  | ["readyz"] => [("GET", handleReadyz)]
  | ["api"; "players"; id] => if bool_decide (id = "") then [] else [("GET", requireToken authToken (handleGetPlayer id))]
  | ["api"; "matchmaking"; mode] => if bool_decide (mode = "") then [] else [("GET", requireToken authToken (handleQueueDepth mode))]
  | ["api"; "title-files"; name] =>
      match storage with
      | None => []
      | Some cfg => if bool_decide (name = "") then [] else
          [("PUT", requireToken authToken (handlePutTitleFile cfg name)); ("DELETE", requireToken authToken (handleDeleteTitleFile cfg name))]
      end
  | _ => []
  end.

Definition method_matches (pattern method : string) : bool :=
  bool_decide (pattern = method) || (bool_decide (pattern = "GET") && bool_decide (method = "HEAD")).

Definition NewHandler (storage : option StorageConfig) (authToken : string) : Handler := λ rq dr b,
  let patterns := route storage authToken (rq_Path rq) in
  match list_find (λ p : string * Handler, method_matches p.1 (rq_Method rq) = true) patterns with
  | Some (_, (_, h)) => h rq dr b
  | None => (match patterns with [] => http_Error "404 page not found" 404 | _ => http_Error "Method Not Allowed" 405 end, b)
  end.
End admin.

(** ** Tags *)

Definition clean_tag (t : string) : Prop := t <> "" ∧ TrimSpace t = t ∧ no_sep ","%char t.

(** Tags without commas or outer spaces are read back as they were joined. *)
Lemma splitTags_Join tags : Forall clean_tag tags → splitTags (strings_Join tags ",") = tags.
Proof.
  intros H. unfold splitTags. destruct tags as [|t tags]; [done|].
  assert (Hc : Forall (no_sep ","%char) (t :: tags)) by (eapply list.Forall_impl; [exact H|]; by intros ? (_ & _ & ?)).
  rewrite Split_Join by done. rewrite bool_decide_eq_false_2.
  2: { apply list.Forall_cons in H as [(Hne & _) _]. destruct t; [done|]. by destruct tags. }
  clear Hc. induction H as [|x l (Hx & Ht & _) _ IH]; [done|]. cbn [fmap list_fmap]. by rewrite Ht, filter_cons_True, IH.
Qed.

Lemma splitTags_trimmed raw t : t ∈ splitTags raw → t <> "" ∧ TrimSpace t = t.
Proof.
  unfold splitTags. case_bool_decide; [by intros ?%elem_of_nil|].
  intros [Hne (s & -> & _)%list_elem_of_fmap]%list_elem_of_filter. split; [done|apply TrimSpace_idem].
Qed.

(** ** Properties *)

Section laws.
Context {U : UuidCodec} {UL : UuidCodecLaws U} {ET : ErrorText} {S : Type} {BS : BlobStore S} {OL : ObjectLaws S}.
Context {Q : Type} (queue_Depth : string → Q → res Z).

(** A handler that leaves the state alone, whatever it answers. *)
Definition reads (h : Handler) : Prop := ∀ rq dr (b : Backend (S := S) (Q := Q)), (h rq dr b).2 = b.

Lemma reads_token token h : reads h → reads (requireToken token h).
Proof. intros H rq dr b. unfold requireToken. case_bool_decide; [apply H|]. case_bool_decide; [apply H|done]. Qed.

Lemma reads_player id : reads (handleGetPlayer id).
Proof. intros rq dr b. unfold handleGetPlayer. by repeat case_match. Qed.
Lemma reads_depth mode : reads (handleQueueDepth queue_Depth mode).
Proof. intros rq dr b. unfold handleQueueDepth. by repeat case_match. Qed.
Lemma reads_ready : reads handleReadyz.
Proof. intros rq dr b. unfold handleReadyz. by case_match. Qed.

(** What a title handler may change, if anything. *)
Definition confined (cfg : StorageConfig) (name : string) (b b' : Backend (S := S) (Q := Q)) : Prop :=
  be_queue b' = be_queue b ∧ (be_store b' = be_store b ∨ ValidateFilename name = Ok tt ∧ title_frame cfg name (be_store b) (be_store b')).

Lemma confined_refl cfg name b : confined cfg name b b.
Proof. split; [done|by left]. Qed.

Lemma put_confined cfg name rq dr b : confined cfg name b (handlePutTitleFile cfg name rq dr b).2.
Proof.
  unfold handlePutTitleFile. destruct (readTitleBody _) as [data|e]; [|apply confined_refl]. cbv zeta.
  set (ct := if bool_decide _ then _ else _). pose proof (publish_framed cfg (ad_id dr) (ad_now dr) name (splitTags (rq_TagsParam rq)) data ct (be_store b)) as Hf.
  destruct (ValidateFilename name) as [[]|e] eqn:Hv.
  - destruct (PublishTitleFile _ _ _ _ _ _ _ _) as [[file|e] st]; cbn in *; (split; [done|by right]).
  - assert (PublishTitleFile cfg (ad_id dr) (ad_now dr) name (splitTags (rq_TagsParam rq)) data ct (be_store b) = (Err e, be_store b)) as ->; [|by split; [|left]].
    unfold PublishTitleFile. rewrite M_bind_eval. unfold lift_res. by rewrite Hv.
Qed.

Lemma delete_confined cfg name rq dr b : confined cfg name b (handleDeleteTitleFile cfg name rq dr b).2.
Proof.
  unfold handleDeleteTitleFile. pose proof (unpublish_framed cfg name (be_store b)) as Hf.
  destruct (ValidateFilename name) as [[]|e] eqn:Hv.
  - destruct (DeleteTitleFile _ _ _) as [[file|e] st]; cbn in *; (split; [done|by right]).
  - assert (DeleteTitleFile cfg name (be_store b) = (Err e, be_store b)) as ->; [|by split; [|left]].
    unfold DeleteTitleFile. rewrite M_bind_eval. unfold lift_res. by rewrite Hv.
Qed.

Lemma token_confined cfg name token h rq dr b : confined cfg name b (h rq dr b).2 → confined cfg name b (requireToken token h rq dr b).2.
Proof. intros H. unfold requireToken. case_bool_decide; [done|]. case_bool_decide; [done|apply confined_refl]. Qed.

(** The pattern that answers a request. *)
Lemma answers storage token rq :
  (∃ m h, (m, h) ∈ route (S := S) queue_Depth storage token (rq_Path rq) ∧ method_matches m (rq_Method rq) = true ∧
     ∀ dr b, NewHandler queue_Depth storage token rq dr b = h rq dr b) ∨
  (∃ resp, rs_Status resp ∈ [404; 405] ∧ ∀ dr b, NewHandler queue_Depth storage token rq dr b = (resp, b)).
Proof.
  unfold NewHandler. destruct (list_find _ _) as [[i [m h]]|] eqn:E.
  - apply list_find_Some in E as (Hi & Hm & _). left. exists m, h. split_and!; [by eapply list_elem_of_lookup_2|done|done].
  - right. eexists. split; [|done]. destruct (route _ _ _ _); cbn; set_solver.
Qed.

Lemma gated token h rq dr b : token <> "" → rq_Authorization rq <> "Bearer " +:+ token →
  requireToken (S := S) (Q := Q) token h rq dr b = (writeError 401 "unauthorized", b).
Proof. intros Ht Ha. unfold requireToken. by rewrite !bool_decide_eq_false_2. Qed.

Lemma route_gated storage token path m h : (m, h) ∈ route (S := S) queue_Depth storage token path →
  path = ["healthz"] ∨ path = ["readyz"] ∨ ∃ h', h = requireToken token h'.
Proof.
  intros H. unfold route in H. repeat case_match; subst; try (by apply elem_of_nil in H); set_unfold in H; naive_solver.
Qed.

Lemma route_cases storage token path m h : (m, h) ∈ route (S := S) queue_Depth storage token path →
  reads h ∨ ∃ cfg name h', storage = Some cfg ∧ path = ["api"; "title-files"; name] ∧ h = requireToken token h' ∧
    (m = "PUT" ∧ h' = handlePutTitleFile cfg name ∨ m = "DELETE" ∧ h' = handleDeleteTitleFile cfg name).
Proof.
  intros H. unfold route in H. repeat case_match; subst; try (by apply elem_of_nil in H); rewrite ?elem_of_cons in H;
    destruct_or?; try (by apply elem_of_nil in H); simplify_eq;
    try (left; first [done|apply reads_ready|apply reads_token, reads_depth|apply reads_token, reads_player]);
    right; eexists _, _, _; (split; [reflexivity|]); (split; [reflexivity|]); (split; [reflexivity|]); auto.
Qed.

(** C25: the operator token is the only way in.  When a token is configured, a request without exactly
    that bearer token is answered 401, or 404 or 405 when there is no such route, changes nothing,
    and learns nothing: its answer is the same whatever the database, the store and the queue hold.
    Only the two probes answer anyone, and they change nothing either. *)
Theorem admin_gate storage token rq :
  token <> "" → rq_Authorization rq <> "Bearer " +:+ token →
  (rq_Path rq <> ["healthz"] → rq_Path rq <> ["readyz"] →
   ∃ resp, rs_Status resp ∈ [401; 404; 405] ∧ ∀ dr b, NewHandler queue_Depth storage token rq dr b = (resp, b)) ∧
  ∀ dr b, (NewHandler queue_Depth storage token rq dr b).2 = b.
Proof.
  intros Ht Ha. destruct (answers storage token rq) as [(m & h & Hin & _ & Heq)|(resp & Hst & Heq)].
  2: { split; [|intros dr b; by rewrite Heq]. intros _ _. exists resp. split; [set_solver|done]. }
  destruct (route_gated _ _ _ _ _ Hin) as [Hp|[Hp|[h' ->]]].
  1-2: split; [congruence|]; intros dr b; rewrite Heq; rewrite Hp in Hin; cbn in Hin; apply list_elem_of_singleton in Hin as [= _ ->];
    first [done|apply reads_ready].
  split; [|intros dr b; by rewrite Heq, gated].
  intros _ _. eexists. split; [|intros dr b; rewrite Heq; by apply gated]. cbn. set_solver.
Qed.

(** operators can publish, and nothing else.  Whatever request the operations API serves, with or
    without the token, the match queue stays as it was, and the database and the object store change
    at most by a PUT or DELETE under /api/title-files/{name} with a valid name: then only the rows of
    that name in title_files and the object at its key may differ.  So no player's file, in no
    gateway's key space, is ever touched. *)
Theorem admin_confined storage token rq dr b :
  let b' := (NewHandler queue_Depth storage token rq dr b).2 in
  be_queue b' = be_queue b ∧
  (be_store b' = be_store b ∨
   ∃ cfg name, storage = Some cfg ∧ rq_Path rq = ["api"; "title-files"; name] ∧ rq_Method rq ∈ ["PUT"; "DELETE"] ∧
     ValidateFilename name = Ok tt ∧ title_frame cfg name (be_store b) (be_store b')) ∧
  ((∀ cfg, storage = Some cfg → title_apart cfg) →
   ∀ gateway o f, ValidateFilename f = Ok tt → object (playerKey gateway o f) (be_store b').2 = object (playerKey gateway o f) (be_store b).2).
Proof.
  cbv zeta. set (b' := (NewHandler queue_Depth storage token rq dr b).2).
  enough (be_queue b' = be_queue b ∧ (be_store b' = be_store b ∨
    ∃ cfg name, storage = Some cfg ∧ rq_Path rq = ["api"; "title-files"; name] ∧ rq_Method rq ∈ ["PUT"; "DELETE"] ∧
      ValidateFilename name = Ok tt ∧ title_frame cfg name (be_store b) (be_store b'))) as [Hq Hst].
  { split_and!; [done|done|]. intros Hap gw o f Hf. destruct Hst as [->|(cfg & name & -> & _ & _ & Hn & _ & Ho)]; [done|].
    apply Ho. intros E. symmetry in E. apply (titleKey_playerKey cfg gw o name f); [by apply Hap|done|done|exact E]. }
  unfold b'. clear b'. destruct (answers storage token rq) as [(m & h & Hin & Hm & Heq)|(resp & _ & Heq)]; rewrite Heq; [|by split; [|left]].
  unfold method_matches in Hm. rewrite orb_true_iff, andb_true_iff, !bool_decide_eq_true in Hm.
  destruct (route_cases _ _ _ _ _ Hin) as [Hr|(cfg & name & h' & -> & Hp & -> & Hh)]; [by rewrite Hr; split; [|left]|].
  assert (confined cfg name b (requireToken token h' rq dr b).2) as [Hc [Hc'|[Hv Hf]]].
  { apply token_confined. destruct Hh as [[_ ->]|[_ ->]]; [apply put_confined|apply delete_confined]. }
  - split; [done|by left].
  - split; [done|right]. exists cfg, name. split_and!; [done|done| |done|done]. destruct Hh as [[-> _]|[-> _]]; destruct Hm as [<-|[? _]]; set_solver.
Qed.
End laws.

(** ** Evaluation

    The operations API over the in-memory queue (VFX_MATCH_QUEUE=inmem), with player 0a registered. *)

Definition inmem_depth (gameMode : string) (q : InMem) : res Z := result (Depth gameMode q).

#[local] Existing Instances hex_codec content_store content_objects.

Definition demo_text_of : ErrorText := λ e, match e with ErrInvalidFilename => "storage: invalid filename" | _ => "error" end.
#[local] Existing Instance demo_text_of.

Definition ops_cfg : StorageConfig := mkStorageConfig "" "title" 0 0 0.
Definition ops_draw : AdminDraw := mkAdminDraw 1700 (sample_uuid x09) None.
Definition ops_backend : Backend (S := gmap string string) (Q := InMem) := mkBackend (demo_files_db, ∅) NewInMem.
Definition ops (method : string) (path : list string) (auth : string) (body : res string) : HttpResponse * Backend :=
  NewHandler inmem_depth (Some ops_cfg) "ops" (mkHttpRequest method path auth "" "prod,config" body) ops_draw ops_backend.

Example ops_answers :
  (ops "GET" ["healthz"] "" (Ok "")).1 = writeHeader 200 ∧
  (ops "GET" ["api"; "players"; hex_String demo_owner] "Bearer ops" (Ok "")).1 = writeJSON 200 (PlayerBody (mkPlayerView (hex_String demo_owner) None 0)) ∧
  (ops "HEAD" ["api"; "players"; hex_String (sample_uuid x02)] "Bearer ops" (Ok "")).1 = writeError 404 "player not found" ∧
  (ops "GET" ["api"; "players"; "me"] "Bearer ops" (Ok "")).1 = writeError 400 "invalid player id" ∧
  (ops "GET" ["api"; "matchmaking"; "rps"] "Bearer ops" (Ok "")).1 = writeJSON 200 (QueueBody (mkQueueView "rps" 0)) ∧
  (ops "PUT" ["api"; "title-files"; ".."] "Bearer ops" (Ok "x")).1 = writeError 400 "storage: invalid filename" ∧
  (ops "PUT" ["api"; "title-files"; "motd"] "Bearer ops" (Err (ErrText "reset"))).1 = writeError 413 "title file too large or unreadable" ∧
  (ops "DELETE" ["api"; "title-files"; "motd"] "Bearer ops" (Ok "")).1 = writeError 404 "title file not found" ∧
  (ops "POST" ["api"; "title-files"; "motd"] "Bearer ops" (Ok "")).1 = http_Error "Method Not Allowed" 405 ∧
  (ops "PUT" ["api"; "title-files"; "motd"] "Bearer op" (Ok "x")).1 = writeError 401 "unauthorized".
Proof. split_and!; vm_compute; reflexivity. Qed.

Lemma admin_gate_witness :
  ∃ resp, rs_Status resp ∈ [401; 404; 405] ∧ ∀ dr b,
    NewHandler inmem_depth (Some ops_cfg) "ops" (mkHttpRequest "PUT" ["api"; "title-files"; "motd"] "" "" "" (Ok "x")) dr b = (resp, b).
Proof. refine (proj1 (admin_gate inmem_depth (Some ops_cfg) "ops" (mkHttpRequest "PUT" ["api"; "title-files"; "motd"] "" "" "" (Ok "x")) _ _) _ _); done. Defined.

Lemma admin_confined_witness :
  let b' := (ops "PUT" ["api"; "title-files"; "motd"] "Bearer ops" (Ok "x")).2 in
  title_files (be_store b').1 <> [] ∧
  object (playerKey demo_storage demo_owner "save-1") (be_store b').2 = object (playerKey demo_storage demo_owner "save-1") (be_store ops_backend).2.
Proof.
  cbv zeta. split; [vm_compute; done|].
  destruct (admin_confined inmem_depth (Some ops_cfg) "ops" (mkHttpRequest "PUT" ["api"; "title-files"; "motd"] "Bearer ops" "" "prod,config" (Ok "x")) ops_draw ops_backend)
    as (_ & _ & H). apply H; [|vm_compute; reflexivity]. intros cfg [= <-]. vm_compute. done.
Defined.
