(* ===== verification/Base64.v ===== *)
(** * Base64url (encoding/base64), and the segments of a JWT

    [DecodeString] is [base64.URLEncoding.DecodeString]: padded, not strict, carriage returns and
    line feeds ignored.  [RawEncode] is the unpadded encoding JWTs use.  [decodeJWTSegment]
    (sdk/client/go/session.go) supplies the padding a JWT leaves out. *)

From S2P Require Import Prelude GoBase.

Definition byte_of (a : ascii) : Z := Z.of_N (N_of_ascii a).
Definition ascii_of (z : Z) : ascii := ascii_of_N (Z.to_N z).

Lemma byte_of_range a : 0 ≤ byte_of a < 256.
Proof. unfold byte_of. pose proof (N_ascii_bounded a). lia. Qed.

Lemma ascii_byte_of a : ascii_of (byte_of a) = a.
Proof. unfold ascii_of, byte_of. by rewrite N2Z.id, ascii_N_embedding. Qed.

(** ** The alphabet *)

Definition alphabet : string := "ABCDEFGHIJKLMNOPQRSTUVWXYZabcdefghijklmnopqrstuvwxyz0123456789-_".

Definition digit (v : Z) : ascii := default "A"%char (String.get (Z.to_nat v) alphabet).

Fixpoint index_of (c : ascii) (s : string) (n : Z) : option Z :=
  match s with
  | "" => None
  | String c' s' => if Ascii.eqb c c' then Some n else index_of c s' (n + 1)
  end.
Definition sextet (c : ascii) : option Z := index_of c alphabet 0.

Definition is_newline (c : ascii) : bool := Ascii.eqb c (ascii_of 10) || Ascii.eqb c (ascii_of 13).

(** The 64 digits, by evaluation. *)
Lemma digits_ok : forallb (λ v, match sextet (digit v) with Some w => v =? w | None => false end && negb (is_newline (digit v))
  && negb (Ascii.eqb (digit v) "="%char) && negb (Ascii.eqb (digit v) "."%char) && (nat_of_ascii (digit v) <? 128)%nat) (Z.of_nat <$> seq 0 64) = true.
Proof. vm_compute. reflexivity. Qed.

Lemma digit_spec v : 0 ≤ v < 64 → sextet (digit v) = Some v ∧ is_newline (digit v) = false ∧ digit v <> "="%char ∧ digit v <> "."%char ∧
  (nat_of_ascii (digit v) < 128)%nat.
Proof.
  intros Hv. pose proof digits_ok as H. rewrite forallb_forall in H. specialize (H v). rewrite !andb_true_iff, !negb_true_iff in H.
  destruct H as [[[[H1 H2] H3] H4] H5%Nat.ltb_lt].
  { apply in_map_iff. exists (Z.to_nat v). split; [lia|]. apply in_seq. lia. }
  destruct (sextet (digit v)) as [w|]; [|done]. apply Z.eqb_eq in H1 as <-.
  apply Ascii.eqb_neq in H3, H4. done.
Qed.

(** ** Encoding and decoding *)

Fixpoint encode_bytes (l : list ascii) : list ascii :=
  match l with
  | a :: b :: c :: l' =>
      let '(x, y, z) := (byte_of a, byte_of b, byte_of c) in
      digit (x / 4) :: digit (x mod 4 * 16 + y / 16) :: digit (y mod 16 * 4 + z / 64) :: digit (z mod 64) :: encode_bytes l'
  | [a; b] => let '(x, y) := (byte_of a, byte_of b) in [digit (x / 4); digit (x mod 4 * 16 + y / 16); digit (y mod 16 * 4)]
  | [a] => let x := byte_of a in [digit (x / 4); digit (x mod 4 * 16)]
  | [] => []
  end.

(** Four characters at a time; padding is good only at the end. *)
Fixpoint decode_chars (l : list ascii) : option (list ascii) :=
  match l with
  | [] => Some []
  | a :: b :: c :: d :: l' =>
      x ← sextet a; y ← sextet b;
      if Ascii.eqb c "=" then
        if Ascii.eqb d "=" && bool_decide (l' = []) then Some [ascii_of (x * 4 + y / 16)] else None
      else
        z ← sextet c;
        if Ascii.eqb d "=" then
          if bool_decide (l' = []) then Some [ascii_of (x * 4 + y / 16); ascii_of (y mod 16 * 16 + z / 4)] else None
        else
          w ← sextet d; rest ← decode_chars l';
          Some (ascii_of (x * 4 + y / 16) :: ascii_of (y mod 16 * 16 + z / 4) :: ascii_of (z mod 4 * 64 + w) :: rest)
  | _ => None
  end.

Definition RawEncode (data : string) : string := string_of_list_ascii (encode_bytes (list_ascii_of_string data)).

Definition DecodeString (s : string) : option string :=
  string_of_list_ascii <$> decode_chars (List.filter (λ c, negb (is_newline c)) (list_ascii_of_string s)).

(** [strings.Repeat("=", n)]. *)
Definition padding (n : nat) : string := string_of_list_ascii (replicate n "="%char).

Definition decodeJWTSegment (seg : string) : option string :=
  let pad := Z.of_nat (String.length seg) mod 4 in
  DecodeString (if pad =? 0 then seg else seg +:+ padding (Z.to_nat (4 - pad))).

(** ** Round trip *)

(** Induction three by three. *)
Lemma triples_ind {A} (P : list A → Prop) :
  P [] → (∀ a, P [a]) → (∀ a b, P [a; b]) → (∀ a b c l, P l → P (a :: b :: c :: l)) → ∀ l, P l.
Proof.
  intros H0 H1 H2 H3 l. enough (P l ∧ (∀ a, P (a :: l)) ∧ (∀ a b, P (a :: b :: l))) as [? _] by done.
  induction l as [|c l (IH1 & IH2 & IH3)]; [done|]. split_and!; [apply IH2|intros a; apply IH3|intros a b; by apply H3].
Qed.

(** The padding that the length calls for. *)
Definition pad_of (l : list ascii) : list ascii := if (length l mod 4 =? 0)%nat then [] else replicate (4 - length l mod 4) "="%char.

#[local] Ltac Zify.zify_post_hook ::= Z.to_euclidean_division_equations.

Lemma digit_eqb v : 0 ≤ v < 64 → Ascii.eqb (digit v) "=" = false.
Proof. intros Hv. apply Ascii.eqb_neq. by apply digit_spec. Qed.

Lemma sextet_digit v : 0 ≤ v < 64 → sextet (digit v) = Some v.
Proof. intros Hv. by apply digit_spec. Qed.

(** A byte, from the pieces it was cut into. *)
Lemma ascii_of_eq z a : z = byte_of a → ascii_of z = a.
Proof. intros ->. apply ascii_byte_of. Qed.

Lemma decode_quantum a b c l p :
  decode_chars (encode_bytes (a :: b :: c :: l) ++ p) = (λ rest, a :: b :: c :: rest) <$> decode_chars (encode_bytes l ++ p).
Proof.
  pose proof (byte_of_range a). pose proof (byte_of_range b). pose proof (byte_of_range c).
  cbn [encode_bytes app decode_chars]. rewrite !sextet_digit, !digit_eqb by lia. cbn [mbind option_bind].
  rewrite (ascii_of_eq _ a), (ascii_of_eq _ b), (ascii_of_eq _ c) by lia. by destruct (decode_chars _).
Qed.

Lemma decode_encode_bytes l : decode_chars (encode_bytes l ++ pad_of (encode_bytes l)) = Some l.
Proof.
  induction l as [|a|a b|a b c l IH] using triples_ind; [done|..].
  - pose proof (byte_of_range a). cbn [encode_bytes pad_of length app decode_chars replicate Nat.modulo Nat.divmod Nat.eqb fst snd Nat.sub].
    rewrite !sextet_digit by lia. cbn. by rewrite (ascii_of_eq _ a) by lia.
  - pose proof (byte_of_range a). pose proof (byte_of_range b).
    cbn [encode_bytes pad_of length app decode_chars replicate Nat.modulo Nat.divmod Nat.eqb fst snd Nat.sub].
    rewrite !sextet_digit by lia. cbn [mbind option_bind]. rewrite digit_eqb by lia. cbn.
    by rewrite (ascii_of_eq _ a), (ascii_of_eq _ b) by lia.
  - assert (pad_of (encode_bytes (a :: b :: c :: l)) = pad_of (encode_bytes l)) as ->.
    { unfold pad_of. cbn [encode_bytes length]. replace (S (S (S (S (length (encode_bytes l)))))) with (length (encode_bytes l) + 1 * 4)%nat by lia.
      by rewrite Nat.Div0.mod_add. }
    by rewrite decode_quantum, IH.
Qed.

(** The encoding has no line break and no dot, and is ASCII. *)
Lemma encode_bytes_clean l c : c ∈ encode_bytes l → is_newline c = false ∧ c <> "."%char ∧ (nat_of_ascii c < 128)%nat.
Proof.
  assert (∀ v, 0 ≤ v < 64 → is_newline (digit v) = false ∧ digit v <> "."%char ∧ (nat_of_ascii (digit v) < 128)%nat) as Hd.
  { intros v Hv. by destruct (digit_spec v Hv) as (_ & ? & _ & ? & ?). }
  induction l as [|a|a b|a b d l IH] using triples_ind; cbn [encode_bytes];
    repeat match goal with a : ascii |- _ => lazymatch goal with H : 0 ≤ byte_of a < 256 |- _ => fail | |- _ => pose proof (byte_of_range a) end end;
    rewrite ?elem_of_cons, ?elem_of_nil; intros Hc; destruct_or? Hc; subst; try done; try (apply Hd; lia). by apply IH.
Qed.

Lemma filter_clean l : (∀ c, c ∈ l → is_newline c = false) → List.filter (λ c, negb (is_newline c)) l = l.
Proof.
  induction l as [|c l IH]; [done|]. intros H. cbn [List.filter]. rewrite (H c) by left. cbn [negb].
  f_equal. apply IH. intros x Hx. apply H. by right.
Qed.

(** A JWT segment decodes to what was encoded in it. *)
Lemma decodeJWTSegment_encode data : decodeJWTSegment (RawEncode data) = Some data.
Proof.
  unfold decodeJWTSegment, RawEncode. set (l := list_ascii_of_string data).
  assert (∀ s, (if Z.of_nat (String.length (string_of_list_ascii (encode_bytes l))) mod 4 =? 0 then string_of_list_ascii (encode_bytes l)
    else string_of_list_ascii (encode_bytes l) +:+ padding (Z.to_nat (4 - Z.of_nat (String.length (string_of_list_ascii (encode_bytes l))) mod 4))) = s →
    list_ascii_of_string s = encode_bytes l ++ pad_of (encode_bytes l)) as Hs.
  { intros s <-. unfold pad_of. set (e := encode_bytes l). clearbody e.
    assert (String.length (string_of_list_ascii e) = length e) as -> by (clear; induction e; cbn; congruence).
    change 4 with (Z.of_nat 4). rewrite <- Nat2Z.inj_mod.
    destruct (length e mod 4 =? 0)%nat eqn:E.
    - apply Nat.eqb_eq in E. rewrite E. change (Z.of_nat 0 =? 0) with true. cbv iota. by rewrite list_ascii_of_string_of_list_ascii, app_nil_r.
    - apply Nat.eqb_neq in E. rewrite (proj2 (Z.eqb_neq _ 0)) by lia. unfold padding.
      rewrite list_ascii_app, !list_ascii_of_string_of_list_ascii. do 2 f_equal. pose proof (Nat.mod_upper_bound (length e) 4). lia. }
  unfold DecodeString. rewrite (Hs _ eq_refl), filter_clean, decode_encode_bytes.
  - cbn. f_equal. apply string_of_list_ascii_of_string.
  - intros c [Hc|Hc]%elem_of_app; [by apply encode_bytes_clean in Hc as [? _]|]. unfold pad_of in Hc.
    case_match; [by apply elem_of_nil in Hc|]. apply elem_of_replicate in Hc as [-> _]. reflexivity.
Qed.
