(* ===== verification/Client.v ===== *)
(** * The client SDK (sdk/client/go, but for session.go)

    A [Client] keeps the tokens and the player of its last login.  Each method builds one request,
    adds the Authorization header, and unwraps the response; what carries the request is the class
    [Network]: the generated RPC clients, the two response streams, and plain HTTP to the object
    store.  [Cloud] is the instance that is the gateway itself ([Gateway.handle]), against which the
    end-to-end theorems are proved. *)

From stdpp Require Import pretty.
From S2P Require Import Prelude GoBase GoStrings Database Match MatchQueue AssignmentStore Matchmaker.
From S2P Require Import Social Storage Group Chat Leaderboard Auth Token Gateway.

(** ** State and network *)

Record Client := mkClient { c_accessToken : string; c_refreshToken : string; c_player : option PlayerPb }.

(** [New]. *)
Definition NewClient : Client := mkClient "" "" None.

(** A stream is what it carries and the error it ends with. *)
Class Network (N : Type) := {
  unary {A} : string → request A → N → res A * N;
  stream_WatchTicket : string → string → N → res (list WatchPb * option error) * N;
  stream_SubscribeChannel : string → string → N → res (list ChannelMessagePb * option error) * N;
  (* http.NewRequestWithContext, then the status and the body of the response *)
  build_request : string → option error;
  http_PUT : string → gmap string string → string → N → res Z * N;
  http_GET : string → N → res (Z * res string) * N;
}.

Section client.
Context {N : Type} {NW : Network N}.

Definition Method (A : Type) : Type := M (Client * N) A.

(** The header that [authorize] sets; empty when it sets none. *)
Definition authorize (c : Client) : string := if bool_decide (c_accessToken c = "") then "" else "Bearer " +:+ c_accessToken c.

Definition wrapped {A} (msg : string) (r : res A) : res A := match r with Ok a => Ok a | Err e => Err (Wrap msg e) end.

(** [connect.NewRequest], [authorize], the call, and the wrapping of its error. *)
Definition send_authorized {A} (msg : string) (rq : request A) : Method A := λ '(c, n),
  let '(r, n') := unary (authorize c) rq n in (wrapped msg r, (c, n')).

(** ** Accounts (client.go) *)

Definition logged_in (l : LoginPb) : Client := mkClient (lpb_AccessToken l) (lpb_RefreshToken l) (Some (lpb_Player l)).

Definition login (msg : string) (cred : credential) : Method unit := λ '(c, n),
  let '(r, n') := unary "" (RqLogin (Some cred)) n in
  match r with
  | Err e => (Err (Wrap msg e), (c, n'))
  | Ok resp => (Ok tt, (logged_in resp, n'))
  end.

Definition non_empty (s : string) : option string := if bool_decide (s = "") then None else Some s.

Definition Client_LoginAnonymous (deviceID nickname : string) : Method unit :=
  login "vfxclient: login" (Anonymous (non_empty deviceID) (non_empty nickname)).

Definition Client_LoginOIDC (provider : ProviderPb) (idToken : string) : Method unit :=
  login "vfxclient: oidc login" (Oidc provider idToken).

Definition Client_LinkIdentity (provider : ProviderPb) (idToken : string) : Method unit := λ '(c, n),
  match send_authorized "vfxclient: link identity" (RqLinkIdentity (Some (provider, idToken))) (c, n) with
  | (Err e, s) => (Err e, s)
  | (Ok p, (c, n)) => (Ok tt, (mkClient (c_accessToken c) (c_refreshToken c) (Some p), n))
  end.

(** ** Matchmaking (client.go) *)

Record CreateTicketRequest := mkCreateTicketRequest {
  ct_GameMode : string; ct_Rating : option float64; ct_Region : option string; ct_PartyMembers : list string; ct_Attributes : gmap string string;
}.
Definition CreateTicketOption : Type := CreateTicketRequest → CreateTicketRequest.

Definition WithParty (memberPlayerIDs : list string) : CreateTicketOption := λ r,
  mkCreateTicketRequest (ct_GameMode r) (ct_Rating r) (ct_Region r) memberPlayerIDs (ct_Attributes r).
Definition WithRating (rating : float64) : CreateTicketOption := λ r,
  mkCreateTicketRequest (ct_GameMode r) (Some rating) (ct_Region r) (ct_PartyMembers r) (ct_Attributes r).
Definition WithRegion (region : string) : CreateTicketOption := λ r,
  mkCreateTicketRequest (ct_GameMode r) (ct_Rating r) (Some region) (ct_PartyMembers r) (ct_Attributes r).
Definition WithAttributes (attributes : gmap string string) : CreateTicketOption := λ r,
  mkCreateTicketRequest (ct_GameMode r) (ct_Rating r) (ct_Region r) (ct_PartyMembers r) attributes.

Definition Client_CreateTicket (gameMode : string) (opts : list CreateTicketOption) : Method string :=
  let msg := foldl (λ r opt, opt r) (mkCreateTicketRequest gameMode None None [] ∅) opts in
  send_authorized "vfxclient: create ticket" (RqCreateTicket (ct_GameMode msg) (ct_Rating msg) (ct_Region msg) (ct_PartyMembers msg) (ct_Attributes msg)).

Record ClientMatch := mkClientMatch { mt_Endpoint : string; mt_SessionToken : string }.

(** The loop over [stream.Receive()]: [None] when the stream ends first. *)
Fixpoint awaitMatch (events : list WatchPb) : option (res ClientMatch) :=
  match events with
  | [] => None
  | Queued _ _ :: events' => awaitMatch events'
  | Matched endpoint token _ :: _ => Some (Ok (mkClientMatch endpoint token))
  | Failed reason message :: _ => Some (Err (ErrText ("vfxclient: matchmaking failed: " +:+ reason +:+ " (" +:+ message +:+ ")")))
  end.

Definition Client_WaitForMatch (ticketID : string) : Method ClientMatch := λ '(c, n),
  let '(r, n') := stream_WatchTicket (authorize c) ticketID n in
  (match r with
   | Err e => Err (Wrap "vfxclient: watch ticket" e)
   | Ok (events, ended) =>
       match awaitMatch events, ended with
       | Some m, _ => m
       | None, Some e => Err (Wrap "vfxclient: watch ticket stream" e)
       | None, None => Err (ErrText "vfxclient: ticket stream closed without a match")
       end
   end, (c, n')).

(** [nil] when the player is in no match. *)
Definition Client_GetCurrentMatch : Method (option ClientMatch) :=
  m ← send_authorized "vfxclient: get current match" RqGetCurrentMatch;
  mret ((λ m, mkClientMatch (cm_Endpoint m) (cm_SessionToken m)) <$> (m : option CurrentMatchPb)).

(** ** Friends (social.go) *)

Definition Client_SendFriendRequest (addressee : string) : Method RequestStatus :=
  send_authorized "vfxclient: send friend request" (RqSendFriendRequest addressee).
Definition Client_AcceptFriendRequest (requester : string) : Method unit :=
  send_authorized "vfxclient: accept friend request" (RqAcceptFriendRequest requester).
Definition Client_DeclineFriendRequest (requester : string) : Method unit :=
  send_authorized "vfxclient: decline friend request" (RqDeclineFriendRequest requester).
Definition Client_CancelFriendRequest (addressee : string) : Method unit :=
  send_authorized "vfxclient: cancel friend request" (RqCancelFriendRequest addressee).
Definition Client_ListFriends : Method (list PlayerPb) := send_authorized "vfxclient: list friends" RqListFriends.
Definition Client_ListIncomingFriendRequests : Method (list PlayerPb) :=
  send_authorized "vfxclient: list incoming requests" RqListIncomingRequests.
Definition Client_ListOutgoingFriendRequests : Method (list PlayerPb) :=
  send_authorized "vfxclient: list outgoing requests" RqListOutgoingRequests.
Definition Client_RemoveFriend (friend : string) : Method unit := send_authorized "vfxclient: remove friend" (RqRemoveFriend friend).
Definition Client_BlockPlayer (player : string) : Method unit := send_authorized "vfxclient: block player" (RqBlockPlayer player).
Definition Client_UnblockPlayer (player : string) : Method unit := send_authorized "vfxclient: unblock player" (RqUnblockPlayer player).
Definition Client_ListBlocked : Method (list PlayerPb) := send_authorized "vfxclient: list blocked" RqListBlocked.

(** ** Groups (group.go) *)

Definition Client_CreateGroup (name : string) : Method GroupPb := send_authorized "vfxclient: create group" (RqCreateGroup name).
Definition Client_DeleteGroup (groupID : string) : Method unit := send_authorized "vfxclient: delete group" (RqDeleteGroup groupID).
Definition Client_JoinGroup (groupID : string) : Method unit := send_authorized "vfxclient: join group" (RqJoinGroup groupID).
Definition Client_LeaveGroup (groupID : string) : Method unit := send_authorized "vfxclient: leave group" (RqLeaveGroup groupID).
Definition Client_ListMyGroups : Method (list GroupPb) := send_authorized "vfxclient: list my groups" RqListMyGroups.
Definition Client_ListGroupMembers (groupID : string) : Method (list PlayerPb) :=
  send_authorized "vfxclient: list group members" (RqListMembers groupID).

(** ** Leaderboards (leaderboard.go) *)

Definition Client_SubmitScore (leaderboardID : string) (score : Z) : Method (RankEntryPb * bool) :=
  send_authorized "vfxclient: submit score" (RqSubmitScore leaderboardID score).
Definition Client_ListRanks (leaderboardID : string) (offset n : Z) : Method (list RankEntryPb) :=
  send_authorized "vfxclient: list ranks" (RqListRanks leaderboardID offset n).
Definition Client_GetPlayerRank (leaderboardID : string) : Method RankEntryPb :=
  send_authorized "vfxclient: get player rank" (RqGetPlayerRank leaderboardID "").
Definition Client_ListRanksAroundPlayer (leaderboardID : string) (radius : Z) : Method (list RankEntryPb) :=
  send_authorized "vfxclient: list ranks around player" (RqListRanksAroundPlayer leaderboardID radius).

(** ** Chat (chat.go) *)

Definition before_pb (before : time) : option time := if time_IsZero before then None else Some before.

Definition Client_SendDirectMessage (recipient body : string) : Method MessagePb :=
  send_authorized "vfxclient: send direct message" (RqSendDirectMessage recipient body).
Definition Client_ListDirectMessages (other : string) (before : time) (n : Z) : Method (list MessagePb) :=
  send_authorized "vfxclient: list direct messages" (RqListDirectMessages other (before_pb before) n).
Definition Client_SendChannelMessage (channelID body : string) : Method ChannelMessagePb :=
  send_authorized "vfxclient: send channel message" (RqSendChannelMessage channelID body).
Definition Client_ListChannelMessages (channelID : string) (before : time) (n : Z) : Method (list ChannelMessagePb) :=
  send_authorized "vfxclient: list channel messages" (RqListChannelMessages channelID (before_pb before) n).

(** The callback keeps a state [X]; the loop ends at its first error. *)
Fixpoint handleAll {X} (handle : ChannelMessagePb → M X unit) (messages : list ChannelMessagePb) : M X unit :=
  match messages with
  | [] => mret tt
  | m :: messages' => _ ← handle m; handleAll handle messages'
  end.

Definition Client_SubscribeChannel {X} (channelID : string) (handle : ChannelMessagePb → M X unit) : M (Client * N * X) unit := λ '(c, n, x),
  let '(r, n') := stream_SubscribeChannel (authorize c) channelID n in
  match r with
  | Err e => (Err (Wrap "vfxclient: subscribe channel" e), (c, n', x))
  | Ok (messages, ended) =>
      match handleAll handle messages x with
      | (Err e, x') => (Err e, (c, n', x'))
      | (Ok _, x') => (match ended with Some e => Err (Wrap "vfxclient: channel stream" e) | None => Ok tt end, (c, n', x'))
      end
  end.

(** ** Files (storage.go) *)

Definition on_net {A} (m : M N A) : Method A := λ '(c, n), let '(r, n') := m n in (r, (c, n')).

(** [resp.StatusCode/100 != 2]. *)
Definition is_success (status : Z) : bool := Z.quot status 100 =? 2.

Definition putObject (url : string) (headers : gmap string string) (data : string) : M N unit := λ n,
  match build_request url with
  | Some e => (Err (Wrap "vfxclient: build upload request" e), n)
  | None =>
      match http_PUT url headers data n with
      | (Err e, n') => (Err (Wrap "vfxclient: upload" e), n')
      | (Ok status, n') => (if is_success status then Ok tt else Err (ErrText ("vfxclient: upload returned " +:+ pretty status)), n')
      end
  end.

Definition getObject (url : string) : M N string := λ n,
  match build_request url with
  | Some e => (Err (Wrap "vfxclient: build download request" e), n)
  | None =>
      match http_GET url n with
      | (Err e, n') => (Err (Wrap "vfxclient: download" e), n')
      | (Ok (status, body), n') => (if is_success status then body else Err (ErrText ("vfxclient: download returned " +:+ pretty status)), n')
      end
  end.

Definition Client_QueryFiles (prefix : string) : Method (list FilePb) := send_authorized "vfxclient: query files" (RqQueryFiles prefix).

Definition Client_WriteFile (filename data : string) : Method unit :=
  upload ← send_authorized "vfxclient: write file" (RqWriteFile filename (u64 (Z.of_nat (String.length data))));
  _ ← on_net (putObject (upb_UploadUrl upload) (upb_RequiredHeaders upload) data);
  _ ← send_authorized "vfxclient: commit file" (RqCommitFile filename);
  mret tt.

Definition Client_ReadFile (filename : string) : Method string :=
  file ← send_authorized "vfxclient: read file" (RqReadFile filename);
  on_net (getObject (dpb_DownloadUrl file)).

Definition Client_DeleteFile (filename : string) : Method unit := send_authorized "vfxclient: delete file" (RqDeleteFile filename).

Definition Client_QueryTitleFiles (tags : list string) : Method (list FilePb) :=
  send_authorized "vfxclient: query title files" (RqQueryTitleFiles tags).

Definition Client_ReadTitleFile (filename : string) : Method string :=
  file ← send_authorized "vfxclient: read title file" (RqReadTitleFile filename);
  on_net (getObject (dpb_DownloadUrl file)).
End client.
