(* ===== verification/ClientSession.v ===== *)
(** * The client's room session (sdk/client/go/session.go)

    [Connect] reads the match id out of the session token, dials the room of that match and sends
    the token in a ClientHello; two loops then deliver the frames that arrive as datagrams and over
    streams.  The transport and the encodings are parameters; the token's compact form is the JWT
    standard's ([JwtCompact]). *)

From S2P Require Import Prelude GoBase GoStrings Json Base64 Token Room RoomServer Client.

(** ** Encodings *)

(** The client's side of the frame encoding. *)
Class ClientCodec := {
  marshal_client : ClientFrame → option string;
  unmarshal_server : string → option Frame;
}.

(** One encoding on both sides; marshalling fails on text that is not UTF-8. *)
Class FrameLaws {FC : FrameCodec} {CC : ClientCodec} : Prop := {
  hello_wire tok : ValidString tok = true → ∃ d, marshal_client (Hello tok) = Some d ∧ unmarshal_frame d = Some (Hello tok);
  input_wire tick payload : 0 ≤ tick < 4294967296 →
    ∃ d, marshal_client (PlayerInput tick payload) = Some d ∧ unmarshal_frame d = Some (PlayerInput tick payload);
  frame_wire f d : marshal_frame f = Some d → unmarshal_server d = Some f;
}.

(** The text of a JSON value, and [json.Unmarshal] of a text into a struct with the field [mid]. *)
Class JsonText := { text_of : json → string; unmarshal_mid : string → res string }.

(** Reading back the text reads the value ([Json.read]). *)
Class JsonTextLaws (T : JsonText) : Prop :=
  mid_of_text j m : read j_string "mid" "" j = Ok m → unmarshal_mid (text_of j) = Ok m.

Definition compact (header claims signature : string) : string :=
  RawEncode header +:+ String "." (RawEncode claims +:+ String "." (RawEncode signature)).

(** The compact serialisation: three unpadded base64url segments, the second one the claims. *)
Class JwtCompact (J : Jwt) (T : JsonText) : Prop :=
  signed_compact key claims tok : SignedString key claims = Ok tok →
    ∃ header signature, tok = compact header (text_of claims) signature.

(** ** Connecting *)

Section session.
Context {T : JsonText} {FC : FrameCodec} {CC : ClientCodec}.

Definition matchIDFromToken (tokenStr : string) : res string :=
  match strings_Split "."%char tokenStr with
  | [_; claims; _] =>
      match decodeJWTSegment claims with
      | None => Err (Wrap "decode token payload" (ErrText "illegal base64 data"))
      | Some payload =>
          match unmarshal_mid payload with
          | Err e => Err (Wrap "parse token claims" e)
          | Ok mid => if bool_decide (mid = "") then Err (ErrText "session token has no match id") else Ok mid
          end
      end
  | _ => Err (ErrText "malformed session token")
  end.

(** What the server reads off the stream of the hello; [opened], [written] and [closed] are the
    transport's answers. *)
Definition sendHello (opened written closed : option error) (sessionToken : string) : res string :=
  match marshal_client (Hello sessionToken) with
  | None => Err (ErrText "marshal hello")
  | Some data =>
      match opened with
      | Some e => Err (Wrap "open hello stream" e)
      | None =>
          match written with
          | Some e => Err (Wrap "write hello" e)
          | None => match closed with Some e => Err e | None => Ok data end
          end
      end
  end.

(** The path dialed at the endpoint and the hello sent there. *)
Definition Connect (dialed opened written closed : option error) (m : ClientMatch) : res (string * string) :=
  match matchIDFromToken (mt_SessionToken m) with
  | Err e => Err (Wrap "vfxclient" e)
  | Ok matchID =>
      match dialed with
      | Some e => Err (Wrap "vfxclient: webtransport dial" e)
      | None =>
          match sendHello opened written closed (mt_SessionToken m) with
          | Err e => Err (Wrap "vfxclient" e)
          | Ok hello => Ok ("/room/" +:+ matchID, hello)
          end
      end
  end.

(** ** Frames *)

(** The datagram sent. *)
Definition SendInput (sendDatagram : string → option error) (tick : Z) (payload : string) : res string :=
  match marshal_client (PlayerInput tick payload) with
  | None => Err (ErrText "vfxclient: marshal frame")
  | Some data => match sendDatagram data with Some e => Err (Wrap "vfxclient: send datagram" e) | None => Ok data end
  end.

(** What reaches the channel of [Frames]; a send there waits for the reader. *)
Definition deliver (raw : string) : list Frame := match unmarshal_server raw with Some f => [f] | None => [] end.

Fixpoint datagramLoop (datagrams : list (res string)) : list Frame :=
  match datagrams with
  | Ok raw :: rest => deliver raw ++ datagramLoop rest
  | _ => []
  end.

(** A stream that cannot be read to its end is skipped; the loop ends with the session. *)
Fixpoint streamLoop (streams : list (res (res string))) : list Frame :=
  match streams with
  | Ok (Ok raw) :: rest => deliver raw ++ streamLoop rest
  | Ok (Err _) :: rest => streamLoop rest
  | _ => []
  end.
End session.

(** ** From the matchmaker's token to a seat *)

Lemma no_dot_encode data : no_sep "."%char (RawEncode data).
Proof.
  unfold no_sep, RawEncode. rewrite list_ascii_of_string_of_list_ascii. intros H. by apply encode_bytes_clean in H as (_ & ? & _).
Qed.

Lemma Split_compact h c s : strings_Split "."%char (compact h c s) = [RawEncode h; RawEncode c; RawEncode s].
Proof. unfold compact. by rewrite !Split_app, !Split_no_sep by apply no_dot_encode. Qed.

Definition is_ascii (s : string) : Prop := Forall (λ a, (nat_of_ascii a < 128)%nat) (list_ascii_of_string s).

Lemma is_ascii_app s t : is_ascii s → is_ascii t → is_ascii (s +:+ t).
Proof. unfold is_ascii. rewrite list_ascii_app. intros. by apply list.Forall_app. Qed.

Lemma is_ascii_encode data : is_ascii (RawEncode data).
Proof.
  unfold is_ascii, RawEncode. rewrite list_ascii_of_string_of_list_ascii. apply list.Forall_forall.
  intros c Hc. by apply encode_bytes_clean in Hc as (_ & _ & ?).
Qed.

Lemma is_ascii_dot s : is_ascii s → is_ascii (String "." s).
Proof. intros H. constructor; [by apply Nat.ltb_lt|done]. Qed.

Section admitted.
Context {U : UuidCodec} {UL : UuidCodecLaws U} {J : Jwt} {JL : JwtLaws J} {T : JsonText} {TL : JsonTextLaws T} {JC : JwtCompact J T}.
Context {FC : FrameCodec} {CC : ClientCodec} {FL : FrameLaws}.

Lemma signed_ascii key claims tok : SignedString key claims = Ok tok → ValidString tok = true.
Proof.
  intros H. destruct (signed_compact _ _ _ H) as (h & s & ->). apply ValidString_ascii.
  unfold compact. repeat (apply is_ascii_app || apply is_ascii_dot); apply is_ascii_encode.
Qed.

Lemma signed_nonempty key claims tok : SignedString key claims = Ok tok → tok <> "".
Proof. intros H. destruct (signed_compact _ _ _ H) as (h & s & ->). unfold compact. by destruct (RawEncode h). Qed.

(** The segments of a signed token. *)
Lemma matchID_signed key claims tok m : SignedString key claims = Ok tok → read j_string "mid" "" claims = Ok m →
  matchIDFromToken tok = if bool_decide (m = "") then Err (ErrText "session token has no match id") else Ok m.
Proof.
  intros H Hm. destruct (signed_compact _ _ _ H) as (h & s & ->). unfold matchIDFromToken.
  by rewrite Split_compact, decodeJWTSegment_encode, (mid_of_text _ _ Hm).
Qed.

(** The client dials the room of the match, and the room's verdict on its hello. *)
Lemma connect_seat secret p m ps now ttl tok endpoint :
  SignSession secret p (uuid_String m) (uuid_String <$> ps) now ttl = Ok tok →
  ∃ hello, Connect None None None None (mkClientMatch endpoint tok) = Ok ("/room/" +:+ uuid_String m, hello) ∧
    ∀ t, checkSession secret t ("/room/" +:+ uuid_String m) true (Ok hello) =
      if t <? expires now ttl then Seated m p (match ps with [] => [p] | _ => ps end) else Rejected.
Proof.
  intros Hs. pose proof Hs as Hs'. unfold SignSession in Hs'. destruct (SignedString _ _) as [tok'|e] eqn:E; [|done]. injection Hs' as ->.
  destruct (read_session_claims p (uuid_String m) (uuid_String <$> ps) now ttl) as (_ & _ & Hmid & _).
  pose proof (matchID_signed _ _ _ _ E Hmid) as Hm. rewrite ToValid_uuid, bool_decide_eq_false_2 in Hm by apply uuid_String_nonempty.
  destruct (hello_wire tok (signed_ascii _ _ _ E)) as (d & Ed & Eh).
  exists d. unfold Connect, sendHello. cbn [mt_SessionToken]. rewrite Hm, Ed. split; [done|]. intros t.
  destruct (t <? expires now ttl) eqn:Et.
  - apply Z.ltb_lt in Et. by apply (admits_seat secret now ttl p m ps tok).
  - unfold checkSession. rewrite TrimPrefix_app, uuid_parse_string, bool_decide_eq_false_2 by apply uuid_String_nonempty.
    cbn [negb authenticate]. by rewrite Eh, (verify_session _ _ _ _ _ _ _ t Hs), Et.
Qed.

(** the session token is all a client needs.  From the token of its match, a client that reaches
    the endpoint dials the room of that match and introduces itself so that the room server seats it
    there as its player, with the match's roster, until the token expires and not after; an access
    token is refused before anything is dialed. *)
Theorem connect_admitted secret p m ps now ttl tok endpoint t :
  SignSession secret p (uuid_String m) (uuid_String <$> ps) now ttl = Ok tok →
  (∃ path hello, Connect None None None None (mkClientMatch endpoint tok) = Ok (path, hello) ∧
     checkSession secret t path true (Ok hello) =
       if t <? expires now ttl then Seated m p (match ps with [] => [p] | _ => ps end) else Rejected) ∧
  (∀ q atok dialed, SignAccess secret q now ttl = Ok atok →
     Connect dialed None None None (mkClientMatch endpoint atok) = Err (Wrap "vfxclient" (ErrText "session token has no match id"))).
Proof.
  intros Hs. split.
  - destruct (connect_seat secret p m ps now ttl tok endpoint Hs) as (hello & ? & ?). by eexists _, hello.
  - intros q atok dialed Ha. unfold SignAccess in Ha. destruct (SignedString _ _) as [tok'|e] eqn:E; [|done]. injection Ha as ->.
    destruct (read_access_claims q now ttl) as (_ & _ & Hmid & _).
    unfold Connect. cbn [mt_SessionToken]. by rewrite (matchID_signed _ _ _ _ E Hmid).
Qed.

(** The attempts of a session to send some frames, and what its streams then carry. *)
Definition attempts (datagramMax : Z) (sendDatagram : string → res unit) (frames : list Frame) : list delivery :=
  frames ≫= λ f, (SendFrame false datagramMax sendDatagram (λ _, Ok tt) f).1.
Definition carried_streams (l : list delivery) : list (res (res string)) :=
  l ≫= λ a, match a with Stream d => [Ok (Ok d)] | Datagram _ => [] end.

Lemma streamLoop_app l1 l2 : (∀ x, x ∈ l1 → is_ok x = true) → streamLoop (l1 ++ l2) = streamLoop l1 ++ streamLoop l2.
Proof.
  induction l1 as [|x l1 IH]; [done|]. intros H. pose proof (H x ltac:(left)) as Hx. specialize (IH (λ y Hy, H y ltac:(by right))).
  destruct x as [[raw|e]|e]; [|done..]. cbn [app streamLoop]. by rewrite IH, app_assoc.
Qed.

Lemma carried_ok l x : x ∈ carried_streams l → is_ok x = true.
Proof. unfold carried_streams. intros (a & Hx & _)%list_elem_of_bind. destruct a; [by apply elem_of_nil in Hx|by apply list_elem_of_singleton in Hx as ->]. Qed.

Definition must_arrive (f : Frame) : Prop := reliableFrame f = true.
#[local] Instance must_arrive_dec f : Decision (must_arrive f).
Proof. unfold must_arrive. apply _. Defined.

(** One frame: over a stream if it must arrive, and never twice over streams. *)
Lemma one_frame datagramMax sendDatagram f : is_Some (marshal_frame f) →
  let got := streamLoop (carried_streams (SendFrame false datagramMax sendDatagram (λ _, Ok tt) f).1) in
  got = [f] ∨ got = [] ∧ reliableFrame f = false.
Proof.
  intros [d Hd]. unfold SendFrame. rewrite Hd. destruct (reliableFrame f) eqn:Er; cbn [orb fst].
  { left. cbn. unfold deliver. by rewrite (frame_wire f d Hd). }
  destruct (datagramMax <? _); [left|destruct (sendDatagram d); [by right|left]]; cbn; unfold deliver; by rewrite (frame_wire f d Hd).
Qed.

(** what must arrive arrives, once and in order.  Of the frames a match sends to a session whose
    streams hold, the client's stream loop delivers every event (the end of the game among them)
    exactly once and in the order they were sent, and besides only deltas that were sent, whatever
    the datagrams did. *)
Theorem events_arrive datagramMax sendDatagram frames :
  Forall (λ f, is_Some (marshal_frame f)) frames →
  let got := streamLoop (carried_streams (attempts datagramMax sendDatagram frames)) in
  filter must_arrive got = filter must_arrive frames ∧ got `sublist_of` frames.
Proof.
  cbv zeta. unfold attempts. induction 1 as [|f frames Hf _ IH]; [done|]. cbn [mbind list_bind].
  unfold carried_streams in *. rewrite bind_app. fold (carried_streams (SendFrame false datagramMax sendDatagram (λ _, Ok tt) f).1).
  rewrite streamLoop_app by apply carried_ok. destruct IH as [IH1 IH2].
  rewrite filter_app, IH1. destruct (one_frame datagramMax sendDatagram f Hf) as [->|[-> Hr]].
  - split; [by rewrite <- filter_app|by apply sublist_skip].
  - split; [by rewrite (filter_cons_False must_arrive f) by (unfold must_arrive; congruence)|by apply sublist_cons].
Qed.
End admitted.

(** ** Evaluation

    Tokens in compact form, signed with the tokens of [list_jwt]; a text of a JSON object that keeps
    its [mid] only. *)

#[local] Existing Instance hex_codec.

Definition demo_text : JsonText := {|
  text_of j := match read j_string "mid" "" j with Ok m => m | Err _ => "" end;
  unmarshal_mid s := Ok s;
|}.

Lemma demo_text_laws : JsonTextLaws demo_text.
Proof. intros j m H. cbn. by rewrite H. Qed.

Definition compact_jwt (l : list json) : Jwt := {|
  SignedString key claims :=
    match SignedString (Jwt := list_jwt l) key claims with
    | Ok sig => Ok (compact "{}" (text_of (JsonText := demo_text) claims) sig)
    | Err e => Err e
    end;
  ParseWithClaims key now tok :=
    match strings_Split "."%char tok with
    | [_; _; s] => match decodeJWTSegment s with
                   | Some sig => ParseWithClaims (Jwt := list_jwt l) key now sig
                   | None => Err (ErrText "token is malformed")
                   end
    | _ => Err (ErrText "token is malformed")
    end;
|}.

Lemma compact_jwt_laws l : JwtLaws (compact_jwt l) ∧ JwtCompact (compact_jwt l) demo_text.
Proof.
  split.
  - intros key claims tok now exp. cbn -[list_jwt compact]. destruct (SignedString (Jwt := list_jwt l) key claims) as [sig|e] eqn:E; [|done].
    intros [= <-] Hx. rewrite Split_compact, decodeJWTSegment_encode.
    exact (list_jwt_laws l key claims sig now exp E Hx).
  - intros key claims tok. cbn -[list_jwt compact]. destruct (SignedString (Jwt := list_jwt l) key claims) as [sig|e]; [|done].
    intros [= <-]. by exists "{}", sig.
Qed.

Definition wire_client (f : ClientFrame) : option (string + Z * string) :=
  match f with Hello tok => Some (inl tok) | PlayerInput tick payload => Some (inr (tick, payload)) | OtherFrame => None end.

Definition wire_frames : FrameCodec := {|
  unmarshal_frame d := match decode (unbits d) : option (string + Z * string) with
                       | Some (inl tok) => Some (Hello tok)
                       | Some (inr (tick, payload)) => Some (PlayerInput tick payload)
                       | None => None
                       end;
  marshal_frame f := Some (bits (encode (match f with Frame_Delta a b s => inl (a, b, s) | Frame_Event t s => inr (t, s) end)));
|}.
Definition wire_codec : ClientCodec := {|
  marshal_client f := (λ x, bits (encode x)) <$> wire_client f;
  unmarshal_server d := match decode (unbits d) : option (Z * Z * string + string * string) with
                        | Some (inl (a, b, s)) => Some (Frame_Delta a b s)
                        | Some (inr (t, s)) => Some (Frame_Event t s)
                        | None => None
                        end;
|}.

Lemma wire_laws : FrameLaws (FC := wire_frames) (CC := wire_codec).
Proof.
  split.
  - intros tok _. eexists. split; [done|]. cbn. by rewrite unbits_bits, decode_encode.
  - intros tick payload _. eexists. split; [done|]. cbn. by rewrite unbits_bits, decode_encode.
  - intros f d [= <-]. cbn. rewrite unbits_bits, decode_encode. by destruct f.
Qed.

Definition demo_token : string := "e30.MzMwMDAwMDAtMDAwMC0wMDAwLTAwMDAtMDAwMDAwMDAwMDAw.azA".

Lemma connect_admitted_witness :
  ∃ hello, Connect (T := demo_text) (CC := wire_codec) None None None None (mkClientMatch "room:7777" demo_token) = Ok ("/room/" +:+ hex_String demo_match, hello) ∧
    checkSession (J := compact_jwt demo_seats) (FC := wire_frames) "k" demo_now ("/room/" +:+ hex_String demo_match) true (Ok hello)
      = Seated demo_match (sample_uuid x01) [sample_uuid x01; sample_uuid x02].
Proof.
  pose proof (compact_jwt_laws demo_seats) as [HJ HC].
  destruct (connect_admitted (J := compact_jwt demo_seats) (JL := HJ) (T := demo_text) (TL := demo_text_laws) (JC := HC)
    (FC := wire_frames) (CC := wire_codec) (FL := wire_laws)
    "k" (sample_uuid x01) demo_match [sample_uuid x01; sample_uuid x02] demo_now (60 * Second) demo_token "room:7777" demo_now) as [(path & hello & E & Ec) _].
  - vm_compute. reflexivity.
  - exists hello. assert (path = "/room/" +:+ hex_String demo_match) as ->.
    { transitivity (match Connect (T := demo_text) (CC := wire_codec) None None None None (mkClientMatch "room:7777" demo_token) with
                    | Ok (dialed, _) => dialed | Err _ => "" end); [by rewrite E|vm_compute; reflexivity]. }
    split; [exact E|exact Ec].
Defined.

(** A delta lost to the datagrams, an event, and the end of the game. *)
Definition demo_sent : list Frame := [Frame_Delta 0 1 "d"; Frame_Event "echo" "x"; Frame_Event "game_ended" "final"].

Lemma events_arrive_witness :
  let got := streamLoop (CC := wire_codec) (carried_streams (attempts (FC := wire_frames) 1200 (λ _, Ok tt) demo_sent)) in
  got = [Frame_Event "echo" "x"; Frame_Event "game_ended" "final"] ∧ got `sublist_of` demo_sent.
Proof.
  split; [vm_compute; reflexivity|].
  exact (proj2 (events_arrive (FC := wire_frames) (CC := wire_codec) (FL := wire_laws) 1200 (λ _, Ok tt) demo_sent
    ltac:(repeat constructor; by eexists))).
Defined.
