(* ===== verification/EndToEnd.v ===== *)
(** * The client against the gateway

    [Cloud] is a network whose RPCs are the gateway's handlers and whose plain HTTP requests reach
    the object store behind the gateway's signed URLs.  The theorems follow a client method through
    the SDK, the interceptor, the handler, the usecase, the repositories and the store. *)

From S2P Require Import Prelude GoBase GoStrings Json Database Match MatchQueue AssignmentStore Matchmaker.
From S2P Require Import Social Storage ObjectStore Group Chat Leaderboard Auth Token Gateway Client ClientSession.

(** ** The object store, from outside *)

(** A request with the method, the URL and the headers of a signed URL. *)
Class HttpStore (S : Type) := {
  parse_url : string → option error;
  store_PUT : string → gmap string string → string → S → res Z * S;
  store_GET : string → S → res (Z * res string) * S;
}.

(** The URLs that a store signs work: an accepted upload to a URL signed for [k] replaces the object at
    [k], and a download from a URL signed for [k] gives it. *)
Class HttpStoreLaws (S : Type) {HS : HttpStore S} {BS : BlobStore S} {OL : ObjectLaws S} : Prop := {
  put_signed k ttl s u s1 d status s2 : SignUpload k ttl s = (Ok u, s1) → store_PUT (su_URL u) (su_Headers u) d s1 = (Ok status, s2) →
    is_success status = true → object k s2 = Some d;
  get_signed k ttl s u s1 d : SignDownload k ttl s = (Ok u, s1) → object k s1 = Some d →
    parse_url (su_URL u) = None ∧ store_GET (su_URL u) s1 = (Ok (200, Ok d), s1);
}.

(** ** The network *)

(** The [i]-th call draws [cl_draws i]. *)
Record Cloud (B S V : Type) := mkCloud { cl_world : World B S V; cl_draws : nat → Draw; cl_calls : nat }.
Arguments mkCloud {B S V}.
Arguments cl_world {B S V}.
Arguments cl_draws {B S V}.
Arguments cl_calls {B S V}.

Section cloud.
Context {U : UuidCodec} {R : RangeOrder} {C : Collation} {J : Jwt}.
Context {B S V : Type} {BR : Broker B} {BS : BlobStore S} {HS : HttpStore S} {RI : RankIndex V} {TI : TokenIssuer} {OV : OIDCVerifier}.
Context (cfg : GatewayConfig) (secret : string).
(** What a subscription comes to carry, and how it ends. *)
Context (ticket_events : chan_id → list Event * option error) (channel_messages : nat → list ChannelMessage * option error).

(** The error of a call as the client sees it: the code, without the chain behind it. *)
Definition connectError (c : Code) : error :=
  ErrText (match c with
           | CodeInvalidArgument => "invalid_argument"
           | CodeUnauthenticated => "unauthenticated"
           | CodePermissionDenied => "permission_denied"
           | CodeNotFound => "not_found"
           | CodeAlreadyExists => "already_exists"
           | CodeFailedPrecondition => "failed_precondition"
           | CodeResourceExhausted => "resource_exhausted"
           | CodeInternal => "internal"
           end).

Definition next_draw (n : Cloud B S V) : Draw := cl_draws n (cl_calls n).

Definition rpc {A} (header : string) (rq : request A) (n : Cloud B S V) : res A * Cloud B S V :=
  let '(r, w) := handle cfg secret header (next_draw n) rq (cl_world n) in
  (match r with Reply a => Ok a | Fault c _ => Err (connectError c) end, mkCloud w (cl_draws n) (Datatypes.S (cl_calls n))).

Definition http {A} (f : S → res A * S) (n : Cloud B S V) : res A * Cloud B S V :=
  let w := cl_world n in
  let '(r, s) := f (w_blobs w) in
  (r, mkCloud (mkWorld (w_db w) (w_broker w) s (w_ranks w) (w_queue w) (w_assignments w)) (cl_draws n) (cl_calls n)).

#[local] Instance cloud_network : Network (Cloud B S V) := {|
  unary _ header rq := rpc header rq;
  stream_WatchTicket header ticketID n :=
    match rpc header (RqWatchTicket ticketID) n with
    | (Ok ch, n') => (Ok (toWatchResponse <$> (ticket_events ch).1, (ticket_events ch).2), n')
    | (Err e, n') => (Err e, n')
    end;
  stream_SubscribeChannel header channelID n :=
    match rpc header (RqSubscribeChannel channelID) n with
    | (Ok ch, n') => (Ok (toChannelMessagePb <$> (channel_messages ch).1, (channel_messages ch).2), n')
    | (Err e, n') => (Err e, n')
    end;
  build_request := parse_url;
  http_PUT url headers data := http (store_PUT url headers data);
  http_GET url := http (store_GET url);
|}.

(** ** Reading an accepted call *)

Lemma rpc_Ok {A} header (rq : request A) n a n' : rpc header rq n = (Ok a, n') →
  handle cfg secret header (next_draw n) rq (cl_world n) = (Reply a, cl_world n') ∧ cl_draws n' = cl_draws n ∧ cl_calls n' = Datatypes.S (cl_calls n).
Proof.
  unfold rpc. destruct (handle _ _ _ _ _ _) as [[a'|c e] w]; [|done]. by intros [= -> <-].
Qed.

Lemma send_Ok {A} msg (rq : request A) c n a c' n' : send_authorized msg rq (c, n) = (Ok a, (c', n')) →
  c' = c ∧ rpc (authorize c) rq n = (Ok a, n').
Proof.
  unfold send_authorized. cbn [unary cloud_network]. destruct (rpc _ _ _) as [[x|e] n1]; cbn; [|done]. by intros [= -> <- <-].
Qed.

Lemma call_storage_Ok {A} (m : M (DB * S) A) (w : World B S V) a w' : call_storage m w = (Reply a, w') →
  ∃ p, m (w_db w, w_blobs w) = (Ok a, p) ∧ w' = set_storage p w.
Proof. unfold call_storage, call. destruct (m _) as [[x|e] p]; [|done]. intros [= -> <-]. by exists p. Qed.

(** A handler over the storage usecase that converts its result. *)
Lemma stored_Ok {A A'} ctx o (m : uuid → M (DB * S) A) (f : A → A') (w : World B S V) r w' : ctx = Some o →
  (me ← requireAuth ctx; x ← call_storage (m me); mret (f x) : Rpc A') w = (Reply r, w') →
  ∃ a p, m o (w_db w, w_blobs w) = (Ok a, p) ∧ w' = set_storage p w ∧ r = f a.
Proof.
  intros ->. unfold mbind, Rpc_bind, requireAuth, mret, Rpc_ret. destruct (call_storage (m o) w) as [[a|c e] w1] eqn:E; [|done].
  intros [= <- <-]. destruct (call_storage_Ok _ _ _ _ E) as (p & Ep & ->). by exists a, p.
Qed.
End cloud.

(** ** Logging in *)

Section login.
Context {U : UuidCodec} {UL : UuidCodecLaws U} {R : RangeOrder} {C : Collation} {J : Jwt} {JL : JwtLaws J}.
Context {B S V : Type} {BR : Broker B} {BS : BlobStore S} {HS : HttpStore S} {RI : RankIndex V} {OV : OIDCVerifier}.
Context (cfg : GatewayConfig) (secret : string) (hash : string → string).
Context (ticket_events : chan_id → list Event * option error) (channel_messages : nat → list ChannelMessage * option error).
Context {T : JsonText} {JC : JwtCompact J T}.

(** The gateway's issuer is its signer (bootstrap/gateway.go). *)
#[local] Instance signer : TokenIssuer := {| Auth.SignAccess := Token.SignAccess secret; HashRefresh := hash |}.
#[local] Existing Instance cloud_network.

(** Every value an action ends with satisfies [P]. *)
Definition yields {St A} (P : A → Prop) (m : M St A) : Prop := ∀ s a s', m s = (Ok a, s') → P a.

Lemma yields_bind {St A A'} (P : A' → Prop) (m : M St A) (k : A → M St A') : (∀ a, yields P (k a)) → yields P (m ≫= k).
Proof. intros Hk s a s' (x & s1 & _ & E)%M_bind_Ok. by eapply Hk. Qed.

Lemma yields_login {A} (P : A → Prop) (fn : nat → Tx A) : (∀ k, yields P (fn k)) → yields P (runLoginTx fn).
Proof.
  intros H db a db'. unfold runLoginTx, RW_shared.
  destruct (fn 0%nat _) as [[x|e] [v c]] eqn:E; [intros [= <- _]; by eapply H|].
  case_match; [|done]. destruct (fn 1%nat _) as [[y|e'] [v' c']] eqn:E'; [intros [= <- _]; by eapply H|done].
Qed.

(** The access token of a login is signed for its player. *)
Definition signed_for (now : time) (r : LoginResult) : Prop :=
  Token.SignAccess secret (pl_ID (lr_Player r)) now (accessTokenTTL (gc_auth cfg)) = Ok (AccessToken r).

Lemma issued_signed fr now p :
  yields (signed_for now) ('(at_, rt) ← in_tx (V := DB) (issueTokens (gc_auth cfg) fr (pl_ID p) now); mret (mkLoginResult at_ rt p)).
Proof.
  intros s r s' ([at_ rt] & s1 & E & [= <- _])%M_bind_Ok. unfold in_tx in E.
  destruct (issueTokens _ _ _ _ _) as [[x|e] v] eqn:Ei; [|done]. injection E as -> _.
  unfold issueTokens in Ei. apply M_bind_Ok in Ei as (tok & s2 & Et & Ei). apply M_bind_Ok in Ei as ([raw hsh] & s3 & _ & Ei).
  apply M_bind_Ok in Ei as (? & ? & _ & [= -> -> _]). unfold signed_for. cbn. unfold lift_res in Et. by injection Et.
Qed.

Lemma anonymous_signed fr others now d nick : yields (signed_for now) (LoginAnonymous (gc_auth cfg) fr others now d nick).
Proof. apply yields_login. intros k. apply yields_bind. intros p. apply issued_signed. Qed.

Lemma oidc_signed fr others now pr tok : yields (signed_for now) (LoginOIDC (gc_auth cfg) fr others now pr tok).
Proof.
  unfold LoginOIDC. destruct (Auth.Verify pr tok) as [i|e]; [|by intros ???]. apply yields_login. intros k. apply yields_bind. intros p. apply issued_signed.
Qed.

Lemma login_reply (dr : Draw) cred (w : World B S V) l w' : AuthHandler_Login cfg dr (Some cred) w = (Reply l, w') →
  ∃ r, signed_for (d_now dr) r ∧ l = mkLoginPb (AccessToken r) (lr_RefreshToken r) (toPlayerPb (lr_Player r)).
Proof.
  unfold AuthHandler_Login, mbind, Rpc_bind. destruct cred as [d nick|pr tok].
  - unfold call_db, call. destruct (LoginAnonymous _ _ _ _ _ _ _) as [[r|e] db] eqn:E; [|done].
    intros [= <- _]. exists r. split; [|done]. by eapply anonymous_signed.
  - destruct (toProvider pr w) as [[prov|c e] w1]; [|done]. unfold call_db, call.
    destruct (LoginOIDC _ _ _ _ _ _ _) as [[r|e] db] eqn:E; [|done].
    intros [= <- _]. exists r. split; [|done]. by eapply oidc_signed.
Qed.

(** C15: who has logged in is who the gateway sees.  After a login of either kind that succeeds, the
    client knows its player, and every request it then makes is served as that player's, until the
    access token expires and not after; a login that fails leaves the client as it was. *)
Theorem login_identifies cred msg c (n : Cloud B S V) :
  let now := d_now (next_draw n) in
  match login (NW := cloud_network cfg secret ticket_events channel_messages) msg cred (c, n) with
  | (Ok _, (c', n')) => ∃ p, c_player c' = Some (toPlayerPb p) ∧
      ∀ A (rq : request A) n'', let t := d_now (next_draw n'') in
        handle cfg secret (authorize c') (next_draw n'') rq (cl_world n'') =
        serve cfg (if t <? expires now (accessTokenTTL (gc_auth cfg)) then Some (pl_ID p) else None) (next_draw n'') rq (cl_world n'')
  | (Err _, (c', _)) => c' = c
  end.
Proof.
  cbv zeta. unfold login. cbn [unary cloud_network]. destruct (rpc cfg secret "" (RqLogin (Some cred)) n) as [[l|e] n1] eqn:E; [|done].
  apply rpc_Ok in E as (E & _). unfold handle in E. cbn [serve] in E. destruct (login_reply _ _ _ _ _ E) as (r & Hs & ->).
  exists (lr_Player r). split; [done|]. intros A rq n''. unfold handle. f_equal. f_equal.
  pose proof Hs as Hs'. unfold signed_for, Token.SignAccess in Hs'.
  destruct (SignedString _ _) as [tok|e] eqn:Et; [|done]. injection Hs' as Htok.
  unfold authorize, logged_in. cbn [c_accessToken lpb_AccessToken]. rewrite bool_decide_eq_false_2 by (rewrite <- Htok; by eapply signed_nonempty).
  rewrite populate_bearer. destruct (verify_access secret (pl_ID (lr_Player r)) _ _ _ (d_now (next_draw n'')) Hs) as [-> _].
  by destruct (_ <? _).
Qed.
End login.

(** ** Files *)

Section files.
Context {U : UuidCodec} {UL : UuidCodecLaws U} {R : RangeOrder} {C : Collation} {J : Jwt}.
Context {B S V : Type} {BR : Broker B} {BS : BlobStore S} {BL : BlobStoreLaws S} {OL : ObjectLaws S} {HS : HttpStore S} {HL : HttpStoreLaws S}.
Context {RI : RankIndex V} {TI : TokenIssuer} {OV : OIDCVerifier}.
Context (cfg : GatewayConfig) (secret : string).
Context (ticket_events : chan_id → list Event * option error) (channel_messages : nat → list ChannelMessage * option error).
#[local] Existing Instance cloud_network.

Notation network := (cloud_network cfg secret ticket_events channel_messages).

(** The calls of a client that holds a valid token of [o]. *)
Definition bears (o : uuid) (c : Client) (n : Cloud B S V) : Prop := ∀ i, populate secret (d_now (cl_draws n i)) (authorize c) = Some o.

Lemma write_url o f size (w : DB * S) u w' : WritePlayerFile (gc_storage cfg) o f size w = (Ok u, w') →
  ValidateFilename f = Ok tt ∧ w'.1 = w.1 ∧ SignUpload (playerKey (gc_storage cfg) o f) (URLTTL (gc_storage cfg)) w.2 = (Ok u, w'.2).
Proof.
  unfold WritePlayerFile. intros ([] & w1 & E1 & H)%M_bind_Ok. apply M_bind_Ok in H as ([] & w2 & E2 & H).
  apply M_bind_Ok in H as ([] & w3 & E3 & H). unfold lift_res in E1, E2. injection E1 as Hv <-. injection E2 as _ <-.
  unfold on_db, RO in E3. injection E3 as _ <-. unfold on_blobs in H. cbn [fst snd] in H.
  destruct (SignUpload _ _ _) as [[u'|e] s1]; [|done]. injection H as -> <-. done.
Qed.

Lemma commit_state id now o f (w : DB * S) r w' : CommitPlayerFile (gc_storage cfg) id now o f w = (Ok r, w') →
  ∃ a, Stat (playerKey (gc_storage cfg) o f) w.2 = (Ok a, w'.2).
Proof.
  unfold CommitPlayerFile. intros ([] & w1 & E1 & H)%M_bind_Ok. unfold lift_res in E1. injection E1 as _ <-.
  apply M_bind_Ok in H as (st & w2 & E2 & H). unfold try, on_blobs in E2.
  destruct (Stat _ _) as [[a|e] s1] eqn:Es; injection E2 as <- <-; [|done].
  exists a. apply M_bind_Ok in H as (file & w3 & E3 & H). unfold lift_res in E3. injection E3 as _ <-.
  apply M_bind_Ok in H as ([] & w4 & E4 & [= _ <-]). unfold on_db in E4. destruct (RW _ _) as [[[]|e] db]; [|done]. by injection E4 as <-.
Qed.

Lemma commit_recorded id now o f (w : DB * S) r w' data : sane_limits (gc_storage cfg) → quota_ok (gc_storage cfg) w.1 →
  object (playerKey (gc_storage cfg) o f) w.2 = Some data → CommitPlayerFile (gc_storage cfg) id now o f w = (Ok r, w') →
  object (playerKey (gc_storage cfg) o f) w'.2 = Some data ∧
  ∃ file, PlayerFile_GetFile o f w'.1 = (Ok file, w'.1) ∧ f_Size file = Z.of_nat (String.length data).
Proof.
  intros Hl Hq Hobj E. destruct (commit_state _ _ _ _ _ _ _ E) as (a & Est). pose proof (stat_keeps _ _ _ _ Est) as Hkeep.
  split; [by rewrite Hkeep|]. pose proof (commit_quota (gc_storage cfg) id now o f w Hl Hq) as Hq'.
  pose proof (commit_cases (gc_storage cfg) id now o f w Hl Hq) as H. rewrite E in H, Hq'. unfold state in Hq'. cbn [snd] in Hq'.
  destruct H as (attrs & row & Hst & _ & _ & Hk & Hsz & _ & _ & Hr & _ & _ & Hp). unfold result in Hst. rewrite Est in Hst. injection Hst as ->.
  exists (playerFileToDomain row). split; [apply GetFile_row; [apply (quota_keys _ _ Hq')|rewrite Hp; left|done]|].
  unfold playerFileToDomain. cbn [f_Size]. rewrite Hsz, u64_size by done. by apply (stat_reports _ _ _ _ _ Est).
Qed.

Lemma read_url o f (w : DB * S) file u s : ValidateFilename f = Ok tt → PlayerFile_GetFile o f w.1 = (Ok file, w.1) →
  SignDownload (playerKey (gc_storage cfg) o f) (URLTTL (gc_storage cfg)) w.2 = (Ok u, s) →
  ReadPlayerFile (gc_storage cfg) o f w = (Ok (file, u), (w.1, s)).
Proof.
  intros Hv Hf Hs. unfold ReadPlayerFile. rewrite M_bind_eval. unfold lift_res. rewrite Hv. cbn beta iota.
  rewrite M_bind_eval. unfold on_db, RO, result. rewrite Hf. cbn [fst]. rewrite M_bind_eval. unfold on_blobs. cbn [fst snd]. by rewrite Hs.
Qed.

(** C16: a file comes back.  When [WriteFile] has succeeded for a logged-in client (the gateway signed
    an upload for the player's own key, the store accepted the bytes, and the commit verified them
    within the quota), the file is recorded with the size of the data, and the client's next
    [ReadFile] of that name returns exactly the data, provided the store can sign a download. *)
Theorem write_then_read o filename data c (n : Cloud B S V) c1 n1 :
  let db := w_db (cl_world n) in
  sane_limits (gc_storage cfg) → quota_ok (gc_storage cfg) db → bears o c n →
  (∀ k s, is_ok (SignDownload k (URLTTL (gc_storage cfg)) s).1 = true) →
  Client_WriteFile (NW := network) filename data (c, n) = (Ok tt, (c1, n1)) →
  (∃ file, PlayerFile_GetFile o filename (w_db (cl_world n1)) = (Ok file, w_db (cl_world n1)) ∧ f_Size file = Z.of_nat (String.length data)) ∧
  ∃ n2, Client_ReadFile (NW := network) filename (c1, n1) = (Ok data, (c1, n2)).
Proof.
  cbv zeta. intros Hl Hq Hb Hsd. unfold Client_WriteFile.
  intros (up & [c2 n2] & E1 & H)%M_bind_Ok. apply M_bind_Ok in H as ([] & [c3 n3] & E2 & H).
  apply M_bind_Ok in H as (meta & [c4 n4] & E3 & [= <- <-]).
  (* the signed upload *)
  apply send_Ok in E1 as [-> E1]. apply rpc_Ok in E1 as (E1 & Ed1 & Ec1). unfold handle, next_draw in E1. rewrite Hb in E1. cbn [serve] in E1.
  destruct (stored_Ok _ o (λ me, WritePlayerFile (gc_storage cfg) me filename _) _ _ _ _ eq_refl E1) as (u & p1 & Ew & Hw2 & ->).
  destruct (write_url _ _ _ _ _ _ Ew) as (Hv & Hdb & Hsign). cbn [fst snd] in Hdb, Hsign.
  (* the upload *)
  unfold on_net, putObject in E2. cbn [build_request http_PUT cloud_network upb_UploadUrl upb_RequiredHeaders] in E2.
  destruct (parse_url (su_URL u)); [done|]. unfold http in E2. rewrite Hw2 in E2. cbn [w_blobs set_storage snd] in E2.
  destruct (store_PUT _ _ _ p1.2) as [[status|e] s2] eqn:Eput; [|done]. destruct (is_success status) eqn:Est; [|done].
  injection E2 as <- <-. pose proof (put_signed _ _ _ _ _ _ _ _ Hsign Eput Est) as Hobj.
  (* the commit *)
  apply send_Ok in E3 as [-> E3]. apply rpc_Ok in E3 as (E3 & Ed3 & Ec3). unfold handle, next_draw in E3.
  cbn [cl_draws cl_calls cl_world] in E3, Ed3, Ec3. rewrite Ed1, Hb in E3. cbn [serve] in E3.
  destruct (stored_Ok _ o (λ me, CommitPlayerFile (gc_storage cfg) _ _ me filename) _ _ _ _ eq_refl E3) as (file & p3 & Ecm & Hw4 & _).
  cbn [w_db w_blobs] in Ecm. apply (commit_recorded _ _ _ _ (p1.1, s2) _ _ data Hl) in Ecm as (Hobj' & row & Hrow & Hsize);
    [|cbn [fst]; by rewrite Hdb|done].
  split; [exists row; by rewrite Hw4|].
  (* the download *)
  unfold Client_ReadFile. pose proof (Hsd (playerKey (gc_storage cfg) o filename) p3.2) as Hu.
  destruct (SignDownload _ _ p3.2) as [[url|e] s5] eqn:Esd; [|done].
  destruct (get_signed _ _ _ _ _ data Esd) as [Hurl Hget]; [by rewrite (sign_download_keeps _ _ _ _ _ Esd)|].
  eexists. apply M_bind_Ok. eexists _, _. split.
  - unfold send_authorized. cbn [unary cloud_network]. unfold rpc, handle, next_draw. rewrite Ed3, Ed1, Hb. cbn [serve].
    unfold PlayerDataHandler_ReadFile, mbind, Rpc_bind, requireAuth, mret, Rpc_ret, call_storage, call.
    rewrite Hw4. cbn [w_db w_blobs set_storage]. rewrite (read_url o filename (p3.1, p3.2) row url s5 Hv Hrow Esd). reflexivity.
  - unfold on_net, getObject. cbn [build_request http_GET cloud_network dpb_DownloadUrl toDownload snd]. rewrite Hurl.
    unfold http. cbn [cl_world w_blobs set_storage snd]. by rewrite Hget.
Qed.
End files.

(** ** Evaluation *)

#[local] Existing Instance hex_codec.
#[local] Existing Instance hub_broker.

(** The URL of an object is its key. *)
#[local] Instance content_http : HttpStore (gmap string string) := {|
  parse_url _ := None;
  store_PUT url headers d := λ s, (Ok 200, <[url := d]> s);
  store_GET url := λ s, (Ok (match s !! url with Some d => (200, Ok d) | None => (404, Ok "") end), s);
|}.

#[local] Instance content_http_laws : HttpStoreLaws (gmap string string).
Proof.
  split.
  - intros k ttl s u s1 d status s2 [= <- <-] [= <- <-] _. cbn. by rewrite lookup_insert_eq.
  - intros k ttl s u s1 d [= <- <-]. cbn. by intros ->.
Qed.

Definition demo_cloud : Cloud StreamHub (gmap string string) unit :=
  mkCloud (mkWorld demo_gateway_db NewHub ∅ tt NewInMem ∅) (λ _, demo_draw) 0.

Definition demo_network (l : list json) (TI : TokenIssuer) : Network (Cloud StreamHub (gmap string string) unit) :=
  cloud_network (R := range_id) (C := str_ltb) (J := list_jwt l) (RI := down) (TI := TI) (OV := demo_verifier) demo_gateway "k"
    (λ _, ([], None)) (λ _, ([], None)).

Definition demo_client : Client := mkClient "k0" "" None.

Example demo_write : (Client_WriteFile (NW := demo_network demo_claims demo_issuer) "save-1" "hello" (demo_client, demo_cloud)).1 = Ok tt.
Proof. vm_compute. reflexivity. Qed.

Lemma demo_cloud_quota : quota_ok demo_storage (w_db (cl_world demo_cloud)).
Proof. split; [by_compute_all|by_compute|..]; intros o; vm_compute; congruence. Qed.

Lemma write_then_read_witness :
  ∃ c1 n1 n2, Client_WriteFile (NW := demo_network demo_claims demo_issuer) "save-1" "hello" (demo_client, demo_cloud) = (Ok tt, (c1, n1)) ∧
    Client_ReadFile (NW := demo_network demo_claims demo_issuer) "save-1" (c1, n1) = (Ok "hello", (c1, n2)).
Proof.
  destruct (Client_WriteFile (NW := demo_network demo_claims demo_issuer) "save-1" "hello" (demo_client, demo_cloud)) as [r [c1 n1]] eqn:E.
  assert (r = Ok tt) as -> by (pose proof demo_write as H; rewrite E in H; exact H). exists c1, n1.
  destruct (write_then_read (R := range_id) (C := str_ltb) (J := list_jwt demo_claims) (RI := down) (TI := demo_issuer) (OV := demo_verifier)
    demo_gateway "k" (λ _, ([], None)) (λ _, ([], None)) (sample_uuid x01) "save-1" "hello" demo_client demo_cloud c1 n1) as [_ [n2 Hr]].
  - done.
  - exact demo_cloud_quota.
  - intros i. vm_compute. reflexivity.
  - done.
  - exact E.
  - exists n2. split; [reflexivity|exact Hr].
Defined.

(** A first login from a new device: player 0c. *)
Definition demo_login_claims : list json := [access_claims (sample_uuid x0c) demo_now 900000000000].

Definition login_network : Network (Cloud StreamHub (gmap string string) unit) :=
  cloud_network (R := range_id) (C := str_ltb) (J := compact_jwt demo_login_claims) (RI := down)
    (TI := signer (J := compact_jwt demo_login_claims) "k" (λ raw, "sha256:" +:+ raw)) (OV := demo_verifier) demo_gateway "k"
    (λ _, ([], None)) (λ _, ([], None)).

Definition demo_login : res unit * (Client * Cloud StreamHub (gmap string string) unit) :=
  login (NW := login_network) "vfxclient: login" (Anonymous (Some "dev-new") (Some "Cy")) (NewClient, demo_cloud).

Lemma login_identifies_witness :
  ∃ c' n' p, demo_login = (Ok tt, (c', n')) ∧ c_player c' = Some (toPlayerPb p) ∧
    (login_network.(unary) (authorize c') RqListMyGroups demo_cloud).1 =
    match (serve (R := range_id) (C := str_ltb) (RI := down) (TI := demo_issuer) (OV := demo_verifier) demo_gateway (Some (pl_ID p)) demo_draw
             RqListMyGroups (cl_world demo_cloud)).1 with Reply a => Ok a | Fault c _ => Err (connectError c) end.
Proof.
  pose proof (compact_jwt_laws demo_login_claims) as [HJ HC].
  pose proof (login_identifies (R := range_id) (C := str_ltb) (J := compact_jwt demo_login_claims) (JL := HJ) (RI := down) (OV := demo_verifier)
    demo_gateway "k" (λ raw, "sha256:" +:+ raw) (λ _, ([], None)) (λ _, ([], None)) (T := demo_text) (JC := HC)
    (Anonymous (Some "dev-new") (Some "Cy")) "vfxclient: login" NewClient demo_cloud) as H. cbv zeta in H.
  assert (demo_login.1 = Ok tt) as E by (vm_compute; reflexivity).
  destruct demo_login as [r [c' n']] eqn:El. cbn [fst] in E. subst r. unfold demo_login, login_network in El. rewrite El in H.
  destruct H as (p & Hp & Hh). exists c', n', p. split; [reflexivity|]. split; [exact Hp|].
  specialize (Hh _ RqListMyGroups demo_cloud). unfold login_network. cbn [unary cloud_network]. unfold rpc. rewrite Hh.
  by destruct (serve _ _ _ _ _).
Defined.
