(* ===== verification/Journey.v ===== *)
(** * From a ticket to a seat

    The worker of [Matchmaker] over the queue and the assignments that the gateway's handlers
    serve, with the session signer the gateway is built with.  [match_made] follows the players of a
    group that is paired: the stream each of them watches, the lookup after a lost connection, and
    the room, which seats all of them in one match. *)

From S2P Require Import Prelude GoBase GoStrings Json Database Match MatchQueue AssignmentStore Matchmaker.
From S2P Require Import Social Storage ObjectStore Group Chat Leaderboard Auth Token Room RoomServer Gateway Client ClientSession EndToEnd.

(** ** Watchers of the queue *)

(** The channel [c] is subscribed to the ticket [i]. *)
Definition watch (q : InMem) (i : uuid) (c : chan_id) (ch : chan) : Prop :=
  (∃ subs, q_subscribers q !! i = Some subs ∧ c ∈ subs) ∧ q_chans q !! c = Some ch.

Definition over (q : InMem) (c : chan_id) (ch : chan) : Prop := q_chans q !! c = Some ch ∧ ch_closed ch = true.

(** A terminal event reaches the watchers of its ticket and closes their channels; the channels of
    the others, and those that are closed, stay. *)
Lemma publish_watch i ev q : queue_inv q → is_Some (q_tickets q !! i) → isTerminal ev = true →
  ∃ q', Publish i ev q = (Ok tt, q') ∧ (∀ j, is_Some (q_tickets q !! j) → is_Some (q_tickets q' !! j)) ∧
    (∀ c ch, watch q i c ch → over q' c (MatchQueue.deliver ev true ch)) ∧
    (∀ j c ch, j <> i → watch q j c ch → watch q' j c ch) ∧ (∀ c ch, over q c ch → over q' c ch).
Proof.
  intros Hq [e He] Ht. destruct (publishLocked_spec i ev e q Hq He) as (cs & Ep & Hout & Hin). rewrite Ht in Ep, Hin.
  eexists. split; [unfold Publish; by rewrite He, Ep|]. cbn [q_tickets q_subscribers q_chans]. split_and!.
  - intros j Hj. destruct (decide (j = i)) as [->|?]; [by rewrite lookup_insert_eq; eexists|by rewrite lookup_insert_ne].
  - intros c ch [(subs & Hs & Hc) Hch]. split; [|done]. cbn. rewrite Hin by (by rewrite Hs). by rewrite Hch.
  - intros j c ch Hj [(subs & Hs & Hc) Hch]. split; cbn; [exists subs; by rewrite lookup_delete_ne|].
    rewrite Hout; [done|]. destruct (q_subscribers q !! i) as [subs'|] eqn:Ei; cbn; [|by apply not_elem_of_nil].
    intros Hc'. apply Hj. by eapply (inv_owner q Hq).
  - intros c ch [Hch Hcl]. split; [|done]. cbn. rewrite Hout; [done|].
    destruct (q_subscribers q !! i) as [subs'|] eqn:Ei; cbn; [|by apply not_elem_of_nil].
    intros Hc'. destruct (inv_open q Hq i subs' c Ei Hc') as (ch' & Hch' & Ho). congruence.
Qed.

(** ** The worker *)

Section worker.
Context {U : UuidCodec} {R : RangeOrder} {RL : RangeOrderLaw R} {E : ErrorText} {J : Jwt}.
Context (secret : string) (allocator : nat → string → Z → res RoomAllocation).

(** bootstrap/gateway.go hands one signer to the interceptor, the login and the matchmaker. *)
Definition session_signer (p : uuid) (m : string) (ps : list string) (now : time) (ttl : duration) : res string :=
  Token.SignSession secret p m ps now ttl.
#[local] Instance worker_ports : MatchmakerPorts MemWorld := mem_ports allocator session_signer.

Context (ttl : duration) (a : RoomAllocation) (players : list string).

(** What the token of a ticket is, and its assignment. *)
Definition token_of (now : time) (t : Ticket) : string :=
  match Token.SignSession secret (t_PlayerID t) (uuid_String (ra_MatchID a)) players now ttl with Ok tok => tok | Err _ => "" end.
Definition signs (now : time) (t : Ticket) : Prop :=
  is_ok (Token.SignSession secret (t_PlayerID t) (uuid_String (ra_MatchID a)) players now ttl) = true.
Definition assignment_of (now : time) (t : Ticket) : Assignment :=
  mkAssignment (ra_MatchID a) (ra_Endpoint a) (token_of now t) (time_Add now ttl).

Definition known (w : MemWorld) (t : Ticket) : Prop := is_Some (q_tickets (mw_queue w) !! t_ID t).

(** The player can look the assignment up until it expires, and whoever watched the ticket is told. *)
Definition told (now : time) (w w' : MemWorld) (t : Ticket) : Prop :=
  mw_store w' !! t_PlayerID t = Some (mkInMemEntry (assignment_of now t) (time_Add now ttl)) ∧
  ∀ c ch, watch (mw_queue w) (t_ID t) c ch → over (mw_queue w') c (MatchQueue.deliver (EventMatched (assignment_of now t)) true ch).

Lemma pairOne_told t w : mem_wf w → known w t → signs (mw_now w) t →
  ∃ w', pairOne ttl a players (mw_now w) (time_Add (mw_now w) ttl) t w = (Ok true, w') ∧ mem_wf w' ∧ told (mw_now w) w w' t ∧
    mw_now w' = mw_now w ∧ mw_counted w' = mw_counted w ∧ (∀ t', known w t' → known w' t') ∧
    (∀ p, p <> t_PlayerID t → mw_store w' !! p = mw_store w !! p) ∧
    (∀ j c ch, j <> t_ID t → watch (mw_queue w) j c ch → watch (mw_queue w') j c ch) ∧
    (∀ c ch, over (mw_queue w) c ch → over (mw_queue w') c ch).
Proof.
  intros Hw Hk Hs. set (asg := assignment_of (mw_now w) t).
  destruct (publish_watch (t_ID t) (EventMatched asg) (mw_queue w) (proj1 Hw) Hk eq_refl) as (q' & Ep & Hkn & Hin & Hj & Ho).
  set (w1 := mkMemWorld (mw_queue w) (<[t_PlayerID t := mkInMemEntry asg (time_Add (mw_now w) ttl)]> (mw_store w)) (mw_now w) (mw_calls w) (mw_counted w) (mw_depth w)).
  exists (mkMemWorld q' (mw_store w1) (mw_now w) (mw_calls w) (mw_counted w) (mw_depth w)).
  assert (Hw' : mem_wf (mkMemWorld q' (mw_store w1) (mw_now w) (mw_calls w) (mw_counted w) (mw_depth w))).
  { destruct Hk as [e He]. destruct (proj2 Hw _ _ He) as [_ Hsome].
    pose proof (mem_publish allocator session_signer (t_ID t) (EventMatched asg) w1 Hw ltac:(unfold mem_snapshot; cbn; by rewrite He)) as Hp.
    unfold p_Publish, mem_ports, on_queue, state in Hp. cbn [mw_queue w1] in Hp. rewrite Ep in Hp. exact (proj1 Hp). }
  split_and!; [|exact Hw'|split|reflexivity|reflexivity|exact (λ t', Hkn (t_ID t'))| |exact Hj|exact Ho].
  - unfold pairOne. rewrite M_bind_eval. unfold try at 1. cbn [p_SignSession worker_ports mem_ports]. unfold session_signer at 1, lift_res.
    unfold asg, assignment_of, token_of, signs in *. destruct (Token.SignSession _ _ _ _ _ _) as [tok|err]; [|done].
    rewrite M_bind_eval. unfold try at 1. cbn [p_PutAssignment worker_ports mem_ports Put]. rewrite M_bind_eval. unfold ignore.
    cbn [p_Publish worker_ports mem_ports]. unfold on_queue. cbn [mw_queue]. rewrite Ep. reflexivity.
  - cbn. by rewrite lookup_insert_eq.
  - exact Hin.
  - intros p Hp. cbn. by rewrite lookup_insert_ne.
Qed.

Lemma pairAll_told ts paired w :
  mem_wf w → (∀ t, t ∈ ts → known w t ∧ signs (mw_now w) t) → NoDup (t_ID <$> ts) → NoDup (t_PlayerID <$> ts) →
  ∃ w', pairAll ttl a players (mw_now w) (time_Add (mw_now w) ttl) ts paired w = (Ok (paired + Z.of_nat (length ts)), w') ∧
    mw_counted w' = mw_counted w ∧ (∀ t, t ∈ ts → told (mw_now w) w w' t) ∧
    (∀ p, p ∉ t_PlayerID <$> ts → mw_store w' !! p = mw_store w !! p) ∧
    (∀ c ch, over (mw_queue w) c ch → over (mw_queue w') c ch).
Proof.
  revert paired w. induction ts as [|t ts IH]; intros paired w Hw Hts Hnd Hndp.
  { exists w. split_and!; [by rewrite Z.add_0_r|done|by intros t Ht%elem_of_nil|done..]. }
  csimpl in Hnd. csimpl in Hndp. apply NoDup_cons in Hnd as [Hni Hnd], Hndp as [Hnp Hndp].
  destruct (Hts t ltac:(left)) as [Hk Hs].
  destruct (pairOne_told t w Hw Hk Hs) as (w1 & E1 & Hw1 & [Hst Hwat] & Hn & Hc & Hkn & Hsto & Hj & Ho).
  destruct (IH (paired + 1) w1 Hw1) as (w2 & E2 & Hc2 & Ht2 & Hsto2 & Ho2); [|done..|].
  { intros t' Ht'. destruct (Hts t' ltac:(by right)) as [? ?]. rewrite Hn. auto. }
  exists w2. cbn [pairAll]. rewrite M_bind_eval, E1, <- Hn, E2. split_and!; [do 2 f_equal; cbn [length]; lia|congruence| | |by auto].
  - intros t' Ht'. apply elem_of_cons in Ht' as [->|Ht'].
    + split; [by rewrite Hn, Hsto2|]. intros c ch Hc'. rewrite Hn. by apply Ho2, Hwat.
    + destruct (Ht2 t' Ht') as [H1 H2]. split; [done|]. intros c ch Hc'. apply H2, Hj; [|done].
      intros Heq. apply Hni. rewrite <- Heq. by apply list_elem_of_fmap_2.
  - intros p. csimpl. rewrite not_elem_of_cons. intros [? ?]. by rewrite Hsto2, Hsto.
Qed.
End worker.

Section journey.
Context {U : UuidCodec} {UL : UuidCodecLaws U} {R : RangeOrder} {RL : RangeOrderLaw R} {C : Collation} {E : ErrorText}.
Context {J : Jwt} {JL : JwtLaws J} {T : JsonText} {TL : JsonTextLaws T} {JC : JwtCompact J T}.
Context {FC : FrameCodec} {CC : ClientCodec} {FL : FrameLaws}.
Context {B S V : Type} {BR : Broker B} {BS : BlobStore S} {HS : HttpStore S} {RI : RankIndex V} {TI : TokenIssuer} {OV : OIDCVerifier}.
Context (cfg : GatewayConfig) (secret : string) (allocator : nat → string → Z → res RoomAllocation).
Context (ticket_events : chan_id → list Event * option error) (channel_messages : nat → list ChannelMessage * option error).

#[local] Existing Instance worker_ports.
Notation network := (cloud_network cfg secret ticket_events channel_messages).
Notation worker := (worker_ports secret allocator).

Lemma pair_told mode ts ttl a w :
  mem_wf w → (∀ t, t ∈ ts → known w t ∧ signs secret ttl a (group_players ts) (mw_now w) t) →
  NoDup (t_ID <$> ts) → NoDup (t_PlayerID <$> ts) →
  forallb (claimable (mw_queue w)) (t_ID <$> ts) = true → allocator (mw_calls w) mode (Z.of_nat (length ts)) = Ok a →
  ∃ w', pair (P := worker) ttl mode ts w = (Ok tt, w') ∧ mw_counted w' = mw_counted w + 1 ∧
    ∀ t, t ∈ ts → told secret ttl a (group_players ts) (mw_now w) w w' t.
Proof.
  intros Hw Hts Hnd Hndp Hc Ha. pose proof (mem_claim allocator (session_signer secret) mode (t_ID <$> ts) w Hw) as Hcl.
  unfold p_Claim, mem_ports, on_queue, state, result, Claim in Hcl. rewrite Hc in Hcl. cbn [fst snd] in Hcl. destruct Hcl as [Hw1 _].
  set (w2 := mkMemWorld (set_tickets (mw_queue w) (foldl markClaimed (q_tickets (mw_queue w)) (t_ID <$> ts))) (mw_store w) (mw_now w) (Datatypes.S (mw_calls w))
    (mw_counted w) (mw_depth w)).
  destruct (pairAll_told secret allocator ttl a (group_players ts) ts 0 w2 Hw1) as (w3 & E3 & Hc3 & Ht3 & _); [|done..|].
  { intros t Ht. destruct (Hts t Ht) as [Hk Hs]. split; [|exact Hs]. unfold known. cbn. rewrite markClaimed_lookup.
    case_decide; [by apply fmap_is_Some|exact Hk]. }
  exists (mkMemWorld (mw_queue w3) (mw_store w3) (mw_now w3) (mw_calls w3) (mw_counted w3 + 1) (mw_depth w3)). split_and!.
  - unfold pair. rewrite M_bind_eval. cbn [p_Claim worker_ports mem_ports]. unfold on_queue, Claim. rewrite Hc. cbn [negb mw_queue].
    rewrite M_bind_eval. unfold try. cbn [p_Allocate worker_ports mem_ports mw_calls]. rewrite Ha. rewrite M_bind_eval. unfold gets.
    rewrite M_bind_eval. cbn [p_Now worker_ports mem_ports mw_now]. fold (group_players ts). cbn [mw_now w2] in E3.
    unfold w2 in E3. cbn [mw_queue mw_store mw_now mw_calls mw_counted mw_depth]. rewrite E3. unfold when. by rewrite Z.add_0_l, Z.eqb_refl.
  - cbn. by rewrite Hc3.
  - exact Ht3.
Qed.

(** *** The client *)

Definition client_match (asg : Assignment) : ClientMatch := mkClientMatch (a_Endpoint asg) (a_SessionToken asg).

Lemma current_match o cl (n : Cloud B S V) asg exp :
  bears secret o cl n → w_assignments (cl_world n) !! o = Some (mkInMemEntry asg exp) → d_now (next_draw n) ≤ exp →
  ∃ n', Client_GetCurrentMatch (NW := network) (cl, n) = (Ok (Some (client_match asg)), (cl, n')).
Proof.
  intros Hb Hs Ht. eexists. unfold Client_GetCurrentMatch. apply M_bind_Ok. eexists (Some (toCurrentMatchPb asg)), (cl, _). split; [|reflexivity].
  unfold send_authorized. cbn [unary cloud_network]. unfold rpc, handle. unfold next_draw at 1. rewrite Hb. cbn [serve].
  unfold MatchHandler_GetCurrentMatch, mbind, Rpc_bind, requireAuth, mret, Rpc_ret, call_assignments, call, GetCurrentMatch, Get.
  rewrite Hs. cbn [ie_expiresAt ie_assignment]. unfold time_After. rewrite (proj2 (Z.ltb_ge _ _)) by done. reflexivity.
Qed.

Lemma await_match queued asg : Forall (λ ev, isTerminal ev = false) queued →
  awaitMatch (toWatchResponse <$> (queued ++ [EventMatched asg])) = Some (Ok (client_match asg)).
Proof. induction 1 as [|ev queued Hev _ IH]; [done|]. destruct ev; [exact IH|done..]. Qed.

(** A client that opened its stream before the group was paired: the stream carries what the channel
    is sent, which so far was not the end of it, and the channel's buffer has room. *)
Record watching (w w' : MemWorld) (t : Ticket) (cl : Client) (n : Cloud B S V) (c : chan_id) (n1 : Cloud B S V) : Prop := {
  wt_opened : rpc cfg secret (authorize cl) (RqWatchTicket (uuid_String (t_ID t))) n = (Ok c, n1);
  wt_channel : ∃ ch received, watch (mw_queue w) (t_ID t) c ch ∧ Z.of_nat (length (ch_buf ch)) < ch_cap ch ∧
    Forall (λ ev, isTerminal ev = false) (received ++ ch_buf ch) ∧
    ∀ ch', over (mw_queue w') c ch' → ticket_events c = (received ++ ch_buf ch', None);
}.

Lemma wait_match ttl a players now w w' t cl n c n1 :
  told secret ttl a players now w w' t → watching w w' t cl n c n1 →
  Client_WaitForMatch (NW := network) (uuid_String (t_ID t)) (cl, n) = (Ok (client_match (assignment_of secret ttl a players now t)), (cl, n1)).
Proof.
  intros [_ Ht] [Hr (ch & received & Hw & Hroom & Hq & Hev)]. specialize (Hev _ (Ht c ch Hw)).
  unfold Client_WaitForMatch. cbn [stream_WatchTicket cloud_network]. rewrite Hr, Hev. cbn [fst snd ch_buf MatchQueue.deliver].
  apply Z.ltb_lt in Hroom. rewrite Hroom, app_assoc, await_match by done. reflexivity.
Qed.

(** C18: a match is made.  When the worker pairs a group of different players whose tickets can be
    claimed, and the allocator has a room, then every player of the group ends up with one and the
    same match: the client that waits on its ticket's stream returns the room and a token, so does
    the lookup of a client that lost its stream, until the assignment expires; and with these the
    client dials the room of the match, where the hello it sends seats it as its own player, with the
    whole group as the roster, until the token expires and not after. *)
Theorem match_made mode ts ttl a w :
  mem_wf w → (∀ t, t ∈ ts → known w t ∧ signs secret ttl a (group_players ts) (mw_now w) t) →
  NoDup (t_ID <$> ts) → NoDup (t_PlayerID <$> ts) →
  forallb (claimable (mw_queue w)) (t_ID <$> ts) = true → allocator (mw_calls w) mode (Z.of_nat (length ts)) = Ok a →
  ∃ w', pair (P := worker) ttl mode ts w = (Ok tt, w') ∧ mw_counted w' = mw_counted w + 1 ∧
  ∀ t, t ∈ ts → ∃ tok, let m := mkClientMatch (ra_Endpoint a) tok in
    (∀ cl n c n1, watching w w' t cl n c n1 → Client_WaitForMatch (NW := network) (uuid_String (t_ID t)) (cl, n) = (Ok m, (cl, n1))) ∧
    (∀ cl n, bears secret (t_PlayerID t) cl n → w_assignments (cl_world n) = mw_store w' → d_now (next_draw n) ≤ time_Add (mw_now w) ttl →
       ∃ n', Client_GetCurrentMatch (NW := network) (cl, n) = (Ok (Some m), (cl, n'))) ∧
    ∃ hello, Connect None None None None m = Ok ("/room/" +:+ uuid_String (ra_MatchID a), hello) ∧
      ∀ now, checkSession secret now ("/room/" +:+ uuid_String (ra_MatchID a)) true (Ok hello) =
        if now <? expires (mw_now w) ttl then Seated (ra_MatchID a) (t_PlayerID t) (t_PlayerID <$> ts) else Rejected.
Proof.
  intros Hw Hts Hnd Hndp Hc Ha. destruct (pair_told mode ts ttl a w Hw Hts Hnd Hndp Hc Ha) as (w' & Ep & Hcount & Htold).
  exists w'. split; [exact Ep|]. split; [exact Hcount|]. intros t Ht. destruct (Hts t Ht) as [_ Hs]. specialize (Htold t Ht).
  exists (token_of secret ttl a (group_players ts) (mw_now w) t). split_and!.
  - intros cl n c n1 Hwat. exact (wait_match _ _ _ _ _ _ _ _ _ _ _ Htold Hwat).
  - intros cl n Hb Hst Hnow. apply (current_match (t_PlayerID t) cl n (assignment_of secret ttl a (group_players ts) (mw_now w) t) (time_Add (mw_now w) ttl)); [done| |done].
    rewrite Hst. exact (proj1 Htold).
  - unfold signs in Hs. unfold token_of. destruct (Token.SignSession _ _ _ _ _ _) as [tok|err] eqn:Es; [|done].
    assert (Hg : group_players ts = uuid_String <$> (t_PlayerID <$> ts)) by (unfold group_players; by rewrite <- list_fmap_compose).
    rewrite Hg in Es. destruct (connect_seat secret _ _ _ _ _ tok (ra_Endpoint a) Es) as (hello & E1 & E2).
    exists hello. split; [exact E1|]. intros now. rewrite E2. destruct ts; [by apply elem_of_nil in Ht|done].
Qed.
End journey.

(** ** Evaluation

    Players 0a and 0b of [Matchmaker]'s demonstration; the signer knows their session tokens for the
    room of match 77 and the access token of player 0e. *)

#[local] Existing Instance hex_codec.
#[local] Existing Instance demo_range.
#[local] Existing Instance demo_range_law.
#[local] Existing Instance demo_error_text.
#[local] Existing Instance hub_broker.
#[local] Existing Instance mem_blobs.

Definition journey_ts : list Ticket := demo_tickets [x01; x02].
Definition journey_room : RoomAllocation := mkRoomAllocation (sample_uuid x77) "10.0.0.7:7777".

Definition journey_claims : list json :=
  ((λ t, session_claims (t_PlayerID t) (hex_String (sample_uuid x77)) (group_players journey_ts) (10 * Second) (60 * Second)) <$> journey_ts)
  ++ [access_claims (sample_uuid x0e) (10 * Second) (900 * Second)].

#[local] Instance journey_jwt : Jwt := compact_jwt journey_claims.

Lemma match_made_witness :
  ∃ w' tok hello, pair (P := worker_ports "k" demo_allocator) (60 * Second) "ranked" journey_ts demo_world = (Ok tt, w') ∧
    Connect (T := demo_text) (CC := wire_codec) None None None None (mkClientMatch "10.0.0.7:7777" tok) = Ok ("/room/" +:+ hex_String (sample_uuid x77), hello) ∧
    checkSession (FC := wire_frames) "k" (20 * Second) ("/room/" +:+ hex_String (sample_uuid x77)) true (Ok hello)
      = Seated (sample_uuid x77) (sample_uuid x0a) [sample_uuid x0a; sample_uuid x0b].
Proof.
  pose proof (compact_jwt_laws journey_claims) as [HJ HC].
  destruct (match_made (C := str_ltb) (JL := HJ) (T := demo_text) (TL := demo_text_laws) (JC := HC) (FC := wire_frames) (CC := wire_codec) (FL := wire_laws)
    (BR := hub_broker) (BS := mem_blobs) (RI := down) (TI := demo_issuer) (OV := demo_verifier) (HS := Build_HttpStore _ (λ _, None) (λ _ _ _ s, (Ok 200, s)) (λ _ s, (Ok (200, Ok ""), s)))
    demo_gateway "k" demo_allocator (λ _, ([], None)) (λ _, ([], None)) "ranked" journey_ts (60 * Second) journey_room demo_world demo_world_wf)
    as (w' & Ep & _ & Hall).
  - intros t Ht. refine (proj1 (list.Forall_forall (λ t, known demo_world t ∧ signs "k" (60 * Second) journey_room (group_players journey_ts) (mw_now demo_world) t) journey_ts) _ t Ht).
    unfold known, signs. by_compute.
  - by_compute.
  - by_compute.
  - vm_compute. reflexivity.
  - vm_compute. reflexivity.
  - exists w'. destruct (Hall (demo_ticket x01 x0a 1000 [] (1 * Second))) as (tok & _ & _ & hello & E1 & E2).
    + apply list_elem_of_In. vm_compute. left. reflexivity.
    + exists tok, hello. split; [exact Ep|]. split; [exact E1|]. exact (E2 (20 * Second)).
Defined.

(** A stranger who knows the ticket's id opens its stream before the group is paired, and sits down
    as player 0a. *)
Definition stranger : Client := mkClient (match Token.SignAccess "k" (sample_uuid x0e) (10 * Second) (900 * Second) with Ok tok => tok | Err _ => "" end) "" None.

Definition journey_world : World StreamHub (gmap string ObjectAttrs) unit :=
  mkWorld demo_gateway_db NewHub ∅ tt (mw_queue demo_world) ∅.
Definition journey_draw : Draw := mkDraw (20 * Second) (sample_uuid x71) (sample_uuid x72) demo_draws (λ _ db, db).

Definition journey_handle {A} (header : string) (rq : request A) :=
  handle (R := range_id) (C := str_ltb) (RI := down) (TI := demo_issuer) (OV := demo_verifier) demo_gateway "k" header journey_draw rq journey_world.

Example stranger_seated :
  match journey_handle (authorize stranger) (RqWatchTicket (hex_String (sample_uuid x01))) with
  | (Reply c, w) =>
      let mw := mkMemWorld (w_queue w) (w_assignments w) (10 * Second) 0 0 ∅ in
      let mw' := (pair (P := worker_ports "k" demo_allocator) (60 * Second) "ranked" journey_ts mw).2 in
      match awaitMatch (toWatchResponse <$> match q_chans (mw_queue mw') !! c with Some ch => ch_buf ch | None => [] end) with
      | Some (Ok m) =>
          match Connect (T := demo_text) (CC := wire_codec) None None None None m with
          | Ok (path, hello) => checkSession (FC := wire_frames) "k" (20 * Second) path true (Ok hello)
          | Err _ => Rejected
          end
      | _ => Rejected
      end
  | _ => Rejected
  end = Seated (sample_uuid x77) (sample_uuid x0a) [sample_uuid x0a; sample_uuid x0b].
Proof. vm_compute. reflexivity. Qed.
