(* ===== verification/TitleFiles.v ===== *)
(** * Title files, from the operator to the player

    [Admin] publishes over the database and the object store that the gateway of [EndToEnd] serves
    from.  The two processes agree on the title prefix only (VFX_STORAGE_TITLE_PREFIX). *)

From S2P Require Import Prelude GoBase GoStrings Json Database Match MatchQueue AssignmentStore Matchmaker.
From S2P Require Import Social Storage ObjectStore Group Chat Leaderboard Auth Token Gateway Admin Client EndToEnd.

Section titles.
Context {U : UuidCodec} {UL : UuidCodecLaws U} {R : RangeOrder} {C : Collation} {J : Jwt} {ET : ErrorText}.
Context {B S V : Type} {BR : Broker B} {BS : BlobStore S} {OL : ObjectLaws S} {HS : HttpStore S} {HL : HttpStoreLaws S}.
Context {RI : RankIndex V} {TI : TokenIssuer} {OV : OIDCVerifier}.
Context (cfg : GatewayConfig) (secret : string).
Context (ticket_events : chan_id → list Event * option error) (channel_messages : nat → list ChannelMessage * option error).
Context {Q : Type} (queue_Depth : string → Q → res Z) (acfg : StorageConfig) (token : string).

Notation network := (cloud_network cfg secret ticket_events channel_messages).

(** The operations API serves a request on the gateway's database and store. *)
Definition admin_call (rq : HttpRequest) (dr : AdminDraw) (q : Q) (n : Cloud B S V) : HttpResponse * Cloud B S V :=
  let w := cl_world n in
  let '(resp, b) := NewHandler queue_Depth (Some acfg) token rq dr (mkBackend (w_db w, w_blobs w) q) in
  (resp, mkCloud (set_storage (be_store b) w) (cl_draws n) (cl_calls n)).

Definition put_title (name tags data contentType authorization : string) : HttpRequest :=
  mkHttpRequest "PUT" ["api"; "title-files"; name] authorization contentType tags (Ok data).
Definition delete_title (name authorization : string) : HttpRequest :=
  mkHttpRequest "DELETE" ["api"; "title-files"; name] authorization "" "" (Ok "").

Lemma tokened_status h rq dr b b' resp : requireToken (S := S) (Q := Q) token h rq dr b = (resp, b') → rs_Status resp <> 401 → h rq dr b = (resp, b').
Proof. unfold requireToken. case_bool_decide; [done|]. case_bool_decide; [done|]. by intros [= <- _] ?. Qed.

Lemma routed rq name h dr b : rq_Path rq = ["api"; "title-files"; name] → name <> "" →
  rq_Method rq = "PUT" ∧ h = handlePutTitleFile acfg name ∨ rq_Method rq = "DELETE" ∧ h = handleDeleteTitleFile acfg name →
  NewHandler (S := S) queue_Depth (Some acfg) token rq dr b = requireToken token h rq dr b.
Proof.
  intros Hp Hn H. unfold NewHandler. rewrite Hp. unfold route. rewrite bool_decide_eq_false_2 by done.
  destruct H as [[-> ->]|[-> ->]]; reflexivity.
Qed.

Lemma unrouted rq dr b : rq_Path rq = ["api"; "title-files"; ""] →
  NewHandler (S := S) queue_Depth (Some acfg) token rq dr b = (http_Error "404 page not found" 404, b).
Proof. intros Hp. unfold NewHandler. by rewrite Hp. Qed.

(** A 200 to a PUT: the file was published. *)
Lemma put_200 name tags data ct auth dr q n resp n' : admin_call (put_title name tags data ct auth) dr q n = (resp, n') → rs_Status resp = 200 →
  ∃ file p, PublishTitleFile acfg (ad_id dr) (ad_now dr) name (splitTags tags) data
              (if bool_decide (ct = "") then "application/octet-stream" else ct) (w_db (cl_world n), w_blobs (cl_world n)) = (Ok file, p) ∧
    n' = mkCloud (set_storage p (cl_world n)) (cl_draws n) (cl_calls n) ∧
    rs_Body resp = TitleFileBody (mkTitleFileView (f_Filename file) (f_Size file) (f_Hash file) (splitTags tags) (f_ModifiedAt file)).
Proof.
  unfold admin_call. destruct (decide (name = "")) as [->|Hn]; [rewrite unrouted by done; by intros [= <- _]|].
  rewrite (routed _ name (handlePutTitleFile acfg name)) by (done || by left).
  destruct (requireToken token (handlePutTitleFile acfg name) _ _ _) as [r b'] eqn:E. intros [= -> <-] Hst.
  apply tokened_status in E; [|lia]. unfold handlePutTitleFile, put_title in E. cbn [rq_Body rq_TagsParam rq_ContentType be_store be_queue] in E.
  destruct (readTitleBody (Ok data)) as [d|e] eqn:Eb; [|injection E as <- _; done].
  assert (d = data) as -> by (unfold readTitleBody in Eb; destruct (maxTitleFileBytes <? _); congruence).
  destruct (PublishTitleFile _ _ _ _ _ _ _ _) as [[file|e] p] eqn:Ep; injection E as <- <-; [by exists file, p|].
  exfalso. clear -Hst. unfold writeStorageError in Hst. by repeat case_match.
Qed.

Lemma delete_204 name auth dr q n resp n' : admin_call (delete_title name auth) dr q n = (resp, n') → rs_Status resp = 204 →
  ∃ p, DeleteTitleFile acfg name (w_db (cl_world n), w_blobs (cl_world n)) = (Ok tt, p) ∧
    n' = mkCloud (set_storage p (cl_world n)) (cl_draws n) (cl_calls n).
Proof.
  unfold admin_call. destruct (decide (name = "")) as [->|Hn]; [rewrite unrouted by done; by intros [= <- _]|].
  rewrite (routed _ name (handleDeleteTitleFile acfg name)) by (done || by right).
  destruct (requireToken token (handleDeleteTitleFile acfg name) _ _ _) as [r b'] eqn:E. intros [= -> <-] Hst.
  apply tokened_status in E; [|lia]. unfold handleDeleteTitleFile in E. cbn [be_store be_queue] in E.
  destruct (DeleteTitleFile _ _ _) as [[[]|e] p] eqn:Ep; injection E as <- <-; [by exists p|].
  exfalso. clear -Hst. unfold writeStorageError in Hst. by repeat case_match.
Qed.

(** An authenticated call of a method without arguments of interest. *)
Lemma send_reply {A} msg (rq : request A) o c n a w' : bears secret o c n →
  serve cfg (Some o) (next_draw n) rq (cl_world n) = (Reply a, w') →
  send_authorized (NW := network) msg rq (c, n) = (Ok a, (c, mkCloud w' (cl_draws n) (Datatypes.S (cl_calls n)))).
Proof.
  intros Hb E. unfold send_authorized. cbn [unary cloud_network]. unfold rpc, handle, next_draw in *. by rewrite Hb, E.
Qed.

Lemma reads_url name n file u p data c o : bears secret o c n →
  ReadTitleFile (gc_storage cfg) name (w_db (cl_world n), w_blobs (cl_world n)) = (Ok (file, u), p) →
  parse_url (su_URL u) = None → store_GET (su_URL u) p.2 = (Ok (200, Ok data), p.2) →
  ∃ n2, Client_ReadTitleFile (NW := network) name (c, n) = (Ok data, (c, n2)).
Proof.
  intros Hb E Hurl Hget. eexists. unfold Client_ReadTitleFile. apply M_bind_Ok. eexists _, _. split.
  - apply (send_reply _ _ o c n (toDownload (file, u)) (set_storage p (cl_world n))); [exact Hb|].
    cbn [serve]. unfold TitleHandler_ReadFile, mbind, Rpc_bind, requireAuth, mret, Rpc_ret, call_storage, call. by rewrite E.
  - unfold on_net, getObject. cbn [build_request http_GET cloud_network dpb_DownloadUrl toDownload snd]. rewrite Hurl.
    unfold http. cbn [cl_world w_blobs set_storage snd]. by rewrite Hget.
Qed.

Lemma reads_fault name n c o p : bears secret o c n →
  ReadTitleFile (gc_storage cfg) name (w_db (cl_world n), w_blobs (cl_world n)) = (Err ErrFileNotFound, p) →
  ∃ n2, Client_ReadTitleFile (NW := network) name (c, n) = (Err (Wrap "vfxclient: read title file" (connectError CodeNotFound)), (c, n2)).
Proof.
  intros Hb E. eexists. unfold Client_ReadTitleFile, mbind, M_bind, send_authorized. cbn [unary cloud_network].
  unfold rpc, handle, next_draw. rewrite Hb. cbn [serve].
  unfold TitleHandler_ReadFile, mbind, Rpc_bind, requireAuth, mret, Rpc_ret, call_storage, call. rewrite E. reflexivity.
Qed.

(** C21: what operators publish is what players get.  After a PUT to /api/title-files/{name} is answered
    200, every logged-in client downloads exactly the bytes of the request under that name, as long as
    the store can sign URLs, and finds the file in every query for tags among those of the request
    (commas separate them, outer spaces and empty tags are dropped); after a DELETE is answered 204,
    the file is not found any more, whatever became of the object. *)
Theorem title_lifecycle name tags data ct auth dr q n resp n' :
  TitlePrefix acfg = TitlePrefix (gc_storage cfg) → (∀ k s, is_ok (SignDownload k (URLTTL (gc_storage cfg)) s).1 = true) →
  admin_call (put_title name tags data ct auth) dr q n = (resp, n') → rs_Status resp = 200 →
  ∀ o c, bears secret o c n →
    (∃ n2, Client_ReadTitleFile (NW := network) name (c, n') = (Ok data, (c, n2))) ∧
    (∀ wanted, wanted ⊆ splitTags tags →
       ∃ files n2, Client_QueryTitleFiles (NW := network) wanted (c, n') = (Ok files, (c, n2)) ∧ name ∈ fpb_Filename <$> files) ∧
    (∀ auth' dr' q' resp' n3, admin_call (delete_title name auth') dr' q' n' = (resp', n3) → rs_Status resp' = 204 →
       ∃ n4, Client_ReadTitleFile (NW := network) name (c, n3) = (Err (Wrap "vfxclient: read title file" (connectError CodeNotFound)), (c, n4))).
Proof.
  intros Hpre Hsd Hput Hst o c Hb. destruct (put_200 _ _ _ _ _ _ _ _ _ _ Hput Hst) as (file & p & Ep & -> & _).
  destruct (publish_Ok _ _ _ _ _ _ _ _ _ _ Ep) as (Hv & Hn & _ & _ & Hobj & Hget & (r & Hr & Hrn) & Hall).
  assert (Hkey : titleKey acfg name = titleKey (gc_storage cfg) name) by (unfold titleKey; by rewrite Hpre).
  rewrite Hkey in Hobj. split_and!.
  - pose proof (Hsd (titleKey (gc_storage cfg) name) p.2) as Hu.
    destruct (SignDownload (titleKey (gc_storage cfg) name) (URLTTL (gc_storage cfg)) p.2) as [[url|e] s5] eqn:Esd; [|done].
    destruct (get_signed _ _ _ _ _ data Esd) as [Hurl Hdl]; [by rewrite (sign_download_keeps _ _ _ _ _ Esd)|].
    eapply (reads_url name _ (stored_title file) url (p.1, s5) data c o); [exact Hb| |done..].
    cbn [cl_world w_db w_blobs set_storage]. by apply (read_present _ _ (p.1, p.2)).
  - intros wanted Hw. eexists _, _. split.
    + unfold Client_QueryTitleFiles. eapply (send_reply _ _ o c); [exact Hb|].
      cbn [serve cl_world]. unfold TitleHandler_QueryFiles, mbind, Rpc_bind, requireAuth, mret, Rpc_ret, call_storage, call, QueryTitleFiles, on_db, RO, TitleFile_ListFiles.
      cbn [w_db w_blobs set_storage fst snd]. reflexivity.
    + apply list_elem_of_fmap. exists (toFileMetadataPb (titleFileToDomain r)). split; [by cbn|].
      apply list_elem_of_fmap_2, list_elem_of_fmap_2, elem_of_isort, filter_selected. split; [done|].
      apply forallb_forall. intros t Ht%list_elem_of_In. apply bool_decide_eq_true. destruct (Hall r Hr Hrn) as [_ ->]. by apply Hw.
  - intros auth' dr' q' resp' n3 Hdel Hst'. destruct (delete_204 _ _ _ _ _ _ _ Hdel Hst') as (p' & Edel & ->).
    destruct (unpublish_Ok _ _ _ _ Edel) as [_ Hno]. eapply (reads_fault name _ c o p'); [exact Hb|].
    cbn [cl_world w_db w_blobs set_storage]. rewrite <- surjective_pairing. by apply read_absent.
Qed.
End titles.

(** ** Evaluation *)

#[local] Existing Instances hex_codec hub_broker content_store content_http content_objects content_http_laws demo_text_of.

Definition demo_admin_cfg : StorageConfig := mkStorageConfig "" "title" 0 0 0.
Definition demo_admin_draw : AdminDraw := mkAdminDraw demo_now (sample_uuid x09) None.

Definition demo_put : HttpResponse * Cloud StreamHub (gmap string string) unit :=
  admin_call inmem_depth demo_admin_cfg "ops" (put_title "motd.json" " prod, ,config" "hello" "" "Bearer ops") demo_admin_draw NewInMem demo_cloud.

Example demo_put_response :
  demo_put.1 = writeJSON 200 (TitleFileBody (mkTitleFileView "motd.json" 5 "md5" ["prod"; "config"] demo_now)).
Proof. vm_compute. reflexivity. Qed.

Lemma title_lifecycle_witness :
  ∃ n2, Client_ReadTitleFile (NW := demo_network demo_claims demo_issuer) "motd.json" (demo_client, demo_put.2) = (Ok "hello", (demo_client, n2)).
Proof.
  refine (proj1 (title_lifecycle (R := range_id) (C := str_ltb) (J := list_jwt demo_claims) (RI := down) (TI := demo_issuer) (OV := demo_verifier)
    demo_gateway "k" (λ _, ([], None)) (λ _, ([], None)) inmem_depth demo_admin_cfg "ops" "motd.json" " prod, ,config" "hello" "" "Bearer ops"
    demo_admin_draw NewInMem demo_cloud demo_put.1 demo_put.2 _ _ _ _ (sample_uuid x01) demo_client _)).
  - reflexivity.
  - done.
  - unfold demo_put. by destruct (admin_call _ _ _ _ _ _ _).
  - rewrite demo_put_response. reflexivity.
  - intros i. vm_compute. reflexivity.
Defined.
