(* ===== verification/Rps.v ===== *)
(** * The rock-paper-scissors plugin (examples/rps/plugin)

    The rules ([Game]) as a pure tick processor, its JSON snapshots, and its adapter to the room's
    plugin contract.  A byte is an [ascii]; the zero byte is a missing choice. *)

From stdpp Require Import pretty.
From S2P Require Import Prelude GoBase GoStrings Room.

Definition rounds : Z := 3.
Definition winsToWin : Z := 2.
Definition zero : ascii := Ascii.zero.

Record roundResult := mkRoundResult { rr_Round : Z; rr_Winner : string; rr_ChoiceA : string; rr_ChoiceB : string }.

Record gameState := mkGameState {
  playerA : string; playerB : string; Round : Z; Scores : gmap string Z; Choices : gmap string ascii; History : list roundResult;
  MatchWinner : string; scoreA : Z; scoreB : Z; matchWinner : string;
}.

#[export] Instance roundResult_eq_dec : EqDecision roundResult.
Proof. solve_decision. Defined.
#[export] Instance gameState_eq_dec : EqDecision gameState.
Proof. solve_decision. Defined.

Definition newGameState : gameState := mkGameState "" "" 1 ∅ ∅ [] "" 0 0 "".

(** ** The rules (game.go) *)

Definition normalize (c : ascii) : ascii :=
  if bool_decide (c = "R"%char ∨ c = "r"%char) then "R"%char
  else if bool_decide (c = "P"%char ∨ c = "p"%char) then "P"%char
  else if bool_decide (c = "S"%char ∨ c = "s"%char) then "S"%char
  else zero.

Definition decideRound (a b : ascii) (idA idB : string) : string :=
  if bool_decide (a = b) then ""
  else if bool_decide ((a = "R"%char ∧ b = "S"%char) ∨ (a = "P"%char ∧ b = "R"%char) ∨ (a = "S"%char ∧ b = "P"%char)) then idA
  else idB.

Definition choice_of (s : gameState) (player : string) : ascii := from_option id zero (Choices s !! player).

Definition resolveRound (s : gameState) : gameState :=
  let a := choice_of s (playerA s) in
  let b := choice_of s (playerB s) in
  let winner := decideRound a b (playerA s) (playerB s) in
  let '(sA, sB, scores) :=
    if bool_decide (winner = playerA s) then (scoreA s + 1, scoreB s, <[playerA s := scoreA s + 1]> (Scores s))
    else if bool_decide (winner = playerB s) then (scoreA s, scoreB s + 1, <[playerB s := scoreB s + 1]> (Scores s))
    else (scoreA s, scoreB s, Scores s) in
  let history := History s ++ [mkRoundResult (Round s) winner (String a "") (String b "")] in
  let mw :=
    if winsToWin <=? sA then playerA s
    else if winsToWin <=? sB then playerB s
    else if rounds <=? Round s then
      if sB <? sA then playerA s else if sA <? sB then playerB s else "draw"
    else matchWinner s in
  mkGameState (playerA s) (playerB s) (Round s + 1) scores ∅ history mw sA sB mw.

(** The new state, and whether a round was resolved. *)
Definition applyAction (action : PlayerAction) (s : gameState) : bool * gameState :=
  match pa_Payload action with
  | "" => (false, s)
  | String c _ =>
      let choice := normalize c in
      if bool_decide (choice = zero) then (false, s)
      else match Choices s !! pa_PlayerId action with
        | Some _ => (false, s)
        | None =>
            let s := mkGameState (playerA s) (playerB s) (Round s) (Scores s) (<[pa_PlayerId action := choice]> (Choices s))
                       (History s) (MatchWinner s) (scoreA s) (scoreB s) (matchWinner s) in
            if (size (Choices s) <? 2)%nat then (false, s) else (true, resolveRound s)
        end
  end.

Definition rankOf (s : gameState) (playerID : string) : Z :=
  if bool_decide (matchWinner s = "" ∨ matchWinner s = "draw") then 0
  else if bool_decide (matchWinner s = playerID) then 1 else -1.

(** ** encoding/json *)

Definition hex4 (n : N) : string :=
  String (hex_digit (n / 4096)) (String (hex_digit (n / 256 mod 16)) (String (hex_digit (n / 16 mod 16)) (String (hex_digit (n mod 16)) ""))).

Definition quote : string := String (ascii_of_nat 34) "".

(** One rune of a JSON string, given its bytes. *)
Definition json_rune (rn : Z * nat) (bytes : list Z) : string :=
  if bad_rune rn then "\ufffd"
  else if rn.1 =? 34 then "\" +:+ quote
  else if rn.1 =? 92 then "\\"
  else if rn.1 =? 8 then "\b" else if rn.1 =? 12 then "\f" else if rn.1 =? 10 then "\n" else if rn.1 =? 13 then "\r" else if rn.1 =? 9 then "\t"
  else if (rn.1 <? 32) || (rn.1 =? 60) || (rn.1 =? 62) || (rn.1 =? 38) || (rn.1 =? 8232) || (rn.1 =? 8233) then "\u" +:+ hex4 (Z.to_N rn.1)
  else of_bytes (take rn.2 bytes).

Fixpoint json_runes (l : list (Z * nat)) (bytes : list Z) : string :=
  match l with
  | [] => ""
  | rn :: l' => json_rune rn bytes +:+ json_runes l' (drop rn.2 bytes)
  end.

Definition json_string (s : string) : string := quote +:+ json_runes (runes s) (go_bytes s) +:+ quote.
Definition json_field (name : string) (value : string) : string := quote +:+ name +:+ quote +:+ ":" +:+ value.
Definition json_object (fields : list string) : string := "{" +:+ strings_Join fields "," +:+ "}".

(** Map keys are sorted. *)
Definition json_scores (m : gmap string Z) : string :=
  json_object ((λ kv, json_string kv.1 +:+ ":" +:+ pretty kv.2) <$> isort (λ x y, str_ltb x.1 y.1) (map_to_list m)).

Definition json_round (r : roundResult) : string :=
  json_object [json_field "round" (pretty (rr_Round r)); json_field "winner" (json_string (rr_Winner r));
               json_field "choice_a" (json_string (rr_ChoiceA r)); json_field "choice_b" (json_string (rr_ChoiceB r))].

(** The exported fields; encoding them cannot fail. *)
Definition encode (s : gameState) : res string :=
  Ok (json_object [json_field "round" (pretty (Round s)); json_field "scores" (json_scores (Scores s));
        json_field "history" ("[" +:+ strings_Join (json_round <$> History s) "," +:+ "]");
        json_field "match_winner" (json_string (MatchWinner s))]).

(** ** The plugin (game.go, plugin.go) *)

Definition set_roster (a b : string) (s : gameState) : gameState :=
  mkGameState a b (Round s) (Scores s) (Choices s) (History s) (MatchWinner s) (scoreA s) (scoreB s) (matchWinner s).

Definition Init (players : list string) (s : gameState) : res InitResponse * gameState :=
  match players with
  | [a; b] =>
      let s := set_roster a b s in
      (snapshot ← encode s; Ok (mkInitResponse 0 snapshot), s)
  | _ => (Err (ErrText "rps: requires exactly two players"), s)
  end.

(** The actions of a tick, up to the one that decides the match. *)
Fixpoint applyActions (actions : list PlayerAction) (progressed : bool) (s : gameState) : bool * gameState :=
  match actions with
  | [] => (progressed, s)
  | action :: actions' =>
      if bool_decide (matchWinner s <> "") then (progressed, s)
      else let '(resolved, s') := applyAction action s in applyActions actions' (progressed || resolved) s'
  end.

Definition OnTick (req : OnTickRequest) (s : gameState) : res OnTickResponse * gameState :=
  let '(progressed, s') := applyActions (tr_Actions req) false s in
  (delta ← (if progressed : bool then encode s' else Ok "");
   Ok (mkOnTickResponse delta [] (bool_decide (matchWinner s' <> ""))), s').

Definition OnGameEnd (finalTick : Z) (s : gameState) : res OnGameEndResponse * gameState :=
  (final ← encode s;
   Ok (mkOnGameEndResponse final
     [mkPlayerResult (playerA s) (rankOf s (playerA s)) {["wins" := pretty (scoreA s)]};
      mkPlayerResult (playerB s) (rankOf s (playerB s)) {["wins" := pretty (scoreB s)]}]), s).

Definition Factory_Create : gameState := newGameState.

#[export] Instance rps_plugin : Plugin gameState := {|
  pl_Init := Init; pl_OnTick := OnTick; pl_OnGameEnd := OnGameEnd; pl_Close := λ s, (Ok tt, s);
|}.

Example init_snapshot :
  (Init ["a"; "b"] newGameState).1 = Ok (mkInitResponse 0 (json_object [json_field "round" "1"; json_field "scores" "{}"; json_field "history" "[]"; json_field "match_winner" (quote +:+ quote)])).
Proof. vm_compute. reflexivity. Qed.

Example json_escapes : json_string (of_bytes [97; 34; 92; 10; 60; 195; 169; 255; 226; 128; 168]) = quote +:+ "a\" +:+ quote +:+ "\\\n\u003c" +:+ of_bytes [195; 169] +:+ "\ufffd\u2028" +:+ quote.
Proof. vm_compute. reflexivity. Qed.

(** ** The game of best of three *)

(** The three hands around the circle: each beats the one before it. *)
Definition hand (c : ascii) : option Z :=
  if bool_decide (c = "R"%char) then Some 0 else if bool_decide (c = "P"%char) then Some 1 else if bool_decide (c = "S"%char) then Some 2 else None.

Definition circle_winner (a b : string) (i j : Z) : string :=
  if (i - j) mod 3 =? 0 then "" else if (i - j) mod 3 =? 1 then a else b.

(** A round between two hands, won by whoever's hand is one step ahead. *)
Definition fair_round (a b : string) (r : roundResult) : Prop :=
  ∃ x y i j, rr_ChoiceA r = String x "" ∧ rr_ChoiceB r = String y "" ∧ hand x = Some i ∧ hand y = Some j ∧
    rr_Winner r = circle_winner a b i j.

Definition wins (p : string) (h : list roundResult) : Z := Z.of_nat (length (filter (λ r, rr_Winner r = p) h)).

(** The winner of a match with these rounds; empty while it is open. *)
Definition verdict (a b : string) (h : list roundResult) : string :=
  if 2 <=? wins a h then a else if 2 <=? wins b h then b
  else if (length h <? 3)%nat then ""
  else if wins b h <? wins a h then a else if wins a h <? wins b h then b else "draw".

(** Two players the game can tell apart, from each other and from its markers. *)
Definition roster_ok (a b : string) : Prop := a <> b ∧ a <> "" ∧ b <> "" ∧ a <> "draw" ∧ b <> "draw".

Record rps_ok (a b : string) (s : gameState) : Prop := {
  rk_roster : playerA s = a ∧ playerB s = b;
  rk_round : Round s = 1 + Z.of_nat (length (History s));
  rk_scores : scoreA s = wins a (History s) ∧ scoreB s = wins b (History s);
  rk_choices : Choices s = ∅ ∨ ∃ p c i, (p = a ∨ p = b) ∧ hand c = Some i ∧ Choices s = {[ p := c ]};
  rk_fair : Forall (fair_round a b) (History s);
  rk_numbered : ∀ k r, History s !! k = Some r → rr_Round r = 1 + Z.of_nat k;
  rk_verdict : matchWinner s = verdict a b (History s) ∧ MatchWinner s = matchWinner s;
  rk_open : ∀ k, (k < length (History s))%nat → verdict a b (take k (History s)) = "";
}.

Definition plays (a b : string) (action : PlayerAction) : Prop := pa_PlayerId action = a ∨ pa_PlayerId action = b.

#[export] Instance plays_dec a b action : Decision (plays a b action).
Proof. unfold plays. apply _. Defined.

Lemma normalize_hand c : normalize c = zero ∨ ∃ i, hand (normalize c) = Some i.
Proof. unfold normalize. repeat case_bool_decide; [right..|by left]; by eexists. Qed.

Lemma hand_not_zero c i : hand c = Some i → c <> zero.
Proof. by intros H ->. Qed.

(** The source's table is the circle. *)
Lemma decideRound_circle a b x y i j : hand x = Some i → hand y = Some j → decideRound x y a b = circle_winner a b i j.
Proof.
  unfold hand. repeat case_bool_decide; intros [= <-] [= <-]; subst; vm_compute; reflexivity.
Qed.

Lemma circle_cases a b i j : circle_winner a b i j = "" ∨ circle_winner a b i j = a ∨ circle_winner a b i j = b.
Proof. unfold circle_winner. repeat case_match; auto. Qed.

Lemma wins_snoc p h r : wins p (h ++ [r]) = wins p h + (if bool_decide (rr_Winner r = p) then 1 else 0).
Proof.
  unfold wins. rewrite filter_app, length_app, filter_cons. case_bool_decide; case_decide; simpl; try done; lia.
Qed.

Lemma wins_bound a b h : a <> b → wins a h + wins b h ≤ Z.of_nat (length h).
Proof.
  intros Hne. induction h as [|r h IH] using rev_ind; [done|]. rewrite !wins_snoc, length_app. simpl. repeat case_bool_decide; simplify_eq; lia.
Qed.

Section rules.
Context (a b : string) (Hroster : roster_ok a b).

(** While nobody has won, at most two rounds were played. *)
Lemma open_bounds h : verdict a b h = "" → wins a h < 2 ∧ wins b h < 2 ∧ (length h < 3)%nat.
Proof.
  destruct Hroster as (Hne & Ha & Hb & _). unfold verdict.
  destruct (Z.leb_spec 2 (wins a h)); [done|]. destruct (Z.leb_spec 2 (wins b h)); [done|].
  destruct (Nat.ltb_spec (length h) 3); [done|]. destruct (wins b h <? wins a h); [done|]. by destruct (wins a h <? wins b h).
Qed.

Definition with_choices (m : gmap string ascii) (s : gameState) : gameState :=
  mkGameState (playerA s) (playerB s) (Round s) (Scores s) m (History s) (MatchWinner s) (scoreA s) (scoreB s) (matchWinner s).

Definition round_of (s : gameState) (x y : ascii) (i j : Z) : roundResult :=
  mkRoundResult (Round s) (circle_winner a b i j) (String x "") (String y "").

Lemma resolve_fields s m x y i j :
  rps_ok a b s → m !! a = Some x → m !! b = Some y → hand x = Some i → hand y = Some j →
  let h := History s ++ [round_of s x y i j] in
  let s' := resolveRound (with_choices m s) in
  playerA s' = a ∧ playerB s' = b ∧ Round s' = Round s + 1 ∧ Choices s' = ∅ ∧ History s' = h ∧
  scoreA s' = wins a h ∧ scoreB s' = wins b h ∧ MatchWinner s' = matchWinner s' ∧
  (matchWinner s = "" → matchWinner s' = verdict a b h).
Proof.
  intros [[EA EB] ER [SA SB] _ _ _ _ _] Hx Hy Hi Hj h s'. destruct Hroster as (Hne & Ha & Hb & _).
  assert (Hw : decideRound x y a b = circle_winner a b i j) by (by apply decideRound_circle).
  assert (Hsc : (if bool_decide (circle_winner a b i j = a) then (scoreA s + 1, scoreB s, <[a := scoreA s + 1]> (Scores s))
    else if bool_decide (circle_winner a b i j = b) then (scoreA s, scoreB s + 1, <[b := scoreB s + 1]> (Scores s)) else (scoreA s, scoreB s, Scores s)).1
    = (wins a h, wins b h)).
  { unfold h. rewrite !wins_snoc, SA, SB. simpl. repeat case_bool_decide; simplify_eq/=; try congruence; f_equal; lia. }
  unfold s', resolveRound, with_choices, choice_of. cbn [playerA playerB Choices scoreA scoreB Scores History Round matchWinner].
  rewrite EA, EB, Hx, Hy. cbn [from_option id]. rewrite Hw. cbv zeta.
  destruct (if bool_decide (circle_winner a b i j = a) then _ else _) as [[sA sB] scores]. simpl in Hsc. injection Hsc as -> ->.
  cbn [playerA playerB Choices scoreA scoreB Scores History Round matchWinner MatchWinner]. split_and!; try done.
  intros Ho. unfold winsToWin, rounds, verdict. rewrite ER.
  destruct (2 <=? wins a h); [done|]. destruct (2 <=? wins b h); [done|].
  assert (Hl : length h = S (length (History s))) by (unfold h; rewrite length_app; simpl; lia).
  destruct (Z.leb_spec 3 (1 + Z.of_nat (length (History s)))), (Nat.ltb_spec (length h) 3); try lia; done.
Qed.

Lemma resolve_ok s m x y i j :
  rps_ok a b s → matchWinner s = "" → m !! a = Some x → m !! b = Some y → hand x = Some i → hand y = Some j →
  let s' := resolveRound (with_choices m s) in
  rps_ok a b s' ∧ History s' = History s ++ [round_of s x y i j] ∧ Choices s' = ∅.
Proof.
  intros Hs Ho Hx Hy Hi Hj s'. destruct (resolve_fields s m x y i j Hs Hx Hy Hi Hj) as (EA & EB & ER & EC & EH & SA & SB & EM & EV).
  fold s' in EA, EB, ER, EC, EH, SA, SB, EM, EV. split; [|done]. destruct Hs as [HR HRo HS HC HF HN [HV HM] HO]. split.
  - done.
  - rewrite ER, EH, HRo, length_app. simpl. lia.
  - by rewrite EH.
  - by left.
  - rewrite EH. apply list.Forall_app. split; [done|]. apply Forall_singleton. by exists x, y, i, j.
  - intros k r. rewrite EH. intros [Hk|[Hk Hr]]%lookup_app_Some; [by apply HN|].
    destruct (k - length (History s))%nat as [|k'] eqn:E; [|done]. injection Hr as <-. simpl. rewrite HRo. lia.
  - split; [|done]. rewrite EH. by apply EV.
  - intros k Hk. rewrite EH, length_app in *. simpl in Hk. rewrite take_app_le by lia.
    destruct (decide (k = length (History s))) as [->|Hne]; [rewrite firstn_all; congruence|apply HO; lia].
Qed.

Lemma wait_ok s p c i :
  rps_ok a b s → Choices s = ∅ → (p = a ∨ p = b) → hand c = Some i → rps_ok a b (with_choices {[ p := c ]} s).
Proof. intros [HR HRo HS HC HF HN HV HO] _ Hp Hc. split; try done. right. by exists p, c, i. Qed.

(** An action either resolves a round between both players' hands, or leaves the rounds as they are. *)
Lemma applyAction_ok action s :
  rps_ok a b s → matchWinner s = "" → plays a b action →
  let '(resolved, s') := applyAction action s in
  rps_ok a b s' ∧ (if resolved : bool then length (History s') = S (length (History s)) else History s' = History s ∧ matchWinner s' = matchWinner s).
Proof.
  intros Hs Ho Hp. unfold applyAction. destruct (pa_Payload action) as [|c rest]; [done|]. cbv zeta.
  destruct (normalize_hand c) as [Hz|[i Hi]]; [by rewrite Hz, bool_decide_eq_true_2|].
  rewrite bool_decide_eq_false_2 by (by eapply hand_not_zero). set (x := normalize c) in *.
  destruct (rk_choices _ _ _ Hs) as [HC|(q & d & j & Hq & Hd & HC)].
  - rewrite HC, lookup_empty. cbn [Choices]. rewrite insert_empty, map_size_singleton. cbn [Nat.ltb Nat.leb].
    split; [|done]. by eapply (wait_ok s).
  - destruct (decide (pa_PlayerId action = q)) as [->|Hne].
    { by rewrite HC, lookup_singleton_eq. }
    rewrite HC, lookup_singleton_ne by done. cbn [Choices].
    rewrite map_size_insert_None by (by apply lookup_singleton_ne). rewrite map_size_singleton. cbn [Nat.ltb Nat.leb].
    destruct Hroster as (Hab & _).
    assert (Hm : ∃ u v k l, (<[pa_PlayerId action := x]> {[ q := d ]} : gmap string ascii) !! a = Some u ∧
      (<[pa_PlayerId action := x]> {[ q := d ]} : gmap string ascii) !! b = Some v ∧ hand u = Some k ∧ hand v = Some l).
    { destruct Hp as [Hp|Hp], Hq as [-> | ->]; rewrite Hp in *; try done.
      - exists x, d, i, j. rewrite lookup_insert_eq, lookup_insert_ne by done. by rewrite lookup_singleton_eq.
      - exists d, x, j, i. rewrite lookup_insert_eq, lookup_insert_ne by done. by rewrite lookup_singleton_eq. }
    destruct Hm as (u & v & k & l & Hu & Hv & Hk & Hl).
    destruct (resolve_ok s _ u v k l Hs Ho Hu Hv Hk Hl) as (Hok & Hh & _). split; [exact Hok|].
    unfold with_choices in Hh. rewrite Hh, length_app. simpl. lia.
Qed.

Lemma applyActions_ok actions progressed s :
  rps_ok a b s → Forall (plays a b) actions → rps_ok a b (applyActions actions progressed s).2.
Proof.
  intros Hs Ha. revert progressed s Hs. induction Ha as [|action actions Hp Ha IH]; intros progressed s Hs; simpl; [done|].
  case_bool_decide as Ho; [done|]. pose proof (applyAction_ok action s Hs ltac:(first [exact Ho|exact (dec_stable _ Ho)]) Hp) as H.
  destruct (applyAction action s) as [resolved s']. apply IH. by destruct H.
Qed.

Definition play (reqs : list OnTickRequest) (s : gameState) : gameState := foldl (λ s req, (OnTick req s).2) s reqs.

Lemma OnTick_state req s : (OnTick req s).2 = (applyActions (tr_Actions req) false s).2.
Proof. unfold OnTick. by destruct (applyActions _ _ _). Qed.

Lemma play_ok reqs s :
  rps_ok a b s → Forall (λ req, Forall (plays a b) (tr_Actions req)) reqs → rps_ok a b (play reqs s).
Proof.
  intros Hs Hr. revert s Hs. induction Hr as [|req reqs Hq Hr IH]; intros s Hs; simpl; [done|]. apply IH.
  rewrite OnTick_state. by apply applyActions_ok.
Qed.

Lemma start_ok : rps_ok a b (set_roster a b newGameState).
Proof. split; simpl; try done; [by left|by intros k Hk; lia]. Qed.

(** What a tick reports is what the state says. *)
Lemma OnTick_report req s : ∃ delta, (OnTick req s).1 = Ok (mkOnTickResponse delta [] (bool_decide (matchWinner (OnTick req s).2 <> ""))).
Proof. unfold OnTick. destruct (applyActions _ _ _) as [[] s']; simpl; by eexists. Qed.

(** A tick in which both players play a hand. *)
Definition both_play (tick : Z) (now : time) (x y : ascii) : OnTickRequest :=
  mkOnTickRequest tick now [mkPlayerAction a tick (String x ""); mkPlayerAction b tick (String y "")] [].

Definition valid_hand (c : ascii) : Prop := normalize c <> zero.

Lemma apply_first p t c s :
  valid_hand c → Choices s = ∅ → applyAction (mkPlayerAction p t (String c "")) s = (false, with_choices {[ p := normalize c ]} s).
Proof.
  intros Hc HC. unfold applyAction. cbn [pa_Payload pa_PlayerId]. cbv zeta. rewrite bool_decide_eq_false_2 by done.
  rewrite HC, lookup_empty. cbn [Choices]. by rewrite insert_empty, map_size_singleton.
Qed.

Lemma apply_second p q t c d s :
  valid_hand c → p <> q → Choices s = {[ q := d ]} →
  applyAction (mkPlayerAction p t (String c "")) s = (true, resolveRound (with_choices (<[p := normalize c]> {[ q := d ]}) s)).
Proof.
  intros Hc Hne HC. unfold applyAction. cbn [pa_Payload pa_PlayerId]. cbv zeta. rewrite bool_decide_eq_false_2 by done.
  rewrite HC, lookup_singleton_ne by done. cbn [Choices].
  rewrite map_size_insert_None by (by apply lookup_singleton_ne). by rewrite map_size_singleton.
Qed.

Lemma both_play_ok t now x y s :
  rps_ok a b s → Choices s = ∅ → valid_hand x → valid_hand y →
  let s' := (OnTick (both_play t now x y) s).2 in
  rps_ok a b s' ∧ Choices s' = ∅ ∧ (matchWinner s = "" → length (History s') = S (length (History s))) ∧ (matchWinner s <> "" → s' = s).
Proof.
  intros Hs HC Hx Hy. destruct Hroster as (Hab & _). destruct (normalize_hand x) as [?|[i Hi]]; [done|]. destruct (normalize_hand y) as [?|[j Hj]]; [done|].
  rewrite OnTick_state. cbn [both_play tr_Actions applyActions]. case_bool_decide as Ho; [done|].
  assert (Ho' : matchWinner s = "") by (destruct (decide (matchWinner s = "")); naive_solver).
  rewrite (apply_first a t x s Hx HC). change (matchWinner (with_choices {[ a := normalize x ]} s)) with (matchWinner s). rewrite bool_decide_eq_false_2 by (by intros ?).
  rewrite (apply_second b a t y (normalize x)) by (try done; by apply not_eq_sym). cbn [snd].
  change (with_choices (<[b := normalize y]> {[ a := normalize x ]}) (with_choices {[ a := normalize x ]} s))
    with (with_choices (<[b := normalize y]> {[ a := normalize x ]}) s).
  destruct (resolve_ok s (<[b := normalize y]> {[ a := normalize x ]}) (normalize x) (normalize y) i j Hs Ho') as (Hok & Hh & He).
  - rewrite lookup_insert_ne by done. apply lookup_singleton_eq.
  - apply lookup_insert_eq.
  - done.
  - done.
  - split; [exact Hok|]. split; [exact He|]. split; [|done]. intros _. rewrite Hh, length_app. simpl. lia.
Qed.

Lemma rankOf_winner s p : p <> "" → p <> "draw" → rankOf s p = 1 ↔ matchWinner s = p.
Proof.
  intros H1 H2. unfold rankOf. case_bool_decide as Hw; [|case_bool_decide; done].
  split; [done|]. intros E. by destruct Hw; congruence.
Qed.

(** If the match is still open afterwards, the tick played a round. *)
Lemma both_play_progress t now x y s :
  rps_ok a b s → Choices s = ∅ → valid_hand x → valid_hand y →
  ∃ s', (OnTick (both_play t now x y) s).2 = s' ∧ rps_ok a b s' ∧ Choices s' = ∅ ∧
    (matchWinner s' = "" → matchWinner s = "" ∧ length (History s') = S (length (History s))).
Proof.
  intros Hs HC Hx Hy. destruct (both_play_ok t now x y s Hs HC Hx Hy) as (H1 & H2 & H3 & H4).
  exists (OnTick (both_play t now x y) s).2. split; [reflexivity|]. split; [exact H1|]. split; [exact H2|]. revert H3 H4.
  generalize (OnTick (both_play t now x y) s).2. intros s' H3 H4 E. destruct (decide (matchWinner s = "")) as [Es|Es]; [auto|].
  rewrite (H4 Es) in E. contradiction.
Qed.

(** as long as only the two players act, the game is a fair best of three at every moment,
    however their inputs are split into ticks: every recorded round was between one hand of each and
    is won by the hand one step ahead on the circle (equal hands tie), rounds are numbered in order,
    the scores count the rounds won, the match winner is the best-of-three verdict of the history,
    and no round is played once it is decided, so there are at most three; the ranks follow it. *)
Theorem rps_best_of_three reqs :
  Forall (λ req, Forall (plays a b) (tr_Actions req)) reqs →
  let s := play reqs (Init [a; b] Factory_Create).2 in
  Forall (fair_round a b) (History s) ∧ (∀ k r, History s !! k = Some r → rr_Round r = 1 + Z.of_nat k) ∧
  scoreA s = wins a (History s) ∧ scoreB s = wins b (History s) ∧
  matchWinner s = verdict a b (History s) ∧
  (∀ k, (k < length (History s))%nat → verdict a b (take k (History s)) = "") ∧ (length (History s) ≤ 3)%nat ∧
  (rankOf s a = 1 ↔ matchWinner s = a) ∧ (rankOf s b = 1 ↔ matchWinner s = b).
Proof.
  intros Hr s. assert (Hs : rps_ok a b s) by (apply play_ok; [apply start_ok|done]). clearbody s.
  destruct Hs as [HR HRo [SA SB] HC HF HN [HV HM] HO]. destruct Hroster as (Hne & Ha & Hb & Hda & Hdb).
  split_and!; [exact HF|exact HN|exact SA|exact SB|exact HV|exact HO| |by apply rankOf_winner|by apply rankOf_winner].
  - destruct (Nat.le_gt_cases (length (History s)) 3) as [?|Hgt]; [done|]. exfalso.
    pose proof (HO (length (History s) - 1)%nat ltac:(lia)) as Hv. apply open_bounds in Hv as (_ & _ & Hl). rewrite length_take in Hl. lia.
Qed.

(** the game ends: after three ticks in which both players play a hand (in upper or lower case)
    the match is decided, and the last of them reports it. *)
Theorem rps_ends x1 y1 x2 y2 x3 y3 t1 t2 t3 now :
  Forall valid_hand [x1; y1; x2; y2; x3; y3] →
  let s := play [both_play t1 now x1 y1; both_play t2 now x2 y2] (Init [a; b] Factory_Create).2 in
  matchWinner (OnTick (both_play t3 now x3 y3) s).2 <> "" ∧
  ∃ delta, (OnTick (both_play t3 now x3 y3) s).1 = Ok (mkOnTickResponse delta [] true).
Proof.
  rewrite !list.Forall_cons. intros (H1 & H2 & H3 & H4 & H5 & H6 & _). cbn [play foldl].
  destruct (both_play_progress t1 now x1 y1 (Init [a; b] Factory_Create).2 start_ok eq_refl H1 H2) as (s1 & -> & A1 & B1 & C1).
  destruct (both_play_progress t2 now x2 y2 s1 A1 B1 H3 H4) as (s2 & -> & A2 & B2 & C2).
  destruct (both_play_progress t3 now x3 y3 s2 A2 B2 H5 H6) as (s3 & E3 & A3 & B3 & C3). cbv zeta.
  destruct (OnTick_report (both_play t3 now x3 y3) s2) as [delta Hd]. rewrite Hd, E3.
  assert (Hw : matchWinner s3 <> "").
  { intros E. destruct (rk_verdict _ _ _ A3) as [EV _]. rewrite E in EV. symmetry in EV. apply open_bounds in EV as (_ & _ & Hl).
    destruct (C3 E) as [E2 L3]. destruct (C2 E2) as [E1 L2]. destruct (C1 E1) as [_ L1]. rewrite L3, L2, L1 in Hl. simpl in Hl. lia. }
  split; [exact Hw|]. exists delta. by rewrite bool_decide_eq_true_2.
Qed.
End rules.

(** ** Evaluated instances *)

Lemma demo_roster : roster_ok "ann" "bob".
Proof. by_compute. Qed.

(** Ann plays rock, rock; Bob scissors, paper, and both the third time: ticks split the inputs. *)
Definition demo_inputs : list OnTickRequest :=
  [mkOnTickRequest 0 0 [mkPlayerAction "ann" 0 "R"] []; mkOnTickRequest 1 0 [mkPlayerAction "bob" 0 "s"; mkPlayerAction "bob" 0 "p"; mkPlayerAction "ann" 0 "R"] [];
   mkOnTickRequest 2 0 [mkPlayerAction "ann" 0 "S"; mkPlayerAction "bob" 0 "P"] []].

Lemma rps_best_of_three_witness :
  matchWinner (play demo_inputs (Init ["ann"; "bob"] Factory_Create).2) = verdict "ann" "bob" (History (play demo_inputs (Init ["ann"; "bob"] Factory_Create).2)) ∧
  length (History (play demo_inputs (Init ["ann"; "bob"] Factory_Create).2)) = 3%nat.
Proof.
  split; [|vm_compute; reflexivity].
  pose proof (rps_best_of_three "ann" "bob" demo_roster demo_inputs ltac:(by_compute)) as H. cbv zeta in H.
  exact (proj1 (proj2 (proj2 (proj2 (proj2 H))))).
Defined.

Lemma rps_ends_witness :
  matchWinner (OnTick (both_play "ann" "bob" 2 0 "P"%char "P"%char)
    (play [both_play "ann" "bob" 0 0 "R"%char "r"%char; both_play "ann" "bob" 1 0 "s"%char "S"%char] (Init ["ann"; "bob"] Factory_Create).2)).2 <> "".
Proof.
  exact (proj1 (rps_ends "ann" "bob" demo_roster "R"%char "r"%char "s"%char "S"%char "P"%char "P"%char 0 1 2 0
    ltac:(repeat constructor; discriminate))).
Defined.

(** The action of somebody who is not in the roster counts as a hand: Ann's rock against an outsider
    loses the round to Bob, who has not played. *)
Example outsider_forfeits_round :
  let s := play [mkOnTickRequest 0 0 [mkPlayerAction "ann" 0 "R"; mkPlayerAction "eve" 0 "R"] []] (Init ["ann"; "bob"] Factory_Create).2 in
  History s = [mkRoundResult 1 "bob" "R" (String zero "")].
Proof. vm_compute. reflexivity. Qed.
