(* ===== verification/RpsCli.v ===== *)
(** * The rock-paper-scissors client (examples/rps/cmd/rps-cli)

    The terminal program around the client SDK: [run] logs in, queues, waits, connects and plays,
    while [watchFrames] reads what the room sends and cancels the play when the game is over.  What
    the select of a loop receives, the lines of the terminal and the random numbers are arguments;
    what the program prints is left out. *)

From stdpp Require Import pretty.
From S2P Require Import Prelude GoBase GoStrings Gateway Room RoomServer Client ClientSession.

(** ** Watching the frames *)

(** The loop over [session.Frames()], whose list is what the channel carries until it is closed: what
    it consumes, and whether it left at a "game_ended" event.  Either way the play is cancelled. *)
Fixpoint watchFrames (frames : list Frame) : list Frame * bool :=
  match frames with
  | [] => ([], false)
  | Frame_Event type payload :: frames' =>
      if bool_decide (type = "game_ended") then ([Frame_Event type payload], true)
      else let '(seen, ended) := watchFrames frames' in (Frame_Event type payload :: seen, ended)
  | Frame_Delta from to payload :: frames' =>
      let '(seen, ended) := watchFrames frames' in (Frame_Delta from to payload :: seen, ended)
  end.

(** ** Playing *)

Section play.
Context {FC : FrameCodec} {CC : ClientCodec}.
(** The session's answers to its datagrams. *)
Context (sendDatagram : string → option error).

Definition choices : list ascii := ["R"%char; "P"%char; "S"%char].

(** What the select of [playAuto] receives: the end of the context, or a tick with the [rand.Intn]
    it then draws. *)
Inductive auto_wake := AutoDone | AutoTick (n : nat).

(** The datagrams sent, and what is returned; [None] while the loop is still waiting. *)
Fixpoint auto_from (tick : Z) (wakes : list auto_wake) : list string * option (res unit) :=
  match wakes with
  | [] => ([], None)
  | AutoDone :: _ => ([], Some (Ok tt))
  | AutoTick n :: wakes' =>
      let c := nth (n mod 3)%nat choices "R"%char in
      match SendInput sendDatagram tick (String c "") with
      | Err err => ([], Some (Err err))
      | Ok data => let '(sent, r) := auto_from (u32 (tick + 1)) wakes' in (data :: sent, r)
      end
  end.
Definition playAuto : list auto_wake → list string * option (res unit) := auto_from 0.

(** [strings.ToUpper(line)[0]] when it is R, P or S.  The first byte of the upper case is that of its
    first rune; the long s (U+017F) is the one rune outside ASCII whose upper case is one of these. *)
Definition parseChoice (line : string) : option ascii :=
  match head (runes line) with
  | Some (r, _) =>
      if (r =? 82) || (r =? 114) then Some "R"%char
      else if (r =? 80) || (r =? 112) then Some "P"%char
      else if (r =? 83) || (r =? 115) || (r =? 383) then Some "S"%char
      else None
  | None => None
  end.

(** What [Scan] answers: a line, or the end of the input with [reader.Err()]. *)
Inductive scan := Line (text : string) | EndOfInput (err : option error).

(** One iteration: whether the context is over when it starts, and what [Scan] then answers. *)
Fixpoint interactive_from (tick : Z) (turns : list (bool * scan)) : list string * option (res unit) :=
  match turns with
  | [] => ([], None)
  | (true, _) :: _ => ([], Some (Ok tt))
  | (false, EndOfInput None) :: _ => ([], Some (Ok tt))
  | (false, EndOfInput (Some err)) :: _ => ([], Some (Err err))
  | (false, Line text) :: turns' =>
      let line := TrimSpace text in
      if bool_decide (line = "") then interactive_from tick turns'
      else match parseChoice line with
      | None => interactive_from tick turns'
      | Some choice =>
          match SendInput sendDatagram tick (String choice "") with
          | Err err => ([], Some (Err err))
          | Ok data => let '(sent, r) := interactive_from (u32 (tick + 1)) turns' in (data :: sent, r)
          end
      end
  end.
Definition playInteractive : list (bool * scan) → list string * option (res unit) := interactive_from 0.
End play.

(** ** The program *)

Record cli_flags := mkFlags { fl_device : string; fl_nickname : string; fl_auto : bool }.

(** What happens at the session. *)
Inductive cli_call := Dialed (path hello : string) | SentInput (data : string) | SessionClosed.

Section run.
Context {N : Type} {NW : Network N} {T : JsonText} {FC : FrameCodec} {CC : ClientCodec}.

(** The transport's answers to the connection and to the datagrams. *)
Record cli_transport := mkTransport { ct_dialed : option error; ct_opened : option error; ct_written : option error;
  ct_closed : option error; ct_datagram : string → option error }.

Definition device_of (flags : cli_flags) (unixNano : Z) : string :=
  if bool_decide (fl_device flags = "") then "rps-cli-" +:+ pretty unixNano else fl_device flags.

(** From the login to the match. *)
Definition findMatch (flags : cli_flags) (unixNano : Z) : M (Client * N) ClientMatch :=
  _ ← Client_LoginAnonymous (device_of flags unixNano) (fl_nickname flags);
  ticketID ← Client_CreateTicket "rps" [];
  Client_WaitForMatch ticketID.

(** [None] while the program runs; the session is closed when [run] returns. *)
Definition play_until (flags : cli_flags) (tr : cli_transport) (wakes : list auto_wake) (turns : list (bool * scan)) : list string * option (res unit) :=
  if fl_auto flags then playAuto (ct_datagram tr) wakes else playInteractive (ct_datagram tr) turns.

Definition cli_run (flags : cli_flags) (unixNano : Z) (tr : cli_transport) (wakes : list auto_wake) (turns : list (bool * scan)) (n : N)
    : list cli_call * option (res unit) :=
  match (findMatch flags unixNano (NewClient, n)).1 with
  | Err err => ([], Some (Err err))
  | Ok m =>
      match Connect (ct_dialed tr) (ct_opened tr) (ct_written tr) (ct_closed tr) m with
      | Err err => ([], Some (Err err))
      | Ok (path, hello) =>
          let '(sent, r) := play_until flags tr wakes turns in
          (Dialed path hello :: (SentInput <$> sent) ++ (if r then [SessionClosed] else []), r)
      end
  end.
End run.

(** ** What the program does *)

Lemma watch_prefix frames : ∃ rest, frames = (watchFrames frames).1 ++ rest ∧ ((watchFrames frames).2 = false → rest = []).
Proof.
  induction frames as [|[from to payload|type payload] frames (rest & E & Hr)]; [by exists []| |]; cbn [watchFrames].
  - destruct (watchFrames frames) as [seen ended]. exists rest. cbn in *. by rewrite <- E.
  - case_bool_decide; [by exists frames|]. destruct (watchFrames frames) as [seen ended]. exists rest. cbn in *. by rewrite <- E.
Qed.

(** The client leaves at the first "game_ended" event it receives, and at nothing else. *)
Lemma watch_ends frames : (watchFrames frames).2 = true ↔ ∃ payload, Frame_Event "game_ended" payload ∈ frames.
Proof.
  induction frames as [|f frames IH]; [split; [done|by intros [? ?%elem_of_nil]]|]. cbn [watchFrames].
  destruct f as [from to payload|type payload].
  - destruct (watchFrames frames) as [seen ended]. cbn in *. rewrite IH. split; intros [q Hq]; exists q; [by right|].
    by apply elem_of_cons in Hq as [?|?].
  - case_bool_decide as Ht; [subst; split; [intros _; exists payload; left|done]|].
    destruct (watchFrames frames) as [seen ended]. cbn in *. rewrite IH. split; intros [q Hq]; exists q; [by right|].
    apply elem_of_cons in Hq as [Hq|?]; [|done]. by injection Hq as <-.
Qed.

Section hands.
Context {FC : FrameCodec} {CC : ClientCodec} {FL : FrameLaws}.

(** The datagram of one of the three hands. *)
Definition hand_datagram (raw : string) : Prop :=
  ∃ tick c, c ∈ choices ∧ 0 ≤ tick < 2 ^ 32 ∧ marshal_client (PlayerInput tick (String c "")) = Some raw.

Lemma u32_range z : 0 ≤ u32 z < 2 ^ 32.
Proof. unfold u32. apply Z.mod_pos_bound. lia. Qed.

Lemma SendInput_hand sd tick c data : c ∈ choices → 0 ≤ tick < 2 ^ 32 → SendInput sd tick (String c "") = Ok data → hand_datagram data.
Proof.
  intros Hc Ht. unfold SendInput. destruct (marshal_client _) as [d|] eqn:E; [|done]. destruct (sd d); [done|]. intros [= <-]. by exists tick, c.
Qed.

Lemma SendInput_total sd tick c : (∀ d, sd d = None) → 0 ≤ tick < 2 ^ 32 → is_ok (SendInput sd tick (String c "")) = true.
Proof.
  intros Hs Ht. unfold SendInput. destruct (input_wire tick (String c "")) as (d & -> & _); [lia|]. by rewrite Hs.
Qed.

Lemma drawn_choice n : nth (n mod 3)%nat choices "R"%char ∈ choices.
Proof.
  apply list_elem_of_In, nth_In. change (length choices) with 3%nat. apply Nat.mod_upper_bound. lia.
Qed.

Lemma parsed_choice line c : parseChoice line = Some c → c ∈ choices.
Proof.
  unfold parseChoice. destruct (head (runes line)) as [[r n]|]; [|done].
  repeat (destruct (_ || _); [intros [= <-]; apply list_elem_of_In; cbn; auto|]). done.
Qed.

Lemma auto_hands sd tick wakes : 0 ≤ tick < 2 ^ 32 → Forall hand_datagram (auto_from sd tick wakes).1.
Proof.
  revert tick. induction wakes as [|[|n] wakes IH]; intros tick Ht; [constructor..|]. cbn [auto_from].
  destruct (SendInput sd tick _) as [data|e] eqn:E; [|constructor]. specialize (IH (u32 (tick + 1)) (u32_range _)).
  destruct (auto_from sd (u32 (tick + 1)) wakes) as [sent r]. constructor; [|exact IH]. eapply SendInput_hand; [apply drawn_choice|exact Ht|exact E].
Qed.

Lemma interactive_hands sd tick turns : 0 ≤ tick < 2 ^ 32 → Forall hand_datagram (interactive_from sd tick turns).1.
Proof.
  revert tick. induction turns as [|[[] [text|[err|]]] turns IH]; intros tick Ht; try (by constructor). cbn [interactive_from]. cbv zeta.
  case_bool_decide; [by apply IH|]. destruct (parseChoice (TrimSpace text)) as [c|] eqn:Ec; [|by apply IH].
  destruct (SendInput sd tick _) as [data|e] eqn:E; [|constructor]. specialize (IH (u32 (tick + 1)) (u32_range _)).
  destruct (interactive_from sd (u32 (tick + 1)) turns) as [sent r]. constructor; [|exact IH]. eapply SendInput_hand; [by eapply parsed_choice|exact Ht|exact E].
Qed.

(** Whoever plays, a client sends nothing but hands. *)
Lemma client_hands flags tr wakes turns : Forall hand_datagram (play_until flags tr wakes turns).1.
Proof. unfold play_until. destruct (fl_auto flags); [apply auto_hands|apply interactive_hands]; lia. Qed.

(** Once its context is over, a client returns, without an error if its datagrams were sent. *)
Lemma auto_returns sd tick wakes more : 0 ≤ tick < 2 ^ 32 →
  ∃ r, (auto_from sd tick (wakes ++ AutoDone :: more)).2 = Some r ∧ ((∀ d, sd d = None) → r = Ok tt).
Proof.
  revert tick. induction wakes as [|[|n] wakes IH]; intros tick Ht; [by exists (Ok tt)..|]. cbn [app auto_from].
  pose proof (SendInput_total sd tick (nth (n mod 3)%nat choices "R"%char)) as Hok. destruct (SendInput sd tick _) as [data|e].
  - destruct (IH (u32 (tick + 1)) (u32_range _)) as (r & E & Hr). destruct (auto_from sd _ _) as [sent r']. exists r. by split.
  - exists (Err e). split; [done|]. intros Hs. by specialize (Hok Hs Ht).
Qed.

(** Interactively: at the first turn that finds the context over, or before. *)
Lemma interactive_returns sd tick turns s more : 0 ≤ tick < 2 ^ 32 →
  ∃ r, (interactive_from sd tick (turns ++ (true, s) :: more)).2 = Some r.
Proof.
  revert tick. induction turns as [|[[] [text|[err|]]] turns IH]; intros tick Ht; try (by eexists). cbn [app interactive_from]. cbv zeta.
  case_bool_decide; [by apply IH|]. destruct (parseChoice (TrimSpace text)) as [c|]; [|by apply IH].
  destruct (SendInput sd tick _) as [data|e]; [|by eexists].
  destruct (IH (u32 (tick + 1)) (u32_range _)) as (r & E). destruct (interactive_from sd _ _) as [sent r']. by exists r.
Qed.
End hands.

(** A session that was opened is closed when the program returns, and nothing is sent before or after. *)
Theorem cli_closes {N : Type} {NW : Network N} {T : JsonText} {FC : FrameCodec} {CC : ClientCodec} flags unixNano tr wakes turns (n : N) :
  let '(calls, r) := cli_run flags unixNano tr wakes turns n in
  match calls with
  | [] => ∃ e, r = Some (Err e)
  | _ => ∃ path hello sent, calls = Dialed path hello :: (SentInput <$> sent) ++ (if r then [SessionClosed] else []) ∧
      (sent, r) = play_until flags tr wakes turns
  end.
Proof.
  unfold cli_run. destruct (findMatch flags unixNano (NewClient, n)).1 as [m|e]; [|by exists e].
  destruct (Connect _ _ _ _ m) as [[path hello]|e]; [|by exists e]. destruct (play_until flags tr wakes turns) as [sent r].
  by exists path, hello, sent.
Qed.

(** ** Evaluation *)

Definition quiet_line : string → option error := λ _, None.

(** Lines that are no hand are skipped; the long s is one. *)
Example hands_typed :
  parseChoice "rock" = Some "R"%char ∧ parseChoice "Paper" = Some "P"%char ∧ parseChoice (of_bytes [197; 191]) = Some "S"%char ∧
  parseChoice "lizard" = None ∧ parseChoice "" = None.
Proof. vm_compute. done. Qed.

(** The context that ends while the terminal is read is seen only at the next turn: the line typed
    after the end of the game is sent, and until it comes the program does not return. *)
Example interactive_waits_for_line :
  let play := playInteractive (CC := wire_codec) quiet_line in
  (play []).2 = None ∧ length (play [(false, Line "r"); (true, EndOfInput None)]).1 = 1%nat ∧
  (play [(false, Line "r"); (true, EndOfInput None)]).2 = Some (Ok tt).
Proof. vm_compute. done. Qed.
