(* ===== verification/RpsMatch.v ===== *)
(** * A match of rock-paper-scissors, from the terminals to the end

    Two clients of [RpsCli] in automatic mode, the room server that reads their datagrams, the match
    of [Room] on the plugin of [Rps], and the frames back to the clients.  [auto_match_ends]: once
    three exchanges of hands have been heard, whatever else was lost, reordered or preempted, the
    match is over, its result is the fair best of three, and every client stops. *)

From S2P Require Import Prelude GoBase GoStrings Room RoomServer Rps Client ClientSession RpsCli.

(** ** How many hands end a game *)

Section game.
Context (a b : string) (Hroster : roster_ok a b).

Definition play_all (actions : list PlayerAction) (s : gameState) : gameState := (applyActions actions false s).2.

Lemma applyActions_flag actions p s : (applyActions actions p s).2 = play_all actions s.
Proof.
  unfold play_all. generalize false. revert p s. induction actions as [|x l IH]; intros p s q; [done|]. cbn [applyActions].
  case_bool_decide; [done|]. destruct (applyAction x s) as [r s']. apply IH.
Qed.

Lemma play_all_cons x l s : play_all (x :: l) s = if bool_decide (matchWinner s <> "") then s else play_all l (applyAction x s).2.
Proof.
  unfold play_all at 1. cbn [applyActions]. case_bool_decide; [done|]. destruct (applyAction x s) as [r s']. apply applyActions_flag.
Qed.

Lemma play_all_won l s : matchWinner s <> "" → play_all l s = s.
Proof. intros H. destruct l; [done|]. by rewrite play_all_cons, bool_decide_eq_true_2. Qed.

Lemma play_all_app l1 l2 s : play_all (l1 ++ l2) s = play_all l2 (play_all l1 s).
Proof.
  revert s. induction l1 as [|x l1 IH]; intros s; [done|]. cbn [app]. rewrite !play_all_cons. case_bool_decide as H; [|apply IH].
  by rewrite play_all_won.
Qed.

Lemma play_all_ok l s : rps_ok a b s → Forall (plays a b) l → rps_ok a b (play_all l s).
Proof. apply (applyActions_ok a b Hroster l false). Qed.

(** A hand of [p] among the actions. *)
Definition plays_hand (p : string) (action : PlayerAction) : Prop :=
  pa_PlayerId action = p ∧ match pa_Payload action with String c _ => valid_hand c | "" => False end.
Definition heard (p : string) (actions : list PlayerAction) : Prop := Exists (plays_hand p) actions.
Definition exchange (actions : list PlayerAction) : Prop := heard a actions ∧ heard b actions.

(** The actions begin with [n] exchanges. *)
Definition exchanges (n : nat) (actions : list PlayerAction) : Prop :=
  ∃ parts rest, actions = concat parts ++ rest ∧ length parts = n ∧ Forall exchange parts.

(** A hand that does not complete a round is remembered. *)
Lemma hand_kept action s :
  let '(resolved, s') := applyAction action s in
  resolved = false → (∀ p, is_Some (Choices s !! p) → is_Some (Choices s' !! p)) ∧ ∀ p, plays_hand p action → is_Some (Choices s' !! p).
Proof.
  unfold applyAction, plays_hand. destruct (pa_Payload action) as [|c rest]; [intros _; split; [done|]; by intros p [_ []]|]. cbv zeta.
  case_bool_decide as Hz; [intros _; split; [done|]; by intros p [_ []]|].
  destruct (Choices s !! pa_PlayerId action) as [d|] eqn:E.
  { intros _. split; [done|]. intros p [<- _]. by rewrite E. }
  destruct (_ <? 2)%nat; [|done]. intros _. cbn [Choices]. split; intros p.
  - rewrite lookup_insert_is_Some. intros H. destruct (decide (pa_PlayerId action = p)); auto.
  - intros [<- _]. rewrite lookup_insert_eq. by eexists.
Qed.

(** A stretch of actions decides the game, completes a round, or keeps every hand it heard. *)
Lemma stretch l s : rps_ok a b s → Forall (plays a b) l →
  let s' := play_all l s in
  matchWinner s' <> "" ∨ (length (History s) < length (History s'))%nat ∨
  (length (History s) = length (History s') ∧ ∀ p, heard p l ∨ is_Some (Choices s !! p) → is_Some (Choices s' !! p)).
Proof.
  revert s. induction l as [|x l IH]; intros s Hs Hl.
  { cbn. right; right. split; [done|]. intros p [H|H]; [by inversion H|done]. }
  apply list.Forall_cons in Hl as [Hx Hl]. cbv zeta. rewrite play_all_cons. case_bool_decide as Hw; [by left|].
  pose proof (applyAction_ok a b Hroster x s Hs Hw Hx) as Hstep. pose proof (hand_kept x s) as Hkept.
  destruct (applyAction x s) as [resolved s1]. destruct Hstep as [Hs1 Hh]. cbn [snd].
  destruct (IH s1 Hs1 Hl) as [H|[H|[H1 H2]]]; [by left|right; left|].
  - destruct resolved; [lia|]. destruct Hh as [Hh _]. by rewrite <- Hh.
  - destruct resolved; [right; left; lia|]. destruct Hh as [Hh _]. destruct (Hkept eq_refl) as [K1 K2]. right; right.
    split; [by rewrite <- Hh|]. intros p [H|H]; apply H2; [|by right; apply K1].
    apply Exists_cons in H as [H|H]; [right; by apply K2|by left].
Qed.

Lemma exchange_progress l s : rps_ok a b s → Forall (plays a b) l → exchange l →
  matchWinner (play_all l s) <> "" ∨ (length (History s) < length (History (play_all l s)))%nat.
Proof.
  intros Hs Hl [Ha Hb]. destruct (stretch l s Hs Hl) as [H|[H|[_ H]]]; [by left|by right|exfalso].
  pose proof (H a (or_introl Ha)) as Ka. pose proof (H b (or_introl Hb)) as Kb.
  destruct (rk_choices _ _ _ (play_all_ok l s Hs Hl)) as [E|(p & c & i & _ & _ & E)]; rewrite E in *.
  - rewrite lookup_empty in Ka. by destruct Ka.
  - apply lookup_singleton_is_Some in Ka as <-, Kb as E'. by destruct Hroster.
Qed.

Lemma exchanges_progress parts s : rps_ok a b s → Forall (plays a b) (concat parts) → Forall exchange parts →
  matchWinner (play_all (concat parts) s) <> "" ∨ (length (History s) + length parts ≤ length (History (play_all (concat parts) s)))%nat.
Proof.
  revert s. induction parts as [|l parts IH]; intros s Hs Hp He; [right; cbn; lia|].
  cbn [concat] in *. apply list.Forall_app in Hp as [Hl Hp]. apply list.Forall_cons in He as [Hx He]. rewrite play_all_app.
  destruct (exchange_progress l s Hs Hl Hx) as [Hw|Hh]; [left; by rewrite play_all_won|].
  destruct (IH (play_all l s) (play_all_ok l s Hs Hl) Hp He) as [Hw|Hle]; [by left|right]. cbn [length]. lia.
Qed.

(** Three exchanges decide a game. *)
Lemma three_exchanges actions s : rps_ok a b s → Forall (plays a b) actions → exchanges 3 actions → matchWinner (play_all actions s) <> "".
Proof.
  intros Hs Hp (parts & rest & -> & Hn & He). apply list.Forall_app in Hp as [Hp Hr]. rewrite play_all_app.
  pose proof (play_all_ok _ s Hs Hp) as Hok. assert (Hw : matchWinner (play_all (concat parts) s) <> ""); [|by rewrite play_all_won].
  destruct (exchanges_progress parts s Hs Hp He) as [?|Hl]; [done|]. intros Ho.
  destruct (rk_verdict _ _ _ Hok) as [Hv _]. rewrite Ho in Hv. symmetry in Hv. apply (open_bounds a b Hroster) in Hv as (_ & _ & Hv). lia.
Qed.
End game.

(** ** What a match writes into its trace *)

Section trace.
Context {P : Type} {PL : Plugin P} {PM : ProtoMarshal} {U : UuidCodec} {RO : RangeOrder}.

(** Whatever the state, [c] appends observations that satisfy [Q], leaves the plugin and the status
    alone, and neither joins nor drops a player. *)
Record appends (Q : obs → Prop) (s s' : Match P) : Prop := {
  ap_trace : ∃ t, m_trace s' = m_trace s ++ t ∧ Forall Q t;
  ap_plugin : m_plugin s' = m_plugin s;
  ap_status : m_status s' = m_status s;
  ap_players : m_players s' = m_players s;
}.
Definition emits {A} (Q : obs → Prop) (c : M (Match P) A) : Prop := ∀ s, appends Q s (c s).2.

Context (Q : obs → Prop).

Lemma appends_refl s : appends Q s s.
Proof. split; try done. exists []. by rewrite app_nil_r. Qed.

Lemma appends_trans s1 s2 s3 : appends Q s1 s2 → appends Q s2 s3 → appends Q s1 s3.
Proof.
  intros [(t1 & E1 & H1) ? ? ?] [(t2 & E2 & H2) ? ? ?]. split; [|congruence..]. exists (t1 ++ t2).
  rewrite E2, E1, app_assoc. split; [done|]. by apply list.Forall_app.
Qed.

Lemma emits_ret {A} (x : A) : emits Q (mret x).
Proof. intros s. apply appends_refl. Qed.

Lemma emits_bind {A B} (c : M (Match P) A) (f : A → M (Match P) B) : emits Q c → (∀ x, emits Q (f x)) → emits Q (c ≫= f).
Proof.
  intros Hc Hf s. rewrite M_bind_eval. specialize (Hc s). destruct (c s) as [[x|e] s1]; cbn in *; [|done].
  eapply appends_trans; [exact Hc|apply Hf].
Qed.

Lemma emits_get {A} (f : Match P → M (Match P) A) : (∀ m, appends Q m (f m m).2) → emits Q (Prelude.get ≫= f).
Proof. intros H s. apply H. Qed.

Lemma emits_for_each {A} (f : A → M (Match P) unit) l : (∀ x, x ∈ l → emits Q (f x)) → emits Q (for_each f l).
Proof.
  induction l as [|x l IH]; intros H; cbn [for_each]; [apply emits_ret|]. apply emits_bind; [apply H; left|].
  intros _. apply IH. intros y Hy. apply H. by right.
Qed.

Lemma emits_observe o : Q o → emits Q (observe o).
Proof. intros Ho s. split; try done. exists [o]. split; [done|]. by constructor. Qed.

(** The calls of players who are seated: inputs only. *)
Definition input_of (o : room_op) : option PlayerAction :=
  match o with OpInput p t payload => Some (mkPlayerAction (uuid_String p) t payload) | _ => None end.
Definition inputs_only (o : room_op) : Prop := ∃ a, input_of o = Some a ∧ Q (OQueuedInput a) ∧ Q (ODroppedInput a).

Lemma emits_op o : inputs_only o → emits Q (run_op o).
Proof.
  intros (x & Ho & H1 & H2). destruct o as [| |p t payload]; [done..|]. injection Ho as <-. cbn [run_op]. unfold SubmitInput. cbv zeta.
  apply emits_get. intros m. destruct (_ <? 256)%nat.
  - split; try done. exists [OQueuedInput (mkPlayerAction (uuid_String p) t payload)]. split; [done|]. by constructor.
  - by apply emits_observe.
Qed.

Lemma emits_yield others : Forall inputs_only others → emits Q (yield others).
Proof. intros H. apply emits_for_each. intros o Ho. apply emits_op. by eapply list.Forall_forall in Ho. Qed.

Lemma emits_broadcast others f : Forall inputs_only others → (∀ io, Q (OSend io f)) → emits Q (broadcast others f).
Proof.
  intros Ho Hf. unfold broadcast. apply emits_get. intros m. cbv zeta. apply (emits_bind _ _ (emits_yield others Ho)).
  intros _. apply emits_for_each. intros io _. by apply emits_observe.
Qed.

(** One tick of a plugin that sends no events: the request it was given, and what it answered. *)
Lemma tick_effect now others (m : Match P) :
  (∀ k, Forall inputs_only (others k)) → (∀ io from to payload, Q (OSend io (Frame_Delta from to payload))) →
  (∀ req resp p p', pl_OnTick req p = (Ok resp, p') → tp_Events resp = []) →
  ∃ req t1 t2, let '(r, p) := pl_OnTick req (m_plugin m) in let '(r', m') := tick now others m in
    match r with Ok resp => r' = Ok (tp_GameEnded resp) | Err e => r' = Err (Wrap "plugin OnTick" e) end ∧
    m_plugin m' = p ∧ m_trace m' = m_trace m ++ t1 ++ OTick req :: t2 ∧ Forall Q t1 ∧ Forall Q t2 ∧
    m_status m' = m_status m ∧ m_players m' = m_players m.
Proof.
  intros Ho Hd Hev. unfold tick. set (m0 := (drainActions m).2).
  destruct (emits_yield (others 0%nat) (Ho _) m0) as [(t0 & E0 & Q0) P0 S0 L0]. pose proof (total_yield (others 0%nat) m0) as T0.
  rewrite M_bind_eval. change (drainActions m) with (Ok (m_inputs m) : res _, m0). cbv iota beta.
  rewrite M_bind_eval. destruct (yield (others 0%nat) m0) as [[[]|] m1]; [|done]. cbn [snd] in *.
  set (m2 := (drainEvents m1).2). rewrite M_bind_eval. change (drainEvents m1) with (Ok (m_events m1) : res _, m2). cbv iota beta.
  destruct (emits_yield (others 1%nat) (Ho _) m2) as [(t1 & E1 & Q1) P1 S1 L1]. pose proof (total_yield (others 1%nat) m2) as T1.
  rewrite M_bind_eval. destruct (yield (others 1%nat) m2) as [[[]|] m3]; [|done]. cbn [snd] in *.
  rewrite M_bind_eval. cbn [gets]. set (req := mkOnTickRequest (m_currentTick m3) now (m_inputs m) (m_events m1)).
  assert (Hp : m_plugin m3 = m_plugin m) by exact (eq_trans P1 P0).
  assert (Ht : m_trace m3 = m_trace m ++ t0 ++ t1).
  { rewrite E1. change (m_trace m2) with (m_trace m1). rewrite E0. change (m_trace m0) with (m_trace m). by rewrite <- app_assoc. }
  assert (Hs : m_status m3 = m_status m) by exact (eq_trans S1 S0).
  assert (Hl : m_players m3 = m_players m) by exact (eq_trans L1 L0).
  exists req, (t0 ++ t1). rewrite M_bind_eval. unfold call_OnTick. rewrite Hp.
  destruct (pl_OnTick req (m_plugin m)) as [[resp|e] p] eqn:Er.
  - set (m4 := (observe (OTick req) (set_plugin p m3)).2). rewrite M_bind_eval. change (observe (OTick req) (set_plugin p m3)) with (Ok tt : res _, m4). cbv iota beta.
    cbn [mret M_ret]. rewrite (Hev _ _ _ _ Er).
    set (rest := yield (others 2%nat) ≫= _).
    assert (Hrest : ∃ m5, rest m4 = (Ok (tp_GameEnded resp), m5) ∧ appends Q m4 m5).
    { pose proof (total_yield (others 2%nat) m4) as T2. pose proof (emits_yield (others 2%nat) (Ho _) m4) as A2.
      unfold rest. rewrite M_bind_eval. destruct (yield (others 2%nat) m4) as [[[]|] m5]; [|done]. cbn [snd] in A2.
      rewrite M_bind_eval. set (bc := when _ _).
      assert (A3 : emits Q bc ∧ total bc).
      { subst bc. unfold when. destruct (negb _); [split; [apply emits_broadcast; [apply Ho|auto]|apply total_broadcast]|split; [apply emits_ret|done]]. }
      destruct A3 as [A3 T3]. specialize (A3 m5). specialize (T3 m5). destruct (bc m5) as [[[]|] m6]; [|done]. cbn [snd] in A3.
      rewrite M_bind_eval. cbn [dispatchAll mret M_ret].
      pose proof (total_yield (others 4%nat) m6) as T4. pose proof (emits_yield (others 4%nat) (Ho _) m6) as A4.
      rewrite M_bind_eval. destruct (yield (others 4%nat) m6) as [[[]|] m7]; [|done]. cbn [snd] in A4.
      eexists. split; [reflexivity|]. pose proof (appends_trans _ _ _ A2 (appends_trans _ _ _ A3 A4)) as [A B C D].
      split; [exact A|exact B|exact C|exact D]. }
    destruct Hrest as (m5 & E & [(t2 & E2 & Q2) P2 S2 L2]). exists t2. rewrite E. split_and!; [done|by rewrite P2| |by apply list.Forall_app|done|by rewrite S2|by rewrite L2].
    rewrite E2. cbn. by rewrite Ht, <- !app_assoc.
  - exists []. rewrite M_bind_eval. cbn. split_and!; [done|done| |by apply list.Forall_app|done|done|done].
    by rewrite Ht, <- !app_assoc.
Qed.
End trace.

(** ** The match of two seated players *)

Definition is_delta (f : Frame) : Prop := match f with Frame_Delta _ _ _ => True | Frame_Event _ _ => False end.

(** The frames the match sends to a session. *)
Definition frames_to (io : nat) (t : list obs) : list Frame :=
  omap (λ o, match o with OSend io' f => if decide (io' = io) then Some f else None | _ => None end) t.

Lemma elem_of_frames io f t : f ∈ frames_to io t ↔ OSend io f ∈ t.
Proof.
  unfold frames_to. rewrite list_elem_of_omap. split.
  - intros (o & Ho & E). destruct o; try done. case_decide; [|done]. by simplify_eq.
  - intros H. exists (OSend io f). split; [done|]. by rewrite decide_True.
Qed.

Section match_of_two.
Context {PM : ProtoMarshal} {U : UuidCodec} {UL : UuidCodecLaws U} {RO : RangeOrder} {ROL : RangeOrderLaw RO}.
Context (pa pb : uuid) (ioa iob : nat) (Hne : pa <> pb).

Notation a := (uuid_String pa).
Notation b := (uuid_String pb).

Lemma seats_roster : roster_ok a b.
Proof.
  assert (Hd : ∀ p, uuid_String p <> "draw") by (intros p E; pose proof (uuid_string_length p) as H; rewrite E in H; discriminate H).
  split_and!; [intros E; by apply uuid_String_inj in E|apply uuid_String_nonempty..|apply Hd|apply Hd].
Qed.

Definition seated_action (x : PlayerAction) : Prop := plays_hand a x ∨ plays_hand b x.

Lemma seated_plays x : seated_action x → plays a b x.
Proof. unfold plays. intros [[? _]|[? _]]; auto. Qed.

(** What the match writes while it runs: no event is sent, only hands are queued. *)
Definition in_play (o : obs) : Prop :=
  match o with
  | OQueuedInput x => seated_action x
  | OSend _ f => is_delta f
  | OTick _ => False
  | _ => True
  end.

(** A call that brings a hand of one of the two. *)
Definition brings_hand (o : room_op) : Prop := ∃ x, input_of o = Some x ∧ seated_action x.
Definition event_ok (e : room_event) : Prop :=
  match e with
  | ROp o => brings_hand o
  | RTick _ others ending => ∀ k, Forall brings_hand (others k) ∧ Forall brings_hand (ending k)
  | RCancel _ _ => False
  end.

Lemma brings_inputs l : Forall brings_hand l → Forall (inputs_only in_play) l.
Proof. intros H. eapply list.Forall_impl; [exact H|]. intros o (x & E & Hx). exists x. by split_and!. Qed.

Lemma in_play_reads t : Forall in_play t → ticked_actions t = [] ∧ Forall seated_action (queued_inputs t).
Proof.
  induction 1 as [|o t Ho Ht [IH1 IH2]]; [done|]. destruct o; cbn; try done. split; [done|]. by constructor.
Qed.

Definition deltas_only (t : list obs) : Prop := ∀ io f, OSend io f ∈ t → is_delta f.

Lemma in_play_deltas t : Forall in_play t → deltas_only t.
Proof. intros H io f Hf. eapply list.Forall_forall in H; [|exact Hf]. exact H. Qed.

Lemma deltas_app t1 t2 : deltas_only t1 → deltas_only t2 → deltas_only (t1 ++ t2).
Proof. intros H1 H2 io f [?|?]%elem_of_app; [by eapply H1|by eapply H2]. Qed.

Definition start : gameState := (Init [a; b] Factory_Create).2.

(** What the match tells everybody at the end. *)
Definition final_report (s : gameState) : string :=
  match (OnGameEnd 0 s).1 with Ok resp => from_option id "" (marshal_end resp) | Err _ => "" end.

Record rps_inv (m : Match gameState) : Prop := {
  ri_match : match_inv m;
  ri_ticked : Forall seated_action (ticked_actions (m_trace m));
  ri_state : m_plugin m = play_all (ticked_actions (m_trace m)) start;
  ri_status : match m_status m with
    | Running => Forall seated_action (queued_inputs (m_trace m)) ∧ matchWinner (m_plugin m) = "" ∧ deltas_only (m_trace m) ∧ m_players m !! pa = Some ioa ∧ m_players m !! pb = Some iob
    | Returned (Ok _) => matchWinner (m_plugin m) <> "" ∧ ∃ t1 k t2, m_trace m = t1 ++ OGameEnd k :: t2 ∧ deltas_only t1 ∧
        ∀ io, io = ioa ∨ io = iob → OSend io (Frame_Event "game_ended" (final_report (m_plugin m))) ∈ t2
    | Returned (Err _) => False
    end;
}.

Lemma ticked_seated (m : Match gameState) : match_inv m → Forall seated_action (queued_inputs (m_trace m)) → Forall seated_action (ticked_actions (m_trace m)).
Proof. intros Hm Hq. pose proof (h_inputs _ _ _ (inv_core _ Hm)) as E. cbn in E. rewrite <- E in Hq. by apply list.Forall_app in Hq as [? _]. Qed.

Lemma ri_ok m : rps_inv m → rps_ok a b (m_plugin m).
Proof.
  intros Hm. rewrite (ri_state _ Hm). apply play_all_ok; [apply seats_roster|apply start_ok|].
  eapply list.Forall_impl; [apply (ri_ticked _ Hm)|apply seated_plays].
Qed.

(** A call does not change the game. *)
Lemma op_inv o m : brings_hand o → rps_inv m → rps_inv (run_op o m).2.
Proof.
  intros Ho Hm. pose proof (Run_step_inv (ROp o) m (ri_match _ Hm)) as (Hmi & _ & _).
  assert (Hin : inputs_only in_play o) by (destruct Ho as (x & E & Hx); exists x; by split_and!).
  unfold Run_step in Hmi. rewrite M_bind_eval in Hmi. cbn [Prelude.get] in Hmi.
  destruct (emits_op in_play o Hin m) as [(t & Et & Hq) Hp Hs Hl].
  set (m' := (run_op o m).2) in *. destruct (in_play_reads t Hq) as [Ra Rq].
  assert (Hmi' : match_inv m') by exact Hmi. destruct Hm as [_ Q1 Q2 Q3]. split; [done| | |].
  - by rewrite Et, ticked_actions_app, Ra, app_nil_r.
  - by rewrite Hp, Q2, Et, ticked_actions_app, Ra, app_nil_r.
  - rewrite Hs. destruct (m_status m) as [|[[]|e]]; [..|done].
    + rewrite Hp, Hl, Et. destruct Q3 as (? & ? & ? & ? & ?). split_and!; try done; [rewrite queued_inputs_app; by apply list.Forall_app|]. apply deltas_app; [done|by apply in_play_deltas].
    + rewrite Hp, Et. destruct Q3 as (? & t1 & k & t2 & -> & ? & Hg). split; [done|]. exists t1, k, (t2 ++ t).
      rewrite <- app_assoc. split; [done|]. split; [done|]. intros io Hio. apply elem_of_app. left. by apply Hg.
Qed.

Lemma no_events req resp s s' : OnTick req s = (Ok resp, s') → tp_Events resp = [].
Proof. destruct (OnTick_report req s) as [delta E]. intros E'. rewrite E' in E. cbn in E. by injection E as ->. Qed.

(** A tick plays what was queued; the match goes on exactly while nobody has won. *)
Lemma tick_inv now others ending m : event_ok (RTick now others ending) → rps_inv m → rps_inv (Run_step (RTick now others ending) m).2.
Proof.
  intros He Hm. pose proof (Run_step_inv (RTick now others ending) m (ri_match _ Hm)) as (Hmi & _ & _).
  unfold Run_step in *. rewrite M_bind_eval in *. cbn [Prelude.get] in *.
  destruct (m_status m) as [|r0] eqn:Est; [|exact Hm]. destruct Hm as [Hm Q1 Q2 Q3]. rewrite Est in Q3. destruct Q3 as (Hq & Hw & Hd & Hpa & Hpb).
  destruct (tick_effect in_play now others m) as (req & t1 & t2 & H).
  { intros k. apply brings_inputs, He. } { done. } { exact no_events. }
  rewrite M_bind_eval in *. unfold try in *.
  pose proof (inv_status _ Hm) as Hat. rewrite Est in Hat. destruct Hat as [Hat _].
  pose proof (tick_triple now others m m (conj (inv_core _ Hm) (conj Hat (conj eq_refl eq_refl)))) as Htr.
  destruct (OnTick_report req (m_plugin m)) as [delta Er]. cbn [pl_OnTick rps_plugin] in H.
  pose proof (OnTick_state req (m_plugin m)) as Es. destruct (OnTick req (m_plugin m)) as [r s'] eqn:Eo. cbn [fst snd] in Er, Es. subst r.
  destruct (tick now others m) as [r' m1] eqn:Et. destruct H as (-> & Hp & Etr & Qt1 & Qt2 & Hs & Hl). cbn [tp_GameEnded] in *.
  destruct (in_play_reads t1 Qt1) as [Ra1 Rq1]. destruct (in_play_reads t2 Qt2) as [Ra2 Rq2].
  assert (Hq1 : Forall seated_action (queued_inputs (m_trace m1))).
  { rewrite Etr, !queued_inputs_app. apply list.Forall_app. split; [done|]. apply list.Forall_app. by split. }
  assert (Hst1 : m_plugin m1 = play_all (ticked_actions (m_trace m1)) start).
  { rewrite Hp, Es, Etr, !ticked_actions_app, Ra1. change (ticked_actions (OTick req :: t2)) with (tr_Actions req ++ ticked_actions t2).
    by rewrite Ra2, app_nil_r, play_all_app, <- Q2. }
  assert (Hd1 : deltas_only (m_trace m1)).
  { rewrite Etr. repeat apply deltas_app; [done|by apply in_play_deltas|]. intros io f [?|Hf]%elem_of_cons; [done|]. by apply (in_play_deltas t2 Qt2 io). }
  revert Hmi. case_bool_decide as Hwin; intros Hmi.
  - destruct (finalise_spec ending m1 (proj1 Htr)) as (mb & m2 & t0 & t3 & t4 & E & Hh & Hst & Epl & Eb & _ & Etb & (Et2 & _) & Hq0 & Hq3 & Rt & Hsend).
    rewrite E in *. cbn [snd] in *.
    assert (Hpl : m_plugin m2 = m_plugin m1) by (rewrite Epl; reflexivity).
    assert (Htk : ticked_actions (m_trace m2) = ticked_actions (m_trace m1)).
    { rewrite Et2, Etb, !ticked_actions_app, Rt, (proj1 (quiet_reads t3 Hq3)).
      change (ticked_actions (OGameEnd (m_currentTick m1) :: t0)) with (ticked_actions t0). by rewrite (proj1 (quiet_reads t0 Hq0)), !app_nil_r. }
    assert (Hlb : m_players mb = m_players m).
    { pose proof (emits_yield in_play (ending 4%nat) (brings_inputs _ (proj2 (He 4%nat))) (game_over m1)) as [_ _ _ Hb].
      rewrite Eb in Hb. rewrite <- Hl. exact Hb. }
    pose proof (h_inputs _ _ _ (proj1 Htr)) as Hin. cbn in Hin. rewrite <- Hin in Hq1. apply list.Forall_app in Hq1 as [Hq1 _].
    split; [done|by rewrite Htk|by rewrite Hpl, Htk|].
    rewrite Hst. split; [by rewrite Hpl, Hp|]. exists (m_trace m1), (m_currentTick m1), (t0 ++ t3 ++ t4).
    split; [rewrite Et2, Etb; by rewrite <- ?app_assoc|]. split; [done|].
    rewrite Hpl. intros io Hio. apply elem_of_app. right. apply elem_of_app. left.
    destruct Hio as [->| ->]; eapply Hsend; rewrite Hlb; eassumption.
  - cbn [mret M_ret snd] in *. split; [done|by apply ticked_seated|done|]. rewrite Hs, Est. split_and!; [done| |done|by rewrite Hl..]. by rewrite Hp.
Qed.

(** Two players join; then inputs arrive and the ticker fires. *)
Definition seated_match (rate : Z) (es : list room_event) : Match gameState :=
  run_match (ROp (OpJoin pa ioa) :: ROp (OpJoin pb iob) :: es) (NewMatch start rate).

Lemma join_new p io (m : Match gameState) : m_players m !! p = None → (length (m_events m) < 32)%nat →
  (run_op (OpJoin p io) m).2 = mkMatch (<[p := io]> (m_players m)) (m_currentTick m) (m_tickRateHz m) (m_inputs m)
    (m_events m ++ [PlayerJoined (uuid_String p)]) (m_plugin m) (m_status m) (m_trace m ++ [OJoin p io; OQueuedEvent (PlayerJoined (uuid_String p))]).
Proof.
  intros Hp Hl. cbn [run_op]. unfold ignore, Join. rewrite M_bind_eval. cbn [Prelude.get]. rewrite Hp, M_bind_eval. cbn [modify]. rewrite M_bind_eval.
  unfold offer_event. cbn [observe modify]. rewrite M_bind_eval. cbn [Prelude.get m_events set_players]. rewrite (proj2 (Nat.ltb_lt _ _) Hl).
  rewrite M_bind_eval. cbn. by rewrite <- app_assoc.
Qed.

Lemma seated_start rate : seated_match rate [] = mkMatch (<[pb := iob]> (<[pa := ioa]> ∅)) 0 rate []
  [PlayerJoined a; PlayerJoined b] start Running [OJoin pa ioa; OQueuedEvent (PlayerJoined a); OJoin pb iob; OQueuedEvent (PlayerJoined b)].
Proof.
  unfold seated_match, run_match. cbn [foldl]. unfold Run_step. rewrite !M_bind_eval. cbn [Prelude.get].
  rewrite (join_new pa ioa (NewMatch start rate)); [|done|cbn; lia]. rewrite join_new; [done| |cbn; lia]. cbn [NewMatch m_players].
  by rewrite lookup_insert_ne.
Qed.

Lemma seated_inv rate : rps_inv (seated_match rate []).
Proof.
  split; [apply run_match_inv, new_match_inv|rewrite seated_start..]; cbn [m_trace m_plugin m_status m_players]; [constructor|reflexivity|].
  split_and!; [constructor|reflexivity| |by rewrite lookup_insert_ne, lookup_insert_eq|apply lookup_insert_eq].
  intros io f Hf. repeat (apply elem_of_cons in Hf as [?|Hf]; [done|]). by apply elem_of_nil in Hf.
Qed.

Lemma event_inv e m : event_ok e → rps_inv m → rps_inv (Run_step e m).2.
Proof.
  destruct e as [now others ending|err|o]; [apply tick_inv|done|]. intros Ho Hm. unfold Run_step. rewrite M_bind_eval. cbn [Prelude.get]. by apply op_inv.
Qed.

Lemma match_inv_runs es m : Forall event_ok es → rps_inv m → rps_inv (run_match es m).
Proof.
  intros He. revert m. induction He as [|e es He _ IH]; intros m Hm; [done|]. cbn [run_match foldl]. apply IH. by apply event_inv.
Qed.

Lemma seated_match_inv rate es : Forall event_ok es → rps_inv (seated_match rate es).
Proof. intros He. apply (match_inv_runs es (seated_match rate [])); [done|apply seated_inv]. Qed.

(** ** The two clients *)

Context {FC : FrameCodec} {CC : ClientCodec} {FL : FrameLaws}.

(** A client: how it plays, what its transport answers, and what its loops receive. *)
Record terminal := mkTerminal { tm_flags : cli_flags; tm_transport : cli_transport; tm_wakes : list auto_wake; tm_turns : list (bool * scan) }.
Definition sent_by (x : terminal) : list string := (play_until (tm_flags x) (tm_transport x) (tm_wakes x) (tm_turns x)).1.

(** What the room receives on the session of a client: any of the datagrams it sent, any number of
    times and in any order. *)
Definition arrives_from (x : terminal) (arrived : list (option string)) : Prop := ∀ raw, Some raw ∈ arrived → raw ∈ sent_by x.

Definition called_by (players : list (uuid * list (option string))) (o : room_op) : Prop :=
  ∃ p arrived, (p, arrived) ∈ players ∧ o ∈ readLoop p arrived.

(** The room's events: the ticker, and at any moment calls of the two sessions. *)
Definition called (R : room_op → Prop) (e : room_event) : Prop :=
  match e with
  | ROp o => R o
  | RTick _ others ending => ∀ k, Forall R (others k) ∧ Forall R (ending k)
  | RCancel _ _ => False
  end.

Lemma hand_valid c : c ∈ choices → valid_hand c.
Proof. intros H. repeat (apply elem_of_cons in H as [->|H]; [done|]). by apply elem_of_nil in H. Qed.

Lemma readLoop_hands p x arrived o : p = pa ∨ p = pb → arrives_from x arrived → o ∈ readLoop p arrived → brings_hand o.
Proof.
  intros Hp. induction arrived as [|[raw|] arrived IH]; intros Ha; cbn [readLoop]; [by intros ?%elem_of_nil| |by intros ?%elem_of_nil].
  assert (Hrest : o ∈ readLoop p arrived → brings_hand o) by (apply IH; intros raw' Hr; apply Ha; by right).
  pose proof (Ha raw ltac:(left)) as Hraw.
  pose proof (client_hands (tm_flags x) (tm_transport x) (tm_wakes x) (tm_turns x)) as Hh.
  eapply list.Forall_forall in Hh as (tick & c & Hc & Ht & Em); [|exact Hraw].
  destruct (input_wire tick (String c "")) as (d & Ed & Eu); [lia|]. rewrite Em in Ed. injection Ed as <-. rewrite Eu.
  intros [->|H]%elem_of_cons; [|by apply Hrest]. eexists. split; [reflexivity|].
  destruct Hp as [->| ->]; [left|right]; (split; [done|by apply hand_valid]).
Qed.

Lemma called_ok xa xb arrived_a arrived_b es :
  arrives_from xa arrived_a → arrives_from xb arrived_b →
  Forall (called (called_by [(pa, arrived_a); (pb, arrived_b)])) es → Forall event_ok es.
Proof.
  intros Ha Hb He. assert (Ho : ∀ o, called_by [(pa, arrived_a); (pb, arrived_b)] o → brings_hand o).
  { intros o (p & arrived & Hp & Hin). apply elem_of_cons in Hp as [[= -> ->]|Hp].
    - apply (readLoop_hands pa xa arrived_a o); auto.
    - apply list_elem_of_singleton in Hp as [= -> ->]. apply (readLoop_hands pb xb arrived_b o); auto. }
  eapply list.Forall_impl; [exact He|]. intros [now others ending|err|o]; cbn; [|done|apply Ho].
  intros H k. destruct (H k) as [H1 H2]. split; (eapply list.Forall_impl; [eassumption|exact Ho]).
Qed.

(** What the client's watcher makes of the frames of its session: over the streams what must arrive
    arrives, among whatever datagrams make it. *)
Definition delivered (io : nat) (t : list obs) (channel : list Frame) : Prop :=
  Forall (λ f, is_Some (marshal_frame f)) (frames_to io t) ∧
  ∃ datagramMax sendDatagram, streamLoop (carried_streams (attempts datagramMax sendDatagram (frames_to io t))) `sublist_of` channel ∧
    ∀ f, f ∈ channel → f ∈ frames_to io t.

Lemma delivered_end io t channel payload :
  delivered io t channel → OSend io (Frame_Event "game_ended" payload) ∈ t → (watchFrames channel).2 = true.
Proof.
  intros (Hm & dm & sd & Hsub & _) Hs. apply watch_ends. exists payload. destruct (events_arrive dm sd _ Hm) as [E _].
  apply (f_equal (λ l, Frame_Event "game_ended" payload ∈ l)) in E. match type of E with _ = ?B => assert (Hin : B) end.
  { apply list_elem_of_filter. split; [done|]. by apply elem_of_frames. }
  rewrite <- E in Hin. apply list_elem_of_filter in Hin as [_ Hin]. by eapply elem_of_sublist.
Qed.

Lemma delivered_open io t channel : delivered io t channel → deltas_only t → (watchFrames channel).2 = false.
Proof.
  intros (_ & _ & _ & _ & Hall) Hd. apply not_true_iff_false. intros [payload Hp]%watch_ends.
  apply Hall, elem_of_frames in Hp. exact (Hd _ _ Hp).
Qed.

(** C19: two clients play a match to its end.  Two players sit in a match of rock-paper-scissors and
    play from their terminals, typed or automatic; of the datagrams they send any may be lost,
    repeated or reordered, and the ticks of the room may be preempted anywhere by the arrival of
    others.  As long as the match runs nobody has won and neither client leaves it.  Once the ticks
    have heard three exchanges of hands the match is over, without an error, with the verdict of a
    fair best of three; both clients' watchers have seen the end of the game and cancel the play; and
    an automatic client whose datagrams are sent then returns without an error. *)
Theorem two_clients_finish rate es xa xb arrived_a arrived_b :
  arrives_from xa arrived_a → arrives_from xb arrived_b →
  Forall (called (called_by [(pa, arrived_a); (pb, arrived_b)])) es →
  let m := seated_match rate es in
  let s := m_plugin m in
  Forall (fair_round a b) (History s) ∧ matchWinner s = verdict a b (History s) ∧
  (m_status m = Running → matchWinner s = "" ∧ ∀ io channel, delivered io (m_trace m) channel → (watchFrames channel).2 = false) ∧
  (exchanges a b 3 (ticked_actions (m_trace m)) →
     m_status m = Returned (Ok tt) ∧ matchWinner s <> "" ∧
     (∀ io channel, io = ioa ∨ io = iob → delivered io (m_trace m) channel → (watchFrames channel).2 = true) ∧
     ∀ x, x = xa ∨ x = xb → fl_auto (tm_flags x) = true → (∀ d, ct_datagram (tm_transport x) d = None) →
       (play_until (tm_flags x) (tm_transport x) (tm_wakes x ++ [AutoDone]) (tm_turns x)).2 = Some (Ok tt)).
Proof.
  intros Ha Hb He m s. pose proof (seated_match_inv rate es (called_ok _ _ _ _ _ Ha Hb He)) as Hm. fold m in Hm.
  pose proof (ri_ok m Hm) as Hok. fold s in Hok. split_and!.
  - apply Hok.
  - apply Hok.
  - intros Hr. pose proof (ri_status _ Hm) as Hs. rewrite Hr in Hs. destruct Hs as (_ & Hw & Hd & _). split; [done|].
    intros io channel Hc. by eapply delivered_open.
  - intros Hx. assert (Hw : matchWinner s <> "").
    { unfold s. rewrite (ri_state _ Hm). apply (three_exchanges a b seats_roster); [apply start_ok| |done].
      eapply list.Forall_impl; [apply (ri_ticked _ Hm)|apply seated_plays]. }
    pose proof (ri_status _ Hm) as Hs. destruct (m_status m) as [|[[]|e]]; [by destruct Hs as (_ & ? & _)| |done].
    destruct Hs as (_ & t1 & k & t2 & Et & _ & Hg). split_and!; [done..| |].
    + intros io channel Hio Hc. eapply delivered_end; [exact Hc|]. rewrite Et. apply elem_of_app. right. right. by apply Hg.
    + intros x _ Hauto Hsd. unfold play_until, playAuto. rewrite Hauto.
      destruct (auto_returns (ct_datagram (tm_transport x)) 0 (tm_wakes x) [] ltac:(lia)) as (r & E & Hr). by rewrite E, Hr.
Qed.
End match_of_two.

(** ** Evaluation

    Ann draws rock, paper, scissors; Bob scissors, scissors, scissors. *)

#[local] Existing Instances hex_codec wire_frames wire_codec demo_marshal range_id range_id_law wire_laws.

Definition auto_terminal (draws : list nat) : terminal :=
  mkTerminal (mkFlags "" "" true) (mkTransport None None None None quiet_line) (AutoTick <$> draws) [].
Definition ann : terminal := auto_terminal [0; 1; 2]%nat.
Definition bob : terminal := auto_terminal [2; 2; 2]%nat.
Definition ann_id : uuid := sample_uuid x01.
Definition bob_id : uuid := sample_uuid x02.
Definition arrived_of (x : terminal) : list (option string) := Some <$> sent_by x.

(** The inputs arrive in pairs, and a tick follows each pair. *)
Definition demo_rounds (la lb : list room_op) : list room_event :=
  concat (zip_with (λ o o', [ROp o; ROp o'; RTick 0 no_calls no_calls]) la lb).
Definition demo_es : list room_event := demo_rounds (readLoop ann_id (arrived_of ann)) (readLoop bob_id (arrived_of bob)).

Lemma demo_rounds_called R la lb : (∀ o, o ∈ la → R o) → (∀ o, o ∈ lb → R o) → Forall (called R) (demo_rounds la lb).
Proof.
  revert lb. induction la as [|o la IH]; intros [|o' lb] Ha Hb; try constructor; [apply Ha; left|].
  constructor; [apply Hb; left|]. constructor; [by intros k|]. apply IH; intros x Hx; [apply Ha|apply Hb]; by right.
Qed.

Definition demo_parts : list (list PlayerAction) :=
  zip_with (λ x y, [x; y]) (omap input_of (readLoop ann_id (arrived_of ann))) (omap input_of (readLoop bob_id (arrived_of bob))).

Lemma arrived_arrives x : arrives_from x (arrived_of x).
Proof. intros raw (raw' & [= ->] & H)%list_elem_of_fmap. exact H. Qed.

Lemma demo_exchanges : exchanges (uuid_String ann_id) (uuid_String bob_id) 3 (ticked_actions (m_trace (seated_match ann_id bob_id 1 2 20 demo_es))).
Proof.
  exists demo_parts, []. split; [vm_compute; reflexivity|]. split; [vm_compute; reflexivity|].
  let parts := eval vm_compute in demo_parts in change demo_parts with parts.
  repeat (apply list.Forall_cons; split); [..|apply list.Forall_nil; exact I].
  all: split; [left|right; left]; (split; [vm_compute; reflexivity|vm_compute; discriminate]).
Qed.

Lemma two_clients_finish_witness :
  m_status (seated_match ann_id bob_id 1 2 20 demo_es) = Returned (Ok tt) ∧
  (watchFrames (frames_to 1 (m_trace (seated_match ann_id bob_id 1 2 20 demo_es)))).2 = true.
Proof.
  destruct (two_clients_finish ann_id bob_id 1 2 ltac:(discriminate) 20 demo_es ann bob (arrived_of ann) (arrived_of bob)
    (arrived_arrives ann) (arrived_arrives bob)) as (_ & _ & _ & H).
  - apply demo_rounds_called; intros o Ho; [exists ann_id, (arrived_of ann)|exists bob_id, (arrived_of bob)]; (split; [|exact Ho]); [left|right; left].
  - destruct (H demo_exchanges) as (Hr & _ & Hw & _). split; [exact Hr|]. apply (Hw 1%nat); [left; reflexivity|].
    split; [apply list.Forall_forall; intros f _; eexists; reflexivity|]. exists 1200, (λ _, Ok tt). split; [|auto].
    apply (events_arrive 1200 (λ _, Ok tt)), list.Forall_forall. intros f _. eexists; reflexivity.
Defined.

(** One round each and a tie: a draw. *)
Example demo_final :
  let s := m_plugin (seated_match ann_id bob_id 1 2 20 demo_es) in
  (matchWinner s, rr_Winner <$> History s) = ("draw", [uuid_String ann_id; uuid_String bob_id; ""]).
Proof. vm_compute. reflexivity. Qed.
